(* ===== verification/_CoqProject ===== *)
-Q . S2P
Prelude.v
Text.v
Framing.v
SimpleCodec.v
CoreErrors.v
PeerFrame.v
MailboxProtocol.v
MailboxStore.v
MailboxCodec.v
Float64.v
MailboxPolicy.v
MailboxAuth.v
DepositStore.v
MailboxDispatch.v
MailboxServer.v
Sql.v
Backoff.v
Outbox.v
Identity.v
Contacts.v
Messages.v
Receiver.v
Attachments.v
ChunkTransfer.v
AttachmentRepo.v
Hex.v
Mls.v
Samples.v
Invites.v
FirstContact.v
Mailboxes.v
Api.v
Daemon.v
MailboxClient.v
MailboxEndToEnd.v
Poll.v
PollProps.v
ContactCommands.v
SendCommands.v
MailboxCommands.v
Inbound.v
Delivery.v
Scenario.v
InboundProps.v
DeliveryProps.v
WelcomeProps.v
SendProps.v
PeerActor.v
PeerActorProps.v
PeerActorDelivery.v
PeerActorTimers.v
Conversation.v
ContactProps.v
Disk.v
Pool.v
PoolProps.v
PoolLife.v
Vault.v
VaultProps.v
Config.v
Logs.v
Migrate.v
IpcServer.v
HistoryCommands.v
AttachmentCommands.v
Host.v
HostProps.v
Execute.v
Database.v
DatabaseProps.v
Runs.v
Noise.v
NoiseProps.v
NoiseActor.v
NoiseRuns.v
Hub.v
HubProps.v
Ui.v
UiProps.v
UiConfig.v
