(* ===== verification/Prelude.v ===== *)
(** * Skattr: a verification library

    Skattr is a peer-to-peer messenger over Tor.  Three programs are verified
    here: [skattr-core] ([crates/core]), the library behind the daemon;
    [skattr-mailbox] ([crates/mailbox]), a store-and-forward server that holds
    ciphertexts for peers that are offline; and the stores of the desktop
    application ([crates/ui/src-svelte]) that hold what is on the screen.

    A sender encodes an [Envelope], encrypts it with MLS and puts it in the
    outbox.  The delivery layer retries direct connections with a backoff and
    can fall back to the recipient's mailbox server, where the recipient fetches
    and deletes deposits after a challenge-response authentication.  Received
    envelopes pass a replay window and a dedup table and end in the message
    history.  Where a peer can be reached is published in signed, versioned
    contact cards.

    Each peer has an actor that owns its encrypted connection; the hub hands it
    the messages.  The identity, the database and the configuration are files
    that are encrypted or replaced atomically.  User interfaces talk to the
    daemon over a local socket with commands, replies and events.

    ** Files

    Foundations
    - [Prelude]: results, transactions and a state-and-error monad, machine
      widths, bytes, SQL-like list operations, the tactics [widths] and [lens]
      and the hint databases [len] and [invariant].
    - [Text]: the string functions of the Rust standard library in use.
    - [Framing], [SimpleCodec]: length-prefixed frames; CBOR ([ciborium]) as a
      class with its round trip as law, and a concrete instance of it for the
      witnesses.
    - [Float64]: IEEE binary64 on [SpecFloat], with rounding bounds.
    - [Sql]: tables with [AUTOINCREMENT] ids.
    - [CoreErrors]: the error enums of [crates/core].

    Wire formats
    - [PeerFrame]: [transport/frame.rs], the frames between peers.
    - [MailboxProtocol], [MailboxCodec]: [mailbox/protocol.rs], [mailbox/auth.rs]
      and the codecs of client and server, each translated on its own.

    Mailbox server ([crates/mailbox])
    - [MailboxStore]: [store.rs]; [DepositStore]: the interface the dispatcher
      uses, as a class with laws, and its instance for the store.
    - [MailboxPolicy]: [policy.rs]; [MailboxAuth]: [auth.rs].
    - [MailboxDispatch]: the request handlers of [dispatch.rs].
    - [MailboxServer]: [server.rs] and [background.rs] as a labelled transition
      system whose labels are what the network and the clock do.

    Client ([crates/core])
    - [Backoff], [Outbox]: [delivery/backoff.rs], [storage/outbox.rs] and
      [delivery/outbox.rs].
    - [Identity]: [identity/key.rs], [contact/card.rs], [contact/self_card.rs].
    - [Contacts]: [storage/contacts.rs].
    - [Messages]: [envelope/], [storage/messages.rs], [storage/read_state.rs].
    - [Receiver]: [delivery/receiver.rs], [storage/seen_messages.rs] and the
      sweep of [delivery/hub.rs].
    - [Attachments]: [attachment/]: manifests, chunker, reassembler, chunk store
      and metadata stripper, with the chunk keys of [identity/derive.rs].
    - [ChunkTransfer]: [delivery/chunk_transfer.rs], the direct lane.
    - [AttachmentRepo]: [storage/attachments.rs] and [delivery/chunk_sweep.rs],
      the transfer state and the offline lane's sender.
    - [Hex]: [daemon/hex.rs]; [Mls]: [mls/], [storage/groups.rs] and
      [storage/key_packages.rs], the wrapper of the MLS library.
    - [Invites]: [invite/link.rs], [storage/outstanding_invites.rs];
      [FirstContact]: the welcome queue and the record of answered joins;
      [Mailboxes]: [storage/mailboxes.rs].
    - [MailboxClient], [Poll]: [mailbox/client.rs], [mailbox/poll.rs].
    - [PeerActor]: [delivery/peer.rs], the loop of a peer's actor, one event per
      iteration; [Hub]: the table of actors and channels of [delivery/hub.rs].
    - [Noise]: [transport/noise.rs], [transport/connection.rs],
      [delivery/dial.rs], and [handle_inbound_stream] of [daemon/accept.rs].

    Files on disk ([crates/core])
    - [Disk]: file operations with a plan of failures and crashes.
    - [Pool]: [storage/pool.rs] and [storage/migrations.rs], the encrypted
      database file; [Vault]: [identity/vault.rs], [identity/seed.rs],
      [identity/derive.rs], [transport/hs_key.rs] and [storage/backup.rs].
    - [Config], [Logs], [Migrate]: [daemon/config.rs], [daemon/logs.rs] and
      [daemon/migrate.rs].

    Daemon ([crates/core/src/daemon])
    - [Api]: commands, results, events and IPC types; [Daemon]: the state the
      handlers share, one database, the event log and the jobs handed out.
    - [ContactCommands], [SendCommands], [MailboxCommands]: the command handlers
      of [dispatch.rs]; [Inbound]: [inbound.rs] and [accept.rs]; [Delivery]: the
      mailbox fallback of [hub.rs] and the periodic sweeps.
    - [HistoryCommands], [AttachmentCommands], [Host]: the other handlers of
      [dispatch.rs], with [retention.rs] and [attachment_janitor.rs]; [Execute]:
      [execute_command] over all of them, and the kind of each reply.
    - [IpcServer]: [ipc/codec.rs] and the connection loop of [ipc/server/mod.rs].

    Desktop application ([crates/ui/src-svelte/src/lib])
    - [Ui]: [stores/conversation.ts], [stores/delivery.ts],
      [stores/attachments.ts] and [pubkey.ts]; [UiConfig]: [stores/config.ts]
      and the patches of the pages under [routes/settings].

    Theorems across components
    - [MailboxEndToEnd]: the client against the server's transition system;
      [PollProps]: the poll cycle; [InboundProps]: everything that can arrive;
      [DeliveryProps], [WelcomeProps]: the sweeps; [SendProps], [ContactProps]:
      the command handlers; [Conversation]: two daemons talking to each other.
    - [PeerActorProps], [PeerActorDelivery], [PeerActorTimers], [HubProps]: the
      actors; [NoiseProps], [NoiseActor]: the connection, and the accept path and
      the actor over it.
    - [PoolProps], [PoolLife], [VaultProps], [HostProps]: files under failures
      and crashes; [Database], [DatabaseProps]: the tables under everything the
      daemon does; [UiProps]: the message view, also against the daemon's own
      handler.
    - [Samples], [Scenario], [Runs], [NoiseRuns]: concrete instances of the
      library classes, a concrete pair of daemons and a concrete network, for
      the witnesses.

    ** How the code is modelled

    One Rocq definition stands for one Rust function and keeps its name; a suffix
    or prefix tells apart functions that share one.  [Result] is [result], [?] is
    [let?], and a method on [&mut self] that can fail is an [action], composed
    with [let!].  A repository over SQLite is a record of tables; a statement is
    the list operation it denotes, with unique indexes, foreign keys and triggers
    written out, and [transaction] restores the state when the body fails.
    Integers are [Z] with the wrap-around, saturation or checked conversion the
    code uses.  The clock, random bytes and random factors are arguments.

    Concurrency is a sequence of steps: an iteration of an actor's [select!], an
    operation of the hub, a half of a lock-protected update, a reply to a pending
    request.  A TypeScript function that awaits is cut at the request; what is
    left is a task that the reply resumes.  Code on files runs on [Disk]: an
    operation succeeds, fails or ends the process, as an arbitrary plan says.

    Library code is a class: CBOR, TOML, SHA-256, BLAKE2s, Ed25519, base64, FTS5,
    SQLite's files, age, Argon2id with XChaCha20-Poly1305, the backup archive,
    BIP-39, zxcvbn, openmls, snow, the attachment cipher and key derivation, the
    image library.  Laws are stated as classes of their
    own (the CBOR round trip, that a key verifies its own signatures, that
    decryption inverts encryption) and appear only where a theorem needs them.
    In the repositories statements fail by violated constraints only; that
    commits, checkpoints and file operations fail is part of [Pool].

    ** What is shown

    - Peer frames ([PeerFrame]): decoding inverts encoding and leaves following
      bytes alone; the frames read off a stream do not depend on how the stream
      is cut, for well-formed and for arbitrary input.  The stream reader's fuel
      is the length of the buffer, and each frame consumes at least one byte.
    - Mailbox codecs ([MailboxCodec]): what one side writes the other reads, and
      the two implementations agree on every input.
    - Mailbox store ([MailboxStore]): the caps hold in every reachable state;
      exactly which deposits are refused; nothing unexpired is lost to make
      room; fetch, delete and the expiry sweep do what they report.
    - Policy ([MailboxPolicy]): a full bucket admits exactly its rate at one
      instant, in floating point.
    - Authentication and handlers ([MailboxAuth], [MailboxDispatch]): exactly
      which requests pass; only the authenticated owner reads or deletes.
    - Server ([MailboxServer]): over all interleavings of connections and
      background tasks, deposits are lost only to expiry or an authentic delete,
      resource bounds hold and no nonce authenticates twice; and a queue larger
      than a frame cannot be fetched.
    - Delivery ([Backoff], [Outbox]): retry delays for every attempt count and
      jitter; enqueueing is idempotent, acknowledgement removes exactly the
      message's rows, batches are not starved by other peers.
    - Contacts ([Identity], [Contacts]): cards verify until they expire, versions
      never go back, removal is complete and local, lookups are exact.
    - History ([Messages], [Receiver]): uniqueness, the full-text index in step
      with the rows, immutability of stored messages, complete pagination,
      exact pruning, quoting of search terms, and that an envelope is announced
      once within the dedup window.
    - Attachments ([Attachments], [ChunkTransfer], [AttachmentRepo]): a file
      survives chunking and reassembly; no served chunk and no failing file
      operation produces a wrong or partial output; served chunks verify; the
      receiver's counters are exact, it loses no index and its requests are
      bounded; a transfer ends once whichever lane ends it; the offline sender
      loses no chunk that is staged; what the two file name sanitizers
      guarantee.
    - Invites and first contact ([Invites], [InboundProps], [ContactProps],
      [WelcomeProps]): a link survives its URL and only a signed, unexpired one
      parses; an invite is accepted once and joins once, over a fresh connection
      the peer that it authenticated; a Welcome is acknowledged or given up.
    - Conversations ([SendProps], [InboundProps], [Conversation]): a send is
      whole or without effect, nothing is encrypted for a contact that has not
      joined, no message is notified twice, and two daemons that share a group
      see each other's messages in order, unaltered and, within the replay
      window, without loss.
    - Offline delivery ([MailboxEndToEnd], [PollProps], [DeliveryProps]): an
      accepted deposit reaches its recipient, a poll deletes only what the daemon
      accepted, a sweep loses no queued message.
    - Actors ([PeerActorProps], [PeerActorDelivery], [PeerActorTimers],
      [HubProps]): every caller is answered once, over all peers and
      interleavings; a message leaves the outbox only by an acknowledgement or a
      deposit at a mailbox of the recipient; with a working connection a retry
      tick leaves none of the first 32 due messages waiting.  A late keepalive check can close a fresh connection.
    - Connections ([NoiseProps], [NoiseActor]): two peers that
      shake hands agree on keys and binding value; frames arrive in order however
      the bytes are cut; a first contact's Welcome is joined with the dialler's
      key and acknowledged if joined.  A message too large for one Noise message
      blocks those behind it at a peer without mailboxes.
    - Files ([PoolLife], [VaultProps], [Migrate], [HostProps]): under all
      failures and crashes the data directory stands for one database that only
      committed transactions change, a passphrase change keeps the identity, a
      backup restores, a migration keeps each file whole, the configuration file
      is replaced or kept.  A start that dies while it decrypts can lose the
      database, and a migration that stops is not resumed.
    - Daemon ([DatabaseProps], [Execute], [HistoryCommands],
      [AttachmentCommands], [IpcServer], [Logs]): the tables stay well formed
      along every run; every command has the reply of its kind; an export is
      complete; opening an attachment touches only its cache; requests are
      served in order however their bytes are cut, unless an event interrupts
      one or does not fit a frame; what the log tail can miss.
    - Desktop ([UiProps], [UiConfig]): in every order of actions, events and
      replies only the open conversation is shown; scrolling back shows the whole
      conversation, once and in order, when all its rows decode.  A page that arrives in a later visit is
      shown twice, a read cursor can reach another conversation, and the first
      of two quick edits of different settings is lost.

    Fuel: [slice_chunks] of [Attachments] uses the length of the file, and its
    pieces are proved to add up to the file; [drain] of [PeerFrame] uses the
    buffer length and is proved to reach the end of the buffer; [pages] of
    [Messages], [recent_all] and [export_all] of [HistoryCommands] are clients
    that follow a cursor, and terminate within one page per message plus one;
    [take_begins] of [PeerActor] is given one more than the transfers the daemon
    holds for the peer, of which each turn takes one.

    ** Not modelled

    Tor, the Noise and MLS protocols, SQLite and the cryptography are libraries;
    what the code relies on are the laws of their classes, and secrecy is not
    among them.  The start-up of both processes, which spawns tasks and binds
    sockets, the daemon's lock file, the transport's listener and loopback, the
    IPC client and platform sockets, the permits of the accept loop, the
    redaction of log lines, the command line, the Tauri bridge and the Svelte
    components are I/O or library calls.  Poisoned locks do not occur.  The
    tables of [Daemon] and the database file of [Pool] are two models of one
    database: a backup takes a snapshot of the one as the other, and no theorem
    relates them further. *)

From Stdlib Require Import Strings.Byte.
From Stdlib Require Export ZArith Lia.
From stdpp Require Export base sorting gmap strings pretty numbers list.

#[global] Open Scope Z_scope.

(** ** Results

    Rust's [Result<T, E>], with [?] as a bind notation in a scope of its own. *)

Inductive result (T E : Type) : Type :=
| Ok (t : T)
| Err (e : E).
Arguments Ok {T E} t.
Arguments Err {T E} e.

Definition bind_result {T U E} (r : result T E) (k : T → result U E) : result U E :=
  match r with
  | Ok t => k t
  | Err e => Err e
  end.

Definition map_err {T E F} (f : E → F) (r : result T E) : result T F :=
  match r with
  | Ok t => Ok t
  | Err e => Err (f e)
  end.

Definition ok_or {T E} (o : option T) (e : E) : result T E :=
  match o with
  | Some t => Ok t
  | None => Err e
  end.

Definition is_ok {T E} (r : result T E) : bool :=
  match r with Ok _ => true | Err _ => false end.

Declare Scope rust_scope.
Delimit Scope rust_scope with rust.
Notation "'let?' x := c 'in' k" := (bind_result c (λ x, k))
  (at level 10, x pattern, c at level 100, k at level 200) : rust_scope.
#[global] Open Scope rust_scope.

Lemma bind_Ok_inv {T U E} (r : result T E) (k : T → result U E) u :
  bind_result r k = Ok u → ∃ t, r = Ok t ∧ k t = Ok u.
Proof. destruct r; simpl; [eauto | done]. Qed.

Lemma bind_Err_inv {T U E} (r : result T E) (k : T → result U E) e :
  bind_result r k = Err e → r = Err e ∨ ∃ t, r = Ok t ∧ k t = Err e.
Proof. destruct r; simpl; [eauto | intros [=->]; eauto]. Qed.

(** [pool.transaction(f)] and [conn.transaction()]: the body runs on the
    database state, a success commits what it wrote and an error (an explicit
    rollback, or the guard dropped by [?]) leaves the state as it was. *)
Definition transaction {S T E} (s : S) (body : S → result (S * T) E) : S * result T E :=
  match body s with
  | Ok (s', t) => (s', Ok t)
  | Err e => (s, Err e)
  end.

Lemma transaction_Ok {S T E} (s s' : S) (body : S → result (S * T) E) t :
  transaction s body = (s', Ok t) ↔ body s = Ok (s', t).
Proof. unfold transaction. destruct (body s) as [[? ?]|?]; split; intros; by destruct_and?; simplify_eq. Qed.

Lemma transaction_Err {S T E} (s s' : S) (body : S → result (S * T) E) e :
  transaction s body = (s', Err e) ↔ s' = s ∧ body s = Err e.
Proof. unfold transaction. destruct (body s) as [[? ?]|?]; split; intros; by destruct_and?; simplify_eq. Qed.

(** ** Actions

    A method that mutates [S] and returns [Result<T, E>]: unlike in a
    transaction, what it did to [S] before an error stays. *)

Definition action (S T E : Type) : Type := S → S * result T E.

Definition bind_action {S T U E} (c : action S T E) (k : T → action S U E) : action S U E :=
  λ s, match c s with
       | (s', Ok t) => k t s'
       | (s', Err e) => (s', Err e)
       end.
Definition lift {S T E} (r : result T E) : action S T E := λ s, (s, r).
Definition gets {S T E} (f : S → T) : action S T E := λ s, (s, Ok (f s)).

(** [if cond { return Err(e) }]. *)
Definition ensure {S E} (cond : bool) (e : E) : action S unit E :=
  λ s, (s, if cond then Ok tt else Err e).

Notation "'let!' x := c 'in' k" := (bind_action c (λ x, k))
  (at level 10, x pattern, c at level 100, k at level 200) : rust_scope.

Lemma bind_action_Ok {S T U E} (c : action S T E) (k : T → action S U E) s s' u :
  bind_action c k s = (s', Ok u) ↔ ∃ s1 t, c s = (s1, Ok t) ∧ k t s1 = (s', Ok u).
Proof.
  unfold bind_action. split.
  - destruct (c s) as [s1 [t|e]]; [eauto|done].
  - by intros (s1 & t & -> & ?).
Qed.

Lemma bind_action_Err {S T U E} (c : action S T E) (k : T → action S U E) s s' e :
  bind_action c k s = (s', Err e) ↔
  c s = (s', Err e) ∨ ∃ s1 t, c s = (s1, Ok t) ∧ k t s1 = (s', Err e).
Proof.
  unfold bind_action. split.
  - destruct (c s) as [s1 [t|e']]; [eauto|]. intros [= -> ->]. by left.
  - by intros [->|(s1 & t & -> & ?)].
Qed.

(** A transaction whose body is an action. *)
Definition atomically {S T E} (body : action S T E) : action S T E := λ s,
  match body s with
  | (s', Ok t) => (s', Ok t)
  | (_, Err e) => (s, Err e)
  end.

Lemma atomically_Ok {S T E} (body : action S T E) s s' t :
  atomically body s = (s', Ok t) ↔ body s = (s', Ok t).
Proof. unfold atomically. destruct (body s) as [s1 [?|?]]; split; intros; by simplify_eq. Qed.

Lemma atomically_Err {S T E} (body : action S T E) s s' e :
  atomically body s = (s', Err e) ↔ s' = s ∧ ∃ s1, body s = (s1, Err e).
Proof.
  unfold atomically. destruct (body s) as [s1 [?|?]]; split.
  - done.
  - by intros [_ [? ?]].
  - intros [= <- <-]. eauto.
  - intros [-> [? [= _ ->]]]. done.
Qed.

(** ** Fields

    A component of a larger state, and its operations run on that state. *)
Record field (S A : Type) : Type := mkField { fget : S → A; fset : A → S → S }.
Arguments mkField {S A} _ _.
Arguments fget {S A} _ _.
Arguments fset {S A} _ _ _.

Definition on {S A T E} (f : field S A) (c : action A T E) : action S T E := λ s,
  let '(a, r) := c (fget f s) in (fset f a s, r).
(** An operation in the style of a transaction body. *)
Definition on_tx {S A T E} (f : field S A) (c : A → result (A * T) E) : action S T E := λ s,
  match c (fget f s) with
  | Ok (a, t) => (fset f a s, Ok t)
  | Err e => (s, Err e)
  end.
(** Statements that cannot fail, and reads. *)
Definition modify {S A E} (f : field S A) (c : A → A) : action S unit E := λ s, (fset f (c (fget f s)) s, Ok tt).
Definition modify_get {S A T E} (f : field S A) (c : A → A * T) : action S T E := λ s,
  let '(a, t) := c (fget f s) in (fset f a s, Ok t).
Definition read {S A T E} (f : field S A) (c : A → T) : action S T E := λ s, (s, Ok (c (fget f s))).
Definition read_try {S A T E} (f : field S A) (c : A → result T E) : action S T E := λ s, (s, c (fget f s)).

(** The error of an action, converted. *)
Definition map_error {S T E F} (g : E → F) (c : action S T E) : action S T F := λ s,
  let '(s', r) := c s in (s', map_err g r).

(** ** Machine integers

    A [u8], [u16], [u32], [u64] or [i64] of the source is a [Z]; the functions
    below are the width-dependent operations the source uses on them. *)

Definition u16_max : Z := 2 ^ 16 - 1.
Definition u32_max : Z := 2 ^ 32 - 1.
Definition u64_max : Z := 2 ^ 64 - 1.
Definition u128_max : Z := 2 ^ 128 - 1.
Definition i64_min : Z := - 2 ^ 63.
Definition i64_max : Z := 2 ^ 63 - 1.

Definition in_u16 (z : Z) : Prop := 0 ≤ z ≤ u16_max.
Definition in_u32 (z : Z) : Prop := 0 ≤ z ≤ u32_max.
Definition in_u64 (z : Z) : Prop := 0 ≤ z ≤ u64_max.
Definition in_i64 (z : Z) : Prop := i64_min ≤ z ≤ i64_max.

(** [a + b] on [u64] in a release build (no overflow checks). *)
Definition u64_add (a b : Z) : Z := (a + b) mod 2 ^ 64.
Definition u64_sub (a b : Z) : Z := (a - b) mod 2 ^ 64.
Definition u64_saturating_add (a b : Z) : Z := Z.min (a + b) u64_max.
Definition u32_saturating_sub (a b : Z) : Z := Z.max 0 (a - b).
Definition i64_clamp (z : Z) : Z := Z.max i64_min (Z.min i64_max z).
Definition i64_saturating_add (a b : Z) : Z := i64_clamp (a + b).
Definition i64_saturating_sub (a b : Z) : Z := i64_clamp (a - b).
Definition i64_saturating_abs (a : Z) : Z := i64_clamp (Z.abs a).
(** [a - b] on [i64] in a release build. *)
Definition i64_wrapping (z : Z) : Z := (z + 2 ^ 63) mod 2 ^ 64 - 2 ^ 63.
Definition i64_sub (a b : Z) : Z := i64_wrapping (a - b).

(** [u64::try_from(n).unwrap_or(u64::MAX)] and the like. *)
Definition u64_try_from_or_max (z : Z) : Z :=
  if decide (0 ≤ z ≤ u64_max) then z else u64_max.
Definition u32_try_from_or (d z : Z) : Z :=
  if decide (0 ≤ z ≤ u32_max) then z else d.

Ltac unfold_widths :=
  unfold in_u16, in_u32, in_u64, in_i64, u64_try_from_or_max, u32_try_from_or,
    i64_saturating_add, i64_saturating_sub, i64_saturating_abs, i64_clamp,
    u64_saturating_add, u32_saturating_sub,
    u16_max, u32_max, u64_max, u128_max, i64_min, i64_max in *.

(** Closes linear goals over fixed-width integers. *)
Ltac widths := unfold_widths; repeat case_decide; lia.

Lemma u64_add_small a b : 0 ≤ a → 0 ≤ b → a + b ≤ u64_max → u64_add a b = a + b.
Proof. intros. unfold u64_add. apply Z.mod_small. unfold_widths; lia. Qed.

Lemma u64_sub_small a b : 0 ≤ b ≤ a → a ≤ u64_max → u64_sub a b = a - b.
Proof. intros. unfold u64_sub. apply Z.mod_small. unfold_widths; lia. Qed.

Lemma i64_sub_small a b : in_i64 (a - b) → i64_sub a b = a - b.
Proof.
  intros. unfold i64_sub, i64_wrapping. rewrite Z.mod_small; unfold_widths; lia.
Qed.

(** ** Bytes *)

Abbreviation byte := Byte.byte.
Abbreviation bytes := (list Byte.byte).

#[export] Instance byte_eq_decision : EqDecision byte := Byte.byte_eq_dec.
#[export] Program Instance byte_countable : Countable byte :=
  inj_countable Byte.to_N Byte.of_N _.
Next Obligation. apply Byte.of_to_N. Qed.

Definition Z_of_byte (b : byte) : Z := Z.of_N (Byte.to_N b).
(** The [u8] cast of a non-negative integer: its low eight bits. *)
Definition byte_of_Z (z : Z) : byte :=
  default Byte.x00 (Byte.of_N (Z.to_N (z mod 256))).

Lemma Z_of_byte_range b : 0 ≤ Z_of_byte b < 256.
Proof. unfold Z_of_byte. pose proof (Byte.to_N_bounded b). lia. Qed.

Lemma byte_of_N_some n : (n < 256)%N → ∃ b, Byte.of_N n = Some b.
Proof.
  intros Hn. destruct (Byte.of_N n) eqn:E; [eauto|].
  apply Byte.of_N_None_iff in E. lia.
Qed.

Lemma Z_of_byte_of_Z z : Z_of_byte (byte_of_Z z) = z mod 256.
Proof.
  unfold Z_of_byte, byte_of_Z. pose proof (Z.mod_pos_bound z 256).
  destruct (byte_of_N_some (Z.to_N (z mod 256))) as [b Hb]; [lia|].
  rewrite Hb. simpl. apply Byte.to_of_N in Hb. lia.
Qed.

Lemma byte_of_Z_of_byte b : byte_of_Z (Z_of_byte b) = b.
Proof.
  unfold byte_of_Z, Z_of_byte. pose proof (Byte.to_N_bounded b).
  rewrite Z.mod_small by lia. rewrite N2Z.id, Byte.of_to_N. done.
Qed.

(** [u32::to_be_bytes] and [u32::from_be_bytes]. *)
Definition u32_to_be_bytes (n : Z) : bytes :=
  [byte_of_Z (n / 2 ^ 24); byte_of_Z (n / 2 ^ 16); byte_of_Z (n / 2 ^ 8); byte_of_Z n].

Definition u32_from_be_bytes (b0 b1 b2 b3 : byte) : Z :=
  Z_of_byte b0 * 2 ^ 24 + Z_of_byte b1 * 2 ^ 16 + Z_of_byte b2 * 2 ^ 8 + Z_of_byte b3.

Lemma u32_be_roundtrip n :
  in_u32 n →
  u32_from_be_bytes (byte_of_Z (n / 2 ^ 24)) (byte_of_Z (n / 2 ^ 16))
    (byte_of_Z (n / 2 ^ 8)) (byte_of_Z n) = n.
Proof.
  intros Hn. unfold u32_from_be_bytes. rewrite !Z_of_byte_of_Z. unfold_widths.
  Z.div_mod_to_equations. lia.
Qed.

Lemma u32_from_be_bytes_range b0 b1 b2 b3 : in_u32 (u32_from_be_bytes b0 b1 b2 b3).
Proof.
  unfold u32_from_be_bytes.
  pose proof (Z_of_byte_range b0). pose proof (Z_of_byte_range b1).
  pose proof (Z_of_byte_range b2). pose proof (Z_of_byte_range b3).
  unfold_widths. lia.
Qed.

Definition len {A} (l : list A) : Z := Z.of_nat (length l).

Lemma len_nonneg {A} (l : list A) : 0 ≤ len l.
Proof. unfold len. lia. Qed.
Lemma len_nil {A} : len (@nil A) = 0.
Proof. done. Qed.
Lemma len_cons {A} (x : A) l : len (x :: l) = 1 + len l.
Proof. unfold len. simpl. lia. Qed.
Lemma len_app {A} (l k : list A) : len (l ++ k) = len l + len k.
Proof. unfold len. rewrite length_app. lia. Qed.

(** Lengths: [lens] computes them over [[]], [::] and [++] and calls [lia]. *)
Create HintDb len.
#[export] Hint Rewrite @len_nil @len_cons @len_app : len.

Ltac lens :=
  autorewrite with len in *;
  repeat match goal with
    | |- context [len ?l] =>
        lazymatch goal with H : 0 ≤ len l |- _ => fail | _ => pose proof (len_nonneg l) end
    | _ : context [len ?l] |- _ =>
        lazymatch goal with H : 0 ≤ len l |- _ => fail | _ => pose proof (len_nonneg l) end
    end; lia.

(** The components' invariant lemmas: [eauto with invariant] discharges that an
    operation preserves its component's invariant. *)
Create HintDb invariant.

(** The bytes of a string literal ([b"..."] and [str::as_bytes]). *)
Definition bytes_of_string (s : string) : bytes := String.list_byte_of_string s.

(** [[b; n]]: an array filled with one byte. *)
Definition fill (n : nat) (b : byte) : bytes := replicate n b.

(** ** Tables

    A SQL table is the list of its rows in insertion order.  [SELECT ...
    WHERE] is [filter], [DELETE ... WHERE] keeps the complement, [ORDER BY]
    is [order_by]: SQL leaves the order of rows with equal keys open, and no
    theorem below depends on how [order_by] breaks ties. *)

(** [SUM(f)] over the rows. *)
Definition sum_by {A} (f : A → Z) (l : list A) : Z := foldr (λ x acc, f x + acc) 0 l.

Definition key_le {A} (key : A → Z) (x y : A) : Prop := key x ≤ key y.
#[export] Instance key_le_decision {A} (key : A → Z) x y : Decision (key_le key x y) :=
  Z.le_dec (key x) (key y).

Definition order_by {A} (key : A → Z) (l : list A) : list A := merge_sort (key_le key) l.

(** [LIMIT n]. *)
Definition limit {A} (n : Z) (l : list A) : list A := take (Z.to_nat n) l.

Section tables.
Context {A : Type}.
Implicit Types (l k : list A) (f : A → Z).

Lemma sum_by_app f l k : sum_by f (l ++ k) = sum_by f l + sum_by f k.
Proof. unfold sum_by. induction l as [|x l IH]; simpl; lia. Qed.

#[global] Instance sum_by_proper f : Proper ((≡ₚ) ==> (=)) (sum_by f).
Proof. unfold sum_by. induction 1; simpl; lia. Qed.

Lemma sum_by_nonneg f l : (∀ x, x ∈ l → 0 ≤ f x) → 0 ≤ sum_by f l.
Proof.
  unfold sum_by. induction l as [|x l IH]; simpl; [lia|]. intros Hf.
  assert (0 ≤ f x) by (apply Hf; set_solver).
  assert (0 ≤ foldr (λ x acc, f x + acc) 0 l) by (apply IH; set_solver). lia.
Qed.

#[global] Instance len_proper : Proper ((≡ₚ) ==> (=)) (@len A).
Proof. intros l k Hlk. unfold len. by rewrite Hlk. Qed.

Lemma len_filter_split (P : A → Prop) `{!∀ x, Decision (P x)} l :
  len l = len (filter P l) + len (filter (λ x, ¬ P x) l).
Proof. rewrite <- len_app. by rewrite filter_app_complement. Qed.

Lemma sum_by_filter_split f (P : A → Prop) `{!∀ x, Decision (P x)} l :
  sum_by f l = sum_by f (filter P l) + sum_by f (filter (λ x, ¬ P x) l).
Proof. rewrite <- sum_by_app. by rewrite filter_app_complement. Qed.

Lemma sum_by_filter_le f (P : A → Prop) `{!∀ x, Decision (P x)} l :
  (∀ x, x ∈ l → 0 ≤ f x) → sum_by f (filter P l) ≤ sum_by f l.
Proof.
  intros Hf. rewrite (sum_by_filter_split f P l).
  assert (0 ≤ sum_by f (filter (λ x, ¬ P x) l)); [|lia].
  apply sum_by_nonneg. intros x [_ ?]%list_elem_of_filter. by apply Hf.
Qed.

Lemma sum_by_sublist_le f l k :
  l `sublist_of` k → (∀ x, x ∈ k → 0 ≤ f x) → sum_by f l ≤ sum_by f k.
Proof.
  unfold sum_by. induction 1 as [|x l k _ IH|x l k _ IH]; simpl; intros Hf; [lia| |];
    pose proof (Hf x ltac:(set_solver)); specialize (IH ltac:(set_solver)); lia.
Qed.

Lemma sum_by_fmap {B} (g : B → A) f (l : list B) : sum_by f (g <$> l) = sum_by (λ x, f (g x)) l.
Proof. unfold sum_by. induction l as [|x l IH]; [done|]. csimpl. by rewrite IH. Qed.

Lemma order_by_Permutation f l : order_by f l ≡ₚ l.
Proof. apply merge_sort_Permutation. Qed.

Lemma elem_of_order_by f l x : x ∈ order_by f l ↔ x ∈ l.
Proof. by rewrite order_by_Permutation. Qed.

Lemma order_by_sorted f l : StronglySorted (key_le f) (order_by f l).
Proof.
  apply StronglySorted_merge_sort; unfold key_le.
  - intros x y z ??; lia.
  - intros x y; lia.
Qed.

Lemma limit_elem_of n l x : x ∈ limit n l → x ∈ l.
Proof. unfold limit. intros. by eapply elem_of_take in H as (?&?&_); eapply list_elem_of_lookup_2. Qed.

Lemma limit_len n l : 0 ≤ n → len (limit n l) ≤ n.
Proof. intros. unfold limit, len. rewrite length_take. lia. Qed.

Lemma limit_all n l x : len l ≤ n → x ∈ l → x ∈ limit n l.
Proof. intros. unfold limit. rewrite take_ge; [done|]. unfold len in *. lia. Qed.

(** What [ORDER BY key LIMIT n] leaves out comes after all it returns. *)
Lemma limit_earliest f n l y :
  0 ≤ n → y ∈ l → y ∉ limit n (order_by f l) →
  len (limit n (order_by f l)) = n ∧ ∀ x, x ∈ limit n (order_by f l) → f x ≤ f y.
Proof.
  intros Hn Hy Hout. pose proof (order_by_sorted f l) as Hs.
  rewrite <- (elem_of_order_by f) in Hy. unfold limit in *. remember (order_by f l) as k. clear Heqk l.
  rewrite <- (take_drop (Z.to_nat n) k) in Hy. apply elem_of_app in Hy as [?|Hy]; [done|]. split.
  - unfold len. rewrite length_take. destruct (decide (Z.to_nat n ≤ length k)%nat); [lia|].
    rewrite drop_ge in Hy by lia. set_solver.
  - intros x Hx. rewrite <- (take_drop (Z.to_nat n) k) in Hs.
    by eapply (StronglySorted_app_1_elem_of (key_le f) _ _ x y) in Hs.
Qed.

Lemma len_filter_le (P : A → Prop) `{!∀ x, Decision (P x)} l : len (filter P l) ≤ len l.
Proof. unfold len. pose proof (length_filter P l). lia. Qed.

Lemma filter_all (P : A → Prop) `{!∀ x, Decision (P x)} l :
  (∀ x, x ∈ l → P x) → filter P l = l.
Proof.
  induction l as [|x l IH]; intros HP; [done|].
  rewrite filter_cons_True by (apply HP; set_solver). f_equal. apply IH. set_solver.
Qed.

Lemma filter_none (P : A → Prop) `{!∀ x, Decision (P x)} l :
  (∀ x, x ∈ l → ¬ P x) → filter P l = [].
Proof.
  induction l as [|x l IH]; intros HP; [done|].
  rewrite filter_cons_False by (apply HP; set_solver). apply IH. set_solver.
Qed.

(** Selecting rows that a deletion keeps. *)
Lemma filter_filter_in (P Q : A → Prop) `{!∀ x, Decision (P x), !∀ x, Decision (Q x)} l :
  (∀ x, x ∈ l → P x → Q x) → filter P (filter Q l) = filter P l.
Proof.
  induction l as [|x l IH]; intros HPQ; [done|].
  assert (filter P (filter Q l) = filter P l) as IH' by (apply IH; set_solver).
  destruct (decide (Q x)) as [HQ|HQ], (decide (P x)) as [HP|HP].
  - by rewrite (filter_cons_True Q), !(filter_cons_True P), IH'.
  - by rewrite (filter_cons_True Q), !(filter_cons_False P), IH'.
  - destruct HQ. apply HPQ; set_solver.
  - by rewrite (filter_cons_False Q), (filter_cons_False P), IH'.
Qed.

(** Selecting rows that an update leaves alone. *)
Lemma filter_update (P : A → Prop) `{!∀ x, Decision (P x)} (f : A → A) l :
  (∀ x, x ∈ l → (P (f x) ↔ P x) ∧ (P x → f x = x)) → filter P (f <$> l) = filter P l.
Proof.
  induction l as [|x l IH]; intros Hf; [done|].
  destruct (Hf x ltac:(set_solver)) as [Hiff Hfx]. rewrite fmap_cons, !filter_cons, IH by set_solver.
  destruct (decide (P x)) as [HP|HP].
  - by rewrite decide_True, Hfx by tauto.
  - by rewrite decide_False by tauto.
Qed.

Lemma filter_ext_in (P Q : A → Prop) `{!∀ x, Decision (P x), !∀ x, Decision (Q x)} l :
  (∀ x, x ∈ l → P x ↔ Q x) → filter P l = filter Q l.
Proof.
  induction l as [|x l IH]; intros Hiff; [done|]. rewrite !filter_cons, IH by set_solver.
  specialize (Hiff x ltac:(set_solver)). repeat case_decide; tauto.
Qed.

Lemma filter_comm (P Q : A → Prop) `{!∀ x, Decision (P x), !∀ x, Decision (Q x)} l :
  filter P (filter Q l) = filter Q (filter P l).
Proof. rewrite !list_filter_filter. apply list_filter_iff. naive_solver. Qed.

Lemma filter_sublist (P : A → Prop) `{!∀ x, Decision (P x)} l k :
  l `sublist_of` k → filter P l `sublist_of` filter P k.
Proof.
  induction 1 as [|x l k _ IH|x l k _ IH]; [done|..]; rewrite !filter_cons;
    case_decide; by try constructor.
Qed.

Lemma sublist_elem_of l k x : l `sublist_of` k → x ∈ l → x ∈ k.
Proof. intros H. by apply sublist_subseteq. Qed.

(** A row with its own key deleted by that key: the rest, up to order. *)
Lemma delete_by_key_Permutation {K} `{EqDecision K} (key : A → K) l x :
  NoDup (key <$> l) → x ∈ l → l ≡ₚ x :: filter (λ y, key y ≠ key x) l.
Proof.
  induction l as [|y l IH]; [set_solver|]. simpl. intros [Hy Hl]%NoDup_cons.
  intros [->|Hx]%elem_of_cons.
  - rewrite filter_cons_False by naive_solver. f_equiv.
    symmetry. rewrite filter_all; [done|]. intros z Hz Heq.
    apply Hy. rewrite <- Heq. by apply list_elem_of_fmap_2.
  - rewrite filter_cons_True.
    2:{ intros Heq. apply Hy. rewrite Heq. by apply list_elem_of_fmap_2. }
    rewrite Permutation_swap. f_equiv. by apply IH.
Qed.

Lemma NoDup_fmap_filter {K} (key : A → K) (P : A → Prop) `{!∀ x, Decision (P x)} l :
  NoDup (key <$> l) → NoDup (key <$> filter P l).
Proof.
  intros Hl. eapply sublist_NoDup; [exact Hl|]. apply fmap_sublist, sublist_filter.
Qed.

Lemma head_filter_elem (P : A → Prop) `{!∀ x, Decision (P x)} l x :
  head (filter P l) = Some x → P x ∧ x ∈ l.
Proof.
  intros Hx. apply (list_elem_of_filter P). destruct (filter P l); [done|]. injection Hx as <-. apply list_elem_of_here.
Qed.

Lemma head_filter_fmap (P : A → Prop) `{!∀ x, Decision (P x)} (f : A → A) l :
  (∀ x, P (f x) ↔ P x) → head (filter P (f <$> l)) = f <$> head (filter P l).
Proof.
  intros Hf. induction l as [|x l IH]; [done|]. rewrite fmap_cons, !filter_cons.
  destruct (decide (P x)) as [HP|HP].
  - by rewrite decide_True by by apply Hf.
  - by rewrite decide_False, IH by by rewrite Hf.
Qed.

(** A unique column determines the row. *)
Lemma key_unique {K} (key : A → K) l x y :
  NoDup (key <$> l) → x ∈ l → y ∈ l → key x = key y → x = y.
Proof.
  induction l as [|z l IH]; [set_solver|]. rewrite fmap_cons. intros [Hz Hl]%NoDup_cons.
  rewrite !elem_of_cons. intros [->|Hx] [->|Hy] Heq; [done|..|by apply IH].
  - destruct Hz. rewrite Heq. by apply list_elem_of_fmap_2.
  - destruct Hz. rewrite <- Heq. by apply list_elem_of_fmap_2.
Qed.

Lemma filter_key {K} `{EqDecision K} (key : A → K) l x :
  NoDup (key <$> l) → x ∈ l → filter (λ y, key y = key x) l = [x].
Proof.
  induction l as [|z l IH]; [set_solver|]. rewrite fmap_cons. intros [Hz Hl]%NoDup_cons.
  intros [->|Hx]%elem_of_cons.
  - rewrite filter_cons_True, filter_none; [done| |done].
    intros y Hy Heq. apply Hz. rewrite <- Heq. by apply list_elem_of_fmap_2.
  - rewrite filter_cons_False; [by apply IH|].
    intros Heq. apply Hz. rewrite Heq. by apply list_elem_of_fmap_2.
Qed.

Lemma StronglySorted_filter (R : relation A) (P : A → Prop) `{!∀ x, Decision (P x)} l :
  StronglySorted R l → StronglySorted R (filter P l).
Proof.
  induction 1 as [|x l _ IH Hall]; [constructor|]. rewrite filter_cons. case_decide; [|done].
  constructor; [done|]. apply Forall_forall. intros y [_ Hy]%list_elem_of_filter.
  by eapply Forall_forall in Hall.
Qed.

(** [WHERE] and [ORDER BY] commute when the key is unique. *)
Lemma order_by_filter f (P : A → Prop) `{!∀ x, Decision (P x)} l :
  (∀ x y, x ∈ l → y ∈ l → f x = f y → x = y) → order_by f (filter P l) = filter P (order_by f l).
Proof.
  intros Hinj. apply (StronglySorted_unique_strong (key_le f)).
  - intros x y [_ Hx]%elem_of_order_by%list_elem_of_filter [_ Hy%elem_of_order_by]%list_elem_of_filter.
    unfold key_le. intros. apply Hinj; [done..|lia].
  - apply order_by_sorted.
  - apply StronglySorted_filter, order_by_sorted.
  - by rewrite !order_by_Permutation.
Qed.

(** [ORDER BY key LIMIT 1]. *)
Lemma head_order_by f l x : head (order_by f l) = Some x → x ∈ l ∧ ∀ y, y ∈ l → f x ≤ f y.
Proof.
  intros H. pose proof (order_by_sorted f l) as Hs. pose proof (order_by_Permutation f l) as Hp.
  destruct (order_by f l) as [|z k]; simplify_eq/=. split; [rewrite <- Hp; set_solver|].
  intros y. rewrite <- Hp. intros [->|Hy]%elem_of_cons; [done|].
  apply StronglySorted_inv in Hs as [_ Hall]. by eapply Forall_forall in Hall.
Qed.

Lemma head_order_by_None f l : head (order_by f l) = None ↔ l = [].
Proof.
  pose proof (order_by_Permutation f l) as Hp. split.
  - destruct (order_by f l); [|done]. intros _. by apply Permutation_nil.
  - by intros ->.
Qed.

(** The strictly first row is the one chosen. *)
Lemma head_order_by_min f l x :
  x ∈ l → (∀ y, y ∈ l → y = x ∨ f x < f y) → head (order_by f l) = Some x.
Proof.
  intros Hx Hmin. destruct (head (order_by f l)) as [y|] eqn:E.
  - apply head_order_by in E as [Hy Hle]. f_equal.
    destruct (Hmin y Hy) as [|Hlt]; [done|]. specialize (Hle x Hx). lia.
  - apply head_order_by_None in E. set_solver.
Qed.
End tables.
