(* ===== verification/Text.v ===== *)
(** * Text: the string functions the sources use

    ASCII case folding, byte-wise comparison, lower-case hexadecimal, [{:?}] of
    a string, splitting, trimming, [str::split_whitespace] and the parsing of an
    [i64], on strings of UTF-8 bytes. *)

From S2P Require Import Prelude.

Definition ascii_lower (a : Ascii.ascii) : Ascii.ascii :=
  let n := Ascii.nat_of_ascii a in
  if (65 <=? n)%nat && (n <=? 90)%nat then Ascii.ascii_of_nat (n + 32) else a.

Fixpoint to_ascii_lowercase (s : string) : string :=
  match s with
  | EmptyString => EmptyString
  | String a s' => String (ascii_lower a) (to_ascii_lowercase s')
  end.

Fixpoint str_leb (s t : string) : bool :=
  match s, t with
  | EmptyString, _ => true
  | String _ _, EmptyString => false
  | String a s', String b t' =>
      let m := Ascii.nat_of_ascii a in
      let n := Ascii.nat_of_ascii b in
      (m <? n)%nat || ((m =? n)%nat && str_leb s' t')
  end.

Definition is_ascii_hexdigit (a : Ascii.ascii) : bool :=
  let n := Ascii.nat_of_ascii a in
  ((48 <=? n)%nat && (n <=? 57)%nat) || ((65 <=? n)%nat && (n <=? 70)%nat)
  || ((97 <=? n)%nat && (n <=? 102)%nat).

Definition hex_digit (n : Z) : Ascii.ascii :=
  Ascii.ascii_of_nat (Z.to_nat (if decide (n < 10) then 48 + n else 87 + n)).

(** [format!("{b:02x}")] of each byte. *)
Fixpoint hex_encode (b : bytes) : string :=
  match b with
  | [] => EmptyString
  | x :: b' =>
      let n := Z_of_byte x in
      String (hex_digit (n / 16)) (String (hex_digit (n mod 16)) (hex_encode b'))
  end.

(** [str::starts_with]. *)
Definition starts_with (s pre : string) : bool := String.prefix pre s.

Definition char_of (n : nat) : string := String (Ascii.ascii_of_nat n) EmptyString.

(** [\u{7f}] and the like: the code point in hex without padding. *)
Definition unicode_escape (n : Z) : string :=
  "\u{" +:+ (if decide (16 ≤ n) then String (hex_digit (n / 16)) EmptyString else EmptyString)
  +:+ String (hex_digit (n mod 16)) EmptyString +:+ "}".

(** [char::escape_debug] inside a string; text beyond ASCII is taken to be
    printable. *)
Definition escape_debug (a : Ascii.ascii) : string :=
  let n := Ascii.nat_of_ascii a in
  if (n =? 0)%nat then "\0"
  else if (n =? 9)%nat then "\t"
  else if (n =? 10)%nat then "\n"
  else if (n =? 13)%nat then "\r"
  else if (n =? 34)%nat || (n =? 92)%nat then "\" +:+ char_of n
  else if (n <? 32)%nat || (n =? 127)%nat then unicode_escape (Z.of_nat n)
  else char_of n.

Fixpoint escape_debug_str (s : string) : string :=
  match s with EmptyString => EmptyString | String a s' => escape_debug a +:+ escape_debug_str s' end.

(** [format!("{s:?}")]. *)
Definition debug_str (s : string) : string := char_of 34 +:+ escape_debug_str s +:+ char_of 34.

Fixpoint string_forall (p : Ascii.ascii → bool) (s : string) : bool :=
  match s with EmptyString => true | String a s' => p a && string_forall p s' end.

(** ** [str::split_whitespace]

    [White_Space] characters as UTF-8: the number of bytes of the white space
    character a text starts with, 0 if there is none. *)
Definition nth_byte (n : nat) (s : string) : Z :=
  match String.get n s with Some a => Z.of_nat (Ascii.nat_of_ascii a) | None => -1 end.

Definition ws_len (s : string) : nat :=
  let b0 := nth_byte 0 s in
  let b1 := nth_byte 1 s in
  let b2 := nth_byte 2 s in
  if decide (9 ≤ b0 ≤ 13 ∨ b0 = 32) then 1
  else if decide (b0 = 194 ∧ (b1 = 133 ∨ b1 = 160)) then 2
  else if decide (b0 = 225 ∧ b1 = 154 ∧ b2 = 128) then 3
  else if decide (b0 = 226 ∧ b1 = 128 ∧ (128 ≤ b2 ≤ 138 ∨ b2 = 168 ∨ b2 = 169 ∨ b2 = 175)) then 3
  else if decide (b0 = 226 ∧ b1 = 129 ∧ b2 = 159) then 3
  else if decide (b0 = 227 ∧ b1 = 128 ∧ b2 = 128) then 3
  else 0.

Definition cons_nonempty (s : string) (l : list string) : list string :=
  match s with EmptyString => l | String _ _ => s :: l end.

(** [skip] counts the bytes left of a white space character, [cur] is the text
    since the last one. *)
Fixpoint split_ws (skip : nat) (cur s : string) : list string :=
  match s with
  | EmptyString => cons_nonempty cur []
  | String a s' =>
      match skip with
      | S k => split_ws k cur s'
      | O =>
          match ws_len s with
          | O => split_ws 0 (cur +:+ String a EmptyString) s'
          | S k => cons_nonempty cur (split_ws k EmptyString s')
          end
      end
  end.

Definition split_whitespace (s : string) : list string := split_ws 0 EmptyString s.

(** [str::replace] of each double quote by two. *)
Fixpoint double_quotes (s : string) : string :=
  match s with
  | EmptyString => EmptyString
  | String a s' =>
      if decide (a = Ascii.ascii_of_nat 34) then String a (String a (double_quotes s'))
      else String a (double_quotes s')
  end.

(** [tokens.join(sep)]. *)
Fixpoint join (sep : string) (l : list string) : string :=
  match l with
  | [] => EmptyString
  | [s] => s
  | s :: l' => s +:+ sep +:+ join sep l'
  end.

(** [str::strip_prefix]. *)
Fixpoint strip_prefix (p s : string) : option string :=
  match p, s with
  | EmptyString, _ => Some s
  | String a p', String b s' => if decide (a = b) then strip_prefix p' s' else None
  | _, _ => None
  end.

(** [str::split] by a character. *)
Fixpoint split_on (sep : Ascii.ascii) (s : string) : list string :=
  match s with
  | EmptyString => [EmptyString]
  | String a s' =>
      if decide (a = sep) then EmptyString :: split_on sep s'
      else match split_on sep s' with
           | [] => [String a EmptyString]
           | p :: ps => String a p :: ps
           end
  end.

(** [splitn(2, sep)], the second piece empty if there is none. *)
Fixpoint split_first (sep : Ascii.ascii) (s : string) : string * string :=
  match s with
  | EmptyString => (EmptyString, EmptyString)
  | String a s' =>
      if decide (a = sep) then (EmptyString, s')
      else let '(k, v) := split_first sep s' in (String a k, v)
  end.

(** [str::trim_end_matches] of a character. *)
Fixpoint trim_end_matches (c : Ascii.ascii) (s : string) : string :=
  match s with
  | EmptyString => EmptyString
  | String a s' =>
      match trim_end_matches c s' with
      | EmptyString => if decide (a = c) then EmptyString else String a EmptyString
      | t => String a t
      end
  end.

(** ** [str::chars], as code points of UTF-8 text *)

(** [acc] is the value read of a character of which [more] bytes are left. *)
Fixpoint utf8_from (acc : Z) (more : nat) (s : string) : list Z :=
  match s with
  | EmptyString => []
  | String a s' =>
      let n := Z.of_nat (Ascii.nat_of_ascii a) in
      match more with
      | S O => acc * 64 + (n - 128) :: utf8_from 0 O s'
      | S more' => utf8_from (acc * 64 + (n - 128)) more' s'
      | O =>
          if decide (n < 128) then n :: utf8_from 0 O s'
          else if decide (n < 224) then utf8_from (n - 192) 1 s'
          else if decide (n < 240) then utf8_from (n - 224) 2 s'
          else utf8_from (n - 240) 3 s'
      end
  end.
Definition chars (s : string) : list Z := utf8_from 0 O s.

(** ** [str::trim] *)

Fixpoint trim_start_from (skip : nat) (s : string) : string :=
  match s with
  | EmptyString => EmptyString
  | String _ s' =>
      match skip with
      | S k => trim_start_from k s'
      | O => match ws_len s with O => s | S k => trim_start_from k s' end
      end
  end.

(** Nothing but white space. *)
Fixpoint blank_from (skip : nat) (s : string) : bool :=
  match s with
  | EmptyString => true
  | String _ s' =>
      match skip with
      | S k => blank_from k s'
      | O => match ws_len s with O => false | S k => blank_from k s' end
      end
  end.

Fixpoint trim_end (s : string) : string :=
  match s with
  | EmptyString => EmptyString
  | String a s' => if blank_from 0 s then EmptyString else String a (trim_end s')
  end.

Definition str_trim (s : string) : string := trim_end (trim_start_from 0 s).

(** ** [str::parse::<i64>] *)

Definition is_digit (a : Ascii.ascii) : bool :=
  let n := Ascii.nat_of_ascii a in (48 <=? n)%nat && (n <=? 57)%nat.

Fixpoint parse_digits (acc : Z) (s : string) : option Z :=
  match s with
  | EmptyString => Some acc
  | String a s' =>
      if is_digit a then parse_digits (acc * 10 + (Z.of_nat (Ascii.nat_of_ascii a) - 48)) s' else None
  end.

(** At least one digit, and a value in range. *)
Definition parse_signed (sign : Z) (digits : string) : option Z :=
  match digits with
  | EmptyString => None
  | _ => n ← parse_digits 0 digits; if decide (i64_min ≤ sign * n ≤ i64_max) then Some (sign * n) else None
  end.

Definition plus_sign : Ascii.ascii := Ascii.ascii_of_nat 43.
Definition minus_sign : Ascii.ascii := Ascii.ascii_of_nat 45.

Definition parse_i64 (s : string) : option Z :=
  match s with
  | EmptyString => None
  | String a s' =>
      if decide (a = plus_sign) then parse_signed 1 s'
      else if decide (a = minus_sign) then parse_signed (-1) s'
      else parse_signed 1 s
  end.

(** ** Lemmas *)

Lemma hex_digit_pair (x : byte) :
  let d := hex_digit (Z_of_byte x / 16) in let e := hex_digit (Z_of_byte x mod 16) in
  is_ascii_hexdigit d = true ∧ is_ascii_hexdigit e = true ∧ ascii_lower d = d ∧ ascii_lower e = e.
Proof. destruct x; vm_compute; auto. Qed.

Lemma hex_digit_inj n m : 0 ≤ n < 16 → 0 ≤ m < 16 → hex_digit n = hex_digit m → n = m.
Proof.
  intros Hn Hm Heq%(f_equal Ascii.nat_of_ascii). unfold hex_digit in Heq.
  repeat case_decide; rewrite !Ascii.nat_ascii_embedding in Heq by lia; lia.
Qed.

Lemma hex_digit_pair_inj (x y : byte) :
  hex_digit (Z_of_byte x / 16) = hex_digit (Z_of_byte y / 16) →
  hex_digit (Z_of_byte x mod 16) = hex_digit (Z_of_byte y mod 16) → x = y.
Proof.
  intros H1 H2. pose proof (Z_of_byte_range x). pose proof (Z_of_byte_range y).
  apply hex_digit_inj in H1; [|split; [apply Z.div_pos|apply Z.div_lt_upper_bound]; lia..].
  apply hex_digit_inj in H2; [|apply Z.mod_pos_bound; lia..].
  rewrite <- (byte_of_Z_of_byte x), <- (byte_of_Z_of_byte y). f_equal.
  pose proof (Z.div_mod (Z_of_byte x) 16 ltac:(lia)).
  pose proof (Z.div_mod (Z_of_byte y) 16 ltac:(lia)). lia.
Qed.

Lemma hex_encode_prefix (a b : bytes) :
  length a = length b → String.prefix (hex_encode a) (hex_encode b) = true → a = b.
Proof.
  revert b. induction a as [|x a IH]; intros [|y b] Hlen; try done. simpl.
  destruct (Ascii.ascii_dec _ _) as [H1|]; [|done].
  destruct (Ascii.ascii_dec _ _) as [H2|]; [|done]. intros Hp.
  rewrite (hex_digit_pair_inj x y H1 H2), (IH b); [done| |done]. simpl in Hlen. lia.
Qed.

Lemma prefix_refl s : String.prefix s s = true.
Proof. induction s as [|a s IH]; [done|]. simpl. by destruct (Ascii.ascii_dec a a). Qed.

Lemma hex_encode_hexdigits b : string_forall is_ascii_hexdigit (hex_encode b) = true.
Proof.
  induction b as [|x b IH]; [done|]. cbn [hex_encode string_forall].
  destruct (hex_digit_pair x) as (-> & -> & _). exact IH.
Qed.

Lemma hexdigit_of_lower a : is_ascii_hexdigit (ascii_lower a) = true → is_ascii_hexdigit a = true.
Proof. destruct a as [[] [] [] [] [] [] [] []]; vm_compute; auto. Qed.

Lemma hexdigits_of_lower s :
  string_forall is_ascii_hexdigit (to_ascii_lowercase s) = true → string_forall is_ascii_hexdigit s = true.
Proof.
  induction s as [|a s IH]; [done|]. simpl. intros [Ha Hs]%andb_true_iff.
  by rewrite (hexdigit_of_lower a Ha), IH.
Qed.

Lemma string_app_assoc (a b c : string) : (a +:+ b) +:+ c = a +:+ (b +:+ c).
Proof.
  induction a as [|x a IH]; [done|].
  change (String x ((a +:+ b) +:+ c) = String x (a +:+ (b +:+ c))). by rewrite IH.
Qed.

Lemma string_length_app (a b : string) : String.length (a +:+ b) = (String.length a + String.length b)%nat.
Proof.
  induction a as [|x a IH]; [done|].
  change (S (String.length (a +:+ b)) = S (String.length a + String.length b)). by rewrite IH.
Qed.

(** ** Splitting and parsing what was printed *)

Definition without (c : Ascii.ascii) : string → bool := string_forall (λ a, negb (bool_decide (a = c))).

Lemma string_forall_app p (a b : string) :
  string_forall p (a +:+ b) = string_forall p a && string_forall p b.
Proof.
  induction a as [|x a IH]; [done|].
  change (p x && string_forall p (a +:+ b) = p x && string_forall p a && string_forall p b).
  by rewrite IH, andb_assoc.
Qed.

Lemma string_forall_impl (p q : Ascii.ascii → bool) s :
  (∀ a, p a = true → q a = true) → string_forall p s = true → string_forall q s = true.
Proof.
  intros Hpq. induction s as [|a s IH]; [done|]. simpl. intros [Ha Hs]%andb_true_iff.
  by rewrite (Hpq a Ha), IH.
Qed.

Lemma strip_prefix_app p s : strip_prefix p (p +:+ s) = Some s.
Proof.
  induction p as [|a p IH]; [done|].
  change ((if decide (a = a) then strip_prefix p (p +:+ s) else None) = Some s).
  by rewrite decide_True.
Qed.

Lemma without_cons c a s : without c (String a s) = true → a ≠ c ∧ without c s = true.
Proof. unfold without. simpl. intros [Ha%negb_true_iff Hs]%andb_true_iff. by apply bool_decide_eq_false in Ha. Qed.

Lemma split_on_last c s : without c s = true → split_on c s = [s].
Proof.
  induction s as [|a s IH]; [done|]. intros [Ha Hs]%without_cons. simpl. rewrite decide_False by done.
  by rewrite IH.
Qed.

Lemma split_on_app c s t : without c s = true → split_on c (s +:+ String c t) = s :: split_on c t.
Proof.
  induction s as [|a s IH]; intros Hs.
  { change (split_on c (String c t) = "" :: split_on c t). simpl. by rewrite decide_True. }
  apply without_cons in Hs as [Ha Hs]. change (split_on c (String a (s +:+ String c t)) = String a s :: split_on c t).
  cbn [split_on]. rewrite decide_False by done. by rewrite IH.
Qed.

Lemma split_first_app c k v : without c k = true → split_first c (k +:+ String c v) = (k, v).
Proof.
  induction k as [|a k IH]; intros Hk.
  { change (split_first c (String c v) = ("", v)). simpl. by rewrite decide_True. }
  apply without_cons in Hk as [Ha Hk]. change (split_first c (String a (k +:+ String c v)) = (String a k, v)).
  cbn [split_first]. rewrite decide_False by done. by rewrite IH.
Qed.

Lemma trim_end_matches_id c s : without c s = true → trim_end_matches c s = s.
Proof.
  induction s as [|a s IH]; [done|]. intros [Ha Hs]%without_cons. cbn [trim_end_matches].
  rewrite IH by done. destruct s; [|done]. by rewrite decide_False.
Qed.

Lemma pretty_N_char_digit n :
  (n < 10)%N → is_digit (pretty_N_char n) = true ∧ Z.of_nat (Ascii.nat_of_ascii (pretty_N_char n)) - 48 = Z.of_N n.
Proof.
  intros Hn. assert (n = 0 ∨ n = 1 ∨ n = 2 ∨ n = 3 ∨ n = 4 ∨ n = 5 ∨ n = 6 ∨ n = 7 ∨ n = 8 ∨ n = 9)%N
    as [->|[->|[->|[->|[->|[->|[->|[->|[->| ->]]]]]]]]] by lia; done.
Qed.

Lemma parse_digits_go x s : parse_digits 0 (pretty_N_go x s) = parse_digits (Z.of_N x) s.
Proof.
  revert s. induction (N.lt_wf_0 x) as [x _ IH]; intros s.
  destruct (decide (x = 0)%N) as [->|Hx]; [done|].
  rewrite pretty_N_go_step, IH by (apply N.div_lt || idtac; lia). cbn [parse_digits].
  assert (x `mod` 10 < 10)%N as Hm by (apply N.mod_lt; lia).
  destruct (pretty_N_char_digit _ Hm) as [-> ->]. f_equal.
  pose proof (N.div_mod x 10 ltac:(lia)). lia.
Qed.

Lemma pretty_N_go_digits x s :
  string_forall is_digit s = true → string_forall is_digit (pretty_N_go x s) = true.
Proof.
  revert s. induction (N.lt_wf_0 x) as [x _ IH]; intros s Hs.
  destruct (decide (x = 0)%N) as [->|Hx]; [done|].
  rewrite pretty_N_go_step by lia. apply IH; [apply N.div_lt; lia|]. cbn [string_forall].
  assert (x `mod` 10 < 10)%N as Hm by (apply N.mod_lt; lia).
  by rewrite (proj1 (pretty_N_char_digit _ Hm)), Hs.
Qed.

Lemma pretty_N_digits (n : N) : string_forall is_digit (pretty n) = true.
Proof. unfold pretty, pretty_N. case_decide; [done|]. by apply pretty_N_go_digits. Qed.

Lemma parse_digits_pretty (n : N) : parse_digits 0 (pretty n) = Some (Z.of_N n).
Proof. unfold pretty, pretty_N. case_decide; [by subst|]. by rewrite parse_digits_go. Qed.

Lemma parse_signed_pretty sign (n : N) :
  in_i64 (sign * Z.of_N n) → parse_signed sign (pretty n) = Some (sign * Z.of_N n).
Proof.
  intros Hr. unfold parse_signed. destruct (pretty n) as [|a s] eqn:E.
  { pose proof (parse_digits_pretty n) as H. rewrite E in H. exfalso.
    destruct n as [|p]; [done|]. simpl in H. done. }
  rewrite <- E, parse_digits_pretty. cbn [mbind option_bind]. by rewrite decide_True.
Qed.

(** [{}] of an [i64] parses back. *)
Lemma parse_i64_pretty z : in_i64 z → parse_i64 (pretty z) = Some z.
Proof.
  intros Hz. destruct z as [|p|p].
  - reflexivity.
  - change (pretty (Zpos p)) with (pretty (Npos p)).
    pose proof (pretty_N_digits (Npos p)) as Hd. pose proof (parse_signed_pretty 1 (Npos p)) as H.
    rewrite Z.mul_1_l in H. etrans; [|exact (H Hz)]. unfold parse_i64.
    destruct (pretty (Npos p)) as [|a s]; [done|]. simpl in Hd. apply andb_true_iff in Hd as [Ha _].
    destruct a as [[] [] [] [] [] [] [] []]; done.
  - change (pretty (Zneg p)) with ("-" +:+ pretty (Npos p)).
    change (parse_i64 _) with (parse_signed (-1) (pretty (Npos p))).
    rewrite parse_signed_pretty; [done|]. by change (-1 * Z.of_N (Npos p)) with (Zneg p).
Qed.

Lemma pretty_Z_chars (z : Z) : string_forall (λ a, is_digit a || bool_decide (a = minus_sign)) (pretty z) = true.
Proof.
  assert (∀ n : N, string_forall (λ a, is_digit a || bool_decide (a = minus_sign)) (pretty n) = true) as HN.
  { intros n. eapply string_forall_impl; [|apply pretty_N_digits]. by intros a ->. }
  destruct z as [|p|p]; [done|apply (HN (Npos p))|].
  change (pretty (Zneg p)) with ("-" +:+ pretty (Npos p)). rewrite string_forall_app, HN. done.
Qed.
