(* ===== verification/Framing.v ===== *)
(** * Framing: the length-prefixed wire layout

    The peer codec ([crates/core/src/transport/frame.rs]), the mailbox server
    codec ([crates/mailbox/src/codec.rs]) and the mailbox client codec
    ([crates/core/src/mailbox/codec.rs]) share one layout,

      length (u32 big endian) | type (u8) | payload,

    where [length] counts the type byte and the payload and is between 1 and
    [MAX_FRAME_SIZE].  This file holds the part of the three decoders that
    looks at the length prefix, the part of the three encoders that writes it,
    the class of the CBOR library's codecs, and the lemmas on both parts.  The
    source types themselves are in [PeerFrame] and [MailboxCodec]. *)

From S2P Require Import Prelude.

Definition MAX_FRAME_SIZE : Z := 16 * 1024 * 1024.

(** What a decoder finds at the head of its buffer. *)
Inductive header : Type :=
| Incomplete
| ZeroLength
| TooLarge (length : Z)
| Complete (type_byte : byte) (payload rest : bytes).

Definition read_header (src : bytes) : header :=
  match src with
  | b0 :: b1 :: b2 :: b3 :: body =>
      let length := u32_from_be_bytes b0 b1 b2 b3 in
      if decide (length = 0) then ZeroLength
      else if decide (length > MAX_FRAME_SIZE) then TooLarge length
      else if decide (len src < 4 + length) then Incomplete
      else match body with
           | type_byte :: tail =>
               Complete type_byte (take (Z.to_nat (length - 1)) tail)
                 (drop (Z.to_nat (length - 1)) tail)
           | [] => Incomplete
           end
  | _ => Incomplete
  end.

(** The tail of an encoder: [None] when the frame is over the cap, otherwise
    the bytes appended to the output buffer. *)
Definition write_frame (type_byte : byte) (payload : bytes) : option bytes :=
  let length := 1 + len payload in
  if decide (length > MAX_FRAME_SIZE) then None
  else Some (u32_to_be_bytes length ++ type_byte :: payload).

(** ** CBOR

    [ciborium] is a library the sources call.  [into_writer] and [from_reader]
    are its two entry points; an error carries the library's text.  The law is
    the documented round trip of serde types. *)
Class Serialize (T : Type) : Type := into_writer : T → result bytes string.
Class Deserialize (T : Type) : Type := from_reader : bytes → result T string.
Class CborRoundtrip (T : Type) `{!Serialize T, !Deserialize T} : Prop :=
  from_into : ∀ (v : T) (b : bytes), into_writer v = Ok b → from_reader b = Ok v.

(** Both directions of one type. *)
Class Cbor (T : Type) : Type := {
  cbor_serialize :: Serialize T;
  cbor_deserialize :: Deserialize T
}.

(** [format!("0x{:02X}", b)] for one byte. *)
Definition hex_digit_upper (n : Z) : Ascii.ascii :=
  Ascii.ascii_of_N (Z.to_N (if decide (n < 10) then 48 + n else 55 + n)).
Definition format_02X (b : byte) : string :=
  String (hex_digit_upper (Z_of_byte b / 16)) (String (hex_digit_upper (Z_of_byte b mod 16)) "").

(** ** Lemmas *)

Section framing.
Implicit Types (src payload rest : bytes) (t : byte).

Lemma write_frame_len t payload b :
  write_frame t payload = Some b → len b = 5 + len payload ∧ 1 + len payload ≤ MAX_FRAME_SIZE.
Proof.
  unfold write_frame. case_decide; [done|]. intros [= <-].
  rewrite !len_cons. lia.
Qed.

Lemma read_header_full b0 b1 b2 b3 t payload rest :
  u32_from_be_bytes b0 b1 b2 b3 = 1 + len payload →
  1 + len payload ≤ MAX_FRAME_SIZE →
  read_header (b0 :: b1 :: b2 :: b3 :: t :: payload ++ rest) = Complete t payload rest.
Proof.
  intros Hlen Hmax. unfold read_header. rewrite Hlen.
  pose proof (len_nonneg payload). pose proof (len_nonneg rest).
  rewrite decide_False by lia. rewrite decide_False by lia.
  rewrite decide_False by lens.
  replace (Z.to_nat (1 + len payload - 1)) with (length payload) by (unfold len; lia).
  by rewrite take_app_length, drop_app_length.
Qed.

(** A written frame followed by any bytes is read back exactly. *)
Lemma read_write_frame t payload b rest :
  write_frame t payload = Some b → read_header (b ++ rest) = Complete t payload rest.
Proof.
  intros Hw. pose proof (write_frame_len _ _ _ Hw) as [_ Hmax].
  unfold write_frame in Hw. case_decide; [done|]. injection Hw as <-.
  apply read_header_full; [|done].
  apply u32_be_roundtrip. unfold MAX_FRAME_SIZE in *. pose proof (len_nonneg payload). widths.
Qed.

(** Every strict prefix of a written frame is incomplete. *)
Lemma read_header_prefix t payload b pre suf :
  write_frame t payload = Some b → b = pre ++ suf → suf ≠ [] → read_header pre = Incomplete.
Proof.
  intros Hw -> Hsuf. pose proof (read_write_frame _ _ _ [] Hw) as Hr.
  pose proof (write_frame_len _ _ _ Hw) as [Hlen Hmax].
  rewrite app_nil_r in Hr.
  assert (0 < len suf) by (destruct suf; [done|lens]).
  destruct pre as [|b0 [|b1 [|b2 [|b3 body]]]]; try done.
  unfold write_frame in Hw. case_decide; [done|]. injection Hw as <- <- <- <- Hbody.
  unfold read_header. rewrite u32_be_roundtrip.
  2:{ unfold MAX_FRAME_SIZE in *. pose proof (len_nonneg payload). widths. }
  pose proof (len_nonneg payload).
  rewrite decide_False by lia. rewrite decide_False by lia.
  rewrite len_app in Hlen. rewrite decide_True by lia. done.
Qed.

Lemma read_header_Complete src t payload rest :
  read_header src = Complete t payload rest →
  len src = 5 + len payload + len rest ∧ 1 + len payload ≤ MAX_FRAME_SIZE ∧
  ∃ b0 b1 b2 b3, src = b0 :: b1 :: b2 :: b3 :: t :: payload ++ rest ∧
    u32_from_be_bytes b0 b1 b2 b3 = 1 + len payload.
Proof.
  destruct src as [|b0 [|b1 [|b2 [|b3 body]]]]; try done.
  unfold read_header. set (n := u32_from_be_bytes b0 b1 b2 b3).
  assert (0 ≤ n) by (pose proof (u32_from_be_bytes_range b0 b1 b2 b3); widths).
  do 3 (case_decide; [done|]). destruct body as [|t' tail]; [done|].
  intros [= <- <- <-].
  assert (len (take (Z.to_nat (n - 1)) tail) = n - 1) as Hp.
  { unfold len in *. rewrite length_take. simpl in *. lia. }
  rewrite !len_cons, !Hp. split; [|split; [lia|]].
  - rewrite <- (take_drop (Z.to_nat (n - 1)) tail) at 1. rewrite len_app, Hp. lia.
  - exists b0, b1, b2, b3. rewrite take_drop. split; [done|]. unfold n in *. lia.
Qed.

(** More bytes never change what a complete or refused header says. *)
Lemma read_header_app src more :
  match read_header src with
  | Incomplete => True
  | ZeroLength => read_header (src ++ more) = ZeroLength
  | TooLarge n => read_header (src ++ more) = TooLarge n
  | Complete t payload rest => read_header (src ++ more) = Complete t payload (rest ++ more)
  end.
Proof.
  destruct (read_header src) as [| |n|t payload rest] eqn:E; [done|..].
  - destruct src as [|b0 [|b1 [|b2 [|b3 body]]]]; try done.
    unfold read_header in *. simpl app. destruct body; by repeat case_decide.
  - destruct src as [|b0 [|b1 [|b2 [|b3 body]]]]; try done.
    unfold read_header in *. simpl app. destruct body; by repeat case_decide.
  - apply read_header_Complete in E as (_ & ? & b0 & b1 & b2 & b3 & -> & ?).
    simpl. rewrite <- app_assoc. by apply read_header_full.
Qed.
End framing.
