(* ===== verification/SimpleCodec.v ===== *)
(** * SimpleCodec: a concrete instance of the CBOR interface

    The sources serialise with [ciborium], which the models take as a parameter
    ([Framing.Serialize], [Framing.Deserialize]) with the round trip as its law.
    This file shows that the interface can be met: a small self-delimiting
    binary encoding of integers, strings, lists and pairs, with its round trip.
    The witnesses of the theorems that assume the law use it. *)

From S2P Require Import Prelude Framing.

Class Codec (T : Type) : Type := {
  enc : T → bytes;
  dec : bytes → option (T * bytes);
  dec_enc : ∀ v rest, dec (enc v ++ rest) = Some (v, rest)
}.

Fixpoint enc_positive (p : positive) : bytes :=
  match p with
  | xH => [Byte.x02]
  | xO q => Byte.x00 :: enc_positive q
  | xI q => Byte.x01 :: enc_positive q
  end.

Fixpoint dec_positive (b : bytes) : option (positive * bytes) :=
  match b with
  | Byte.x02 :: rest => Some (xH, rest)
  | Byte.x00 :: rest => '(q, r) ← dec_positive rest; Some (xO q, r)
  | Byte.x01 :: rest => '(q, r) ← dec_positive rest; Some (xI q, r)
  | _ => None
  end.

Lemma dec_enc_positive p rest : dec_positive (enc_positive p ++ rest) = Some (p, rest).
Proof. induction p as [p IH|p IH|]; simpl; rewrite ?IH; done. Qed.

Definition enc_Z (z : Z) : bytes :=
  match z with
  | Z0 => [Byte.x00]
  | Zpos p => Byte.x01 :: enc_positive p
  | Zneg p => Byte.x02 :: enc_positive p
  end.

Definition dec_Z (b : bytes) : option (Z * bytes) :=
  match b with
  | Byte.x00 :: rest => Some (0, rest)
  | Byte.x01 :: rest => '(p, r) ← dec_positive rest; Some (Zpos p, r)
  | Byte.x02 :: rest => '(p, r) ← dec_positive rest; Some (Zneg p, r)
  | _ => None
  end.

Lemma dec_enc_Z z rest : dec_Z (enc_Z z ++ rest) = Some (z, rest).
Proof. destruct z as [|p|p]; simpl; rewrite ?dec_enc_positive; done. Qed.

#[export] Instance codec_Z : Codec Z := {| enc := enc_Z; dec := dec_Z; dec_enc := dec_enc_Z |}.

#[export] Instance codec_byte : Codec byte := {|
  enc b := [b];
  dec l := match l with b :: rest => Some (b, rest) | [] => None end;
  dec_enc v rest := eq_refl
|}.

Lemma dec_enc_prod {A B} `{!Codec A, !Codec B} (v : A * B) rest :
  ('(x, r) ← dec ((enc v.1 ++ enc v.2) ++ rest); '(y, r') ← dec r; Some ((x, y), r'))
  = Some (v, rest).
Proof. destruct v. simpl. rewrite <- app_assoc, dec_enc. simpl. by rewrite dec_enc. Qed.

#[export] Instance codec_prod {A B} `{!Codec A, !Codec B} : Codec (A * B) := {|
  enc v := enc v.1 ++ enc v.2;
  dec b := '(x, r) ← dec b; '(y, r') ← dec r; Some ((x, y), r');
  dec_enc := dec_enc_prod
|}.

Fixpoint enc_list {A} `{!Codec A} (l : list A) : bytes :=
  match l with [] => [Byte.x00] | x :: l' => Byte.x01 :: enc x ++ enc_list l' end.

Fixpoint dec_list {A} `{!Codec A} (fuel : nat) (b : bytes) : option (list A * bytes) :=
  match fuel, b with
  | S n, Byte.x00 :: rest => Some ([], rest)
  | S n, Byte.x01 :: rest =>
      '(x, r) ← dec rest; '(l, r') ← dec_list n r; Some (x :: l, r')
  | _, _ => None
  end.

Lemma dec_enc_list {A} `{!Codec A} (l : list A) rest n :
  (length (enc_list l) ≤ n)%nat → dec_list n (enc_list l ++ rest) = Some (l, rest).
Proof.
  revert n. induction l as [|x l IH]; intros [|n] Hn; simpl in *; try lia; [done|].
  rewrite <- app_assoc, dec_enc. simpl. rewrite IH; [done|].
  rewrite length_app in Hn. lia.
Qed.

Lemma dec_enc_list_all {A} `{!Codec A} (l : list A) rest :
  dec_list (length (enc_list l ++ rest)) (enc_list l ++ rest) = Some (l, rest).
Proof. apply dec_enc_list. rewrite length_app. lia. Qed.

#[export] Instance codec_list {A} `{!Codec A} : Codec (list A) := {|
  enc := enc_list;
  dec b := dec_list (length b) b;
  dec_enc := dec_enc_list_all
|}.

(** A codec transported along an injection. *)
Definition codec_via {A B} `{!Codec B} (f : A → B) (g : B → option A)
    (Hgf : ∀ a, g (f a) = Some a) : Codec A.
Proof.
  refine {| enc a := enc (f a); dec b := '(x, r) ← dec b; a ← g x; Some (a, r) |}.
  intros v rest. rewrite dec_enc. simpl. by rewrite Hgf.
Defined.

#[export] Instance codec_string : Codec string :=
  codec_via String.list_byte_of_string (λ l, Some (String.string_of_list_byte l))
    (λ s, f_equal Some (String.string_of_list_byte_of_string s)).

(** The interface instances a [Codec] gives. *)
Definition serialize_of {T} `{!Codec T} : Serialize T := λ v, Ok (enc v).
Definition deserialize_of {T} `{!Codec T} : Deserialize T := λ b,
  match dec b with Some (v, []) => Ok v | _ => Err "invalid encoding" end.

Lemma roundtrip_of {T} `{!Codec T} : @CborRoundtrip T serialize_of deserialize_of.
Proof.
  intros v b [= <-]. unfold from_reader, deserialize_of.
  pose proof (dec_enc v []) as H. rewrite app_nil_r in H. by rewrite H.
Qed.

Definition cbor_of {T} `{!Codec T} : Cbor T :=
  {| cbor_serialize := serialize_of; cbor_deserialize := deserialize_of |}.

Lemma cbor_of_roundtrip {T} `{!Codec T} :
  @CborRoundtrip T (@cbor_serialize _ cbor_of) (@cbor_deserialize _ cbor_of).
Proof. exact roundtrip_of. Qed.
