(* ===== verification/CoreErrors.v ===== *)
(** * CoreErrors: the error taxonomy of [skattr-core]

    [crates/core/src/error.rs] and the [error_kind.rs] file of each subsystem:
    one inductive type per Rust enum, a constructor [Enum_Variant] per variant,
    and the projection [kind] of a library error onto the error categories of
    the IPC wire. *)

From S2P Require Import Prelude.

(** [attachment/error_kind.rs]. *)
Inductive AttachmentErrorKind : Type :=
| Attachment_TooLarge
| Attachment_ChunkHashMismatch
| Attachment_AeadFailed
| Attachment_SizeMismatch
| Attachment_ManifestInvalid (msg : string)
| Attachment_StripFailed (msg : string).

(** [contact/error_kind.rs]. *)
Inductive ContactErrorKind : Type :=
| Contact_NotFound
| Contact_Ambiguous (matches : Z)
| Contact_Other (msg : string).

(** [delivery/error_kind.rs]. *)
Inductive DeliveryErrorKind : Type :=
| Delivery_Timeout
| Delivery_Other (msg : string).

(** [invite/error_kind.rs]. *)
Inductive InviteErrorKind : Type :=
| Invite_Expired
| Invite_Consumed
| Invite_SignatureInvalid
| Invite_Other (msg : string).

(** [mls/error_kind.rs]. *)
Inductive MlsErrorKind : Type :=
| Mls_GroupCorrupt
| Mls_Other (msg : string).

(** [storage/error_kind.rs]. *)
Inductive StorageErrorKind : Type :=
| Storage_FtsSyntax (msg : string)
| Storage_DuplicateMessage
| Storage_Other (msg : string)
| Storage_SchemaTooNew (found max_known : Z).

(** [transport/error_kind.rs]. *)
Inductive TransportErrorKind : Type :=
| Transport_TorNotReady
| Transport_Other (msg : string).

(** [error.rs], the failure reasons of the mailbox client. *)
Inductive MailboxClientErrorKind : Type :=
| MailboxClient_Unreachable
| MailboxClient_UnsupportedVersion
| MailboxClient_RateLimited
| MailboxClient_RecipientFull
| MailboxClient_InvalidSignature
| MailboxClient_NonceExpired
| MailboxClient_Malformed
| MailboxClient_HashMismatch
| MailboxClient_Other (msg : string).

(** [error.rs], the top-level error.  [std::io::Error] and [rusqlite::Error]
    are represented by their text. *)
Inductive CoreError : Type :=
| Core_Identity (msg : string)
| Core_Transport (k : TransportErrorKind)
| Core_Mls (k : MlsErrorKind)
| Core_Invite (k : InviteErrorKind)
| Core_Contact (k : ContactErrorKind)
| Core_Mailbox (msg : string)
| Core_MailboxClient (k : MailboxClientErrorKind)
| Core_Delivery (k : DeliveryErrorKind)
| Core_Attachment (k : AttachmentErrorKind)
| Core_Storage (k : StorageErrorKind)
| Core_Frame (msg : string)
| Core_Config (msg : string)
| Core_Io (msg : string)
| Core_Sqlite (msg : string)
| Core_CborEncode (msg : string)
| Core_CborDecode (msg : string)
| Core_DaemonAlreadyRunning.

(** [daemon/error_kind.rs], the categories the CLI can act on. *)
Inductive DaemonErrorKind : Type :=
| Daemon_ContactNotFound
| Daemon_ContactAmbiguous (matches : Z)
| Daemon_InviteExpired
| Daemon_InviteConsumed
| Daemon_InviteSignatureInvalid
| Daemon_GroupCorrupt
| Daemon_DeliveryTimeout
| Daemon_TorNotReady
| Daemon_StorageError
| Daemon_SearchSyntax
| Daemon_InvalidArgument (message : string)
| Daemon_Unauthorized.

(** [CoreError::kind]. *)
Definition kind (e : CoreError) : option DaemonErrorKind :=
  match e with
  | Core_Contact Contact_NotFound => Some Daemon_ContactNotFound
  | Core_Contact (Contact_Ambiguous matches) => Some (Daemon_ContactAmbiguous matches)
  | Core_Contact (Contact_Other _) => None
  | Core_Invite Invite_Expired => Some Daemon_InviteExpired
  | Core_Invite Invite_Consumed => Some Daemon_InviteConsumed
  | Core_Invite Invite_SignatureInvalid => Some Daemon_InviteSignatureInvalid
  | Core_Invite (Invite_Other _) => None
  | Core_Mls Mls_GroupCorrupt => Some Daemon_GroupCorrupt
  | Core_Mls (Mls_Other _) => None
  | Core_Delivery Delivery_Timeout => Some Daemon_DeliveryTimeout
  | Core_Delivery (Delivery_Other _) => None
  | Core_Transport Transport_TorNotReady => Some Daemon_TorNotReady
  | Core_Transport (Transport_Other _) => None
  | Core_Storage (Storage_FtsSyntax _) => Some Daemon_SearchSyntax
  | Core_Storage Storage_DuplicateMessage => Some Daemon_StorageError
  | Core_Storage (Storage_SchemaTooNew _ _) => Some Daemon_StorageError
  | Core_Storage (Storage_Other _) => Some Daemon_StorageError
  | Core_Sqlite _ => Some Daemon_StorageError
  | _ => None
  end.

(** ** [Display], from the [#[error(...)]] attributes *)

Definition display_attachment (e : AttachmentErrorKind) : string :=
  match e with
  | Attachment_TooLarge => "attachment too large"
  | Attachment_ChunkHashMismatch => "attachment chunk hash mismatch"
  | Attachment_AeadFailed => "attachment chunk decryption failed"
  | Attachment_SizeMismatch => "attachment size/shape mismatch"
  | Attachment_ManifestInvalid m => "attachment manifest invalid: " +:+ m
  | Attachment_StripFailed m => "attachment metadata strip failed: " +:+ m
  end.

Definition display_contact (e : ContactErrorKind) : string :=
  match e with
  | Contact_NotFound => "contact not found"
  | Contact_Ambiguous matches => "contact ambiguous (" +:+ pretty matches +:+ " matches)"
  | Contact_Other m => "contact: " +:+ m
  end.

Definition display_delivery (e : DeliveryErrorKind) : string :=
  match e with Delivery_Timeout => "delivery timeout" | Delivery_Other m => "delivery: " +:+ m end.

Definition display_invite (e : InviteErrorKind) : string :=
  match e with
  | Invite_Expired => "invite expired"
  | Invite_Consumed => "invite consumed"
  | Invite_SignatureInvalid => "invite signature invalid"
  | Invite_Other m => "invite: " +:+ m
  end.

Definition display_mls (e : MlsErrorKind) : string :=
  match e with Mls_GroupCorrupt => "group corrupt" | Mls_Other m => "mls: " +:+ m end.

Definition display_storage (e : StorageErrorKind) : string :=
  match e with
  | Storage_FtsSyntax m => "fts5 syntax error: " +:+ m
  | Storage_DuplicateMessage => "duplicate message"
  | Storage_Other m => "storage: " +:+ m
  | Storage_SchemaTooNew found max_known =>
      "schema too new: db at version " +:+ pretty found +:+ ", this binary knows up to " +:+ pretty max_known
  end.

Definition display_transport (e : TransportErrorKind) : string :=
  match e with Transport_TorNotReady => "tor not ready" | Transport_Other m => "transport: " +:+ m end.

Definition display_mailbox_client (e : MailboxClientErrorKind) : string :=
  match e with
  | MailboxClient_Unreachable => "mailbox unreachable"
  | MailboxClient_UnsupportedVersion => "mailbox unsupported protocol version"
  | MailboxClient_RateLimited => "mailbox rate limited"
  | MailboxClient_RecipientFull => "mailbox recipient full"
  | MailboxClient_InvalidSignature => "mailbox invalid signature"
  | MailboxClient_NonceExpired => "mailbox nonce expired"
  | MailboxClient_Malformed => "mailbox malformed response"
  | MailboxClient_HashMismatch => "mailbox hash mismatch"
  | MailboxClient_Other m => "mailbox: " +:+ m
  end.

Definition display (e : CoreError) : string :=
  match e with
  | Core_Identity m => "identity: " +:+ m
  | Core_Transport k => display_transport k
  | Core_Mls k => display_mls k
  | Core_Invite k => display_invite k
  | Core_Contact k => display_contact k
  | Core_Mailbox m => "mailbox: " +:+ m
  | Core_MailboxClient k => display_mailbox_client k
  | Core_Delivery k => display_delivery k
  | Core_Attachment k => display_attachment k
  | Core_Storage k => display_storage k
  | Core_Frame m => "frame codec: " +:+ m
  | Core_Config m => "config: " +:+ m
  | Core_Io m => "io: " +:+ m
  | Core_Sqlite m => "sqlite: " +:+ m
  | Core_CborEncode m => "cbor encode: " +:+ m
  | Core_CborDecode m => "cbor decode: " +:+ m
  | Core_DaemonAlreadyRunning => "another skattr daemon is already using this data directory"
  end.
