(* ===== verification/PeerFrame.v ===== *)
(** * PeerFrame: the peer-to-peer frame codec

    [crates/core/src/transport/frame.rs]: the [Frame] type, its type bytes, and
    [FrameCodec]'s [decode] and [encode].  A codec call takes the input buffer
    and returns it as the call leaves it together with the result, so that what
    a decoder consumes on each path is part of the model.  [Framed], the stream
    wrapper of [tokio_util] that calls [decode] until it asks for more bytes, is
    [drain] (one read's worth of buffered bytes) and [feed] (a sequence of
    reads). *)

From S2P Require Import Prelude Framing SimpleCodec CoreErrors.

Record ErrorPayload : Type := mkErrorPayload { ep_code : Z; ep_message : string }.
Record ChunkRequestPayload : Type := mkChunkRequestPayload
  { crp_attachment_id : bytes; crp_index : Z }.
Record ChunkPayload : Type := mkChunkPayload
  { cp_attachment_id : bytes; cp_index : Z; cp_ciphertext : bytes }.
Record ChunkNackPayload : Type := mkChunkNackPayload
  { cnp_attachment_id : bytes; cnp_index : Z; cnp_reason : Z }.
Record AttachmentCompletePayload : Type := mkAttachmentCompletePayload
  { acp_attachment_id : bytes }.

Inductive FrameType : Type :=
| FT_NoiseInit | FT_NoiseResp | FT_MlsWelcome | FT_MlsCommit | FT_MlsApp | FT_Ack
| FT_Ping | FT_Pong | FT_Bye | FT_Error | FT_ChunkRequest | FT_Chunk | FT_ChunkNack
| FT_AttachmentComplete.

(** The [#[repr(u8)]] discriminant. *)
Definition FrameType_byte (t : FrameType) : byte :=
  match t with
  | FT_NoiseInit => Byte.x01 | FT_NoiseResp => Byte.x02 | FT_MlsWelcome => Byte.x03
  | FT_MlsCommit => Byte.x04 | FT_MlsApp => Byte.x05 | FT_Ack => Byte.x06
  | FT_Ping => Byte.x07 | FT_Pong => Byte.x08 | FT_Bye => Byte.x09 | FT_Error => Byte.x0a
  | FT_ChunkRequest => Byte.x0b | FT_Chunk => Byte.x0c | FT_ChunkNack => Byte.x0d
  | FT_AttachmentComplete => Byte.x0e
  end.

Inductive Frame : Type :=
| NoiseInit (p : bytes)
| NoiseResp (p : bytes)
| MlsWelcome (p : bytes)
| MlsCommit (p : bytes)
| MlsApp (p : bytes)
| Ack (id : bytes)
| Ping
| Pong
| Bye
| Error (code : Z) (message : string)
| ChunkRequest (attachment_id : bytes) (index : Z)
| Chunk (attachment_id : bytes) (index : Z) (ciphertext : bytes)
| ChunkNack (attachment_id : bytes) (index : Z) (reason : Z)
| AttachmentComplete (attachment_id : bytes).

Definition frame_type (f : Frame) : FrameType :=
  match f with
  | NoiseInit _ => FT_NoiseInit
  | NoiseResp _ => FT_NoiseResp
  | MlsWelcome _ => FT_MlsWelcome
  | MlsCommit _ => FT_MlsCommit
  | MlsApp _ => FT_MlsApp
  | Ack _ => FT_Ack
  | Ping => FT_Ping
  | Pong => FT_Pong
  | Bye => FT_Bye
  | Error _ _ => FT_Error
  | ChunkRequest _ _ => FT_ChunkRequest
  | Chunk _ _ _ => FT_Chunk
  | ChunkNack _ _ _ => FT_ChunkNack
  | AttachmentComplete _ => FT_AttachmentComplete
  end.

Section codec.
  Context `{!Serialize ErrorPayload, !Deserialize ErrorPayload}.
  Context `{!Serialize ChunkRequestPayload, !Deserialize ChunkRequestPayload}.
  Context `{!Serialize ChunkPayload, !Deserialize ChunkPayload}.
  Context `{!Serialize ChunkNackPayload, !Deserialize ChunkNackPayload}.
  Context `{!Serialize AttachmentCompletePayload, !Deserialize AttachmentCompletePayload}.

(** [ciborium::from_reader(&payload[..]).map_err(|e| Frame(format!("<what>: {e}")))]. *)
Definition cbor_payload {T} `{!Deserialize T} (what : string) (payload : bytes)
    : result T CoreError :=
  map_err (λ e, Core_Frame (what +:+ ": " +:+ e)) (from_reader payload).

(** The [match type_byte] of [decode], on the payload it split off. *)
Definition decode_payload (type_byte : byte) (payload : bytes) : result Frame CoreError :=
  match type_byte with
  | Byte.x01 => Ok (NoiseInit payload)
  | Byte.x02 => Ok (NoiseResp payload)
  | Byte.x03 => Ok (MlsWelcome payload)
  | Byte.x04 => Ok (MlsCommit payload)
  | Byte.x05 => Ok (MlsApp payload)
  | Byte.x06 =>
      if decide (len payload ≠ 16)
      then Err (Core_Frame ("Ack payload must be 16 bytes, got " +:+ pretty (len payload)))
      else Ok (Ack payload)
  | Byte.x0a =>
      let? parsed := cbor_payload (T := ErrorPayload) "Error payload CBOR" payload in
      Ok (Error (ep_code parsed) (ep_message parsed))
  | Byte.x07 =>
      if decide (payload ≠ []) then Err (Core_Frame "Ping must have empty payload") else Ok Ping
  | Byte.x08 =>
      if decide (payload ≠ []) then Err (Core_Frame "Pong must have empty payload") else Ok Pong
  | Byte.x09 =>
      if decide (payload ≠ []) then Err (Core_Frame "Bye must have empty payload") else Ok Bye
  | Byte.x0b =>
      let? p := cbor_payload (T := ChunkRequestPayload) "ChunkRequest CBOR" payload in
      Ok (ChunkRequest (crp_attachment_id p) (crp_index p))
  | Byte.x0c =>
      let? p := cbor_payload (T := ChunkPayload) "Chunk CBOR" payload in
      Ok (Chunk (cp_attachment_id p) (cp_index p) (cp_ciphertext p))
  | Byte.x0d =>
      let? p := cbor_payload (T := ChunkNackPayload) "ChunkNack CBOR" payload in
      Ok (ChunkNack (cnp_attachment_id p) (cnp_index p) (cnp_reason p))
  | Byte.x0e =>
      let? p := cbor_payload (T := AttachmentCompletePayload) "AttachmentComplete CBOR" payload in
      Ok (AttachmentComplete (acp_attachment_id p))
  | other =>
      Err (Core_Frame ("unknown or not-yet-handled frame type 0x" +:+ format_02X other))
  end.

(** [FrameCodec::decode]: the buffer it leaves and [Result<Option<Frame>>]. *)
Definition decode (src : bytes) : bytes * result (option Frame) CoreError :=
  match read_header src with
  | Incomplete => (src, Ok None)
  | ZeroLength => (src, Err (Core_Frame "zero-length frame"))
  | TooLarge length => (src, Err (Core_Frame ("frame too large: " +:+ pretty length +:+ " bytes")))
  | Complete type_byte payload rest =>
      (rest, let? frame := decode_payload type_byte payload in Ok (Some frame))
  end.

Definition cbor_buf {T} `{!Serialize T} (what : string) (v : T) : result bytes CoreError :=
  map_err (λ e, Core_Frame (what +:+ ": " +:+ e)) (into_writer v).

(** The [match item] of [encode]: type byte and payload. *)
Definition encode_payload (item : Frame) : result (byte * bytes) CoreError :=
  match item with
  | Ping => Ok (Byte.x07, [])
  | Pong => Ok (Byte.x08, [])
  | Bye => Ok (Byte.x09, [])
  | Ack id => Ok (Byte.x06, id)
  | NoiseInit p => Ok (Byte.x01, p)
  | NoiseResp p => Ok (Byte.x02, p)
  | MlsWelcome p => Ok (Byte.x03, p)
  | MlsCommit p => Ok (Byte.x04, p)
  | MlsApp p => Ok (Byte.x05, p)
  | Error code message =>
      let? buf := cbor_buf "encode Error" (mkErrorPayload code message) in Ok (Byte.x0a, buf)
  | ChunkRequest attachment_id index =>
      let? buf := cbor_buf "encode ChunkRequest" (mkChunkRequestPayload attachment_id index) in
      Ok (Byte.x0b, buf)
  | Chunk attachment_id index ciphertext =>
      let? buf := cbor_buf "encode Chunk" (mkChunkPayload attachment_id index ciphertext) in
      Ok (Byte.x0c, buf)
  | ChunkNack attachment_id index reason =>
      let? buf := cbor_buf "encode ChunkNack" (mkChunkNackPayload attachment_id index reason) in
      Ok (Byte.x0d, buf)
  | AttachmentComplete attachment_id =>
      let? buf := cbor_buf "encode AttachmentComplete" (mkAttachmentCompletePayload attachment_id) in
      Ok (Byte.x0e, buf)
  end.

(** [FrameCodec::encode]: the bytes appended to [dst]. *)
Definition encode (item : Frame) (dst : bytes) : result bytes CoreError :=
  let? (type_byte, payload) := encode_payload item in
  match write_frame type_byte payload with
  | None => Err (Core_Frame ("encoded frame too large: " +:+ pretty (1 + len payload) +:+ " bytes"))
  | Some b => Ok (dst ++ b)
  end.

(** ** The stream wrapper

    [Framed] calls [decode] on its buffer until it returns [Ok(None)] or an
    error.  A [decode] that returns a frame consumes at least five bytes, so a
    buffer of [n] bytes needs at most [n] calls. *)

Inductive stream : Type :=
| Open (buffer : bytes)
| Failed (e : CoreError).

Fixpoint drain_fuel (fuel : nat) (src : bytes) : list Frame * stream :=
  match fuel with
  | O => ([], Open src)
  | S fuel' =>
      match decode src with
      | (rest, Ok None) => ([], Open rest)
      | (_, Err e) => ([], Failed e)
      | (rest, Ok (Some f)) =>
          let '(fs, st) := drain_fuel fuel' rest in (f :: fs, st)
      end
  end.

Definition drain (src : bytes) : list Frame * stream := drain_fuel (S (length src)) src.

(** Successive reads from the socket, each appended to the buffer. *)
Fixpoint feed (st : stream) (reads : list bytes) : list Frame * stream :=
  match reads with
  | [] => ([], st)
  | r :: reads' =>
      match st with
      | Failed e => ([], Failed e)
      | Open buffer =>
          let '(fs, st') := drain (buffer ++ r) in
          let '(fs', st'') := feed st' reads' in (fs ++ fs', st'')
      end
  end.
End codec.

(** ** Correctness of the codec *)

(** The array length in the type of [Frame::Ack]. *)
Definition wf_frame (f : Frame) : Prop :=
  match f with Ack id => length id = 16%nat | _ => True end.

Section codec_facts.
Context `{!Serialize ErrorPayload, !Deserialize ErrorPayload}.
Context `{!Serialize ChunkRequestPayload, !Deserialize ChunkRequestPayload}.
Context `{!Serialize ChunkPayload, !Deserialize ChunkPayload}.
Context `{!Serialize ChunkNackPayload, !Deserialize ChunkNackPayload}.
Context `{!Serialize AttachmentCompletePayload, !Deserialize AttachmentCompletePayload}.

Lemma encode_Ok_inv f dst b :
  encode f dst = Ok b →
  ∃ t payload w, encode_payload f = Ok (t, payload) ∧ write_frame t payload = Some w ∧ b = dst ++ w.
Proof.
  unfold encode. intros ([t payload] & Hp & Hw)%bind_Ok_inv.
  destruct (write_frame t payload) as [w|] eqn:E; [|done].
  injection Hw as <-. by exists t, payload, w.
Qed.

Lemma encode_payload_type f t payload :
  encode_payload f = Ok (t, payload) → t = FrameType_byte (frame_type f).
Proof.
  destruct f; simpl; try (intros [= <- _]; done);
    (intros (buf & _ & [= <- _])%bind_Ok_inv; done).
Qed.

Lemma decode_rest_shorter src rest f :
  decode src = (rest, Ok (Some f)) → (length rest + 5 ≤ length src)%nat.
Proof.
  unfold decode. destruct (read_header src) eqn:E; try done.
  intros [= <- _]. apply read_header_Complete in E as [E _].
  pose proof (len_nonneg payload). unfold len in *. lia.
Qed.

Lemma drain_fuel_enough n m src :
  (length src < n)%nat → (length src < m)%nat → drain_fuel n src = drain_fuel m src.
Proof.
  revert m src. induction n as [|n IH]; intros [|m] src Hn Hm; try lia. simpl.
  destruct (decode src) as [rest [[f|]|e]] eqn:E; [|done..].
  apply decode_rest_shorter in E. by rewrite (IH m) by lia.
Qed.

Lemma drain_unfold src :
  drain src =
    match decode src with
    | (rest, Ok None) => ([], Open rest)
    | (_, Err e) => ([], Failed e)
    | (rest, Ok (Some f)) => let '(fs, st) := drain rest in (f :: fs, st)
    end.
Proof.
  unfold drain at 1. cbn [drain_fuel].
  destruct (decode src) as [rest [[f|]|e]] eqn:E; [|done..].
  apply decode_rest_shorter in E. unfold drain.
  by rewrite (drain_fuel_enough (length src) (S (length rest))) by lia.
Qed.

(** Bytes that arrive later extend what [decode] leaves and change nothing
    else, once it has answered. *)
Lemma decode_app src more :
  match decode src with
  | (rest, Ok (Some f)) => decode (src ++ more) = (rest ++ more, Ok (Some f))
  | (_, Ok None) => True
  | (rest, Err e) => decode (src ++ more) = (rest ++ more, Err e)
  end.
Proof.
  unfold decode. pose proof (read_header_app src more) as H.
  destruct (read_header src) as [| |n|t payload rest]; [done|by rewrite H..|].
  rewrite H. by destruct (decode_payload t payload).
Qed.

Lemma decode_None_same src rest : decode src = (rest, Ok None) → rest = src.
Proof.
  unfold decode. destruct (read_header src) as [| |n|t payload r]; try congruence.
  by destruct (decode_payload t payload).
Qed.

Lemma drain_app a b :
  drain (a ++ b) =
    match drain a with
    | (fs, Open r) => let '(fs', st) := drain (r ++ b) in (fs ++ fs', st)
    | (fs, Failed e) => (fs, Failed e)
    end.
Proof.
  remember (length a) as n eqn:Hn. revert a Hn.
  induction n as [n IH] using lt_wf_ind. intros a ->.
  rewrite (drain_unfold a). pose proof (decode_app a b) as Happ.
  destruct (decode a) as [rest [[f|]|e]] eqn:E.
  - rewrite drain_unfold, Happ. apply decode_rest_shorter in E.
    rewrite (IH (length rest) ltac:(lia) rest eq_refl).
    destruct (drain rest) as [fs [r|e]]; [|done]. by destruct (drain (r ++ b)).
  - apply decode_None_same in E as ->. by destruct (drain (a ++ b)).
  - by rewrite drain_unfold, Happ.
Qed.

Lemma drain_Open_stuck src fs r : drain src = (fs, Open r) → decode r = (r, Ok None).
Proof.
  remember (length src) as n eqn:Hn. revert src fs Hn.
  induction n as [n IH] using lt_wf_ind. intros src fs -> H.
  rewrite drain_unfold in H. destruct (decode src) as [rest [[f|]|e]] eqn:E; [| |done].
  - destruct (drain rest) as [fs' st] eqn:Ed. simplify_eq.
    apply decode_rest_shorter in E. eapply (IH (length rest)); [lia|done|exact Ed].
  - injection H as <- <-. pose proof (decode_None_same _ _ E) as ->. done.
Qed.
End codec_facts.

(** ** Properties *)

Section codec_properties.
Context `{!Serialize ErrorPayload, !Deserialize ErrorPayload}.
Context `{!Serialize ChunkRequestPayload, !Deserialize ChunkRequestPayload}.
Context `{!Serialize ChunkPayload, !Deserialize ChunkPayload}.
Context `{!Serialize ChunkNackPayload, !Deserialize ChunkNackPayload}.
Context `{!Serialize AttachmentCompletePayload, !Deserialize AttachmentCompletePayload}.
Context `{!CborRoundtrip ErrorPayload, !CborRoundtrip ChunkRequestPayload}.
Context `{!CborRoundtrip ChunkPayload, !CborRoundtrip ChunkNackPayload}.
Context `{!CborRoundtrip AttachmentCompletePayload}.

Lemma cbor_buf_payload {T} `{!Serialize T, !Deserialize T, !CborRoundtrip T} w1 w2 (v : T) buf :
  cbor_buf w1 v = Ok buf → cbor_payload w2 buf = Ok v.
Proof.
  unfold cbor_buf, cbor_payload. destruct (into_writer v) as [b|e] eqn:E; [|done].
  intros [= <-]. by rewrite (from_into v b E).
Qed.

Lemma decode_encode_payload f t payload :
  wf_frame f → encode_payload f = Ok (t, payload) → decode_payload t payload = Ok f.
Proof.
  intros Hwf. destruct f; simpl in *; try (intros [= <- <-]; done).
  1: { intros [= <- <-]. simpl. by rewrite decide_False by (unfold len; lia). }
  all: intros (buf & Hbuf & [= <- <-])%bind_Ok_inv; simpl;
    by erewrite cbor_buf_payload by exact Hbuf.
Qed.

Lemma decode_encode f b rest :
  wf_frame f → encode f [] = Ok b → decode (b ++ rest) = (rest, Ok (Some f)).
Proof.
  intros Hwf (t & payload & w & Hp & Hw & ->)%encode_Ok_inv. simpl.
  unfold decode. rewrite (read_write_frame _ _ _ _ Hw).
  by rewrite (decode_encode_payload f t payload).
Qed.

(** The frames a connection writes back to back. *)
Fixpoint encode_all (fs : list Frame) (dst : bytes) : result bytes CoreError :=
  match fs with
  | [] => Ok dst
  | f :: fs' => let? dst' := encode f dst in encode_all fs' dst'
  end.

Lemma encode_all_drain fs b dst :
  Forall wf_frame fs → encode_all fs dst = Ok b →
  ∃ w, b = dst ++ w ∧ drain w = (fs, Open []).
Proof.
  intros Hwf. revert dst. induction Hwf as [|f fs Hf Hfs IH]; intros dst; simpl.
  - intros [= <-]. exists []. by rewrite app_nil_r.
  - intros (dst' & He & Ha)%bind_Ok_inv.
    apply IH in Ha as (w & -> & Hd).
    apply encode_Ok_inv in He as (t & payload & v & Hp & Hv & ->).
    exists (v ++ w). rewrite app_assoc. split; [done|].
    rewrite drain_unfold, (decode_encode f v w Hf), Hd; [done|].
    unfold encode. rewrite Hp. simpl. by rewrite Hv.
Qed.

Lemma feed_drain reads buffer :
  decode buffer = (buffer, Ok None) →
  feed (Open buffer) reads = drain (buffer ++ concat reads).
Proof.
  revert buffer. induction reads as [|r reads IH]; intros buffer Hb; cbn [feed concat].
  - rewrite app_nil_r, drain_unfold, Hb. done.
  - rewrite app_assoc, (drain_app (buffer ++ r)).
    destruct (drain (buffer ++ r)) as [fs [buf|e]] eqn:E.
    + by rewrite IH by (by eapply drain_Open_stuck).
    + destruct reads; simpl; by rewrite app_nil_r.
Qed.

(** The codec round trip.  A frame that [encode] accepts decodes to itself
    from a buffer that starts with its bytes, whatever follows, and the decoder
    leaves exactly what follows. *)
Theorem peer_codec_roundtrip f b rest :
  wf_frame f → encode f [] = Ok b → decode (b ++ rest) = (rest, Ok (Some f)).
Proof. apply decode_encode. Qed.

(** Stream decoding.  Frames written back to back come out in order, each
    once and nothing else, whatever the sizes of the reads the transport
    splits the byte stream into. *)
Theorem peer_stream_roundtrip fs b reads :
  Forall wf_frame fs → encode_all fs [] = Ok b → concat reads = b →
  feed (Open []) reads = (fs, Open []).
Proof.
  intros Hwf Henc Hreads. rewrite feed_drain by done. rewrite Hreads.
  apply encode_all_drain in Henc as (w & -> & Hd); done.
Qed.
End codec_properties.

Section codec_safety.
Context `{!Serialize ErrorPayload, !Deserialize ErrorPayload}.
Context `{!Serialize ChunkRequestPayload, !Deserialize ChunkRequestPayload}.
Context `{!Serialize ChunkPayload, !Deserialize ChunkPayload}.
Context `{!Serialize ChunkNackPayload, !Deserialize ChunkNackPayload}.
Context `{!Serialize AttachmentCompletePayload, !Deserialize AttachmentCompletePayload}.

(** Segmentation does not matter on hostile input either.  For arbitrary
    bytes, the frames delivered and the final state of the stream (the bytes
    left over, or the error that closed it) depend on the bytes and not on how
    they were split into reads. *)
Theorem peer_stream_segmentation reads1 reads2 :
  concat reads1 = concat reads2 → feed (Open []) reads1 = feed (Open []) reads2.
Proof. intros H. by rewrite !feed_drain, H by done. Qed.

(** Bounds and consumption.  A frame comes out only from a buffer that
    holds its whole encoding: its five header bytes and a payload of at most
    [MAX_FRAME_SIZE - 1] bytes, whose announced length matches.  A request for
    more bytes consumes nothing, and happens only for a buffer that is shorter
    than a maximal frame. *)
Theorem peer_decode_consumption src :
  match decode src with
  | (rest, Ok (Some f)) =>
      ∃ b0 b1 b2 b3 payload,
        src = b0 :: b1 :: b2 :: b3 :: FrameType_byte (frame_type f) :: payload ++ rest ∧
        u32_from_be_bytes b0 b1 b2 b3 = 1 + len payload ∧ 1 + len payload ≤ MAX_FRAME_SIZE
  | (rest, Ok None) => rest = src ∧ len src < 4 + MAX_FRAME_SIZE
  | (rest, Err _) => rest `suffix_of` src
  end.
Proof.
  unfold decode. destruct (read_header src) as [| |n|t payload rest] eqn:E; [|done..|].
  - split; [done|]. unfold read_header in E.
    destruct src as [|b0 [|b1 [|b2 [|b3 [|t tail]]]]]; try (unfold len; simpl; unfold MAX_FRAME_SIZE; lia).
    repeat case_decide; try done. lia.
  - apply read_header_Complete in E as (_ & Hmax & b0 & b1 & b2 & b3 & -> & Hlen).
    destruct (decode_payload t payload) as [f|e] eqn:Ed; simpl.
    + exists b0, b1, b2, b3, payload. split; [|done]. do 4 f_equal.
      revert Ed. unfold decode_payload. clear.
      destruct t; simpl; repeat case_decide; try done; try (intros [= <-]; done);
        (intros (p & _ & [= <-])%bind_Ok_inv; done).
    + exists (b0 :: b1 :: b2 :: b3 :: t :: payload). done.
Qed.

(** The layout [encode] writes: the big-endian length, the type byte that
    [frame_type] reports, the payload; at most [4 + MAX_FRAME_SIZE] bytes, and
    appended to what the buffer held. *)
Theorem peer_encode_layout f dst b :
  encode f dst = Ok b →
  ∃ payload, b = dst ++ u32_to_be_bytes (1 + len payload) ++ FrameType_byte (frame_type f) :: payload
    ∧ 1 + len payload ≤ MAX_FRAME_SIZE.
Proof.
  intros (t & payload & w & Hp & Hw & ->)%encode_Ok_inv. exists payload.
  pose proof (encode_payload_type _ _ _ Hp) as ->.
  pose proof (write_frame_len _ _ _ Hw) as [_ ?]. split; [|done].
  unfold write_frame in Hw. case_decide; [done|]. by injection Hw as <-.
Qed.
End codec_safety.

(** ** Witnesses

    The payload types with the concrete codec of [SimpleCodec]. *)

#[local] Instance codec_ErrorPayload : Codec ErrorPayload :=
  codec_via (λ p, (ep_code p, ep_message p)) (λ v, Some (mkErrorPayload v.1 v.2))
    (λ '(mkErrorPayload _ _), eq_refl).
#[local] Instance codec_ChunkRequestPayload : Codec ChunkRequestPayload :=
  codec_via (λ p, (crp_attachment_id p, crp_index p)) (λ v, Some (mkChunkRequestPayload v.1 v.2))
    (λ '(mkChunkRequestPayload _ _), eq_refl).
#[local] Instance codec_ChunkPayload : Codec ChunkPayload :=
  codec_via (λ p, (cp_attachment_id p, cp_index p, cp_ciphertext p))
    (λ v, Some (mkChunkPayload v.1.1 v.1.2 v.2)) (λ '(mkChunkPayload _ _ _), eq_refl).
#[local] Instance codec_ChunkNackPayload : Codec ChunkNackPayload :=
  codec_via (λ p, (cnp_attachment_id p, cnp_index p, cnp_reason p))
    (λ v, Some (mkChunkNackPayload v.1.1 v.1.2 v.2)) (λ '(mkChunkNackPayload _ _ _), eq_refl).
#[local] Instance codec_AttachmentCompletePayload : Codec AttachmentCompletePayload :=
  codec_via acp_attachment_id (λ v, Some (mkAttachmentCompletePayload v))
    (λ '(mkAttachmentCompletePayload _), eq_refl).

#[local] Existing Instance serialize_of.
#[local] Existing Instance deserialize_of.
#[local] Existing Instance roundtrip_of.

Definition sample_frames : list Frame :=
  [Ping; Ack (fill 16 Byte.x2a); MlsApp [Byte.x01; Byte.x02]; Error 7 "no";
   ChunkRequest (fill 16 Byte.x01) 3; Chunk (fill 16 Byte.x01) 3 [Byte.xff];
   ChunkNack (fill 16 Byte.x01) 9 1; AttachmentComplete (fill 16 Byte.x01); Bye].

Lemma peer_codec_roundtrip_witness :
  ∃ b, encode (Chunk (fill 16 Byte.x01) 3 [Byte.xff]) [] = Ok b ∧
    decode (b ++ [Byte.x00; Byte.x07]) =
      ([Byte.x00; Byte.x07], Ok (Some (Chunk (fill 16 Byte.x01) 3 [Byte.xff]))).
Proof.
  eexists. split; [vm_compute; reflexivity|].
  apply peer_codec_roundtrip; [done|]. vm_compute. reflexivity.
Defined.

Lemma peer_stream_roundtrip_witness :
  ∃ b, encode_all sample_frames [] = Ok b ∧
    feed (Open []) [take 3 b; take 40 (drop 3 b); []; drop 43 b] = (sample_frames, Open []).
Proof.
  eexists. split; [vm_compute; reflexivity|].
  eapply peer_stream_roundtrip.
  - vm_compute. repeat constructor.
  - vm_compute. reflexivity.
  - vm_compute. reflexivity.
Defined.

Lemma peer_stream_segmentation_witness :
  concat [[Byte.x00; Byte.x00]; [Byte.x00; Byte.x01; Byte.x20]]
    = concat [[Byte.x00; Byte.x00; Byte.x00; Byte.x01; Byte.x20]] ∧
  feed (Open []) [[Byte.x00; Byte.x00]; [Byte.x00; Byte.x01; Byte.x20]]
    = feed (Open []) [[Byte.x00; Byte.x00; Byte.x00; Byte.x01; Byte.x20]].
Proof. split; [reflexivity|]. apply peer_stream_segmentation. reflexivity. Defined.

Lemma peer_encode_layout_witness :
  encode Ping [Byte.xaa] = Ok [Byte.xaa; Byte.x00; Byte.x00; Byte.x00; Byte.x01; Byte.x07] ∧
  ∃ payload, [Byte.xaa; Byte.x00; Byte.x00; Byte.x00; Byte.x01; Byte.x07]
    = [Byte.xaa] ++ u32_to_be_bytes (1 + len payload) ++ FrameType_byte (frame_type Ping) :: payload
    ∧ 1 + len payload ≤ MAX_FRAME_SIZE.
Proof. split; [reflexivity|]. apply peer_encode_layout. reflexivity. Defined.
