(* ===== verification/MailboxProtocol.v ===== *)
(** * MailboxProtocol: wire types, error taxonomy and auth string

    [crates/core/src/mailbox/protocol.rs] (the frozen v1 wire types shared by
    client and server), [crates/core/src/mailbox/auth.rs] (the string a client
    signs) and [crates/mailbox/src/error.rs] (the server's errors and their
    projection onto wire codes). *)

From S2P Require Import Prelude Framing.

(** ** [protocol.rs] *)

Definition PROTOCOL_VERSION : Z := 1.

Record Deposit : Type := mkDeposit {
  d_version : Z;
  d_recipient_hash : bytes;
  d_ciphertext : bytes;
  d_ttl_request : Z
}.

Record DepositOk : Type := mkDepositOk { dok_deposit_id : bytes; dok_expires_at : Z }.

Record Challenge : Type := mkChallenge { c_version : Z; c_identity_hash : bytes }.

Record ChallengeNonce : Type := mkChallengeNonce { cn_nonce : bytes; cn_issued_at : Z }.

Record Fetch : Type := mkFetch {
  f_version : Z;
  f_identity_pubkey : bytes;
  f_nonce : bytes;
  f_signature : bytes
}.

Record PendingDeposit : Type := mkPendingDeposit {
  pd_deposit_id : bytes;
  pd_ciphertext : bytes;
  pd_received_at : Z
}.

Record FetchResponse : Type := mkFetchResponse { fr_deposits : list PendingDeposit }.

Record Delete : Type := mkDelete {
  del_version : Z;
  del_identity_pubkey : bytes;
  del_nonce : bytes;
  del_signature : bytes;
  del_deposit_ids : list bytes
}.

Record DeleteOk : Type := mkDeleteOk { delok_deleted : Z; delok_not_found : Z }.

Inductive ErrorCode : Type :=
| EC_UnsupportedVersion | EC_MalformedRequest | EC_TooLarge | EC_RateLimited
| EC_RecipientFull | EC_TtlTooLong | EC_TtlTooShort | EC_InvalidSignature
| EC_HashMismatch | EC_NonceExpired | EC_NotFound | EC_Internal.

Record ErrorBody : Type := mkErrorBody { eb_code : ErrorCode; eb_message : string }.

(** ** [auth.rs] *)

Definition AUTH_DOMAIN : bytes := bytes_of_string "skattr-mailbox-auth-v1".
Definition OP_BYTE_FETCH : byte := Byte.x86.
Definition OP_BYTE_DELETE : byte := Byte.x88.

(** SHA-256 ([sha2]) is a library function. *)
Class Sha256 : Type := sha256 : bytes → bytes.

Definition payload_digest {T} `{!Serialize T, !Sha256} (payload : T) : result bytes string :=
  let? buf := map_err (λ e, "auth digest: " +:+ e) (into_writer payload) in Ok (sha256 buf).

Definition signing_input (nonce : bytes) (op_byte : byte) (payload_digest : bytes) : bytes :=
  AUTH_DOMAIN ++ nonce ++ [op_byte] ++ payload_digest.

(** ** [error.rs] of the mailbox server *)

Inductive StorageErrorKind : Type :=
| MigrationFailed (msg : string)
| Sqlite (msg : string)
| NotFound
| StoragePoisoned.

Inductive AuthErrorKind : Type :=
| HashMismatch
| InvalidSignature
| NonceExpired
| AuthPoisoned.

Inductive PolicyErrorKind : Type :=
| TooLarge
| TtlTooLong
| TtlTooShort
| RateLimited
| RecipientFull
| ServerFull
| RecipientLimit
| PolicyPoisoned
| TooManyDeleteIds.

Inductive TransportErrorKind : Type :=
| EncodeFailed (msg : string)
| DecodeFailed (msg : string)
| UnsupportedVersion.

Inductive ConfigErrorKind : Type :=
| ConfigIo (msg : string)
| ConfigParse (msg : string)
| ConfigInvalid (msg : string).

Inductive MailboxError : Type :=
| MbStorage (k : StorageErrorKind)
| MbAuth (k : AuthErrorKind)
| MbPolicy (k : PolicyErrorKind)
| MbTransport (k : TransportErrorKind)
| MbConfig (k : ConfigErrorKind)
| MbIo (msg : string)
| MbUnsupported (msg : string).

Inductive MailboxErrorKind : Type :=
| KStorage | KAuth | KPolicy | KTransport | KConfig | KIo | KUnsupported.

(** [MailboxError::kind]. *)
Definition kind (e : MailboxError) : MailboxErrorKind :=
  match e with
  | MbStorage _ => KStorage
  | MbAuth _ => KAuth
  | MbPolicy _ => KPolicy
  | MbTransport _ => KTransport
  | MbConfig _ => KConfig
  | MbIo _ => KIo
  | MbUnsupported _ => KUnsupported
  end.

(** [MailboxError::to_wire_code]. *)
Definition to_wire_code (e : MailboxError) : ErrorCode :=
  match e with
  | MbAuth HashMismatch => EC_HashMismatch
  | MbAuth InvalidSignature => EC_InvalidSignature
  | MbAuth NonceExpired => EC_NonceExpired
  | MbPolicy TooLarge => EC_TooLarge
  | MbPolicy TtlTooLong => EC_TtlTooLong
  | MbPolicy TtlTooShort => EC_TtlTooShort
  | MbPolicy RateLimited => EC_RateLimited
  | MbPolicy RecipientFull => EC_RecipientFull
  | MbPolicy ServerFull => EC_RecipientFull
  | MbPolicy RecipientLimit => EC_RecipientFull
  | MbPolicy TooManyDeleteIds => EC_MalformedRequest
  | MbStorage NotFound => EC_NotFound
  | MbTransport (DecodeFailed _) => EC_MalformedRequest
  | MbTransport UnsupportedVersion => EC_UnsupportedVersion
  | _ => EC_Internal
  end.

(** ** Facts *)

(** The domain-separated auth string determines nonce, operation and digest:
    with 32-byte nonces, no two signing requests share an input. *)
Lemma signing_input_inj n1 n2 op1 op2 d1 d2 :
  length n1 = length n2 →
  signing_input n1 op1 d1 = signing_input n2 op2 d2 → n1 = n2 ∧ op1 = op2 ∧ d1 = d2.
Proof.
  unfold signing_input. intros Hlen H. apply app_inv_head in H.
  apply app_inj_1 in H as [-> H]; [|done]. simplify_eq/=. done.
Qed.
