(* ===== verification/MailboxStore.v ===== *)
(** * MailboxStore: the deposit table of the mailbox server

    [crates/mailbox/src/store.rs].  The [deposits] table is the list of its rows;
    the mutex over the connection is the [poisoned] flag every operation tests
    first.  [insert] is written as the body of its transaction, with the caps
    checked and expired rows evicted in the order of the source, and committed
    by [Prelude.transaction]; the random deposit id is an argument, and a
    collision with a stored id is the primary-key error SQLite reports. *)

From S2P Require Import Prelude MailboxProtocol.

(** A row of [deposits] ([migrations/0001_init.sql]). *)
Record DepositRow : Type := mkDepositRow {
  deposit_id : bytes;
  recipient_hash : bytes;
  ciphertext : bytes;
  deposited_at : Z;
  expires_at : Z
}.

Record Store : Type := mkStore { rows : list DepositRow; poisoned : bool }.

(** One row as [fetch] returns it. *)
Record StoredDeposit : Type := mkStoredDeposit {
  sd_deposit_id : bytes;
  sd_ciphertext : bytes;
  sd_received_at : Z
}.

#[export] Instance DepositRow_eq_decision : EqDecision DepositRow.
Proof. solve_decision. Defined.

(** [self.conn.lock().map_err(|_| Poisoned)?] around an operation. *)
Definition with_lock {T} (s : Store)
    (op : list DepositRow → list DepositRow * result T MailboxError)
    : Store * result T MailboxError :=
  if poisoned s then (s, Err (MbStorage StoragePoisoned))
  else let '(rows', r) := op (rows s) in (mkStore rows' false, r).

(** [LENGTH(ciphertext)]. *)
Definition size_of (r : DepositRow) : Z := len (ciphertext r).

Definition for_recipient (rh : bytes) (rs : list DepositRow) : list DepositRow :=
  filter (λ r, recipient_hash r = rh) rs.

(** [COALESCE(SUM(LENGTH(ciphertext)), 0)] read as an [i64]; SQLite reports a
    sum past the [i64] range as an error, which the callers turn into 0. *)
Definition sum_length (rs : list DepositRow) : Z :=
  let total := sum_by size_of rs in if decide (total ≤ i64_max) then total else 0.

(** [COUNT(DISTINCT recipient_hash)]. *)
Definition count_recipients (rs : list DepositRow) : Z :=
  len (remove_dups (recipient_hash <$> rs)).

Definition delete_by_id (id : bytes) (rs : list DepositRow) : list DepositRow :=
  filter (λ r, deposit_id r ≠ id) rs.

(** The loop of both eviction functions: delete candidates in order until
    enough bytes are freed. *)
Fixpoint evict_loop (candidates : list DepositRow) (freed target_bytes : Z)
    (rs : list DepositRow) : list DepositRow :=
  match candidates with
  | [] => rs
  | c :: candidates' =>
      let rs' := delete_by_id (deposit_id c) rs in
      let freed' := u64_saturating_add freed (size_of c) in
      if decide (target_bytes ≤ freed') then rs'
      else evict_loop candidates' freed' target_bytes rs'
  end.

Definition evict_expired_for (rh : bytes) (target_bytes now : Z) (rs : list DepositRow)
    : list DepositRow :=
  evict_loop
    (order_by deposited_at (filter (λ r, recipient_hash r = rh ∧ expires_at r < now) rs))
    0 target_bytes rs.

Definition evict_expired_global (target_bytes now : Z) (rs : list DepositRow) : list DepositRow :=
  evict_loop (order_by deposited_at (filter (λ r, expires_at r < now) rs)) 0 target_bytes rs.

(** The per-recipient byte cap, with its eviction. *)
Definition check_recipient_cap (rh : bytes) (new_len cap now : Z) (rs : list DepositRow)
    : result (list DepositRow) MailboxError :=
  let existing_bytes := sum_length (for_recipient rh rs) in
  if decide (u64_add existing_bytes new_len > cap) then
    let to_free := u64_sub (u64_add existing_bytes new_len) cap in
    let rs' := evict_expired_for rh to_free now rs in
    let existing_bytes' := sum_length (for_recipient rh rs') in
    if decide (u64_add existing_bytes' new_len > cap)
    then Err (MbPolicy RecipientFull)
    else Ok rs'
  else Ok rs.

(** The distinct-recipient cap, for a recipient with no stored row. *)
Definition check_recipient_limit (rh : bytes) (max_recipients : Z) (rs : list DepositRow)
    : result unit MailboxError :=
  if decide (len (for_recipient rh rs) = 0) then
    if decide (max_recipients ≤ Z.max (count_recipients rs) 0)
    then Err (MbPolicy RecipientLimit)
    else Ok ()
  else Ok ().

(** The global byte cap, with its eviction. *)
Definition check_global_cap (new_len cap now : Z) (rs : list DepositRow)
    : result (list DepositRow) MailboxError :=
  let total_bytes := Z.max (sum_length rs) 0 in
  if decide (u64_add total_bytes new_len > cap) then
    let to_free := u64_sub (u64_add total_bytes new_len) cap in
    let rs' := evict_expired_global to_free now rs in
    let total_bytes' := Z.max (sum_length rs') 0 in
    if decide (u64_add total_bytes' new_len > cap)
    then Err (MbPolicy ServerFull)
    else Ok rs'
  else Ok rs.

(** [INSERT INTO deposits]: [deposit_id] is the primary key. *)
Definition insert_row (r : DepositRow) (rs : list DepositRow)
    : result (list DepositRow) MailboxError :=
  if decide (deposit_id r ∈ deposit_id <$> rs)
  then Err (MbStorage (Sqlite "UNIQUE constraint failed: deposits.deposit_id"))
  else Ok (rs ++ [r]).

(** [Store::insert]; [id] is the 16 bytes drawn from the thread's generator. *)
Definition insert (s : Store) (rh ct : bytes) (deposited expires : Z)
    (recipient_cap_bytes global_storage_cap_bytes max_recipients now : Z) (id : bytes)
    : Store * result bytes MailboxError :=
  with_lock s (λ rs, transaction rs (λ rs,
    let new_len := u64_try_from_or_max (len ct) in
    let? rs1 := check_recipient_cap rh new_len recipient_cap_bytes now rs in
    let? _ := check_recipient_limit rh max_recipients rs1 in
    let? rs2 := check_global_cap new_len global_storage_cap_bytes now rs1 in
    let? rs3 := insert_row (mkDepositRow id rh ct deposited expires) rs2 in
    Ok (rs3, id))).

(** [Store::fetch]. *)
Definition fetch (s : Store) (rh : bytes) (now : Z)
    : Store * result (list StoredDeposit) MailboxError :=
  with_lock s (λ rs,
    let selected := order_by deposited_at (filter (λ r, recipient_hash r = rh ∧ expires_at r > now) rs) in
    (rs, Ok ((λ r, mkStoredDeposit
                     (if decide (len (deposit_id r) = 16) then deposit_id r else fill 16 Byte.x00)
                     (ciphertext r) (deposited_at r)) <$> selected))).

(** [+=] on [u32] in a release build. *)
Definition u32_add (a b : Z) : Z := (a + b) mod 2 ^ 32.

(** The [DELETE] of one id, scoped to a recipient; the rows removed are counted. *)
Fixpoint delete_ids (rh : bytes) (ids : list bytes) (deleted : Z) (rs : list DepositRow)
    : list DepositRow * Z :=
  match ids with
  | [] => (rs, deleted)
  | id :: ids' =>
      let hit := filter (λ r, deposit_id r = id ∧ recipient_hash r = rh) rs in
      delete_ids rh ids' (u32_add deleted (u32_try_from_or 0 (len hit)))
        (filter (λ r, ¬ (deposit_id r = id ∧ recipient_hash r = rh)) rs)
  end.

(** [Store::delete]: [(deleted, not_found)]. *)
Definition delete (s : Store) (rh : bytes) (ids : list bytes)
    : Store * result (Z * Z) MailboxError :=
  with_lock s (λ rs, transaction rs (λ rs,
    let '(rs', deleted) := delete_ids rh ids 0 rs in
    Ok (rs', (deleted, u32_saturating_sub (u32_try_from_or u32_max (len ids)) deleted)))).

(** [Store::expire_sweep]. *)
Definition expire_sweep (s : Store) (now : Z) : Store * result Z MailboxError :=
  with_lock s (λ rs,
    (filter (λ r, ¬ expires_at r < now) rs, Ok (len (filter (λ r, expires_at r < now) rs)))).

(** [Store::storage_bytes]. *)
Definition storage_bytes (s : Store) : Store * result Z MailboxError :=
  with_lock s (λ rs, (rs, Ok (Z.max (sum_length rs) 0))).

Definition empty_store : Store := mkStore [] false.

(** ** Eviction *)

(** Rows an operation at time [now] must not lose. *)
Definition live (now : Z) (rs : list DepositRow) : list DepositRow :=
  filter (λ r, now ≤ expires_at r) rs.

Definition unique_ids (rs : list DepositRow) : Prop := NoDup (deposit_id <$> rs).

Lemma size_of_nonneg r : 0 ≤ size_of r.
Proof. apply len_nonneg. Qed.
#[local] Hint Resolve size_of_nonneg : core.

Lemma sum_size_nonneg rs : 0 ≤ sum_by size_of rs.
Proof. by apply sum_by_nonneg. Qed.
#[local] Hint Resolve sum_size_nonneg : core.

Lemma sum_size_sublist rs rs' :
  rs' `sublist_of` rs → sum_by size_of rs' ≤ sum_by size_of rs.
Proof. intros. by apply sum_by_sublist_le. Qed.

Lemma sum_length_exact rs : sum_by size_of rs ≤ i64_max → sum_length rs = sum_by size_of rs.
Proof. intros. unfold sum_length. by rewrite decide_True. Qed.

Lemma unique_ids_perm rs rs' : rs ≡ₚ rs' → unique_ids rs → unique_ids rs'.
Proof. unfold unique_ids. by intros ->. Qed.

Lemma unique_ids_sublist rs rs' : rs' `sublist_of` rs → unique_ids rs → unique_ids rs'.
Proof. intros Hs H. eapply sublist_NoDup; [exact H|]. by apply fmap_sublist. Qed.

Lemma unique_ids_eq rs r r' :
  unique_ids rs → r ∈ rs → r' ∈ rs → deposit_id r = deposit_id r' → r = r'.
Proof.
  unfold unique_ids. induction rs as [|x rs IH]; [set_solver|]. simpl.
  intros [Hx Hrs]%NoDup_cons [->|Hr]%elem_of_cons [->|Hr']%elem_of_cons Heq; try done.
  - exfalso. apply Hx. rewrite Heq. by apply list_elem_of_fmap_2.
  - exfalso. apply Hx. rewrite <- Heq. by apply list_elem_of_fmap_2.
  - by apply IH.
Qed.

Lemma evict_loop_spec cands freed target rs :
  unique_ids rs → unique_ids cands → (∀ c, c ∈ cands → c ∈ rs) →
  ∃ gone kept, cands = gone ++ kept ∧ rs ≡ₚ gone ++ evict_loop cands freed target rs ∧
    evict_loop cands freed target rs `sublist_of` rs ∧
    (kept = [] ∨ target ≤ freed + sum_by size_of gone).
Proof.
  revert freed rs. induction cands as [|c cands IH]; intros freed rs Hrs Hc Hin.
  { exists [], []. simpl. auto. }
  simpl. assert (c ∈ rs) as Hcin by (apply Hin; set_solver).
  pose proof (delete_by_key_Permutation deposit_id rs c Hrs Hcin) as Hp.
  fold (delete_by_id (deposit_id c) rs) in Hp.
  assert (delete_by_id (deposit_id c) rs `sublist_of` rs) as Hsub by apply sublist_filter.
  case_decide as Hd.
  - exists [c], cands. split_and!; [done|by rewrite <- Hp|done|right].
    unfold sum_by. simpl. unfold_widths. lia.
  - apply NoDup_cons in Hc as [Hc1 Hc2].
    destruct (IH (u64_saturating_add freed (size_of c)) (delete_by_id (deposit_id c) rs))
      as (gone & kept & -> & Hperm & Hsub' & Hk).
    + by eapply unique_ids_sublist.
    + done.
    + intros c' Hc'. apply list_elem_of_filter. split; [|apply Hin; set_solver].
      intros Heq. apply Hc1. rewrite <- Heq. by apply list_elem_of_fmap_2.
    + exists (c :: gone), kept. split_and!; [done| |by etrans|].
      * simpl. rewrite <- Hperm. done.
      * destruct Hk as [Hk|Hk]; [by left|right]. unfold sum_by in *. simpl in *. unfold_widths. lia.
Qed.

Lemma evict_loop_filter (Q : DepositRow → Prop) `{!∀ r, Decision (Q r)} cands freed target rs :
  (∀ c r, c ∈ cands → r ∈ rs → deposit_id r = deposit_id c → ¬ Q r) →
  filter Q (evict_loop cands freed target rs) = filter Q rs.
Proof.
  revert freed rs. induction cands as [|c cands IH]; intros freed rs Hc; [done|].
  assert (filter Q (delete_by_id (deposit_id c) rs) = filter Q rs) as Hdel.
  { apply filter_filter_in. intros r Hr HQ Heq. eapply Hc; [|done..]. set_solver. }
  simpl. case_decide; [done|]. rewrite IH; [done|].
  intros c' r Hc' [_ Hr]%list_elem_of_filter. eapply Hc; set_solver.
Qed.

(** The eviction of the rows selected by [P], oldest first. *)
Definition evict_where (P : DepositRow → Prop) `{!∀ r, Decision (P r)} (target : Z)
    (rs : list DepositRow) : list DepositRow :=
  evict_loop (order_by deposited_at (filter P rs)) 0 target rs.

Section evict_where.
Context (P : DepositRow → Prop) `{!∀ r, Decision (P r)}.

Lemma evict_where_spec target rs :
  unique_ids rs →
  ∃ gone, rs ≡ₚ gone ++ evict_where P target rs ∧ Forall P gone ∧
    evict_where P target rs `sublist_of` rs ∧
    (Forall (λ r, ¬ P r) (evict_where P target rs) ∨ target ≤ sum_by size_of gone).
Proof.
  intros Hrs. unfold evict_where.
  destruct (evict_loop_spec (order_by deposited_at (filter P rs)) 0 target rs)
    as (gone & kept & Hc & Hperm & Hsub & Hk); [done| | |].
  - eapply unique_ids_perm; [symmetry; apply order_by_Permutation|].
    by apply NoDup_fmap_filter.
  - intros c. rewrite elem_of_order_by, list_elem_of_filter. by intros [].
  - exists gone. split_and!; [done| |done|].
    + apply Forall_forall. intros c Hin.
      assert (c ∈ order_by deposited_at (filter P rs)) as Hc'.
      { rewrite Hc. set_solver. }
      by apply elem_of_order_by, list_elem_of_filter in Hc' as [].
    + destruct Hk as [Hnil|]; [left|by right]. rewrite Hnil, app_nil_r in Hc.
      apply Forall_forall. intros r Hr HP.
      assert (r ∈ gone) as Hg.
      { rewrite <- Hc. apply elem_of_order_by, list_elem_of_filter. split; [done|].
        by eapply sublist_elem_of. }
      assert (unique_ids (gone ++ evict_loop (order_by deposited_at (filter P rs)) 0 target rs)) as Hu.
      { by eapply unique_ids_perm. }
      unfold unique_ids in Hu. rewrite fmap_app in Hu.
      apply NoDup_app in Hu as (_ & Hu & _).
      by eapply (Hu (deposit_id r)); apply list_elem_of_fmap_2.
Qed.

(** What no selected row satisfies is not affected, order included. *)
Lemma evict_where_filter (Q : DepositRow → Prop) `{!∀ r, Decision (Q r)} target rs :
  unique_ids rs → (∀ r, P r → ¬ Q r) → filter Q (evict_where P target rs) = filter Q rs.
Proof.
  intros Hrs HPQ. apply evict_loop_filter. intros c r Hc Hr Heq.
  apply elem_of_order_by, list_elem_of_filter in Hc as [HP Hc].
  rewrite (unique_ids_eq rs r c) by done. by apply HPQ.
Qed.
End evict_where.

(** ** The three caps *)

(** Rows reached from [rs] by dropping expired ones. *)
Definition evicted (now : Z) (rs rs' : list DepositRow) : Prop :=
  rs' `sublist_of` rs ∧
  (∀ (Q : DepositRow → Prop) `{!∀ r, Decision (Q r)},
     (∀ r, Q r → now ≤ expires_at r) → filter Q rs' = filter Q rs).

Lemma evicted_refl now rs : evicted now rs rs.
Proof. split; done. Qed.

Lemma evicted_trans now rs1 rs2 rs3 :
  evicted now rs1 rs2 → evicted now rs2 rs3 → evicted now rs1 rs3.
Proof.
  intros [Hs1 Hf1] [Hs2 Hf2]. split; [by etrans|].
  intros Q ? HQ. by rewrite Hf2, Hf1.
Qed.

Lemma evicted_live now rs rs' : evicted now rs rs' → live now rs' = live now rs.
Proof. intros [_ Hf]. by apply (Hf (λ r, now ≤ expires_at r) _). Qed.

Lemma evicted_unique now rs rs' : evicted now rs rs' → unique_ids rs → unique_ids rs'.
Proof. intros [Hs _]. by apply unique_ids_sublist. Qed.

Lemma evicted_sum now rs rs' : evicted now rs rs' → sum_by size_of rs' ≤ sum_by size_of rs.
Proof. intros [Hs _]. by apply sum_size_sublist. Qed.

Lemma sum_size_filter (P : DepositRow → Prop) `{!∀ r, Decision (P r)} rs :
  sum_by size_of (filter P rs) ≤ sum_by size_of rs.
Proof. apply sum_size_sublist, sublist_filter. Qed.

(** Both caps follow one pattern: measure the rows selected by [S], evict the
    expired ones among them, measure again. *)
Section cap.
Context (S : DepositRow → Prop) `{!∀ r, Decision (S r)} (new_len cap now : Z).
Context (Hnew : 0 ≤ new_len ≤ i64_max) (Hcap : in_u64 cap).

Definition cap_check (full : MailboxError) (rs : list DepositRow)
    : result (list DepositRow) MailboxError :=
  let bytes := sum_by size_of (filter S rs) in
  if decide (bytes + new_len > cap) then
    let rs' := evict_where (λ r, S r ∧ expires_at r < now) (bytes + new_len - cap) rs in
    if decide (sum_by size_of (filter S rs') + new_len > cap) then Err full else Ok rs'
  else Ok rs.

Lemma evict_where_evicted target rs :
  unique_ids rs → evicted now rs (evict_where (λ r, S r ∧ expires_at r < now) target rs).
Proof.
  intros Hrs. split.
  - by destruct (evict_where_spec (λ r, S r ∧ expires_at r < now) target rs) as (?&_&_&?&_).
  - intros Q ? HQ. apply evict_where_filter; [done|]. intros r [_ ?] ?%HQ. lia.
Qed.

Lemma live_sum_le rs : sum_by size_of (filter S (live now rs)) ≤ sum_by size_of (filter S rs).
Proof. unfold live. rewrite filter_comm. apply sum_size_filter. Qed.

Lemma cap_check_spec full rs :
  unique_ids rs →
  match cap_check full rs with
  | Ok rs' => evicted now rs rs' ∧ sum_by size_of (filter S rs') + new_len ≤ cap ∧
      sum_by size_of (filter S (live now rs)) + new_len ≤ cap
  | Err e => e = full ∧ cap < sum_by size_of (filter S (live now rs)) + new_len
  end.
Proof.
  intros Hrs. unfold cap_check. pose proof (live_sum_le rs) as Hle.
  case_decide as Hover; [|split; [apply evicted_refl|lia]].
  set (target := _ + _ - _).
  pose proof (evict_where_evicted target rs Hrs) as Hev.
  destruct (evict_where_spec (λ r, S r ∧ expires_at r < now) target rs Hrs)
    as (gone & Hperm & Hgone & _ & Hdone).
  set (rs' := evict_where _ _ _) in *.
  assert (sum_by size_of (filter S rs) = sum_by size_of gone + sum_by size_of (filter S rs')) as Hsum.
  { rewrite Hperm at 1. rewrite filter_app, sum_by_app. f_equal.
    f_equal. apply filter_all. intros r Hr. eapply Forall_forall in Hgone as []; done. }
  pose proof (live_sum_le rs') as Hle'. rewrite (evicted_live _ _ _ Hev) in Hle'.
  case_decide as Hstill; [split; [done|]|split_and!; [done|lia..]].
  destruct Hdone as [Hnone|Henough]; [|lia].
  rewrite <- (evicted_live _ _ _ Hev). unfold live. rewrite filter_filter_in; [lia|].
  intros r Hr HS. eapply Forall_forall in Hnone; [|done]. destruct (decide (expires_at r < now)); [|lia].
  by destruct Hnone.
Qed.
End cap.

Lemma check_recipient_cap_eq rh new_len cap now rs :
  0 ≤ new_len ≤ i64_max → in_u64 cap → unique_ids rs → sum_by size_of rs ≤ i64_max →
  check_recipient_cap rh new_len cap now rs =
    cap_check (λ r, recipient_hash r = rh) new_len cap now (MbPolicy RecipientFull) rs.
Proof.
  intros Hnew Hcap Hu Hb. unfold check_recipient_cap, cap_check, for_recipient.
  pose proof (sum_size_filter (λ r, recipient_hash r = rh) rs) as Hf.
  pose proof (sum_size_nonneg (filter (λ r, recipient_hash r = rh) rs)).
  rewrite sum_length_exact by lia. rewrite u64_add_small by widths.
  case_decide; [|done]. rewrite u64_sub_small by widths.
  set (target := _ - cap).
  change (evict_expired_for rh target now rs)
    with (evict_where (λ r, recipient_hash r = rh ∧ expires_at r < now) target rs).
  set (rs' := evict_where _ _ _).
  assert (sum_by size_of rs' ≤ sum_by size_of rs) as Hs'.
  { eapply evicted_sum, evict_where_evicted; done. }
  pose proof (sum_size_filter (λ r, recipient_hash r = rh) rs') as Hf'.
  pose proof (sum_size_nonneg (filter (λ r, recipient_hash r = rh) rs')).
  rewrite sum_length_exact by lia. by rewrite u64_add_small by widths.
Qed.

Lemma check_global_cap_eq new_len cap now rs :
  0 ≤ new_len ≤ i64_max → in_u64 cap → unique_ids rs → sum_by size_of rs ≤ i64_max →
  check_global_cap new_len cap now rs = cap_check (λ _, True) new_len cap now (MbPolicy ServerFull) rs.
Proof.
  intros Hnew Hcap Hu Hb. unfold check_global_cap, cap_check.
  assert (∀ l : list DepositRow, filter (λ _, True) l = l) as Hall by (intros; by apply filter_all).
  pose proof (sum_size_nonneg rs).
  rewrite Hall, sum_length_exact by lia. rewrite Z.max_l by done. rewrite u64_add_small by widths.
  case_decide; [|done]. rewrite u64_sub_small by widths.
  set (target := _ - cap).
  assert (evict_expired_global target now rs
    = evict_where (λ r, True ∧ expires_at r < now) target rs) as ->.
  { unfold evict_expired_global, evict_where. f_equal. f_equal. apply list_filter_iff. naive_solver. }
  set (rs' := evict_where _ _ _).
  assert (sum_by size_of rs' ≤ sum_by size_of rs) as Hs'.
  { eapply evicted_sum, evict_where_evicted; done. }
  pose proof (sum_size_nonneg rs').
  rewrite Hall, sum_length_exact by lia. rewrite Z.max_l by done. by rewrite u64_add_small by widths.
Qed.

Lemma count_recipients_mono rs rs' :
  (∀ h, h ∈ recipient_hash <$> rs' → h ∈ recipient_hash <$> rs) →
  count_recipients rs' ≤ count_recipients rs.
Proof.
  intros H. unfold count_recipients, len. apply Nat2Z.inj_le, submseteq_length.
  apply NoDup_submseteq; [apply NoDup_remove_dups|].
  intros h. rewrite !elem_of_remove_dups. apply H.
Qed.

Lemma count_recipients_sublist rs rs' :
  rs' `sublist_of` rs → count_recipients rs' ≤ count_recipients rs.
Proof.
  intros Hs. apply count_recipients_mono. intros h Hh.
  eapply sublist_elem_of; [|exact Hh]. by apply fmap_sublist.
Qed.

Lemma check_recipient_limit_spec rh maxr rs :
  match check_recipient_limit rh maxr rs with
  | Ok _ => for_recipient rh rs = [] → count_recipients rs < maxr
  | Err e => e = MbPolicy RecipientLimit ∧ for_recipient rh rs = [] ∧ maxr ≤ count_recipients rs
  end.
Proof.
  unfold check_recipient_limit, count_recipients.
  pose proof (len_nonneg (remove_dups (recipient_hash <$> rs))).
  destruct (for_recipient rh rs) as [|r l].
  - rewrite decide_True by done. case_decide; [split_and!; [done..|lia]|lia].
  - rewrite decide_False by lens. done.
Qed.

(** ** [insert] as a whole *)

Section insert_spec.
Context (rh ct : bytes) (deposited expires rcap gcap maxr now : Z) (id : bytes).
Context (Hct : len ct ≤ i64_max) (Hrcap : in_u64 rcap) (Hgcap : in_u64 gcap).

Lemma new_len_eq : u64_try_from_or_max (len ct) = len ct.
Proof. pose proof (len_nonneg ct). unfold_widths. by rewrite decide_True by lia. Qed.

(** The transaction body: every outcome with its condition. *)
Lemma insert_cases rs :
  unique_ids rs → sum_by size_of rs ≤ i64_max →
  let n := len ct in
  let live_rh := sum_by size_of (for_recipient rh (live now rs)) in
  let live_all := sum_by size_of (live now rs) in
  let new_row := mkDepositRow id rh ct deposited expires in
  match insert (mkStore rs false) rh ct deposited expires rcap gcap maxr now id with
  | (s', Ok id') =>
      id' = id ∧ live_rh + n ≤ rcap ∧ live_all + n ≤ gcap ∧
      (∃ rs1 rs2, evicted now rs rs1 ∧ evicted now rs1 rs2 ∧ s' = mkStore (rs2 ++ [new_row]) false ∧
         (id ∉ deposit_id <$> rs2) ∧
         sum_by size_of (for_recipient rh rs1) + n ≤ rcap ∧ sum_by size_of rs2 + n ≤ gcap ∧
         (for_recipient rh rs1 = [] → count_recipients rs1 < maxr))
  | (s', Err e) =>
      s' = mkStore rs false ∧
      ((e = MbPolicy RecipientFull ∧ rcap < live_rh + n) ∨
       (e = MbPolicy RecipientLimit ∧ live_rh + n ≤ rcap ∧
          for_recipient rh (live now rs) = [] ∧ maxr ≤ count_recipients rs) ∨
       (e = MbPolicy ServerFull ∧ live_rh + n ≤ rcap ∧ gcap < live_all + n) ∨
       (e = MbStorage (Sqlite "UNIQUE constraint failed: deposits.deposit_id") ∧
          id ∈ (deposit_id <$> rs)))
  end.
Proof.
  intros Hu Hb n live_rh live_all new_row. pose proof (len_nonneg ct) as Hn.
  unfold insert, with_lock, transaction. simpl. rewrite new_len_eq.
  rewrite check_recipient_cap_eq by (done || widths).
  pose proof (cap_check_spec (λ r, recipient_hash r = rh) n rcap now (MbPolicy RecipientFull) rs Hu) as H1.
  fold n. destruct (cap_check _ _ _ _ _ rs) as [rs1|e] eqn:E1.
  2:{ simpl. destruct H1 as [-> H1]. split; [done|]. by left. }
  destruct H1 as (Hev1 & Hcap1 & Hlive1). cbn [bind_result].
  pose proof (check_recipient_limit_spec rh maxr rs1) as E2.
  destruct (check_recipient_limit rh maxr rs1) as [[]|e].
  2:{ simpl. split; [done|]. right; left. destruct E2 as (-> & Hnil & Hmax).
      split_and!; [done..| |].
      - rewrite <- (evicted_live _ _ _ Hev1). unfold for_recipient, live in *.
        by rewrite filter_comm, Hnil.
      - destruct Hev1 as [Hsub _]. pose proof (count_recipients_sublist _ _ Hsub). lia. }
  cbn [bind_result]. pose proof (evicted_sum _ _ _ Hev1) as Hs1.
  pose proof (evicted_unique _ _ _ Hev1 Hu) as Hu1.
  rewrite check_global_cap_eq by (done || widths).
  pose proof (cap_check_spec (λ _, True) n gcap now (MbPolicy ServerFull) rs1 Hu1) as H2.
  assert (∀ l : list DepositRow, filter (λ _, True) l = l) as Hall by (intros; by apply filter_all).
  destruct (cap_check (λ _, True) _ _ _ _ rs1) as [rs2|e] eqn:E3; rewrite !Hall in H2.
  2:{ destruct H2 as [-> H2]. split; [done|]. do 2 right; left.
      rewrite (evicted_live _ _ _ Hev1) in H2. done. }
  destruct H2 as (Hev2 & Hcap2 & Hlive2). rewrite (evicted_live _ _ _ Hev1) in Hlive2.
  cbn [bind_result]. unfold insert_row. simpl. case_decide as Hid.
  - split; [done|]. do 3 right. split; [done|].
    destruct (evicted_trans _ _ _ _ Hev1 Hev2) as [Hsub _].
    eapply sublist_elem_of; [|exact Hid]. by apply fmap_sublist.
  - split_and!; [done..|]. by exists rs1, rs2.
Qed.
End insert_spec.

(** ** What a recipient sees *)

Definition to_stored (r : DepositRow) : StoredDeposit :=
  mkStoredDeposit (if decide (len (deposit_id r) = 16) then deposit_id r else fill 16 Byte.x00)
    (ciphertext r) (deposited_at r).

(** The rows a fetch at [now] selects for [rh]. *)
Definition visible (rh : bytes) (now : Z) (rs : list DepositRow) : list DepositRow :=
  filter (λ r, recipient_hash r = rh ∧ expires_at r > now) rs.

Lemma fetch_eq rs rh now :
  fetch (mkStore rs false) rh now =
    (mkStore rs false, Ok (to_stored <$> order_by deposited_at (visible rh now rs))).
Proof. done. Qed.

Lemma visible_evicted rh now now' rs rs' :
  evicted now rs rs' → now ≤ now' → visible rh now' rs' = visible rh now' rs.
Proof. intros [_ Hf] Hle. apply Hf. intros r [_ ?]. lia. Qed.

Lemma visible_snoc rh now rs r :
  visible rh now (rs ++ [r]) =
    visible rh now rs ++
      (if decide (recipient_hash r = rh ∧ expires_at r > now) then [r] else []).
Proof. unfold visible. by rewrite filter_app. Qed.

(** ** The store under a policy *)

Record limits : Type := mkLimits { lim_recipient : Z; lim_global : Z; lim_recipients : Z }.

(** The caps as the policy file gives them, with a total that an [i64] sum holds. *)
Definition valid_limits (L : limits) : Prop :=
  in_u64 (lim_recipient L) ∧ 0 ≤ lim_global L ≤ i64_max ∧ 0 ≤ lim_recipients L.

Definition store_insert (L : limits) (s : Store) (rh ct : bytes) (deposited expires now : Z) (id : bytes)
    : Store * result bytes MailboxError :=
  insert s rh ct deposited expires (lim_recipient L) (lim_global L) (lim_recipients L) now id.

Record caps_hold (L : limits) (s : Store) : Prop := {
  caps_unique : unique_ids (rows s);
  caps_recipient : ∀ rh, sum_by size_of (for_recipient rh (rows s)) ≤ lim_recipient L;
  caps_global : sum_by size_of (rows s) ≤ lim_global L;
  caps_count : count_recipients (rows s) ≤ lim_recipients L
}.

(** Every operation of the server on its store, with any arguments. *)
Inductive store_step (L : limits) (s : Store) : Store → Prop :=
| step_insert rh ct deposited expires now id :
    len ct ≤ i64_max → store_step L s (store_insert L s rh ct deposited expires now id).1
| step_fetch rh now : store_step L s (fetch s rh now).1
| step_delete rh ids : store_step L s (delete s rh ids).1
| step_sweep now : store_step L s (expire_sweep s now).1
| step_bytes : store_step L s (storage_bytes s).1.

Lemma caps_hold_sublist L s rs' :
  caps_hold L s → rs' `sublist_of` rows s → ∀ p, caps_hold L (mkStore rs' p).
Proof.
  intros [Hu Hr Hg Hc] Hs p. split; simpl.
  - by eapply unique_ids_sublist.
  - intros rh. etrans; [|apply (Hr rh)]. unfold for_recipient.
    apply sum_by_sublist_le; [|done]. by apply filter_sublist.
  - etrans; [|exact Hg]. by apply sum_size_sublist.
  - etrans; [|exact Hc]. by apply count_recipients_sublist.
Qed.

Lemma for_recipient_snoc_sum rh rs r :
  sum_by size_of (for_recipient rh (rs ++ [r])) =
    sum_by size_of (for_recipient rh rs) + (if decide (recipient_hash r = rh) then size_of r else 0).
Proof.
  unfold for_recipient. rewrite filter_app, sum_by_app, filter_cons.
  case_decide; unfold sum_by; simpl; lia.
Qed.

Lemma count_recipients_snoc rs r :
  count_recipients (rs ++ [r]) ≤
    count_recipients rs + (if decide (for_recipient (recipient_hash r) rs = []) then 1 else 0).
Proof.
  case_decide as Hnil.
  - unfold count_recipients.
    assert (len (remove_dups (recipient_hash <$> rs ++ [r]))
      ≤ len (recipient_hash r :: remove_dups (recipient_hash <$> rs))) as Hle.
    { unfold len. apply Nat2Z.inj_le, submseteq_length, NoDup_submseteq; [apply NoDup_remove_dups|].
      intros h. rewrite elem_of_cons, !elem_of_remove_dups, fmap_app. set_solver. }
    rewrite len_cons in Hle. lia.
  - rewrite Z.add_0_r. apply count_recipients_mono. intros h. rewrite fmap_app.
    intros [?|Hh]%elem_of_app; [done|]. apply list_elem_of_singleton in Hh as ->.
    destruct (for_recipient (recipient_hash r) rs) as [|r' l] eqn:E; [done|].
    assert (r' ∈ for_recipient (recipient_hash r) rs) as [<- ?]%list_elem_of_filter
      by (rewrite E; set_solver).
    by apply list_elem_of_fmap_2.
Qed.

(** What the loop over the ids of a [Delete] removes and counts. *)
Definition delete_hit (rh : bytes) (ids : list bytes) (r : DepositRow) : Prop :=
  recipient_hash r = rh ∧ deposit_id r ∈ ids.
#[export] Instance delete_hit_decision rh ids r : Decision (delete_hit rh ids r).
Proof. unfold delete_hit. apply _. Defined.

Lemma delete_ids_rows rh ids n rs :
  (delete_ids rh ids n rs).1 = filter (λ r, ¬ delete_hit rh ids r) rs.
Proof.
  revert n rs. induction ids as [|id ids IH]; intros n rs; simpl.
  - symmetry. apply filter_all. unfold delete_hit. set_solver.
  - rewrite IH, list_filter_filter. apply list_filter_iff. unfold delete_hit. set_solver.
Qed.

Lemma delete_ids_sublist rh ids n rs rs' m :
  delete_ids rh ids n rs = (rs', m) → rs' `sublist_of` rs.
Proof.
  intros E. pose proof (delete_ids_rows rh ids n rs) as Hr. rewrite E in Hr. simpl in Hr.
  subst rs'. apply sublist_filter.
Qed.

Lemma delete_ids_count rh ids n rs :
  unique_ids rs → in_u32 n →
  (delete_ids rh ids n rs).2 = u32_add n (len (filter (delete_hit rh ids) rs)).
Proof.
  revert n rs. induction ids as [|id ids IH]; intros n rs Hu Hn; simpl.
  - rewrite filter_none; [rewrite len_nil; unfold u32_add; rewrite Z.add_0_r, Z.mod_small; [done|widths]|]. unfold delete_hit. set_solver.
  - rewrite IH; [|by eapply unique_ids_sublist; [apply sublist_filter|]|].
    2: { unfold u32_add. pose proof (Z.mod_pos_bound (n + u32_try_from_or 0 (len (filter (λ r, deposit_id r = id ∧ recipient_hash r = rh) rs)))
           (2 ^ 32)). widths. }
    set (hit := filter (λ r, deposit_id r = id ∧ recipient_hash r = rh) rs).
    assert (len hit ≤ 1) as Hone.
    { assert (NoDup (deposit_id <$> hit)) as Hnd by by apply NoDup_fmap_filter.
      destruct hit as [|r1 [|r2 l]] eqn:Eh; [done..|exfalso].
      assert (r1 ∈ hit ∧ r2 ∈ hit) as [H1 H2] by (rewrite Eh; set_solver).
      apply list_elem_of_filter in H1 as [[H1 _] _], H2 as [[H2 _] _].
      simpl in Hnd. rewrite H1, H2 in Hnd. apply NoDup_cons in Hnd as [Hnd _]. set_solver. }
    pose proof (len_nonneg hit). assert (u32_try_from_or 0 (len hit) = len hit) as -> by widths.
    assert (len (filter (delete_hit rh (id :: ids)) rs) =
      len hit + len (filter (delete_hit rh ids)
        (filter (λ r, ¬ (deposit_id r = id ∧ recipient_hash r = rh)) rs))) as ->;
      [|unfold u32_add; rewrite Z.add_mod_idemp_l by lia; f_equal; lia].
    rewrite (len_filter_split (λ r, deposit_id r = id ∧ recipient_hash r = rh)).
    rewrite !list_filter_filter. unfold hit. f_equal; f_equal; apply list_filter_iff;
      unfold delete_hit; set_solver.
Qed.

Lemma insert_caps_hold L s rh ct deposited expires now id :
  valid_limits L → len ct ≤ i64_max → caps_hold L s →
  caps_hold L (store_insert L s rh ct deposited expires now id).1.
Proof.
  intros (Hr & Hg & Hm) Hct Hinv. destruct s as [rs [|]]; [done|].
  destruct Hinv as [Hu Hrec Hglob Hcnt] eqn:Einv; simpl in *.
  pose proof (insert_cases rh ct deposited expires (lim_recipient L) (lim_global L)
    (lim_recipients L) now id Hct Hr ltac:(widths) rs Hu ltac:(lia)) as Hcases.
  unfold store_insert. destruct (insert _ _ _ _ _ _ _ _ _ _) as [s' [id'|e]]; simpl in *.
  2:{ by destruct Hcases as [-> _]. }
  destruct Hcases as (_ & _ & _ & rs1 & rs2 & Hev1 & Hev2 & -> & Hid & Hc1 & Hc2 & Hlim).
  pose proof (evicted_trans _ _ _ _ Hev1 Hev2) as [Hsub _]. destruct Hev2 as [Hsub2 _].
  destruct (caps_hold_sublist L (mkStore rs false) rs2 Hinv Hsub false) as [Hu2 Hrec2 _ _].
  split; simpl.
  - unfold unique_ids. rewrite fmap_app. apply NoDup_app. split_and!; [done| |apply NoDup_singleton].
    intros x Hx ->%list_elem_of_singleton. done.
  - intros rh'. rewrite for_recipient_snoc_sum. simpl. case_decide; [|specialize (Hrec2 rh'); simpl in *; lia].
    subst rh'. assert (sum_by size_of (for_recipient rh rs2) ≤ sum_by size_of (for_recipient rh rs1)).
    { apply sum_by_sublist_le; [by apply filter_sublist|done]. }
    unfold size_of at 2. simpl. lia.
  - rewrite sum_by_app. unfold sum_by at 2. simpl. unfold size_of at 2. simpl. lia.
  - pose proof (count_recipients_sublist _ _ (proj1 Hev1)).
    etrans; [apply (count_recipients_sublist (rs1 ++ [mkDepositRow id rh ct deposited expires]))|].
    { by apply sublist_app. }
    etrans; [apply count_recipients_snoc|]. simpl. case_decide as Hnil; [|lia].
    specialize (Hlim Hnil). lia.
Qed.

Lemma step_caps_hold L s s' :
  valid_limits L → caps_hold L s → store_step L s s' → caps_hold L s'.
Proof.
  intros HL Hinv. destruct 1 as [rh ct dep exp now id Hct|rh now|rh ids|now|].
  - by apply insert_caps_hold.
  - destruct s as [rs [|]]; done.
  - destruct s as [rs [|]]; [done|]. unfold delete, with_lock, transaction. simpl.
    destruct (delete_ids rh ids 0 rs) as [rs' n] eqn:E. simpl.
    eapply caps_hold_sublist; [done|]. simpl. by eapply delete_ids_sublist.
  - destruct s as [rs [|]]; [done|]. eapply caps_hold_sublist; [done|]. apply sublist_filter.
  - destruct s as [rs [|]]; done.
Qed.

Lemma delete_rows_exact rs rh ids :
  unique_ids rs → len ids ≤ u32_max →
  let hits := filter (delete_hit rh ids) rs in
  delete (mkStore rs false) rh ids =
    (mkStore (filter (λ r, ¬ delete_hit rh ids r) rs) false, Ok (len hits, len ids - len hits)).
Proof.
  intros Hu Hlen hits. unfold delete, with_lock, transaction. simpl.
  pose proof (delete_ids_rows rh ids 0 rs) as Hrows.
  pose proof (delete_ids_count rh ids 0 rs Hu ltac:(widths)) as Hcount.
  destruct (delete_ids rh ids 0 rs) as [rs' n]. simpl in *. subst rs' n.
  assert (len hits ≤ len ids) as Hle.
  { unfold len. apply Nat2Z.inj_le. unfold hits. rewrite <- (length_fmap deposit_id).
    apply submseteq_length, NoDup_submseteq; [by apply NoDup_fmap_filter|].
    intros x (r & -> & [[_ ?] _]%list_elem_of_filter)%list_elem_of_fmap. done. }
  pose proof (len_nonneg ids). pose proof (len_nonneg hits). fold hits. assert (u32_add 0 (len hits) = len hits) as ->
    by (unfold u32_add; apply Z.mod_small; unfold_widths; lia).
  do 3 f_equal. unfold_widths. rewrite decide_True by lia. lia.
Qed.

(** ** Properties *)

(** C20: the caps are an invariant.  In every state the store reaches from empty
    by any sequence of deposits, fetches, deletes and sweeps, deposit ids are
    unique, no recipient holds more bytes than its cap, the store holds no more
    bytes than the global cap, and no more recipients than the recipient cap. *)
Theorem store_caps_invariant L s :
  valid_limits L → rtc (store_step L) empty_store s → caps_hold L s.
Proof.
  intros HL Hr.
  assert (caps_hold L empty_store) as H0.
  { destruct HL as (Hr0 & Hg & Hm). split; [apply NoDup_nil_2| |apply Hg|apply Hm].
    intros rh. apply Hr0. }
  revert H0. induction Hr as [|s1 s2 s3 Hstep _ IH]; [done|].
  intros H0. by apply IH, (step_caps_hold L s1).
Qed.

(** Admission is exact.  A deposit is refused for the recipient's cap
    exactly when the recipient's unexpired bytes leave no room, for the server's
    cap exactly when (the recipient has room and) all unexpired bytes leave no
    room, and for the recipient limit only when the recipient has no unexpired
    deposit and the limit is reached; expired deposits never cause a refusal
    for space.  The only other failure is a colliding random id, and a refused
    deposit leaves the store as it was. *)
Theorem insert_admission rs rh ct deposited expires rcap gcap maxr now id :
  len ct ≤ i64_max → in_u64 rcap → in_u64 gcap → unique_ids rs → sum_by size_of rs ≤ i64_max →
  let live_rh := sum_by size_of (for_recipient rh (live now rs)) in
  let live_all := sum_by size_of (live now rs) in
  match insert (mkStore rs false) rh ct deposited expires rcap gcap maxr now id with
  | (_, Ok id') => id' = id ∧ live_rh + len ct ≤ rcap ∧ live_all + len ct ≤ gcap
  | (s', Err e) =>
      s' = mkStore rs false ∧
      ((e = MbPolicy RecipientFull ∧ rcap < live_rh + len ct) ∨
       (e = MbPolicy RecipientLimit ∧ live_rh + len ct ≤ rcap ∧
          for_recipient rh (live now rs) = [] ∧ maxr ≤ count_recipients rs) ∨
       (e = MbPolicy ServerFull ∧ live_rh + len ct ≤ rcap ∧ gcap < live_all + len ct) ∨
       (e = MbStorage (Sqlite "UNIQUE constraint failed: deposits.deposit_id") ∧
          id ∈ (deposit_id <$> rs)))
  end.
Proof.
  intros Hct Hr Hg Hu Hb live_rh live_all.
  pose proof (insert_cases rh ct deposited expires rcap gcap maxr now id Hct Hr Hg rs Hu Hb) as H.
  destruct (insert _ _ _ _ _ _ _ _ _ _) as [s' [id'|e]]; [|exact H].
  destruct H as (? & ? & ? & _). done.
Qed.

(** Deposits are kept and stay apart.  After a deposit at time [now],
    accepted or not, a later fetch by any other recipient returns exactly what
    it returned before; a fetch by the recipient returns what it returned before
    and, if the deposit was accepted and has not expired, one more entry with
    the deposited bytes under the returned id. *)
Theorem insert_fetch rs rh ct deposited expires rcap gcap maxr now now' id rh' :
  len ct ≤ i64_max → in_u64 rcap → in_u64 gcap → unique_ids rs → sum_by size_of rs ≤ i64_max →
  length id = 16%nat → now ≤ now' →
  let '(s', r) := insert (mkStore rs false) rh ct deposited expires rcap gcap maxr now id in
  ∃ before after, (fetch (mkStore rs false) rh' now').2 = Ok before ∧ (fetch s' rh' now').2 = Ok after ∧
    (if decide (rh' = rh ∧ now' < expires ∧ is_ok r)
     then after ≡ₚ mkStoredDeposit id ct deposited :: before
     else after = before).
Proof.
  intros Hct Hr Hg Hu Hb Hid Hnow.
  pose proof (insert_cases rh ct deposited expires rcap gcap maxr now id Hct Hr Hg rs Hu Hb) as H.
  destruct (insert _ _ _ _ _ _ _ _ _ _) as [s' [id'|e]].
  2:{ destruct H as [-> _]. do 2 eexists. split_and!; [done..|].
      rewrite decide_False; [done|]. naive_solver. }
  destruct H as (-> & _ & _ & rs1 & rs2 & Hev1 & Hev2 & -> & _).
  pose proof (evicted_trans _ _ _ _ Hev1 Hev2) as Hev.
  rewrite !fetch_eq, visible_snoc, (visible_evicted rh' now now' rs rs2) by done. simpl.
  do 2 eexists. split_and!; [done..|]. repeat case_decide; try (exfalso; naive_solver lia).
  - rewrite order_by_Permutation, fmap_app. simpl. rewrite Permutation_app_comm. simpl.
    unfold to_stored at 1. simpl. rewrite decide_True by (unfold len; lia).
    by rewrite order_by_Permutation.
  - by rewrite app_nil_r.
Qed.

(** Delete is scoped and its counts are exact.  It removes the rows of the
    authenticated recipient whose id is listed and no other row, [deleted] is
    their number, and [not_found] is the number of listed ids beyond it. *)
Theorem delete_exact rs rh ids :
  unique_ids rs → len ids ≤ u32_max →
  let hits := filter (delete_hit rh ids) rs in
  delete (mkStore rs false) rh ids =
    (mkStore (filter (λ r, ¬ delete_hit rh ids r) rs) false, Ok (len hits, len ids - len hits)).
Proof. apply delete_rows_exact. Qed.

(** The expiry sweep is invisible.  It removes exactly the rows past their
    expiry and reports their number, and no fetch at the time of the sweep or
    later can tell whether it ran. *)
Theorem expire_sweep_transparent rs now rh now' :
  now ≤ now' →
  let '(s', n) := expire_sweep (mkStore rs false) now in
  rows s' = live now rs ∧ n = Ok (len rs - len (live now rs)) ∧
  (fetch s' rh now').2 = (fetch (mkStore rs false) rh now').2.
Proof.
  intros Hnow. unfold expire_sweep, with_lock. cbn [rows poisoned]. split_and!.
  - apply list_filter_iff. intros r. lia.
  - f_equal. rewrite (len_filter_split (λ r, expires_at r < now) rs).
    assert (live now rs = filter (λ r, ¬ expires_at r < now) rs) as ->; [|lia].
    apply list_filter_iff. intros r. lia.
  - rewrite !fetch_eq. cbn [snd]. do 3 f_equal. unfold visible.
    apply filter_filter_in. intros r _ [_ ?]. lia.
Qed.

(** ** Witnesses *)

Definition sample_row (b : byte) (n : nat) (expires : Z) : DepositRow :=
  mkDepositRow (fill 16 b) (fill 32 Byte.x11) (fill n b) 100 expires.

(** One expired and one unexpired row, eight bytes in all. *)
Definition sample_rows : list DepositRow :=
  [sample_row Byte.x01 4 110; sample_row Byte.x02 4 999].

Lemma sample_unique : unique_ids sample_rows.
Proof. vm_compute. repeat constructor; set_solver. Qed.

Lemma store_caps_invariant_witness :
  caps_hold (mkLimits 8 8 1)
    (store_insert (mkLimits 8 8 1) empty_store (fill 32 Byte.x11) [Byte.x01] 100 200 100 (fill 16 Byte.x01)).1.
Proof.
  apply store_caps_invariant.
  - unfold valid_limits; simpl; widths.
  - eapply rtc_l; [|apply rtc_refl]. apply step_insert. unfold len; simpl; widths.
Defined.

Lemma insert_admission_witness :
  match insert (mkStore sample_rows false) (fill 32 Byte.x11) (fill 5 Byte.x03) 200 999 8 100 10 200
          (fill 16 Byte.x03) with
  | (s', Err e) => s' = mkStore sample_rows false ∧ e = MbPolicy RecipientFull
  | _ => False
  end ∧
  (fst (insert (mkStore sample_rows false) (fill 32 Byte.x11) (fill 4 Byte.x03) 200 999 8 100 10 200
          (fill 16 Byte.x03))) =
    mkStore [sample_row Byte.x02 4 999; mkDepositRow (fill 16 Byte.x03) (fill 32 Byte.x11)
      (fill 4 Byte.x03) 200 999] false.
Proof.
  pose proof (insert_admission sample_rows (fill 32 Byte.x11) (fill 5 Byte.x03) 200 999 8 100 10 200
    (fill 16 Byte.x03) ltac:(vm_compute; discriminate) ltac:(widths) ltac:(widths) sample_unique
    ltac:(vm_compute; discriminate)) as H.
  split; [|vm_compute; reflexivity].
  revert H. vm_compute. intros [? _]. done.
Defined.

Lemma insert_fetch_witness :
  ∃ before after,
    (fetch (mkStore sample_rows false) (fill 32 Byte.x11) 300).2 = Ok before ∧
    (fetch (insert (mkStore sample_rows false) (fill 32 Byte.x11) (fill 4 Byte.x03) 200 999 8 100 10 200
              (fill 16 Byte.x03)).1 (fill 32 Byte.x11) 300).2 = Ok after ∧
    after ≡ₚ mkStoredDeposit (fill 16 Byte.x03) (fill 4 Byte.x03) 200 :: before.
Proof.
  pose proof (insert_fetch sample_rows (fill 32 Byte.x11) (fill 4 Byte.x03) 200 999 8 100 10 200 300
    (fill 16 Byte.x03) (fill 32 Byte.x11) ltac:(vm_compute; discriminate) ltac:(widths) ltac:(widths)
    sample_unique ltac:(vm_compute; discriminate) eq_refl ltac:(lia)) as H.
  exact H.
Defined.

Lemma delete_exact_witness :
  delete (mkStore sample_rows false) (fill 32 Byte.x11) [fill 16 Byte.x02; fill 16 Byte.x09] =
    (mkStore [sample_row Byte.x01 4 110] false, Ok (1, 1)).
Proof.
  rewrite delete_exact; [vm_compute; reflexivity|apply sample_unique|vm_compute; discriminate].
Defined.

Lemma expire_sweep_transparent_witness :
  rows (expire_sweep (mkStore sample_rows false) 200).1 = [sample_row Byte.x02 4 999] ∧
  (fetch (expire_sweep (mkStore sample_rows false) 200).1 (fill 32 Byte.x11) 200).2
    = (fetch (mkStore sample_rows false) (fill 32 Byte.x11) 200).2.
Proof.
  pose proof (expire_sweep_transparent sample_rows 200 (fill 32 Byte.x11) 200 ltac:(lia)) as H.
  split; [vm_compute; reflexivity|]. apply H.
Defined.
