(* ===== verification/MailboxCodec.v ===== *)
(** * MailboxCodec: the mailbox frame codecs of the server and of the client

    [crates/mailbox/src/codec.rs] and [crates/core/src/mailbox/codec.rs].  The two
    crates declare the same frame type and write the same bytes, but report
    errors in their own taxonomies, so the codec exists twice: [server_encode]
    and [server_decode] with [MailboxError], [client_encode] and
    [client_decode] with [CoreError].  The theorems show each codec's round
    trip across the wire, to the other side, and that the two decoders accept
    the same inputs. *)

From S2P Require Import Prelude Framing SimpleCodec CoreErrors MailboxProtocol.

Inductive MailboxFrameKind : Type :=
| FK_Deposit | FK_DepositOk | FK_Challenge | FK_ChallengeNonce | FK_Fetch
| FK_FetchResponse | FK_Delete | FK_DeleteOk | FK_Error.

(** [kind as u8]. *)
Definition kind_byte (k : MailboxFrameKind) : byte :=
  match k with
  | FK_Deposit => Byte.x82
  | FK_DepositOk => Byte.x83
  | FK_Challenge => Byte.x84
  | FK_ChallengeNonce => Byte.x85
  | FK_Fetch => Byte.x86
  | FK_FetchResponse => Byte.x87
  | FK_Delete => Byte.x88
  | FK_DeleteOk => Byte.x89
  | FK_Error => Byte.x8f
  end.

Inductive MailboxFrame : Type :=
| MF_Deposit (b : Deposit)
| MF_DepositOk (b : DepositOk)
| MF_Challenge (b : Challenge)
| MF_ChallengeNonce (b : ChallengeNonce)
| MF_Fetch (b : Fetch)
| MF_FetchResponse (b : FetchResponse)
| MF_Delete (b : Delete)
| MF_DeleteOk (b : DeleteOk)
| MF_Error (b : ErrorBody).

(** [MailboxFrame::kind]. *)
Definition frame_kind (f : MailboxFrame) : MailboxFrameKind :=
  match f with
  | MF_Deposit _ => FK_Deposit
  | MF_DepositOk _ => FK_DepositOk
  | MF_Challenge _ => FK_Challenge
  | MF_ChallengeNonce _ => FK_ChallengeNonce
  | MF_Fetch _ => FK_Fetch
  | MF_FetchResponse _ => FK_FetchResponse
  | MF_Delete _ => FK_Delete
  | MF_DeleteOk _ => FK_DeleteOk
  | MF_Error _ => FK_Error
  end.

(** The CBOR codecs of the nine bodies, and their laws. *)
Class MailboxWire : Type := {
  wire_Deposit :: Cbor Deposit;
  wire_DepositOk :: Cbor DepositOk;
  wire_Challenge :: Cbor Challenge;
  wire_ChallengeNonce :: Cbor ChallengeNonce;
  wire_Fetch :: Cbor Fetch;
  wire_FetchResponse :: Cbor FetchResponse;
  wire_Delete :: Cbor Delete;
  wire_DeleteOk :: Cbor DeleteOk;
  wire_ErrorBody :: Cbor ErrorBody
}.

Class MailboxWireLaws {wire : MailboxWire} : Prop := {
  law_Deposit :: CborRoundtrip Deposit;
  law_DepositOk :: CborRoundtrip DepositOk;
  law_Challenge :: CborRoundtrip Challenge;
  law_ChallengeNonce :: CborRoundtrip ChallengeNonce;
  law_Fetch :: CborRoundtrip Fetch;
  law_FetchResponse :: CborRoundtrip FetchResponse;
  law_Delete :: CborRoundtrip Delete;
  law_DeleteOk :: CborRoundtrip DeleteOk;
  law_ErrorBody :: CborRoundtrip ErrorBody
}.

Section codec.
Context {wire : MailboxWire}.

(** ** The server's codec *)

Definition server_encode_cbor {T} `{!Serialize T} (value : T) : result bytes MailboxError :=
  map_err (λ e, MbTransport (EncodeFailed ("cbor encode: " +:+ e))) (into_writer value).

Definition server_decode_cbor {T} `{!Deserialize T} (b : bytes) : result T MailboxError :=
  map_err (λ e, MbTransport (DecodeFailed ("cbor decode: " +:+ e))) (from_reader b).

(** The [match item] of [encode]. *)
Definition server_encode_payload (item : MailboxFrame) : result (byte * bytes) MailboxError :=
  match item with
  | MF_Deposit b => let? p := server_encode_cbor b in Ok (kind_byte FK_Deposit, p)
  | MF_DepositOk b => let? p := server_encode_cbor b in Ok (kind_byte FK_DepositOk, p)
  | MF_Challenge b => let? p := server_encode_cbor b in Ok (kind_byte FK_Challenge, p)
  | MF_ChallengeNonce b => let? p := server_encode_cbor b in Ok (kind_byte FK_ChallengeNonce, p)
  | MF_Fetch b => let? p := server_encode_cbor b in Ok (kind_byte FK_Fetch, p)
  | MF_FetchResponse b => let? p := server_encode_cbor b in Ok (kind_byte FK_FetchResponse, p)
  | MF_Delete b => let? p := server_encode_cbor b in Ok (kind_byte FK_Delete, p)
  | MF_DeleteOk b => let? p := server_encode_cbor b in Ok (kind_byte FK_DeleteOk, p)
  | MF_Error b => let? p := server_encode_cbor b in Ok (kind_byte FK_Error, p)
  end.

(** The [u32::try_from] after the cap check never fails: the cap is below it. *)
Definition server_encode (item : MailboxFrame) (dst : bytes) : result bytes MailboxError :=
  let? (type_byte, payload) := server_encode_payload item in
  match write_frame type_byte payload with
  | None => Err (MbTransport (EncodeFailed
      ("frame too large: " +:+ pretty (1 + len payload) +:+ " bytes")))
  | Some b => Ok (dst ++ b)
  end.

(** The [match type_byte] of [decode]. *)
Definition server_decode_payload (type_byte : byte) (payload : bytes)
    : result MailboxFrame MailboxError :=
  match type_byte with
  | Byte.x82 => let? b := server_decode_cbor payload in Ok (MF_Deposit b)
  | Byte.x83 => let? b := server_decode_cbor payload in Ok (MF_DepositOk b)
  | Byte.x84 => let? b := server_decode_cbor payload in Ok (MF_Challenge b)
  | Byte.x85 => let? b := server_decode_cbor payload in Ok (MF_ChallengeNonce b)
  | Byte.x86 => let? b := server_decode_cbor payload in Ok (MF_Fetch b)
  | Byte.x87 => let? b := server_decode_cbor payload in Ok (MF_FetchResponse b)
  | Byte.x88 => let? b := server_decode_cbor payload in Ok (MF_Delete b)
  | Byte.x89 => let? b := server_decode_cbor payload in Ok (MF_DeleteOk b)
  | Byte.x8f => let? b := server_decode_cbor payload in Ok (MF_Error b)
  | other => Err (MbTransport (DecodeFailed
      ("unknown mailbox frame type 0x" +:+ format_02X other)))
  end.

Definition server_decode (src : bytes) : bytes * result (option MailboxFrame) MailboxError :=
  match read_header src with
  | Incomplete => (src, Ok None)
  | ZeroLength => (src, Err (MbTransport (DecodeFailed "zero-length frame")))
  | Framing.TooLarge length =>
      (src, Err (MbTransport (DecodeFailed ("frame too large: " +:+ pretty length +:+ " bytes"))))
  | Complete type_byte payload rest =>
      (rest, let? frame := server_decode_payload type_byte payload in Ok (Some frame))
  end.

(** ** The client's codec *)

Definition client_encode_cbor {T} `{!Serialize T} (value : T) : result bytes CoreError :=
  map_err (λ e, Core_MailboxClient (MailboxClient_Other ("encode: " +:+ e))) (into_writer value).

Definition client_decode_cbor {T} `{!Deserialize T} (b : bytes) : result T CoreError :=
  map_err (λ _, Core_MailboxClient MailboxClient_Malformed) (from_reader b).

Definition client_encode_payload (item : MailboxFrame) : result (byte * bytes) CoreError :=
  match item with
  | MF_Deposit b => let? p := client_encode_cbor b in Ok (kind_byte FK_Deposit, p)
  | MF_DepositOk b => let? p := client_encode_cbor b in Ok (kind_byte FK_DepositOk, p)
  | MF_Challenge b => let? p := client_encode_cbor b in Ok (kind_byte FK_Challenge, p)
  | MF_ChallengeNonce b => let? p := client_encode_cbor b in Ok (kind_byte FK_ChallengeNonce, p)
  | MF_Fetch b => let? p := client_encode_cbor b in Ok (kind_byte FK_Fetch, p)
  | MF_FetchResponse b => let? p := client_encode_cbor b in Ok (kind_byte FK_FetchResponse, p)
  | MF_Delete b => let? p := client_encode_cbor b in Ok (kind_byte FK_Delete, p)
  | MF_DeleteOk b => let? p := client_encode_cbor b in Ok (kind_byte FK_DeleteOk, p)
  | MF_Error b => let? p := client_encode_cbor b in Ok (kind_byte FK_Error, p)
  end.

Definition client_encode (item : MailboxFrame) (dst : bytes) : result bytes CoreError :=
  let? (type_byte, payload) := client_encode_payload item in
  match write_frame type_byte payload with
  | None => Err (Core_MailboxClient (MailboxClient_Other
      ("frame too large: " +:+ pretty (1 + len payload) +:+ " bytes")))
  | Some b => Ok (dst ++ b)
  end.

Definition client_decode_payload (type_byte : byte) (payload : bytes)
    : result MailboxFrame CoreError :=
  match type_byte with
  | Byte.x82 => let? b := client_decode_cbor payload in Ok (MF_Deposit b)
  | Byte.x83 => let? b := client_decode_cbor payload in Ok (MF_DepositOk b)
  | Byte.x84 => let? b := client_decode_cbor payload in Ok (MF_Challenge b)
  | Byte.x85 => let? b := client_decode_cbor payload in Ok (MF_ChallengeNonce b)
  | Byte.x86 => let? b := client_decode_cbor payload in Ok (MF_Fetch b)
  | Byte.x87 => let? b := client_decode_cbor payload in Ok (MF_FetchResponse b)
  | Byte.x88 => let? b := client_decode_cbor payload in Ok (MF_Delete b)
  | Byte.x89 => let? b := client_decode_cbor payload in Ok (MF_DeleteOk b)
  | Byte.x8f => let? b := client_decode_cbor payload in Ok (MF_Error b)
  | _ => Err (Core_MailboxClient MailboxClient_Malformed)
  end.

Definition client_decode (src : bytes) : bytes * result (option MailboxFrame) CoreError :=
  match read_header src with
  | Incomplete => (src, Ok None)
  | ZeroLength => (src, Err (Core_MailboxClient MailboxClient_Malformed))
  | Framing.TooLarge _ => (src, Err (Core_MailboxClient MailboxClient_Malformed))
  | Complete type_byte payload rest =>
      (rest, let? frame := client_decode_payload type_byte payload in Ok (Some frame))
  end.
End codec.

(** ** Lemmas *)

(** Same success, or both fail; the errors are in different types. *)
Definition same_outcome {T E F} (r1 : result T E) (r2 : result T F) : Prop :=
  match r1, r2 with
  | Ok x, Ok y => x = y
  | Err _, Err _ => True
  | _, _ => False
  end.

Lemma same_outcome_bind {T U E F} (r1 : result T E) (r2 : result T F)
    (k1 : T → result U E) (k2 : T → result U F) :
  same_outcome r1 r2 → (∀ x, same_outcome (k1 x) (k2 x)) →
  same_outcome (bind_result r1 k1) (bind_result r2 k2).
Proof. destruct r1, r2; simpl; intros H Hk; try done. by subst. Qed.

Lemma same_outcome_map_err {T E F G} (f : E → F) (g : E → G) (r : result T E) :
  same_outcome (map_err f r) (map_err g r).
Proof. by destruct r. Qed.

Section codec_facts.
Context {wire : MailboxWire}.

Lemma encode_payloads_agree f :
  same_outcome (server_encode_payload f) (client_encode_payload f).
Proof.
  destruct f; apply same_outcome_bind; try apply same_outcome_map_err; done.
Qed.

Lemma decode_payloads_agree t payload :
  same_outcome (server_decode_payload t payload) (client_decode_payload t payload).
Proof.
  destruct t; try done; apply same_outcome_bind; try apply same_outcome_map_err; done.
Qed.

Lemma server_encode_kind f t payload :
  server_encode_payload f = Ok (t, payload) → t = kind_byte (frame_kind f).
Proof. destruct f; intros (p & _ & [= <- _])%bind_Ok_inv; done. Qed.

Lemma server_encode_inv f dst b :
  server_encode f dst = Ok b →
  ∃ t payload w, server_encode_payload f = Ok (t, payload) ∧ write_frame t payload = Some w ∧
    b = dst ++ w.
Proof.
  unfold server_encode. intros ([t payload] & Hp & Hw)%bind_Ok_inv.
  destruct (write_frame t payload) as [w|] eqn:E; [|done].
  injection Hw as <-. by exists t, payload, w.
Qed.

Lemma encoders_agree f dst : same_outcome (server_encode f dst) (client_encode f dst).
Proof.
  apply same_outcome_bind; [apply encode_payloads_agree|]. intros [t payload].
  by destruct (write_frame t payload).
Qed.

Lemma decoders_agree src :
  (server_decode src).1 = (client_decode src).1 ∧
  same_outcome (server_decode src).2 (client_decode src).2.
Proof.
  unfold server_decode, client_decode. destruct (read_header src); try done. simpl.
  split; [done|]. apply same_outcome_bind; [apply decode_payloads_agree|done].
Qed.

Lemma server_cbor_roundtrip {T} `{!Serialize T, !Deserialize T, !CborRoundtrip T} (v : T) p :
  server_encode_cbor v = Ok p → server_decode_cbor p = Ok v.
Proof.
  unfold server_encode_cbor, server_decode_cbor. destruct (into_writer v) as [b|e] eqn:E; [|done].
  intros [= <-]. by rewrite (from_into v b E).
Qed.

Lemma server_payload_roundtrip {laws : MailboxWireLaws} f t payload :
  server_encode_payload f = Ok (t, payload) → server_decode_payload t payload = Ok f.
Proof.
  destruct f; intros (p & Hp & [= <- <-])%bind_Ok_inv; simpl;
    by erewrite server_cbor_roundtrip by exact Hp.
Qed.

Lemma server_decode_encode {laws : MailboxWireLaws} f b rest :
  server_encode f [] = Ok b → server_decode (b ++ rest) = (rest, Ok (Some f)).
Proof.
  intros (t & payload & w & Hp & Hw & ->)%server_encode_inv. unfold server_decode. simpl.
  by rewrite (read_write_frame _ _ _ _ Hw), (server_payload_roundtrip f).
Qed.

Lemma client_encode_server f dst b : client_encode f dst = Ok b → server_encode f dst = Ok b.
Proof.
  intros Hc. pose proof (encoders_agree f dst) as Ha. rewrite Hc in Ha.
  destruct (server_encode f dst); simpl in Ha; by subst.
Qed.

Lemma server_decode_client src rest o : server_decode src = (rest, Ok o) → client_decode src = (rest, Ok o).
Proof.
  intros Hs. destruct (decoders_agree src) as [H1 H2]. rewrite Hs in H1, H2.
  destruct (client_decode src) as [r [o'|e]]; simpl in *; by subst.
Qed.
End codec_facts.

(** ** Properties *)

Section properties.
Context {wire : MailboxWire}.

(** The mailbox wire protocol round trips between the two codecs.  What
    the client encodes the server decodes to the same frame, what the server
    encodes the client decodes to the same frame, and either decoder leaves
    exactly the bytes behind the frame. *)
Theorem mailbox_codec_interop {laws : MailboxWireLaws} f b rest :
  (client_encode f [] = Ok b → server_decode (b ++ rest) = (rest, Ok (Some f))) ∧
  (server_encode f [] = Ok b → client_decode (b ++ rest) = (rest, Ok (Some f))).
Proof.
  split; intros Henc.
  - by apply server_decode_encode, client_encode_server.
  - by apply server_decode_client, server_decode_encode.
Qed.

(** The two codecs are the same up to their error types.  On every input
    the decoders consume the same bytes and agree on the frame, on asking for
    more bytes, or on failing; the encoders append the same bytes or both
    refuse. *)
Theorem mailbox_codecs_agree :
  (∀ src, (server_decode src).1 = (client_decode src).1 ∧
    same_outcome (server_decode src).2 (client_decode src).2) ∧
  (∀ f dst, same_outcome (server_encode f dst) (client_encode f dst)).
Proof. split; [apply decoders_agree | apply encoders_agree]. Qed.
End properties.

(** ** A concrete wire *)

#[local] Instance codec_Deposit : Codec Deposit :=
  codec_via (λ d, (d_version d, d_recipient_hash d, d_ciphertext d, d_ttl_request d))
    (λ v, Some (mkDeposit v.1.1.1 v.1.1.2 v.1.2 v.2)) (λ '(mkDeposit _ _ _ _), eq_refl).
#[local] Instance codec_DepositOk : Codec DepositOk :=
  codec_via (λ d, (dok_deposit_id d, dok_expires_at d)) (λ v, Some (mkDepositOk v.1 v.2))
    (λ '(mkDepositOk _ _), eq_refl).
#[local] Instance codec_Challenge : Codec Challenge :=
  codec_via (λ d, (c_version d, c_identity_hash d)) (λ v, Some (mkChallenge v.1 v.2))
    (λ '(mkChallenge _ _), eq_refl).
#[local] Instance codec_ChallengeNonce : Codec ChallengeNonce :=
  codec_via (λ d, (cn_nonce d, cn_issued_at d)) (λ v, Some (mkChallengeNonce v.1 v.2))
    (λ '(mkChallengeNonce _ _), eq_refl).
#[local] Instance codec_Fetch : Codec Fetch :=
  codec_via (λ d, (f_version d, f_identity_pubkey d, f_nonce d, f_signature d))
    (λ v, Some (mkFetch v.1.1.1 v.1.1.2 v.1.2 v.2)) (λ '(mkFetch _ _ _ _), eq_refl).
#[local] Instance codec_PendingDeposit : Codec PendingDeposit :=
  codec_via (λ d, (pd_deposit_id d, pd_ciphertext d, pd_received_at d))
    (λ v, Some (mkPendingDeposit v.1.1 v.1.2 v.2)) (λ '(mkPendingDeposit _ _ _), eq_refl).
#[local] Instance codec_FetchResponse : Codec FetchResponse :=
  codec_via fr_deposits (λ v, Some (mkFetchResponse v)) (λ '(mkFetchResponse _), eq_refl).
#[local] Instance codec_Delete : Codec Delete :=
  codec_via (λ d, (del_version d, del_identity_pubkey d, del_nonce d, del_signature d, del_deposit_ids d))
    (λ v, Some (mkDelete v.1.1.1.1 v.1.1.1.2 v.1.1.2 v.1.2 v.2)) (λ '(mkDelete _ _ _ _ _), eq_refl).
#[local] Instance codec_DeleteOk : Codec DeleteOk :=
  codec_via (λ d, (delok_deleted d, delok_not_found d)) (λ v, Some (mkDeleteOk v.1 v.2))
    (λ '(mkDeleteOk _ _), eq_refl).

Definition ErrorCode_index (c : ErrorCode) : Z :=
  match c with
  | EC_UnsupportedVersion => 0 | EC_MalformedRequest => 1 | EC_TooLarge => 2
  | EC_RateLimited => 3 | EC_RecipientFull => 4 | EC_TtlTooLong => 5 | EC_TtlTooShort => 6
  | EC_InvalidSignature => 7 | EC_HashMismatch => 8 | EC_NonceExpired => 9 | EC_NotFound => 10
  | EC_Internal => 11
  end.
Definition ErrorCode_of_index (n : Z) : option ErrorCode :=
  list_find (λ c, ErrorCode_index c = n)
    [EC_UnsupportedVersion; EC_MalformedRequest; EC_TooLarge; EC_RateLimited; EC_RecipientFull;
     EC_TtlTooLong; EC_TtlTooShort; EC_InvalidSignature; EC_HashMismatch; EC_NonceExpired;
     EC_NotFound; EC_Internal] ≫= λ p, Some p.2.
#[local] Instance codec_ErrorCode : Codec ErrorCode :=
  codec_via ErrorCode_index ErrorCode_of_index (λ c, ltac:(by destruct c)).
#[local] Instance codec_ErrorBody : Codec ErrorBody :=
  codec_via (λ d, (eb_code d, eb_message d)) (λ v, Some (mkErrorBody v.1 v.2))
    (λ '(mkErrorBody _ _), eq_refl).

Definition sample_wire : MailboxWire := {|
  wire_Deposit := cbor_of; wire_DepositOk := cbor_of; wire_Challenge := cbor_of;
  wire_ChallengeNonce := cbor_of; wire_Fetch := cbor_of; wire_FetchResponse := cbor_of;
  wire_Delete := cbor_of; wire_DeleteOk := cbor_of; wire_ErrorBody := cbor_of
|}.

Lemma sample_wire_laws : @MailboxWireLaws sample_wire.
Proof. split; exact cbor_of_roundtrip. Qed.

Lemma mailbox_codec_interop_witness :
  let f := MF_Delete (mkDelete 1 (fill 32 Byte.x01) (fill 32 Byte.x02) (fill 64 Byte.x03)
    [fill 16 Byte.x04; fill 16 Byte.x05]) in
  ∃ b, client_encode (wire := sample_wire) f [] = Ok b ∧
    server_decode (wire := sample_wire) (b ++ [Byte.x09]) = ([Byte.x09], Ok (Some f)).
Proof.
  eexists. split; [vm_compute; reflexivity|].
  apply (@mailbox_codec_interop sample_wire sample_wire_laws _ _ [Byte.x09]). vm_compute. reflexivity.
Defined.
