(* ===== verification/Float64.v ===== *)
(** * Float64: the [f64] arithmetic of the rate limiter

    Rust's [f64] is IEEE 754 binary64; the operations are those of the Standard
    Library's [SpecFloat] at precision 53 and maximal exponent 1024, rounding to
    nearest even.  The lemmas are the exactness facts the token bucket relies
    on: integers of at most 53 bits are exact, and so is counting down by one. *)

From Stdlib Require Import Floats.SpecFloat.
From S2P Require Import Prelude.

Definition f64 : Type := spec_float.
Definition f64_add : f64 → f64 → f64 := SFadd 53 1024.
Definition f64_sub : f64 → f64 → f64 := SFsub 53 1024.
Definition f64_mul : f64 → f64 → f64 := SFmul 53 1024.
Definition f64_div : f64 → f64 → f64 := SFdiv 53 1024.
Definition f64_ltb : f64 → f64 → bool := SFltb.
Definition f64_leb : f64 → f64 → bool := SFleb.

(** [f64::from(n)] of an integer. *)
Definition f64_of_Z (n : Z) : f64 := binary_normalize 53 1024 n 0 false.

(** [f64::max] and [f64::min] ignore a NaN operand. *)
Definition f64_max (x y : f64) : f64 :=
  match x, y with
  | S754_nan, _ => y
  | _, S754_nan => x
  | _, _ => if f64_ltb x y then y else x
  end.
Definition f64_min (x y : f64) : f64 :=
  match x, y with
  | S754_nan, _ => y
  | _, S754_nan => x
  | _, _ => if f64_ltb y x then y else x
  end.

Definition f64_is_finite (x : f64) : bool :=
  match x with S754_zero _ | S754_finite _ _ _ => true | _ => false end.

(** ** Digits and shifts *)

Lemma digits2_pos_log2 p : Zpos (digits2_pos p) = Z.log2 (Zpos p) + 1.
Proof.
  induction p as [p IH|p IH|]; cbn [digits2_pos]; [..|done]; rewrite Pos2Z.inj_succ, IH.
  - rewrite Pos2Z.inj_xI, Z.log2_succ_double by lia. lia.
  - rewrite Pos2Z.inj_xO, Z.log2_double by lia. lia.
Qed.

(** [p * 2^k]. *)
Definition shift_pos (p k : positive) : positive := Pos.iter xO p k.

Lemma shift_pos_Z p k : Zpos (shift_pos p k) = Zpos p * 2 ^ Zpos k.
Proof.
  unfold shift_pos. induction k as [|k IH] using Pos.peano_ind; [simpl; lia|].
  rewrite Pos.iter_succ, Pos2Z.inj_xO, IH, Pos2Z.inj_succ, Z.pow_succ_r by lia. lia.
Qed.

Lemma iter_pos_iter {A} (f : A → A) n x : SpecFloat.iter_pos f n x = Pos.iter f x n.
Proof.
  revert x. induction n as [n IH|n IH|]; intros x; simpl; [..|done]; rewrite !IH; [|done].
  by rewrite !Pos.iter_swap.
Qed.

(** Shifting out zeros is exact. *)
Lemma shr_1_exact p k :
  SpecFloat.iter_pos shr_1 k (Build_shr_record (Zpos (shift_pos p k)) false false)
    = Build_shr_record (Zpos p) false false.
Proof.
  rewrite iter_pos_iter. unfold shift_pos.
  induction k as [|k IH] using Pos.peano_ind; [done|].
  rewrite Pos.iter_succ_r, Pos.iter_succ. exact IH.
Qed.

(** ** Canonical integers *)

(** The binary64 value of [p * 2^e] for [p] of at most 53 bits and a moderate
    exponent: the mantissa brought to 53 digits. *)
Definition canonical (p : positive) (e : Z) : f64 :=
  let d := Zpos (digits2_pos p) in
  S754_finite false (Z.to_pos (Zpos p * 2 ^ (53 - d))) (d - 53 + e).

Lemma binary_round_aux_canonical m e :
  Zpos (digits2_pos m) = 53 → -1074 ≤ e ≤ 971 →
  binary_round_aux 53 1024 false (Zpos m) e loc_Exact = S754_finite false m e.
Proof.
  intros Hd He. unfold binary_round_aux, shr_fexp. cbn [Zdigits2 shr_record_of_loc]. rewrite Hd.
  assert (fexp 53 1024 (53 + e) - e = 0) as -> by (unfold fexp, emin; lia).
  cbn [shr shr_m loc_of_shr_record round_nearest_even Zdigits2 shr_record_of_loc]. rewrite Hd.
  assert (fexp 53 1024 (53 + e) - e = 0) as -> by (unfold fexp, emin; lia).
  cbn [shr shr_m]. destruct (Z.leb_spec e (1024 - 53)); [done|lia].
Qed.

Lemma digits_mul_pow p k : 0 ≤ k →
  Zpos (digits2_pos (Z.to_pos (Zpos p * 2 ^ k))) = Zpos (digits2_pos p) + k.
Proof.
  intros Hk. assert (0 < Zpos p * 2 ^ k) by (pose proof (Z.pow_pos_nonneg 2 k); nia).
  rewrite !digits2_pos_log2, Z2Pos.id, Z.log2_mul_pow2 by lia. lia.
Qed.

Lemma to_pos_shift p k : Z.to_pos (Zpos p * 2 ^ Zpos k) = shift_pos p k.
Proof. by rewrite <- shift_pos_Z. Qed.

(** [p] given with [k] trailing zeros rounds to its canonical form. *)
Lemma binary_round_exact p k e :
  0 ≤ k → Zpos (digits2_pos p) ≤ 53 → -900 ≤ e ≤ 900 →
  binary_round 53 1024 false (Z.to_pos (Zpos p * 2 ^ k)) (e - k) = canonical p e.
Proof.
  intros Hk Hd He. unfold binary_round, canonical. rewrite digits_mul_pow by done.
  set (d := Zpos (digits2_pos p)) in *.
  assert (1 ≤ d) by (unfold d; lia).
  assert (fexp 53 1024 (d + k + (e - k)) = d - 53 + e) as -> by (unfold fexp, emin; lia).
  unfold shl_align.
  destruct (d - 53 + e - (e - k)) as [|s|s] eqn:Es.
  - replace (53 - d) with k by lia. replace (d - 53 + e) with (e - k) by lia.
    apply binary_round_aux_canonical; [|lia]. rewrite digits_mul_pow by done. lia.
  - assert (k = 53 - d + Zpos s) as -> by lia. rewrite Z.pow_add_r by lia.
    assert (0 < Zpos p * 2 ^ (53 - d)) by (pose proof (Z.pow_pos_nonneg 2 (53 - d)); nia).
    set (m := Z.to_pos (Zpos p * 2 ^ (53 - d))).
    assert (Zpos m = Zpos p * 2 ^ (53 - d)) as Hm by (unfold m; lia).
    assert (Zpos (digits2_pos m) = 53) as Hdm by (unfold m; rewrite digits_mul_pow; lia).
    rewrite Z.mul_assoc, <- Hm, to_pos_shift.
    unfold binary_round_aux, shr_fexp. cbn [Zdigits2 shr_record_of_loc].
    rewrite <- (to_pos_shift m s), digits_mul_pow, to_pos_shift, Hdm by lia.
    replace (fexp 53 1024 (53 + Zpos s + (e - (53 - d + Zpos s))) - (e - (53 - d + Zpos s)))
      with (Zpos s) by (unfold fexp, emin; lia).
    cbn [shr]. rewrite shr_1_exact. cbn [shr_m loc_of_shr_record round_nearest_even].
    replace (e - (53 - d + Zpos s) + Zpos s) with (d - 53 + e) by lia.
    cbn [Zdigits2 shr_record_of_loc]. rewrite Hdm.
    assert (fexp 53 1024 (53 + (d - 53 + e)) - (d - 53 + e) = 0) as -> by (unfold fexp, emin; lia).
    cbn [shr shr_m]. destruct (Z.leb_spec (d - 53 + e) (1024 - 53)); [done|lia].
  - rewrite <- to_pos_shift, (Z2Pos.id (Zpos p * 2 ^ k)) by (pose proof (Z.pow_pos_nonneg 2 k); nia).
    rewrite <- Z.mul_assoc, <- Z.pow_add_r by lia.
    replace (k + Zpos s) with (53 - d) by lia.
    apply binary_round_aux_canonical; [|lia]. rewrite digits_mul_pow by lia. lia.
Qed.

Lemma f64_of_Z_canonical p : Zpos (digits2_pos p) ≤ 53 → f64_of_Z (Zpos p) = canonical p 0.
Proof.
  intros Hd. unfold f64_of_Z, binary_normalize.
  rewrite <- (binary_round_exact p 0 0) by lia. by rewrite Z.mul_1_r.
Qed.

Lemma digits_u32 p : Zpos p < 2 ^ 32 → Zpos (digits2_pos p) ≤ 32.
Proof.
  intros Hp. rewrite digits2_pos_log2.
  assert (Z.log2 (Zpos p) < 32) by (apply Z.log2_lt_pow2; lia). lia.
Qed.

Lemma f64_sub_self x : f64_is_finite x = true → f64_sub x x = S754_zero false.
Proof.
  destruct x as [s| | |s m e]; try done; intros _; unfold f64_sub, SFsub; [by destruct s|].
  by rewrite Z.sub_diag.
Qed.

Lemma f64_add_zero x : f64_is_finite x = true → f64_add x (S754_zero false) = x ∨ x = S754_zero true.
Proof. destruct x as [[]| | |]; try done; intros _; [by right|by left..]. Qed.

(** Counting down by one is exact. *)
Lemma f64_sub_one p :
  Zpos p < 2 ^ 32 → f64_sub (f64_of_Z (Zpos p)) (f64_of_Z 1) = f64_of_Z (Zpos p - 1).
Proof.
  intros Hp. pose proof (digits_u32 p Hp) as Hd. rewrite f64_of_Z_canonical by lia.
  change (f64_of_Z 1) with (S754_finite false (Z.to_pos (2 ^ 52)) (-52)).
  unfold canonical. set (d := Zpos (digits2_pos p)) in *. assert (1 ≤ d) by (unfold d; lia).
  unfold f64_sub, SFsub. rewrite Z.add_0_r. replace (Z.min (d - 53) (-52)) with (-52) by lia.
  set (m := Z.to_pos (Zpos p * 2 ^ (53 - d))).
  assert (0 < Zpos p * 2 ^ (53 - d)) by (pose proof (Z.pow_pos_nonneg 2 (53 - d)); nia).
  assert (Zpos (shl_align m (d - 53) (-52)).1 = Zpos p * 2 ^ 52) as ->.
  { unfold shl_align. destruct (-52 - (d - 53)) as [|s|s] eqn:Es; [..|].
    - simpl. unfold m. rewrite Z2Pos.id by lia. f_equal. f_equal. lia.
    - lia.
    - simpl. change (Pos.iter xO m s) with (shift_pos m s). rewrite shift_pos_Z. unfold m.
      rewrite Z2Pos.id, <- Z.mul_assoc, <- Z.pow_add_r by lia. f_equal. f_equal. lia. }
  cbn [cond_Zopp]. change (Zpos (shl_align (Z.to_pos (2 ^ 52)) (-52) (-52)).1) with (1 * 2 ^ 52).
  rewrite <- Z.mul_sub_distr_r.
  destruct (Zpos p - 1) as [|q|q] eqn:Eq; [done| |lia].
  rewrite f64_of_Z_canonical by (pose proof (digits_u32 q); lia).
  rewrite <- (binary_round_exact q 52 0) by (pose proof (digits_u32 q); lia). done.
Qed.

Lemma digits_mono p q : Zpos p ≤ Zpos q → Zpos (digits2_pos p) ≤ Zpos (digits2_pos q).
Proof. intros. rewrite !digits2_pos_log2. pose proof (Z.log2_le_mono (Zpos p) (Zpos q)). lia. Qed.

(** The order on [u32] values is the order on their conversions. *)
Lemma f64_of_Z_le a b : 0 ≤ a ≤ b → b < 2 ^ 32 → f64_ltb (f64_of_Z b) (f64_of_Z a) = false.
Proof.
  intros Hab Hb. destruct a as [|p|p]; [|destruct b as [|q|q]; try lia|lia].
  - destruct b as [|q|q]; [done| |lia].
    rewrite f64_of_Z_canonical by (pose proof (digits_u32 q); lia). done.
  - pose proof (digits_u32 q Hb). pose proof (digits_mono p q ltac:(lia)).
    rewrite !f64_of_Z_canonical by lia. unfold canonical, f64_ltb, SFltb, SFcompare.
    destruct (Z.compare_spec (Zpos (digits2_pos q) - 53 + 0) (Zpos (digits2_pos p) - 53 + 0))
      as [E|E|E]; [|lia|done].
    assert (Zpos (digits2_pos q) = Zpos (digits2_pos p)) as -> by lia.
    change (Pos.compare_cont Eq ?x ?y) with (Pos.compare x y).
    set (k := 53 - Zpos (digits2_pos p)). assert (0 < 2 ^ k) by (apply Z.pow_pos_nonneg; lia).
    destruct (Pos.compare_spec (Z.to_pos (Zpos q * 2 ^ k)) (Z.to_pos (Zpos p * 2 ^ k))); [done| |done].
    exfalso. nia.
Qed.

Lemma f64_one_le n : 0 ≤ n < 2 ^ 32 → f64_leb (f64_of_Z 1) (f64_of_Z n) = bool_decide (1 ≤ n).
Proof.
  intros Hn. destruct n as [|p|p]; [done| |lia]. rewrite bool_decide_eq_true_2 by lia.
  rewrite (f64_of_Z_canonical p) by (pose proof (digits_u32 p); lia).
  change (f64_of_Z 1) with (S754_finite false (Z.to_pos (2 ^ 52)) (-52)).
  unfold canonical, f64_leb, SFleb, SFcompare.
  set (d := Zpos (digits2_pos p)). assert (1 ≤ d) by (unfold d; lia).
  destruct (Z.compare_spec (-52) (d - 53 + 0)) as [E|E|E]; [|done|lia].
  change (Pos.compare_cont Eq ?x ?y) with (Pos.compare x y).
  replace (53 - d) with 52 by lia.
  destruct (Pos.compare_spec (Z.to_pos (2 ^ 52)) (Z.to_pos (Zpos p * 2 ^ 52))); [done..|].
  exfalso. assert (2 ^ 52 ≤ Zpos p * 2 ^ 52) by lia. lia.
Qed.

(** ** Finiteness of the fill rate *)

Lemma shr_1_bound r : 0 ≤ shr_m r → 0 ≤ shr_m (shr_1 r) ≤ shr_m r.
Proof. destruct r as [[|[p|p|]|p] ? ?]; simpl; lia. Qed.

Lemma shr_bound r e n :
  0 ≤ shr_m r → 0 ≤ shr_m (shr r e n).1 ≤ shr_m r ∧ (shr r e n).2 = e + Z.max 0 n.
Proof.
  intros Hr. destruct n as [|p|p]; simpl; [split; lia| |split; lia]. split; [|lia].
  rewrite iter_pos_iter. induction p as [|p IH] using Pos.peano_ind; [by apply shr_1_bound|].
  rewrite Pos.iter_succ. pose proof (shr_1_bound (Pos.iter shr_1 r p)). lia.
Qed.

Lemma Zdigits2_bound m k : 0 ≤ m < 2 ^ k → 0 ≤ k → 0 ≤ Zdigits2 m ≤ k.
Proof.
  intros Hm Hk. destruct m as [|p|p]; simpl; [lia| |lia].
  rewrite digits2_pos_log2. pose proof (Z.log2_nonneg (Zpos p)).
  assert (Z.log2 (Zpos p) < k) by (apply Z.log2_lt_pow2; lia). lia.
Qed.

Lemma shr_fexp_bound m e l k :
  0 ≤ m < 2 ^ k → 53 ≤ k ≤ 100 → -1000 ≤ e →
  0 ≤ shr_m (shr_fexp 53 1024 m e l).1 ≤ m ∧ e ≤ (shr_fexp 53 1024 m e l).2 ≤ e + (k - 53).
Proof.
  intros Hm Hk He. unfold shr_fexp. pose proof (Zdigits2_bound m k Hm ltac:(lia)).
  assert (shr_m (shr_record_of_loc m l) = m) as Hr by (by destruct l as [|[]]).
  destruct (shr_bound (shr_record_of_loc m l) e (fexp 53 1024 (Zdigits2 m + e) - e)) as [? ->];
    [lia|]. rewrite Hr in *. split; [done|]. unfold fexp, emin. lia.
Qed.

Lemma binary_round_aux_finite m e l :
  0 ≤ m < 2 ^ 60 → -1000 ≤ e ≤ 900 → f64_is_finite (binary_round_aux 53 1024 false m e l) = true.
Proof.
  intros Hm He. unfold binary_round_aux.
  destruct (shr_fexp_bound m e l 60 Hm) as [Hm1 He1]; [lia..|].
  destruct (shr_fexp 53 1024 m e l) as [r1 e1]. cbn [fst snd] in *.
  set (m2 := round_nearest_even (shr_m r1) (loc_of_shr_record r1)).
  assert (0 ≤ m2 < 2 ^ 61) as Hm2.
  { unfold m2, round_nearest_even. destruct (loc_of_shr_record r1) as [|[]]; try case_match; lia. }
  destruct (shr_fexp_bound m2 e1 loc_Exact 61 Hm2) as [Hm3 He3]; [lia..|].
  destruct (shr_fexp 53 1024 m2 e1 loc_Exact) as [r2 e2]. cbn [fst snd] in *.
  destruct (shr_m r2) as [|p|p]; [done| |lia].
  destruct (Z.leb_spec e2 (1024 - 53)); [done|lia].
Qed.

Lemma f64_per_minute_finite n :
  0 ≤ n < 2 ^ 32 → f64_is_finite (f64_div (f64_of_Z n) (f64_of_Z 60)) = true.
Proof.
  intros Hn. destruct n as [|p|p]; [done| |lia].
  pose proof (digits_u32 p ltac:(lia)) as Hd. rewrite (f64_of_Z_canonical p) by lia.
  change (f64_of_Z 60) with (S754_finite false (Z.to_pos (60 * 2 ^ 47)) (-47)).
  unfold canonical, f64_div, SFdiv, SFdiv_core_binary. cbn [Zdigits2].
  rewrite digits_mul_pow by lia. set (d := Zpos (digits2_pos p)) in *.
  assert (1 ≤ d) by (unfold d; lia).
  change (Zpos (digits2_pos (Z.to_pos (60 * 2 ^ 47)))) with 53.
  replace (d + (53 - d) + (d - 53 + 0) - (53 + -47)) with (d - 6) by lia.
  replace (Z.min (fexp 53 1024 (d - 6)) (d - 53 + 0 - -47)) with (d - 59)
    by (unfold fexp, emin; lia).
  replace (d - 53 + 0 - -47 - (d - 59)) with (Zpos 53) by lia.
  assert (0 < Zpos p * 2 ^ (53 - d) < 2 ^ 53) as Hm.
  { pose proof (Z.pow_pos_nonneg 2 (53 - d)). split; [nia|].
    assert (Zpos p < 2 ^ d).
    { unfold d. rewrite digits2_pos_log2. pose proof (Z.log2_spec (Zpos p)). lia. }
    replace 53 with (d + (53 - d)) at 2 by lia. rewrite (Z.pow_add_r 2 d) by lia. nia. }
  rewrite Z2Pos.id, Z.shiftl_mul_pow2 by lia.
  set (a := Zpos p * 2 ^ (53 - d)) in *.
  pose proof (Z_div_mod (a * 2 ^ 53) (Zpos (Z.to_pos (60 * 2 ^ 47))) ltac:(lia)) as Hdiv.
  destruct (Z.div_eucl _ _) as [q r]. apply binary_round_aux_finite; [|lia].
  change (Zpos (Z.to_pos (60 * 2 ^ 47))) with (60 * 2 ^ 47) in Hdiv. lia.
Qed.

(** ** Rounding a product *)

(** The remainder flags are clear when nothing but zeros is shifted out. *)
Lemma shr_1_step q r s :
  0 ≤ q →
  shr_m (shr_1 (Build_shr_record q r s)) = q / 2 ∧
  (q mod 2 = 0 → r = false → s = false →
   loc_of_shr_record (shr_1 (Build_shr_record q r s)) = loc_Exact).
Proof.
  intros Hq. rewrite <- Z.div2_div, Zmod_even.
  destruct q as [|[p|p|]|p]; try lia; (split; [done|]); intros Hz -> ->; done.
Qed.

Lemma loc_of_exact r : loc_of_shr_record r = loc_Exact → shr_r r = false ∧ shr_s r = false.
Proof. by destruct r as [m [] []]. Qed.

Lemma shr_1_div m n :
  0 ≤ m →
  let r := Pos.iter shr_1 (Build_shr_record m false false) n in
  shr_m r = m / 2 ^ Zpos n ∧ (m mod 2 ^ Zpos n = 0 → loc_of_shr_record r = loc_Exact).
Proof.
  intros Hm. induction n as [|n IH] using Pos.peano_ind.
  - destruct (shr_1_step m false false Hm) as [H1 H2]. split; [exact H1|]. auto.
  - rewrite Pos.iter_succ, Pos2Z.inj_succ, Z.pow_succ_r by lia. cbv zeta in IH.
    destruct (Pos.iter shr_1 _ n) as [q r s] eqn:E. destruct IH as [Hq Hex]. simpl in Hq.
    rewrite (Z.mul_comm 2), <- Z.div_div by lia. rewrite <- Hq.
    assert (0 ≤ q) by (rewrite Hq; apply Z.div_pos; lia).
    destruct (shr_1_step q r s ltac:(done)) as [H1 H2]. split; [exact H1|].
    intros Hz. rewrite Z.rem_mul_r, <- Hq in Hz by lia.
    pose proof (Z.mod_pos_bound m (2 ^ Zpos n) ltac:(lia)).
    pose proof (Z.mod_pos_bound q 2 ltac:(lia)).
    destruct (loc_of_exact _ (Hex ltac:(nia))) as [Hr Hs]. apply H2; [nia|done..].
Qed.

(** The integer part of a finite non-negative value: [x as u64]. *)
Definition f64_to_u64 (x : f64) : Z :=
  match x with
  | S754_finite false m e =>
      Z.min u64_max (if decide (0 ≤ e) then Zpos m * 2 ^ e else Zpos m / 2 ^ (- e))
  | S754_infinity false => u64_max
  | _ => 0
  end.

(** Rounding a value of 54 to 106 significant bits keeps it between any bounds
    that are multiples of the result's unit. *)
Lemma binary_round_aux_between m e s lo hi :
  0 < s ≤ 53 → 2 ^ (52 + s) ≤ m < 2 ^ (53 + s) → -900 ≤ e ≤ 900 →
  lo * 2 ^ s ≤ m ≤ hi * 2 ^ s →
  ∃ m' k, binary_round_aux 53 1024 false m e loc_Exact = S754_finite false m' (e + s + k) ∧
    0 ≤ k ≤ 1 ∧ lo ≤ Zpos m' * 2 ^ k ≤ hi.
Proof.
  intros Hs Hm He Hb. assert (0 < 2 ^ s) by (apply Z.pow_pos_nonneg; lia).
  assert (0 < 2 ^ (52 + s)) by (apply Z.pow_pos_nonneg; lia).
  destruct m as [|p|p]; [lia| |lia].
  assert (Zpos (digits2_pos p) = 53 + s) as Hd.
  { rewrite digits2_pos_log2. enough (Z.log2 (Zpos p) = 52 + s) by lia.
    apply Z.log2_unique; [lia|]. replace (Z.succ (52 + s)) with (53 + s) by lia. done. }
  unfold binary_round_aux, shr_fexp at 1. cbn [Zdigits2 shr_record_of_loc]. rewrite Hd.
  replace (fexp 53 1024 (53 + s + e) - e) with s by (unfold fexp, emin; lia).
  destruct s as [|n|n]; [lia| |lia]. cbn [shr]. rewrite iter_pos_iter.
  pose proof (shr_1_div (Zpos p) n ltac:(lia)) as [Hq Hex].
  set (r := Pos.iter shr_1 _ n) in *.
  set (m2 := round_nearest_even (shr_m r) (loc_of_shr_record r)).
  set (q := Zpos p / 2 ^ Zpos n) in *.
  assert (2 ^ 52 ≤ q < 2 ^ 53) as Hqb.
  { unfold q. rewrite Z.pow_add_r in Hm by lia. rewrite Z.pow_add_r in Hm by lia.
    split; [apply Z.div_le_lower_bound|apply Z.div_lt_upper_bound]; lia. }
  assert (lo ≤ q) by (unfold q; apply Z.div_le_lower_bound; lia).
  assert (q ≤ m2 ≤ q + 1 ∧ (m2 = q ∨ loc_of_shr_record r ≠ loc_Exact)) as [Hm2 Hup].
  { unfold m2. rewrite Hq. destruct (loc_of_shr_record r) as [|[]]; simpl; try case_match;
      (split; [lia|]); try (by left); by right. }
  assert (m2 ≤ hi) as Hhi.
  { destruct Hup as [->|Hup]; [apply Z.div_le_upper_bound; lia|].
    assert (Zpos p mod 2 ^ Zpos n ≠ 0) by auto.
    pose proof (Z.div_mod (Zpos p) (2 ^ Zpos n) ltac:(lia)) as Hdm. fold q in Hdm.
    pose proof (Z.mod_pos_bound (Zpos p) (2 ^ Zpos n) ltac:(lia)). nia. }
  clearbody m2. destruct (decide (m2 = 2 ^ 53)) as [->|Hne].
  - exists (Z.to_pos (2 ^ 52)), 1. unfold shr_fexp.
    replace (fexp 53 1024 (Zdigits2 (2 ^ 53) + (e + Zpos n)) - (e + Zpos n)) with 1
      by (change (Zdigits2 (2 ^ 53)) with 54; unfold fexp, emin; lia).
    cbn [shr]. change (SpecFloat.iter_pos shr_1 1 _) with (Build_shr_record (2 ^ 52) false false).
    cbn [shr_m]. change (2 ^ 52) with (Zpos (Z.to_pos (2 ^ 52))).
    destruct (Z.leb_spec (e + Zpos n + 1) (1024 - 53)); [|lia]. split; [done|]. lia.
  - destruct m2 as [|m'|m']; [lia| |lia]. exists m', 0. unfold shr_fexp.
    assert (Zpos (digits2_pos m') = 53) as Hd'.
    { rewrite digits2_pos_log2. enough (Z.log2 (Zpos m') = 52) by lia.
      apply Z.log2_unique; lia. }
    cbn [Zdigits2 shr_record_of_loc]. rewrite Hd'.
    replace (fexp 53 1024 (53 + (e + Zpos n)) - (e + Zpos n)) with 0 by (unfold fexp, emin; lia).
    cbn [shr shr_m]. destruct (Z.leb_spec (e + Zpos n) (1024 - 53)); [|lia].
    split; [by rewrite Z.add_0_r|]. lia.
Qed.
