(* ===== verification/MailboxPolicy.v ===== *)
(** * MailboxPolicy: operator caps and the token-bucket rate limiter

    [crates/mailbox/src/policy.rs].  The bucket computes in [f64]; the model
    computes the same binary64 values ([Float64]).  The theorems give the exact
    outcome of [resolve_ttl] and the exact burst a full bucket admits. *)

From S2P Require Import Prelude MailboxProtocol Float64.

Record Policy : Type := mkPolicy {
  max_deposit_size : Z;
  min_ttl_secs : Z;
  max_ttl_secs : Z;
  default_ttl_secs : Z;
  recipient_cap_bytes : Z;
  per_conn_deposits_per_min : Z;
  per_conn_fetches_per_min : Z;
  global_deposits_per_min : Z;
  global_storage_cap_bytes : Z;
  max_recipients : Z;
  idle_timeout_secs : Z;
  max_connections : Z;
  max_delete_ids : Z
}.

Definition default_global_storage_cap_bytes : Z := 4 * 1024 * 1024 * 1024.
Definition default_max_recipients : Z := 100000.
Definition default_idle_timeout_secs : Z := 120.
Definition default_max_connections : Z := 512.
Definition default_max_delete_ids : Z := 1024.

Definition recommended : Policy := {|
  max_deposit_size := 1048576;
  min_ttl_secs := 3600;
  max_ttl_secs := 2592000;
  default_ttl_secs := 604800;
  recipient_cap_bytes := 268435456;
  per_conn_deposits_per_min := 30;
  per_conn_fetches_per_min := 6;
  global_deposits_per_min := 1000;
  global_storage_cap_bytes := default_global_storage_cap_bytes;
  max_recipients := default_max_recipients;
  idle_timeout_secs := default_idle_timeout_secs;
  max_connections := default_max_connections;
  max_delete_ids := default_max_delete_ids
|}.

Definition resolve_ttl (p : Policy) (ttl_request : Z) : result Z MailboxError :=
  if decide (ttl_request = 0) then Ok (default_ttl_secs p)
  else if decide (ttl_request < min_ttl_secs p) then Err (MbPolicy TtlTooShort)
  else if decide (ttl_request > max_ttl_secs p) then Err (MbPolicy TtlTooLong)
  else Ok ttl_request.

Record TokenBucket : Type := mkTokenBucket {
  capacity : f64;
  fill_per_sec : f64;
  available : f64;
  last_refill : f64
}.

(** [TokenBucket::new]. *)
Definition bucket_new (tokens_per_min : Z) (now_secs : f64) : TokenBucket :=
  let capacity := f64_of_Z tokens_per_min in
  mkTokenBucket capacity (f64_div capacity (f64_of_Z 60)) capacity now_secs.

(** [TokenBucket::try_acquire]. *)
Definition try_acquire (b : TokenBucket) (now_secs : f64) : TokenBucket * result unit MailboxError :=
  let elapsed := f64_max (f64_sub now_secs (last_refill b)) (f64_of_Z 0) in
  let refilled :=
    f64_min (f64_add (available b) (f64_mul elapsed (fill_per_sec b))) (capacity b) in
  if f64_leb (f64_of_Z 1) refilled
  then (mkTokenBucket (capacity b) (fill_per_sec b) (f64_sub refilled (f64_of_Z 1)) now_secs, Ok tt)
  else (mkTokenBucket (capacity b) (fill_per_sec b) refilled now_secs, Err (MbPolicy RateLimited)).

Record ConnRateLimiter : Type := mkConnRateLimiter {
  deposits : TokenBucket;
  fetches : TokenBucket
}.

(** [ConnRateLimiter::from_policy]. *)
Definition conn_from_policy (p : Policy) (now_secs : f64) : ConnRateLimiter :=
  mkConnRateLimiter (bucket_new (per_conn_deposits_per_min p) now_secs)
    (bucket_new (per_conn_fetches_per_min p) now_secs).

(** The shared bucket behind its mutex. *)
Record GlobalRateLimiter : Type := mkGlobalRateLimiter {
  global_bucket : TokenBucket;
  global_poisoned : bool
}.

(** [GlobalRateLimiter::from_policy]. *)
Definition global_from_policy (p : Policy) (now_secs : f64) : GlobalRateLimiter :=
  mkGlobalRateLimiter (bucket_new (global_deposits_per_min p) now_secs) false.

(** [GlobalRateLimiter::try_acquire]. *)
Definition global_try_acquire (g : GlobalRateLimiter) (now_secs : f64)
    : GlobalRateLimiter * result unit MailboxError :=
  if global_poisoned g then (g, Err (MbPolicy PolicyPoisoned))
  else let '(b, r) := try_acquire (global_bucket g) now_secs in (mkGlobalRateLimiter b false, r).

(** A run of [k] attempts at one instant. *)
Fixpoint attempts (b : TokenBucket) (now_secs : f64) (k : nat)
    : TokenBucket * list (result unit MailboxError) :=
  match k with
  | O => (b, [])
  | S k' =>
      let '(b1, r) := try_acquire b now_secs in
      let '(b2, rs) := attempts b1 now_secs k' in (b2, r :: rs)
  end.

(** ** Lemmas *)

(** A resolved TTL is within the bounds when the default is. *)
Lemma resolve_ttl_bounds p req ttl :
  min_ttl_secs p ≤ default_ttl_secs p ≤ max_ttl_secs p → resolve_ttl p req = Ok ttl →
  min_ttl_secs p ≤ ttl ≤ max_ttl_secs p.
Proof. intros Hp. unfold resolve_ttl. repeat case_decide; intros [= <-]; lia. Qed.

(** A bucket of capacity [n] holding [k] whole tokens. *)
Definition bucket_at (n k : Z) (t : f64) : TokenBucket :=
  mkTokenBucket (f64_of_Z n) (f64_div (f64_of_Z n) (f64_of_Z 60)) (f64_of_Z k) t.

Lemma f64_of_Z_finite n : 0 ≤ n < 2 ^ 32 → f64_is_finite (f64_of_Z n) = true.
Proof.
  intros Hn. destruct n as [|p|p]; [done| |lia].
  by rewrite f64_of_Z_canonical by (pose proof (digits_u32 p); lia).
Qed.

Lemma f64_of_Z_not_neg n : 0 ≤ n < 2 ^ 32 → f64_of_Z n ≠ SpecFloat.S754_zero true.
Proof.
  intros Hn. destruct n as [|p|p]; [done| |lia].
  by rewrite f64_of_Z_canonical by (pose proof (digits_u32 p); lia).
Qed.

Lemma zero_mul_finite x :
  f64_is_finite x = true → ∃ s, f64_mul (SpecFloat.S754_zero false) x = SpecFloat.S754_zero s.
Proof. destruct x; try done; intros _; by eexists. Qed.

(** At the instant of the last refill nothing is added. *)
Lemma refill_none n k t :
  0 ≤ k ≤ n → n < 2 ^ 32 → f64_is_finite t = true →
  f64_min (f64_add (f64_of_Z k)
     (f64_mul (f64_max (f64_sub t t) (f64_of_Z 0)) (f64_div (f64_of_Z n) (f64_of_Z 60))))
     (f64_of_Z n) = f64_of_Z k.
Proof.
  intros Hk Hn Ht. rewrite f64_sub_self by done.
  destruct (zero_mul_finite (f64_div (f64_of_Z n) (f64_of_Z 60))) as [s Hs].
  { apply f64_per_minute_finite; lia. }
  replace (f64_max (SpecFloat.S754_zero false) (f64_of_Z 0)) with (SpecFloat.S754_zero false) by done.
  rewrite Hs. pose proof (f64_of_Z_finite k ltac:(lia)) as Hfk.
  pose proof (f64_of_Z_not_neg k ltac:(lia)) as Hnk.
  pose proof (f64_of_Z_finite n ltac:(lia)) as Hfn.
  assert (f64_add (f64_of_Z k) (SpecFloat.S754_zero s) = f64_of_Z k) as ->.
  { destruct (f64_of_Z k) as [[]| | |]; try done. by destruct s. }
  pose proof (f64_of_Z_le k n ltac:(lia) Hn) as Hle. unfold f64_min. rewrite Hle.
  by destruct (f64_of_Z k), (f64_of_Z n).
Qed.

Lemma try_acquire_at n k t :
  0 ≤ k ≤ n → n < 2 ^ 32 → f64_is_finite t = true →
  try_acquire (bucket_at n k t) t =
    if decide (1 ≤ k) then (bucket_at n (k - 1) t, Ok tt)
    else (bucket_at n k t, Err (MbPolicy RateLimited)).
Proof.
  intros Hk Hn Ht. unfold try_acquire. cbn [last_refill fill_per_sec available capacity bucket_at].
  rewrite refill_none by done. rewrite f64_one_le by lia. unfold bucket_at.
  case_decide; [rewrite bool_decide_eq_true_2 by done | by rewrite bool_decide_eq_false_2 by done].
  destruct k as [|p|p]; [lia| |lia]. by rewrite f64_sub_one by lia.
Qed.

Lemma attempts_at n k t j :
  0 ≤ k ≤ n → n < 2 ^ 32 → f64_is_finite t = true →
  (attempts (bucket_at n k t) t j).2 =
    replicate (j `min` Z.to_nat k) (Ok tt) ++
    replicate (j - Z.to_nat k) (Err (MbPolicy RateLimited)).
Proof.
  intros Hk Hn Ht. revert k Hk. induction j as [|j IH]; intros k Hk; [done|].
  cbn [attempts]. rewrite try_acquire_at by done. case_decide.
  - specialize (IH (k - 1) ltac:(lia)). destruct (attempts (bucket_at n (k - 1) t) t j) as [b rs].
    cbn [snd] in *. rewrite IH. replace (Z.to_nat k) with (S (Z.to_nat (k - 1))) by lia. done.
  - specialize (IH k Hk). destruct (attempts (bucket_at n k t) t j) as [b rs].
    cbn [snd] in *. rewrite IH. replace (Z.to_nat k) with 0%nat by lia.
    by rewrite !Nat.min_0_r, !Nat.sub_0_r.
Qed.

(** ** Properties *)

(** C36: a bucket admits exactly its per-minute count in a burst.  For every
    [u32] rate and every finite clock value, of [j] attempts at one instant on
    a new bucket the first [tokens_per_min] succeed and all others are
    rate limited; no rounding of the binary64 arithmetic gives or takes one. *)
Theorem bucket_burst_exact tokens_per_min now_secs j :
  in_u32 tokens_per_min → f64_is_finite now_secs = true →
  (attempts (bucket_new tokens_per_min now_secs) now_secs j).2 =
    replicate (j `min` Z.to_nat tokens_per_min) (Ok tt) ++
    replicate (j - Z.to_nat tokens_per_min) (Err (MbPolicy RateLimited)).
Proof. intros Hn Ht. apply (attempts_at tokens_per_min); [| |done]; widths. Qed.

Lemma bucket_burst_exact_witness :
  (attempts (bucket_new 6 (f64_of_Z 1700000000)) (f64_of_Z 1700000000) 8).2 =
    replicate 6 (Ok tt) ++ replicate 2 (Err (MbPolicy RateLimited)).
Proof.
  apply (bucket_burst_exact 6 (f64_of_Z 1700000000) 8); [widths|vm_compute; reflexivity].
Defined.

(** A wall clock that steps back restores a drained bucket: the attempt in the
    past is refused but moves [last_refill] back, and the next attempt at the
    original time counts the interval as elapsed. *)
Example bucket_clock_step_back :
  let t := f64_of_Z 1700000000 in
  let drained := (attempts (bucket_new 60 t) t 60).1 in
  let past := (try_acquire drained (f64_of_Z 1699999900)).1 in
  (try_acquire drained t).2 = Err (MbPolicy RateLimited) ∧
  (try_acquire drained (f64_of_Z 1699999900)).2 = Err (MbPolicy RateLimited) ∧
  (attempts past t 60).2 = replicate 60 (Ok tt).
Proof. vm_compute. done. Qed.
