(* ===== verification/MailboxAuth.v ===== *)
(** * MailboxAuth: challenge nonces of the mailbox server

    [crates/mailbox/src/auth.rs].  The challenge table is a finite map from nonce
    to the identity hash and time it was issued for.  The random nonce [issue]
    draws is an argument, and the signature scheme ([ed25519_dalek]) is the
    class [Ed25519]. *)

From S2P Require Import Prelude Framing MailboxProtocol.

(** [vk_valid pk] is [VerifyingKey::from_bytes(pk).is_ok()], [vk_verify pk m s]
    is [vk.verify(m, s).is_ok()]. *)
Class Ed25519 : Type := {
  vk_valid : bytes → bool;
  vk_verify : bytes → bytes → bytes → bool
}.

Definition CHALLENGE_TTL_SECS : Z := 30.

Record Issued : Type := mkIssued { identity_hash : bytes; issued_at : Z }.

Abbreviation Challenges := (gmap bytes Issued).

(** [Challenges::issue], with the nonce it drew. *)
Definition issue (c : Challenges) (identity_hash : bytes) (now : Z) (nonce : bytes) : Challenges :=
  <[nonce := mkIssued identity_hash now]> c.

(** [now - issued_at > CHALLENGE_TTL_SECS]. *)
Definition expired (now : Z) (i : Issued) : Prop := i64_sub now (issued_at i) > CHALLENGE_TTL_SECS.
#[export] Instance expired_decision now i : Decision (expired now i).
Proof. unfold expired. apply _. Defined.

Section auth.
Context `{!Sha256, !Ed25519}.

(** [Challenges::verify]. *)
Definition verify (c : Challenges) (nonce identity_pubkey signature : bytes) (op_byte : byte)
    (payload_hash : bytes) (now : Z) : Challenges * result unit MailboxError :=
  match c !! nonce with
  | None => (c, Err (MbAuth NonceExpired))
  | Some issued =>
      if decide (expired now issued) then (delete nonce c, Err (MbAuth NonceExpired))
      else if decide (sha256 identity_pubkey ≠ identity_hash issued)
      then (c, Err (MbAuth HashMismatch))
      else
        let input := signing_input nonce op_byte payload_hash in
        if negb (vk_valid identity_pubkey) then (c, Err (MbAuth InvalidSignature))
        else if negb (vk_verify identity_pubkey input signature)
        then (c, Err (MbAuth InvalidSignature))
        else (delete nonce c, Ok tt)
  end.

(** The [payload_digest] wrapper of [auth.rs]. *)
Definition payload_digest {T} `{!Serialize T} (payload : T) : result bytes MailboxError :=
  map_err (λ e, MbTransport (EncodeFailed e)) (MailboxProtocol.payload_digest payload).
End auth.

(** [Challenges::sweep]: the keys past their TTL are collected, then removed
    one by one. *)
Definition sweep (c : Challenges) (now : Z) : Challenges * Z :=
  let stale := (filter (λ kv, expired now kv.2) (map_to_list c)).*1 in
  (foldl (λ m k, delete k m) c stale, len stale).

(** [Challenges::len] and [Challenges::is_empty]. *)
Definition challenges_len (c : Challenges) : Z := Z.of_nat (size c).
Definition challenges_is_empty (c : Challenges) : bool := bool_decide (c = ∅).

(** ** Lemmas *)

(** What a request must present for [verify] to accept it. *)
Record authentic `{!Sha256, !Ed25519} (c : Challenges) (nonce pubkey signature : bytes)
    (op_byte : byte) (payload_hash : bytes) (now : Z) : Prop := {
  auth_issued : ∃ i, c !! nonce = Some i ∧ ¬ expired now i ∧ identity_hash i = sha256 pubkey;
  auth_key : vk_valid pubkey = true;
  auth_signature : vk_verify pubkey (signing_input nonce op_byte payload_hash) signature = true
}.

Section lemmas.
Context `{!Sha256, !Ed25519}.

Lemma verify_Ok c c' nonce pk sg op h now :
  verify c nonce pk sg op h now = (c', Ok tt) ↔
  authentic c nonce pk sg op h now ∧ c' = delete nonce c.
Proof.
  unfold verify. split.
  - destruct (c !! nonce) as [i|] eqn:E; [|done]. repeat case_decide; try done.
    destruct (vk_valid pk) eqn:Ek; [|done]. simpl.
    destruct (vk_verify pk _ sg) eqn:Es; [|done]. simpl. intros [= <-].
    split; [|done]. split; [|done..]. exists i. repeat split; try done.
  - intros [[(i & -> & Hi & Hh) Hk Hs] ->].
    rewrite decide_False, decide_False by (rewrite ?Hh; auto). by rewrite Hk, Hs.
Qed.

(** No outcome of [verify] adds a nonce or changes another one. *)
Lemma verify_lookup c nonce pk sg op h now n' :
  (verify c nonce pk sg op h now).1 !! n' = c !! n' ∨
  n' = nonce ∧ (verify c nonce pk sg op h now).1 !! n' = None.
Proof.
  unfold verify. destruct (c !! nonce) as [i|] eqn:E; [|by left].
  destruct (decide (n' = nonce)) as [->|Hne].
  - repeat case_match; simpl; try (by left); right; by rewrite lookup_delete_eq.
  - repeat case_match; simpl; try (by left); left; by rewrite lookup_delete_ne.
Qed.

Lemma foldl_delete_lookup (c : Challenges) ks k :
  foldl (λ m k, delete k m) c ks !! k = if decide (k ∈ ks) then None else c !! k.
Proof.
  revert c. induction ks as [|k' ks IH]; intros c; cbn [foldl].
  - case_decide; [set_solver|done].
  - rewrite IH. destruct (decide (k = k')) as [->|Hne].
    + rewrite lookup_delete_eq. repeat case_decide; set_solver.
    + rewrite lookup_delete_ne by done. repeat case_decide; set_solver.
Qed.

Lemma foldl_delete_size (c : Challenges) ks :
  NoDup ks → (∀ k, k ∈ ks → is_Some (c !! k)) →
  (size (foldl (λ m k, delete k m) c ks) + length ks)%nat = size c.
Proof.
  intros Hnd. revert c. induction Hnd as [|k ks Hk Hnd IH]; intros c Hin; simpl; [lia|].
  pose proof (Hin k ltac:(set_solver)) as Hs.
  assert (size c ≠ 0%nat) by (by eapply map_size_ne_0_lookup_2).
  rewrite <- Nat.add_succ_comm. simpl. rewrite IH.
  - rewrite map_size_delete_Some by done. lia.
  - intros k' Hk'. rewrite lookup_delete_ne by set_solver. apply Hin. set_solver.
Qed.

(** [sweep] drops exactly the expired nonces. *)
Lemma sweep_lookup c now n :
  (sweep c now).1 !! n = i ← c !! n; if decide (expired now i) then None else Some i.
Proof.
  unfold sweep. cbn [fst]. rewrite foldl_delete_lookup.
  destruct (c !! n) as [i|] eqn:E; simpl; [|by case_decide].
  destruct (decide (expired now i)) as [He|He].
  - rewrite decide_True; [done|]. apply list_elem_of_fmap. exists (n, i). split; [done|].
    apply list_elem_of_filter. split; [done|]. by apply elem_of_map_to_list.
  - rewrite decide_False; [done|]. intros ([n' i'] & -> & [Hx Hin]%list_elem_of_filter)%list_elem_of_fmap.
    apply elem_of_map_to_list in Hin. simpl in *. by simplify_eq.
Qed.

Lemma sweep_map c now : (sweep c now).1 = filter (λ kv, ¬ expired now kv.2) c.
Proof.
  apply map_eq. intros n. rewrite sweep_lookup. rewrite map_lookup_filter.
  destruct (c !! n) as [i|]; simpl; [|done].
  destruct (decide (expired now i)) as [He|He]; [by rewrite option_guard_False by auto|by rewrite option_guard_True].
Qed.

(** A nonce that is not in the table is refused, and the table kept. *)
Lemma verify_absent c nonce pk sg op h now :
  c !! nonce = None → verify c nonce pk sg op h now = (c, Err (MbAuth NonceExpired)).
Proof. intros Hn. unfold verify. by rewrite Hn. Qed.

(** Time only makes a nonce older. *)
Lemma expired_later now now' i :
  in_i64 (now - issued_at i) → in_i64 (now' - issued_at i) → now ≤ now' →
  expired now i → expired now' i.
Proof. unfold expired. intros ???. rewrite !i64_sub_small by done. lia. Qed.
End lemmas.

(** ** Properties *)

Section properties.
Context `{!Sha256, !Ed25519}.

(** What authentication proves.  [verify] succeeds exactly for a nonce the
    server issued to the hash of the presented key at most 30 seconds ago with
    a signature by that key over this nonce, operation and payload digest, and
    then removes the nonce, so the same request fails with [NonceExpired].  A
    refusal never removes a nonce that is still fresh. *)
Theorem verify_exact c nonce pk sg op h now :
  match verify c nonce pk sg op h now with
  | (c', Ok _) =>
      authentic c nonce pk sg op h now ∧ c' = delete nonce c ∧
      ∀ pk' sg' op' h' now', verify c' nonce pk' sg' op' h' now' = (c', Err (MbAuth NonceExpired))
  | (c', Err e) =>
      ¬ authentic c nonce pk sg op h now ∧ kind e = KAuth ∧
      ∀ n i, c !! n = Some i → ¬ expired now i → c' !! n = Some i
  end.
Proof.
  destruct (verify c nonce pk sg op h now) as [c' [[]|e]] eqn:E.
  - apply verify_Ok in E as [Ha ->]. split_and!; [done..|]. intros.
    by rewrite verify_absent by apply lookup_delete_eq.
  - split; [|split].
    + intros Ha. assert (verify c nonce pk sg op h now = (delete nonce c, Ok tt)) as E'
        by (by apply verify_Ok). congruence.
    + unfold verify in E. repeat case_match; by simplify_eq.
    + intros n i Hn Hi. unfold verify in E.
      destruct (c !! nonce) as [i'|] eqn:En; [|by simplify_eq].
      repeat case_match; simplify_eq; try done.
      destruct (decide (n = nonce)) as [->|]; [congruence|]. by rewrite lookup_delete_ne.
Qed.

(** The periodic nonce sweep changes no decision.  Every request verified
    at or after the time of a sweep has the same outcome as without it, and
    the sweep reports the number of nonces it dropped. *)
Theorem nonce_sweep_transparent c t now nonce pk sg op h :
  t ≤ now → (∀ n i, c !! n = Some i → in_i64 (t - issued_at i) ∧ in_i64 (now - issued_at i)) →
  (verify (sweep c t).1 nonce pk sg op h now).2 = (verify c nonce pk sg op h now).2 ∧
  (sweep c t).2 = challenges_len c - challenges_len (sweep c t).1.
Proof.
  intros Ht Hw. split.
  - unfold verify. rewrite sweep_lookup. destruct (c !! nonce) as [i|] eqn:E; [|done]. simpl.
    destruct (Hw _ _ E) as [? ?].
    destruct (decide (expired t i)) as [He|He]; [|by repeat case_match].
    cbn [mbind option_bind]. by rewrite decide_True by (by apply (expired_later t)).
  - unfold challenges_len, sweep, len. cbn [fst snd].
    set (stale := (filter (λ kv, expired t kv.2) (map_to_list c)).*1).
    pose proof (foldl_delete_size c stale) as Hs. rewrite <- Hs; [lia|..].
    + apply NoDup_fmap_filter. apply NoDup_fst_map_to_list.
    + intros k ([k' i] & -> & [_ Hin]%list_elem_of_filter)%list_elem_of_fmap.
      apply elem_of_map_to_list in Hin. by eexists.
Qed.
End properties.

(** ** Witnesses

    A toy scheme: the hash keeps its input, a signature is the signed string
    behind the key. *)

#[local] Instance sample_sha256 : Sha256 := λ b, b.
#[local] Instance sample_ed25519 : Ed25519 :=
  {| vk_valid _ := true; vk_verify pk m s := bool_decide (s = pk ++ m) |}.

Lemma nonce_sweep_transparent_witness :
  let c := issue (issue ∅ [Byte.x01] 100 [Byte.xaa]) [Byte.x01] 10 [Byte.xbb] in
  (sweep c 60).2 = 1 ∧
  (verify (sweep c 60).1 [Byte.xbb] [Byte.x01] [] OP_BYTE_FETCH [] 70).2
    = Err (MbAuth NonceExpired).
Proof.
  intros c. split; [vm_compute; reflexivity|].
  destruct (nonce_sweep_transparent c 60 70 [Byte.xbb] [Byte.x01] [] OP_BYTE_FETCH []) as [H _].
  - lia.
  - intros n i Hi. unfold c, issue in Hi. apply lookup_insert_Some in Hi as [[_ <-]|[_ Hi]].
    + simpl. widths.
    + apply lookup_insert_Some in Hi as [[_ <-]|[_ Hi]]; [simpl; widths|]. by rewrite lookup_empty in Hi.
  - rewrite H. vm_compute. reflexivity.
Defined.
