(* ===== verification/DepositStore.v ===== *)
(** * DepositStore: what the mailbox server relies on from its store

    The request handlers use the store through four operations.  [DepositStore]
    is that interface over an abstract state with its rows as a view, and
    [DepositStoreLaws] what the operations promise under the operator's limits;
    the handlers and the server are modelled and proved against the two
    classes.  The instance for [MailboxStore.Store] discharges the laws. *)

From S2P Require Import Prelude MailboxProtocol MailboxStore.

Class DepositStore (S : Type) : Type := {
  ds_rows : S → list DepositRow;
  ds_insert : S → bytes → bytes → Z → Z → Z → Z → Z → Z → bytes → S * result bytes MailboxError;
  ds_fetch : S → bytes → Z → S * result (list StoredDeposit) MailboxError;
  ds_delete : S → bytes → list bytes → S * result (Z * Z) MailboxError;
  ds_expire_sweep : S → Z → S * result Z MailboxError
}.

Class DepositStoreLaws (S : Type) `{!DepositStore S} (L : limits) : Type := {
  ds_inv : S → Prop;
  (** An accepted deposit adds its row and drops only expired ones; a refused
      one changes no row. *)
  ds_insert_law s rh ct deposited expires now id s' r :
    ds_inv s → len ct ≤ i64_max →
    ds_insert s rh ct deposited expires (lim_recipient L) (lim_global L) (lim_recipients L) now id
      = (s', r) →
    ds_inv s' ∧
    match r with
    | Ok id' => id' = id ∧ ∃ kept, evicted now (ds_rows s) kept ∧
        ds_rows s' = kept ++ [mkDepositRow id rh ct deposited expires]
    | Err _ => ds_rows s' = ds_rows s
    end;
  (** A fetch reads the recipient's unexpired rows, oldest first. *)
  ds_fetch_law s rh now s' r :
    ds_fetch s rh now = (s', r) →
    s' = s ∧ ∀ ds, r = Ok ds →
      ds = to_stored <$> order_by deposited_at (visible rh now (ds_rows s));
  (** A delete removes the listed rows of the recipient. *)
  ds_delete_law s rh ids s' r :
    ds_inv s → ds_delete s rh ids = (s', r) →
    ds_inv s' ∧
    match r with
    | Ok _ => ds_rows s' = filter (λ row, ¬ delete_hit rh ids row) (ds_rows s)
    | Err _ => ds_rows s' = ds_rows s
    end;
  (** A sweep drops expired rows. *)
  ds_sweep_law s now s' r :
    ds_inv s → ds_expire_sweep s now = (s', r) → ds_inv s' ∧ evicted now (ds_rows s) (ds_rows s')
}.

#[export] Instance sqlite_store : DepositStore Store := {|
  ds_rows := rows;
  ds_insert := insert;
  ds_fetch := fetch;
  ds_delete := delete;
  ds_expire_sweep := expire_sweep
|}.

Lemma insert_law L s rh ct deposited expires now id s' r :
  valid_limits L → caps_hold L s → len ct ≤ i64_max →
  insert s rh ct deposited expires (lim_recipient L) (lim_global L) (lim_recipients L) now id
    = (s', r) →
  caps_hold L s' ∧
  match r with
  | Ok id' => id' = id ∧ ∃ kept, evicted now (rows s) kept ∧
      rows s' = kept ++ [mkDepositRow id rh ct deposited expires]
  | Err _ => rows s' = rows s
  end.
Proof.
  intros HL Hc Hct E. split.
  { pose proof (insert_caps_hold L s rh ct deposited expires now id HL Hct Hc) as H.
    unfold store_insert in H. by rewrite E in H. }
  destruct s as [rs [|]]; [by injection E as <- <-|].
  destruct HL as (Hr & Hg & Hm), Hc as [Hu _ Hglob _].
  pose proof (insert_cases rh ct deposited expires (lim_recipient L) (lim_global L)
    (lim_recipients L) now id Hct Hr ltac:(widths) rs Hu ltac:(simpl in *; lia)) as H.
  rewrite E in H. destruct r as [id'|e]; [|by destruct H as [-> _]].
  destruct H as (-> & _ & _ & rs1 & rs2 & H1 & H2 & -> & _). split; [done|].
  exists rs2. split; [by eapply evicted_trans|done].
Qed.

Lemma fetch_law s rh now s' r :
  fetch s rh now = (s', r) →
  s' = s ∧ ∀ ds, r = Ok ds → ds = to_stored <$> order_by deposited_at (visible rh now (rows s)).
Proof.
  destruct s as [rs [|]]; [by intros [= <- <-]|]. rewrite fetch_eq. intros [= <- <-].
  split; [done|]. by intros ds [= <-].
Qed.

Lemma delete_law L s rh ids s' r :
  valid_limits L → caps_hold L s → delete s rh ids = (s', r) →
  caps_hold L s' ∧
  match r with
  | Ok _ => rows s' = filter (λ row, ¬ delete_hit rh ids row) (rows s)
  | Err _ => rows s' = rows s
  end.
Proof.
  intros HL Hc E. split.
  { assert (s' = (delete s rh ids).1) as -> by (by rewrite E).
    eapply step_caps_hold; [done..|]. constructor. }
  destruct s as [rs [|]]; [by injection E as <- <-|].
  unfold delete, with_lock, transaction in E. cbn [poisoned rows] in E.
  pose proof (delete_ids_rows rh ids 0 rs) as Hrows.
  destruct (delete_ids rh ids 0 rs) as [rs' n]. by injection E as <- <-.
Qed.

Lemma sweep_law L s now s' r :
  valid_limits L → caps_hold L s → expire_sweep s now = (s', r) →
  caps_hold L s' ∧ evicted now (rows s) (rows s').
Proof.
  intros HL Hc E. split.
  { assert (s' = (expire_sweep s now).1) as -> by (by rewrite E).
    eapply step_caps_hold; [done..|]. constructor. }
  destruct s as [rs [|]]; [injection E as <- <-; apply evicted_refl|].
  injection E as <- _. split; [apply sublist_filter|]. intros Q ? HQ.
  apply filter_filter_in. intros r' _ ?%HQ. lia.
Qed.

#[export] Program Instance sqlite_store_laws L (HL : valid_limits L) : DepositStoreLaws Store L :=
  {| ds_inv := caps_hold L |}.
Next Obligation. intros L HL s **. by eapply insert_law. Qed.
Next Obligation. intros L HL s **. by apply fetch_law. Qed.
Next Obligation. intros L HL s **. by eapply delete_law. Qed.
Next Obligation. intros L HL s **. by eapply sweep_law. Qed.
