(* ===== verification/MailboxDispatch.v ===== *)
(** * MailboxDispatch: the request handlers of the mailbox server

    [crates/mailbox/src/dispatch.rs].  A handler is an [action] on the context
    of references it borrows: what it did before an error (a token taken from a
    bucket, an expired nonce dropped) stays.  The store is used through
    [DepositStore]; the random deposit id and nonce are arguments. *)

From S2P Require Import Prelude Framing SimpleCodec MailboxProtocol MailboxStore MailboxCodec.
From S2P Require Import Float64 MailboxPolicy MailboxAuth DepositStore.

Record DispatchCtx (S : Type) : Type := mkDispatchCtx {
  store : S;
  policy : Policy;
  challenges : Challenges;
  challenges_poisoned : bool;
  conn_rl : ConnRateLimiter;
  conn_rl_poisoned : bool;
  global_rl : GlobalRateLimiter
}.
Arguments mkDispatchCtx {S} _ _ _ _ _ _ _.
Arguments store {S} _.
Arguments policy {S} _.
Arguments challenges {S} _.
Arguments challenges_poisoned {S} _.
Arguments conn_rl {S} _.
Arguments conn_rl_poisoned {S} _.
Arguments global_rl {S} _.

Definition check_version (version : Z) : result unit MailboxError :=
  if decide (version ≠ PROTOCOL_VERSION) then Err (MbTransport UnsupportedVersion) else Ok tt.

(** The message of an [ErrorBody]: fixed prose per error. *)
Definition error_message (err : MailboxError) : string :=
  match err with
  | MbAuth _ => "auth failed"
  | MbPolicy TooLarge => "too large"
  | MbPolicy TtlTooLong => "ttl too long"
  | MbPolicy TtlTooShort => "ttl too short"
  | MbPolicy RateLimited => "rate limited"
  | MbPolicy RecipientFull => "recipient full"
  | MbPolicy ServerFull => "server full"
  | MbPolicy RecipientLimit => "recipient limit"
  | MbPolicy TooManyDeleteIds => "too many delete ids"
  | MbTransport UnsupportedVersion => "unsupported version"
  | MbTransport (DecodeFailed _) => "malformed request"
  | _ => "internal error"
  end.

Definition error_frame (err : MailboxError) : MailboxFrame :=
  MF_Error (mkErrorBody (to_wire_code err) (error_message err)).

Section handlers.
Context {S : Type} `{!DepositStore S, !Sha256, !Ed25519}.
(** CBOR of the two tuples a client signs. *)
Context `{!Serialize (Z * bytes * bytes), !Serialize (Z * bytes * bytes * list bytes)}.

Abbreviation handler T := (action (DispatchCtx S) T MailboxError).

(** [ctx.conn_rl.lock()?] and a bucket of it. *)
Definition acquire_conn_deposit (now_secs_f : f64) : handler unit := λ ctx,
  if conn_rl_poisoned ctx then (ctx, Err (MbPolicy PolicyPoisoned))
  else
    let '(b, r) := try_acquire (deposits (conn_rl ctx)) now_secs_f in
    (mkDispatchCtx (store ctx) (policy ctx) (challenges ctx) (challenges_poisoned ctx)
       (mkConnRateLimiter b (fetches (conn_rl ctx))) false (global_rl ctx), r).

Definition acquire_conn_fetch (now_secs_f : f64) : handler unit := λ ctx,
  if conn_rl_poisoned ctx then (ctx, Err (MbPolicy PolicyPoisoned))
  else
    let '(b, r) := try_acquire (fetches (conn_rl ctx)) now_secs_f in
    (mkDispatchCtx (store ctx) (policy ctx) (challenges ctx) (challenges_poisoned ctx)
       (mkConnRateLimiter (deposits (conn_rl ctx)) b) false (global_rl ctx), r).

(** [ctx.global_rl.try_acquire]. *)
Definition acquire_global (now_secs_f : f64) : handler unit := λ ctx,
  let '(g, r) := global_try_acquire (global_rl ctx) now_secs_f in
  (mkDispatchCtx (store ctx) (policy ctx) (challenges ctx) (challenges_poisoned ctx)
     (conn_rl ctx) (conn_rl_poisoned ctx) g, r).

(** [ctx.challenges.lock()?] around an operation on the table. *)
Definition with_challenges {T} (op : Challenges → Challenges * result T MailboxError)
    : handler T := λ ctx,
  if challenges_poisoned ctx then (ctx, Err (MbAuth AuthPoisoned))
  else
    let '(c, r) := op (challenges ctx) in
    (mkDispatchCtx (store ctx) (policy ctx) c false
       (conn_rl ctx) (conn_rl_poisoned ctx) (global_rl ctx), r).

Definition with_store {T} (op : S → S * result T MailboxError) : handler T := λ ctx,
  let '(s, r) := op (store ctx) in
  (mkDispatchCtx s (policy ctx) (challenges ctx) (challenges_poisoned ctx)
     (conn_rl ctx) (conn_rl_poisoned ctx) (global_rl ctx), r).

Definition handle_deposit (body : Deposit) (now : Z) (now_secs_f : f64) (id : bytes)
    : handler MailboxFrame :=
  let! _ := lift (check_version (d_version body)) in
  let! p := gets policy in
  let! _ := ensure
    (bool_decide (u64_try_from_or_max (len (d_ciphertext body)) ≤ max_deposit_size p))
    (MbPolicy TooLarge) in
  let! _ := acquire_conn_deposit now_secs_f in
  let! _ := acquire_global now_secs_f in
  let! ttl := lift (resolve_ttl p (d_ttl_request body)) in
  let expires_at := i64_saturating_add now ttl in
  let! id := with_store (λ s,
    ds_insert s (d_recipient_hash body) (d_ciphertext body) now expires_at
      (recipient_cap_bytes p) (global_storage_cap_bytes p) (max_recipients p) now id) in
  lift (Ok (MF_DepositOk (mkDepositOk id expires_at))).

Definition handle_challenge (body : Challenge) (now : Z) (nonce : bytes) : handler MailboxFrame :=
  let! _ := lift (check_version (c_version body)) in
  let! nonce := with_challenges (λ c, (issue c (c_identity_hash body) now nonce, Ok nonce)) in
  lift (Ok (MF_ChallengeNonce (mkChallengeNonce nonce now))).

Definition handle_fetch (body : Fetch) (now : Z) (now_secs_f : f64) : handler MailboxFrame :=
  let! _ := lift (check_version (f_version body)) in
  let! _ := acquire_conn_fetch now_secs_f in
  let! digest := lift (payload_digest (f_version body, f_identity_pubkey body, f_nonce body)) in
  let! _ := with_challenges (λ c,
    verify c (f_nonce body) (f_identity_pubkey body) (f_signature body) OP_BYTE_FETCH digest now) in
  let recipient_hash := sha256 (f_identity_pubkey body) in
  let! stored := with_store (λ s, ds_fetch s recipient_hash now) in
  let deposits := (λ s, mkPendingDeposit (sd_deposit_id s) (sd_ciphertext s) (sd_received_at s))
    <$> stored in
  lift (Ok (MF_FetchResponse (mkFetchResponse deposits))).

Definition handle_delete (body : Delete) (now : Z) : handler MailboxFrame :=
  let! _ := lift (check_version (del_version body)) in
  let! p := gets policy in
  let! _ := ensure (bool_decide (len (del_deposit_ids body) ≤ max_delete_ids p))
    (MbPolicy TooManyDeleteIds) in
  let! digest := lift (payload_digest
    (del_version body, del_identity_pubkey body, del_nonce body, del_deposit_ids body)) in
  let! _ := with_challenges (λ c,
    verify c (del_nonce body) (del_identity_pubkey body) (del_signature body)
      OP_BYTE_DELETE digest now) in
  let recipient_hash := sha256 (del_identity_pubkey body) in
  let! (deleted, not_found) := with_store (λ s, ds_delete s recipient_hash (del_deposit_ids body)) in
  lift (Ok (MF_DeleteOk (mkDeleteOk deleted not_found))).
End handlers.

(** ** What each handler does

    Every outcome of a handler with its effect on the context. *)

Section handler_facts.
Context {S : Type} `{!DepositStore S, !Sha256, !Ed25519}.
Context `{!Serialize (Z * bytes * bytes), !Serialize (Z * bytes * bytes * list bytes)}.
Implicit Types (ctx : DispatchCtx S).

(** Runs a handler symbolically: all its branches, with the state they leave. *)
Ltac run_handler :=
  unfold bind_action, lift, gets, ensure, check_version, acquire_conn_deposit, acquire_conn_fetch,
    acquire_global, with_store, with_challenges;
  cbn -[try_acquire global_try_acquire ds_insert ds_fetch ds_delete decide bool_decide verify
    payload_digest];
  intros E; repeat case_match; simplify_eq/=.

Definition insert_for ctx (body : Deposit) (now ttl : Z) (id : bytes) : S * result bytes MailboxError :=
  ds_insert (store ctx) (d_recipient_hash body) (d_ciphertext body) now
    (i64_saturating_add now ttl) (recipient_cap_bytes (policy ctx))
    (global_storage_cap_bytes (policy ctx)) (max_recipients (policy ctx)) now id.

Lemma handle_deposit_cases ctx body now now_f id ctx' r :
  handle_deposit body now now_f id ctx = (ctx', r) →
  policy ctx' = policy ctx ∧ challenges ctx' = challenges ctx ∧
  challenges_poisoned ctx' = challenges_poisoned ctx ∧
  match r with
  | Ok f => ∃ ttl id', d_version body = PROTOCOL_VERSION ∧
      u64_try_from_or_max (len (d_ciphertext body)) ≤ max_deposit_size (policy ctx) ∧
      resolve_ttl (policy ctx) (d_ttl_request body) = Ok ttl ∧
      f = MF_DepositOk (mkDepositOk id' (i64_saturating_add now ttl)) ∧
      insert_for ctx body now ttl id = (store ctx', Ok id')
  | Err e => store ctx' = store ctx ∨ ∃ ttl,
      u64_try_from_or_max (len (d_ciphertext body)) ≤ max_deposit_size (policy ctx) ∧
      insert_for ctx body now ttl id = (store ctx', Err e)
  end.
Proof.
  unfold handle_deposit, insert_for. run_handler; split_and!; try done; try (by left).
  - do 2 eexists. split_and!; try done; [by apply dec_stable|by eapply bool_decide_eq_true_1].
  - right. eexists. split; [by eapply bool_decide_eq_true_1|done].
Qed.

Lemma deposit_size_fits (ct : bytes) max :
  u64_try_from_or_max (len ct) ≤ max → max ≤ i64_max → len ct ≤ i64_max.
Proof. pose proof (len_nonneg ct). widths. Qed.

Lemma handle_challenge_cases ctx body now nonce ctx' r :
  handle_challenge body now nonce ctx = (ctx', r) →
  policy ctx' = policy ctx ∧ store ctx' = store ctx ∧
  challenges_poisoned ctx' = challenges_poisoned ctx ∧
  match r with
  | Ok f => f = MF_ChallengeNonce (mkChallengeNonce nonce now) ∧
      challenges ctx' = issue (challenges ctx) (c_identity_hash body) now nonce
  | Err _ => challenges ctx' = challenges ctx
  end.
Proof. unfold handle_challenge. run_handler; done. Qed.

Definition to_pending (s : StoredDeposit) : PendingDeposit :=
  mkPendingDeposit (sd_deposit_id s) (sd_ciphertext s) (sd_received_at s).

Lemma handle_fetch_cases ctx body now now_f ctx' r :
  handle_fetch body now now_f ctx = (ctx', r) →
  policy ctx' = policy ctx ∧ challenges_poisoned ctx' = challenges_poisoned ctx ∧
  (challenges ctx' = challenges ctx ∧ store ctx' = store ctx ∧ (∃ e, r = Err e) ∨
   ∃ digest v, payload_digest (f_version body, f_identity_pubkey body, f_nonce body) = Ok digest ∧
     verify (challenges ctx) (f_nonce body) (f_identity_pubkey body) (f_signature body)
       OP_BYTE_FETCH digest now = (challenges ctx', v) ∧
     ((v ≠ Ok tt ∧ store ctx' = store ctx ∧ ∃ e, r = Err e) ∨
      (v = Ok tt ∧ ∃ rf, ds_fetch (store ctx) (sha256 (f_identity_pubkey body)) now
          = (store ctx', rf) ∧
         r = (let? ds := rf in Ok (MF_FetchResponse (mkFetchResponse (to_pending <$> ds))))))).
Proof.
  unfold handle_fetch. run_handler; split_and!; try done;
    try (by left; split_and!; eauto); right; do 2 eexists; (split; [done|]); (split; [done|]).
  all: first [by left; split_and!; eauto
             | right; split; [by repeat match goal with t : unit |- _ => destruct t end
                             |by eexists]].
Qed.

Lemma handle_delete_cases ctx body now ctx' r :
  handle_delete body now ctx = (ctx', r) →
  policy ctx' = policy ctx ∧ challenges_poisoned ctx' = challenges_poisoned ctx ∧
  (challenges ctx' = challenges ctx ∧ store ctx' = store ctx ∧ (∃ e, r = Err e) ∨
   ∃ digest v, len (del_deposit_ids body) ≤ max_delete_ids (policy ctx) ∧
     payload_digest
       (del_version body, del_identity_pubkey body, del_nonce body, del_deposit_ids body) = Ok digest ∧
     verify (challenges ctx) (del_nonce body) (del_identity_pubkey body) (del_signature body)
       OP_BYTE_DELETE digest now = (challenges ctx', v) ∧
     ((v ≠ Ok tt ∧ store ctx' = store ctx ∧ ∃ e, r = Err e) ∨
      (v = Ok tt ∧ ∃ rd, ds_delete (store ctx) (sha256 (del_identity_pubkey body))
            (del_deposit_ids body) = (store ctx', rd) ∧
         r = (let? (d, n) := rd in Ok (MF_DeleteOk (mkDeleteOk d n)))))).
Proof.
  unfold handle_delete. run_handler; split_and!; try done;
    try (by left; split_and!; eauto); right; do 2 eexists;
    (split; [by eapply bool_decide_eq_true_1|]); (split; [done|]); (split; [done|]).
  all: first [by left; split_and!; eauto
             | right; split; [by repeat match goal with t : unit |- _ => destruct t end
                             |by eexists]].
Qed.
End handler_facts.

(** ** Properties *)

Section properties.
Context `{!Sha256, !Ed25519}.
Context `{!Serialize (Z * bytes * bytes), !Serialize (Z * bytes * bytes * list bytes)}.

(** A fetch returns the owner's deposits to the owner only.  A
    [FetchResponse] is sent only for an authentic request, it lists exactly the
    unexpired deposits stored for the hash of the authenticated key, oldest
    first, and the nonce is spent.  No fetch, answered or refused, changes the
    stored deposits. *)
Theorem fetch_authorized (ctx ctx' : DispatchCtx Store) body now now_f r :
  handle_fetch body now now_f ctx = (ctx', r) →
  store ctx' = store ctx ∧
  ∀ f, r = Ok f → ∃ digest,
    payload_digest (f_version body, f_identity_pubkey body, f_nonce body) = Ok digest ∧
    authentic (challenges ctx) (f_nonce body) (f_identity_pubkey body) (f_signature body)
      OP_BYTE_FETCH digest now ∧
    challenges ctx' = base.delete (f_nonce body) (challenges ctx) ∧
    f = MF_FetchResponse (mkFetchResponse (to_pending <$> (to_stored <$>
          order_by deposited_at (visible (sha256 (f_identity_pubkey body)) now (rows (store ctx)))))).
Proof.
  intros (_ & _ & Hcase)%handle_fetch_cases.
  destruct Hcase as [(_ & -> & e & ->)|(digest & v & Hd & Hv & Hrest)]; [done|].
  destruct Hrest as [(_ & -> & e & ->)|(-> & rf & Hf & ->)]; [done|].
  apply verify_Ok in Hv as [Ha Hc]. apply fetch_law in Hf as [Hs Hds].
  split; [done|]. intros f Hok. destruct rf as [ds|e]; [|done]. injection Hok as <-.
  exists digest. by rewrite (Hds ds eq_refl).
Qed.

(** C21: only the owner deletes.  A deposit leaves the store in a [Delete] only
    when the request is authentic for the deposit's recipient and lists its id,
    and then [DeleteOk] counts exactly the deposits removed and the ids that
    named none.  A refused delete removes nothing. *)
Theorem delete_authorized (ctx ctx' : DispatchCtx Store) body now r :
  unique_ids (rows (store ctx)) → in_u32 (max_delete_ids (policy ctx)) →
  poisoned (store ctx) = false →
  handle_delete body now ctx = (ctx', r) →
  match r with
  | Ok f => ∃ digest,
      let rh := sha256 (del_identity_pubkey body) in
      let gone := filter (delete_hit rh (del_deposit_ids body)) (rows (store ctx)) in
      payload_digest (del_version body, del_identity_pubkey body, del_nonce body,
        del_deposit_ids body) = Ok digest ∧
      authentic (challenges ctx) (del_nonce body) (del_identity_pubkey body) (del_signature body)
        OP_BYTE_DELETE digest now ∧
      challenges ctx' = base.delete (del_nonce body) (challenges ctx) ∧
      rows (store ctx') =
        filter (λ row, ¬ delete_hit rh (del_deposit_ids body) row) (rows (store ctx)) ∧
      f = MF_DeleteOk (mkDeleteOk (len gone) (len (del_deposit_ids body) - len gone))
  | Err _ => store ctx' = store ctx
  end.
Proof.
  intros Hu Hmax Hp (_ & _ & Hcase)%handle_delete_cases.
  destruct Hcase as [(_ & -> & e & ->)|(digest & v & Hlen & Hd & Hv & Hrest)]; [done|].
  destruct Hrest as [(_ & -> & e & ->)|(-> & rd & Hdel & ->)]; [done|].
  apply verify_Ok in Hv as [Ha Hc]. destruct (store ctx) as [rs p] eqn:Es. cbn in Hp. subst p.
  simpl in Hdel, Hu. rewrite delete_rows_exact in Hdel by (done || widths).
  injection Hdel as Hs <-. simpl. exists digest. rewrite <- Hs. done.
Qed.

(** What a deposit does.  On success the row is in the store under the id
    returned, for the requested recipient, with an expiry between the policy's
    bounds; every row unexpired at that time is still there and no other row
    appears.  On a refusal the rows are unchanged.  Nonces are never touched. *)
Theorem deposit_effect L (ctx ctx' : DispatchCtx Store) body now now_f id r :
  valid_limits L → caps_hold L (store ctx) →
  L = mkLimits (recipient_cap_bytes (policy ctx)) (global_storage_cap_bytes (policy ctx))
        (max_recipients (policy ctx)) →
  in_u64 (max_deposit_size (policy ctx)) → max_deposit_size (policy ctx) ≤ i64_max →
  0 ≤ now → 0 ≤ min_ttl_secs (policy ctx) ≤ default_ttl_secs (policy ctx) →
  default_ttl_secs (policy ctx) ≤ max_ttl_secs (policy ctx) →
  now + max_ttl_secs (policy ctx) ≤ i64_max →
  handle_deposit body now now_f id ctx = (ctx', r) →
  challenges ctx' = challenges ctx ∧ caps_hold L (store ctx') ∧
  match r with
  | Ok f => ∃ expires kept,
      f = MF_DepositOk (mkDepositOk id expires) ∧
      now + min_ttl_secs (policy ctx) ≤ expires ≤ now + max_ttl_secs (policy ctx) ∧
      evicted now (rows (store ctx)) kept ∧
      rows (store ctx') =
        kept ++ [mkDepositRow id (d_recipient_hash body) (d_ciphertext body) now expires]
  | Err _ => rows (store ctx') = rows (store ctx)
  end.
Proof.
  intros HL Hcaps -> Hmax Hmaxi Hnow Hmin Hdef Hend (_ & Hch & _ & Hcase)%handle_deposit_cases.
  split; [done|]. destruct r as [f|e].
  - destruct Hcase as (ttl & id' & _ & Hsz & Httl & -> & Hins).
    apply (insert_law _ _ _ _ _ _ _ _ _ _ HL Hcaps) in Hins as (Hc' & -> & kept & Hev & Hrows);
      [|by eapply deposit_size_fits].
    apply resolve_ttl_bounds in Httl; [|lia]. split; [done|]. do 2 eexists. split; [done|].
    split; [widths|done].
  - destruct Hcase as [->|(ttl & Hsz & Hins)]; [done|].
    apply (insert_law _ _ _ _ _ _ _ _ _ _ HL Hcaps) in Hins; [done|by eapply deposit_size_fits].
Qed.
End properties.

(** ** Witnesses *)

#[local] Existing Instance sample_sha256.
#[local] Existing Instance sample_ed25519.
#[local] Existing Instance serialize_of.

Definition sample_key : bytes := fill 32 Byte.x11.
Definition sample_nonce : bytes := fill 32 Byte.x77.

(** A server with two stored deposits of one recipient, one of them expired at
    time 200, and a nonce issued to that recipient at 190. *)
Definition sample_ctx : DispatchCtx Store :=
  mkDispatchCtx (mkStore sample_rows false) recommended
    (issue ∅ sample_key 190 sample_nonce) false
    (conn_from_policy recommended (f64_of_Z 200)) false
    (global_from_policy recommended (f64_of_Z 200)).

Lemma sample_caps :
  caps_hold (mkLimits 268435456 default_global_storage_cap_bytes 100000) (store sample_ctx).
Proof.
  split.
  - apply sample_unique.
  - intros rh. cbn [lim_recipient store sample_ctx rows].
    pose proof (sum_size_filter (λ r, recipient_hash r = rh) sample_rows) as H.
    unfold for_recipient. etrans; [exact H|]. vm_compute. discriminate.
  - vm_compute. discriminate.
  - vm_compute. discriminate.
Qed.

Definition sample_sign (op : byte) (digest : result bytes MailboxError) : bytes :=
  match digest with Ok d => sample_key ++ signing_input sample_nonce op d | Err _ => [] end.

Definition sample_fetch : Fetch :=
  mkFetch 1 sample_key sample_nonce
    (sample_sign OP_BYTE_FETCH (payload_digest (1, sample_key, sample_nonce))).

Definition sample_delete (ids : list bytes) : Delete :=
  mkDelete 1 sample_key sample_nonce
    (sample_sign OP_BYTE_DELETE (payload_digest (1, sample_key, sample_nonce, ids))) ids.

Lemma fetch_authorized_witness :
  let '(ctx', r) := handle_fetch sample_fetch 200 (f64_of_Z 200) sample_ctx in
  r = Ok (MF_FetchResponse (mkFetchResponse
         [mkPendingDeposit (fill 16 Byte.x02) (fill 4 Byte.x02) 100])) ∧
  store ctx' = store sample_ctx ∧ challenges ctx' !! sample_nonce = None.
Proof.
  destruct (handle_fetch _ _ _ _) as [ctx' r] eqn:E.
  pose proof (fetch_authorized _ _ _ _ _ _ E) as [Hs Hf].
  assert (r = (handle_fetch sample_fetch 200 (f64_of_Z 200) sample_ctx).2) as Hr by (by rewrite E).
  rewrite Hr in Hf |- *. split; [vm_compute; reflexivity|]. split; [exact Hs|].
  destruct (Hf _ eq_refl) as (digest & _ & _ & -> & _). apply lookup_delete_eq.
Defined.

Lemma delete_authorized_witness :
  let '(ctx', r) := handle_delete (sample_delete [fill 16 Byte.x02; fill 16 Byte.x09]) 200 sample_ctx in
  r = Ok (MF_DeleteOk (mkDeleteOk 1 1)) ∧ rows (store ctx') = [sample_row Byte.x01 4 110].
Proof.
  destruct (handle_delete _ _ _) as [ctx' r] eqn:E.
  pose proof (delete_authorized sample_ctx _ _ _ _ sample_unique ltac:(vm_compute; done) eq_refl E) as H.
  assert (r = (handle_delete (sample_delete [fill 16 Byte.x02; fill 16 Byte.x09]) 200 sample_ctx).2)
    as Hr by (by rewrite E).
  rewrite Hr in H |- *. split; [vm_compute; reflexivity|].
  destruct H as (digest & _ & _ & _ & -> & _). vm_compute. reflexivity.
Defined.

Lemma deposit_effect_witness :
  let body := mkDeposit 1 sample_key (fill 3 Byte.x05) 0 in
  let '(ctx', r) := handle_deposit body 200 (f64_of_Z 200) (fill 16 Byte.x07) sample_ctx in
  r = Ok (MF_DepositOk (mkDepositOk (fill 16 Byte.x07) 605000)) ∧
  challenges ctx' = challenges sample_ctx.
Proof.
  intros body. destruct (handle_deposit _ _ _ _ _) as [ctx' r] eqn:E.
  pose proof (deposit_effect (mkLimits 268435456 default_global_storage_cap_bytes 100000)
    sample_ctx _ body 200 _ _ _ ltac:(vm_compute; repeat split; discriminate)
    sample_caps eq_refl ltac:(vm_compute; done) ltac:(vm_compute; done)
    ltac:(lia) ltac:(vm_compute; done) ltac:(vm_compute; done) ltac:(vm_compute; done) E) as [Hc _].
  split; [|exact Hc].
  assert (r = (handle_deposit body 200 (f64_of_Z 200) (fill 16 Byte.x07) sample_ctx).2)
    as -> by (by rewrite E).
  vm_compute. reflexivity.
Defined.
