(* ===== verification/MailboxServer.v ===== *)
(** * MailboxServer: connections, the accept loop and the background sweeps

    [crates/mailbox/src/server.rs] and [crates/mailbox/src/background.rs].  The
    server and its connections form a [World]; an event is one thing that can
    happen to it: a connection arrives, bytes arrive, the accept loop of a
    connection makes one iteration, a peer closes or idles out, a background
    task ticks.  [step] is the whole effect of an event, and a run is any
    sequence of events: all interleavings of connections and tasks.  Each
    iteration of the accept loop reads the clock and the random generator, whose
    values are part of the event. *)

From S2P Require Import Prelude Framing SimpleCodec MailboxProtocol MailboxStore MailboxCodec.
From S2P Require Import Float64 MailboxPolicy MailboxAuth DepositStore MailboxDispatch.

Record MailboxServer (S : Type) : Type := mkMailboxServer {
  sv_store : S;
  sv_policy : Policy;
  sv_challenges : Challenges;
  sv_challenges_poisoned : bool;
  sv_global_rl : GlobalRateLimiter;
  sv_permits : Z
}.
Arguments mkMailboxServer {S} _ _ _ _ _ _.
Arguments sv_store {S} _.
Arguments sv_policy {S} _.
Arguments sv_challenges {S} _.
Arguments sv_challenges_poisoned {S} _.
Arguments sv_global_rl {S} _.
Arguments sv_permits {S} _.

(** [MailboxServer::new]. *)
Definition server_new {S} (store : S) (policy : Policy) (now_secs_f : f64) : MailboxServer S :=
  mkMailboxServer store policy ∅ false (global_from_policy policy now_secs_f)
    (max_connections policy).

(** A running accept loop: the unread bytes of its [Framed] wrapper and the
    connection's rate limiter. *)
Record Conn : Type := mkConn { cn_buffer : bytes; cn_rl : ConnRateLimiter }.

Record World (S : Type) : Type := mkWorld { w_server : MailboxServer S; w_conns : gmap nat Conn }.
Arguments mkWorld {S} _ _.
Arguments w_server {S} _.
Arguments w_conns {S} _.

(** The clocks and random bytes one iteration reads. *)
Record Oracle : Type := mkOracle {
  o_now : Z;
  o_now_f : f64;
  o_id : bytes;
  o_nonce : bytes
}.

Inductive event : Type :=
| EvConnect (cid : nat) (now_f : f64)
| EvBytes (cid : nat) (data : bytes)
| EvLoop (cid : nat) (o : Oracle)
| EvClose (cid : nat)
| EvExpireSweep (now : Z)
| EvChallengeSweep (now : Z).

(** What one loop iteration answered. *)
Inductive reply : Type :=
| NoReply
| Reply (frame : MailboxFrame) (wire : bytes)
| Hangup (frame : MailboxFrame).

Section server.
Context {S : Type} `{!DepositStore S, !Sha256, !Ed25519}.
Context `{!Serialize (Z * bytes * bytes), !Serialize (Z * bytes * bytes * list bytes)}.
Context {wire : MailboxWire}.

(** The [match frame] of [accept_loop]. *)
Definition dispatch (frame : MailboxFrame) (o : Oracle) : action (DispatchCtx S) MailboxFrame MailboxError :=
  match frame with
  | MF_Deposit b => handle_deposit b (o_now o) (o_now_f o) (o_id o)
  | MF_Challenge b => handle_challenge b (o_now o) (o_nonce o)
  | MF_Fetch b => handle_fetch b (o_now o) (o_now_f o)
  | MF_Delete b => handle_delete b (o_now o)
  | _ => lift (Err (MbTransport (DecodeFailed "unexpected client frame")))
  end.

(** The context borrowed for one request, and the server after it. *)
Definition make_ctx (sv : MailboxServer S) (c : Conn) : DispatchCtx S :=
  mkDispatchCtx (sv_store sv) (sv_policy sv) (sv_challenges sv) (sv_challenges_poisoned sv)
    (cn_rl c) false (sv_global_rl sv).
Definition put_ctx (sv : MailboxServer S) (ctx : DispatchCtx S) : MailboxServer S :=
  mkMailboxServer (store ctx) (sv_policy sv) (challenges ctx) (challenges_poisoned ctx)
    (global_rl ctx) (sv_permits sv).

(** Close a connection: the loop returns and its permit is released. *)
Definition close (w : World S) (cid : nat) : World S :=
  match w_conns w !! cid with
  | None => w
  | Some _ =>
      mkWorld (mkMailboxServer (sv_store (w_server w)) (sv_policy (w_server w))
                 (sv_challenges (w_server w)) (sv_challenges_poisoned (w_server w))
                 (sv_global_rl (w_server w)) (sv_permits (w_server w) + 1))
        (base.delete cid (w_conns w))
  end.

(** [framed.send(f)]: on an encoder error the loop returns [Ok(())]. *)
Definition send (w : World S) (cid : nat) (f : MailboxFrame) : World S * reply :=
  match server_encode f [] with
  | Ok b => (w, Reply f b)
  | Err _ => (close w cid, Hangup f)
  end.

(** One iteration of [accept_loop] on the bytes buffered so far.  A decoder
    error is answered with an [Error] frame and the [Framed] wrapper rebuilt,
    which abandons the buffered bytes. *)
Definition loop_iteration (w : World S) (cid : nat) (o : Oracle) : World S * reply :=
  match w_conns w !! cid with
  | None => (w, NoReply)
  | Some c =>
      match server_decode (cn_buffer c) with
      | (_, Ok None) => (w, NoReply)
      | (_, Err e) =>
          send (mkWorld (w_server w) (<[cid := mkConn [] (cn_rl c)]> (w_conns w))) cid (error_frame e)
      | (rest, Ok (Some frame)) =>
          let '(ctx, resp) := dispatch frame o (make_ctx (w_server w) c) in
          let to_send := match resp with Ok f => f | Err e => error_frame e end in
          send (mkWorld (put_ctx (w_server w) ctx)
                  (<[cid := mkConn rest (conn_rl ctx)]> (w_conns w))) cid to_send
      end
  end.

(** [serve_connection]: shed when no permit is left. *)
Definition serve_connection (w : World S) (cid : nat) (now_f : f64) : World S :=
  let sv := w_server w in
  if decide (w_conns w !! cid = None ∧ 0 < sv_permits sv) then
    mkWorld (mkMailboxServer (sv_store sv) (sv_policy sv) (sv_challenges sv)
               (sv_challenges_poisoned sv) (sv_global_rl sv) (sv_permits sv - 1))
      (<[cid := mkConn [] (conn_from_policy (sv_policy sv) now_f)]> (w_conns w))
  else w.

(** A tick of [spawn_expire_sweep] and of [spawn_challenge_sweep]. *)
Definition expire_tick (w : World S) (now : Z) : World S :=
  let sv := w_server w in
  mkWorld (mkMailboxServer (ds_expire_sweep (sv_store sv) now).1 (sv_policy sv)
    (sv_challenges sv) (sv_challenges_poisoned sv) (sv_global_rl sv) (sv_permits sv)) (w_conns w).

Definition challenge_tick (w : World S) (now : Z) : World S :=
  let sv := w_server w in
  if sv_challenges_poisoned sv then w
  else mkWorld (mkMailboxServer (sv_store sv) (sv_policy sv) (sweep (sv_challenges sv) now).1
    false (sv_global_rl sv) (sv_permits sv)) (w_conns w).

Definition step (w : World S) (ev : event) : World S * reply :=
  match ev with
  | EvConnect cid now_f => (serve_connection w cid now_f, NoReply)
  | EvBytes cid data =>
      (mkWorld (w_server w)
         (alter (λ c, mkConn (cn_buffer c ++ data) (cn_rl c)) cid (w_conns w)), NoReply)
  | EvLoop cid o => loop_iteration w cid o
  | EvClose cid => (close w cid, NoReply)
  | EvExpireSweep now => (expire_tick w now, NoReply)
  | EvChallengeSweep now => (challenge_tick w now, NoReply)
  end.

Definition run (w : World S) (evs : list event) : World S := foldl (λ w ev, (step w ev).1) w evs.

(** The request a loop iteration handles, if its buffer holds one. *)
Definition request_of (w : World S) (ev : event) : option (MailboxFrame * Oracle) :=
  match ev with
  | EvLoop cid o =>
      c ← w_conns w !! cid;
      match server_decode (cn_buffer c) with
      | (_, Ok (Some frame)) => Some (frame, o)
      | _ => None
      end
  | _ => None
  end.
End server.

(** ** What a step does to the shared state *)

Section step_facts.
Context {S : Type} `{!DepositStore S, !Sha256, !Ed25519}.
Context `{!Serialize (Z * bytes * bytes), !Serialize (Z * bytes * bytes * list bytes)}.
Context {wire : MailboxWire}.
Implicit Types (w : World S) (ev : event).

(** The frame an iteration answered with, delivered or not. *)
Definition answer (r : reply) : option MailboxFrame :=
  match r with NoReply => None | Reply f _ | Hangup f => Some f end.

Lemma send_state w cid f :
  sv_store (w_server (send w cid f).1) = sv_store (w_server w) ∧
  sv_policy (w_server (send w cid f).1) = sv_policy (w_server w) ∧
  sv_challenges (w_server (send w cid f).1) = sv_challenges (w_server w) ∧
  answer (send w cid f).2 = Some f.
Proof.
  unfold send, close. destruct (server_encode f []); simpl; [done|].
  by destruct (w_conns w !! cid).
Qed.

(** A step that handles a request runs its handler on the shared state. *)
Lemma step_request w ev frame o :
  request_of w ev = Some (frame, o) →
  ∃ c ctx resp, dispatch frame o (make_ctx (w_server w) c) = (ctx, resp) ∧
    sv_store (w_server (step w ev).1) = store ctx ∧
    sv_policy (w_server (step w ev).1) = sv_policy (w_server w) ∧
    sv_challenges (w_server (step w ev).1) = challenges ctx ∧
    answer (step w ev).2 = Some (match resp with Ok f => f | Err e => error_frame e end).
Proof.
  destruct ev as [| |cid o'| | |]; try done. simpl. intros Hr. unfold loop_iteration.
  destruct (w_conns w !! cid) as [c|]; [|done]. simpl in Hr.
  destruct (server_decode (cn_buffer c)) as [rest [[f|]|e]]; simplify_eq.
  destruct (dispatch frame o (make_ctx (w_server w) c)) as [ctx resp] eqn:E.
  exists c, ctx, resp. split; [done|].
  match goal with |- context [send ?w' cid ?f] => destruct (send_state w' cid f) as (-> & -> & -> & ->) end.
  done.
Qed.

Lemma step_sends w cid o frame :
  request_of w (EvLoop cid o) = Some (frame, o) →
  ∃ w' f, step w (EvLoop cid o) = send w' cid f ∧ is_Some (w_conns w' !! cid).
Proof.
  simpl. unfold loop_iteration. destruct (w_conns w !! cid) as [c|]; [|done]. simpl.
  destruct (server_decode (cn_buffer c)) as [rest [[f|]|e]]; try done. intros _.
  destruct (dispatch f o (make_ctx (w_server w) c)) as [ctx resp]. do 2 eexists. split; [done|].
  simpl. rewrite lookup_insert_eq. by eexists.
Qed.

(** Any other step touches the deposits or the nonces only by a sweep. *)
Lemma step_other w ev :
  request_of w ev = None →
  sv_policy (w_server (step w ev).1) = sv_policy (w_server w) ∧
  (sv_store (w_server (step w ev).1) = sv_store (w_server w) ∨
   ∃ now, ev = EvExpireSweep now ∧
     sv_store (w_server (step w ev).1) = (ds_expire_sweep (sv_store (w_server w)) now).1) ∧
  (sv_challenges (w_server (step w ev).1) = sv_challenges (w_server w) ∨
   ∃ now, sv_challenges (w_server (step w ev).1) = (sweep (sv_challenges (w_server w)) now).1) ∧
  (answer (step w ev).2 = None ∨ ∃ e, answer (step w ev).2 = Some (error_frame e)).
Proof.
  destruct ev as [cid now_f|cid data|cid o|cid|now|now]; simpl.
  - intros _. unfold serve_connection. case_decide; simpl; naive_solver.
  - naive_solver.
  - unfold loop_iteration. destruct (w_conns w !! cid) as [c|]; simpl; [|naive_solver].
    destruct (server_decode (cn_buffer c)) as [rest [[f|]|e]]; simpl; [done|naive_solver|].
    intros _.
    match goal with |- context [send ?w' cid ?f] => destruct (send_state w' cid f) as (-> & -> & -> & ->) end.
    simpl. naive_solver.
  - intros _. unfold close. destruct (w_conns w !! cid); simpl; naive_solver.
  - naive_solver.
  - intros _. unfold challenge_tick. destruct (sv_challenges_poisoned (w_server w)); simpl; naive_solver.
Qed.

Lemma run_cons w ev evs : run w (ev :: evs) = run (step w ev).1 evs.
Proof. done. Qed.
Lemma run_app w evs1 evs2 : run w (evs1 ++ evs2) = run (run w evs1) evs2.
Proof. apply foldl_app. Qed.
End step_facts.

(** ** Nonces along a run *)

Section nonces.
Context {S : Type} `{!DepositStore S, !Sha256, !Ed25519}.
Context `{!Serialize (Z * bytes * bytes), !Serialize (Z * bytes * bytes * list bytes)}.
Context {wire : MailboxWire}.
Implicit Types (w : World S) (ev : event).

(** The step answered a [Fetch] or [Delete] that presented nonce [n]. *)
Definition spends w ev (n : bytes) : Prop :=
  (∃ b o ds, request_of w ev = Some (MF_Fetch b, o) ∧ f_nonce b = n ∧
     answer (step w ev).2 = Some (MF_FetchResponse ds)) ∨
  (∃ b o d, request_of w ev = Some (MF_Delete b, o) ∧ del_nonce b = n ∧
     answer (step w ev).2 = Some (MF_DeleteOk d)).

(** The step answered a [Challenge] with nonce [n]. *)
Definition issues w ev (n : bytes) : Prop :=
  ∃ t, answer (step w ev).2 = Some (MF_ChallengeNonce (mkChallengeNonce n t)).

Definition live_nonce w (n : bytes) : Prop := is_Some (sv_challenges (w_server w) !! n).

Lemma spends_live w ev n :
  spends w ev n → live_nonce w n ∧ ¬ live_nonce (step w ev).1 n.
Proof.
  unfold live_nonce.
  intros [(b & o & ds & Hr & <- & Ha)|(b & o & d & Hr & <- & Ha)];
    destruct (step_request _ _ _ _ Hr) as (c & ctx & resp & Hd & _ & _ & -> & Hans);
    rewrite Hans in Ha; (destruct resp as [f|e]; [|done]); injection Ha as ->.
  - apply handle_fetch_cases in Hd as (_ & _ & [(_ & _ & ? & ?)|(dg & v & _ & Hv & Hrest)]); [done|].
    destruct Hrest as [(_ & _ & ? & ?)|(-> & _)]; [done|].
    apply verify_Ok in Hv as [[(i & Hi & _) _ _] ->]. simpl in *. rewrite lookup_delete_eq.
    split; [by eexists|]. by intros [].
  - apply handle_delete_cases in Hd as (_ & _ & [(_ & _ & ? & ?)|(dg & v & _ & _ & Hv & Hrest)]); [done|].
    destruct Hrest as [(_ & _ & ? & ?)|(-> & _)]; [done|].
    apply verify_Ok in Hv as [[(i & Hi & _) _ _] ->]. simpl in *. rewrite lookup_delete_eq.
    split; [by eexists|]. by intros [].
Qed.

(** A nonce enters the table only by being issued. *)
Lemma live_issued w ev n : ¬ live_nonce w n → live_nonce (step w ev).1 n → issues w ev n.
Proof.
  unfold live_nonce, issues. intros Hn Hl. apply eq_None_not_Some in Hn.
  destruct (request_of w ev) as [[frame o]|] eqn:Hr.
  - destruct (step_request _ _ _ _ Hr) as (c & ctx & resp & Hd & _ & _ & Hc & Ha).
    rewrite Hc in Hl. rewrite Ha. destruct Hl as [i Hi].
    destruct frame; simpl in Hd; try (injection Hd as <- <-; simpl in Hi; congruence).
    + apply handle_deposit_cases in Hd as (_ & Hsame & _). rewrite Hsame in Hi. simpl in Hi. congruence.
    + apply handle_challenge_cases in Hd as (_ & _ & _ & Hd). destruct resp as [f|e].
      * destruct Hd as [-> Hd]. rewrite Hd in Hi. unfold issue in Hi. simpl in Hi.
        apply lookup_insert_Some in Hi as [[-> _]|[_ Hi]]; [by eexists|congruence].
      * rewrite Hd in Hi. simpl in Hi. congruence.
    + apply handle_fetch_cases in Hd as (_ & _ & [(Hsame & _)|(dg & v & _ & Hv & _)]).
      * rewrite Hsame in Hi. simpl in Hi. congruence.
      * pose proof (verify_lookup (sv_challenges (w_server w)) (f_nonce b) (f_identity_pubkey b)
          (f_signature b) OP_BYTE_FETCH dg (o_now o) n) as Hl. simpl in Hv. rewrite Hv in Hl.
        simpl in Hl. destruct Hl as [Hl|[_ Hl]]; congruence.
    + apply handle_delete_cases in Hd as (_ & _ & [(Hsame & _)|(dg & v & _ & _ & Hv & _)]).
      * rewrite Hsame in Hi. simpl in Hi. congruence.
      * pose proof (verify_lookup (sv_challenges (w_server w)) (del_nonce b) (del_identity_pubkey b)
          (del_signature b) OP_BYTE_DELETE dg (o_now o) n) as Hl. simpl in Hv. rewrite Hv in Hl.
        simpl in Hl. destruct Hl as [Hl|[_ Hl]]; congruence.
  - apply step_other in Hr as (_ & _ & [Hc|[now Hc]] & _); rewrite Hc in Hl; [by rewrite Hn in Hl; destruct Hl|].
    rewrite sweep_lookup, Hn in Hl. by destruct Hl.
Qed.

Lemma dead_until_issued w evs n :
  ¬ live_nonce w n → live_nonce (run w evs) n →
  ∃ evs1 ev evs2, evs = evs1 ++ ev :: evs2 ∧ issues (run w evs1) ev n.
Proof.
  revert w. induction evs as [|ev evs IH]; intros w Hn Hl; [done|].
  rewrite run_cons in Hl. destruct (sv_challenges (w_server (step w ev).1) !! n) as [i|] eqn:E.
  - exists [], ev, evs. split; [done|]. apply live_issued; [done|]. by exists i.
  - destruct (IH (step w ev).1) as (evs1 & ev' & evs2 & -> & Hi); [|done|].
    { unfold live_nonce. rewrite E. by intros []. }
    by exists (ev :: evs1), ev', evs2.
Qed.
End nonces.

(** ** Deposits along a run *)

(** The limits of a policy, as the handlers pass them to the store. *)
Definition policy_limits (p : Policy) : limits :=
  mkLimits (recipient_cap_bytes p) (global_storage_cap_bytes p) (max_recipients p).

Section deposits.
Context {S : Type} `{!DepositStore S, !Sha256, !Ed25519}.
Context `{!Serialize (Z * bytes * bytes), !Serialize (Z * bytes * bytes * list bytes)}.
Context {wire : MailboxWire}.
Context (p : Policy) `{!DepositStoreLaws S (policy_limits p)}.
Context (Hmax : max_deposit_size p ≤ i64_max).
Implicit Types (w : World S) (ev : event) (r : DepositRow).

(** The state of a server running under policy [p]. *)
Record world_inv w : Prop := {
  winv_policy : sv_policy (w_server w) = p;
  winv_store : ds_inv (DepositStoreLaws := DepositStoreLaws0) (sv_store (w_server w));
  winv_permits : 0 ≤ sv_permits (w_server w);
  winv_conns : sv_permits (w_server w) + Z.of_nat (size (w_conns w)) = max_connections p
}.

Definition stored w : list DepositRow := ds_rows (sv_store (w_server w)).

(** The step carried an authentic [Delete] of [r] by its recipient. *)
Definition owner_deletes w ev r : Prop :=
  ∃ b o digest, request_of w ev = Some (MF_Delete b, o) ∧
    payload_digest (del_version b, del_identity_pubkey b, del_nonce b, del_deposit_ids b) = Ok digest ∧
    authentic (sv_challenges (w_server w)) (del_nonce b) (del_identity_pubkey b) (del_signature b)
      OP_BYTE_DELETE digest (o_now o) ∧
    recipient_hash r = sha256 (del_identity_pubkey b) ∧ deposit_id r ∈ del_deposit_ids b.

(** The step ran at a time after the expiry of [r]. *)
Definition past_expiry ev r : Prop :=
  match ev with
  | EvLoop _ o => expires_at r < o_now o
  | EvExpireSweep now => expires_at r < now
  | _ => False
  end.

Lemma evicted_keeps now rs rs' r : evicted now rs rs' → r ∈ rs → now ≤ expires_at r → r ∈ rs'.
Proof.
  intros [_ Hf] Hin Hexp. specialize (Hf (λ r', r' = r) (λ _, _) ltac:(by intros ? ->)).
  assert (r ∈ filter (λ r', r' = r) rs') as [_ ?]%list_elem_of_filter; [|done].
  rewrite Hf. by apply list_elem_of_filter.
Qed.

(** What one request does to the store. *)
Lemma dispatch_store frame o ctx ctx' resp :
  policy ctx = p → ds_inv (DepositStoreLaws := DepositStoreLaws0) (store ctx) →
  dispatch frame o ctx = (ctx', resp) →
  ds_inv (DepositStoreLaws := DepositStoreLaws0) (store ctx') ∧
  ∀ r, r ∈ ds_rows (store ctx) → r ∉ ds_rows (store ctx') →
    expires_at r < o_now o ∨
    ∃ b digest, frame = MF_Delete b ∧
      payload_digest (del_version b, del_identity_pubkey b, del_nonce b, del_deposit_ids b) = Ok digest ∧
      authentic (challenges ctx) (del_nonce b) (del_identity_pubkey b) (del_signature b)
        OP_BYTE_DELETE digest (o_now o) ∧
      recipient_hash r = sha256 (del_identity_pubkey b) ∧ deposit_id r ∈ del_deposit_ids b.
Proof.
  intros Hp Hinv Hd. destruct frame; simpl in Hd; try (injection Hd as <- <-; done).
  - apply handle_deposit_cases in Hd as (_ & _ & _ & Hcase). unfold insert_for in Hcase.
    rewrite Hp in Hcase. destruct resp as [f|e].
    + destruct Hcase as (ttl & id' & _ & Hsz & _ & _ & Hins).
      apply (ds_insert_law _ _ _ _ _ _ _ _ _ Hinv) in Hins as (? & _ & kept & Hev & Hrows);
        [|by eapply deposit_size_fits].
      split; [done|]. intros r Hin Hout. left. rewrite Hrows in Hout.
      destruct (decide (o_now o ≤ expires_at r)); [|lia].
      destruct Hout. apply elem_of_app. left. by eapply evicted_keeps.
    + destruct Hcase as [->|(ttl & Hsz & Hins)]; [done|].
      apply (ds_insert_law _ _ _ _ _ _ _ _ _ Hinv) in Hins as (? & ->); [|by eapply deposit_size_fits].
      done.
  - apply handle_challenge_cases in Hd as (_ & -> & _). done.
  - apply handle_fetch_cases in Hd as (_ & _ & [(_ & -> & _)|(dg & v & _ & _ & Hrest)]); [done|].
    destruct Hrest as [(_ & -> & _)|(_ & rf & Hf & _)]; [done|].
    apply ds_fetch_law in Hf as [-> _]. done.
  - apply handle_delete_cases in Hd as (_ & _ & [(_ & -> & _)|(dg & v & _ & Hdg & Hv & Hrest)]); [done|].
    destruct Hrest as [(_ & -> & _)|(-> & rd & Hdel & _)]; [done|].
    apply (ds_delete_law _ _ _ _ _ Hinv) in Hdel as [? Hrows]. split; [done|].
    intros r Hin Hout. right. apply verify_Ok in Hv as [Ha _].
    destruct rd as [x|e]; rewrite Hrows in Hout; [|done].
    destruct (decide (delete_hit (sha256 (del_identity_pubkey b)) (del_deposit_ids b) r)) as [[? ?]|Hno].
    + by exists b, dg.
    + destruct Hout. by apply list_elem_of_filter.
Qed.

(** The policy and the invariant of the store survive a step, and a row leaves
    it only expired or by its owner's hand. *)
Lemma step_store w ev :
  sv_policy (w_server w) = p → ds_inv (DepositStoreLaws := DepositStoreLaws0) (sv_store (w_server w)) →
  sv_policy (w_server (step w ev).1) = p ∧
  ds_inv (DepositStoreLaws := DepositStoreLaws0) (sv_store (w_server (step w ev).1)) ∧
  ∀ r, r ∈ stored w → r ∉ stored (step w ev).1 → past_expiry ev r ∨ owner_deletes w ev r.
Proof.
  intros Hp Hinv. unfold stored, owner_deletes.
  destruct (request_of w ev) as [[frame o]|] eqn:Hr.
  - destruct (step_request _ _ _ _ Hr) as (c & ctx & resp & Hd & -> & -> & _).
    apply dispatch_store in Hd as [Hinv' Hgone]; [|done..]. split_and!; [done..|].
    intros r Hin Hout. destruct (Hgone r Hin Hout) as [Hx|(b & dg & -> & ?)].
    + left. destruct ev; try done. simpl in Hr.
      by repeat (case_match || simplify_option_eq).
    + right. by exists b, o, dg.
  - destruct (step_other _ _ Hr) as (-> & [->|(now & -> & ->)] & _); [done|].
    destruct (ds_expire_sweep (sv_store (w_server w)) now) as [s' rs] eqn:E.
    apply (ds_sweep_law _ _ _ _ Hinv) in E as [? Hev]. split_and!; [done..|].
    intros r Hin Hout. left. simpl in *. destruct (decide (now ≤ expires_at r)); [|lia].
    destruct Hout. by eapply evicted_keeps.
Qed.

Lemma close_permits w cid :
  (sv_permits (w_server (close w cid)) = sv_permits (w_server w) ∨
   sv_permits (w_server (close w cid)) = sv_permits (w_server w) + 1) ∧
  sv_permits (w_server (close w cid)) + Z.of_nat (size (w_conns (close w cid))) =
    sv_permits (w_server w) + Z.of_nat (size (w_conns w)).
Proof.
  unfold close. destruct (w_conns w !! cid) as [c|] eqn:E; simpl; [|split; [by left|lia]].
  rewrite map_size_delete_Some by done.
  pose proof (map_size_ne_0_lookup_2 (w_conns w) cid ltac:(by eexists)). split; [by right|lia].
Qed.

Lemma send_permits w cid f :
  0 ≤ sv_permits (w_server w) →
  0 ≤ sv_permits (w_server (send w cid f).1) ∧
  sv_permits (w_server (send w cid f).1) + Z.of_nat (size (w_conns (send w cid f).1)) =
    sv_permits (w_server w) + Z.of_nat (size (w_conns w)).
Proof.
  intros Hw. unfold send. destruct (server_encode f []); simpl; [done|].
  destruct (close_permits w cid) as [[Hc|Hc] ->]; rewrite Hc; split; lia.
Qed.

(** Open connections and free permits add up to [max_connections]. *)
Lemma step_permits w ev :
  0 ≤ sv_permits (w_server w) →
  0 ≤ sv_permits (w_server (step w ev).1) ∧
  sv_permits (w_server (step w ev).1) + Z.of_nat (size (w_conns (step w ev).1)) =
    sv_permits (w_server w) + Z.of_nat (size (w_conns w)).
Proof.
  intros Hw. destruct ev as [cid now_f|cid data|cid o|cid|now|now]; simpl.
  - unfold serve_connection. case_decide as Hd; simpl; [|done]. destruct Hd as [Hn Hpos].
    rewrite map_size_insert_None by done. lia.
  - split; [done|]. f_equal. f_equal.
    by rewrite <- !(size_dom (D := gset nat)), dom_alter_L.
  - unfold loop_iteration. destruct (w_conns w !! cid) as [c|] eqn:Ec; [|done].
    assert (∀ c' : Conn, size (<[cid := c']> (w_conns w)) = size (w_conns w)) as Hsz.
    { intros c'. apply map_size_insert_Some. by eexists. }
    destruct (server_decode (cn_buffer c)) as [rest [[f|]|e]]; simpl; [|done|].
    + destruct (dispatch f o (make_ctx (w_server w) c)) as [ctx resp].
      match goal with |- context [send ?w' cid ?f] => destruct (send_permits w' cid f) as [? ->] end;
        simpl; [done|]. by rewrite Hsz.
    + match goal with |- context [send ?w' cid ?f] => destruct (send_permits w' cid f) as [? ->] end;
        simpl; [done|]. by rewrite Hsz.
  - destruct (close_permits w cid) as [[Hc|Hc] ->]; rewrite Hc; split; lia.
  - done.
  - unfold challenge_tick. by destruct (sv_challenges_poisoned (w_server w)).
Qed.

Lemma step_inv w ev : world_inv w → world_inv (step w ev).1.
Proof.
  intros [Hp Hs Hq Hc]. destruct (step_store w ev Hp Hs) as (? & ? & _).
  destruct (step_permits w ev Hq) as [? ?]. split; [done..|lia].
Qed.

Lemma run_inv w evs : world_inv w → world_inv (run w evs).
Proof. revert w. induction evs as [|ev evs IH]; intros w Hw; [done|]. by apply IH, step_inv. Qed.

Lemma run_loses w evs r :
  world_inv w → r ∈ stored w → r ∉ stored (run w evs) →
  ∃ evs1 ev evs2, evs = evs1 ++ ev :: evs2 ∧
    (past_expiry ev r ∨ owner_deletes (run w evs1) ev r).
Proof.
  revert w. induction evs as [|ev evs IH]; intros w Hw Hin Hout; [done|].
  destruct (step_store w ev (winv_policy _ Hw) (winv_store _ Hw)) as (_ & _ & Hgone).
  destruct (decide (r ∈ stored (step w ev).1)) as [Hin'|Hout'].
  - destruct (IH (step w ev).1) as (evs1 & ev' & evs2 & -> & ?); [by apply step_inv|done..|].
    by exists (ev :: evs1), ev', evs2.
  - exists [], ev, evs. split; [done|]. by apply Hgone.
Qed.
End deposits.

(** ** Properties of a mailbox server *)

(** The ranges of a policy file's integers that matter, with a global cap that
    an [i64] byte count holds. *)
Definition valid_policy (p : Policy) : Prop :=
  valid_limits (policy_limits p) ∧ max_deposit_size p ≤ i64_max ∧ 0 ≤ max_connections p.

(** A server just started on an empty database. *)
Definition initial (p : Policy) (now_f : f64) : World Store :=
  mkWorld (server_new empty_store p now_f) ∅.

Section server_properties.
Context `{!Sha256, !Ed25519}.
Context `{!Serialize (Z * bytes * bytes), !Serialize (Z * bytes * bytes * list bytes)}.
Context {wire : MailboxWire}.

Lemma initial_inv p now_f (Hp : valid_policy p) :
  world_inv p (DepositStoreLaws0 := sqlite_store_laws _ (proj1 Hp)) (initial p now_f).
Proof.
  pose proof Hp as ((Hr & Hg & Hn) & _ & Hc).
  split; [done| |done|simpl; rewrite map_size_empty; lia].
  split; simpl in *; [by apply NoDup_nil_2| |lia|done].
  intros rh. unfold for_recipient. simpl. unfold sum_by. simpl. apply Hr.
Qed.

(** C1: no deposit is lost.  In every run of the server, over any interleaving
    of connections, requests and sweeps, a stored deposit that is gone later
    was either removed after its expiry or deleted by an authentic [Delete] of
    its recipient that lists its id. *)
Theorem server_retention p now_f evs evs' r :
  valid_policy p →
  r ∈ rows (sv_store (w_server (run (initial p now_f) evs))) →
  r ∉ rows (sv_store (w_server (run (initial p now_f) (evs ++ evs')))) →
  ∃ evs1 ev evs2, evs' = evs1 ++ ev :: evs2 ∧
    (past_expiry ev r ∨ owner_deletes (run (initial p now_f) (evs ++ evs1)) ev r).
Proof.
  intros Hp Hin Hout. rewrite run_app in Hout.
  destruct (run_loses p (DepositStoreLaws0 := sqlite_store_laws _ (proj1 Hp))
    (proj1 (proj2 Hp)) (run (initial p now_f) evs) evs' r) as (evs1 & ev & evs2 & -> & Hx); [|done..|].
  - apply run_inv; [apply Hp|by apply initial_inv].
  - exists evs1, ev, evs2. split; [done|]. by rewrite run_app.
Qed.

(** Resource bounds of the whole server.  In every run the stored deposits
    respect the recipient, global and recipient-count caps of the policy, and
    no more than [max_connections] connections are open; every permit not held
    by an open connection is free again. *)
Theorem server_bounds p now_f evs :
  valid_policy p →
  let w := run (initial p now_f) evs in
  caps_hold (policy_limits p) (sv_store (w_server w)) ∧
  Z.of_nat (size (w_conns w)) ≤ max_connections p ∧
  sv_permits (w_server w) = max_connections p - Z.of_nat (size (w_conns w)).
Proof.
  intros Hp w.
  assert (world_inv p (DepositStoreLaws0 := sqlite_store_laws _ (proj1 Hp)) w) as [_ ? ? ?].
  { apply run_inv; [apply Hp|by apply initial_inv]. }
  split; [done|]. lia.
Qed.

(** C22: replay is defeated.  In every run, two authenticated requests never
    share a nonce unless the server handed out the same nonce again between
    them. *)
Theorem server_nonce_single_use p now_f evs1 ev1 evs2 ev2 n :
  spends (run (initial p now_f) evs1) ev1 n →
  spends (run (initial p now_f) (evs1 ++ ev1 :: evs2)) ev2 n →
  ∃ evs3 ev3 evs4, evs2 = evs3 ++ ev3 :: evs4 ∧
    issues (run (initial p now_f) (evs1 ++ ev1 :: evs3)) ev3 n.
Proof.
  intros [_ Hdead]%spends_live [Hlive _]%spends_live. rewrite run_app, run_cons in Hlive.
  destruct (dead_until_issued _ _ _ Hdead Hlive) as (evs3 & ev3 & evs4 & -> & Hi).
  exists evs3, ev3, evs4. split; [done|]. by rewrite run_app, run_cons.
Qed.
End server_properties.

(** ** Mailboxes that outgrow a frame *)

(** Bytes of ciphertext a response carries. *)
Definition response_bytes (r : FetchResponse) : Z :=
  sum_by (λ d, len (pd_ciphertext d)) (fr_deposits r).

Lemma order_by_response rs :
  response_bytes (mkFetchResponse (to_pending <$> (to_stored <$> order_by deposited_at rs))) =
  sum_by size_of rs.
Proof.
  unfold response_bytes. cbn [fr_deposits]. rewrite !sum_by_fmap.
  by rewrite order_by_Permutation.
Qed.

Section overflow.
Context `{!Sha256, !Ed25519}.
Context `{!Serialize (Z * bytes * bytes), !Serialize (Z * bytes * bytes * list bytes)}.
Context {wire : MailboxWire}.
(** CBOR does not compress. *)
Context (Hsize : ∀ (v : FetchResponse) b, into_writer v = Ok b → response_bytes v ≤ len b).

Lemma encode_response_overflow v :
  MAX_FRAME_SIZE ≤ response_bytes v → ∃ e, server_encode (MF_FetchResponse v) [] = Err e.
Proof.
  intros Hbig. unfold server_encode, server_encode_payload, server_encode_cbor.
  destruct (into_writer v) as [b|e] eqn:E; cbn [map_err bind_result]; [|by eexists].
  apply Hsize in E. unfold write_frame. rewrite decide_True by lia. by eexists.
Qed.

(** A mailbox that holds 16 MiB for a recipient cannot be fetched.  When
    the unexpired deposits of a recipient reach [MAX_FRAME_SIZE] bytes (the
    recommended policy admits 16 times that), the recipient's authenticated
    [Fetch] is answered by closing the connection: the response does not
    encode, nothing is delivered, the deposits stay. *)
Theorem fetch_overflow_hangup (w : World Store) cid o b resp :
  request_of w (EvLoop cid o) = Some (MF_Fetch b, o) →
  answer (step w (EvLoop cid o)).2 = Some (MF_FetchResponse resp) →
  MAX_FRAME_SIZE ≤
    sum_by size_of (visible (sha256 (f_identity_pubkey b)) (o_now o) (rows (sv_store (w_server w)))) →
  (step w (EvLoop cid o)).2 = Hangup (MF_FetchResponse resp) ∧
  w_conns (step w (EvLoop cid o)).1 !! cid = None ∧
  sv_store (w_server (step w (EvLoop cid o)).1) = sv_store (w_server w).
Proof.
  intros Hr Ha Hbig.
  destruct (step_request _ _ _ _ Hr) as (c & ctx & res & Hd & Hst & _ & _ & Hans).
  rewrite Hans in Ha. destruct res as [f|e]; [|done]. injection Ha as ->.
  apply handle_fetch_cases in Hd as (_ & _ & [(_ & _ & ? & ?)|(dg & v & _ & _ & Hrest)]); [done|].
  destruct Hrest as [(_ & _ & ? & ?)|(_ & rf & Hf & Hresp)]; [done|].
  apply fetch_law in Hf as [Hsame Hds]. destruct rf as [ds|e]; [|done]. injection Hresp as ->.
  rewrite (Hds ds eq_refl) in *. cbn [store make_ctx] in Hsame, Hans, Hbig.
  set (resp := mkFetchResponse _) in *.
  destruct (encode_response_overflow resp) as [e He].
  { unfold resp. rewrite order_by_response. exact Hbig. }
  destruct (step_sends _ _ _ _ Hr) as (w' & f & Hs & Hopen). rewrite Hs in *.
  destruct (send_state w' cid f) as (_ & _ & _ & Hf). rewrite Hf in Hans. injection Hans as ->.
  unfold send in *. rewrite He in *. split_and!; [done| |by rewrite Hst, Hsame].
  destruct Hopen as [c' Hc']. unfold close. simpl. rewrite Hc'. simpl. by rewrite lookup_delete_eq.
Qed.
End overflow.

(** ** Witnesses: a client deposits, is challenged, fetches and is replayed *)

#[local] Existing Instance sample_sha256.
#[local] Existing Instance sample_ed25519.
#[local] Existing Instance serialize_of.
#[local] Existing Instance sample_wire.

Definition on_wire (f : MailboxFrame) : bytes :=
  match client_encode f [] with Ok b => b | Err _ => [] end.

Definition sample_oracle (now : Z) : Oracle :=
  mkOracle now (f64_of_Z now) (fill 16 Byte.x07) sample_nonce.

(** Send one request on connection 0 and let the server handle it. *)
Definition request (f : MailboxFrame) (now : Z) : list event :=
  [EvBytes 0 (on_wire f); EvLoop 0 (sample_oracle now)].

Definition sample_deposit : MailboxFrame := MF_Deposit (mkDeposit 1 sample_key (fill 3 Byte.x05) 0).
Definition sample_challenge : MailboxFrame := MF_Challenge (mkChallenge 1 sample_key).

Definition sample_session : list event := EvConnect 0 (f64_of_Z 200) :: request sample_deposit 200.

Lemma recommended_valid : valid_policy recommended.
Proof. vm_compute. repeat split; discriminate. Qed.

Lemma server_retention_witness :
  let r := mkDepositRow (fill 16 Byte.x07) sample_key (fill 3 Byte.x05) 200 605000 in
  ∃ evs1 ev evs2, [EvExpireSweep 605001] = evs1 ++ ev :: evs2 ∧
    (past_expiry ev r ∨
     owner_deletes (run (initial recommended (f64_of_Z 100)) (sample_session ++ evs1)) ev r).
Proof.
  intros r.
  apply (server_retention recommended (f64_of_Z 100) sample_session [EvExpireSweep 605001] r).
  - apply recommended_valid.
  - vm_compute. left.
  - vm_compute. inversion 1.
Defined.

Lemma server_bounds_witness :
  let w := run (initial recommended (f64_of_Z 100)) sample_session in
  len (rows (sv_store (w_server w))) = 1 ∧ Z.of_nat (size (w_conns w)) = 1 ∧
  sv_permits (w_server w) = max_connections recommended - Z.of_nat (size (w_conns w)).
Proof.
  intros w. split; [vm_compute; reflexivity|]. split; [vm_compute; reflexivity|].
  apply (server_bounds recommended (f64_of_Z 100) sample_session recommended_valid).
Defined.

Lemma server_nonce_single_use_witness :
  let evs1 := sample_session ++ request sample_challenge 201 ++
    [EvBytes 0 (on_wire (MF_Fetch sample_fetch))] in
  let ev := EvLoop 0 (sample_oracle 202) in
  let evs2 := request sample_challenge 203 ++ [EvBytes 0 (on_wire (MF_Fetch sample_fetch))] in
  ∃ evs3 ev3 evs4, evs2 = evs3 ++ ev3 :: evs4 ∧
    issues (run (initial recommended (f64_of_Z 100)) (evs1 ++ ev :: evs3)) ev3 sample_nonce.
Proof.
  intros evs1 ev evs2.
  apply (server_nonce_single_use recommended (f64_of_Z 100) evs1 ev evs2 ev sample_nonce).
  - left. do 3 eexists. split; [vm_compute; reflexivity|]. split; vm_compute; reflexivity.
  - left. do 3 eexists. split; [vm_compute; reflexivity|]. split; vm_compute; reflexivity.
Defined.

(** The concrete wire does not compress. *)
Lemma enc_list_size {A} `{!Codec A} (f : A → Z) (l : list A) :
  (∀ x, f x ≤ len (enc x)) → sum_by f l ≤ len (enc_list l).
Proof.
  intros Hf. induction l as [|x l IH]; [done|]. unfold sum_by in *. simpl.
  rewrite len_cons, len_app. specialize (Hf x). lia.
Qed.

Lemma sum_by_one {A} (l : list A) : sum_by (λ _, 1) l = len l.
Proof. induction l as [|x l IH]; [done|]. rewrite len_cons, <- IH. done. Qed.

Lemma sample_wire_size (v : FetchResponse) b : into_writer v = Ok b → response_bytes v ≤ len b.
Proof.
  intros [= <-]. destruct v as [ds]. unfold response_bytes. cbn [fr_deposits].
  apply (enc_list_size (λ d, len (pd_ciphertext d)) ds). intros [id ct t]. simpl.
  rewrite !len_app.
  pose proof (enc_list_size (λ _ : byte, 1) ct (λ _, Z.le_refl 1)) as Hct.
  rewrite sum_by_one in Hct.
  pose proof (len_nonneg (enc_list id)). pose proof (len_nonneg (enc_Z t)). lia.
Qed.

(** A server holding one deposit, with the recipient's [Fetch] in the buffer of
    connection 0. *)
Definition full_world (ct : bytes) : World Store :=
  mkWorld (mkMailboxServer (mkStore [mkDepositRow (fill 16 Byte.x01) sample_key ct 100 999] false)
    recommended (issue ∅ sample_key 190 sample_nonce) false
    (global_from_policy recommended (f64_of_Z 200)) 511)
    {[ 0%nat := mkConn (on_wire (MF_Fetch sample_fetch)) (conn_from_policy recommended (f64_of_Z 200)) ]}.

Lemma full_world_request ct :
  request_of (full_world ct) (EvLoop 0 (sample_oracle 200)) = Some (MF_Fetch sample_fetch, sample_oracle 200).
Proof. vm_compute. reflexivity. Qed.

Lemma full_world_answer ct :
  answer (step (full_world ct) (EvLoop 0 (sample_oracle 200))).2 =
    Some (MF_FetchResponse (mkFetchResponse [mkPendingDeposit (fill 16 Byte.x01) ct 100])).
Proof.
  cbn [step]. unfold loop_iteration.
  replace (w_conns (full_world ct) !! 0%nat) with
    (Some (mkConn (on_wire (MF_Fetch sample_fetch)) (conn_from_policy recommended (f64_of_Z 200))))
    by (vm_compute; reflexivity).
  cbn [cn_buffer].
  replace (server_decode (on_wire (MF_Fetch sample_fetch)))
    with (@nil byte, @Ok _ MailboxError (Some (MF_Fetch sample_fetch))) by (vm_compute; reflexivity).
  destruct (dispatch _ _ _) as [ctx resp] eqn:E.
  match goal with |- context [send ?w' 0 ?f] => destruct (send_state w' 0 f) as (_ & _ & _ & ->) end.
  assert (resp = (ctx, resp).2) as -> by done. rewrite <- E. vm_compute. reflexivity.
Qed.

Lemma fetch_overflow_hangup_witness :
  ∃ ct, (step (full_world ct) (EvLoop 0 (sample_oracle 200))).2 =
      Hangup (MF_FetchResponse (mkFetchResponse [mkPendingDeposit (fill 16 Byte.x01) ct 100])).
Proof.
  exists (fill (Z.to_nat MAX_FRAME_SIZE) Byte.x00).
  apply (fetch_overflow_hangup sample_wire_size _ 0 (sample_oracle 200) sample_fetch).
  - apply full_world_request.
  - apply full_world_answer.
  - generalize (Z.to_nat MAX_FRAME_SIZE) (Z2Nat.id MAX_FRAME_SIZE ltac:(done)). intros n Hn.
    change (visible _ _ _) with [mkDepositRow (fill 16 Byte.x01) sample_key (fill n Byte.x00) 100 999].
    unfold sum_by, size_of, len, fill. simpl. rewrite length_replicate. lia.
Defined.
