(* ===== verification/Sql.v ===== *)
(** * Sql: auto-increment tables

    The tables of [crates/core/src/storage/migrations] with an [INTEGER PRIMARY
    KEY AUTOINCREMENT] column: the rows in insertion order and the last id
    given out.  An id is never given out twice, also after its row is deleted. *)

From S2P Require Import Prelude.

Record table (R : Type) : Type := mkTable { t_rows : list R; t_seq : Z }.
Arguments mkTable {R} _ _.
Arguments t_rows {R} _.
Arguments t_seq {R} _.

Definition empty_table {R} : table R := mkTable [] 0.

(** [INSERT]: the row under the next id, which is [last_insert_rowid()]. *)
Definition t_insert {R} (mk : Z → R) (t : table R) : table R * Z :=
  let id := t_seq t + 1 in (mkTable (t_rows t ++ [mk id]) id, id).

(** [UPDATE ... WHERE P] and [DELETE ... WHERE P], with the changed rows. *)
Definition t_update {R} (P : R → Prop) `{!∀ r, Decision (P r)} (f : R → R) (t : table R)
    : table R * Z :=
  (mkTable ((λ r, if decide (P r) then f r else r) <$> t_rows t) (t_seq t), len (filter P (t_rows t))).

Definition t_delete {R} (P : R → Prop) `{!∀ r, Decision (P r)} (t : table R) : table R * Z :=
  (mkTable (filter (λ r, ¬ P r) (t_rows t)) (t_seq t), len (filter P (t_rows t))).

(** [i64::try_from(limit).unwrap_or(i64::MAX)]. *)
Definition sql_limit (n : Z) : Z := Z.min n i64_max.

(** Ids are unique and were all given out. *)
Record t_wf {R} (id : R → Z) (t : table R) : Prop := {
  wf_ids : NoDup (id <$> t_rows t);
  wf_seq : ∀ r, r ∈ t_rows t → 0 < id r ≤ t_seq t
}.

Section table_facts.
Context {R : Type} (id : R → Z).
Implicit Types (t : table R).

Lemma t_wf_empty : t_wf id empty_table.
Proof. split; [apply NoDup_nil_2|]. set_solver. Qed.

Lemma t_wf_insert mk t : t_wf id t → 0 ≤ t_seq t → (∀ n, id (mk n) = n) → t_wf id (t_insert mk t).1.
Proof.
  intros [Hn Hs] Hseq Hmk. split; simpl.
  - rewrite fmap_app. apply NoDup_app. split_and!; [done| |apply NoDup_singleton].
    intros x (r & -> & Hr)%list_elem_of_fmap Heq%list_elem_of_singleton.
    apply Hs in Hr. rewrite Hmk in Heq. lia.
  - intros r [Hr| ->%list_elem_of_singleton]%elem_of_app; [apply Hs in Hr; lia|].
    rewrite Hmk. lia.
Qed.

Lemma t_wf_filter (P : R → Prop) `{!∀ r, Decision (P r)} t :
  t_wf id t → t_wf id (mkTable (filter P (t_rows t)) (t_seq t)).
Proof.
  intros [Hn Hs]. split; simpl; [by apply NoDup_fmap_filter|].
  intros r [_ Hr]%list_elem_of_filter. by apply Hs.
Qed.

Lemma t_wf_map f t :
  t_wf id t → (∀ r, id (f r) = id r) → t_wf id (mkTable (f <$> t_rows t) (t_seq t)).
Proof.
  intros [Hn Hs] Hf. split; simpl.
  - rewrite <- list_fmap_compose. erewrite list_fmap_ext; [exact Hn|]. intros i r _. apply Hf.
  - intros r (r' & -> & Hr)%list_elem_of_fmap. rewrite Hf. by apply Hs.
Qed.

(** At most one row has a given id. *)
Lemma t_wf_unique t r r' : t_wf id t → r ∈ t_rows t → r' ∈ t_rows t → id r = id r' → r = r'.
Proof.
  intros [Hn _]. by apply key_unique.
Qed.
End table_facts.

#[export] Hint Resolve t_wf_empty t_wf_filter : invariant.
