(* ===== verification/Backoff.v ===== *)
(** * Backoff: the retry delay of the delivery layer

    [crates/core/src/delivery/backoff.rs].  The jitter factor is drawn by [rand];
    it is an argument, an [f64] of the sampled range.  The theorem gives the
    range of the delay for every attempt count, including the counts where the
    doubling of the base overflows. *)

From Stdlib Require Import Floats.SpecFloat.
From S2P Require Import Prelude Float64.

(** [BASE] and [CAP] in milliseconds. *)
Definition BASE : Z := 1000.
Definition CAP : Z := 300 * 1000.

(** [u128::checked_shl]: it checks the shift amount, not the bits lost. *)
Definition u128_checked_shl (a n : Z) : option Z :=
  if decide (n < 128) then Some ((a * 2 ^ n) mod 2 ^ 128) else None.

(** [capped_ms]. *)
Definition capped_ms (attempts : Z) : Z :=
  let shifted := default u128_max (u128_checked_shl BASE attempts) in
  u64_try_from_or_max (Z.min shifted CAP).

(** [backoff], in milliseconds, with the jitter factor it drew. *)
Definition backoff (attempts : Z) (factor : f64) : Z :=
  f64_to_u64 (f64_mul (f64_of_Z (capped_ms attempts)) factor).

(** What [gen_range(0.75..=1.25)] returns. *)
Definition jitter_factor (factor : f64) : Prop :=
  valid_binary 53 1024 factor = true ∧
  f64_leb (f64_div (f64_of_Z 3) (f64_of_Z 4)) factor = true ∧
  f64_leb factor (f64_div (f64_of_Z 5) (f64_of_Z 4)) = true.

(** ** Lemmas *)

(** The factor as an integer multiple of [2^-53] or [2^-52]. *)
Lemma jitter_factor_inv factor :
  jitter_factor factor →
  ∃ m e, factor = S754_finite false m e ∧ (e = -53 ∨ e = -52) ∧
    2 ^ 52 ≤ Zpos m < 2 ^ 53 ∧ 3 * 2 ^ (-2 - e) ≤ Zpos m ≤ 5 * 2 ^ (-2 - e).
Proof.
  intros (Hv & Hlo & Hhi).
  replace (f64_div (f64_of_Z 3) (f64_of_Z 4)) with (S754_finite false (Z.to_pos (3 * 2 ^ 51)) (-53))
    in Hlo by (vm_compute; reflexivity).
  replace (f64_div (f64_of_Z 5) (f64_of_Z 4)) with (S754_finite false (Z.to_pos (5 * 2 ^ 50)) (-52))
    in Hhi by (vm_compute; reflexivity).
  destruct factor as [s|[]| |[] m e]; try done.
  unfold f64_leb, SFleb, SFcompare in Hlo, Hhi.
  assert (-53 ≤ e ≤ -52) as He.
  { destruct (Z.compare_spec (-53) e), (Z.compare_spec e (-52)); try done; lia. }
  unfold valid_binary, bounded, canonical_mantissa in Hv.
  apply andb_prop in Hv as [Hv _]. apply Z.eqb_eq in Hv. unfold fexp, emin in Hv.
  assert (Zpos (digits2_pos m) = 53) as Hd by lia. rewrite digits2_pos_log2 in Hd.
  assert (Z.log2 (Zpos m) = 52) as Hl by lia.
  pose proof (Z.log2_spec (Zpos m) ltac:(lia)) as Hm. rewrite Hl in Hm.
  exists m, e. split; [done|]. split; [lia|]. split; [lia|].
  assert (e = -53 ∨ e = -52) as [-> | ->] by lia.
  - rewrite Z.compare_refl in Hlo. change (-2 - -53) with 51.
    change (Pos.compare_cont Eq ?x ?y) with (Pos.compare x y) in Hlo.
    destruct (Pos.compare_spec (Z.to_pos (3 * 2 ^ 51)) m); try done; lia.
  - rewrite Z.compare_refl in Hhi. change (-2 - -52) with 50.
    change (Pos.compare_cont Eq ?x ?y) with (Pos.compare x y) in Hhi.
    destruct (Pos.compare_spec m (Z.to_pos (5 * 2 ^ 50))); try done; lia.
Qed.

(** The product of an integer below [2^32] and a factor, rounded and truncated. *)
Lemma jitter_bounds b factor :
  0 < b < 2 ^ 32 → jitter_factor factor →
  3 * b / 4 ≤ f64_to_u64 (f64_mul (f64_of_Z b) factor) ≤ 5 * b / 4.
Proof.
  intros Hb (m & e & -> & He & Hm & Hr)%jitter_factor_inv.
  destruct b as [|p|p]; [lia| |lia]. pose proof (digits_u32 p ltac:(lia)) as Hd.
  rewrite f64_of_Z_canonical by lia. unfold canonical. set (d := Zpos (digits2_pos p)) in *.
  assert (1 ≤ d) by (unfold d; lia).
  assert (2 ^ 52 ≤ Zpos p * 2 ^ (53 - d) < 2 ^ 53) as HB.
  { pose proof (Z.log2_spec (Zpos p) ltac:(lia)) as Hl.
    assert (Z.log2 (Zpos p) = d - 1) as Hl1 by (unfold d; rewrite digits2_pos_log2; lia).
    rewrite Hl1 in Hl. replace (Z.succ (d - 1)) with d in Hl by lia.
    assert (2 ^ 52 = 2 ^ (d - 1) * 2 ^ (53 - d)) as -> by (rewrite <- Z.pow_add_r by lia; f_equal; lia).
    assert (2 ^ 53 = 2 ^ d * 2 ^ (53 - d)) as -> by (rewrite <- Z.pow_add_r by lia; f_equal; lia).
    assert (0 < 2 ^ (53 - d)) by (apply Z.pow_pos_nonneg; lia). nia. }
  set (B := Zpos p * 2 ^ (53 - d)) in *.
  unfold f64_mul, SFmul. cbn [xorb]. rewrite Pos2Z.inj_mul, Z2Pos.id by lia.
  set (ep := d - 53 + 0 + e).
  assert (∃ s, (s = 52 ∨ s = 53) ∧ 2 ^ (52 + s) ≤ B * Zpos m < 2 ^ (53 + s)) as (s & Hs & HP).
  { destruct (decide (B * Zpos m < 2 ^ 105)); [exists 52|exists 53];
      (split; [lia|]); simpl in *; nia. }
  set (t := - ep - s). assert (2 ≤ t) as Ht by (unfold t, ep; lia).
  destruct (binary_round_aux_between (B * Zpos m) ep s (3 * Zpos p * 2 ^ (t - 2))
    (5 * Zpos p * 2 ^ (t - 2))) as (m' & k & -> & Hk & Hlo); [lia|done|unfold ep; lia| |].
  { assert (2 ^ (t - 2) * 2 ^ s = 2 ^ (53 - d) * 2 ^ (-2 - e)) as Hpow.
    { rewrite <- !Z.pow_add_r by (unfold t, ep in *; lia). f_equal. unfold t, ep. lia. }
    rewrite <- !Z.mul_assoc, Hpow. unfold B. assert (0 < 2 ^ (53 - d)) by (apply Z.pow_pos_nonneg; lia).
    nia. }
  unfold f64_to_u64. rewrite decide_False by (unfold t, ep in *; lia).
  replace (- (ep + s + k)) with (t - k) by (unfold t; lia).
  assert (Zpos m' / 2 ^ (t - k) = Zpos m' * 2 ^ k / 2 ^ t) as ->.
  { replace t with ((t - k) + k) at 2 by lia. rewrite Z.pow_add_r by lia.
    rewrite Z.div_mul_cancel_r; [done| |]; apply Z.pow_nonzero; lia. }
  assert (∀ c, c * Zpos p * 2 ^ (t - 2) / 2 ^ t = c * Zpos p / 4) as Hq.
  { intros c. replace t with (2 + (t - 2)) at 2 by lia. rewrite Z.pow_add_r by lia.
    rewrite Z.div_mul_cancel_r; [done|done|apply Z.pow_nonzero; lia]. }
  assert (0 < 2 ^ t) by (apply Z.pow_pos_nonneg; lia).
  pose proof (Z.div_le_mono (3 * Zpos p * 2 ^ (t - 2)) (Zpos m' * 2 ^ k) (2 ^ t) ltac:(lia) ltac:(lia)) as H1.
  pose proof (Z.div_le_mono (Zpos m' * 2 ^ k) (5 * Zpos p * 2 ^ (t - 2)) (2 ^ t) ltac:(lia) ltac:(lia)) as H2.
  rewrite Hq in H1, H2.
  assert (5 * Zpos p / 4 < 2 ^ 64) by (apply Z.div_lt_upper_bound; lia).
  unfold u64_max. lia.
Qed.

(** The delay before jitter: doubling up to the cap, except where the shifted
    base loses all its bits. *)
Definition nominal_ms (attempts : Z) : Z :=
  if decide (attempts < 125) then Z.min (1000 * 2 ^ attempts) 300000
  else if decide (attempts < 128) then 0 else 300000.

Lemma capped_ms_nominal attempts : 0 ≤ attempts → capped_ms attempts = nominal_ms attempts.
Proof.
  intros Ha. destruct (decide (attempts < 128)) as [Hlt|Hge].
  - assert (forallb (λ n, capped_ms n =? nominal_ms n) (seqZ 0 128) = true) as Hall
      by (vm_compute; reflexivity).
    rewrite forallb_forall in Hall. apply Z.eqb_eq, Hall.
    apply list_elem_of_In, elem_of_seqZ. lia.
  - unfold capped_ms, nominal_ms, u128_checked_shl. rewrite !decide_False by lia. done.
Qed.

Lemma backoff_range attempts factor :
  0 ≤ attempts → jitter_factor factor →
  3 * nominal_ms attempts / 4 ≤ backoff attempts factor ≤ 5 * nominal_ms attempts / 4.
Proof.
  intros Ha Hf. unfold backoff. rewrite capped_ms_nominal by done.
  destruct (decide (nominal_ms attempts = 0)) as [->|Hz].
  - apply jitter_factor_inv in Hf as (m & e & -> & _). done.
  - apply jitter_bounds; [|done]. unfold nominal_ms in *. repeat case_decide; lia.
Qed.

Lemma nominal_ms_range attempts : 0 ≤ attempts → 0 ≤ nominal_ms attempts ≤ 300000.
Proof. intros. unfold nominal_ms. repeat case_decide; lia. Qed.

(** ** Properties *)

(** The retry delay is within 25 percent of its nominal value for every
    attempt count and every jitter factor: 1 s doubled per failure up to 5
    minutes.  After 125, 126 and 127 failures the delay is zero: there the
    128-bit shift has lost every bit of the base, which [checked_shl] does not
    notice. *)
Theorem backoff_bounds attempts factor :
  0 ≤ attempts → jitter_factor factor →
  3 * nominal_ms attempts / 4 ≤ backoff attempts factor ≤ 5 * nominal_ms attempts / 4.
Proof. apply backoff_range. Qed.

Lemma backoff_bounds_witness :
  jitter_factor (f64_of_Z 1) ∧ nominal_ms 126 = 0 ∧ backoff 126 (f64_of_Z 1) = 0 ∧
  3 * nominal_ms 4 / 4 ≤ backoff 4 (f64_of_Z 1) ≤ 5 * nominal_ms 4 / 4.
Proof.
  assert (jitter_factor (f64_of_Z 1)) as Hf by (vm_compute; done).
  split; [exact Hf|]. split; [reflexivity|]. split.
  - pose proof (backoff_bounds 126 (f64_of_Z 1) ltac:(lia) Hf) as H. revert H. vm_compute.
    intros [H1 H2]. reflexivity.
  - apply backoff_bounds; [lia|exact Hf].
Defined.
