(* ===== verification/Outbox.v ===== *)
(** * Outbox: the persisted send queue

    [crates/core/src/storage/outbox.rs] (the [outbox] table and its queries) and
    [crates/core/src/delivery/outbox.rs] (the retry queue on top of it).  The
    unique index on [(target, message_id, target_kind, mailbox_id)] makes
    inserts idempotent; the jitter of a reschedule is an argument. *)

From S2P Require Import Prelude CoreErrors Sql Float64 Backoff.

(** ** [storage/outbox.rs] *)

Inductive OutboxTargetKind : Type := Direct | Mailbox.
Inductive InsertOutcome : Type := Inserted | AlreadyPresent.

Definition as_sql (k : OutboxTargetKind) : string :=
  match k with Direct => "direct" | Mailbox => "mailbox" end.

Definition from_sql (s : string) : OutboxTargetKind :=
  if decide (s = "mailbox") then Mailbox else Direct.

(** A row of the table (migrations 0001, 0004 and 0008). *)
Record outbox_row : Type := mkOutboxRow {
  ob_id : Z;
  ob_target : bytes;
  ob_payload : bytes;
  ob_message_id : bytes;
  ob_attempts : Z;
  ob_next_retry_at : Z;
  ob_target_kind : string;
  ob_mailbox_id : Z
}.

Abbreviation outbox := (table outbox_row).

(** A row as the queries return it. *)
Record OutboxRow : Type := mkOutbox {
  or_id : Z;
  or_target : bytes;
  or_payload : bytes;
  or_message_id : bytes;
  or_attempts : Z;
  or_target_kind : OutboxTargetKind;
  or_mailbox_id : Z
}.

Definition map_row (r : outbox_row) : OutboxRow :=
  mkOutbox (ob_id r) (ob_target r) (ob_payload r)
    (if decide (len (ob_message_id r) = 16) then ob_message_id r else fill 16 Byte.x00)
    (u32_try_from_or u32_max (ob_attempts r)) (from_sql (ob_target_kind r)) (ob_mailbox_id r).

(** The columns of the unique index. *)
Definition ob_key (r : outbox_row) : bytes * bytes * string * Z :=
  (ob_target r, ob_message_id r, ob_target_kind r, ob_mailbox_id r).

(** [INSERT ... ON CONFLICT(...) DO NOTHING]: the new rowid, or [None]. *)
Definition insert_ignore (target message_id payload : bytes) (next_retry_at : Z) (kind : string)
    (mailbox_id : Z) (t : outbox) : outbox * option Z :=
  if decide ((target, message_id, kind, mailbox_id) ∈ (ob_key <$> t_rows t)) then (t, None)
  else
    let '(t', id) :=
      t_insert (λ id, mkOutboxRow id target payload message_id 0 next_retry_at kind mailbox_id) t in
    (t', Some id).

Definition insert_in_tx (target message_id payload : bytes) (next_retry_at : Z) (t : outbox)
    : outbox * option Z :=
  insert_ignore target message_id payload next_retry_at "direct" 0 t.

Definition insert_direct (target message_id payload : bytes) (next_retry_at : Z) (t : outbox)
    : outbox * InsertOutcome :=
  let '(t', changed) := insert_ignore target message_id payload next_retry_at "direct" 0 t in
  (t', match changed with Some _ => Inserted | None => AlreadyPresent end).

Definition insert (target message_id payload : bytes) (next_retry_at : Z) (t : outbox)
    : outbox * option Z :=
  insert_ignore target message_id payload next_retry_at "direct" 0 t.

Definition insert_for_mailbox (target message_id : bytes) (mailbox_id : Z) (payload : bytes)
    (next_retry_at : Z) (t : outbox) : outbox * InsertOutcome :=
  let '(t', changed) := insert_ignore target message_id payload next_retry_at "mailbox" mailbox_id t in
  (t', match changed with Some _ => Inserted | None => AlreadyPresent end).

Definition get (id : Z) (t : outbox) : option OutboxRow :=
  map_row <$> head (filter (λ r, ob_id r = id) (t_rows t)).

Definition list_due (now : Z) (t : outbox) : list OutboxRow :=
  map_row <$> order_by ob_next_retry_at (filter (λ r, ob_next_retry_at r ≤ now) (t_rows t)).

Definition due (now max : Z) (t : outbox) : list OutboxRow :=
  map_row <$> limit (sql_limit max)
    (order_by ob_next_retry_at (filter (λ r, ob_next_retry_at r ≤ now) (t_rows t))).

Definition due_mailbox (now max : Z) (t : outbox) : list OutboxRow :=
  map_row <$> limit (sql_limit max)
    (order_by ob_next_retry_at
       (filter (λ r, ob_next_retry_at r ≤ now ∧ ob_target_kind r = "mailbox") (t_rows t))).

Definition due_direct_for (target : bytes) (now max : Z) (t : outbox) : list OutboxRow :=
  map_row <$> limit (sql_limit max)
    (order_by ob_next_retry_at
       (filter (λ r, ob_next_retry_at r ≤ now ∧ ob_target r = target ∧ ob_target_kind r = "direct")
          (t_rows t))).

Definition direct_targets (t : outbox) : list bytes :=
  remove_dups (ob_target <$> filter (λ r, ob_target_kind r = "direct") (t_rows t)).

Definition find_direct_id (target message_id : bytes) (t : outbox) : option Z :=
  ob_id <$> head (filter (λ r, ob_target r = target ∧ ob_message_id r = message_id ∧
    ob_target_kind r = "direct") (t_rows t)).

Definition delete_by_target_in_tx (target : bytes) (t : outbox) : outbox :=
  (t_delete (λ r, ob_target r = target) t).1.

Definition delete_by_id (row_id : Z) (t : outbox) : outbox * bool :=
  let '(t', n) := t_delete (λ r, ob_id r = row_id) t in (t', bool_decide (0 < n)).

(** [UPDATE] of the kind and mailbox: refused by the unique index when another
    row already has the new key, and an error when no row has the id. *)
Definition set_mailbox_target (row_id mailbox_id : Z) (t : outbox)
    : outbox * result unit CoreError :=
  let f r := mkOutboxRow (ob_id r) (ob_target r) (ob_payload r) (ob_message_id r) (ob_attempts r)
               (ob_next_retry_at r) "mailbox" mailbox_id in
  let hit := filter (λ r, ob_id r = row_id) (t_rows t) in
  let others := filter (λ r, ob_id r ≠ row_id) (t_rows t) in
  if decide (Exists (λ r, ob_key (f r) ∈ (ob_key <$> others)) hit)
  then (t, Err (Core_Storage (Storage_Other
     ("set_mailbox_target: UNIQUE constraint failed: outbox.target, " +:+
      "outbox.message_id, outbox.target_kind, outbox.mailbox_id"))))
  else
    let '(t', n) := t_update (λ r, ob_id r = row_id) f t in
    if decide (n = 0)
    then (t', Err (Core_Storage (Storage_Other ("set_mailbox_target: no row with id=" +:+ pretty row_id))))
    else (t', Ok tt).

Definition ack_by_message_id (target message_id : bytes) (t : outbox) : outbox * bool :=
  let '(t', n) := t_delete (λ r, ob_target r = target ∧ ob_message_id r = message_id) t in
  (t', bool_decide (0 < n)).

Definition reschedule_row (id next_retry_at : Z) (t : outbox) : outbox :=
  (t_update (λ r, ob_id r = id)
     (λ r, mkOutboxRow (ob_id r) (ob_target r) (ob_payload r) (ob_message_id r) (ob_attempts r + 1)
             next_retry_at (ob_target_kind r) (ob_mailbox_id r)) t).1.

(** ** [delivery/outbox.rs] *)

Record OutboxEntry : Type := mkOutboxEntry {
  oe_id : Z;
  oe_target : bytes;
  oe_payload : bytes;
  oe_message_id : bytes;
  oe_attempts : Z;
  oe_target_kind : OutboxTargetKind;
  oe_mailbox_id : Z
}.

Definition row_to_entry (row : OutboxRow) : OutboxEntry :=
  mkOutboxEntry (or_id row)
    (if decide (len (or_target row) = 32) then or_target row else fill 32 Byte.x00)
    (or_payload row) (or_message_id row) (or_attempts row) (or_target_kind row) (or_mailbox_id row).

Definition enqueue (target message_id payload : bytes) (now : Z) (t : outbox) : outbox * option Z :=
  insert target message_id payload now t.

(** [Outbox::due] and [Outbox::due_direct_for]. *)
Definition entries_due (now max : Z) (t : outbox) : list OutboxEntry :=
  row_to_entry <$> due now max t.
Definition entries_due_direct_for (target : bytes) (now max : Z) (t : outbox) : list OutboxEntry :=
  row_to_entry <$> due_direct_for target now max t.

Definition ack (target message_id : bytes) (t : outbox) : outbox * bool :=
  ack_by_message_id target message_id t.

Definition reschedule (id attempts_now now : Z) (factor : f64) (t : outbox) : outbox :=
  let delay := backoff attempts_now factor in
  let next_retry_at :=
    i64_saturating_add now (if decide (delay ≤ i64_max) then delay else i64_max) in
  reschedule_row id next_retry_at t.

(** ** Invariant *)

Record outbox_wf (t : outbox) : Prop := {
  obwf_ids : t_wf ob_id t;
  obwf_seq : 0 ≤ t_seq t;
  obwf_keys : NoDup (ob_key <$> t_rows t);
  obwf_kind : ∀ r, r ∈ t_rows t → ob_target_kind r = "direct" ∨ ob_target_kind r = "mailbox"
}.

(** Every statement that changes the table. *)
Inductive outbox_step (t : outbox) : outbox → Prop :=
| ob_insert target mid payload retry :
    outbox_step t (insert target mid payload retry t).1
| ob_insert_direct target mid payload retry :
    outbox_step t (insert_direct target mid payload retry t).1
| ob_insert_in_tx target mid payload retry :
    outbox_step t (insert_in_tx target mid payload retry t).1
| ob_insert_for_mailbox target mid mailbox payload retry :
    outbox_step t (insert_for_mailbox target mid mailbox payload retry t).1
| ob_delete_by_target target : outbox_step t (delete_by_target_in_tx target t)
| ob_delete_by_id row_id : outbox_step t (delete_by_id row_id t).1
| ob_set_mailbox row_id mailbox : outbox_step t (set_mailbox_target row_id mailbox t).1
| ob_ack target mid : outbox_step t (ack_by_message_id target mid t).1
| ob_reschedule row_id retry : outbox_step t (reschedule_row row_id retry t).

Lemma insert_ignore_wf target mid payload retry kind mailbox t :
  kind = "direct" ∨ kind = "mailbox" → outbox_wf t →
  outbox_wf (insert_ignore target mid payload retry kind mailbox t).1.
Proof.
  intros Hkind [Hids Hseq Hkeys Hk]. unfold insert_ignore. case_decide as Hin; [done|].
  split; simpl; [| |rewrite fmap_app|].
  - by apply (t_wf_insert ob_id (λ id, mkOutboxRow id target payload mid 0 retry kind mailbox)).
  - lia.
  - apply NoDup_app. split_and!; [done| |apply NoDup_singleton].
    intros x Hx ->%list_elem_of_singleton. by apply Hin.
  - intros r [Hr| ->%list_elem_of_singleton]%elem_of_app; [by apply Hk|done].
Qed.

Lemma delete_wf (P : outbox_row → Prop) `{!∀ r, Decision (P r)} t :
  outbox_wf t → outbox_wf (t_delete P t).1.
Proof.
  intros [Hids Hseq Hkeys Hk]. split; simpl; [by apply t_wf_filter|done|by apply NoDup_fmap_filter|].
  intros r [_ Hr]%list_elem_of_filter. by apply Hk.
Qed.

(** An update of one row to a key no other row has. *)
Lemma update_keys (f : outbox_row → outbox_row) i (l : list outbox_row) :
  NoDup (ob_id <$> l) → NoDup (ob_key <$> l) →
  (∀ r r', r ∈ l → r' ∈ l → ob_id r = i → ob_id r' ≠ i → ob_key (f r) ≠ ob_key r') →
  NoDup (ob_key <$> ((λ r, if decide (ob_id r = i) then f r else r) <$> l)).
Proof.
  induction l as [|x l IH]; [done|]. rewrite !fmap_cons.
  intros [Hxi Hi]%NoDup_cons [Hxk Hk]%NoDup_cons Hf. apply NoDup_cons. split.
  - intros (r & Heq & (r' & -> & Hr')%list_elem_of_fmap)%list_elem_of_fmap.
    case_decide as Hx; case_decide as Hr.
    + apply Hxi. rewrite Hx, <- Hr. by apply list_elem_of_fmap_2.
    + eapply (Hf x r'); [set_solver..|done|done|done].
    + eapply (Hf r' x); [set_solver..|done|done|done].
    + apply Hxk. rewrite Heq. by apply list_elem_of_fmap_2.
  - apply IH; [done..|]. intros r r' ??. apply Hf; set_solver.
Qed.

Lemma update_wf (f : outbox_row → outbox_row) i t :
  outbox_wf t → (∀ r, ob_id (f r) = ob_id r) →
  (∀ r, ob_target_kind (f r) = ob_target_kind r ∨ ob_target_kind (f r) = "mailbox") →
  (∀ r r', r ∈ t_rows t → r' ∈ t_rows t → ob_id r = i → ob_id r' ≠ i → ob_key (f r) ≠ ob_key r') →
  outbox_wf (t_update (λ r, ob_id r = i) f t).1.
Proof.
  intros [Hids Hseq Hkeys Hk] Hid Hkind Hf. split; simpl.
  - apply t_wf_map; [done|]. intros r. by case_decide.
  - done.
  - apply update_keys; [apply Hids|done|done].
  - intros r (r' & -> & Hr')%list_elem_of_fmap. specialize (Hk _ Hr'). specialize (Hkind r').
    case_decide; naive_solver congruence.
Qed.

Lemma ob_key_unique t r r' :
  outbox_wf t → r ∈ t_rows t → r' ∈ t_rows t → ob_key r = ob_key r' → r = r'.
Proof.
  intros [_ _ Hkeys _]. by apply key_unique.
Qed.

Lemma outbox_step_wf t t' : outbox_wf t → outbox_step t t' → outbox_wf t'.
Proof.
  intros Hwf. destruct 1 as [????|????|????|?????|?|?|row_id mailbox|??|row_id retry].
  1,3: apply insert_ignore_wf; [by left|done].
  - unfold insert_direct.
    pose proof (insert_ignore_wf target mid payload retry "direct" 0 t ltac:(by left) Hwf) as H.
    by destruct (insert_ignore _ _ _ _ _ _ _).
  - unfold insert_for_mailbox.
    pose proof (insert_ignore_wf target mid payload retry "mailbox" mailbox t ltac:(by right) Hwf) as H.
    by destruct (insert_ignore _ _ _ _ _ _ _).
  - by apply delete_wf.
  - by apply (delete_wf (λ r, ob_id r = row_id)).
  - unfold set_mailbox_target. case_decide as Hex; [done|].
    assert (outbox_wf (t_update (λ r, ob_id r = row_id) (λ r, mkOutboxRow (ob_id r) (ob_target r)
      (ob_payload r) (ob_message_id r) (ob_attempts r) (ob_next_retry_at r) "mailbox" mailbox) t).1).
    { apply update_wf; [done|done|by right|]. intros r r' Hr Hr' Hi Hi' Heq. apply Hex.
      apply Exists_exists. exists r. split; [by apply list_elem_of_filter|].
      rewrite Heq. apply list_elem_of_fmap_2. by apply list_elem_of_filter. }
    simpl. by case_decide.
  - by apply (delete_wf (λ r, ob_target r = target ∧ ob_message_id r = mid)).
  - apply update_wf; [done|done|by left|]. intros r r' Hr Hr' Hi Hi' Heq.
    assert (r = r') as -> by (by eapply ob_key_unique). done.
Qed.

(** ** Properties *)

(** The table stays well formed.  After any sequence of the repository's
    statements on an empty table, row ids are unique and below the sequence, no
    two rows share [(target, message_id, target_kind, mailbox_id)], and every
    row is direct or for a mailbox. *)
Theorem outbox_invariant t : rtc outbox_step empty_table t → outbox_wf t.
Proof.
  assert (outbox_wf empty_table) as H0.
  { split; [apply t_wf_empty|done|apply NoDup_nil_2|set_solver]. }
  intros Hr. revert H0. induction Hr as [|t1 t2 t3 Hs _ IH]; [done|].
  intros Hw. by apply IH, (outbox_step_wf t1).
Qed.

(** Rows of [(target, message_id)]. *)
Definition for_message (target message_id : bytes) (r : outbox_row) : Prop :=
  ob_target r = target ∧ ob_message_id r = message_id.
#[export] Instance for_message_decision target mid r : Decision (for_message target mid r).
Proof. unfold for_message. apply _. Defined.

Lemma enqueue_fresh target mid payload now t id t' :
  enqueue target mid payload now t = (t', Some id) →
  id = t_seq t + 1 ∧ t_rows t' = t_rows t ++ [mkOutboxRow id target payload mid 0 now "direct" 0].
Proof.
  unfold enqueue, insert, insert_ignore. case_decide; [done|]. intros [= <- <-]. done.
Qed.

Lemma enqueue_again target mid payload payload' now now' t :
  let t' := (enqueue target mid payload now t).1 in enqueue target mid payload' now' t' = (t', None).
Proof.
  unfold enqueue, insert, insert_ignore.
  destruct (decide ((target, mid, "direct", 0) ∈ (ob_key <$> t_rows t))) as [Hin|Hin]; cbn zeta.
  { cbn [fst]. by rewrite decide_True. }
  cbn [fst t_insert]. rewrite decide_True; [done|]. cbn [t_rows]. rewrite fmap_app. apply elem_of_app. right. simpl. set_solver.
Qed.

(** Enqueue, deliver, acknowledge.  A message enqueued for a peer is due for
    that peer at once and only once however often it is enqueued again; its ACK
    removes the direct row and every mailbox row of the message, reports a hit,
    and touches no other message; a second ACK reports a miss. *)
Theorem outbox_delivery target mid payload now t :
  outbox_wf t → len (t_rows t) < i64_max → len target = 32 → len mid = 16 →
  let '(t', r) := enqueue target mid payload now t in
  enqueue target mid payload now t' = (t', None) ∧
  (∀ id, r = Some id →
     mkOutboxEntry id target payload mid 0 Direct 0 ∈
       entries_due_direct_for target now (len (t_rows t')) t' ∧
     ∀ r0, r0 ∈ t_rows t → ob_id r0 < id) ∧
  (let '(t'', hit) := ack target mid t' in
   hit = true ∧ t_rows t'' = filter (λ r, ¬ for_message target mid r) (t_rows t) ∧
   (ack target mid t'').2 = false).
Proof.
  intros Hwf Hlen Ht Hm. destruct (enqueue target mid payload now t) as [t' r] eqn:E.
  pose proof (enqueue_again target mid payload payload now now t) as Hagain. rewrite E in Hagain.
  split; [done|]. split.
  - intros id ->. pose proof (enqueue_fresh _ _ _ _ _ _ _ E) as [-> Hrows]. split.
    + set (row := mkOutboxRow (t_seq t + 1) target payload mid 0 now "direct" 0) in *.
      apply list_elem_of_fmap. exists (map_row row). split; [|apply list_elem_of_fmap_2].
      2:{ apply limit_all.
          - rewrite order_by_Permutation, len_filter_le. rewrite Hrows, len_app, len_cons, len_nil.
            unfold sql_limit. lia.
          - apply elem_of_order_by, list_elem_of_filter. split; [done|].
            rewrite Hrows. set_solver. }
      unfold row_to_entry, map_row. simpl. by rewrite !decide_True.
    + intros r0 Hr0. pose proof (wf_seq _ _ (obwf_ids _ Hwf) r0 Hr0). lia.
  - assert (filter (for_message target mid) (t_rows t') ≠ [] ∧
      filter (λ r, ¬ for_message target mid r) (t_rows t') =
      filter (λ r, ¬ for_message target mid r) (t_rows t)) as [Hne Hrest].
    { destruct r as [id|].
      - pose proof (enqueue_fresh _ _ _ _ _ _ _ E) as [_ ->]. rewrite !filter_app. split.
        + rewrite (filter_cons_True (for_message target mid)) by done. by destruct (filter _ _).
        + rewrite (filter_cons_False (λ r, ¬ for_message target mid r)) by (unfold for_message; naive_solver).
          by rewrite app_nil_r.
      - revert E. unfold enqueue, insert, insert_ignore. case_decide as Hin; [|done].
        intros [= <-]. split; [|done]. apply list_elem_of_fmap in Hin as (r & Hk & Hr).
        intros Hnil. assert (r ∈ filter (for_message target mid) (t_rows t)) as Hf.
        { apply list_elem_of_filter. split; [|done]. unfold ob_key in Hk. by simplify_eq. }
        rewrite Hnil in Hf. set_solver. }
    unfold ack, ack_by_message_id, t_delete. simpl.
    change (λ r, ob_target r = target ∧ ob_message_id r = mid) with (for_message target mid).
    split_and!.
    + apply bool_decide_eq_true_2. destruct (filter (for_message target mid) (t_rows t')); [done|].
      lens.
    + exact Hrest.
    + apply bool_decide_eq_false_2. rewrite filter_none; [done|].
      intros x [Hx _]%list_elem_of_filter. exact Hx.
Qed.

(** A direct row for [target] that is due at [now]. *)
Definition direct_due (target : bytes) (now : Z) (r : outbox_row) : Prop :=
  ob_next_retry_at r ≤ now ∧ ob_target r = target ∧ ob_target_kind r = "direct".

(** A peer's retry batch cannot be starved.  [due_direct_for] returns at most
    [max] rows, all of them due direct rows of the peer; a due direct row of the
    peer is left out only when the batch is full of rows at least as old; rows
    of other peers and mailbox rows have no influence. *)
Theorem outbox_batch target now max t :
  0 ≤ max ≤ i64_max →
  ∃ rs, entries_due_direct_for target now max t = (λ r, row_to_entry (map_row r)) <$> rs ∧
    rs ⊆+ filter (λ r, ob_target r = target) (t_rows t) ∧
    len rs ≤ max ∧ Forall (direct_due target now) rs ∧
    (∀ r, r ∈ t_rows t → direct_due target now r → r ∉ rs →
       len rs = max ∧ ∀ r', r' ∈ rs → ob_next_retry_at r' ≤ ob_next_retry_at r) ∧
    (∀ t', filter (direct_due target now) (t_rows t') = filter (direct_due target now) (t_rows t) →
       entries_due_direct_for target now max t' = entries_due_direct_for target now max t).
Proof.
  intros Hmax.
  assert (∀ t, entries_due_direct_for target now max t = (λ r, row_to_entry (map_row r)) <$>
    limit max (order_by ob_next_retry_at (filter (direct_due target now) (t_rows t)))) as Hdef.
  { intros t0. unfold entries_due_direct_for, due_direct_for. rewrite <- list_fmap_compose.
    unfold sql_limit. by rewrite Z.min_l by lia. }
  exists (limit max (order_by ob_next_retry_at (filter (direct_due target now) (t_rows t)))).
  split_and!; [apply Hdef| |by apply limit_len; lia| | |].
  - trans (order_by ob_next_retry_at (filter (direct_due target now) (t_rows t))).
    { apply sublist_submseteq, sublist_take. }
    rewrite order_by_Permutation. apply sublist_submseteq.
    replace (filter (direct_due target now) (t_rows t)) with
      (filter (direct_due target now) (filter (λ r, ob_target r = target) (t_rows t))).
    { apply sublist_filter. }
    apply filter_filter_in. by intros r _ (_ & ? & _).
  - apply Forall_forall. intros r Hr%limit_elem_of. rewrite elem_of_order_by in Hr.
    by apply list_elem_of_filter in Hr as [? _].
  - intros r Hr Hd Hout. apply limit_earliest; [lia| |done]. by apply list_elem_of_filter.
  - intros t' Heq. by rewrite !Hdef, Heq.
Qed.

(** The retry schedule.  Rescheduling a row after [attempts] failures counts
    the failure and makes the row due between 0.75 and 1.25 times the nominal
    delay after [now], for every jitter drawn; no other row changes. *)
Theorem reschedule_window t r now factor t' :
  outbox_wf t → r ∈ t_rows t → 0 ≤ ob_attempts r → jitter_factor factor →
  0 ≤ now → now + 375000 ≤ i64_max →
  reschedule (ob_id r) (ob_attempts r) now factor t = t' →
  (∃ retry,
     mkOutboxRow (ob_id r) (ob_target r) (ob_payload r) (ob_message_id r) (ob_attempts r + 1)
       retry (ob_target_kind r) (ob_mailbox_id r) ∈ t_rows t' ∧
     now + 3 * nominal_ms (ob_attempts r) / 4 ≤ retry ≤ now + 5 * nominal_ms (ob_attempts r) / 4) ∧
  filter (λ r', ob_id r' ≠ ob_id r) (t_rows t') = filter (λ r', ob_id r' ≠ ob_id r) (t_rows t).
Proof.
  intros Hwf Hr Ha Hf Hnow Hmax <-. pose proof (backoff_range _ _ Ha Hf) as Hb.
  pose proof (nominal_ms_range _ Ha) as Hn.
  unfold reschedule, reschedule_row, t_update. cbn [t_rows fst].
  assert (0 ≤ 3 * nominal_ms (ob_attempts r) / 4) by (apply Z.div_pos; lia).
  assert (5 * nominal_ms (ob_attempts r) / 4 ≤ 375000) by (apply Z.div_le_upper_bound; lia).
  rewrite decide_True by widths. split.
  - eexists. split.
    + apply list_elem_of_fmap. exists r. split; [by rewrite decide_True by done|done].
    + widths.
  - clear. induction (t_rows t) as [|x l IH]; [done|]. rewrite fmap_cons, !filter_cons, IH.
    case_decide; simpl; repeat case_decide; done.
Qed.

(** ** Witnesses *)

Definition sample_outbox : outbox :=
  (insert_for_mailbox (fill 32 Byte.x01) (fill 16 Byte.x05) 3 [Byte.xaa] 50
     (enqueue (fill 32 Byte.x02) (fill 16 Byte.x06) [Byte.xbb] 10 empty_table).1).1.

Lemma sample_outbox_reachable : rtc outbox_step empty_table sample_outbox.
Proof.
  eapply rtc_l; [apply (ob_insert _ (fill 32 Byte.x02) (fill 16 Byte.x06) [Byte.xbb] 10)|].
  eapply rtc_l; [apply ob_insert_for_mailbox|]. apply rtc_refl.
Qed.

Lemma outbox_invariant_witness : outbox_wf sample_outbox ∧ len (t_rows sample_outbox) = 2.
Proof. split; [apply outbox_invariant, sample_outbox_reachable|reflexivity]. Defined.

Lemma sample_outbox_wf : outbox_wf sample_outbox.
Proof.
  eapply outbox_step_wf; [|apply ob_insert_for_mailbox].
  eapply outbox_step_wf; [|apply (ob_insert _ (fill 32 Byte.x02) (fill 16 Byte.x06) [Byte.xbb] 10)].
  split; [apply t_wf_empty|done|apply NoDup_nil_2|set_solver].
Qed.

Lemma outbox_delivery_witness :
  let '(t', r) := enqueue (fill 32 Byte.x01) (fill 16 Byte.x05) [Byte.xaa] 60 sample_outbox in
  r = Some 3 ∧ t_rows (ack (fill 32 Byte.x01) (fill 16 Byte.x05) t').1 = take 1 (t_rows sample_outbox).
Proof.
  pose proof (outbox_delivery (fill 32 Byte.x01) (fill 16 Byte.x05) [Byte.xaa] 60 sample_outbox
    sample_outbox_wf ltac:(vm_compute; done) eq_refl eq_refl) as H.
  destruct (enqueue _ _ _ _ sample_outbox) as [t' r] eqn:E.
  assert (r = (enqueue (fill 32 Byte.x01) (fill 16 Byte.x05) [Byte.xaa] 60 sample_outbox).2) as ->
    by (by rewrite E).
  split; [vm_compute; reflexivity|]. destruct H as (_ & _ & Hack).
  destruct (ack _ _ t') as [t'' hit]. destruct Hack as (_ & Hrows & _). cbn [fst]. rewrite Hrows.
  vm_compute. reflexivity.
Defined.

Lemma outbox_batch_witness :
  ∃ rs, entries_due_direct_for (fill 32 Byte.x02) 100 5 sample_outbox
      = (λ r, row_to_entry (map_row r)) <$> rs ∧ len rs ≤ 5.
Proof.
  destruct (outbox_batch (fill 32 Byte.x02) 100 5 sample_outbox) as (rs & H1 & _ & H2 & _); [widths|].
  exists rs. split; [exact H1|exact H2].
Defined.

Lemma reschedule_window_witness :
  let r := mkOutboxRow 1 (fill 32 Byte.x02) [Byte.xbb] (fill 16 Byte.x06) 0 10 "direct" 0 in
  ∃ retry,
    mkOutboxRow 1 (fill 32 Byte.x02) [Byte.xbb] (fill 16 Byte.x06) 1 retry "direct" 0
      ∈ t_rows (reschedule 1 0 2000 (f64_of_Z 1) sample_outbox) ∧
    2000 + 3 * nominal_ms 0 / 4 ≤ retry ≤ 2000 + 5 * nominal_ms 0 / 4.
Proof.
  intros r. destruct (reschedule_window sample_outbox r 2000 (f64_of_Z 1)
    (reschedule 1 0 2000 (f64_of_Z 1) sample_outbox) sample_outbox_wf)
    as [H _]; [vm_compute; left|done|vm_compute; done|done|vm_compute; done|reflexivity|].
  exact H.
Defined.
