(* ===== verification/Identity.v ===== *)
(** * Identity: identity keys, signatures and contact cards

    [crates/core/src/identity/key.rs] (signing and verification),
    [crates/core/src/contact/card.rs] and [crates/core/src/contact/self_card.rs]
    (the signed, versioned routing record and its version counter).  Ed25519 is
    the class [SignatureScheme]; its law is that a key verifies its own
    signatures. *)

From S2P Require Import Prelude Framing SimpleCodec CoreErrors.

(** [ed25519_dalek] on 32-byte secrets. *)
Class SignatureScheme : Type := {
  to_montgomery : bytes → bytes;
  verifying_key : bytes → bytes;
  sign_bytes : bytes → bytes → bytes;
  key_on_curve : bytes → bool;
  verify_strict : bytes → bytes → bytes → bool
}.

Class SignatureLaws {scheme : SignatureScheme} : Prop := {
  own_key_valid sk : key_on_curve (verifying_key sk) = true;
  own_signature_verifies sk m : verify_strict (verifying_key sk) m (sign_bytes sk m) = true
}.

(** [IdentityKey]: the 32-byte secret. *)
Record IdentityKey : Type := mkIdentityKey { secret : bytes }.

Section keys.
Context {scheme : SignatureScheme}.

(** [IdentityKey::public]. *)
Definition public (k : IdentityKey) : bytes := verifying_key (secret k).

(** [IdentityKey::sign]. *)
Definition sign (k : IdentityKey) (message : bytes) : bytes := sign_bytes (secret k) message.

(** [IdentityKey::verify]. *)
Definition verify (pubkey message signature : bytes) : result unit CoreError :=
  if negb (key_on_curve pubkey) then Err (Core_Identity "verification failed")
  else if verify_strict pubkey message signature then Ok tt
  else Err (Core_Identity "verification failed").

(** [ed25519_pub_to_x25519]. *)
Definition ed25519_pub_to_x25519 (pk : bytes) : bytes := to_montgomery pk.

(** [IdentityKey::noise_static_public]. *)
Definition noise_static_public (k : IdentityKey) : bytes := ed25519_pub_to_x25519 (public k).

(** [IdentityKey::sign_cbor]. *)
Definition sign_cbor {T} `{!Serialize T} (k : IdentityKey) (body : T) : result bytes CoreError :=
  let? b := map_err (λ e, Core_Identity ("sign_cbor: " +:+ e)) (into_writer body) in
  Ok (sign k b).

(** [IdentityKey::verify_cbor]. *)
Definition verify_cbor {T} `{!Serialize T} (pubkey : bytes) (body : T) (signature : bytes)
    : result unit CoreError :=
  let? b := map_err (λ _, Core_Identity "verification failed") (into_writer body) in
  verify pubkey b signature.
End keys.

(** The X25519 clamp of [IdentityKey::noise_static_secret] on the first 32 bytes
    of SHA-512 of the secret. *)
Definition clamp (b : bytes) : bytes :=
  let b0 := byte_of_Z (Z.land (Z_of_byte (nth 0 b Byte.x00)) 248) in
  let b31 := byte_of_Z (Z.lor (Z.land (Z_of_byte (nth 31 b Byte.x00)) 127) 64) in
  <[31%nat := b31]> (<[0%nat := b0]> b).

Definition noise_static_secret (sha512 : bytes → bytes) (k : IdentityKey) : bytes :=
  clamp (take 32 (sha512 (secret k))).

(** ** [contact/card.rs] *)

Record ContactCardBody : Type := mkContactCardBody {
  card_identity : bytes;
  card_onion : string;
  card_mailboxes : list string;
  card_version : Z;
  card_expires_at : Z
}.

Record ContactCard : Type := mkContactCard { card_body : ContactCardBody; card_signature : bytes }.

#[export] Instance ContactCardBody_eq_decision : EqDecision ContactCardBody.
Proof. solve_decision. Defined.
#[export] Instance ContactCard_eq_decision : EqDecision ContactCard.
Proof. solve_decision. Defined.

Section cards.
Context {scheme : SignatureScheme} {ser : Serialize ContactCardBody}.

(** [ContactCard::sign]. *)
Definition card_sign (signer : IdentityKey) (onion : string) (mailboxes : list string)
    (version ttl_secs now : Z) : result ContactCard CoreError :=
  let? ttl := if decide (ttl_secs ≤ i64_max) then Ok ttl_secs
              else Err (Core_Contact (Contact_Other "card: ttl overflows i64")) in
  let? expires_at := if decide (i64_min ≤ now + ttl ≤ i64_max) then Ok (now + ttl)
                     else Err (Core_Contact (Contact_Other "card: expires_at overflows i64")) in
  let body := mkContactCardBody (public signer) onion mailboxes version expires_at in
  let? signature := sign_cbor signer body in
  Ok (mkContactCard body signature).

(** [ContactCard::verify]. *)
Definition card_verify (card : ContactCard) (now : Z) : result bytes CoreError :=
  let body := card_body card in
  if decide (now > card_expires_at body) then Err (Core_Contact (Contact_Other "card: expired"))
  else
    let? _ := map_err (λ _, Core_Contact (Contact_Other "card: signature verification failed"))
      (verify_cbor (card_identity body) body (card_signature card)) in
    Ok (card_identity body).

(** ** [contact/self_card.rs] *)

Definition DEFAULT_TTL_SECS : Z := 7 * 24 * 3600.

(** The transaction of [build_next_self_card] on the singleton
    [self_card_state.version].  SQLite's [version + 1] becomes a REAL beyond the
    64-bit range, which the [i64] read refuses; the bump is then rolled back. *)
Definition bump_version (version : Z) : Z * result Z CoreError :=
  transaction version (λ v,
    if decide (v + 1 ≤ i64_max) then Ok (v + 1, v + 1)
    else Err (Core_Storage (Storage_Other
      "self_card: read version: Invalid column type Real at index: 0, name: version"))).

(** [build_next_self_card]. *)
Definition build_next_self_card (signer : IdentityKey) (onion : string)
    (mailboxes : list string) (ttl_secs now : Z) : action Z ContactCard CoreError :=
  let! version := bump_version in
  let! version_u64 := lift (if decide (in_u64 version) then Ok version
    else Err (Core_Storage (Storage_Other "self_card: version overflowed u64"))) in
  lift (card_sign signer onion mailboxes version_u64 ttl_secs now).

(** A sequence of publications from version counter [version]. *)
Fixpoint publish_all (version : Z) (signer : IdentityKey)
    (requests : list (string * list string * Z * Z)) : Z * list ContactCard :=
  match requests with
  | [] => (version, [])
  | (onion, mailboxes, ttl, now) :: requests' =>
      let '(version', r) := build_next_self_card signer onion mailboxes ttl now version in
      let '(version'', cards) := publish_all version' signer requests' in
      (version'', match r with Ok c => c :: cards | Err _ => cards end)
  end.
End cards.

(** ** Lemmas *)

Section card_facts.
Context {scheme : SignatureScheme} {ser : Serialize ContactCardBody}.

Lemma verify_cbor_sign {laws : SignatureLaws} signer (body : ContactCardBody) s :
  sign_cbor signer body = Ok s → verify_cbor (public signer) body s = Ok tt.
Proof.
  unfold sign_cbor, verify_cbor. destruct (into_writer body) as [b|e]; simpl; [|done].
  intros [= <-]. unfold verify, public, sign. by rewrite own_key_valid, own_signature_verifies.
Qed.

Lemma card_sign_Ok signer onion mailboxes version ttl now c :
  card_sign signer onion mailboxes version ttl now = Ok c →
  ttl ≤ i64_max ∧ i64_min ≤ now + ttl ≤ i64_max ∧
  card_body c = mkContactCardBody (public signer) onion mailboxes version (now + ttl) ∧
  sign_cbor signer (card_body c) = Ok (card_signature c).
Proof.
  unfold card_sign. case_decide; [|done]. simpl. case_decide; [|done]. simpl.
  intros (s & Hs & [= <-])%bind_Ok_inv. done.
Qed.

(** A publication either leaves the counter alone and fails, or moves it up by
    one; the card it returns, if any, carries the new value. *)
Lemma build_next_self_card_spec version signer onion mailboxes ttl now version' r :
  build_next_self_card signer onion mailboxes ttl now version = (version', r) →
  version ≤ version' ∧ (∀ c, r = Ok c → version < version' ∧ card_version (card_body c) = version').
Proof.
  unfold build_next_self_card, bump_version, bind_action, transaction.
  case_decide; cbn; [|intros [= <- <-]; split; [lia|done]].
  case_decide; cbn; intros [= <- <-]; (split; [lia|]); [|done].
  intros c (_ & _ & Hb & _)%card_sign_Ok. rewrite Hb. simpl. lia.
Qed.

Lemma publish_all_versions version signer requests version' cards :
  publish_all version signer requests = (version', cards) →
  version ≤ version' ∧ Forall (λ c, version < card_version (card_body c) ≤ version') cards ∧
  StronglySorted (λ c c', card_version (card_body c) < card_version (card_body c')) cards.
Proof.
  revert version cards. induction requests as [|[[[onion mailboxes] ttl] now] requests IH];
    intros version cards; cbn [publish_all].
  { intros [= <- <-]. split_and!; [lia|constructor..]. }
  destruct (build_next_self_card _ _ _ _ _ _) as [v1 r] eqn:E1.
  destruct (publish_all v1 signer requests) as [v2 cards2] eqn:E2. intros [= <- <-].
  apply build_next_self_card_spec in E1 as [Hle Hc]. apply IH in E2 as (Hle2 & Hall & Hs).
  assert (Forall (λ c, version < card_version (card_body c) ≤ v2) cards2) as Hall'.
  { eapply Forall_impl; [exact Hall|]. simpl. intros; lia. }
  destruct r as [c|e]; [|split_and!; [lia|done|done]].
  destruct (Hc c eq_refl) as [Hlt Hv]. split_and!.
  - lia.
  - constructor; [lia|done].
  - constructor; [done|]. eapply Forall_impl; [exact Hall|]. simpl. intros; lia.
Qed.

(** Cards verify until they expire.  A card this identity signs verifies for
    every receiver up to and including its expiry, as a card of this identity,
    and is refused after it; publishing any sequence of cards gives strictly
    increasing versions above the counter they started from. *)
Theorem self_card_lifecycle {laws : SignatureLaws} version signer onion mailboxes ttl now c now' requests :
  card_sign signer onion mailboxes version ttl now = Ok c →
  (card_verify c now' =
     if decide (now' ≤ now + ttl) then Ok (public signer)
     else Err (Core_Contact (Contact_Other "card: expired"))) ∧
  StronglySorted (λ a b, card_version (card_body a) < card_version (card_body b))
    (publish_all version signer requests).2 ∧
  Forall (λ a, version < card_version (card_body a)) (publish_all version signer requests).2.
Proof.
  intros (_ & _ & Hb & Hs)%card_sign_Ok. split.
  - unfold card_verify. apply verify_cbor_sign in Hs. rewrite Hb in *. simpl in *. rewrite Hs. simpl.
    repeat case_decide; done || lia.
  - destruct (publish_all version signer requests) as [v cards] eqn:E.
    apply publish_all_versions in E as (_ & Hall & Hsorted).
    split; [done|]. eapply Forall_impl; [exact Hall|]. simpl. intros; lia.
Qed.
End card_facts.

(** ** Witness: a toy scheme where a signature is the signed text behind the key *)

#[local] Instance toy_scheme : SignatureScheme := {|
  to_montgomery pk := pk; verifying_key sk := sk; sign_bytes sk m := sk ++ m; key_on_curve _ := true;
  verify_strict pk m s := bool_decide (s = pk ++ m)
|}.
Lemma toy_laws : SignatureLaws.
Proof. split; intros; [done|]. by apply bool_decide_eq_true_2. Qed.

#[local] Instance codec_card_body : Codec ContactCardBody :=
  codec_via (λ b, (card_identity b, card_onion b, card_mailboxes b, card_version b, card_expires_at b))
    (λ v, Some (mkContactCardBody v.1.1.1.1 v.1.1.1.2 v.1.1.2 v.1.2 v.2))
    (λ '(mkContactCardBody _ _ _ _ _), eq_refl).
(** Cards as the other files' witnesses encode them. *)
Definition codec_contact_card : Codec ContactCard :=
  codec_via (λ c, (card_body c, card_signature c)) (λ v, Some (mkContactCard v.1 v.2))
    (λ '(mkContactCard _ _), eq_refl).
#[local] Existing Instance serialize_of.

Lemma self_card_lifecycle_witness :
  let signer := mkIdentityKey (fill 32 Byte.x09) in
  ∃ c, card_sign signer "a.onion" [] 1 3600 100 = Ok c ∧
    card_verify c 3700 = Ok (public signer) ∧
    (card_version ∘ card_body) <$> (publish_all 1 signer [("a.onion", [], 60, 100); ("b.onion", [], 60, 200)]).2
      = [2; 3].
Proof.
  intros signer.
  destruct (card_sign signer "a.onion" [] 1 3600 100) as [c|e] eqn:E; [|vm_compute in E; discriminate].
  exists c. split; [reflexivity|]. split; [|vm_compute; reflexivity].
  pose proof (self_card_lifecycle (laws := toy_laws) 1 signer "a.onion" [] 3600 100 c 3700 [] E) as [H _].
  exact H.
Defined.
