(* ===== verification/Contacts.v ===== *)
(** * Contacts: contacts, onion history and contact cards

    [crates/core/src/storage/contacts.rs] over the tables [contacts],
    [onion_addresses] and [contact_cards] (migrations 0001, 0003, 0005, 0011 and
    0013), with the foreign keys and their [ON DELETE CASCADE].  SQLite errors
    other than violated constraints are not modelled. *)

From S2P Require Import Prelude Text Framing SimpleCodec CoreErrors Sql Identity.

(** ** The tables *)

Record contact_row : Type := mkContactRow {
  c_id : Z;
  c_identity_pubkey : bytes;
  c_display_name : option string;
  c_added_at : Z;
  c_group_id : bytes;
  c_hidden : Z;
  c_muted : Z
}.

Record onion_row : Type := mkOnionRow {
  o_id : Z;
  o_contact_id : Z;
  o_address : string;
  o_seen_at : Z;
  o_is_current : Z
}.

Record card_row : Type := mkCardRow {
  cc_id : Z;
  cc_contact_id : Z;
  cc_version : Z;
  cc_card_blob : bytes;
  cc_verified_at : Z
}.

Record contacts_db : Type := mkContactsDb {
  contacts : table contact_row;
  onion_addresses : table onion_row;
  contact_cards : table card_row
}.

(** [contact/contact.rs]. *)
Record Contact : Type := mkContact {
  identity : bytes;
  display_name : option string;
  added_at : Z;
  card : option ContactCard;
  muted : bool
}.

(** ** Listing order *)

(** [ORDER BY display_name IS NULL, display_name COLLATE NOCASE]. *)
Definition name_leb (x y : option string) : bool :=
  match x, y with
  | Some s, Some t => str_leb (to_ascii_lowercase s) (to_ascii_lowercase t)
  | Some _, None => true
  | None, Some _ => false
  | None, None => true
  end.

Definition name_le (r r' : contact_row) : Prop := name_leb (c_display_name r) (c_display_name r') = true.
#[export] Instance name_le_dec : RelDecision name_le := λ r r', decide (name_leb _ _ = true).

(** ** [storage/contacts.rs] *)

(** The rows and id of a contact: [identity_pubkey] is unique. *)
Definition rows_of (id : bytes) (db : contacts_db) : list contact_row :=
  filter (λ r, c_identity_pubkey r = id) (t_rows (contacts db)).
Definition contact_id (id : bytes) (db : contacts_db) : option Z := c_id <$> head (rows_of id db).

Definition set_contacts (t : table contact_row) (db : contacts_db) : contacts_db :=
  mkContactsDb t (onion_addresses db) (contact_cards db).

(** [UPDATE contacts SET ... WHERE identity_pubkey = ?], with the changed rows. *)
Definition update_contact (id : bytes) (f : contact_row → contact_row) (db : contacts_db)
    : contacts_db * Z :=
  let '(t, changed) := t_update (λ r, c_identity_pubkey r = id) f (contacts db) in
  (set_contacts t db, changed).

(** The updates that report a missing row. *)
Definition update_existing (id : bytes) (f : contact_row → contact_row)
    : action contacts_db unit CoreError := λ db,
  let '(db', changed) := update_contact id f db in
  (db', if decide (changed = 0) then Err (Core_Contact Contact_NotFound) else Ok tt).

Definition with_name (n : option string) (r : contact_row) : contact_row :=
  mkContactRow (c_id r) (c_identity_pubkey r) n (c_added_at r) (c_group_id r) (c_hidden r) (c_muted r).
Definition with_group (g : bytes) (r : contact_row) : contact_row :=
  mkContactRow (c_id r) (c_identity_pubkey r) (c_display_name r) (c_added_at r) g (c_hidden r) (c_muted r).
Definition with_hidden (h : Z) (r : contact_row) : contact_row :=
  mkContactRow (c_id r) (c_identity_pubkey r) (c_display_name r) (c_added_at r) (c_group_id r) h (c_muted r).
Definition with_muted (m : Z) (r : contact_row) : contact_row :=
  mkContactRow (c_id r) (c_identity_pubkey r) (c_display_name r) (c_added_at r) (c_group_id r) (c_hidden r) m.

(** [upsert] and [upsert_in_tx]: one statement. *)
Definition upsert (contact : Contact) : action contacts_db unit CoreError := λ db,
  match rows_of (identity contact) db with
  | [] =>
      let '(t, _) := t_insert (λ id, mkContactRow id (identity contact) (display_name contact)
        (added_at contact) [] 0 0) (contacts db) in
      (set_contacts t db, Ok tt)
  | _ :: _ =>
      ((update_contact (identity contact) (λ r, with_hidden 0 (with_name (display_name contact) r)) db).1,
       Ok tt)
  end.

(** [remove] and [remove_in_tx]: the delete and its cascades. *)
Definition remove (id : bytes) : action contacts_db unit CoreError := λ db,
  let gone := c_id <$> rows_of id db in
  (mkContactsDb (t_delete (λ r, c_identity_pubkey r = id) (contacts db)).1
     (t_delete (λ r, o_contact_id r ∈ gone) (onion_addresses db)).1
     (t_delete (λ r, cc_contact_id r ∈ gone) (contact_cards db)).1,
   Ok tt).

Definition add_onion (id : bytes) (address : string) (seen_at : Z) : action contacts_db unit CoreError :=
  λ db,
  match contact_id id db with
  | None => (db, Err (Core_Storage (Storage_Other
      "add onion: NOT NULL constraint failed: onion_addresses.contact_id")))
  | Some cid =>
      let '(t, _) := t_insert (λ n, mkOnionRow n cid address seen_at 1) (onion_addresses db) in
      (mkContactsDb (contacts db) t (contact_cards db), Ok tt)
  end.

Definition with_current (v : Z) (r : onion_row) : onion_row :=
  mkOnionRow (o_id r) (o_contact_id r) (o_address r) (o_seen_at r) v.

(** The two updates of [mark_current]; a missing contact matches no row. *)
Definition mark_current (id : bytes) (address : string) : action contacts_db unit CoreError := λ db,
  let cid := contact_id id db in
  let '(t, _) := t_update (λ r, cid = Some (o_contact_id r)) (with_current 0) (onion_addresses db) in
  let '(t', _) := t_update (λ r, cid = Some (o_contact_id r) ∧ o_address r = address) (with_current 1) t in
  (mkContactsDb (contacts db) t' (contact_cards db), Ok tt).

Definition current_onion (id : bytes) (db : contacts_db) : option string :=
  o_address <$> head (order_by (λ r, - o_seen_at r)
    (filter (λ r, contact_id id db = Some (o_contact_id r) ∧ o_is_current r = 1)
       (t_rows (onion_addresses db)))).

Definition max_version (vs : list Z) : option Z :=
  match vs with [] => None | v :: vs' => Some (foldr Z.max v vs') end.

Definition cards_of (cid : Z) (db : contacts_db) : list card_row :=
  filter (λ r, cc_contact_id r = cid) (t_rows (contact_cards db)).

Section cards_repo.
Context {ser : Serialize ContactCard} {de : Deserialize ContactCard}.

(** [put_card_in_tx_inner], the body of [put_card] and [put_card_in_tx];
    [verified_at] is the wall clock. *)
Definition put_card_body (verified_at : Z) (card : ContactCard) (db : contacts_db)
    : result (contacts_db * unit) CoreError :=
  let version := card_version (card_body card) in
  let? version_i := if decide (version ≤ i64_max) then Ok version
    else Err (Core_Contact (Contact_Other "card: version overflows i64")) in
  let? blob := map_err (λ e, Core_Contact (Contact_Other ("card: cbor encode: " +:+ e)))
    (into_writer card) in
  let? cid := ok_or (contact_id (card_identity (card_body card)) db) (Core_Contact Contact_NotFound) in
  let? _ := match max_version (cc_version <$> cards_of cid db) with
    | Some max_v => if decide (version_i ≤ max_v)
        then Err (Core_Contact (Contact_Other "card: stale version")) else Ok tt
    | None => Ok tt
    end in
  let '(t, _) := t_insert (λ n, mkCardRow n cid version_i blob verified_at) (contact_cards db) in
  Ok (mkContactsDb (contacts db) (onion_addresses db) t, tt).

Definition put_card (verified_at : Z) (card : ContactCard) : action contacts_db unit CoreError :=
  λ db, transaction db (put_card_body verified_at card).

Definition latest_card (id : bytes) (db : contacts_db) : result (option ContactCard) CoreError :=
  let ids := c_id <$> rows_of id db in
  match head (order_by (λ r, - cc_version r)
          (filter (λ r, cc_contact_id r ∈ ids) (t_rows (contact_cards db)))) with
  | None => Ok None
  | Some r =>
      let? c := map_err (λ e, Core_Contact (Contact_Other ("card: cbor decode: " +:+ e)))
        (from_reader (cc_card_blob r)) in
      Ok (Some c)
  end.

Definition get (id : bytes) (db : contacts_db) : result (option Contact) CoreError :=
  match head (rows_of id db) with
  | None => Ok None
  | Some r =>
      let? c := latest_card id db in
      Ok (Some (mkContact id (c_display_name r) (c_added_at r) c (bool_decide (c_muted r ≠ 0))))
  end.

(** A stored key as a [PublicKey]: zeros when it is not 32 bytes. *)
Definition row_key (r : contact_row) : bytes :=
  if decide (len (c_identity_pubkey r) = 32) then c_identity_pubkey r else fill 32 Byte.x00.

Fixpoint hydrate (rows : list contact_row) (db : contacts_db) : result (list Contact) CoreError :=
  match rows with
  | [] => Ok []
  | r :: rows' =>
      let? c := latest_card (row_key r) db in
      let? rest := hydrate rows' db in
      Ok (mkContact (row_key r) (c_display_name r) (c_added_at r) c (bool_decide (c_muted r ≠ 0)) :: rest)
  end.

Definition list_contacts (db : contacts_db) : result (list Contact) CoreError :=
  hydrate (merge_sort name_le (filter (λ r, c_hidden r = 0) (t_rows (contacts db)))) db.

Definition list_all (db : contacts_db) : result (list Contact) CoreError :=
  hydrate (merge_sort name_le (t_rows (contacts db))) db.

Definition find_by_noise_x25519 `{!SignatureScheme} (x : bytes) (db : contacts_db)
    : result (option bytes) CoreError :=
  let? cs := list_contacts db in
  Ok (identity <$> head (filter (λ c, key_on_curve (identity c) = true ∧
                                       ed25519_pub_to_x25519 (identity c) = x) cs)).
End cards_repo.

(** [set_group_id] and [set_group_id_in_tx]. *)
Definition set_group_id (id group_id : bytes) : action contacts_db unit CoreError :=
  update_existing id (with_group group_id).

Definition contact_for_group (group_id : bytes) (db : contacts_db) : option bytes :=
  r ← head (filter (λ r, c_group_id r = group_id) (t_rows (contacts db)));
  if decide (len (c_identity_pubkey r) = 32) then Some (c_identity_pubkey r) else None.

Definition get_group_id (id : bytes) (db : contacts_db) : option bytes :=
  c_group_id <$> head (rows_of id db).

Definition set_display_name (id : bytes) (name : option string) : action contacts_db unit CoreError :=
  update_existing id (with_name name).

Definition set_hidden (id : bytes) (hidden : bool) : action contacts_db unit CoreError :=
  update_existing id (with_hidden (if hidden then 1 else 0)).

Definition set_muted (id : bytes) (muted : bool) : action contacts_db unit CoreError := λ db,
  ((update_contact id (with_muted (if muted then 1 else 0)) db).1, Ok tt).

Definition is_muted (id : bytes) (db : contacts_db) : bool :=
  match c_muted <$> head (rows_of id db) with Some v => bool_decide (v ≠ 0) | None => false end.

Definition lookup_by_prefix (prefix : string) (db : contacts_db) : result (list bytes) CoreError :=
  if decide (prefix = EmptyString) then Err (Core_Contact (Contact_Other "lookup: empty prefix"))
  else if negb (string_forall is_ascii_hexdigit prefix)
  then Err (Core_Contact (Contact_Other ("lookup: non-hex prefix " +:+ debug_str prefix)))
  else
    let lower := to_ascii_lowercase prefix in
    Ok (filter (λ b, len b = 32 ∧ starts_with (hex_encode b) lower = true)
          (c_identity_pubkey <$> t_rows (contacts db))).

(** ** Sequences of operations *)

Inductive contact_op : Type :=
| OpUpsert (c : Contact)
| OpRemove (id : bytes)
| OpAddOnion (id : bytes) (address : string) (seen_at : Z)
| OpMarkCurrent (id : bytes) (address : string)
| OpPutCard (verified_at : Z) (card : ContactCard)
| OpSetGroupId (id group_id : bytes)
| OpSetDisplayName (id : bytes) (name : option string)
| OpSetHidden (id : bytes) (hidden : bool)
| OpSetMuted (id : bytes) (muted : bool).

Definition apply_op `{!Serialize ContactCard} (db : contacts_db) (op : contact_op) : contacts_db :=
  match op with
  | OpUpsert c => (upsert c db).1
  | OpRemove id => (remove id db).1
  | OpAddOnion id address seen_at => (add_onion id address seen_at db).1
  | OpMarkCurrent id address => (mark_current id address db).1
  | OpPutCard verified_at card => (put_card verified_at card db).1
  | OpSetGroupId id group_id => (set_group_id id group_id db).1
  | OpSetDisplayName id name => (set_display_name id name db).1
  | OpSetHidden id hidden => (set_hidden id hidden db).1
  | OpSetMuted id muted => (set_muted id muted db).1
  end.

Definition run_ops `{!Serialize ContactCard} (ops : list contact_op) (db : contacts_db) : contacts_db :=
  foldl apply_op db ops.

Definition empty_contacts : contacts_db := mkContactsDb empty_table empty_table empty_table.

(** ** Invariant *)

(** A stored card is the encoding of a card of the contact it is filed under,
    at the version of its row. *)
Definition card_row_ok `{!Serialize ContactCard} (db : contacts_db) (r : card_row) : Prop :=
  ∃ c k, into_writer c = Ok (cc_card_blob r) ∧ card_version (card_body c) = cc_version r ∧
    k ∈ t_rows (contacts db) ∧ c_id k = cc_contact_id r ∧
    c_identity_pubkey k = card_identity (card_body c).

Record contacts_wf `{!Serialize ContactCard} (db : contacts_db) : Prop := {
  cw_ids : t_wf c_id (contacts db);
  cw_seq : 0 ≤ t_seq (contacts db);
  cw_keys : NoDup (c_identity_pubkey <$> t_rows (contacts db));
  cw_onions : ∀ r, r ∈ t_rows (onion_addresses db) → o_contact_id r ∈ (c_id <$> t_rows (contacts db));
  cw_cards : ∀ r, r ∈ t_rows (contact_cards db) → card_row_ok db r;
  cw_versions : ∀ cid, StronglySorted (λ r r', cc_version r < cc_version r') (cards_of cid db)
}.

Section contacts_facts.
Context {ser : Serialize ContactCard}.
Implicit Types (db : contacts_db).

Lemma rows_of_row db k :
  contacts_wf db → k ∈ t_rows (contacts db) → rows_of (c_identity_pubkey k) db = [k].
Proof. intros Hwf Hk. apply (filter_key c_identity_pubkey); [apply Hwf|done]. Qed.

Lemma rows_of_elem id db k :
  k ∈ rows_of id db → k ∈ t_rows (contacts db) ∧ c_identity_pubkey k = id.
Proof. intros [? ?]%list_elem_of_filter. done. Qed.

Lemma rows_of_cases id db :
  contacts_wf db →
  (rows_of id db = [] ∧ ∀ k, k ∈ t_rows (contacts db) → c_identity_pubkey k ≠ id) ∨
  (∃ k, rows_of id db = [k] ∧ k ∈ t_rows (contacts db) ∧ c_identity_pubkey k = id).
Proof.
  intros Hwf. destruct (rows_of id db) as [|k l] eqn:E.
  - left. split; [done|]. intros k Hk Heq. pose proof (rows_of_row db k Hwf Hk) as H. congruence.
  - right. exists k. assert (k ∈ rows_of id db) as [Hk Hid]%rows_of_elem by (rewrite E; set_solver).
    split_and!; [|done..]. rewrite <- E, <- Hid. by apply rows_of_row.
Qed.

(** The cards of an identity are those of its row. *)
Lemma contact_id_Some id db cid :
  contacts_wf db → contact_id id db = Some cid →
  ∃ k, rows_of id db = [k] ∧ k ∈ t_rows (contacts db) ∧ c_identity_pubkey k = id ∧ c_id k = cid.
Proof.
  intros Hwf. unfold contact_id.
  destruct (rows_of_cases id db Hwf) as [[-> _]|(k & -> & Hk & Hid)]; [done|].
  intros [= <-]. by exists k.
Qed.

Lemma max_version_spec vs :
  match max_version vs with
  | Some m => m ∈ vs ∧ ∀ v, v ∈ vs → v ≤ m
  | None => vs = []
  end.
Proof.
  destruct vs as [|v vs]; simpl; [done|].
  induction vs as [|w vs [IH1 IH2]]; simpl; [set_solver by lia|]. split.
  - destruct (Z.max_spec w (foldr Z.max v vs)) as [[_ ->]|[_ ->]]; set_solver.
  - intros x. rewrite !elem_of_cons. intros [->|[->|Hx]].
    + specialize (IH2 v ltac:(set_solver)). lia.
    + lia.
    + specialize (IH2 x ltac:(set_solver)). lia.
Qed.

(** What an operation on the contact rows has to keep. *)
Lemma contacts_wf_rows db t :
  contacts_wf db → t_wf c_id t → 0 ≤ t_seq t → NoDup (c_identity_pubkey <$> t_rows t) →
  (∀ k, k ∈ t_rows (contacts db) →
     ∃ k', k' ∈ t_rows t ∧ c_id k' = c_id k ∧ c_identity_pubkey k' = c_identity_pubkey k) →
  contacts_wf (set_contacts t db).
Proof.
  intros [Hi Hs Hk Ho Hc Hv] Hi' Hs' Hk' Hsim. split; simpl; try done.
  - intros r (k & -> & Hkin)%Ho%list_elem_of_fmap. destruct (Hsim k Hkin) as (k' & ? & <- & _).
    by apply list_elem_of_fmap_2.
  - intros r (c & k & ? & ? & Hkin & ? & ?)%Hc. destruct (Hsim k Hkin) as (k' & ? & ? & ?).
    exists c, k'. simpl. split_and!; congruence.
Qed.

Lemma update_contact_wf id f db :
  (∀ r, c_id (f r) = c_id r ∧ c_identity_pubkey (f r) = c_identity_pubkey r) →
  contacts_wf db → contacts_wf (update_contact id f db).1.
Proof.
  intros Hf Hwf. simpl. apply contacts_wf_rows; [done|..]; simpl.
  - apply t_wf_map; [apply Hwf|]. intros r. case_decide; [apply Hf|done].
  - apply Hwf.
  - rewrite <- list_fmap_compose. erewrite list_fmap_ext; [apply Hwf|].
    intros i r _. simpl. case_decide; [apply Hf|done].
  - intros k Hk. eexists. split; [by apply list_elem_of_fmap_2|].
    case_decide; [apply Hf|done].
Qed.

Lemma upsert_wf c db : contacts_wf db → contacts_wf (upsert c db).1.
Proof.
  intros Hwf. unfold upsert. destruct (rows_of_cases (identity c) db Hwf) as [[-> Hn]|(k & -> & _)];
    [|by apply update_contact_wf].
  apply contacts_wf_rows; [done|..]; simpl.
  - by apply (t_wf_insert c_id (λ id, mkContactRow id (identity c) (display_name c) (added_at c) [] 0 0));
      [apply Hwf..|].
  - pose proof (cw_seq db Hwf). lia.
  - rewrite fmap_app. apply NoDup_app. split_and!; [apply Hwf| |apply NoDup_singleton].
    intros x (k & -> & Hk)%list_elem_of_fmap Heq%list_elem_of_singleton. by eapply Hn.
  - intros k Hk. exists k. set_solver.
Qed.

Lemma remove_wf id db : contacts_wf db → contacts_wf (remove id db).1.
Proof.
  intros Hwf. pose proof Hwf as [Hi Hs Hk Ho Hc Hv].
  assert (∀ k, k ∈ t_rows (contacts db) → c_id k ∉ (c_id <$> rows_of id db) → c_identity_pubkey k ≠ id) as Hkeep.
  { intros k Hkin Hni Heq. apply Hni, list_elem_of_fmap_2. by apply list_elem_of_filter. }
  split; simpl.
  - by apply t_wf_filter.
  - done.
  - by apply NoDup_fmap_filter.
  - intros r [Hni (k & Heq & Hkin)%Ho%list_elem_of_fmap]%list_elem_of_filter. rewrite Heq in *.
    apply list_elem_of_fmap_2, list_elem_of_filter. auto.
  - intros r [Hni (c & k & ? & ? & Hkin & Heq & ?)%Hc]%list_elem_of_filter. rewrite <- Heq in Hni.
    exists c, k. split_and!; try done. apply list_elem_of_filter. auto.
  - intros cid. unfold cards_of. simpl. rewrite filter_comm. apply StronglySorted_filter, Hv.
Qed.

Lemma onions_wf t db :
  contacts_wf db → (∀ r, r ∈ t_rows t → o_contact_id r ∈ (c_id <$> t_rows (contacts db))) →
  contacts_wf (mkContactsDb (contacts db) t (contact_cards db)).
Proof. intros [Hi Hs Hk Ho Hc Hv] Ht. by split. Qed.

Lemma add_onion_wf id address seen_at db :
  contacts_wf db → contacts_wf (add_onion id address seen_at db).1.
Proof.
  intros Hwf. unfold add_onion. destruct (contact_id id db) as [cid|] eqn:E; [|done].
  apply (contact_id_Some id db cid Hwf) in E as (k & _ & Hk & _ & <-).
  apply onions_wf; [done|]. simpl.
  intros r [Hr| ->%list_elem_of_singleton]%elem_of_app; [by apply Hwf|].
  by apply (list_elem_of_fmap_2 c_id).
Qed.

Lemma mark_current_wf id address db : contacts_wf db → contacts_wf (mark_current id address db).1.
Proof.
  intros Hwf. unfold mark_current. simpl. apply onions_wf; [done|]. simpl. rewrite <- list_fmap_compose.
  intros r (r' & -> & Hr')%list_elem_of_fmap. apply (cw_onions db Hwf) in Hr'. simpl.
  by repeat case_decide.
Qed.

(** What an accepted card changes, and what acceptance requires. *)
Lemma put_card_Ok verified_at card db db' :
  put_card verified_at card db = (db', Ok tt) →
  ∃ cid blob,
    card_version (card_body card) ≤ i64_max ∧ into_writer card = Ok blob ∧
    contact_id (card_identity (card_body card)) db = Some cid ∧
    (∀ r, r ∈ cards_of cid db → cc_version r < card_version (card_body card)) ∧
    db' = mkContactsDb (contacts db) (onion_addresses db)
      (t_insert (λ n, mkCardRow n cid (card_version (card_body card)) blob verified_at)
         (contact_cards db)).1.
Proof.
  unfold put_card. intros H%transaction_Ok. revert H. unfold put_card_body.
  case_decide; simpl; [|done].
  destruct (into_writer card) as [blob|e]; simpl; [|done].
  destruct (contact_id _ db) as [cid|] eqn:Hcid; simpl; [|done].
  intros (u & Hu & [= <-])%bind_Ok_inv. exists cid, blob. split_and!; [done..| |done].
  intros r Hr. pose proof (max_version_spec (cc_version <$> cards_of cid db)) as Hm.
  destruct (max_version _) as [m|].
  - case_decide; [done|]. destruct Hm as [_ Hm].
    specialize (Hm _ (list_elem_of_fmap_2 cc_version _ _ Hr)). lia.
  - apply fmap_nil_inv in Hm. rewrite Hm in Hr. set_solver.
Qed.

(** A card is filed once: the same card again is stale. *)
Lemma put_card_twice v v' card db db' :
  put_card v card db = (db', Ok tt) → ∃ e, put_card v' card db' = (db', Err e).
Proof.
  intros (cid & blob & Hov & Hblob & Hcid & _ & ->)%put_card_Ok.
  eexists. unfold put_card, transaction, put_card_body. rewrite decide_True, Hblob by done. cbn [bind_result map_err].
  replace (contact_id _ (mkContactsDb _ _ _)) with (Some cid) by done. cbn [bind_result ok_or].
  match goal with |- context [max_version ?vs] => pose proof (max_version_spec vs) as Hm end.
  destruct (max_version _) as [m|].
  - destruct Hm as [_ Hm]. rewrite decide_True; [done|]. apply Hm. unfold cards_of. simpl.
    rewrite filter_app, filter_cons_True, fmap_app by done. set_solver.
  - unfold cards_of in Hm. simpl in Hm. rewrite filter_app, filter_cons_True, fmap_app in Hm by done.
    by destruct (_ <$> _).
Qed.

Lemma put_card_wf verified_at card db : contacts_wf db → contacts_wf (put_card verified_at card db).1.
Proof.
  intros Hwf. destruct (put_card verified_at card db) as [db' [[]|e]] eqn:E.
  2:{ apply transaction_Err in E as [-> _]. done. }
  apply put_card_Ok in E as (cid & blob & _ & Hblob & Hcid & Hnew & ->).
  apply (contact_id_Some _ db cid Hwf) in Hcid as (k & _ & Hk & Hid & <-).
  pose proof Hwf as [Hi Hs Hkeys Ho Hc Hv]. split; simpl; try done.
  - intros r [Hr| ->%list_elem_of_singleton]%elem_of_app; [by apply Hc|].
    exists card, k. by split_and!.
  - intros cid. unfold cards_of in *. simpl. rewrite filter_app, filter_cons. simpl.
    case_decide as Heq; [|rewrite app_nil_r; apply Hv]. subst cid.
    apply StronglySorted_app. split_and!; [|apply Hv|repeat constructor].
    intros r r' Hr ->%list_elem_of_singleton. simpl. by apply Hnew.
Qed.

#[local] Hint Resolve update_contact_wf upsert_wf remove_wf add_onion_wf mark_current_wf put_card_wf
  : invariant.

Lemma apply_op_wf op db : contacts_wf db → contacts_wf (apply_op db op).
Proof.
  intros Hwf. destruct op as [| | | | |id g|id n|id h|id m]; cbn [apply_op]; auto with invariant.
  - by apply (update_contact_wf id (with_group g)).
  - by apply (update_contact_wf id (with_name n)).
  - by apply (update_contact_wf id (with_hidden (if h then 1 else 0))).
  - by apply (update_contact_wf id (with_muted (if m then 1 else 0))).
Qed.

Lemma empty_contacts_wf : contacts_wf empty_contacts.
Proof. split; simpl; try (set_solver || done); [apply t_wf_empty|constructor|constructor]. Qed.

Lemma run_ops_wf ops db : contacts_wf db → contacts_wf (run_ops ops db).
Proof.
  unfold run_ops. revert db. induction ops as [|op ops IH]; intros db Hwf; [done|].
  simpl. by apply IH, apply_op_wf.
Qed.

Lemma contact_id_iff id db cid :
  contacts_wf db →
  contact_id id db = Some cid ↔
  ∃ k, k ∈ t_rows (contacts db) ∧ c_identity_pubkey k = id ∧ c_id k = cid.
Proof.
  intros Hwf. split.
  - intros (k & _ & ? & ? & ?)%contact_id_Some; [|done]. by exists k.
  - intros (k & Hk & <- & <-). unfold contact_id. by rewrite rows_of_row.
Qed.

(** Contacts keep their row id unless they are removed. *)
Lemma apply_op_contact_id op id db cid :
  contacts_wf db → op ≠ OpRemove id → contact_id id db = Some cid →
  contact_id id (apply_op db op) = Some cid.
Proof.
  intros Hwf Hop. rewrite !contact_id_iff by auto using apply_op_wf. intros (k & Hk & Hid & Hc).
  assert (∀ i f, (∀ r, c_id (f r) = c_id r ∧ c_identity_pubkey (f r) = c_identity_pubkey r) →
    ∃ k', k' ∈ t_rows (contacts (update_contact i f db).1) ∧ c_identity_pubkey k' = id ∧ c_id k' = cid)
    as Hupd.
  { intros i f Hf. eexists. split; [by apply list_elem_of_fmap_2|]. simpl.
    case_decide; destruct (Hf k); split; congruence. }
  destruct op; simpl; try (by exists k); try (by apply Hupd).
  - unfold upsert. destruct (rows_of (identity c) db); [|by apply Hupd].
    exists k. simpl. set_solver.
  - exists k. split_and!; [|done..]. apply list_elem_of_filter. split; [|done]. congruence.
  - unfold add_onion. destruct (contact_id _ db); by exists k.
  - destruct (put_card verified_at card0 db) as [db' [[]|e]] eqn:E.
    + apply put_card_Ok in E as (? & ? & _ & _ & _ & _ & ->). by exists k.
    + apply transaction_Err in E as [-> _]. by exists k.
Qed.

(** Cards are only appended, unless their contact is removed. *)
Lemma apply_op_cards op id db cid :
  contacts_wf db → op ≠ OpRemove id → contact_id id db = Some cid →
  cards_of cid db `prefix_of` cards_of cid (apply_op db op).
Proof.
  intros Hwf Hop Hid. destruct op; simpl; try done.
  - unfold upsert. by destruct (rows_of _ _).
  - unfold cards_of. simpl. rewrite filter_filter_in; [done|].
    intros r _ <- (k & Heq & [Hk Hkid]%rows_of_elem)%list_elem_of_fmap.
    apply contact_id_Some in Hid as (k' & _ & Hk' & Hk'id & Heq'); [|done].
    rewrite (t_wf_unique c_id _ k k' (cw_ids db Hwf) Hk Hk' ltac:(congruence)) in Hkid. congruence.
  - unfold add_onion. by case_match.
  - destruct (put_card verified_at card0 db) as [db' [[]|e]] eqn:E.
    + apply put_card_Ok in E as (? & ? & _ & _ & _ & _ & ->). unfold cards_of. simpl.
      rewrite filter_app. by apply prefix_app_r.
    + apply transaction_Err in E as [-> _]. done.
Qed.

Lemma run_ops_cards ops id db cid :
  contacts_wf db → OpRemove id ∉ ops → contact_id id db = Some cid →
  contact_id id (run_ops ops db) = Some cid ∧ cards_of cid db `prefix_of` cards_of cid (run_ops ops db).
Proof.
  unfold run_ops. revert db. induction ops as [|op ops IH]; intros db Hwf Hops Hid; simpl; [done|].
  apply not_elem_of_cons in Hops as [Hop Hops]. apply not_eq_sym in Hop.
  destruct (IH (apply_op db op)) as [? ?]; [by apply apply_op_wf|done|by apply apply_op_contact_id|].
  split; [done|]. etrans; [by eapply apply_op_cards|done].
Qed.

Lemma sorted_last_le (l : list card_row) r r' :
  StronglySorted (λ r r', cc_version r < cc_version r') l → last l = Some r' → r ∈ l →
  cc_version r ≤ cc_version r'.
Proof.
  intros Hs (k & ->)%last_Some. apply StronglySorted_app in Hs as (Hlt & _).
  intros [Hr| ->%list_elem_of_singleton]%elem_of_app; [|done].
  specialize (Hlt r r' Hr ltac:(set_solver)). simpl in Hlt. lia.
Qed.

Lemma head_order_by_last (l : list card_row) :
  StronglySorted (λ r r', cc_version r < cc_version r') l →
  head (order_by (λ r, - cc_version r) l) = last l.
Proof.
  destruct l as [|r l _] using rev_ind; [done|]. rewrite StronglySorted_app. intros (Hlt & _ & _).
  rewrite last_snoc. apply head_order_by_min; [set_solver|].
  intros y [Hy| ->%list_elem_of_singleton]%elem_of_app; [right|by left].
  specialize (Hlt y r Hy ltac:(set_solver)). simpl in Hlt. lia.
Qed.

(** [latest_card] reads the card filed last. *)
Lemma latest_card_last {de : Deserialize ContactCard} id db :
  contacts_wf db →
  latest_card id db =
    match cid ← contact_id id db; last (cards_of cid db) with
    | None => Ok None
    | Some r => let? c := map_err (λ e, Core_Contact (Contact_Other ("card: cbor decode: " +:+ e)))
                  (from_reader (cc_card_blob r)) in Ok (Some c)
    end.
Proof.
  intros Hwf. unfold latest_card, contact_id.
  destruct (rows_of_cases id db Hwf) as [[-> _]|(k & -> & _)]; simpl.
  - rewrite filter_none; [done|]. intros r _. apply not_elem_of_nil.
  - rewrite <- head_order_by_last by apply Hwf. unfold cards_of.
    erewrite (list_filter_iff (λ r, cc_contact_id r ∈ [c_id k])); [done|].
    intros r. by rewrite list_elem_of_singleton.
Qed.

Context {de : Deserialize ContactCard} {law : CborRoundtrip ContactCard}.

(** With the codec's round trip, the card that was put there. *)
Lemma latest_card_cases id db :
  contacts_wf db →
  match cid ← contact_id id db; last (cards_of cid db) with
  | None => latest_card id db = Ok None
  | Some r => ∃ c, latest_card id db = Ok (Some c) ∧ card_version (card_body c) = cc_version r ∧
                card_identity (card_body c) = id
  end.
Proof.
  intros Hwf. rewrite latest_card_last by done.
  destruct (contact_id id db) as [cid|] eqn:Hcid; simpl; [|done].
  destruct (last (cards_of cid db)) as [r|] eqn:Hl; simpl; [|done].
  apply last_Some_elem_of in Hl. apply list_elem_of_filter in Hl as [Heq Hr].
  destruct (cw_cards db Hwf r Hr) as (c & k & Hw & Hver & Hk & Hki & Hid).
  exists c. rewrite (from_into c _ Hw). split_and!; [done..|]. rewrite <- Hid.
  apply contact_id_Some in Hcid as (k' & _ & Hk' & <- & Hki'); [|done].
  by rewrite (t_wf_unique c_id _ k k' (cw_ids db Hwf) Hk Hk' ltac:(congruence)).
Qed.
End contacts_facts.

Section contacts_properties.
Context {ser : Serialize ContactCard}.

(** The contact tables stay consistent.  After any sequence of the
    repository's operations on an empty database, contact ids and identities are
    unique, every onion address belongs to a contact, every stored card is a
    card of the contact it is filed under, and the cards of a contact were filed
    with strictly increasing versions. *)
Theorem contacts_invariant ops : contacts_wf (run_ops ops empty_contacts).
Proof. apply run_ops_wf, empty_contacts_wf. Qed.

Lemma rows_of_known id db : id ∈ (c_identity_pubkey <$> t_rows (contacts db)) ↔ rows_of id db ≠ [].
Proof.
  rewrite list_elem_of_fmap. split.
  - intros (k & -> & Hk) Hnil.
    assert (k ∈ rows_of (c_identity_pubkey k) db) as H by (by apply list_elem_of_filter).
    rewrite Hnil in H. set_solver.
  - destruct (rows_of id db) as [|k l] eqn:E; [done|]. intros _.
    assert (k ∈ rows_of id db) as [? <-]%rows_of_elem by (rewrite E; set_solver). by exists k.
Qed.

(** Prefix lookup.  A lookup succeeds exactly for non-empty hexadecimal
    text, in either case, and returns each contact whose key in hex starts with
    it once; the whole key of a contact finds that contact alone. *)
Theorem lookup_by_prefix_exact prefix db :
  contacts_wf db →
  match lookup_by_prefix prefix db with
  | Ok ids =>
      NoDup ids ∧
      (∀ id, id ∈ ids ↔ rows_of id db ≠ [] ∧ len id = 32 ∧
         starts_with (hex_encode id) (to_ascii_lowercase prefix) = true)
  | Err _ => prefix = EmptyString ∨ string_forall is_ascii_hexdigit prefix = false
  end ∧
  ∀ k, k ∈ t_rows (contacts db) → len (c_identity_pubkey k) = 32 →
    to_ascii_lowercase prefix = hex_encode (c_identity_pubkey k) →
    lookup_by_prefix prefix db = Ok [c_identity_pubkey k].
Proof.
  intros Hwf. split.
  - unfold lookup_by_prefix. case_decide as He; [by left|].
    destruct (string_forall is_ascii_hexdigit prefix); simpl; [|by right]. split.
    + apply NoDup_filter, Hwf.
    + intros id. rewrite list_elem_of_filter, rows_of_known. naive_solver.
  - intros k Hk Hlen Hlow. unfold lookup_by_prefix. rewrite decide_False.
    2:{ intros ->. destruct (c_identity_pubkey k); done. }
    rewrite hexdigits_of_lower by (rewrite Hlow; apply hex_encode_hexdigits). simpl. f_equal.
    rewrite (list_filter_iff _ (λ b, b = c_identity_pubkey k)).
    { apply (filter_key (λ b, b)); [rewrite list_fmap_id; apply Hwf|]. by apply list_elem_of_fmap_2. }
    intros b. rewrite Hlow. unfold starts_with. split.
    + intros [Hb Hp]. symmetry. apply hex_encode_prefix; [|done]. unfold len in *. lia.
    + intros ->. split; [done|apply prefix_refl].
Qed.

Lemma mark_current_rows id address db :
  t_rows (onion_addresses (mark_current id address db).1) =
  (λ r, if decide (contact_id id db = Some (o_contact_id r))
        then with_current (if decide (o_address r = address) then 1 else 0) r else r)
    <$> t_rows (onion_addresses db).
Proof.
  unfold mark_current. simpl. rewrite <- list_fmap_compose. apply list_fmap_ext. intros i r _. simpl.
  destruct (decide (contact_id id db = Some (o_contact_id r))) as [H|H]; simpl.
  - case_decide as H'; [by rewrite decide_True by tauto|]. by rewrite decide_False by tauto.
  - by rewrite decide_False by tauto.
Qed.

(** Rotating to an address.  Marking an address as current makes it the
    contact's current address when it was recorded for that contact, and leaves
    the contact without one when it was not; no other contact's current address
    changes. *)
Theorem mark_current_exact id address db db' r :
  contacts_wf db → mark_current id address db = (db', r) →
  current_onion id db' =
    (if decide (Exists (λ o, contact_id id db = Some (o_contact_id o) ∧ o_address o = address)
                  (t_rows (onion_addresses db)))
     then Some address else None) ∧
  ∀ id', id' ≠ id → current_onion id' db' = current_onion id' db.
Proof.
  intros Hwf E. assert (db' = (mark_current id address db).1) as -> by (by rewrite E).
  unfold current_onion. rewrite mark_current_rows.
  change (contact_id ?i (mark_current id address db).1) with (contact_id i db). split; [|intros id' Hid'].
  - destruct (head _) as [o|] eqn:Eh.
    + apply head_order_by in Eh as [Ho _]. apply list_elem_of_filter in Ho as [[Hid Hcur] Ho].
      apply list_elem_of_fmap in Ho as (o' & -> & Ho'). revert Hid Hcur.
      case_decide as Hid'; [|done]. simpl. case_decide as Ha; [|done]. intros _ _.
      rewrite decide_True by (apply Exists_exists; by exists o'). by rewrite Ha.
    + apply head_order_by_None in Eh. rewrite decide_False; [done|].
      intros (o & Ho & Hid & Ha)%Exists_exists. apply (list_elem_of_fmap_2 (λ r, if decide
        (contact_id id db = Some (o_contact_id r)) then with_current
          (if decide (o_address r = address) then 1 else 0) r else r)) in Ho.
      rewrite (decide_True _ _ Hid), (decide_True _ _ Ha) in Ho.
      eapply (not_elem_of_nil (with_current 1 o)). rewrite <- Eh. by apply list_elem_of_filter.
  - rewrite filter_update; [done|]. intros o _. case_decide as Ho; [|done]. simpl.
    assert (contact_id id' db ≠ Some (o_contact_id o)) as Hne.
    { rewrite !contact_id_iff in * by done. destruct Ho as (k & Hk & <- & Hki).
      intros (k' & Hk' & <- & Hki'). apply Hid'.
      by rewrite (t_wf_unique c_id _ k k' (cw_ids db Hwf) Hk Hk' ltac:(congruence)). }
    naive_solver.
Qed.

Context {de : Deserialize ContactCard} {law : CborRoundtrip ContactCard}.

Lemma put_card_latest verified_at card db db' :
  contacts_wf db → put_card verified_at card db = (db', Ok tt) →
  latest_card (card_identity (card_body card)) db' = Ok (Some card) ∧
  ∀ id', id' ≠ card_identity (card_body card) → latest_card id' db' = latest_card id' db.
Proof.
  intros Hwf E. pose proof (put_card_wf verified_at card db Hwf) as Hwf'. rewrite E in Hwf'. simpl in Hwf'.
  apply put_card_Ok in E as (cid & blob & _ & Hblob & Hcid & _ & ->).
  split; [|intros id' Hid']; rewrite !latest_card_last by done;
    change (contact_id ?i (mkContactsDb (contacts db) _ _)) with (contact_id i db).
  - rewrite Hcid. unfold cards_of. simpl.
    rewrite filter_app, filter_cons_True, filter_nil, last_snoc by done. simpl.
    by rewrite (from_into card blob Hblob).
  - destruct (contact_id id' db) as [cid'|] eqn:Hcid'; simpl; [|done]. unfold cards_of. simpl.
    rewrite filter_app, filter_cons_False, app_nil_r; [done|]. simpl. intros <-. apply Hid'.
    apply (contact_id_iff _ db cid Hwf) in Hcid as (k & Hk & <- & Hki).
    apply (contact_id_iff _ db cid Hwf) in Hcid' as (k' & Hk' & <- & Hki').
    by rewrite (t_wf_unique c_id _ k k' (cw_ids db Hwf) Hk Hk' ltac:(congruence)).
Qed.

(** The version guard compares with the latest card. *)
Lemma newer_than_all id cid v db :
  contacts_wf db → contact_id id db = Some cid →
  (∀ c, latest_card id db = Ok (Some c) → card_version (card_body c) < v) ↔
  (∀ r, r ∈ cards_of cid db → cc_version r < v).
Proof.
  intros Hwf Hcid. pose proof (latest_card_cases id db Hwf) as Hc. rewrite Hcid in Hc. simpl in Hc.
  pose proof (cw_versions db Hwf cid) as Hs. destruct (last (cards_of cid db)) as [r|] eqn:Hl.
  - destruct Hc as (c & Hlc & Hver & _). rewrite Hlc, <- ?Hver in *. split.
    + intros Hnew r' Hr'. specialize (Hnew c eq_refl).
      pose proof (sorted_last_le _ r' r Hs Hl Hr'). lia.
    + intros Hnew c' [= <-]. apply last_Some_elem_of in Hl. rewrite Hver. by apply Hnew.
  - apply last_None in Hl. rewrite Hl, Hc. split; [set_solver|done].
Qed.

Lemma put_card_accepts verified_at card db cid blob :
  contacts_wf db → card_version (card_body card) ≤ i64_max → into_writer card = Ok blob →
  contact_id (card_identity (card_body card)) db = Some cid →
  (∀ r, r ∈ cards_of cid db → cc_version r < card_version (card_body card)) →
  (put_card verified_at card db).2 = Ok tt.
Proof.
  intros Hwf Hv Hblob Hcid Hnew. unfold put_card, transaction, put_card_body.
  rewrite decide_True by done. simpl. rewrite Hblob. simpl. rewrite Hcid. simpl.
  pose proof (max_version_spec (cc_version <$> cards_of cid db)) as Hm.
  destruct (max_version _) as [m|]; [|done].
  destruct Hm as [(r & -> & Hr)%list_elem_of_fmap _]. apply Hnew in Hr. by rewrite decide_False by lia.
Qed.

(** Exactly the newer cards are accepted.  A card is filed exactly when its
    contact exists, it can be encoded, its version fits and is above the version
    of the contact's latest card.  It is then the latest card of its contact and
    no other contact's latest card changes; a refused card changes nothing. *)
Theorem put_card_exact verified_at card db db' r :
  contacts_wf db → put_card verified_at card db = (db', r) →
  let id := card_identity (card_body card) in
  (r = Ok tt ↔
     card_version (card_body card) ≤ i64_max ∧ is_ok (into_writer card) = true ∧ rows_of id db ≠ [] ∧
     ∀ c, latest_card id db = Ok (Some c) →
          card_version (card_body c) < card_version (card_body card)) ∧
  match r with
  | Ok _ => latest_card id db' = Ok (Some card) ∧
            ∀ id', id' ≠ id → latest_card id' db' = latest_card id' db
  | Err _ => db' = db
  end.
Proof.
  intros Hwf E id. split.
  - split.
    + intros ->. apply put_card_Ok in E as (cid & blob & Hv & -> & Hcid & Hnew & _).
      split_and!; [done|done| |by apply (newer_than_all id cid)].
      intros Hnil. unfold contact_id in Hcid. fold id in Hcid. by rewrite Hnil in Hcid.
    + intros (Hv & Hw & Hk & Hnew). destruct (into_writer card) as [blob|] eqn:Hblob; [|done].
      destruct (rows_of_cases id db Hwf) as [[? _]|(k & Hrows & _)]; [done|].
      assert (contact_id id db = Some (c_id k)) as Hcid by (unfold contact_id; by rewrite Hrows).
      rewrite (newer_than_all id (c_id k)) in Hnew by done.
      pose proof (put_card_accepts verified_at card db _ _ Hwf Hv Hblob Hcid Hnew) as H.
      by rewrite E in H.
  - destruct r as [[]|e]; [by eapply put_card_latest|]. by apply transaction_Err in E as [-> _].
Qed.

(** C29: a card cannot be rolled back.  As long as a contact is not removed, no
    sequence of operations replaces its latest card by one of a lower version,
    and the latest card is always one of that contact. *)
Theorem card_no_rollback ops db id c :
  contacts_wf db → OpRemove id ∉ ops → latest_card id db = Ok (Some c) →
  ∃ c', latest_card id (run_ops ops db) = Ok (Some c') ∧ card_identity (card_body c') = id ∧
    card_version (card_body c) ≤ card_version (card_body c').
Proof.
  intros Hwf Hops Hc. pose proof (latest_card_cases id db Hwf) as H. rewrite Hc in H.
  destruct (contact_id id db) as [cid|] eqn:Hcid; simpl in H; [|done].
  destruct (last (cards_of cid db)) as [r|] eqn:Hl; [|done].
  destruct H as (c0 & [= <-] & Hver & _).
  destruct (run_ops_cards ops id db cid Hwf Hops Hcid) as [Hcid' [extra Hextra]].
  pose proof (run_ops_wf ops db Hwf) as Hwf'. pose proof (latest_card_cases id _ Hwf') as H.
  rewrite Hcid' in H. simpl in H. rewrite Hextra in H.
  pose proof (cw_versions _ Hwf' cid) as Hs. rewrite Hextra in Hs. apply last_Some_elem_of in Hl.
  destruct (last (cards_of cid db ++ extra)) as [r'|] eqn:Hl'.
  - destruct H as (c' & Hc' & Hver' & Hid'). exists c'. split_and!; [done..|]. rewrite Hver, Hver'.
    eapply sorted_last_le; [done..|set_solver].
  - apply last_None, app_nil in Hl' as [Hnil _]. rewrite Hnil in Hl. set_solver.
Qed.

Lemma rows_of_remove id id' db :
  rows_of id' (remove id db).1 = if decide (id' = id) then [] else rows_of id' db.
Proof.
  unfold rows_of. simpl. case_decide as Hid.
  - apply filter_none. intros k [Hk _]%list_elem_of_filter. congruence.
  - apply filter_filter_in. intros k _ Hk. congruence.
Qed.

(** Different identities have different row ids. *)
Lemma row_ids_disjoint id id' db i :
  contacts_wf db → i ∈ (c_id <$> rows_of id db) → i ∈ (c_id <$> rows_of id' db) → id = id'.
Proof.
  intros Hwf (k & -> & [Hk <-]%rows_of_elem)%list_elem_of_fmap
    (k' & Heq & [Hk' <-]%rows_of_elem)%list_elem_of_fmap.
  by rewrite (t_wf_unique c_id _ k k' (cw_ids db Hwf)).
Qed.

Lemma latest_card_remove id id' db :
  contacts_wf db →
  latest_card id' (remove id db).1 = if decide (id' = id) then Ok None else latest_card id' db.
Proof.
  intros Hwf. unfold latest_card. rewrite rows_of_remove. case_decide as Hid; simpl.
  - rewrite filter_none; [done|]. intros r _. apply not_elem_of_nil.
  - rewrite filter_filter_in; [done|]. intros r _ Hr Hr'. apply Hid. by eapply row_ids_disjoint.
Qed.

Lemma current_onion_remove id id' db :
  contacts_wf db →
  current_onion id' (remove id db).1 = if decide (id' = id) then None else current_onion id' db.
Proof.
  intros Hwf. unfold current_onion, contact_id. rewrite rows_of_remove. case_decide as Hid; simpl.
  - rewrite filter_none; [done|]. by intros r _ [? _].
  - rewrite filter_filter_in; [done|]. intros r _ [Hr _] Hr'. apply Hid.
    eapply (row_ids_disjoint _ _ db (o_contact_id r)); [done| |done].
    destruct (rows_of id' db) as [|k l]; simplify_eq/=. rewrite Hr. set_solver.
Qed.

(** Removal is complete and local.  A removed contact has no row, no card
    and no onion address; every other contact keeps its record, its latest card
    and its current address. *)
Theorem remove_forgets id db db' r :
  contacts_wf db → remove id db = (db', r) →
  get id db' = Ok None ∧ latest_card id db' = Ok None ∧ current_onion id db' = None ∧
  (∀ k, k ∈ rows_of id db → cards_of (c_id k) db' = [] ∧
     filter (λ o, o_contact_id o = c_id k) (t_rows (onion_addresses db')) = []) ∧
  ∀ id', id' ≠ id → get id' db' = get id' db ∧ latest_card id' db' = latest_card id' db ∧
    current_onion id' db' = current_onion id' db.
Proof.
  intros Hwf E. assert (db' = (remove id db).1) as -> by (by rewrite E).
  assert (∀ id', get id' (remove id db).1 = if decide (id' = id) then Ok None else get id' db) as Hget.
  { intros id'. unfold get. rewrite rows_of_remove, latest_card_remove by done. by case_decide. }
  split_and!; [|rewrite latest_card_remove by done|rewrite current_onion_remove by done|..];
    rewrite ?Hget, ?decide_True by done; try done.
  - intros k Hk%(list_elem_of_fmap_2 c_id). split; unfold cards_of; simpl; apply filter_none;
      intros row [Hr _]%list_elem_of_filter Heq; by rewrite Heq in Hr.
  - intros id' Hid'. rewrite Hget, latest_card_remove, current_onion_remove by done.
    by rewrite !decide_False.
Qed.
End contacts_properties.

(** ** Witnesses *)

#[local] Existing Instance codec_contact_card.
#[local] Existing Instance serialize_of.
#[local] Existing Instance deserialize_of.

Definition alice : bytes := fill 32 Byte.x0a.
Definition bob : bytes := fill 32 Byte.x0b.
Definition sample_card (id : bytes) (version : Z) : ContactCard :=
  mkContactCard (mkContactCardBody id "a.onion" [] version 1000) (fill 64 Byte.x01).
Definition sample_ops : list contact_op :=
  [OpUpsert (mkContact alice (Some "alice") 10 None false);
   OpUpsert (mkContact bob None 20 None false);
   OpAddOnion alice "a.onion" 30; OpAddOnion alice "b.onion" 40;
   OpPutCard 50 (sample_card alice 3); OpPutCard 60 (sample_card bob 1)].
Definition sample_contacts : contacts_db := run_ops sample_ops empty_contacts.

Lemma sample_contacts_wf : contacts_wf sample_contacts.
Proof. apply run_ops_wf, empty_contacts_wf. Qed.

Lemma put_card_exact_witness :
  (put_card 70 (sample_card alice 4) sample_contacts).2 = Ok tt ∧
  (put_card 70 (sample_card alice 3) sample_contacts).2 = Err (Core_Contact (Contact_Other "card: stale version")) ∧
  latest_card alice (put_card 70 (sample_card alice 4) sample_contacts).1 = Ok (Some (sample_card alice 4)).
Proof.
  split; [vm_compute; reflexivity|]. split; [vm_compute; reflexivity|].
  destruct (put_card 70 (sample_card alice 4) sample_contacts) as [db' r] eqn:E.
  assert (r = Ok tt) as -> by (assert (r = (put_card 70 (sample_card alice 4) sample_contacts).2)
    as -> by (by rewrite E); vm_compute; reflexivity).
  exact (proj1 (proj2 (put_card_exact (law := roundtrip_of) 70 (sample_card alice 4) sample_contacts db'
    (Ok tt) sample_contacts_wf E))).
Defined.

Lemma card_no_rollback_witness :
  ∃ c', latest_card alice (run_ops [OpPutCard 80 (sample_card alice 2); OpRemove bob] sample_contacts)
      = Ok (Some c') ∧ card_identity (card_body c') = alice ∧ 3 ≤ card_version (card_body c').
Proof.
  apply (card_no_rollback (law := roundtrip_of) _ sample_contacts alice (sample_card alice 3)).
  - exact sample_contacts_wf.
  - intros [H|[H|[]%elem_of_nil]%elem_of_cons]%elem_of_cons; discriminate H.
  - vm_compute. reflexivity.
Defined.

Lemma remove_forgets_witness :
  latest_card alice (remove alice sample_contacts).1 = Ok None ∧
  latest_card bob (remove alice sample_contacts).1 = Ok (Some (sample_card bob 1)).
Proof.
  destruct (remove_forgets (law := roundtrip_of) alice sample_contacts (remove alice sample_contacts).1 (Ok tt)
    sample_contacts_wf eq_refl) as (_ & H1 & _ & _ & H2).
  split; [exact H1|]. destruct (H2 bob) as (_ & H3 & _); [vm_compute; discriminate|].
  rewrite H3. vm_compute. reflexivity.
Defined.

Lemma lookup_by_prefix_exact_witness :
  lookup_by_prefix (hex_encode alice) sample_contacts = Ok [alice] ∧
  lookup_by_prefix "0B" sample_contacts = Ok [bob].
Proof.
  split; [|vm_compute; reflexivity].
  assert (mkContactRow 1 alice (Some "alice") 10 [] 0 0 ∈ t_rows (contacts sample_contacts)) as Hk.
  { vm_compute. left. }
  exact (proj2 (lookup_by_prefix_exact (hex_encode alice) sample_contacts sample_contacts_wf) _ Hk
    eq_refl eq_refl).
Defined.

Lemma mark_current_exact_witness :
  current_onion alice (mark_current alice "a.onion" sample_contacts).1 = Some "a.onion".
Proof.
  pose proof (mark_current_exact alice "a.onion" sample_contacts
    (mark_current alice "a.onion" sample_contacts).1 (Ok tt) sample_contacts_wf eq_refl) as [H _].
  rewrite H. vm_compute. reflexivity.
Defined.
