(* ===== verification/Messages.v ===== *)
(** * Messages: envelopes and the message history

    [crates/core/src/envelope/message.rs] and [kinds.rs],
    [crates/core/src/storage/messages.rs] and [read_state.rs] over the table
    [messages] with its unique index and triggers (migrations 0001, 0006, 0007
    and 0021).  The full-text index is a map from row ids to indexed texts; how
    FTS5 matches, ranks and cuts snippets is the class [Fts5]. *)

From S2P Require Import Prelude Text Framing SimpleCodec CoreErrors Sql Float64 Identity.

(** ** Envelopes *)

Inductive Kind : Type :=
| Text (body : string)
| File (manifest : bytes)
| Reaction (target : bytes) (emoji : string)
| Edit (target : bytes) (body : string)
| Delete (target : bytes)
| Typing
| ContactCardUpdate (card : ContactCard).

Record Envelope : Type := mkEnvelope {
  e_v : Z;
  e_id : bytes;
  e_ts : Z;
  e_reply_to : option bytes;
  e_kind : Kind
}.

Section envelope.
Context {ser : Serialize Envelope} {de : Deserialize Envelope}.

Definition encode_envelope (e : Envelope) : result bytes CoreError := map_err Core_CborEncode (into_writer e).
Definition decode_envelope (b : bytes) : result Envelope CoreError := map_err Core_CborDecode (from_reader b).
End envelope.

(** ** The tables *)

Record message_row : Type := mkMessageRow {
  m_id : Z;
  m_group_id : bytes;
  m_sender : bytes;
  m_kind : string;
  m_body_blob : option bytes;
  m_body_text : option string;
  m_ts : Z;
  m_delivered_at : option Z;
  m_mls_generation : Z;
  m_ts_daemon_recv : Z;
  m_envelope_id : option bytes;
  m_dismissed_at : option Z;
  m_failed_reason : option string
}.

(** [messages], [messages_fts] and [read_state]. *)
Record messages_db : Type := mkMessagesDb {
  messages : table message_row;
  messages_fts : gmap Z string;
  read_state : gmap bytes (Z * Z)
}.

Definition empty_messages : messages_db := mkMessagesDb empty_table ∅ ∅.

(** The condition of the triggers of migration 0006. *)
Definition indexed_text (r : message_row) : option string :=
  if decide (m_kind r = "text") then m_body_text r else None.

(** [messages_ai_text] and [messages_ad_text]. *)
Definition fts_after_insert (r : message_row) (fts : gmap Z string) : gmap Z string :=
  match indexed_text r with Some t => <[m_id r := t]> fts | None => fts end.
Definition fts_after_delete (r : message_row) (fts : gmap Z string) : gmap Z string :=
  match indexed_text r with Some _ => base.delete (m_id r) fts | None => fts end.
(** [messages_au_text]. *)
Definition fts_after_update (old new : message_row) (fts : gmap Z string) : gmap Z string :=
  fts_after_insert new (fts_after_delete old fts).

(** [DELETE FROM messages WHERE P], with the rows deleted. *)
Definition delete_where (P : message_row → Prop) `{!∀ r, Decision (P r)} (db : messages_db)
    : messages_db * Z :=
  let '(t, n) := t_delete P (messages db) in
  (mkMessagesDb t (foldr fts_after_delete (messages_fts db) (filter P (t_rows (messages db))))
     (read_state db), n).

(** An [UPDATE] of columns the index does not cover. *)
Definition update_where (P : message_row → Prop) `{!∀ r, Decision (P r)} (f : message_row → message_row)
    (db : messages_db) : messages_db * Z :=
  let '(t, n) := t_update P f (messages db) in
  (mkMessagesDb t (messages_fts db) (read_state db), n).

(** A row as the queries return it. *)
Record StoredMessage : Type := mkStoredMessage {
  sm_id : Z;
  sm_group_id : bytes;
  sm_sender : bytes;
  sm_kind : string;
  sm_body_blob : option bytes;
  sm_ts : Z;
  sm_delivered_at : option Z;
  sm_mls_generation : Z;
  sm_ts_daemon_recv : Z;
  sm_dismissed_at : option Z;
  sm_failed_reason : option string
}.

Definition stored (r : message_row) : StoredMessage :=
  mkStoredMessage (m_id r) (m_group_id r) (m_sender r) (m_kind r) (m_body_blob r) (m_ts r)
    (m_delivered_at r) (m_mls_generation r) (m_ts_daemon_recv r) (m_dismissed_at r) (m_failed_reason r).

(** ** [MessageRepo] *)

Record InsertParams : Type := mkInsertParams {
  ip_group_id : bytes;
  ip_sender : bytes;
  ip_envelope : Envelope;
  ip_mls_generation : Z;
  ip_ts_daemon_recv : Z
}.

(** A call can also panic. *)
Inductive failure : Type :=
| Error (e : CoreError)
| Panic.

Definition kind_name (k : Kind) : result string failure :=
  match k with
  | Text _ => Ok "text"
  | File _ => Ok "file"
  | Reaction _ _ => Ok "reaction"
  | Edit _ _ => Ok "edit"
  | Delete _ => Ok "delete"
  | Typing => Ok "typing"
  | ContactCardUpdate _ => Err Panic
  end.

Definition kind_text (k : Kind) : option string := match k with Text body => Some body | _ => None end.

(** The columns of [messages_group_envelope_uniq]; a NULL is equal to nothing. *)
Definition m_key (r : message_row) : option (bytes * bytes) :=
  e ← m_envelope_id r; Some (m_group_id r, e).

Section repo.
Context {ser : Serialize Envelope} {de : Deserialize Envelope}.

Definition insert_in_tx (p : InsertParams) (db : messages_db) : result (messages_db * Z) failure :=
  let env := ip_envelope p in
  let? body := map_err Error (encode_envelope env) in
  let? kind := kind_name (e_kind env) in
  let body_text := kind_text (e_kind env) in
  let mls_gen_signed := Z.min (ip_mls_generation p) i64_max in
  let? _ := if decide (len (e_id env) = 16) then Ok tt
    else Err (Error (Core_Storage (Storage_Other "messages INSERT: envelope_id must be 16 bytes"))) in
  let? _ := if decide (Some (ip_group_id p, e_id env) ∈ (m_key <$> t_rows (messages db)))
    then Err (Error (Core_Storage Storage_DuplicateMessage)) else Ok tt in
  let mk id := mkMessageRow id (ip_group_id p) (ip_sender p) kind (Some body) body_text (e_ts env) None
    mls_gen_signed (ip_ts_daemon_recv p) (Some (e_id env)) None None in
  let '(t, id) := t_insert mk (messages db) in
  Ok (mkMessagesDb t (fts_after_insert (mk id) (messages_fts db)) (read_state db), id).

Definition insert (p : InsertParams) : action messages_db Z failure := λ db,
  transaction db (insert_in_tx p).

(** [ORDER BY mls_generation DESC, id DESC]. *)
Definition newer (r r' : message_row) : Prop :=
  m_mls_generation r' < m_mls_generation r ∨
  m_mls_generation r = m_mls_generation r' ∧ m_id r' ≤ m_id r.
#[global] Instance newer_dec : RelDecision newer := λ r r', _.

Definition in_group (g : bytes) (db : messages_db) : list message_row :=
  filter (λ r, m_group_id r = g) (t_rows (messages db)).

Definition recent (g : bytes) (n : Z) (db : messages_db) : list StoredMessage :=
  stored <$> limit (sql_limit n) (merge_sort newer (in_group g db)).

Definition recent_before (g : bytes) (before_id n : Z) (db : messages_db) : list StoredMessage :=
  stored <$> limit (sql_limit n) (merge_sort newer (filter (λ r, m_id r < before_id) (in_group g db))).

Definition unread_count (g : bytes) (db : messages_db) : Z :=
  match read_state db !! g with
  | Some (cur, _) => len (filter (λ r, m_id r > cur) (in_group g db))
  | None => len (in_group g db)
  end.

(** [ReadStateRepo::get] and [ReadStateRepo::set]. *)
Definition read_cursor (g : bytes) (db : messages_db) : option Z := fst <$> read_state db !! g.
Definition read_state_set (g : bytes) (last_read updated_at : Z) (db : messages_db) : messages_db :=
  mkMessagesDb (messages db) (messages_fts db) (<[g := (last_read, updated_at)]> (read_state db)).

Definition mark_read (g : bytes) (up_to now_secs : Z) (db : messages_db) : messages_db :=
  read_state_set g up_to (if decide (now_secs ≤ i64_max) then now_secs else 0) db.

Definition export_page (g : bytes) (after_id : option Z) (n : Z) (db : messages_db) : list StoredMessage :=
  stored <$> limit (sql_limit n)
    (order_by m_id (filter (λ r, m_id r > default 0 after_id) (in_group g db))).

Definition with_delivered (t : Z) (r : message_row) : message_row :=
  mkMessageRow (m_id r) (m_group_id r) (m_sender r) (m_kind r) (m_body_blob r) (m_body_text r) (m_ts r)
    (Some t) (m_mls_generation r) (m_ts_daemon_recv r) (m_envelope_id r) (m_dismissed_at r) (m_failed_reason r).
Definition with_failed (reason : string) (r : message_row) : message_row :=
  mkMessageRow (m_id r) (m_group_id r) (m_sender r) (m_kind r) (m_body_blob r) (m_body_text r) (m_ts r)
    (m_delivered_at r) (m_mls_generation r) (m_ts_daemon_recv r) (m_envelope_id r) (m_dismissed_at r)
    (Some reason).
Definition with_dismissed (t : Z) (r : message_row) : message_row :=
  mkMessageRow (m_id r) (m_group_id r) (m_sender r) (m_kind r) (m_body_blob r) (m_body_text r) (m_ts r)
    (m_delivered_at r) (m_mls_generation r) (m_ts_daemon_recv r) (m_envelope_id r) (Some t) (m_failed_reason r).
Definition with_body_text (t : string) (r : message_row) : message_row :=
  mkMessageRow (m_id r) (m_group_id r) (m_sender r) (m_kind r) (m_body_blob r) (Some t) (m_ts r)
    (m_delivered_at r) (m_mls_generation r) (m_ts_daemon_recv r) (m_envelope_id r) (m_dismissed_at r)
    (m_failed_reason r).
Definition with_envelope_id (e : bytes) (r : message_row) : message_row :=
  mkMessageRow (m_id r) (m_group_id r) (m_sender r) (m_kind r) (m_body_blob r) (m_body_text r) (m_ts r)
    (m_delivered_at r) (m_mls_generation r) (m_ts_daemon_recv r) (Some e) (m_dismissed_at r) (m_failed_reason r).

(** The rows of one envelope that we sent. *)
Definition sent_by_us (envelope_id self_pubkey : bytes) (r : message_row) : Prop :=
  m_envelope_id r = Some envelope_id ∧ m_sender r = self_pubkey.
#[global] Instance sent_by_us_dec e s r : Decision (sent_by_us e s r).
Proof. unfold sent_by_us. apply _. Defined.

Definition mark_delivered_by_envelope_id (envelope_id self_pubkey : bytes) (delivered_at : Z)
    (db : messages_db) : messages_db * bool :=
  let '(db', n) := update_where (λ r, sent_by_us envelope_id self_pubkey r ∧ m_delivered_at r = None)
    (with_delivered delivered_at) db in
  (db', bool_decide (0 < n)).

Definition mark_failed (envelope_id self_pubkey : bytes) (reason : string) (db : messages_db)
    : messages_db * bool :=
  let '(db', n) := update_where (λ r, sent_by_us envelope_id self_pubkey r ∧ m_delivered_at r = None)
    (with_failed reason) db in
  (db', bool_decide (0 < n)).

Definition mark_dismissed (envelope_id self_pubkey : bytes) (now : Z) (db : messages_db)
    : messages_db * bool :=
  let '(db', n) := update_where (sent_by_us envelope_id self_pubkey) (with_dismissed now) db in
  (db', bool_decide (0 < n)).

Definition rows_of_envelope (envelope_id : bytes) (db : messages_db) : list message_row :=
  filter (λ r, m_envelope_id r = Some envelope_id) (t_rows (messages db)).

Definition envelope_ts (envelope_id : bytes) (db : messages_db) : option Z :=
  m_ts <$> head (rows_of_envelope envelope_id db).

Definition delivery_outcome (envelope_id : bytes) (db : messages_db) : option Z * option string :=
  match head (rows_of_envelope envelope_id db) with
  | Some r => (m_dismissed_at r, m_failed_reason r)
  | None => (None, None)
  end.

Definition prune_before (group_id : option bytes) (before_ts_recv : Z) (db : messages_db)
    : messages_db * Z :=
  match group_id with
  | Some g => delete_where (λ r, m_group_id r = g ∧ m_ts_daemon_recv r < before_ts_recv) db
  | None => delete_where (λ r, m_ts_daemon_recv r < before_ts_recv) db
  end.

(** The id [LIMIT 1 OFFSET keep] of the group's rows, newest first. *)
Definition prune_boundary (g : bytes) (keep : Z) (db : messages_db) : Z :=
  default (-1) (m_id <$> (order_by (λ r, - m_id r) (in_group g db)) !! Z.to_nat (Z.min keep i64_max)).

Definition prune_keep_last (g : bytes) (keep : Z) (db : messages_db) : messages_db * Z :=
  let b := prune_boundary g keep db in
  delete_where (λ r, m_group_id r = g ∧ m_id r ≤ b) db.

(** An [UPDATE] of [body_text], with its trigger. *)
Definition update_text_where (P : message_row → Prop) `{!∀ r, Decision (P r)} (text : string)
    (db : messages_db) : messages_db :=
  mkMessagesDb (t_update P (with_body_text text) (messages db)).1
    (foldr (λ r, fts_after_update r (with_body_text text r)) (messages_fts db)
       (filter P (t_rows (messages db))))
    (read_state db).

(** The id and body of the candidates of a backfill; a NULL body is an error. *)
Fixpoint candidates (what : string) (rows : list message_row) : result (list (Z * bytes)) CoreError :=
  match rows with
  | [] => Ok []
  | r :: rows' =>
      let? b := ok_or (m_body_blob r) (Core_Storage (Storage_Other
        ("collect " +:+ what +:+ ": Invalid column type Null at index: 1, name: body_blob"))) in
      let? rest := candidates what rows' in
      Ok ((m_id r, b) :: rest)
  end.

Definition backfill_text_step (st : messages_db * Z) (c : Z * bytes) : messages_db * Z :=
  let '(db, updated) := st in
  match decode_envelope c.2 with
  | Err _ => (db, updated)
  | Ok env =>
      match e_kind env with
      | Text body => (update_text_where (λ r, m_id r = c.1) body db, updated + 1)
      | _ => (db, updated)
      end
  end.

Definition backfill_body_text : action messages_db Z CoreError := λ db,
  match candidates "backfill" (filter (λ r, m_kind r = "text" ∧ m_body_text r = None)
          (t_rows (messages db))) with
  | Err e => (db, Err e)
  | Ok cs => let '(db', updated) := foldl backfill_text_step (db, 0) cs in (db', Ok updated)
  end.

(** Is there another row with the group of row [i] and this envelope id? *)
Definition envelope_taken (i : Z) (e : bytes) (db : messages_db) : Prop :=
  Exists (λ r, m_id r = i ∧ Exists (λ r', m_id r' ≠ i ∧ m_key r' = Some (m_group_id r, e))
                              (t_rows (messages db))) (t_rows (messages db)).
#[global] Instance envelope_taken_dec i e db : Decision (envelope_taken i e db).
Proof. unfold envelope_taken. apply _. Defined.

Definition backfill_id_step (st : messages_db * Z) (c : Z * bytes) : messages_db * Z :=
  let '(db, updated) := st in
  match decode_envelope c.2 with
  | Err _ => (db, updated)
  | Ok env =>
      if decide (envelope_taken c.1 (e_id env) db)
      then ((delete_where (λ r, m_id r = c.1) db).1, updated)
      else ((update_where (λ r, m_id r = c.1) (with_envelope_id (e_id env)) db).1, updated + 1)
  end.

Definition backfill_envelope_id : action messages_db Z CoreError := λ db,
  match candidates "backfill_envelope_id" (order_by m_id (filter (λ r, m_envelope_id r = None)
          (t_rows (messages db)))) with
  | Err e => (db, Err e)
  | Ok cs => let '(db', updated) := foldl backfill_id_step (db, 0) cs in (db', Ok updated)
  end.

Definition delete_by_group_in_tx (g : bytes) (db : messages_db) : messages_db :=
  (delete_where (λ r, m_group_id r = g) db).1.

Definition latest_for_group (g : bytes) (db : messages_db) : option StoredMessage :=
  (λ r, mkStoredMessage (m_id r) (m_group_id r) (m_sender r) (m_kind r) (m_body_blob r) (m_ts r)
     (m_delivered_at r) (m_mls_generation r) (m_ts_daemon_recv r) None None)
  <$> head (order_by (λ r, - m_id r) (in_group g db)).
End repo.

(** ** Search *)

(** [fts_or_other]. *)
Definition str_contains (s sub : string) : bool :=
  match String.index 0 sub s with Some _ => true | None => false end.
Definition fts_or_other (msg : string) : CoreError :=
  if str_contains msg "fts5: syntax error" || str_contains msg "malformed MATCH"
  then Core_Storage (Storage_FtsSyntax msg) else Core_Storage (Storage_Other msg).

Definition quote (tok : string) : string := char_of 34 +:+ double_quotes tok +:+ char_of 34.

Definition fts5_tokenize_and_and (query : string) : option string :=
  match quote <$> split_whitespace query with
  | [] => None
  | tokens => Some (join " AND " tokens)
  end.

(** What FTS5 finds for a MATCH expression in an index: row id, rank, snippet. *)
Class Fts5 : Type := fts_query : gmap Z string → string → result (list (Z * f64 * string)) string.

Record SearchHit : Type := mkSearchHit { message : StoredMessage; bm25 : f64; snippet : string }.

(** The join of hits and rows, in the group asked for. *)
Definition join_hits (group_id : option bytes) (db : messages_db) (hits : list (Z * f64 * string))
    : list SearchHit :=
  h ← hits;
  r ← filter (λ r, m_id r = h.1.1 ∧ (group_id = None ∨ group_id = Some (m_group_id r)))
        (t_rows (messages db));
  [mkSearchHit (stored r) h.1.2 h.2].

Definition hit_id (h : SearchHit) : Z := sm_id (message h).
Definition by_newest (h h' : SearchHit) : Prop := hit_id h' ≤ hit_id h.
Definition by_rank (h h' : SearchHit) : Prop :=
  f64_ltb (bm25 h) (bm25 h') = true ∨ f64_ltb (bm25 h') (bm25 h) = false ∧ hit_id h' ≤ hit_id h.
#[export] Instance by_newest_dec : RelDecision by_newest := λ h h', _.
#[export] Instance by_rank_dec : RelDecision by_rank := λ h h', _.

Definition search `{!Fts5} (query : string) (group_id : option bytes) (n offset : Z)
    (newest_first : bool) (db : messages_db) : result (list SearchHit) CoreError :=
  match fts5_tokenize_and_and query with
  | None => Ok []
  | Some match_expr =>
      let? hits := map_err (λ e, fts_or_other ("collect search: " +:+ e))
        (fts_query (messages_fts db) match_expr) in
      let joined := join_hits group_id db hits in
      let sorted := if newest_first then merge_sort by_newest joined else merge_sort by_rank joined in
      let offset_i := if decide (offset ≤ i64_max) then offset else 0 in
      Ok (limit (sql_limit n) (drop (Z.to_nat offset_i) sorted))
  end.

(** ** Invariant *)

(** Row ids are unique, no two rows of a group carry the same envelope, and the
    full-text index holds exactly the text of the text rows. *)
Record messages_wf (db : messages_db) : Prop := {
  mw_ids : t_wf m_id (messages db);
  mw_seq : 0 ≤ t_seq (messages db);
  mw_unique : ∀ r r' k, r ∈ t_rows (messages db) → r' ∈ t_rows (messages db) →
    m_key r = Some k → m_key r' = Some k → r = r';
  mw_fts : ∀ i t, messages_fts db !! i = Some t ↔
    ∃ r, r ∈ t_rows (messages db) ∧ m_id r = i ∧ indexed_text r = Some t
}.

Inductive messages_step `{!Serialize Envelope, !Deserialize Envelope} (db : messages_db)
    : messages_db → Prop :=
| ms_insert p : messages_step db (insert p db).1
| ms_mark_read g up_to now : messages_step db (mark_read g up_to now db)
| ms_delivered e self t : messages_step db (mark_delivered_by_envelope_id e self t db).1
| ms_failed e self reason : messages_step db (mark_failed e self reason db).1
| ms_dismissed e self now : messages_step db (mark_dismissed e self now db).1
| ms_prune_before g before : messages_step db (prune_before g before db).1
| ms_prune_keep g keep : messages_step db (prune_keep_last g keep db).1
| ms_delete_group g : messages_step db (delete_by_group_in_tx g db)
| ms_backfill_text : messages_step db (backfill_body_text db).1
| ms_backfill_id : messages_step db (backfill_envelope_id db).1.

Section messages_facts.
Implicit Types (db : messages_db).

Lemma fts_delete_all l fts i :
  foldr fts_after_delete fts l !! i =
    if decide (Exists (λ r, m_id r = i ∧ is_Some (indexed_text r)) l) then None else fts !! i.
Proof.
  induction l as [|r l IH]; simpl; [done|]. unfold fts_after_delete at 1.
  destruct (indexed_text r) as [t|] eqn:E.
  - destruct (decide (m_id r = i)) as [<-|Hne].
    + rewrite lookup_delete_eq, decide_True; [done|]. left. by rewrite E.
    + rewrite lookup_delete_ne, IH by done. by apply decide_ext; rewrite Exists_cons; naive_solver.
  - rewrite IH. apply decide_ext. rewrite Exists_cons, E. split; [by right|].
    intros [[_ []%is_Some_None]|?]; done.
Qed.

Lemma delete_where_wf (P : message_row → Prop) `{!∀ r, Decision (P r)} db :
  messages_wf db → messages_wf (delete_where P db).1.
Proof.
  intros [Hi Hs Hu Hf]. split; simpl.
  - by apply t_wf_filter.
  - done.
  - intros r r' k [_ Hr]%list_elem_of_filter [_ Hr']%list_elem_of_filter. by apply Hu.
  - intros i t. rewrite fts_delete_all. case_decide as Hex.
    + split; [done|]. intros (r & [HnP Hr]%list_elem_of_filter & <- & Ht).
      apply Exists_exists in Hex as (r' & [HP Hr']%list_elem_of_filter & Heq & _).
      by rewrite (t_wf_unique m_id _ r' r Hi) in HP.
    + rewrite Hf. split; intros (r & Hr & Hid & Ht); exists r; split_and!; try done.
      * apply list_elem_of_filter. split; [|done]. intros HP. apply Hex, Exists_exists. exists r.
        split; [by apply list_elem_of_filter|]. by rewrite Ht.
      * by apply list_elem_of_filter in Hr as [_ ?].
Qed.

Lemma update_where_wf (P : message_row → Prop) `{!∀ r, Decision (P r)} f db :
  (∀ r, m_id (f r) = m_id r) → (∀ r, indexed_text (f r) = indexed_text r) →
  (∀ r r' k, P r → r ∈ t_rows (messages db) → r' ∈ t_rows (messages db) →
     m_key (f r) = Some k → m_key (if decide (P r') then f r' else r') = Some k → r = r') →
  messages_wf db → messages_wf (update_where P f db).1.
Proof.
  intros Hid Htext Hkey [Hi Hs Hu Hf]. split; simpl.
  - apply t_wf_map; [done|]. intros r. by case_decide.
  - done.
  - intros r r' k (x & -> & Hx)%list_elem_of_fmap (y & -> & Hy)%list_elem_of_fmap Hk Hk'.
    destruct (decide (P x)) as [HP|HnP].
    + pose proof (Hkey x y k HP Hx Hy Hk Hk') as <-. by rewrite decide_True.
    + destruct (decide (P y)) as [HP'|HnP'].
      * assert (y = x) as -> by (eapply Hkey; [done..|by rewrite decide_False]). done.
      * by eapply Hu.
  - intros i t. rewrite Hf. split.
    + intros (r & Hr & Hri & Ht). eexists. split; [by apply list_elem_of_fmap_2|]. case_decide; [|done].
      by rewrite Hid, Htext.
    + intros (r & (x & -> & Hx)%list_elem_of_fmap & Hri & Ht). exists x. split; [done|].
      case_decide; [|done]. by rewrite Hid, Htext in *.
Qed.

(** Updates of columns outside the unique index. *)
Lemma update_plain_wf (P : message_row → Prop) `{!∀ r, Decision (P r)} f db :
  (∀ r, m_id (f r) = m_id r) → (∀ r, indexed_text (f r) = indexed_text r) →
  (∀ r, m_key (f r) = m_key r) → messages_wf db → messages_wf (update_where P f db).1.
Proof.
  intros Hid Htext Hkey Hwf. apply update_where_wf; [done..| |done].
  intros r r' k _ Hr Hr'. rewrite Hkey. intros Hk Hk'. eapply Hwf; [done..|].
  case_decide; [by rewrite Hkey in Hk'|done].
Qed.

Lemma fts_update_lookup old new fts i :
  m_id new = m_id old → (fts !! m_id old = None ∨ is_Some (indexed_text old)) →
  fts_after_update old new fts !! i = if decide (m_id old = i) then indexed_text new else fts !! i.
Proof.
  intros Hid Hold. unfold fts_after_update, fts_after_insert, fts_after_delete. rewrite Hid.
  destruct (indexed_text old) as [t|], (indexed_text new) as [t'|]; case_decide; subst; simplify_map_eq;
    try done; by destruct Hold as [|[]%is_Some_None].
Qed.

Lemma indexed_id db r :
  messages_wf db → r ∈ t_rows (messages db) → messages_fts db !! m_id r = indexed_text r.
Proof.
  intros Hwf Hr. destruct (messages_fts db !! m_id r) as [t|] eqn:E.
  - apply (mw_fts db Hwf) in E as (r' & Hr' & Hid & Ht).
    by rewrite <- (t_wf_unique m_id _ r' r (mw_ids db Hwf)).
  - destruct (indexed_text r) as [t|] eqn:Et; [|done].
    rewrite (proj2 (mw_fts db Hwf (m_id r) t)) in E; [done|]. by exists r.
Qed.

(** The index after [body_text] of row [i] was set. *)
Lemma update_text_fts i text db j :
  messages_wf db →
  messages_fts (update_text_where (λ r, m_id r = i) text db) !! j =
    match filter (λ r, m_id r = i) (t_rows (messages db)) with
    | r :: _ => if decide (j = i) then indexed_text (with_body_text text r) else messages_fts db !! j
    | [] => messages_fts db !! j
    end.
Proof.
  intros Hwf. unfold update_text_where. simpl.
  destruct (filter (λ r, m_id r = i) (t_rows (messages db))) as [|r l] eqn:E; [done|].
  assert (r ∈ filter (λ r, m_id r = i) (t_rows (messages db))) as [<- Hr]%list_elem_of_filter
    by (rewrite E; set_solver).
  rewrite (filter_key m_id) in E by (done || apply Hwf). injection E as [= <-]. simpl.
  rewrite fts_update_lookup; [|done|].
  - destruct (decide (m_id r = j)) as [<-|]; [by rewrite decide_True|]. by rewrite decide_False by done.
  - rewrite (indexed_id db r) by done. destruct (indexed_text r); [right; by eexists|by left].
Qed.

Lemma update_text_wf i text db :
  messages_wf db → messages_wf (update_text_where (λ r, m_id r = i) text db).
Proof.
  intros Hwf. pose proof Hwf as [Hi Hs Hu Hf].
  set (f := λ r, if decide (m_id r = i) then with_body_text text r else r).
  assert (∀ r, m_id (f r) = m_id r ∧ m_key (f r) = m_key r) as Hfr by (intros r; unfold f; by case_decide).
  split; [| | |intros j t; rewrite update_text_fts by done]; simpl; fold f.
  - apply t_wf_map; [done|apply Hfr].
  - done.
  - intros r r' k (x & -> & Hx)%list_elem_of_fmap (y & -> & Hy)%list_elem_of_fmap.
    rewrite !(proj2 (Hfr _)). intros Hk Hk'. by rewrite (Hu x y k).
  - trans (∃ x, x ∈ t_rows (messages db) ∧ m_id x = j ∧ indexed_text (f x) = Some t).
    2:{ split; [intros (x & Hx & Hj & Ht); exists (f x)|].
        - split_and!; [by apply list_elem_of_fmap_2|by rewrite (proj1 (Hfr x))|done].
        - intros (y & (x & -> & Hx)%list_elem_of_fmap & Hj & Ht). exists x. by rewrite (proj1 (Hfr x)) in Hj. }
    destruct (filter (λ r, m_id r = i) (t_rows (messages db))) as [|r l] eqn:E; [|case_decide as Hj].
    + rewrite Hf. apply exist_proper. intros x. split; intros (Hx & Hid & Ht); split_and!; try done;
        unfold f in *; destruct (decide (m_id x = i)) as [Hxi|]; try done;
        assert (x ∈ filter (λ r, m_id r = i) (t_rows (messages db))) as Hin by (by apply list_elem_of_filter);
        rewrite E in Hin; set_solver.
    + assert (r ∈ filter (λ r, m_id r = i) (t_rows (messages db))) as [Hri Hr]%list_elem_of_filter
        by (rewrite E; set_solver). subst j. split.
      * intros Ht. exists r. unfold f. by rewrite decide_True.
      * intros (x & Hx & Hid & Ht). unfold f in Ht. rewrite decide_True in Ht by done.
        by rewrite (t_wf_unique m_id _ r x Hi) by (done || congruence).
    + rewrite Hf. apply exist_proper. intros x. split; intros (Hx & Hid & Ht); split_and!; try done;
        unfold f in *; by rewrite decide_False in * by congruence.
Qed.

Context {ser : Serialize Envelope} {de : Deserialize Envelope}.

(** The row an insert writes. *)
Definition inserted_row (p : InsertParams) (kind : string) (body : bytes) (id : Z) : message_row :=
  mkMessageRow id (ip_group_id p) (ip_sender p) kind (Some body) (kind_text (e_kind (ip_envelope p)))
    (e_ts (ip_envelope p)) None (Z.min (ip_mls_generation p) i64_max) (ip_ts_daemon_recv p)
    (Some (e_id (ip_envelope p))) None None.

Lemma insert_in_tx_Ok p db db' id :
  insert_in_tx p db = Ok (db', id) →
  ∃ kind body,
    encode_envelope (ip_envelope p) = Ok body ∧ kind_name (e_kind (ip_envelope p)) = Ok kind ∧
    len (e_id (ip_envelope p)) = 16 ∧
    Some (ip_group_id p, e_id (ip_envelope p)) ∉ (m_key <$> t_rows (messages db)) ∧
    id = t_seq (messages db) + 1 ∧
    db' = mkMessagesDb (mkTable (t_rows (messages db) ++ [inserted_row p kind body id]) id)
      (fts_after_insert (inserted_row p kind body id) (messages_fts db)) (read_state db).
Proof.
  unfold insert_in_tx. destruct (encode_envelope _) as [body|e]; simpl; [|done].
  destruct (kind_name _) as [kind|e]; simpl; [|done].
  case_decide; simpl; [|done]. case_decide; simpl; [done|]. intros [= <- <-]. by exists kind, body.
Qed.

Lemma insert_wf p db : messages_wf db → messages_wf (insert p db).1.
Proof.
  intros Hwf. destruct (insert p db) as [db' [id|e]] eqn:E; cycle 1.
  { by apply transaction_Err in E as [-> _]. }
  apply transaction_Ok in E. apply insert_in_tx_Ok in E as (kind & body & _ & _ & _ & Hnew & -> & ->).
  pose proof Hwf as [Hi Hs Hu Hf]. split; simpl.
  - by apply (t_wf_insert m_id (inserted_row p kind body)).
  - lia.
  - assert (∀ r, r ∈ t_rows (messages db) → m_key r ≠ Some (ip_group_id p, e_id (ip_envelope p))) as Hn.
    { intros r Hr Hk. apply Hnew. rewrite <- Hk. by apply list_elem_of_fmap_2. }
    intros r r' k [Hr| ->%list_elem_of_singleton]%elem_of_app
      [Hr'| ->%list_elem_of_singleton]%elem_of_app; try done.
    + by apply Hu.
    + intros Hk [= <-]. by destruct (Hn r Hr).
    + intros [= <-] Hk. by destruct (Hn r' Hr').
  - assert (messages_fts db !! (t_seq (messages db) + 1) = None) as Hfresh.
    { apply eq_None_not_Some. intros [t (r & Hr & Hid & _)%Hf]. apply (wf_seq _ _ Hi) in Hr. lia. }
    intros i t. unfold fts_after_insert. simpl.
    setoid_rewrite elem_of_app. setoid_rewrite list_elem_of_singleton.
    destruct (indexed_text (inserted_row p kind body (t_seq (messages db) + 1))) as [t'|] eqn:Et.
    + destruct (decide (i = t_seq (messages db) + 1)) as [->|Hne].
      * rewrite lookup_insert_eq. split.
        -- intros [= <-]. eexists. split_and!; [by right|done|done].
        -- intros (r & [Hr| ->] & Hid & Ht); [|congruence].
           apply (wf_seq _ _ Hi) in Hr. lia.
      * rewrite lookup_insert_ne, Hf by done. split.
        -- intros (r & Hr & Hid & Ht). exists r. auto.
        -- intros (r & [Hr| ->] & Hid & Ht); [by exists r|]. by simpl in Hid.
    + rewrite Hf. split.
      * intros (r & Hr & Hid & Ht). exists r. auto.
      * intros (r & [Hr| ->] & Hid & Ht); [by exists r|]. congruence.
Qed.

Lemma backfill_text_wf cs st :
  messages_wf st.1 → messages_wf (foldl backfill_text_step st cs).1.
Proof.
  revert st. induction cs as [|c cs IH]; intros [db n] Hwf; [done|]. simpl. apply IH.
  destruct (decode_envelope _) as [env|]; [|done]. destruct (e_kind env); try done.
  by apply update_text_wf.
Qed.

Lemma backfill_id_wf cs st :
  messages_wf st.1 → messages_wf (foldl backfill_id_step st cs).1.
Proof.
  revert st. induction cs as [|[i b] cs IH]; intros [db n] Hwf; [done|]. simpl. apply IH.
  destruct (decode_envelope _) as [env|]; [|done].
  case_decide as Htaken; simpl in *; [by apply (delete_where_wf (λ r, m_id r = i))|].
  apply (update_where_wf (λ r, m_id r = i)); [done|done| |done].
  intros r r' k Hid Hr Hr' [= <-]. case_decide as Hid'.
  - intros _. eapply t_wf_unique; [apply Hwf|done..|congruence].
  - intros Hk. destruct Htaken. apply Exists_exists. exists r. split_and!; [done..|].
    apply Exists_exists. by exists r'.
Qed.

Lemma messages_step_wf db db' : messages_wf db → messages_step db db' → messages_wf db'.
Proof.
  intros Hwf. destruct 1 as [p|g up_to now|e self t|e self reason|e self now|[g|] before|g keep|g| |].
  - by apply insert_wf.
  - destruct Hwf. by split.
  - by apply (update_plain_wf (λ r, sent_by_us e self r ∧ m_delivered_at r = None) (with_delivered t)).
  - by apply (update_plain_wf (λ r, sent_by_us e self r ∧ m_delivered_at r = None) (with_failed reason)).
  - by apply (update_plain_wf (sent_by_us e self) (with_dismissed now)).
  - by apply (delete_where_wf (λ r, m_group_id r = g ∧ m_ts_daemon_recv r < before)).
  - by apply (delete_where_wf (λ r, m_ts_daemon_recv r < before)).
  - by apply (delete_where_wf (λ r, m_group_id r = g ∧ m_id r ≤ prune_boundary g keep db)).
  - by apply (delete_where_wf (λ r, m_group_id r = g)).
  - unfold backfill_body_text. destruct (candidates _ _) as [cs|]; [|done].
    pose proof (backfill_text_wf cs (db, 0) Hwf). by destruct (foldl _ _ _).
  - unfold backfill_envelope_id. destruct (candidates _ _) as [cs|]; [|done].
    pose proof (backfill_id_wf cs (db, 0) Hwf). by destruct (foldl _ _ _).
Qed.

Lemma empty_messages_wf : messages_wf empty_messages.
Proof. split; simpl; [apply t_wf_empty|done|set_solver|]. intros i t. rewrite lookup_empty. set_solver. Qed.
End messages_facts.

(** ** Pagination *)

(** Reading a conversation page by page: [recent], then [recent_before] with the
    id of the last message shown, until a page is empty. *)
Fixpoint pages (fuel : nat) (g : bytes) (n : Z) (cursor : option Z) (db : messages_db)
    : list StoredMessage :=
  match fuel with
  | O => []
  | S fuel' =>
      let page := match cursor with
        | None => recent g n db
        | Some c => recent_before g c n db
        end in
      match last page with
      | None => []
      | Some m => page ++ pages fuel' g n (Some (sm_id m)) db
      end
  end.

(** MLS epochs only grow, so a later row of a group has no lower generation. *)
Definition epochs_grow (g : bytes) (db : messages_db) : Prop :=
  ∀ r r', r ∈ in_group g db → r' ∈ in_group g db → m_id r < m_id r' →
    m_mls_generation r ≤ m_mls_generation r'.

Section pagination.
Context (g : bytes) (db : messages_db) (Hwf : messages_wf db) (Hgrow : epochs_grow g db).

(** The conversation, newest first. *)
Definition conversation : list message_row := merge_sort newer (in_group g db).

#[local] Instance newer_trans : Transitive newer.
Proof. intros x y z. unfold newer. lia. Qed.
#[local] Instance newer_total : Total newer.
Proof. intros x y. unfold newer. lia. Qed.

Lemma conversation_elem r : r ∈ conversation ↔ r ∈ in_group g db.
Proof. unfold conversation. by rewrite merge_sort_Permutation. Qed.

Lemma conversation_ids : NoDup (m_id <$> conversation).
Proof.
  unfold conversation. rewrite merge_sort_Permutation. apply NoDup_fmap_filter, Hwf.
Qed.

(** With growing epochs the order is that of the ids. *)
Lemma conversation_desc : StronglySorted (λ r r', m_id r' < m_id r) conversation.
Proof.
  pose proof (StronglySorted_merge_sort newer (in_group g db)) as Hs. fold conversation in Hs.
  assert (∀ r, r ∈ conversation → r ∈ in_group g db) as Hin by (intros r; apply conversation_elem).
  pose proof conversation_ids as Hn. revert Hs Hin Hn. generalize conversation. clear Hwf.
  induction 1 as [|r l Hs IH Hall]; [constructor|]. intros Hin [Hr Hn]%NoDup_cons.
  constructor; [apply IH; [set_solver|done]|].
  apply Forall_forall. intros r' Hr'. eapply Forall_forall in Hall; [|done].
  assert (m_id r ≠ m_id r') by (intros Heq; apply Hr; rewrite Heq; by apply list_elem_of_fmap_2).
  destruct Hall as [Hlt|[_ Hle]]; [|lia].
  destruct (decide (m_id r < m_id r')) as [Hlt'|]; [|lia].
  specialize (Hgrow r r' ltac:(set_solver) ltac:(set_solver) Hlt'). lia.
Qed.

Lemma sort_filter (P : message_row → Prop) `{!∀ r, Decision (P r)} :
  merge_sort newer (filter P (in_group g db)) = filter P conversation.
Proof.
  apply (StronglySorted_unique_strong newer).
  - intros x y Hx [_ Hy%conversation_elem]%list_elem_of_filter Hxy Hyx.
    rewrite merge_sort_Permutation in Hx. apply list_elem_of_filter in Hx as [_ Hx].
    apply list_elem_of_filter in Hx as [_ Hx]. apply list_elem_of_filter in Hy as [_ Hy].
    eapply t_wf_unique; [apply Hwf|done..|]. unfold newer in Hxy, Hyx. lia.
  - apply StronglySorted_merge_sort; apply _.
  - apply StronglySorted_filter, StronglySorted_merge_sort; apply _.
  - unfold conversation. by rewrite !merge_sort_Permutation.
Qed.

(** What is left to read at a cursor. *)
Definition rest_at (cursor : option Z) : list message_row :=
  match cursor with
  | None => conversation
  | Some c => filter (λ r, m_id r < c) conversation
  end.

Lemma rest_at_desc cursor : StronglySorted (λ r r', m_id r' < m_id r) (rest_at cursor).
Proof. destruct cursor; simpl; [apply StronglySorted_filter|]; apply conversation_desc. Qed.

Lemma rest_at_step cursor l r l' :
  rest_at cursor = l ++ r :: l' → rest_at (Some (m_id r)) = l'.
Proof.
  intros E. pose proof (rest_at_desc cursor) as Hs. rewrite E in Hs.
  assert (rest_at (Some (m_id r)) = filter (λ x, m_id x < m_id r) (l ++ r :: l')) as ->.
  { rewrite <- E. destruct cursor as [c|]; simpl; [|done]. symmetry. apply filter_filter_in.
    intros x _ Hx. assert (r ∈ rest_at (Some c)) as [? _]%list_elem_of_filter by (rewrite E; set_solver).
    lia. }
  apply StronglySorted_app in Hs as (Hlt & _ & [_ Hall]%StronglySorted_inv).
  rewrite filter_app, filter_cons_False, filter_none, filter_all; [done|..|lia].
  - intros x Hx. by eapply Forall_forall in Hall.
  - intros x Hx. specialize (Hlt x r Hx ltac:(set_solver)). simpl in Hlt. lia.
Qed.

Lemma pages_rest fuel n cursor :
  0 < n → (length (rest_at cursor) < fuel)%nat →
  pages fuel g n cursor db = stored <$> rest_at cursor.
Proof.
  intros Hn. revert cursor. induction fuel as [|fuel IH]; intros cursor Hfuel; [lia|]. cbn [pages].
  assert (match cursor with None => recent g n db | Some c => recent_before g c n db end
          = stored <$> limit (sql_limit n) (rest_at cursor)) as ->.
  { destruct cursor; unfold recent, recent_before; [by rewrite sort_filter|done]. }
  assert (∃ k, limit (sql_limit n) (rest_at cursor) = take (S k) (rest_at cursor)) as [k ->].
  { unfold limit, sql_limit, i64_max. exists (Z.to_nat (Z.min n (2 ^ 63 - 1)) - 1)%nat. f_equal. lia. }
  rewrite fmap_last. destruct (last (take (S k) (rest_at cursor))) as [r|] eqn:El; simpl.
  - apply last_Some in El as [l El]. rewrite El. pose proof (take_drop (S k) (rest_at cursor)) as E.
    rewrite El, <- app_assoc in E. simpl in E. symmetry in E.
    rewrite IH; rewrite (rest_at_step cursor l r _ E).
    + rewrite <- fmap_app, <- app_assoc. simpl. by rewrite <- E.
    + rewrite E, length_app in Hfuel. simpl in Hfuel. lia.
  - apply last_None in El. by destruct (rest_at cursor).
Qed.
End pagination.

(** ** Rows over time *)

(** What may change of a stored message: its receipt once, the failure reason
    and the dismissal, and a missing search text or envelope id. *)
Record evolves (r r' : message_row) : Prop := {
  ev_id : m_id r' = m_id r;
  ev_content : m_group_id r' = m_group_id r ∧ m_sender r' = m_sender r ∧ m_kind r' = m_kind r ∧
    m_body_blob r' = m_body_blob r ∧ m_ts r' = m_ts r ∧ m_mls_generation r' = m_mls_generation r ∧
    m_ts_daemon_recv r' = m_ts_daemon_recv r;
  ev_delivered : ∀ t, m_delivered_at r = Some t →
    m_delivered_at r' = Some t ∧ m_failed_reason r' = m_failed_reason r
}.

Definition rows_evolve (db db' : messages_db) : Prop :=
  t_seq (messages db) ≤ t_seq (messages db') ∧
  ∀ r', r' ∈ t_rows (messages db') →
    t_seq (messages db) < m_id r' ∨ ∃ r, r ∈ t_rows (messages db) ∧ evolves r r'.

Lemma evolves_refl r : evolves r r.
Proof. split; auto 10. Qed.

Lemma evolves_trans r1 r2 r3 : evolves r1 r2 → evolves r2 r3 → evolves r1 r3.
Proof.
  intros [Hi Hc Hd] [Hi' Hc' Hd']. split; [congruence|naive_solver congruence|].
  intros t [Ht Hf]%Hd. apply Hd' in Ht as [Ht' Hf']. split; congruence.
Qed.

#[export] Hint Resolve evolves_refl evolves_trans : invariant.

Lemma rows_evolve_refl db : rows_evolve db db.
Proof. split; [done|]. intros r Hr. right. exists r. auto with invariant. Qed.

Lemma rows_evolve_trans db1 db2 db3 : rows_evolve db1 db2 → rows_evolve db2 db3 → rows_evolve db1 db3.
Proof.
  intros [Hs1 H1] [Hs2 H2]. split; [lia|]. intros r3 [?|(r2 & Hr2 & He)]%H2; [left; lia|].
  apply H1 in Hr2 as [?|(r1 & Hr1 & He1)].
  - left. by rewrite (ev_id _ _ He).
  - right. exists r1. eauto with invariant.
Qed.

Lemma update_where_evolve (P : message_row → Prop) `{!∀ r, Decision (P r)} f db :
  (∀ r, P r → evolves r (f r)) → rows_evolve db (update_where P f db).1.
Proof.
  intros Hf. split; simpl; [done|]. intros r' (r & -> & Hr)%list_elem_of_fmap. right. exists r.
  split; [done|]. case_decide; [by apply Hf|apply evolves_refl].
Qed.

Lemma delete_where_evolve (P : message_row → Prop) `{!∀ r, Decision (P r)} db :
  rows_evolve db (delete_where P db).1.
Proof.
  split; simpl; [done|]. intros r [_ Hr]%list_elem_of_filter. right. exists r. auto with invariant.
Qed.

Lemma update_text_evolve (P : message_row → Prop) `{!∀ r, Decision (P r)} text db :
  rows_evolve db (update_text_where P text db).
Proof.
  split; simpl; [done|]. intros r' (r & -> & Hr)%list_elem_of_fmap. right. exists r.
  split; [done|]. case_decide; [|apply evolves_refl]. split; simpl; auto 10.
Qed.

#[export] Hint Resolve rows_evolve_refl : invariant.

Section evolution.
Context {ser : Serialize Envelope} {de : Deserialize Envelope}.

Lemma backfill_text_evolve cs st : rows_evolve st.1 (foldl backfill_text_step st cs).1.
Proof.
  revert st. induction cs as [|c cs IH]; intros [db n]; [apply rows_evolve_refl|].
  eapply rows_evolve_trans; [|apply IH]. simpl.
  destruct (decode_envelope _) as [env|]; [destruct (e_kind env)|];
    try apply update_text_evolve; auto with invariant.
Qed.

Lemma backfill_id_evolve cs st : rows_evolve st.1 (foldl backfill_id_step st cs).1.
Proof.
  revert st. induction cs as [|[i b] cs IH]; intros [db n]; [apply rows_evolve_refl|].
  eapply rows_evolve_trans; [|apply IH]. simpl.
  destruct (decode_envelope _) as [env|]; [|apply rows_evolve_refl].
  case_decide; [apply (delete_where_evolve (λ r, m_id r = i))|].
  apply (update_where_evolve (λ r, m_id r = i)). intros r _. split; simpl; auto 10.
Qed.

Lemma step_evolve db db' : messages_step db db' → rows_evolve db db'.
Proof.
  destruct 1 as [p|g up_to now|e self t|e self reason|e self now|[g|] before|g keep|g| |].
  - destruct (insert p db) as [db' [id|e]] eqn:E; cycle 1.
    { apply transaction_Err in E as [-> _]. apply rows_evolve_refl. }
    apply transaction_Ok in E. apply insert_in_tx_Ok in E as (kind & body & _ & _ & _ & _ & -> & ->).
    split; simpl; [lia|]. intros r [Hr| ->%list_elem_of_singleton]%elem_of_app; [|left; simpl; lia].
    right. exists r. auto with invariant.
  - exact (rows_evolve_refl db).
  - apply (update_where_evolve (λ r, sent_by_us e self r ∧ m_delivered_at r = None) (with_delivered t)).
    intros r [_ Hn]. split; simpl; auto 10. congruence.
  - apply (update_where_evolve (λ r, sent_by_us e self r ∧ m_delivered_at r = None) (with_failed reason)).
    intros r [_ Hn]. split; simpl; auto 10. congruence.
  - apply (update_where_evolve (sent_by_us e self) (with_dismissed now)). intros r _. split; simpl; auto 10.
  - apply (delete_where_evolve (λ r, m_group_id r = g ∧ m_ts_daemon_recv r < before)).
  - apply (delete_where_evolve (λ r, m_ts_daemon_recv r < before)).
  - apply (delete_where_evolve (λ r, m_group_id r = g ∧ m_id r ≤ prune_boundary g keep db)).
  - apply (delete_where_evolve (λ r, m_group_id r = g)).
  - unfold backfill_body_text. destruct (candidates _ _) as [cs|]; [|apply rows_evolve_refl].
    pose proof (backfill_text_evolve cs (db, 0)). by destruct (foldl _ _ _).
  - unfold backfill_envelope_id. destruct (candidates _ _) as [cs|]; [|apply rows_evolve_refl].
    pose proof (backfill_id_evolve cs (db, 0)). by destruct (foldl _ _ _).
Qed.

Lemma steps_evolve db db' : rtc messages_step db db' → rows_evolve db db'.
Proof.
  induction 1 as [|db1 db2 db3 Hstep _ IH]; [apply rows_evolve_refl|].
  eapply rows_evolve_trans; [by apply step_evolve|done].
Qed.
End evolution.

(** ** Pruning *)

Section pruning.
Context (g : bytes) (db : messages_db) (Hwf : messages_wf db).

(** The group's rows, newest first. *)
Definition newest (d : messages_db) : list message_row := order_by (λ r, - m_id r) (in_group g d).

Lemma group_ids_inj x y : x ∈ in_group g db → y ∈ in_group g db → - m_id x = - m_id y → x = y.
Proof.
  intros [_ Hx]%list_elem_of_filter [_ Hy]%list_elem_of_filter Heq.
  eapply t_wf_unique; [apply Hwf|done..|lia].
Qed.

Lemma newest_desc : StronglySorted (λ r r', m_id r' < m_id r) (newest db).
Proof.
  pose proof (order_by_sorted (λ r, - m_id r) (in_group g db)) as Hs.
  assert (NoDup (m_id <$> newest db)) as Hn.
  { unfold newest. rewrite order_by_Permutation. apply NoDup_fmap_filter, Hwf. }
  unfold newest in *. induction Hs as [|r l _ IH Hall]; [constructor|].
  apply NoDup_cons in Hn as [Hr Hn]. constructor; [by apply IH|]. apply Forall_forall. intros r' Hr'.
  eapply Forall_forall in Hall; [|done]. unfold key_le in Hall.
  assert (m_id r ≠ m_id r') by (intros Heq; apply Hr; rewrite Heq; by apply list_elem_of_fmap_2). lia.
Qed.

Lemma filter_above_boundary (k : nat) (l : list message_row) :
  StronglySorted (λ r r', m_id r' < m_id r) l → (∀ r, r ∈ l → 0 < m_id r) →
  filter (λ r, ¬ m_id r ≤ default (-1) (m_id <$> l !! k)) l = take k l.
Proof.
  intros Hs Hpos. destruct (l !! k) as [r|] eqn:E; simpl.
  - pose proof (take_drop_middle l k r E) as El. rewrite <- El in Hs at 1.
    apply StronglySorted_app in Hs as (Hlt & _ & [_ Hall]%StronglySorted_inv).
    rewrite <- El at 1. rewrite filter_app, filter_cons_False by lia.
    rewrite (filter_none _ (drop (S k) l)), (filter_all _ (take k l)); [apply app_nil_r|..].
    + intros x Hx. specialize (Hlt x r Hx ltac:(set_solver)). simpl in Hlt. lia.
    + intros x Hx. eapply Forall_forall in Hall; [|done]. simpl in Hall. lia.
  - apply lookup_ge_None in E. rewrite take_ge by done. apply filter_all.
    intros x Hx%Hpos. lia.
Qed.

Lemma prune_newest keep :
  0 ≤ keep ≤ i64_max → newest (prune_keep_last g keep db).1 = take (Z.to_nat keep) (newest db).
Proof.
  intros Hkeep. unfold newest at 1, in_group at 1, prune_keep_last. simpl. rewrite filter_comm.
  fold (in_group g db). rewrite (order_by_filter _ _ _ group_ids_inj). fold (newest db).
  rewrite <- (filter_above_boundary (Z.to_nat keep) (newest db)).
  - unfold prune_boundary. fold (newest db). rewrite Z.min_l by lia. apply filter_ext_in.
    intros r [Hr _]%elem_of_order_by%list_elem_of_filter. tauto.
  - apply newest_desc.
  - intros r [_ Hr]%elem_of_order_by%list_elem_of_filter. by apply (wf_seq _ _ (mw_ids db Hwf)).
Qed.
End pruning.

(** ** MATCH expressions

    FTS5's grammar for what [fts5_tokenize_and_and] produces: string literals, in
    which a doubled quote stands for a quote, joined by AND. *)

Definition dquote : Ascii.ascii := Ascii.ascii_of_nat 34.

(** A literal after its opening quote: its text and what follows. *)
Fixpoint fts_string (s : string) : option (string * string) :=
  match s with
  | EmptyString => None
  | String a s' =>
      if decide (a = dquote) then
        match s' with
        | EmptyString => Some (EmptyString, EmptyString)
        | String b s'' =>
            if decide (b = dquote) then '(t, rest) ← fts_string s''; Some (String a t, rest)
            else Some (EmptyString, s')
        end
      else '(t, rest) ← fts_string s'; Some (String a t, rest)
  end.

Fixpoint fts_parse (fuel : nat) (s : string) : option (list string) :=
  match fuel, s with
  | S fuel', String a s' =>
      if decide (a = dquote) then
        '(t, rest) ← fts_string s';
        match rest with
        | EmptyString => Some [t]
        | String _ _ => rest' ← strip_prefix " AND " rest; ts ← fts_parse fuel' rest'; Some (t :: ts)
        end
      else None
  | _, _ => None
  end.

Lemma fts_string_quoted t rest :
  match rest with String b _ => b ≠ dquote | EmptyString => True end →
  fts_string (double_quotes t +:+ char_of 34 +:+ rest) = Some (t, rest).
Proof.
  intros Hrest. induction t as [|a t IH].
  - change (fts_string (String dquote rest) = Some (EmptyString, rest)). cbn [fts_string].
    rewrite decide_True by done. destruct rest as [|b rest]; [done|]. by rewrite decide_False.
  - cbn [double_quotes]. destruct (decide (a = Ascii.ascii_of_nat 34)) as [->|Hne].
    + change (fts_string (String dquote (String dquote (double_quotes t +:+ char_of 34 +:+ rest)))
        = Some (String dquote t, rest)). cbn [fts_string]. rewrite !decide_True by done. by rewrite IH.
    + change (fts_string (String a (double_quotes t +:+ char_of 34 +:+ rest)) = Some (String a t, rest)).
      cbn [fts_string]. rewrite decide_False by done. by rewrite IH.
Qed.

Lemma fts_parse_join t ts :
  fts_parse (S (length ts)) (join " AND " (quote <$> (t :: ts))) = Some (t :: ts).
Proof.
  revert t. induction ts as [|t' ts IH]; intros t.
  - change (join _ _) with (String dquote (double_quotes t +:+ char_of 34 +:+ EmptyString)).
    cbn [fts_parse length]. rewrite decide_True by done. by rewrite fts_string_quoted.
  - assert (join " AND " (quote <$> t :: t' :: ts) = String dquote (double_quotes t +:+ char_of 34 +:+
      (" AND " +:+ join " AND " (quote <$> t' :: ts)))) as ->.
    { change (join " AND " (quote <$> t :: t' :: ts)) with
        (quote t +:+ " AND " +:+ join " AND " (quote <$> t' :: ts)).
      unfold quote at 1. by rewrite !string_app_assoc. }
    specialize (IH t'). remember (join " AND " (quote <$> t' :: ts)) as J eqn:EJ. clear EJ.
    assert (strip_prefix " AND " (" AND " +:+ J) = Some J) as Hstrip by reflexivity.
    cbn [length]. remember (S (length ts)) as n. cbn [fts_parse]. rewrite decide_True by done.
    rewrite fts_string_quoted by done.
    transitivity (rest' ← strip_prefix " AND " (" AND " +:+ J); ts' ← fts_parse n rest'; Some (t :: ts'));
      [reflexivity|]. rewrite Hstrip. simpl. by rewrite IH.
Qed.

(** ** Properties *)

Section messages_properties.
Context {ser : Serialize Envelope} {de : Deserialize Envelope}.

(** The history stays consistent.  After any sequence of the repository's
    operations on an empty database, row ids are unique, no two messages of a
    group carry the same envelope id, and the full-text index holds exactly the
    bodies of the stored text messages. *)
Theorem messages_invariant db : rtc messages_step empty_messages db → messages_wf db.
Proof.
  assert (messages_wf empty_messages) as H0 by apply empty_messages_wf.
  remember empty_messages as db0 eqn:E. clear E. intros Hrun.
  induction Hrun as [|db1 db2 db3 Hstep _ IH]; [done|]. apply IH. by eapply messages_step_wf.
Qed.

(** History is immutable and delivery is final.  Whatever operations follow,
    a stored message that is still there has the group, sender, kind, content,
    timestamps and generation it was stored with; once it is delivered, its
    receipt and its failure reason never change again. *)
Theorem history_immutable db db' r r' :
  messages_wf db → rtc messages_step db db' →
  r ∈ t_rows (messages db) → r' ∈ t_rows (messages db') → m_id r' = m_id r →
  evolves r r'.
Proof.
  intros Hwf [_ Hrun]%steps_evolve Hr Hr' Hid. pose proof (wf_seq _ _ (mw_ids db Hwf) r Hr).
  apply Hrun in Hr' as [?|(r0 & Hr0 & He)]; [lia|].
  rewrite <- (t_wf_unique m_id _ r0 r (mw_ids db Hwf)); [done..|]. rewrite <- Hid. symmetry. apply He.
Qed.

(** Paging through a conversation shows all of it.  Reading pages of any
    size with the id of the last message shown as the cursor returns every
    message of the group exactly once, newest first, and then stops; the number
    of messages bounds the number of pages. *)
Theorem pagination_complete g n fuel db :
  messages_wf db → epochs_grow g db → 0 < n → len (in_group g db) < Z.of_nat fuel →
  pages fuel g n None db = stored <$> merge_sort newer (in_group g db) ∧
  NoDup (sm_id <$> pages fuel g n None db).
Proof.
  intros Hwf Hgrow Hn Hfuel.
  assert (pages fuel g n None db = stored <$> conversation g db) as Hp.
  { rewrite (pages_rest g db Hwf Hgrow); [done|done|]. unfold rest_at, conversation, len in *.
    rewrite (merge_sort_Permutation newer). lia. }
  split; [exact Hp|]. rewrite Hp, <- list_fmap_compose. by apply conversation_ids.
Qed.

(** Pruning to a number of messages keeps exactly the newest ones.  The
    group is left with its [keep] newest messages, no other group loses
    anything, and the number of deleted rows is reported exactly. *)
Theorem prune_keep_last_exact g keep db db' n :
  messages_wf db → 0 ≤ keep ≤ i64_max → prune_keep_last g keep db = (db', n) →
  newest g db' = take (Z.to_nat keep) (newest g db) ∧
  (∀ g', g' ≠ g → in_group g' db' = in_group g' db) ∧
  n = Z.max 0 (len (in_group g db) - keep).
Proof.
  intros Hwf Hkeep E.
  assert (db' = (prune_keep_last g keep db).1) as -> by (by rewrite E). rewrite <- prune_newest by done.
  split_and!; [done|..].
  - intros g' Hg'. unfold in_group, prune_keep_last. simpl. apply filter_filter_in. naive_solver.
  - pose proof (len_filter_split (λ r, m_id r ≤ prune_boundary g keep db) (in_group g db)) as Hsplit.
    assert (filter (λ r, ¬ m_id r ≤ prune_boundary g keep db) (in_group g db)
            = in_group g (prune_keep_last g keep db).1) as Hrest.
    { unfold in_group, prune_keep_last. simpl. rewrite (filter_comm (λ r, m_group_id r = g)).
      apply filter_ext_in. intros r [Hr _]%list_elem_of_filter. tauto. }
    assert (n = len (filter (λ r, m_id r ≤ prune_boundary g keep db) (in_group g db))) as ->.
    { assert (n = (prune_keep_last g keep db).2) as -> by (by rewrite E). simpl. unfold in_group.
      rewrite list_filter_filter. f_equal. apply list_filter_iff. tauto. }
    assert (∀ d, length (newest g d) = length (in_group g d)) as Hlen
      by (intros d; unfold newest; by rewrite order_by_Permutation).
    pose proof (f_equal length (prune_newest g db Hwf keep Hkeep)) as Hk.
    rewrite length_take, !Hlen in Hk. cbv beta in Hsplit. rewrite Hrest in Hsplit. unfold len in *. lia.
Qed.

(** A search cannot escape its quotes.  Whatever the user types, the MATCH
    expression sent to FTS5 is the conjunction of the words of the query as
    string literals; there is none exactly when the query has no word. *)
Theorem fts_query_literal query :
  match fts5_tokenize_and_and query with
  | Some expr => split_whitespace query ≠ [] ∧
      fts_parse (length (split_whitespace query)) expr = Some (split_whitespace query)
  | None => split_whitespace query = []
  end.
Proof.
  unfold fts5_tokenize_and_and. destruct (split_whitespace query) as [|t ts]; [done|].
  split; [done|]. apply fts_parse_join.
Qed.
End messages_properties.

(** ** Witnesses *)

#[local] Existing Instance codec_contact_card.
#[local] Instance codec_kind : Codec Kind.
Proof.
  refine (codec_via
    (λ k, match k with
      | Text body => (0, [], body, []) | File manifest => (1, manifest, EmptyString, [])
      | Reaction target emoji => (2, target, emoji, []) | Edit target body => (3, target, body, [])
      | Delete target => (4, target, EmptyString, []) | Typing => (5, [], EmptyString, [])
      | ContactCardUpdate card => (6, [], EmptyString, [card]) end)
    (λ v, match v with
      | (0, _, body, _) => Some (Text body) | (1, manifest, _, _) => Some (File manifest)
      | (2, target, emoji, _) => Some (Reaction target emoji) | (3, target, body, _) => Some (Edit target body)
      | (4, target, _, _) => Some (Delete target) | (5, _, _, _) => Some Typing
      | (6, _, _, [card]) => Some (ContactCardUpdate card) | _ => None end) _).
  by intros [].
Defined.
Definition codec_envelope : Codec Envelope.
Proof.
  refine (codec_via (λ e, (e_v e, e_id e, e_ts e, option_list (e_reply_to e), e_kind e))
    (λ v, Some (mkEnvelope v.1.1.1.1 v.1.1.1.2 v.1.1.2 (head v.1.2) v.2)) _).
  by intros [v id ts [reply|] kind].
Defined.
#[local] Existing Instance codec_envelope.
#[local] Existing Instance serialize_of.
#[local] Existing Instance deserialize_of.

Definition sample_group : bytes := fill 32 Byte.x07.
Definition sample_envelope (id : byte) (body : string) : Envelope := mkEnvelope 1 (fill 16 id) 1000 None (Text body).
Definition sample_params (id : byte) (body : string) (generation : Z) : InsertParams :=
  mkInsertParams sample_group (fill 32 Byte.x0a) (sample_envelope id body) generation 1000.
Definition sample_messages : messages_db :=
  (insert (sample_params Byte.x03 "three" 5)
    (insert (sample_params Byte.x02 "two" 5) (insert (sample_params Byte.x01 "one" 4) empty_messages).1).1).1.

Lemma sample_messages_reachable : rtc messages_step empty_messages sample_messages.
Proof.
  eapply rtc_l; [apply (ms_insert _ (sample_params Byte.x01 "one" 4))|].
  eapply rtc_l; [apply (ms_insert _ (sample_params Byte.x02 "two" 5))|].
  eapply rtc_l; [apply (ms_insert _ (sample_params Byte.x03 "three" 5))|]. apply rtc_refl.
Qed.

Lemma sample_messages_wf : messages_wf sample_messages.
Proof.
  unfold sample_messages. do 3 eapply messages_step_wf, ms_insert. apply empty_messages_wf.
Qed.

Lemma messages_invariant_witness : messages_wf sample_messages ∧ len (t_rows (messages sample_messages)) = 3.
Proof. split; [exact (messages_invariant _ sample_messages_reachable)|]. vm_compute. reflexivity. Defined.

Lemma sample_epochs : epochs_grow sample_group sample_messages.
Proof.
  assert (∃ r1 r2 r3, in_group sample_group sample_messages = [r1; r2; r3] ∧
    (m_id r1 = 1 ∧ m_id r2 = 2 ∧ m_id r3 = 3) ∧
    (m_mls_generation r1 = 4 ∧ m_mls_generation r2 = 5 ∧ m_mls_generation r3 = 5))
    as (r1 & r2 & r3 & E & Hids & Hgens).
  { do 3 eexists. split; [vm_compute; reflexivity|]. split; vm_compute; auto. }
  intros r r'. rewrite E, !elem_of_cons, !elem_of_nil. intros [->|[->|[->|[]]]] [->|[->|[->|[]]]]; lia.
Qed.

Lemma pagination_complete_witness :
  len (pages 4 sample_group 2 None sample_messages) = 3 ∧
  NoDup (sm_id <$> pages 4 sample_group 2 None sample_messages).
Proof.
  destruct (pagination_complete sample_group 2 4 sample_messages sample_messages_wf sample_epochs
    ltac:(lia) ltac:(vm_compute; reflexivity)) as [Hp Hn].
  split; [rewrite Hp; vm_compute; reflexivity|exact Hn].
Defined.

Lemma history_immutable_witness :
  ∃ r r', r ∈ t_rows (messages sample_messages) ∧
    r' ∈ t_rows (messages (mark_failed (fill 16 Byte.x01) (fill 32 Byte.x0a) "timeout" sample_messages).1) ∧
    m_id r' = m_id r ∧ evolves r r'.
Proof.
  assert (∃ r r' : message_row, t_rows (messages sample_messages) !! 0%nat = Some r ∧
    t_rows (messages (mark_failed (fill 16 Byte.x01) (fill 32 Byte.x0a) "timeout" sample_messages).1) !! 0%nat
      = Some r' ∧ m_id r' = m_id r) as (r & r' & Hr & Hr' & Hid).
  { do 2 eexists. split; [vm_compute; reflexivity|]. split; [vm_compute; reflexivity|reflexivity]. }
  apply list_elem_of_lookup_2 in Hr, Hr'. exists r, r'. split; [exact Hr|]. split; [exact Hr'|].
  split; [exact Hid|]. eapply (history_immutable sample_messages); [exact sample_messages_wf| |exact Hr| |exact Hid].
  - apply rtc_once, ms_failed.
  - exact Hr'.
Defined.

Lemma prune_keep_last_exact_witness :
  (prune_keep_last sample_group 1 sample_messages).2 = 2 ∧
  newest sample_group (prune_keep_last sample_group 1 sample_messages).1
    = take 1 (newest sample_group sample_messages).
Proof.
  destruct (prune_keep_last sample_group 1 sample_messages) as [db' n] eqn:E.
  destruct (prune_keep_last_exact sample_group 1 sample_messages db' n sample_messages_wf
    ltac:(unfold i64_max; lia) E) as (Hkept & _ & Hn).
  split; [rewrite Hn; vm_compute; reflexivity|exact Hkept].
Defined.
