(* ===== verification/Receiver.v ===== *)
(** * Receiver: ingress of decrypted envelopes

    [crates/core/src/delivery/receiver.rs] over [storage/seen_messages.rs] and
    the message history, and the sweep of the dedup window in
    [crates/core/src/delivery/hub.rs].  A call of [receive] is one transaction. *)

From S2P Require Import Prelude Text Framing SimpleCodec CoreErrors Sql Float64 Identity Messages.

(** [messages] and [seen_messages]. *)
Record receiver_db : Type := mkReceiverDb {
  rd_messages : messages_db;
  rd_seen : gmap (bytes * bytes) Z
}.

(** ** [storage/seen_messages.rs] *)

(** [INSERT OR IGNORE]: was the pair new? *)
Definition seen_insert_in_tx (sender message_id : bytes) (seen_at : Z) (seen : gmap (bytes * bytes) Z)
    : gmap (bytes * bytes) Z * bool :=
  match seen !! (sender, message_id) with
  | Some _ => (seen, false)
  | None => (<[(sender, message_id) := seen_at]> seen, true)
  end.

Definition seen_contains (sender message_id : bytes) (seen : gmap (bytes * bytes) Z) : bool :=
  bool_decide (is_Some (seen !! (sender, message_id))).

Definition sweep_older_than (cutoff : Z) (seen : gmap (bytes * bytes) Z) : gmap (bytes * bytes) Z * Z :=
  (filter (λ kv, ¬ kv.2 < cutoff) seen, Z.of_nat (size (filter (λ kv, kv.2 < cutoff) seen))).

(** ** [delivery/receiver.rs] *)

Definition REPLAY_WINDOW_MS : Z := 60 * 60 * 1000.

Inductive ReceiveOutcome : Type :=
| New (envelope : Envelope) (row_id : Z) (sender group_id : bytes) (mls_generation ts_daemon_recv : Z)
| Duplicate
| Rejected (reason : string).

Definition outside_window (ts now_ms : Z) : bool :=
  bool_decide (REPLAY_WINDOW_MS < i64_saturating_abs (i64_saturating_sub ts now_ms)).

Section receiver.
Context {ser : Serialize Envelope}.

Definition receive_in_tx (sender group_id : bytes) (envelope : Envelope)
    (now_ms mls_generation ts_daemon_recv : Z) (enforce_ts_window : bool) (db : receiver_db)
    : result (receiver_db * ReceiveOutcome) failure :=
  if enforce_ts_window && outside_window (e_ts envelope) now_ms
  then Ok (db, Rejected ("ts outside ±1h window: envelope ts=" +:+ pretty (e_ts envelope)
                         +:+ ", now=" +:+ pretty now_ms))
  else
    let '(seen, is_new) := seen_insert_in_tx sender (e_id envelope) now_ms (rd_seen db) in
    if negb is_new then Ok (db, Duplicate)
    else
      let? gid_arr := if decide (len group_id = 32) then Ok group_id
        else Err (Error (Core_Storage (Storage_Other "group_id must be 32 bytes"))) in
      let? stored := insert_in_tx (mkInsertParams group_id sender envelope mls_generation ts_daemon_recv)
        (rd_messages db) in
      Ok (mkReceiverDb stored.1 seen,
          New envelope stored.2 sender gid_arr mls_generation ts_daemon_recv).

Definition receive (sender group_id : bytes) (envelope : Envelope)
    (now_ms mls_generation ts_daemon_recv : Z) (enforce_ts_window : bool)
    : action receiver_db ReceiveOutcome failure := λ db,
  transaction db (receive_in_tx sender group_id envelope now_ms mls_generation ts_daemon_recv
    enforce_ts_window).
End receiver.

Definition build_ack (message_id : bytes) : bytes := message_id.

(** ** [delivery/hub.rs]: the periodic sweep of the dedup window *)

Definition SEEN_WINDOW_MS : Z := 24 * 3600 * 1000.

Definition hub_sweep (now : Z) (db : receiver_db) : receiver_db :=
  mkReceiverDb (rd_messages db) (sweep_older_than (now - SEEN_WINDOW_MS) (rd_seen db)).1.

(** ** Lemmas *)

(** Everything that changes the two tables up to time [until]: receiving, the
    history's own operations, and sweeps. *)
Inductive receiver_step `{!Serialize Envelope, !Deserialize Envelope} (until : Z) (db : receiver_db)
    : receiver_db → Prop :=
| rs_receive sender group envelope now generation recv enforce :
    receiver_step until db (receive sender group envelope now generation recv enforce db).1
| rs_history m : messages_step (rd_messages db) m → receiver_step until db (mkReceiverDb m (rd_seen db))
| rs_sweep now : now ≤ until → receiver_step until db (hub_sweep now db).

Section receiver_facts.
Context {ser : Serialize Envelope} {de : Deserialize Envelope}.
Implicit Types (db : receiver_db).

(** The cases of a call. *)
Lemma receive_cases sender group env now generation recv enforce db db' r :
  receive sender group env now generation recv enforce db = (db', r) →
  (∃ reason, r = Ok (Rejected reason) ∧ db' = db ∧ enforce && outside_window (e_ts env) now = true) ∨
  enforce && outside_window (e_ts env) now = false ∧
  ((r = Ok Duplicate ∧ db' = db ∧ is_Some (rd_seen db !! (sender, e_id env))) ∨
   rd_seen db !! (sender, e_id env) = None ∧
   ((∃ e, r = Err e ∧ db' = db ∧
       (len group = 32 →
        insert_in_tx (mkInsertParams group sender env generation recv) (rd_messages db) = Err e)) ∨
    ∃ m id, insert_in_tx (mkInsertParams group sender env generation recv) (rd_messages db) = Ok (m, id) ∧
      len group = 32 ∧ r = Ok (New env id sender group generation recv) ∧
      db' = mkReceiverDb m (<[(sender, e_id env) := now]> (rd_seen db)))).
Proof.
  unfold receive, transaction, receive_in_tx. destruct (enforce && _) eqn:Ew.
  { intros [= <- <-]. left. by eexists. }
  unfold seen_insert_in_tx.
  destruct (rd_seen db !! (sender, e_id env)) as [t|] eqn:Es; cbn [negb].
  { intros [= <- <-]. right. split; [done|]. left. eauto. }
  case_decide as Hlen; cbn [bind_result].
  - destruct (insert_in_tx _ _) as [[m id]|e] eqn:Ei; intros [= <- <-]; right; (split; [done|]);
      right; (split; [done|]).
    + right. by exists m, id.
    + left. by exists e.
  - intros [= <- <-]. right. split; [done|]. right. split; [done|]. left. eexists. by split_and!.
Qed.

Lemma receiver_step_wf until db db' :
  messages_wf (rd_messages db) → receiver_step until db db' → messages_wf (rd_messages db').
Proof.
  intros Hwf. destruct 1 as [sender group env now gen recv enforce|m Hm|now _]; [|by eapply messages_step_wf|done].
  destruct (receive sender group env now gen recv enforce db) as [db' r] eqn:E.
  apply receive_cases in E as [(? & _ & -> & _)|(_ & [(_ & -> & _)|(_ & [(? & _ & -> & _)|(m & id & Hi & _ & _ & ->)])])];
    try done. simpl.
  pose proof (insert_wf (mkInsertParams group sender env gen recv) (rd_messages db) Hwf) as H.
  unfold insert, transaction in H. by rewrite Hi in H.
Qed.

(** A pair seen at [t] stays recorded while no sweep reaches past [t]. *)
Lemma receiver_step_seen until db db' k t :
  until ≤ t + SEEN_WINDOW_MS → rd_seen db !! k = Some t → receiver_step until db db' →
  rd_seen db' !! k = Some t.
Proof.
  intros Huntil Hk. destruct 1 as [sender group env now gen recv enforce|m Hm|now Hnow]; [|done|].
  - destruct (receive sender group env now gen recv enforce db) as [db' r] eqn:E.
    apply receive_cases in E as [(? & _ & -> & _)|(_ & [(_ & -> & _)|(Hn & [(? & _ & -> & _)|(m & id & _ & _ & _ & ->)])])];
      try done. simpl. rewrite lookup_insert_ne; [done|]. intros <-. congruence.
  - simpl. apply map_lookup_filter_Some. split; [done|]. simpl. lia.
Qed.

Lemma receiver_steps until db db' k t :
  until ≤ t + SEEN_WINDOW_MS → messages_wf (rd_messages db) → rd_seen db !! k = Some t →
  rtc (receiver_step until) db db' → messages_wf (rd_messages db') ∧ rd_seen db' !! k = Some t.
Proof.
  intros Huntil Hwf Hk. induction 1 as [|db1 db2 db3 Hstep _ IH]; [done|].
  apply IH; [by eapply receiver_step_wf|by eapply receiver_step_seen].
Qed.

(** ** Properties *)

(** Every outcome of receiving an envelope.  It is rejected exactly when the
    window is enforced and its timestamp is more than one hour off; otherwise it
    is a duplicate exactly when the pair of sender and envelope id is recorded.
    A new envelope is recorded as seen and stored as one row with its sender,
    group, generation and content; every other outcome, errors included, changes
    nothing. *)
Theorem receive_exact sender group env now generation recv enforce db db' r :
  receive sender group env now generation recv enforce db = (db', r) →
  ((∃ reason, r = Ok (Rejected reason)) ↔
     enforce = true ∧ REPLAY_WINDOW_MS < i64_saturating_abs (i64_saturating_sub (e_ts env) now)) ∧
  (r = Ok Duplicate ↔
     (∀ reason, r ≠ Ok (Rejected reason)) ∧ is_Some (rd_seen db !! (sender, e_id env))) ∧
  match r with
  | Ok (New env' row_id sender' group' generation' recv') =>
      env' = env ∧ sender' = sender ∧ group' = group ∧ generation' = generation ∧ recv' = recv ∧
      rd_seen db !! (sender, e_id env) = None ∧
      rd_seen db' = <[(sender, e_id env) := now]> (rd_seen db) ∧
      ∃ row body kind,
        t_rows (messages (rd_messages db')) = t_rows (messages (rd_messages db)) ++ [row] ∧
        encode_envelope env = Ok body ∧
        row = inserted_row (mkInsertParams group sender env generation recv) kind body row_id
  | _ => db' = db
  end.
Proof.
  intros E.
  assert (∀ o : result ReceiveOutcome failure, (∀ reason, o ≠ Ok (Rejected reason)) → enforce && outside_window (e_ts env) now = false →
    (∃ reason, o = Ok (Rejected reason)) ↔ enforce = true ∧
      REPLAY_WINDOW_MS < i64_saturating_abs (i64_saturating_sub (e_ts env) now)) as in_window.
  { intros o Ho Hw. split; [naive_solver|]. intros [-> Hw']. unfold outside_window in Hw.
    by rewrite bool_decide_eq_true_2 in Hw. }
  apply receive_cases in E as [(reason & -> & -> & Hw)|(Hw & [(-> & -> & Hseen)|(Hn & [(e & -> & -> & _)|(m & id & Hi & Hg & -> & ->)])])].
  - unfold outside_window in Hw. apply andb_true_iff in Hw as [-> Hw%bool_decide_eq_true]. split_and!; [|naive_solver|done].
    split; [done|]. intros _. by eexists.
  - split_and!; [by apply in_window|naive_solver|done].
  - split_and!; [by apply in_window| |done]. split; [done|]. intros [_ []]. congruence.
  - split; [by apply in_window|]. split; [|split_and!; try done].
    + split; [done|]. intros [_ []]. congruence.
    + apply insert_in_tx_Ok in Hi as (kind & body & Hb & _ & _ & _ & -> & ->). simpl.
      eexists _, body, kind. split_and!; done.
Qed.

(** C6: a message is announced once.  After an envelope was received as new at
    time [now], no later call with the same sender and envelope id, for any
    group, time or content, announces it again: for 24 hours of receiving,
    history operations and sweeps in any order it is a duplicate (or rejected by
    the window) and changes nothing.  The history stays consistent throughout. *)
Theorem receive_once sender group env now generation recv enforce db db1 db2 out
    group' env' now' generation' recv' enforce' :
  messages_wf (rd_messages db) →
  receive sender group env now generation recv enforce db = (db1, Ok out) →
  (∀ reason, out ≠ Rejected reason) → out ≠ Duplicate →
  rtc (receiver_step (now + SEEN_WINDOW_MS)) db1 db2 →
  e_id env' = e_id env →
  messages_wf (rd_messages db2) ∧
  (receive sender group' env' now' generation' recv' enforce' db2).1 = db2 ∧
  ((receive sender group' env' now' generation' recv' enforce' db2).2 = Ok Duplicate ∨
   ∃ reason, (receive sender group' env' now' generation' recv' enforce' db2).2 = Ok (Rejected reason)).
Proof.
  intros Hwf E Hr Hd Hrun Hid.
  assert (messages_wf (rd_messages db1)) as Hwf1.
  { eapply (receiver_step_wf now); [exact Hwf|].
    assert (db1 = (receive sender group env now generation recv enforce db).1) as -> by (by rewrite E).
    apply rs_receive. }
  assert (rd_seen db1 !! (sender, e_id env) = Some now) as Hseen.
  { apply receive_cases in E as [(? & [= ->] & _)|(_ & [([= ->] & _)|(_ & [(? & ? & _)|(m & id & _ & _ & _ & ->)])])];
      [naive_solver|done|done|]. simpl. apply lookup_insert_eq. }
  destruct (receiver_steps _ _ _ _ _ (Z.le_refl _) Hwf1 Hseen Hrun) as [Hwf2 Hseen2].
  split; [done|].
  destruct (receive sender group' env' now' generation' recv' enforce' db2) as [db3 r] eqn:E2.
  apply receive_cases in E2 as [(? & -> & -> & _)|(_ & [(-> & -> & _)|(Hn & _)])]; simpl; [by eauto..|].
  rewrite Hid in Hn. congruence.
Qed.
End receiver_facts.

(** ** Witnesses *)

#[local] Existing Instance codec_envelope.
#[local] Existing Instance serialize_of.
#[local] Existing Instance deserialize_of.

Definition sample_receiver : receiver_db := mkReceiverDb empty_messages ∅.

Lemma receive_exact_witness :
  (receive (fill 32 Byte.x0a) sample_group (sample_envelope Byte.x01 "one") 2000 4 2 true sample_receiver).2
    = Ok (New (sample_envelope Byte.x01 "one") 1 (fill 32 Byte.x0a) sample_group 4 2) ∧
  rd_seen sample_receiver !! (fill 32 Byte.x0a, fill 16 Byte.x01) = None.
Proof.
  destruct (receive (fill 32 Byte.x0a) sample_group (sample_envelope Byte.x01 "one") 2000 4 2 true
    sample_receiver) as [db' r] eqn:E.
  assert (r = Ok (New (sample_envelope Byte.x01 "one") 1 (fill 32 Byte.x0a) sample_group 4 2)) as ->.
  { assert (r = (receive (fill 32 Byte.x0a) sample_group (sample_envelope Byte.x01 "one") 2000 4 2 true
      sample_receiver).2) as -> by (by rewrite E). vm_compute. reflexivity. }
  destruct (receive_exact (fill 32 Byte.x0a) sample_group (sample_envelope Byte.x01 "one") 2000 4 2 true
    sample_receiver db' _ E) as (_ & _ & _ & _ & _ & _ & _ & Hn & _).
  split; [reflexivity|exact Hn].
Defined.

Lemma receive_once_witness :
  let db1 := (receive (fill 32 Byte.x0a) sample_group (sample_envelope Byte.x01 "one") 2000 4 2 true
                sample_receiver).1 in
  (receive (fill 32 Byte.x0a) sample_group (sample_envelope Byte.x01 "again") 3000 4 3 true
     (hub_sweep 4000 db1)).1 = hub_sweep 4000 db1.
Proof.
  intros db1.
  destruct (receive (fill 32 Byte.x0a) sample_group (sample_envelope Byte.x01 "one") 2000 4 2 true
    sample_receiver) as [db r] eqn:E.
  assert (r = Ok (New (sample_envelope Byte.x01 "one") 1 (fill 32 Byte.x0a) sample_group 4 2)) as ->.
  { assert (r = (receive (fill 32 Byte.x0a) sample_group (sample_envelope Byte.x01 "one") 2000 4 2 true
      sample_receiver).2) as -> by (by rewrite E). vm_compute. reflexivity. }
  subst db1. simpl.
  refine (proj1 (proj2 (receive_once _ _ _ 2000 4 2 true sample_receiver db (hub_sweep 4000 db) _
    sample_group (sample_envelope Byte.x01 "again") 3000 4 3 true empty_messages_wf E _ _ _ eq_refl))).
  - discriminate.
  - discriminate.
  - apply rtc_once, rs_sweep. unfold SEEN_WINDOW_MS. lia.
Defined.
