(* ===== verification/Attachments.v ===== *)
(** * Attachments: manifests, chunking and reassembly

    [crates/core/src/attachment]: [manifest.rs], [chunker.rs], [reassembler.rs],
    [store.rs] and [strip.rs], and the key derivation of [identity/derive.rs].
    The cipher, the key derivation, the hash and the image library are classes;
    random bytes are arguments; a [String] is the list of its [char]s. *)

From S2P Require Import Prelude Text Framing SimpleCodec CoreErrors MailboxProtocol.

(** ** Library code *)

(** XChaCha20-Poly1305 and HKDF-SHA256. *)
Class AttachmentCrypto : Type := {
  aead_encrypt : bytes → bytes → bytes → option bytes;
  aead_decrypt : bytes → bytes → bytes → option bytes;
  hkdf_sha256 : bytes → bytes → Z → result bytes string
}.

(** Decryption inverts encryption; encryption of a chunk and the derivation of
    56 bytes do not fail (the documented limits are far above); the tag is 16
    bytes. *)
Class AttachmentCryptoLaws {crypto : AttachmentCrypto} : Prop := {
  aead_roundtrip k n p c : aead_encrypt k n p = Some c → aead_decrypt k n c = Some p;
  aead_total k n p : len p ≤ 2 ^ 32 → is_Some (aead_encrypt k n p);
  aead_len k n p c : aead_encrypt k n p = Some c → len c = len p + 16;
  hkdf_total ikm info : ∃ okm, hkdf_sha256 ikm info 56 = Ok okm ∧ len okm = 56
}.

(** ** Constants of [mod.rs] *)

Definition CHUNK_SIZE : Z := 49152.
Definition MAX_ATTACHMENT_BYTES : Z := 100 * 1024 * 1024.
Definition MANIFEST_VERSION : Z := 1.

(** ** [identity/derive.rs] *)

Definition INFO_ATTACH_V1 : bytes := bytes_of_string "skattr-attach-v1".

Section derive.
Context {crypto : AttachmentCrypto}.

Definition hkdf_expand (out : Z) (ikm info : bytes) : result bytes CoreError :=
  map_err (λ e, Core_Identity ("hkdf expand: " +:+ e)) (hkdf_sha256 ikm info out).

Definition chunk_key_material (file_key : bytes) (index : Z) : result bytes CoreError :=
  hkdf_expand 56 file_key (INFO_ATTACH_V1 ++ u32_to_be_bytes index).
End derive.

(** ** [manifest.rs] *)

Record ChunkRef : Type := mkChunkRef { cr_index : Z; cr_ciphertext_hash : bytes; cr_len : Z }.

Record AttachmentManifest : Type := mkManifest {
  manifest_version : Z;
  attachment_id : bytes;
  filename : list Z;
  mime : list Z;
  total_size : Z;
  chunk_size : Z;
  file_key : bytes;
  chunks : list ChunkRef
}.

Section manifest_cbor.
Context {ser : Serialize AttachmentManifest} {de : Deserialize AttachmentManifest}.

Definition to_cbor (m : AttachmentManifest) : result bytes CoreError := map_err Core_CborEncode (into_writer m).

Definition from_cbor (b : bytes) : result AttachmentManifest CoreError :=
  let? m := map_err Core_CborDecode (from_reader b) in
  if decide (manifest_version m ≠ MANIFEST_VERSION)
  then Err (Core_Attachment (Attachment_ManifestInvalid
         ("unknown manifest version " +:+ pretty (manifest_version m))))
  else Ok m.
End manifest_cbor.

(** [char::is_control] and [char::is_whitespace]. *)
Definition is_control (c : Z) : bool := bool_decide (0 ≤ c ≤ 31 ∨ 127 ≤ c ≤ 159).
Definition is_whitespace (c : Z) : bool :=
  bool_decide (9 ≤ c ≤ 13 ∨ c = 32 ∨ c = 133 ∨ c = 160 ∨ c = 5760 ∨ 8192 ≤ c ≤ 8202 ∨ c = 8232 ∨
    c = 8233 ∨ c = 8239 ∨ c = 8287 ∨ c = 12288).

Definition is_bidi_or_format_control (c : Z) : bool :=
  bool_decide (c = 8206 ∨ c = 8207 ∨ 8234 ≤ c ≤ 8238 ∨ 8294 ≤ c ≤ 8297).

Definition slash : Z := 47.
Definition backslash : Z := 92.
Definition dot : Z := 46.
Definition is_separator (c : Z) : bool := bool_decide (c = slash ∨ c = backslash).

Fixpoint drop_while (p : Z → bool) (l : list Z) : list Z :=
  match l with [] => [] | c :: l' => if p c then drop_while p l' else l end.
Fixpoint take_while (p : Z → bool) (l : list Z) : list Z :=
  match l with [] => [] | c :: l' => if p c then c :: take_while p l' else [] end.

(** [str::rsplit(['/', '\\']).next()]: what follows the last separator. *)
Definition last_segment (s : list Z) : list Z :=
  reverse (take_while (λ c, negb (is_separator c)) (reverse s)).

(** [str::trim_matches] and [str::trim]. *)
Definition trim_by (p : Z → bool) (s : list Z) : list Z := reverse (drop_while p (reverse (drop_while p s))).
Definition trim_dots (s : list Z) : list Z := trim_by (λ c, bool_decide (c = dot)) s.
Definition trim (s : list Z) : list Z := trim_by is_whitespace s.

(** The filter both sanitizers apply. *)
Definition keep_char (c : Z) : bool :=
  negb (is_control c) && negb (is_bidi_or_format_control c) && negb (is_separator c).

Definition chars_of (s : string) : list Z := Z_of_byte <$> bytes_of_string s.

(** [manifest::sanitize_filename], which the sender applies. *)
Definition sanitize_filename (raw : list Z) : list Z :=
  let base := trim_dots (last_segment raw) in
  let cleaned := filter (λ c, keep_char c = true) base in
  if decide (trim cleaned = []) then chars_of "attachment" else cleaned.

(** ** [chunker.rs] *)

(** [slice::chunks]. *)
Fixpoint slice_chunks (fuel : nat) (n : nat) (l : bytes) : list bytes :=
  match fuel, l with
  | S fuel', _ :: _ => take n l :: slice_chunks fuel' n (drop n l)
  | _, _ => []
  end.

Section chunker.
Context {crypto : AttachmentCrypto} {sha : Sha256}.

Definition encrypt_chunk (fk : bytes) (i : Z) (plain : bytes) : result (ChunkRef * bytes) CoreError :=
  let? index := if decide (i ≤ u32_max) then Ok i else Err (Core_Attachment Attachment_TooLarge) in
  let? km := chunk_key_material fk index in
  let? ct := ok_or (aead_encrypt (take 32 km) (take 24 (drop 32 km)) plain)
    (Core_Attachment Attachment_AeadFailed) in
  let hash := sha256 ct in
  let? n := if decide (len ct ≤ u32_max) then Ok (len ct) else Err (Core_Attachment Attachment_SizeMismatch) in
  Ok (mkChunkRef index hash n, ct).

Fixpoint encrypt_chunks (fk : bytes) (i : Z) (plains : list bytes)
    : result (list ChunkRef * list bytes) CoreError :=
  match plains with
  | [] => Ok ([], [])
  | plain :: plains' =>
      let? c := encrypt_chunk fk i plain in
      let? rest := encrypt_chunks fk (i + 1) plains' in
      Ok (c.1 :: rest.1, c.2 :: rest.2)
  end.

Definition chunk_plaintext_with_cap (plaintext : bytes) (name ty : list Z) (max_bytes : Z) (aid fk : bytes)
    : result (AttachmentManifest * list bytes) CoreError :=
  if decide (len plaintext > max_bytes) then Err (Core_Attachment Attachment_TooLarge)
  else
    let? r := encrypt_chunks fk 0 (slice_chunks (length plaintext) (Z.to_nat CHUNK_SIZE) plaintext) in
    Ok (mkManifest MANIFEST_VERSION aid (sanitize_filename name) ty (len plaintext) CHUNK_SIZE fk r.1, r.2).

Definition chunk_plaintext (plaintext : bytes) (name ty : list Z) (aid fk : bytes)
    : result (AttachmentManifest * list bytes) CoreError :=
  chunk_plaintext_with_cap plaintext name ty MAX_ATTACHMENT_BYTES aid fk.

(** ** [reassembler.rs] *)

(** The files, and what the operating system may refuse: the message, and how many
    bytes a refused write has written. *)
Abbreviation files := (gmap string bytes).
Inductive io_op : Type := IoCreate | IoWrite (n : nat) | IoSync | IoRename | IoRemove.
Definition io_faults : Type := io_op → option (string * nat).

Definition io (faults : io_faults) (op : io_op) : result unit CoreError :=
  match faults op with Some (e, _) => Err (Core_Io e) | None => Ok tt end.

(** One chunk: fetch, check the hash, decrypt. *)
Definition open_chunk (fk : bytes) (source : Z → result bytes CoreError) (c : ChunkRef)
    : result bytes CoreError :=
  let? ct := source (cr_index c) in
  if decide (sha256 ct ≠ cr_ciphertext_hash c) then Err (Core_Attachment Attachment_ChunkHashMismatch)
  else
    let? km := chunk_key_material fk (cr_index c) in
    ok_or (aead_decrypt (take 32 km) (take 24 (drop 32 km)) ct) (Core_Attachment Attachment_AeadFailed).

(** The loop: the temp file's content and the byte count. *)
Fixpoint write_chunks (faults : io_faults) (fk : bytes) (source : Z → result bytes CoreError) (n : nat)
    (cs : list ChunkRef) (out : bytes) (written : Z) : bytes * result Z CoreError :=
  match cs with
  | [] => (out, Ok written)
  | c :: cs' =>
      match open_chunk fk source c with
      | Err e => (out, Err e)
      | Ok plain =>
          match faults (IoWrite n) with
          | Some (e, k) => (out ++ take k plain, Err (Core_Io e))
          | None => write_chunks faults fk source (S n) cs' (out ++ plain)
                      (u64_saturating_add written (len plain))
          end
      end
  end.

Definition temp_path (output : string) (pid seq : Z) : string :=
  output +:+ ".part-" +:+ pretty pid +:+ "-" +:+ pretty seq.

(** The guard's closure: remove the temp file unless that is refused. *)
Definition cleanup (faults : io_faults) (tmp : string) (fs : files) : files :=
  match faults IoRemove with Some _ => fs | None => base.delete tmp fs end.

(** [reassemble]; [pid] and [seq] make the temp name. *)
Definition reassemble (faults : io_faults) (pid seq : Z) (m : AttachmentManifest)
    (source : Z → result bytes CoreError) (output : string) : action files unit CoreError := λ fs,
  let tmp := temp_path output pid seq in
  match io faults IoCreate with
  | Err e => (cleanup faults tmp fs, Err e)
  | Ok _ =>
      let '(out, r) := write_chunks faults (file_key m) source 0 (chunks m) [] 0 in
      let fs' := <[tmp := out]> fs in
      match
        let? written := r in
        let? _ := io faults IoSync in
        let? _ := if decide (written ≠ total_size m) then Err (Core_Attachment Attachment_SizeMismatch)
          else Ok tt in
        io faults IoRename
      with
      | Err e => (cleanup faults tmp fs', Err e)
      | Ok _ => (<[output := out]> (base.delete tmp fs'), Ok tt)
      end
  end.
End chunker.

(** ** [store.rs]: the staged ciphertexts, a file per attachment and index *)

Abbreviation chunk_store := (gmap (bytes * Z) bytes).

Definition store_put (aid : bytes) (index : Z) (ct : bytes) (s : chunk_store) : chunk_store :=
  <[(aid, index) := ct]> s.

Definition get_chunk (aid : bytes) (index : Z) (s : chunk_store) : result bytes CoreError :=
  ok_or (s !! (aid, index)) (Core_Io "No such file or directory (os error 2)").

Definition store_remove (aid : bytes) (s : chunk_store) : chunk_store := filter (λ kv, kv.1.1 ≠ aid) s.

(** [StoreSource]. *)
Definition store_source (s : chunk_store) (aid : bytes) (index : Z) : result bytes CoreError :=
  get_chunk aid index s.

(** ** [strip.rs] *)

Inductive ImageKind : Type := Jpeg | Png | Other.

Definition starts_with_bytes (b p : bytes) : bool := bool_decide (take (length p) b = p).

Definition JPEG_MAGIC : bytes := [Byte.xff; Byte.xd8; Byte.xff].
Definition PNG_MAGIC : bytes := [Byte.x89; Byte.x50; Byte.x4e; Byte.x47; Byte.x0d; Byte.x0a; Byte.x1a; Byte.x0a].

Definition detect_kind (b : bytes) (ty : list Z) : ImageKind :=
  if starts_with_bytes b JPEG_MAGIC || bool_decide (ty = chars_of "image/jpeg") then Jpeg
  else if starts_with_bytes b PNG_MAGIC || bool_decide (ty = chars_of "image/png") then Png
  else Other.

(** The image library's parse, strip and encode. *)
Class ImageLibrary : Type := {
  strip_jpeg_parts : bytes → result bytes string;
  strip_png_parts : bytes → result bytes string
}.

Definition strip_metadata {lib : ImageLibrary} (b : bytes) (ty : list Z) : result (bytes * list Z) CoreError :=
  match detect_kind b ty with
  | Jpeg =>
      let? out := map_err (λ e, Core_Attachment (Attachment_StripFailed ("jpeg parse: " +:+ e))) (strip_jpeg_parts b) in
      Ok (out, chars_of "image/jpeg")
  | Png =>
      let? out := map_err (λ e, Core_Attachment (Attachment_StripFailed ("png parse: " +:+ e))) (strip_png_parts b) in
      Ok (out, chars_of "image/png")
  | Other => Ok (b, ty)
  end.

(** ** Lemmas *)

Lemma slice_chunks_concat fuel n l :
  (0 < n)%nat → (length l ≤ fuel)%nat → concat (slice_chunks fuel n l) = l.
Proof.
  intros Hn. revert l. induction fuel as [|fuel IH]; intros [|x l] Hl; try done; simpl in Hl; [lia|].
  cbn [slice_chunks concat]. rewrite IH; [apply take_drop|]. rewrite length_drop. simpl. lia.
Qed.

Lemma slice_chunks_bounds fuel n l :
  (0 < n)%nat → (length (slice_chunks fuel n l) ≤ fuel)%nat ∧
  Forall (λ c, (length c ≤ n)%nat) (slice_chunks fuel n l).
Proof.
  intros Hn. revert l. induction fuel as [|fuel IH]; intros [|x l]; simpl; try (split; [lia|constructor]).
  destruct (IH (drop n (x :: l))) as [? ?]. split; [lia|]. constructor; [|done].
  rewrite length_take. lia.
Qed.

Section chunk_facts.
Context {crypto : AttachmentCrypto} {laws : AttachmentCryptoLaws} {sha : Sha256}.

(** Chunks within the limits are encrypted, and open again at their index. *)
Lemma encrypt_chunk_open fk i plain :
  0 ≤ i ≤ u32_max → len plain ≤ u32_max - 16 →
  ∃ c ct, encrypt_chunk fk i plain = Ok (c, ct) ∧ cr_index c = i ∧ cr_ciphertext_hash c = sha256 ct ∧
    ∀ source, source i = Ok ct → open_chunk fk source c = Ok plain.
Proof.
  intros Hi Hlen. unfold encrypt_chunk. rewrite decide_True by lia. cbn [bind_result].
  unfold chunk_key_material, hkdf_expand.
  destruct (hkdf_total fk (INFO_ATTACH_V1 ++ u32_to_be_bytes i)) as (km & Hkm & _).
  rewrite Hkm. cbn [map_err bind_result].
  destruct (aead_total (take 32 km) (take 24 (drop 32 km)) plain) as [ct Hct].
  { unfold u32_max in *. lia. }
  rewrite Hct. cbn [ok_or bind_result]. pose proof (aead_len _ _ _ _ Hct).
  rewrite decide_True by lia. cbn [bind_result]. eexists _, ct. split_and!; [done..|].
  intros source Hs. unfold open_chunk. cbn [cr_index cr_ciphertext_hash]. rewrite Hs. cbn [bind_result].
  rewrite decide_False by naive_solver. unfold chunk_key_material, hkdf_expand. rewrite Hkm.
  cbn [map_err bind_result]. by rewrite (aead_roundtrip _ _ _ _ Hct).
Qed.

Definition no_faults : io_faults := λ _, None.

Lemma encrypt_chunks_spec fk i plains :
  0 ≤ i → i + len plains ≤ u32_max + 1 → Forall (λ p, len p ≤ u32_max - 16) plains →
  ∃ refs cts, encrypt_chunks fk i plains = Ok (refs, cts) ∧
    length cts = length plains ∧
    Forall2 (λ c ct, cr_ciphertext_hash c = sha256 ct) refs cts ∧
    (∀ k c, refs !! k = Some c → cr_index c = i + Z.of_nat k) ∧
    ∀ source n out w,
      (∀ k ct, cts !! k = Some ct → source (i + Z.of_nat k) = Ok ct) →
      0 ≤ w → w + len (concat plains) ≤ u64_max →
      write_chunks no_faults fk source n refs out w
        = (out ++ concat plains, Ok (w + len (concat plains))).
Proof.
  revert i. induction plains as [|p plains IH]; intros i Hi Hcount Hall.
  { exists [], []. split_and!; [done|done|constructor|done|]. intros source n out w _ _ _. simpl.
    by rewrite app_nil_r, len_nil, Z.add_0_r. }
  apply Forall_cons in Hall as [Hp Hall].
  destruct (encrypt_chunk_open fk i p) as (c & ct & Ec & Hci & Hch & Hopen); [lens|done|].
  destruct (IH (i + 1)) as (refs & cts & Er & Hl & Hf & Hidx & Hw); [lia|lens|done|].
  exists (c :: refs), (ct :: cts). cbn [encrypt_chunks]. rewrite Ec. cbn [bind_result fst snd].
  rewrite Er. split_and!; [done|simpl; lia|by constructor|..].
  - intros [|k] c'; simpl.
    + intros [= <-]. lia.
    + intros Hc'. rewrite (Hidx k c' Hc'). lia.
  - intros source n out w Hsrc Hw0 Hmax. cbn [write_chunks concat] in *. rewrite len_app in Hmax.
    pose proof (len_nonneg (concat plains)). pose proof (len_nonneg p).
    rewrite (Hopen source) by (rewrite <- (Hsrc 0%nat ct eq_refl); f_equal; lia). cbn.
    rewrite Hw.
    + unfold u64_saturating_add. rewrite Z.min_l by lia. rewrite <- app_assoc, len_app. do 2 f_equal. lia.
    + intros k ct' Hk. rewrite <- (Hsrc (S k) ct' Hk). f_equal. lia.
    + unfold u64_saturating_add. lia.
    + unfold u64_saturating_add. rewrite Z.min_l; lia.
Qed.

(** Staging the chunks of an attachment, as the sender does. *)
Fixpoint stage (aid : bytes) (i : Z) (cts : list bytes) (s : chunk_store) : chunk_store :=
  match cts with [] => s | ct :: cts' => stage aid (i + 1) cts' (store_put aid i ct s) end.

Lemma stage_before aid i cts s j : j < i → stage aid i cts s !! (aid, j) = s !! (aid, j).
Proof.
  revert i s. induction cts as [|ct cts IH]; intros i s Hj; [done|]. simpl.
  rewrite IH by lia. unfold store_put. apply lookup_insert_ne. naive_solver lia.
Qed.

Lemma stage_lookup aid i cts s k ct :
  cts !! k = Some ct → store_source (stage aid i cts s) aid (i + Z.of_nat k) = Ok ct.
Proof.
  unfold store_source, get_chunk. revert i s k. induction cts as [|c cts IH]; intros i s [|k]; simpl; try done.
  - intros [= ->]. rewrite stage_before by lia. unfold store_put. by rewrite Z.add_0_r, lookup_insert_eq.
  - intros Hk. replace (i + Z.of_nat (S k)) with (i + 1 + Z.of_nat k) by lia. by apply IH.
Qed.

Lemma temp_path_ne output pid seq : temp_path output pid seq ≠ output.
Proof.
  intros H%(f_equal String.length). unfold temp_path in H.
  rewrite !string_length_app in H. change (String.length ".part-") with 6%nat in H. lia.
Qed.

Lemma chunk_plaintext_spec plaintext name ty aid fk :
  len plaintext ≤ MAX_ATTACHMENT_BYTES →
  ∃ refs cts, chunk_plaintext plaintext name ty aid fk
      = Ok (mkManifest MANIFEST_VERSION aid (sanitize_filename name) ty (len plaintext) CHUNK_SIZE fk refs, cts) ∧
    Forall2 (λ c ct, cr_ciphertext_hash c = sha256 ct) refs cts ∧
    (∀ k c, refs !! k = Some c → cr_index c = Z.of_nat k) ∧
    ∀ source, (∀ k ct, cts !! k = Some ct → source (Z.of_nat k) = Ok ct) →
      write_chunks no_faults fk source 0 refs [] 0 = (plaintext, Ok (len plaintext)).
Proof.
  intros Hlen. unfold chunk_plaintext, chunk_plaintext_with_cap. rewrite decide_False by lia.
  set (n := Z.to_nat CHUNK_SIZE). assert (0 < n)%nat as Hn by (unfold n, CHUNK_SIZE; lia).
  pose proof (slice_chunks_concat (length plaintext) n plaintext Hn (Nat.le_refl _)) as Hcat.
  destruct (slice_chunks_bounds (length plaintext) n plaintext Hn) as [Hcount Hsize].
  destruct (encrypt_chunks_spec fk 0 (slice_chunks (length plaintext) n plaintext)) as
    (refs & cts & E & _ & Hhash & Hidx & Hw).
  - lia.
  - unfold len, MAX_ATTACHMENT_BYTES, u32_max in *. lia.
  - eapply Forall_impl; [exact Hsize|]. intros c Hc. unfold len, u32_max. unfold n, CHUNK_SIZE in Hc. lia.
  - exists refs, cts. rewrite E. cbn [bind_result fst snd]. split_and!; [done..| |].
    + intros k c Hk. rewrite (Hidx k c Hk). lia.
    + intros source Hsrc. rewrite Hw, Hcat; [done|..].
      * intros k ct Hk. by rewrite Z.add_0_l, Hsrc with (ct := ct).
      * lia.
      * rewrite Hcat. unfold MAX_ATTACHMENT_BYTES, u64_max in *. lia.
Qed.

(** ** Properties *)

(** An attachment survives the trip.  Every file up to 100 MiB is accepted,
    its chunks staged in any store reassemble, whatever else the store holds,
    to exactly the file, and the temp file is gone; a larger file is refused. *)
Theorem attachment_roundtrip plaintext name ty aid fk :
  match chunk_plaintext plaintext name ty aid fk with
  | Ok (m, cts) =>
      len plaintext ≤ MAX_ATTACHMENT_BYTES ∧ total_size m = len plaintext ∧
      ∀ s fs output pid seq,
        reassemble no_faults pid seq m (store_source (stage aid 0 cts s) aid) output fs
          = (<[output := plaintext]> (base.delete (temp_path output pid seq) fs), Ok tt)
  | Err e => e = Core_Attachment Attachment_TooLarge ∧ MAX_ATTACHMENT_BYTES < len plaintext
  end.
Proof.
  destruct (decide (len plaintext ≤ MAX_ATTACHMENT_BYTES)) as [Hle|Hgt].
  - destruct (chunk_plaintext_spec plaintext name ty aid fk Hle) as (refs & cts & -> & _ & _ & Hw).
    split_and!; [done..|]. intros s fs output pid seq. unfold reassemble. cbn [io no_faults chunks file_key].
    rewrite Hw by (intros k ct Hk; rewrite <- (Z.add_0_l (Z.of_nat k)); by apply stage_lookup).
    cbn [bind_result io no_faults total_size]. rewrite decide_False by naive_solver. cbn.
    by rewrite delete_insert_eq.
  - unfold chunk_plaintext, chunk_plaintext_with_cap. rewrite decide_True by lia. split; [done|lia].
Qed.

(** Faults only stop the loop. *)
Lemma write_chunks_Ok faults fk source n cs out w out' w' :
  write_chunks faults fk source n cs out w = (out', Ok w') →
  write_chunks no_faults fk source n cs out w = (out', Ok w') ∧
  ∀ c, c ∈ cs → ∃ ct, source (cr_index c) = Ok ct ∧ sha256 ct = cr_ciphertext_hash c.
Proof.
  revert n out w. induction cs as [|c cs IH]; intros n out w; cbn [write_chunks].
  { intros [= <- <-]. split; [done|set_solver]. }
  destruct (open_chunk fk source c) as [plain|e] eqn:Eo; [|done].
  destruct (faults (IoWrite n)) as [[e k]|]; [done|]. intros [Hw Hall]%IH. split; [done|].
  intros c' [->|Hc']%elem_of_cons; [|by apply Hall]. unfold open_chunk in Eo.
  apply bind_Ok_inv in Eo as (ct & Hct & Eo). exists ct. split; [done|].
  by case_decide.
Qed.

(** What [reassemble] does to the files, for any source and any faults. *)
Lemma reassemble_files faults pid seq m source output fs fs' r :
  reassemble faults pid seq m source output fs = (fs', r) →
  match r with
  | Ok _ => ∃ out w, write_chunks faults (file_key m) source 0 (chunks m) [] 0 = (out, Ok w) ∧
      fs' !! output = Some out
  | Err _ => fs' !! output = fs !! output
  end ∧
  (r = Ok tt ∨ faults IoRemove = None → fs' !! temp_path output pid seq = None) ∧
  ∀ p, p ≠ output → p ≠ temp_path output pid seq → fs' !! p = fs !! p.
Proof.
  pose proof (temp_path_ne output pid seq) as Hne. unfold reassemble.
  remember (temp_path output pid seq) as tmp eqn:Etmp. clear Etmp.
  assert (∀ g, (∀ p, p ≠ tmp → g !! p = fs !! p) →
    cleanup faults tmp g !! output = fs !! output ∧
    (faults IoRemove = None → cleanup faults tmp g !! tmp = None) ∧
    ∀ p, p ≠ output → p ≠ tmp → cleanup faults tmp g !! p = fs !! p) as Hclean.
  { intros g Hg. unfold cleanup. destruct (faults IoRemove) as [f|].
    - split_and!; [by apply Hg|done|]. intros p _. apply Hg.
    - rewrite lookup_delete_ne, lookup_delete_eq by done. split_and!; [by apply Hg|done|].
      intros p _ Hp. rewrite lookup_delete_ne by done. by apply Hg. }
  destruct (io faults IoCreate) as [u|e].
  2:{ intros [= <- <-]. destruct (Hclean fs) as (? & ? & ?); [done|]. split_and!; [done| |done].
      intros [|]; [done|auto]. }
  destruct (write_chunks faults (file_key m) source 0 (chunks m) [] 0) as [out r0] eqn:Ew.
  destruct (bind_result r0 _) as [u'|e] eqn:Er; intros [= <- <-].
  - apply bind_Ok_inv in Er as (w & -> & _). split_and!.
    + exists out, w. by rewrite lookup_insert_eq.
    + intros _. by rewrite lookup_insert_ne, lookup_delete_eq.
    + intros p Hp Hp'. by rewrite lookup_insert_ne, lookup_delete_ne, lookup_insert_ne.
  - destruct (Hclean (<[tmp := out]> fs)) as (? & ? & ?).
    { intros p Hp. by rewrite lookup_insert_ne. }
    split_and!; [done| |done]. intros [|]; [done|auto].
Qed.

(** C31: no wrong and no partial output.  Let a peer serve any bytes for the
    chunks of an attachment and let any file operation fail: if reassembly
    reports success the output file is exactly the sender's file, and if it
    reports an error the output path is as it was before.  No decrypted temp
    file is left unless its removal is refused, and no other file is touched.
    What is served is assumed not to be a hash collision with a chunk. *)
Theorem attachment_integrity plaintext name ty aid fk m cts source faults pid seq output fs fs' r :
  chunk_plaintext plaintext name ty aid fk = Ok (m, cts) →
  (∀ i x ct, source i = Ok x → ct ∈ cts → sha256 x = sha256 ct → x = ct) →
  reassemble faults pid seq m source output fs = (fs', r) →
  match r with
  | Ok _ => fs' !! output = Some plaintext
  | Err _ => fs' !! output = fs !! output
  end ∧
  (r = Ok tt ∨ faults IoRemove = None → fs' !! temp_path output pid seq = None) ∧
  ∀ p, p ≠ output → p ≠ temp_path output pid seq → fs' !! p = fs !! p.
Proof.
  intros Em Hcoll (Hout & Htmp & Hrest)%reassemble_files. split_and!; [|done..].
  destruct r as [u|e]; [|done]. destruct Hout as (out & w & Hw & ->). f_equal.
  apply write_chunks_Ok in Hw as [Hw Hsrc].
  destruct (decide (len plaintext ≤ MAX_ATTACHMENT_BYTES)) as [Hle|Hgt]; cycle 1.
  { unfold chunk_plaintext, chunk_plaintext_with_cap in Em. by rewrite decide_True in Em by lia. }
  destruct (chunk_plaintext_spec plaintext name ty aid fk Hle) as (refs & cts' & E & Hhash & Hidx & Hwrite).
  rewrite E in Em. injection Em as <- <-. cbn [file_key chunks] in *.
  rewrite Hwrite in Hw; [by injection Hw|]. intros k ct Hk.
  destruct (Forall2_lookup_r _ _ _ _ _ Hhash Hk) as (c & Hc & Heq).
  destruct (Hsrc c) as (ct' & Hct' & Hsha); [by eapply list_elem_of_lookup_2|].
  rewrite <- (Hidx k c Hc), Hct'. f_equal. apply (Hcoll _ _ ct Hct'); [by eapply list_elem_of_lookup_2|congruence].
Qed.
End chunk_facts.

Lemma keep_char_filter (l : list Z) c : c ∈ filter (λ c, keep_char c = true) l → keep_char c = true.
Proof. by intros [? _]%list_elem_of_filter. Qed.

(** The sender's file names.  A sanitized name is never empty and contains
    no separator, control character or direction override.  It can still be a
    parent-directory reference: dots are trimmed before control characters are
    dropped, so dots between two control characters remain. *)
Theorem sender_filename raw :
  sanitize_filename raw ≠ [] ∧ Forall (λ c, keep_char c = true) (sanitize_filename raw) ∧
  sanitize_filename [1; dot; dot; 1] = [dot; dot].
Proof.
  split_and!; [| |vm_compute; reflexivity].
  - unfold sanitize_filename. case_decide as H; [vm_compute; discriminate|]. intros E. rewrite E in H.
    by vm_compute in H.
  - unfold sanitize_filename. case_decide.
    + apply Forall_forall. intros c Hc. assert (forallb keep_char (chars_of "attachment") = true) as Hall
        by (vm_compute; reflexivity). rewrite forallb_forall in Hall. apply Hall. by apply list_elem_of_In.
    + apply Forall_forall. intros c. apply keep_char_filter.
Qed.

(** ** Witnesses: a toy cipher that appends a tag, and the identity as hash *)

#[local] Instance toy_crypto : AttachmentCrypto := {|
  aead_encrypt _ _ p := Some (p ++ fill 16 Byte.x00);
  aead_decrypt _ _ c := Some (take (length c - 16) c);
  hkdf_sha256 _ _ n := Ok (fill (Z.to_nat n) Byte.x00)
|}.
#[local] Instance toy_hash : Sha256 := λ b, b.

Lemma toy_crypto_laws : AttachmentCryptoLaws.
Proof.
  split; unfold aead_encrypt, aead_decrypt, hkdf_sha256, toy_crypto, len, fill.
  - intros k n p c [= <-]. rewrite length_app. cbn [length]. f_equal.
    replace (length p + 16 - 16)%nat with (length p) by lia. apply take_app_length.
  - by eauto.
  - intros k n p c [= <-]. rewrite length_app. cbn [length]. lia.
  - intros ikm info. eexists. split; [done|]. by rewrite length_replicate.
Qed.

Definition hello : bytes := bytes_of_string "hello".
Definition toy_chunks : AttachmentManifest * list bytes :=
  match chunk_plaintext hello (chars_of "a.txt") (chars_of "text/plain") (fill 16 Byte.x01) (fill 32 Byte.x02) with
  | Ok r => r
  | Err _ => (mkManifest 0 [] [] [] 0 0 [] [], [])
  end.

Lemma attachment_roundtrip_witness :
  reassemble no_faults 7 0 toy_chunks.1 (store_source (stage (fill 16 Byte.x01) 0 toy_chunks.2 ∅) (fill 16 Byte.x01))
    "out" ∅ = (<["out" := hello]> (base.delete (temp_path "out" 7 0) ∅), Ok tt).
Proof.
  pose proof (attachment_roundtrip (laws := toy_crypto_laws) hello (chars_of "a.txt") (chars_of "text/plain")
    (fill 16 Byte.x01) (fill 32 Byte.x02)) as H.
  destruct (chunk_plaintext hello (chars_of "a.txt") (chars_of "text/plain") (fill 16 Byte.x01)
    (fill 32 Byte.x02)) as [[m cts]|e] eqn:E; [|exfalso; vm_compute in E; discriminate E].
  assert (toy_chunks = (m, cts)) as -> by (unfold toy_chunks; by rewrite E).
  exact (proj2 (proj2 H) ∅ ∅ "out" 7 0).
Defined.

(** A peer that serves something else. *)
Lemma attachment_integrity_witness :
  let r := reassemble no_faults 7 0 toy_chunks.1 (λ _, Ok (bytes_of_string "evil")) "out" ∅ in
  r.2 = Err (Core_Attachment Attachment_ChunkHashMismatch) ∧ r.1 !! "out" = None ∧
  r.1 !! temp_path "out" 7 0 = None.
Proof.
  intros r. split; [vm_compute; reflexivity|].
  assert (chunk_plaintext hello (chars_of "a.txt") (chars_of "text/plain") (fill 16 Byte.x01) (fill 32 Byte.x02)
    = Ok (toy_chunks.1, toy_chunks.2)) as Em by (vm_compute; reflexivity).
  destruct r as [fs' res] eqn:E.
  destruct (attachment_integrity (laws := toy_crypto_laws) _ _ _ _ _ _ _ (λ _, Ok (bytes_of_string "evil"))
    no_faults 7 0 "out" ∅ fs' res Em (λ _ _ _ _ _ H, H) E) as (Hout & Htmp & _).
  assert (res = Err (Core_Attachment Attachment_ChunkHashMismatch)) as ->.
  { assert (res = (reassemble no_faults 7 0 toy_chunks.1 (λ _, Ok (bytes_of_string "evil")) "out" ∅).2) as ->
      by (subst r; by rewrite E). vm_compute. reflexivity. }
  split; [exact Hout|]. apply Htmp. right. reflexivity.
Defined.
