(* ===== verification/ChunkTransfer.v ===== *)
(** * ChunkTransfer: the direct transfer of attachment chunks

    [crates/core/src/delivery/chunk_transfer.rs]: the receiver's state machine,
    the sender's side, and the receiver's file name sanitizer.  [Instant]s are
    milliseconds of a monotonic clock; the order in which a [HashMap] is
    iterated is an argument. *)

From S2P Require Import Prelude Text Framing SimpleCodec CoreErrors MailboxProtocol PeerFrame Attachments.

Definition CHUNK_WINDOW : Z := 8.
Definition CHUNK_RETRY_BUDGET : Z := 3.
Definition CHUNK_REQUEST_TIMEOUT : Z := 30 * 1000.

Definition NACK_UNKNOWN_ATTACHMENT : Z := 0.
Definition NACK_INDEX_OUT_OF_RANGE : Z := 1.
Definition NACK_STORE_READ : Z := 2.

Inductive ChunkAction : Type := Request (indices : list Z) | Fail.

Record InFlight : Type := mkInFlight { attempts : Z; sent_at : Z }.

Record ChunkRx : Type := mkChunkRx {
  rx_manifest : AttachmentManifest;
  rx_needed : list Z;
  rx_inflight : gmap Z InFlight;
  rx_received : Z;
  rx_total : Z
}.

(** [as u32]. *)
Definition as_u32 (z : Z) : Z := z mod 2 ^ 32.

(** [ChunkRx::new]. *)
Definition rx_new (m : AttachmentManifest) (already_received : list Z) : ChunkRx :=
  let total := as_u32 (len (chunks m)) in
  let needed := filter (λ i, i ∉ already_received) (cr_index <$> chunks m) in
  mkChunkRx m needed ∅ (as_u32 (total - as_u32 (len needed))) total.

(** The loop of [ChunkRx::next_requests]. *)
Fixpoint pull (now : Z) (needed : list Z) (inflight : gmap Z InFlight)
    : list Z * gmap Z InFlight * list Z :=
  if decide (Z.of_nat (size inflight) < CHUNK_WINDOW) then
    match needed with
    | [] => ([], inflight, [])
    | idx :: needed' =>
        let '(n, m, out) := pull now needed' (<[idx := mkInFlight 1 now]> inflight) in
        (n, m, idx :: out)
    end
  else (needed, inflight, []).

Definition next_requests (now : Z) (rx : ChunkRx) : ChunkRx * list Z :=
  let '(needed, inflight, out) := pull now (rx_needed rx) (rx_inflight rx) in
  (mkChunkRx (rx_manifest rx) needed inflight (rx_received rx) (rx_total rx), out).

(** [ChunkRx::verify]. *)
Definition rx_verify {sha : Sha256} (rx : ChunkRx) (index : Z) (ciphertext : bytes) : bool :=
  match head (filter (λ c, cr_index c = index) (chunks (rx_manifest rx))) with
  | None => false
  | Some c => bool_decide (sha256 ciphertext = cr_ciphertext_hash c)
  end.

Definition set_inflight (m : gmap Z InFlight) (rx : ChunkRx) : ChunkRx :=
  mkChunkRx (rx_manifest rx) (rx_needed rx) m (rx_received rx) (rx_total rx).

Definition on_received (index : Z) (rx : ChunkRx) : ChunkRx * bool :=
  match rx_inflight rx !! index with
  | Some _ => (mkChunkRx (rx_manifest rx) (rx_needed rx) (base.delete index (rx_inflight rx))
                 (Z.min (rx_received rx + 1) u32_max) (rx_total rx), true)
  | None => (rx, false)
  end.

Definition on_bad (now index : Z) (rx : ChunkRx) : ChunkRx * ChunkAction :=
  match rx_inflight rx !! index with
  | Some f =>
      if decide (attempts f < CHUNK_RETRY_BUDGET)
      then (set_inflight (<[index := mkInFlight (attempts f + 1) now]> (rx_inflight rx)) rx, Request [index])
      else (rx, Fail)
  | None => (rx, Request [])
  end.

(** The loop of [ChunkRx::timed_out] over the map in iteration order. *)
Fixpoint retry_stale (now : Z) (order : list Z) (inflight : gmap Z InFlight) (to_retry : list Z)
    : gmap Z InFlight * ChunkAction :=
  match order with
  | [] => (inflight, Request to_retry)
  | idx :: order' =>
      match inflight !! idx with
      | None => retry_stale now order' inflight to_retry
      | Some f =>
          if decide (CHUNK_REQUEST_TIMEOUT ≤ Z.max 0 (now - sent_at f)) then
            if decide (CHUNK_RETRY_BUDGET ≤ attempts f) then (inflight, Fail)
            else retry_stale now order' (<[idx := mkInFlight (attempts f + 1) now]> inflight) (to_retry ++ [idx])
          else retry_stale now order' inflight to_retry
      end
  end.

Definition timed_out (now : Z) (order : list Z) (rx : ChunkRx) : ChunkRx * ChunkAction :=
  let '(m, a) := retry_stale now order (rx_inflight rx) [] in (set_inflight m rx, a).

Definition reissue (rx : ChunkRx) : list Z := (map_to_list (rx_inflight rx)).*1.

Fixpoint put_back (indices : list Z) (needed : list Z) (inflight : gmap Z InFlight)
    : list Z * gmap Z InFlight :=
  match indices with
  | [] => (needed, inflight)
  | index :: indices' =>
      match inflight !! index with
      | Some _ => put_back indices' (index :: needed) (base.delete index inflight)
      | None => put_back indices' needed inflight
      end
  end.

Definition unsent (indices : list Z) (rx : ChunkRx) : ChunkRx :=
  let '(needed, inflight) := put_back (reverse indices) (rx_needed rx) (rx_inflight rx) in
  mkChunkRx (rx_manifest rx) needed inflight (rx_received rx) (rx_total rx).

Definition is_complete (rx : ChunkRx) : bool := bool_decide (rx_total rx ≤ rx_received rx).
Definition progress (rx : ChunkRx) : Z * Z := (rx_received rx, rx_total rx).

(** ** Runs: what the peer actor asks of a [ChunkRx], in any order *)

Inductive rx_event : Type :=
| EvNext (now : Z)
| EvReceived (index : Z)
| EvBad (now index : Z)
| EvTimeout (now : Z) (order : list Z)
| EvUnsent (indices : list Z).

(** The next state, the index newly received, and the requests to transmit. *)
Definition rx_apply (ev : rx_event) (rx : ChunkRx) : ChunkRx * list Z * list Z :=
  let requests a := match a with Request l => l | Fail => [] end in
  match ev with
  | EvNext now => let '(rx', out) := next_requests now rx in (rx', [], out)
  | EvReceived i => let '(rx', new) := on_received i rx in (rx', if new : bool then [i] else [], [])
  | EvBad now i => let '(rx', a) := on_bad now i rx in (rx', [], requests a)
  | EvTimeout now order => let '(rx', a) := timed_out now order rx in (rx', [], requests a)
  | EvUnsent l => (unsent l rx, [], [])
  end.

Fixpoint rx_run (evs : list rx_event) (rx : ChunkRx) : ChunkRx * list Z * list Z :=
  match evs with
  | [] => (rx, [], [])
  | ev :: evs' =>
      let '(rx1, new, out) := rx_apply ev rx in
      let '(rx2, news, outs) := rx_run evs' rx1 in
      (rx2, new ++ news, out ++ outs)
  end.

(** ** [ServedTracker] *)

Abbreviation ServedTracker := (gmap bytes (gset Z)).

Definition served_record (aid : bytes) (index : Z) (t : ServedTracker) : ServedTracker * Z :=
  let set := {[index]} ∪ default ∅ (t !! aid) in
  (<[aid := set]> t, as_u32 (Z.of_nat (size set))).
Definition served_is_new (aid : bytes) (t : ServedTracker) : bool := bool_decide (t !! aid = None).
Definition served_forget (aid : bytes) (t : ServedTracker) : ServedTracker := base.delete aid t.

Definition serve_chunk_request (store : chunk_store) (aid : bytes) (index total_chunks : Z) : Frame :=
  if decide (total_chunks ≤ index) then ChunkNack aid index NACK_INDEX_OUT_OF_RANGE
  else
    match get_chunk aid index store with
    | Ok ct => Chunk aid index ct
    | Err _ => ChunkNack aid index NACK_STORE_READ
    end.

(** ** The receiver's [sanitize_filename] *)

Definition sanitize_received (name : list Z) : list Z :=
  let base := last_segment name in
  let cleaned := filter (λ c, keep_char c = true) base in
  let trimmed := trim_dots (trim cleaned) in
  let result := if decide (trimmed = []) then chars_of "file" else trimmed in
  take 200 result.

(** ** Lemmas on the in-flight map *)

Definition keys (m : gmap Z InFlight) : list Z := (map_to_list m).*1.

Lemma elem_of_keys m i : i ∈ keys m ↔ is_Some (m !! i).
Proof.
  unfold keys. rewrite list_elem_of_fmap. split.
  - intros ([j f] & -> & Hf%elem_of_map_to_list). by exists f.
  - intros [f Hf]. exists (i, f). by rewrite elem_of_map_to_list.
Qed.

Lemma keys_insert_new m i f : m !! i = None → keys (<[i := f]> m) ≡ₚ i :: keys m.
Proof. intros Hi. unfold keys. by rewrite map_to_list_insert. Qed.

Lemma keys_delete m i : is_Some (m !! i) → keys m ≡ₚ i :: keys (base.delete i m).
Proof. intros [f Hf]. unfold keys. by rewrite <- (map_to_list_delete m i f Hf). Qed.

Lemma keys_insert_old m i f : is_Some (m !! i) → keys (<[i := f]> m) ≡ₚ keys m.
Proof.
  intros Hi. rewrite <- insert_delete_eq, keys_insert_new by apply lookup_delete_eq.
  by rewrite <- keys_delete.
Qed.

Lemma size_keys (m : gmap Z InFlight) : Z.of_nat (size m) = len (keys m).
Proof. unfold keys, len. by rewrite length_fmap, length_map_to_list. Qed.

(** ** The invariant *)

Definition outstanding (rx : ChunkRx) : list Z := rx_needed rx ++ keys (rx_inflight rx).

Definition attempts_ok (m : gmap Z InFlight) : Prop :=
  map_Forall (λ _ f, 1 ≤ attempts f ≤ CHUNK_RETRY_BUDGET) m.

Lemma attempts_ok_insert m i n now :
  attempts_ok m → 1 ≤ n ≤ CHUNK_RETRY_BUDGET → attempts_ok (<[i := mkInFlight n now]> m).
Proof. intros Hm Hn. by apply map_Forall_insert_2. Qed.

(** How many requests a state may still send before it gives up. *)
Definition inflight_allowance (m : gmap Z InFlight) : Z :=
  sum_by (λ kf, CHUNK_RETRY_BUDGET - attempts kf.2) (map_to_list m).
Definition allowance (rx : ChunkRx) : Z :=
  CHUNK_RETRY_BUDGET * len (rx_needed rx) + inflight_allowance (rx_inflight rx).

Lemma inflight_allowance_insert m i f :
  m !! i = None →
  inflight_allowance (<[i := f]> m) = CHUNK_RETRY_BUDGET - attempts f + inflight_allowance m.
Proof. intros Hi. unfold inflight_allowance. by rewrite map_to_list_insert. Qed.

Lemma inflight_allowance_delete m i f :
  m !! i = Some f →
  inflight_allowance m = CHUNK_RETRY_BUDGET - attempts f + inflight_allowance (base.delete i m).
Proof. intros Hi. unfold inflight_allowance. by rewrite <- (map_to_list_delete m i f Hi). Qed.

Lemma inflight_allowance_update m i f g :
  m !! i = Some f →
  inflight_allowance (<[i := g]> m) = inflight_allowance m + attempts f - attempts g.
Proof.
  intros Hi. rewrite <- insert_delete_eq, inflight_allowance_insert by apply lookup_delete_eq.
  rewrite (inflight_allowance_delete m i f Hi). lia.
Qed.

Lemma inflight_allowance_nonneg m : attempts_ok m → 0 ≤ inflight_allowance m.
Proof.
  intros Hm. apply sum_by_nonneg. intros [i f] Hf%elem_of_map_to_list.
  specialize (Hm i f Hf). simpl in *. lia.
Qed.

Lemma pull_spec now needed m :
  NoDup (needed ++ keys m) → attempts_ok m → Z.of_nat (size m) ≤ CHUNK_WINDOW →
  let '(needed', m', out) := pull now needed m in
  needed' ++ keys m' ≡ₚ needed ++ keys m ∧ attempts_ok m' ∧ Z.of_nat (size m') ≤ CHUNK_WINDOW ∧
  (Z.of_nat (size m') = CHUNK_WINDOW ∨ needed' = []) ∧ needed = out ++ needed' ∧
  3 * len needed' + inflight_allowance m' + len out = 3 * len needed + inflight_allowance m.
Proof.
  revert m. induction needed as [|i needed IH]; intros m Hnd Hok Hw; cbn [pull]; case_decide as Hd.
  - split_and!; auto; lens.
  - split_and!; auto; lens.
  - apply NoDup_cons in Hnd as [Hi Hnd].
    assert (m !! i = None) as Hnone.
    { apply eq_None_not_Some. rewrite <- elem_of_keys. intros ?. apply Hi, elem_of_app. by right. }
    assert (needed ++ keys (<[i := mkInFlight 1 now]> m) ≡ₚ i :: needed ++ keys m) as Hp.
    { rewrite keys_insert_new by done. by rewrite Permutation_middle. }
    specialize (IH (<[i := mkInFlight 1 now]> m)).
    destruct (pull now needed _) as [[n' m'] out].
    destruct IH as (IHp & ? & ? & ? & -> & Hsum).
    + rewrite Hp. by constructor.
    + apply attempts_ok_insert; unfold CHUNK_RETRY_BUDGET; [done|lia].
    + rewrite map_size_insert_None by done. lia.
    + rewrite inflight_allowance_insert in Hsum by done. cbn [attempts] in Hsum.
      split_and!; auto; [by rewrite IHp, Hp|]. unfold CHUNK_RETRY_BUDGET in *. lens.
  - split_and!; auto; lens.
Qed.

Lemma retry_stale_spec now order m acc :
  attempts_ok m →
  let '(m', a) := retry_stale now order m acc in
  keys m' ≡ₚ keys m ∧ size m' = size m ∧ attempts_ok m' ∧
  inflight_allowance m' + len (match a with Request l => l | Fail => [] end)
    ≤ inflight_allowance m + len acc.
Proof.
  revert m acc. induction order as [|i order IH]; intros m acc Hok; cbn [retry_stale].
  { split_and!; auto. lia. }
  destruct (m !! i) as [f|] eqn:Hf; [|by apply IH].
  case_decide; [|by apply IH]. case_decide.
  { split_and!; auto. lens. }
  pose proof (Hok i f Hf) as Hb. simpl in Hb.
  specialize (IH (<[i := mkInFlight (attempts f + 1) now]> m) (acc ++ [i])).
  destruct (retry_stale now order _ _) as [m' a].
  destruct IH as (? & ? & ? & Hsum); [apply attempts_ok_insert; [done|lia]|].
  rewrite (inflight_allowance_update m i f) in Hsum by done. cbn [attempts] in Hsum.
  assert (is_Some (m !! i)) as Hi by by exists f.
  rewrite keys_insert_old in * by done. rewrite map_size_insert_Some in * by done.
  split_and!; auto. lens.
Qed.

Lemma put_back_spec idxs needed m :
  attempts_ok m →
  let '(needed', m') := put_back idxs needed m in
  needed' ++ keys m' ≡ₚ needed ++ keys m ∧ (size m' ≤ size m)%nat ∧ attempts_ok m'.
Proof.
  revert needed m. induction idxs as [|i idxs IH]; intros needed m Hok; cbn [put_back]; [done|].
  destruct (m !! i) as [f|] eqn:Hf; [|by apply IH].
  specialize (IH (i :: needed) (base.delete i m)). destruct (put_back idxs _ _) as [n' m'].
  destruct IH as (Hp & Hs & ?); [by apply map_Forall_delete|].
  rewrite map_size_delete_Some in Hs by by exists f. split_and!; [|lia|done].
  rewrite Hp, (keys_delete m i) by by exists f. simpl. by rewrite Permutation_middle.
Qed.

Definition manifest_indices (m : AttachmentManifest) : list Z := cr_index <$> chunks m.

(** What is outstanding is exactly what was neither there at the start nor
    received since, and the counters say so. *)
Record rx_inv (m : AttachmentManifest) (got : list Z) (rx : ChunkRx) : Prop := {
  inv_outstanding : outstanding rx ≡ₚ filter (λ i, i ∉ got) (manifest_indices m);
  inv_received : rx_received rx = rx_total rx - len (outstanding rx);
  inv_total : rx_total rx = len (manifest_indices m);
  inv_window : Z.of_nat (size (rx_inflight rx)) ≤ CHUNK_WINDOW;
  inv_attempts : attempts_ok (rx_inflight rx)
}.

Lemma len_filter_range {A} (P : A → Prop) `{!∀ x, Decision (P x)} (l : list A) : 0 ≤ len (filter P l) ≤ len l.
Proof. unfold len. pose proof (length_filter P l). lia. Qed.

(** A change of [needed] and [inflight] that keeps the outstanding indices. *)
Lemma rx_inv_shuffle m got rx needed inflight :
  rx_inv m got rx → needed ++ keys inflight ≡ₚ outstanding rx →
  Z.of_nat (size inflight) ≤ CHUNK_WINDOW → attempts_ok inflight →
  rx_inv m got (mkChunkRx (rx_manifest rx) needed inflight (rx_received rx) (rx_total rx)).
Proof.
  intros [H1 H2 H3 H4 H5] Hp Hw Ha. split; simpl; auto; unfold outstanding; simpl.
  - by rewrite Hp.
  - unfold len in *. by rewrite Hp.
Qed.

Section invariant.
Context (m : AttachmentManifest) (distinct : NoDup (manifest_indices m))
  (bounded : len (manifest_indices m) ≤ u32_max).

Lemma as_u32_small z : 0 ≤ z ≤ u32_max → as_u32 z = z.
Proof. intros. unfold as_u32, u32_max in *. apply Z.mod_small. lia. Qed.

Lemma rx_new_inv got : rx_inv m got (rx_new m got).
Proof.
  assert (len (chunks m) = len (manifest_indices m)) as Hl by (unfold manifest_indices, len; by rewrite length_fmap).
  pose proof (len_filter_range (λ i, i ∉ got) (manifest_indices m)) as Hf.
  unfold rx_new, outstanding. fold (manifest_indices m). rewrite Hl.
  split; unfold outstanding; cbn [rx_needed rx_inflight rx_received rx_total];
    unfold keys; rewrite ?map_to_list_empty, ?app_nil_r.
  - done.
  - rewrite (as_u32_small (len (manifest_indices m))), (as_u32_small (len (filter _ _))) by lia.
    apply as_u32_small. lia.
  - rewrite as_u32_small; lia.
  - rewrite map_size_empty. unfold CHUNK_WINDOW. lia.
  - apply map_Forall_empty.
Qed.

Lemma rx_inv_nodup got rx : rx_inv m got rx → NoDup (outstanding rx).
Proof. intros Hinv. rewrite (inv_outstanding _ _ _ Hinv). by apply NoDup_filter. Qed.

Lemma on_received_inv got rx i :
  rx_inv m got rx → is_Some (rx_inflight rx !! i) →
  rx_inv m (got ++ [i]) (on_received i rx).1.
Proof.
  intros Hinv Hi. pose proof (rx_inv_nodup _ _ Hinv) as Hnd. destruct Hinv as [H1 H2 H3 H4 H5].
  unfold on_received. destruct (rx_inflight rx !! i) as [f|] eqn:Hf; [|by destruct Hi].
  assert (outstanding rx ≡ₚ i :: rx_needed rx ++ keys (base.delete i (rx_inflight rx))) as Hp.
  { unfold outstanding. rewrite (keys_delete _ i) by by exists f. by rewrite Permutation_middle. }
  pose proof (len_filter_range (λ i, i ∉ got) (manifest_indices m)) as Hle.
  assert (len (outstanding rx) = len (filter (λ i, i ∉ got) (manifest_indices m))) as Hlen
    by (unfold len; by rewrite H1).
  assert (len (outstanding rx) = 1 + len (rx_needed rx ++ keys (base.delete i (rx_inflight rx)))) as Hlen'
    by (unfold len; rewrite Hp; simpl; lia).
  split; unfold outstanding; cbn [fst rx_needed rx_inflight rx_received rx_total]; auto; [|lens| |].
  - apply NoDup_Permutation; [rewrite Hp in Hnd; by apply NoDup_cons in Hnd as [_ ?]|by apply NoDup_filter|].
    intros j. pose proof (Permutation_sym Hp) as Hq. rewrite Hp in Hnd. apply NoDup_cons in Hnd as [Hni _].
    assert (j ∈ outstanding rx ↔ j = i ∨ j ∈ rx_needed rx ++ keys (base.delete i (rx_inflight rx))) as Hj
      by (rewrite Hp, elem_of_cons; done).
    rewrite H1, list_elem_of_filter in Hj. rewrite list_elem_of_filter, (elem_of_app got), list_elem_of_singleton.
    split; [|tauto]. intros Hin. assert (j ≠ i) by congruence. tauto.
  - rewrite map_size_delete_Some by by exists f. lia.
  - by apply map_Forall_delete.
Qed.

Lemma rx_apply_inv ev got rx :
  rx_inv m got rx → rx_inv m (got ++ (rx_apply ev rx).1.2) (rx_apply ev rx).1.1.
Proof.
  intros Hinv. pose proof (inv_window _ _ _ Hinv) as Hw. pose proof (inv_attempts _ _ _ Hinv) as Ha.
  destruct ev as [now|i|now i|now order|l]; cbn [rx_apply].
  - unfold next_requests. pose proof (pull_spec now _ _ (rx_inv_nodup _ _ Hinv) Ha Hw) as Hs.
    destruct (pull _ _ _) as [[n' m'] out]. destruct Hs as (? & ? & ? & _).
    rewrite app_nil_r. by apply rx_inv_shuffle.
  - destruct (rx_inflight rx !! i) as [f|] eqn:Hf.
    + pose proof (on_received_inv got rx i Hinv) as Hr. unfold on_received in *. rewrite Hf in *.
      apply Hr. by exists f.
    + unfold on_received. rewrite Hf. by rewrite app_nil_r.
  - unfold on_bad. destruct (rx_inflight rx !! i) as [f|] eqn:Hf; [case_decide|];
      cbn [fst snd]; rewrite app_nil_r; try done.
    pose proof (Ha i f Hf) as Hb. simpl in Hb. apply rx_inv_shuffle; auto.
    + rewrite keys_insert_old by by exists f. done.
    + rewrite map_size_insert_Some by by exists f. done.
    + apply attempts_ok_insert; [done|lia].
  - unfold timed_out. pose proof (retry_stale_spec now order _ [] Ha) as Hs.
    destruct (retry_stale _ _ _ _) as [m' a]. destruct Hs as (Hk & Hsz & ? & _).
    cbn [fst snd]. rewrite app_nil_r. apply rx_inv_shuffle; auto; [|lia]. unfold outstanding. by rewrite Hk.
  - unfold unsent. pose proof (put_back_spec (reverse l) (rx_needed rx) _ Ha) as Hs.
    destruct (put_back _ _ _) as [n' m']. destruct Hs as (? & ? & ?).
    cbn [fst snd]. rewrite app_nil_r. apply rx_inv_shuffle; auto; lia.
Qed.

Lemma rx_run_inv evs got rx :
  rx_inv m got rx → rx_inv m (got ++ (rx_run evs rx).1.2) (rx_run evs rx).1.1.
Proof.
  revert got rx. induction evs as [|ev evs IH]; intros got rx Hinv; cbn [rx_run].
  { by rewrite app_nil_r. }
  pose proof (rx_apply_inv ev got rx Hinv) as H1.
  destruct (rx_apply ev rx) as [[rx1 new] out]. cbn [fst snd] in H1. specialize (IH _ _ H1).
  destruct (rx_run evs rx1) as [[rx2 news] outs]. cbn [fst snd] in *. by rewrite app_assoc.
Qed.

(** Completion is the absence of outstanding indices. *)
Lemma complete_outstanding got rx : rx_inv m got rx → is_complete rx = true ↔ outstanding rx = [].
Proof.
  intros [_ Hr _ _ _]. unfold is_complete. rewrite bool_decide_eq_true, Hr.
  destruct (outstanding rx) as [|i l]; [by split; [|lens]|]. rewrite len_cons. split; [lens|done].
Qed.
End invariant.

Lemma filter_none_iff {A} (P : A → Prop) `{!∀ x, Decision (P x)} (l : list A) :
  filter P l = [] ↔ ∀ x, x ∈ l → ¬ P x.
Proof.
  split.
  - intros Hf x Hx HP. apply (not_elem_of_nil x). rewrite <- Hf. by apply list_elem_of_filter.
  - intros Hl. apply elem_of_nil_inv. intros x [HP Hx]%list_elem_of_filter. by apply (Hl x).
Qed.

Lemma len_filter_complement (got l : list Z) :
  len (filter (λ i, i ∈ got) l) = len l - len (filter (λ i, i ∉ got) l).
Proof.
  induction l as [|x l IH]; [done|]. rewrite !filter_cons.
  destruct (decide (x ∈ got)), (decide (x ∉ got)); try tauto; lens.
Qed.

Lemma next_requests_progress m got now rx :
  NoDup (manifest_indices m) → rx_inv m got rx → is_complete rx = false →
  rx_inflight (next_requests now rx).1 ≠ ∅.
Proof.
  intros Hd Hinv Hc. pose proof (complete_outstanding m got rx Hinv) as Hiff.
  pose proof (pull_spec now _ _ (rx_inv_nodup m Hd _ _ Hinv) (inv_attempts _ _ _ Hinv) (inv_window _ _ _ Hinv)) as Hs.
  unfold next_requests. destruct (pull _ _ _) as [[n' m'] out]. destruct Hs as (Hp & _ & _ & Hfull & _).
  cbn [fst rx_inflight]. intros ->. destruct Hfull as [Hfull| ->].
  { rewrite map_size_empty in Hfull. by vm_compute in Hfull. }
  apply Permutation_nil in Hp. rewrite (proj2 Hiff) in Hc; [done|exact Hp].
Qed.

(** For a manifest whose indices are distinct, and whatever the peer actor
    does (requesting, receiving, bad chunks, timeouts over the map in any order,
    sends that failed), the receiver's counters are exact: the progress it
    reports is the number of indices present at the start or received since, it
    is complete exactly when every index is, it never has more than eight
    requests in flight, and while it is not complete a call of [next_requests]
    leaves a request in flight, so no index is lost. *)
Theorem chunk_rx_exact (m : AttachmentManifest) (have : list Z) (evs : list rx_event) :
  NoDup (manifest_indices m) → len (manifest_indices m) ≤ u32_max →
  let '(rx, new, _) := rx_run evs (rx_new m have) in
  let got := have ++ new in
  progress rx = (len (filter (λ i, i ∈ got) (manifest_indices m)), len (manifest_indices m)) ∧
  (is_complete rx = true ↔ ∀ i, i ∈ manifest_indices m → i ∈ got) ∧
  Z.of_nat (size (rx_inflight rx)) ≤ CHUNK_WINDOW ∧
  (is_complete rx = false → ∀ now, rx_inflight (next_requests now rx).1 ≠ ∅).
Proof.
  intros Hd Hb. pose proof (rx_run_inv m Hd Hb evs have _ (rx_new_inv m Hb have)) as Hinv. revert Hinv.
  destruct (rx_run evs _) as [[rx new] out]. cbn [fst snd]. intros Hinv. split_and!.
  - unfold progress. rewrite (inv_received _ _ _ Hinv), (inv_total _ _ _ Hinv), len_filter_complement.
    unfold len at 2. by rewrite (inv_outstanding _ _ _ Hinv).
  - rewrite (complete_outstanding m _ _ Hinv). trans (filter (λ i, i ∉ have ++ new) (manifest_indices m) = []).
    + pose proof (inv_outstanding _ _ _ Hinv) as Hp. split; intros E; rewrite E in Hp.
      * by apply Permutation_nil in Hp.
      * symmetry in Hp. by apply Permutation_nil in Hp.
    + rewrite filter_none_iff. split; intros Hall i Hi; specialize (Hall i Hi); [by apply dec_stable|tauto].
  - apply (inv_window _ _ _ Hinv).
  - intros Hc now. by apply (next_requests_progress m (have ++ new)).
Qed.

(** ** Retries are bounded *)

Definition not_unsent (ev : rx_event) : Prop := match ev with EvUnsent _ => False | _ => True end.

Lemma rx_apply_allowance m ev got rx :
  NoDup (manifest_indices m) → rx_inv m got rx → not_unsent ev →
  allowance (rx_apply ev rx).1.1 + len (rx_apply ev rx).2 ≤ allowance rx.
Proof.
  intros Hd Hinv Hev. pose proof (inv_window _ _ _ Hinv) as Hw. pose proof (inv_attempts _ _ _ Hinv) as Ha.
  destruct ev as [now|i|now i|now order|l]; cbn [rx_apply]; [..|done]; unfold allowance.
  - unfold next_requests. pose proof (pull_spec now _ _ (rx_inv_nodup m Hd _ _ Hinv) Ha Hw) as Hs.
    destruct (pull _ _ _) as [[n' m'] out]. destruct Hs as (_ & _ & _ & _ & _ & Hsum).
    cbn [fst snd rx_needed rx_inflight]. unfold CHUNK_RETRY_BUDGET. lia.
  - unfold on_received. destruct (rx_inflight rx !! i) as [f|] eqn:Hf; cbn [fst snd rx_needed rx_inflight]; [|lens].
    pose proof (Ha i f Hf) as Hb. simpl in Hb. rewrite (inflight_allowance_delete _ i f Hf). lens.
  - unfold on_bad. destruct (rx_inflight rx !! i) as [f|] eqn:Hf; [case_decide|];
      cbn [fst snd set_inflight rx_needed rx_inflight]; [|lens..].
    rewrite (inflight_allowance_update _ i f) by done. cbn [attempts]. lens.
  - unfold timed_out. pose proof (retry_stale_spec now order _ [] Ha) as Hs.
    destruct (retry_stale _ _ _ _) as [m' a]. destruct Hs as (_ & _ & _ & Hsum).
    cbn [fst snd set_inflight rx_needed rx_inflight]. lens.
Qed.

Lemma rx_run_allowance m evs got rx :
  NoDup (manifest_indices m) → len (manifest_indices m) ≤ u32_max → rx_inv m got rx → Forall not_unsent evs →
  allowance (rx_run evs rx).1.1 + len (rx_run evs rx).2 ≤ allowance rx.
Proof.
  intros Hd Hb. revert got rx. induction evs as [|ev evs IH]; intros got rx Hinv Hev; cbn [rx_run fst snd]; [lens|].
  apply Forall_cons in Hev as [He Hev].
  pose proof (rx_apply_allowance m ev got rx Hd Hinv He) as H1.
  pose proof (rx_apply_inv m Hd Hb ev got rx Hinv) as H2.
  destruct (rx_apply ev rx) as [[rx1 new] out]. cbn [fst snd] in H2. specialize (IH _ _ H2 Hev).
  destruct (rx_run evs rx1) as [[rx2 news] outs]. cbn [fst snd] in *. lens.
Qed.

(** A transfer cannot ask forever: as long as no send fails locally, a
    receiver transmits at most three requests per missing chunk over its whole
    life, however many bad chunks and timeouts there are. *)
Theorem chunk_rx_bounded (m : AttachmentManifest) (have : list Z) (evs : list rx_event) :
  NoDup (manifest_indices m) → len (manifest_indices m) ≤ u32_max → Forall not_unsent evs →
  len (rx_run evs (rx_new m have)).2 ≤ CHUNK_RETRY_BUDGET * len (filter (λ i, i ∉ have) (manifest_indices m)).
Proof.
  intros Hd Hb Hev. pose proof (rx_new_inv m Hb have) as Hinv.
  pose proof (rx_run_allowance m evs have _ Hd Hb Hinv Hev) as Hsum.
  pose proof (rx_run_inv m Hd Hb evs have _ Hinv) as Hend.
  pose proof (inflight_allowance_nonneg _ (inv_attempts _ _ _ Hend)) as Hnn.
  assert (allowance (rx_new m have) = CHUNK_RETRY_BUDGET * len (filter (λ i, i ∉ have) (manifest_indices m))) as E.
  { unfold allowance, rx_new, inflight_allowance. cbn [rx_needed rx_inflight].
    rewrite map_to_list_empty. fold (manifest_indices m). unfold sum_by. simpl. lia. }
  unfold allowance at 1 in Hsum. rewrite E in Hsum.
  pose proof (len_nonneg (rx_needed (rx_run evs (rx_new m have)).1.1)). unfold CHUNK_RETRY_BUDGET in *. lia.
Qed.

(** ** The sender's side *)

Section serving.
Context {crypto : AttachmentCrypto} {laws : AttachmentCryptoLaws} {sha : Sha256}.

Lemma head_filter_index (refs : list ChunkRef) b k c :
  (∀ j c, refs !! j = Some c → cr_index c = b + Z.of_nat j) → refs !! k = Some c →
  head (filter (λ c, cr_index c = b + Z.of_nat k) refs) = Some c.
Proof.
  revert b k. induction refs as [|c0 refs IH]; intros b k Hidx Hk; [done|].
  pose proof (Hidx 0%nat c0 eq_refl) as H0. rewrite filter_cons. destruct k as [|k].
  - injection Hk as ->. by rewrite decide_True by (rewrite H0; lia).
  - rewrite decide_False by (rewrite H0; lia). replace (b + Z.of_nat (S k)) with (b + 1 + Z.of_nat k) by lia.
    apply IH; [|done]. intros j c' Hj. rewrite (Hidx (S j) c' Hj). lia.
Qed.

Lemma indices_nodup (refs : list ChunkRef) :
  (∀ k c, refs !! k = Some c → cr_index c = Z.of_nat k) → NoDup (cr_index <$> refs).
Proof.
  intros Hidx. apply NoDup_alt. intros i j x. rewrite !list_lookup_fmap, !fmap_Some.
  intros (c & Hc & ->) (d & Hd & Heq). rewrite (Hidx i c Hc), (Hidx j d Hd) in Heq. lia.
Qed.

(** What one side stages the other side accepts.  For every attachment the
    chunker produces, the manifest's indices are distinct, and a request for an
    index is answered, out of the staged store, by a chunk that the receiver's
    [verify] accepts when the index is one of the manifest's, and by an
    out-of-range refusal otherwise. *)
Theorem attachment_served plaintext name ty aid fk m cts s have i :
  chunk_plaintext plaintext name ty aid fk = Ok (m, cts) → 0 ≤ i →
  NoDup (manifest_indices m) ∧ len (manifest_indices m) = len cts ∧
  match serve_chunk_request (stage aid 0 cts s) aid i (len cts) with
  | Chunk a j ct => a = aid ∧ j = i ∧ i < len cts ∧ rx_verify (rx_new m have) i ct = true
  | ChunkNack a j reason => a = aid ∧ j = i ∧ len cts ≤ i ∧ reason = NACK_INDEX_OUT_OF_RANGE
  | _ => False
  end.
Proof.
  intros Em Hi. destruct (decide (len plaintext ≤ MAX_ATTACHMENT_BYTES)) as [Hle|Hgt]; cycle 1.
  { unfold chunk_plaintext, chunk_plaintext_with_cap in Em. by rewrite decide_True in Em by lia. }
  destruct (chunk_plaintext_spec plaintext name ty aid fk Hle) as (refs & cts' & E & Hhash & Hidx & _).
  rewrite E in Em. injection Em as <- <-. unfold manifest_indices. cbn [chunks].
  split_and!; [by apply indices_nodup|unfold len; by rewrite length_fmap, (Forall2_length _ _ _ Hhash)|].
  unfold serve_chunk_request. case_decide as Hr; [done|].
  destruct (lookup_lt_is_Some_2 cts' (Z.to_nat i)) as [ct Hct]; [unfold len in Hr; lia|].
  pose proof (stage_lookup aid 0 cts' s _ _ Hct) as Hs. unfold store_source in Hs.
  rewrite Z.add_0_l, Z2Nat.id in Hs by done. rewrite Hs. split_and!; [done|done|lia|].
  destruct (Forall2_lookup_r _ _ _ _ _ Hhash Hct) as (c & Hc & Heq).
  unfold rx_verify, rx_new. cbn [rx_manifest chunks].
  rewrite <- (Z2Nat.id i) by done. rewrite <- (Z.add_0_l (Z.of_nat _)).
  rewrite (head_filter_index refs 0 _ c); [by apply bool_decide_eq_true_2|done..].
Qed.
End serving.

(** ** File names *)

Lemma drop_while_suffix p l : ∃ k, l = k ++ drop_while p l.
Proof.
  induction l as [|c l [k IH]]; simpl; [by exists []|]. destruct (p c); [|by exists []].
  exists (c :: k). simpl. by f_equal.
Qed.

Lemma drop_while_head p l c r : drop_while p l = c :: r → p c = false.
Proof. induction l as [|d l IH]; simpl; [done|]. destruct (p d) eqn:E; [done|]. by intros [= <- _]. Qed.

Lemma trim_by_prefix p l : ∃ k, drop_while p l = trim_by p l ++ k.
Proof.
  unfold trim_by. destruct (drop_while_suffix p (reverse (drop_while p l))) as [k Hk].
  exists (reverse k). rewrite <- reverse_app, <- Hk. by rewrite reverse_involutive.
Qed.

Lemma trim_by_head p l c r : trim_by p l = c :: r → p c = false.
Proof.
  intros E. destruct (trim_by_prefix p l) as [k Hk]. rewrite E in Hk. by eapply drop_while_head.
Qed.

Lemma trim_by_sub p l c : c ∈ trim_by p l → c ∈ l.
Proof.
  intros Hc. destruct (trim_by_prefix p l) as [k Hk], (drop_while_suffix p l) as [j Hj].
  rewrite Hj, Hk. set_solver.
Qed.

(** The receiver's file names.  Whatever name a peer puts in a manifest,
    the sanitized name has between 1 and 200 characters, none of them a
    separator, a control character or a direction override, and does not start
    with a dot, so it is never hidden and never a directory reference. *)
Theorem received_filename name :
  1 ≤ len (sanitize_received name) ≤ 200 ∧
  Forall (λ c, keep_char c = true) (sanitize_received name) ∧
  head (sanitize_received name) ≠ Some dot.
Proof.
  unfold sanitize_received.
  set (t := trim_dots (trim (filter (λ c, keep_char c = true) (last_segment name)))).
  assert (Forall (λ c, keep_char c = true) t ∧ head t ≠ Some dot) as [Hall Hhd].
  { split.
    - apply Forall_forall. intros c Hc%trim_by_sub%trim_by_sub. by apply keep_char_filter in Hc.
    - destruct t as [|c r] eqn:Et; [done|]. apply trim_by_head in Et. intros [= ->].
      by vm_compute in Et. }
  case_decide as Hd.
  - split_and!; [vm_compute; intuition discriminate..| |vm_compute; discriminate].
    apply Forall_forall. intros c Hc. revert c Hc. apply Forall_forall. vm_compute. repeat constructor.
  - destruct t as [|c r]; [done|]. split_and!.
    + unfold len. cbn [take length]. lia.
    + unfold len. rewrite length_take. lia.
    + by apply Forall_take.
    + exact Hhd.
Qed.

(** ** Witnesses *)

Definition demo_manifest : AttachmentManifest :=
  mkManifest 1 (fill 16 Byte.x01) (chars_of "f") (chars_of "t") 10 CHUNK_SIZE (fill 32 Byte.x02)
    [mkChunkRef 0 [] 10; mkChunkRef 1 [] 10; mkChunkRef 2 [] 10].
Definition demo_events : list rx_event :=
  [EvNext 0; EvReceived 2; EvBad 10 0; EvTimeout 40000 [0; 1]; EvReceived 0].

(** Distinct indices are needed: a manifest that names an index twice is never
    complete, with nothing left to ask for. *)
Lemma duplicate_index_stalls :
  let m := mkManifest 1 [] [] [] 20 CHUNK_SIZE [] [mkChunkRef 0 [] 10; mkChunkRef 0 [] 10] in
  let rx := (rx_run [EvNext 0; EvReceived 0; EvReceived 0] (rx_new m [])).1.1 in
  is_complete rx = false ∧ outstanding rx = [].
Proof. vm_compute. done. Qed.

Lemma chunk_rx_exact_witness :
  progress (rx_run demo_events (rx_new demo_manifest [])).1.1 = (2, 3) ∧
  is_complete (rx_run demo_events (rx_new demo_manifest [])).1.1 = false.
Proof.
  pose proof (chunk_rx_exact demo_manifest [] demo_events) as H.
  destruct (rx_run demo_events (rx_new demo_manifest [])) as [[rx new] out] eqn:E.
  destruct H as (Hp & _); [refine (bool_decide_unpack _ _); vm_compute; exact I|by vm_compute|].
  cbn [fst snd]. rewrite Hp. vm_compute in E. injection E as <- <- <-.
  split; vm_compute; reflexivity.
Defined.

Lemma chunk_rx_bounded_witness :
  (rx_run demo_events (rx_new demo_manifest [])).2 = [0; 1; 2; 0; 0; 1] ∧
  len (rx_run demo_events (rx_new demo_manifest [])).2 ≤ 9.
Proof.
  split; [vm_compute; reflexivity|].
  apply (chunk_rx_bounded demo_manifest [] demo_events);
    [refine (bool_decide_unpack _ _); vm_compute; exact I|by vm_compute|by repeat constructor].
Defined.

#[local] Existing Instance toy_crypto.
#[local] Existing Instance toy_hash.

Lemma attachment_served_witness :
  len toy_chunks.2 = 1 ∧
  match serve_chunk_request (stage (fill 16 Byte.x01) 0 toy_chunks.2 ∅) (fill 16 Byte.x01) 0 (len toy_chunks.2) with
  | Chunk a j ct => a = fill 16 Byte.x01 ∧ j = 0 ∧ 0 < len toy_chunks.2 ∧
      rx_verify (rx_new toy_chunks.1 []) 0 ct = true
  | ChunkNack a j reason => a = fill 16 Byte.x01 ∧ j = 0 ∧ len toy_chunks.2 ≤ 0 ∧ reason = NACK_INDEX_OUT_OF_RANGE
  | _ => False
  end.
Proof.
  split; [vm_compute; reflexivity|].
  assert (chunk_plaintext hello (chars_of "a.txt") (chars_of "text/plain") (fill 16 Byte.x01) (fill 32 Byte.x02)
    = Ok (toy_chunks.1, toy_chunks.2)) as Em by (vm_compute; reflexivity).
  exact (proj2 (proj2 (attachment_served (laws := toy_crypto_laws) _ _ _ _ _ _ _ ∅ [] 0 Em ltac:(lia)))).
Defined.
