(* ===== verification/AttachmentRepo.v ===== *)
(** * AttachmentRepo: the transfer state of attachments

    [crates/core/src/storage/attachments.rs] (the tables [attachments],
    [attachment_chunks] and [attachment_deposits] of migrations 0015 and 0016)
    and [crates/core/src/delivery/chunk_sweep.rs], which deposits the chunks of
    an attachment in the mailboxes of its recipient.  Rows are in insertion
    order; statements fail on a violated constraint only; which mailbox answers
    is an argument of the sweep. *)

From S2P Require Import Prelude CoreErrors MailboxProtocol Attachments ChunkTransfer.

(** ** [AttachmentRepo] *)

Record att_row : Type := mkAttRow {
  at_id : bytes;
  at_direction : string;
  at_manifest : bytes;
  at_total_chunks : Z;
  at_status : string;
  at_created_at : Z;
  at_peer : option bytes
}.

Record chunk_row : Type := mkChunkRow { ck_id : bytes; ck_index : Z; ck_received : Z }.

Record dep_row : Type := mkDepRow {
  dp_id : bytes;
  dp_index : Z;
  dp_recipient : bytes;
  dp_attempts : Z;
  dp_next_retry_at : Z;
  dp_status : string
}.

Record att_db : Type := mkAttDb { a_rows : list att_row; a_chunks : list chunk_row; a_deposits : list dep_row }.
Definition empty_att_db : att_db := mkAttDb [] [] [].

Definition with_rows (l : list att_row) (db : att_db) : att_db := mkAttDb l (a_chunks db) (a_deposits db).
Definition with_deposits (l : list dep_row) (db : att_db) : att_db := mkAttDb (a_rows db) (a_chunks db) l.

Inductive TerminalStatus : Type := Complete | Failed.
Definition terminal_as_str (s : TerminalStatus) : string :=
  match s with Complete => "complete" | Failed => "failed" end.

(** The [CHECK]s of the table. *)
Definition direction_ok (d : string) : Prop := d = "out" ∨ d = "in".
Definition status_ok (s : string) : Prop := s = "pending" ∨ s = "complete" ∨ s = "failed".
#[global] Instance direction_ok_dec d : Decision (direction_ok d).
Proof. unfold direction_ok. apply _. Defined.
#[global] Instance status_ok_dec s : Decision (status_ok s).
Proof. unfold status_ok. apply _. Defined.

Definition storage_error (s : string) : CoreError := Core_Storage (Storage_Other s).

Definition att_insert (aid : bytes) (direction : string) (manifest : bytes) (total_chunks created_at : Z)
    : action att_db unit CoreError := λ db,
  if decide (direction_ok direction) then
    if decide (aid ∈ at_id <$> a_rows db)
    then (db, Err (storage_error "attachments insert: UNIQUE constraint failed: attachments.attachment_id"))
    else (with_rows (a_rows db ++ [mkAttRow aid direction manifest total_chunks "pending" created_at None]) db, Ok tt)
  else (db, Err (storage_error "attachments insert: CHECK constraint failed: direction IN ('out', 'in')")).

Definition att_find (aid : bytes) (db : att_db) : option att_row := head (filter (λ r, at_id r = aid) (a_rows db)).

Record AttachmentRow : Type := mkAttachmentRow {
  row_direction : string; row_manifest : bytes; row_total_chunks : Z; row_status : string; row_created_at : Z
}.

Definition att_get (aid : bytes) (db : att_db) : option AttachmentRow :=
  (λ r, mkAttachmentRow (at_direction r) (at_manifest r) (at_total_chunks r) (at_status r) (at_created_at r))
    <$> att_find aid db.

(** [INSERT OR REPLACE] on the key [(attachment_id, chunk_index)]. *)
Definition mark_received (aid : bytes) (index : Z) (db : att_db) : att_db :=
  mkAttDb (a_rows db)
    (filter (λ r, ¬ (ck_id r = aid ∧ ck_index r = index)) (a_chunks db) ++ [mkChunkRow aid index 1])
    (a_deposits db).

Fixpoint indices_u32 (rows : list chunk_row) : result (list Z) CoreError :=
  match rows with
  | [] => Ok []
  | r :: rows' =>
      if decide (0 ≤ ck_index r ≤ u32_max) then let? rest := indices_u32 rows' in Ok (ck_index r :: rest)
      else Err (storage_error "attachments received_indices range: out of range integral type conversion attempted")
  end.

Definition received_indices (aid : bytes) (db : att_db) : result (list Z) CoreError :=
  indices_u32 (order_by ck_index (filter (λ r, ck_id r = aid ∧ ck_received r = 1) (a_chunks db))).

Definition set_at_status (s : string) (r : att_row) : att_row :=
  mkAttRow (at_id r) (at_direction r) (at_manifest r) (at_total_chunks r) s (at_created_at r) (at_peer r).

(** [UPDATE attachments SET status = s WHERE P], and the number of rows. *)
Definition update_status (P : att_row → Prop) `{!∀ r, Decision (P r)} (s : string) (db : att_db) : att_db * Z :=
  (with_rows ((λ r, if decide (P r) then set_at_status s r else r) <$> a_rows db) db, len (filter P (a_rows db))).

Definition claim_terminal (aid : bytes) (s : TerminalStatus) (db : att_db) : att_db * bool :=
  let '(db', n) := update_status (λ r, at_id r = aid ∧ at_status r = "pending") (terminal_as_str s) db in
  (db', bool_decide (n = 1)).

Definition rearm_failed_in (aid : bytes) (db : att_db) : att_db * bool :=
  let '(db', n) := update_status (λ r, at_id r = aid ∧ at_direction r = "in" ∧ at_status r = "failed") "pending" db in
  (db', bool_decide (n = 1)).

Definition set_status (aid : bytes) (s : string) : action att_db unit CoreError := λ db,
  let '(db', n) := update_status (λ r, at_id r = aid) s db in
  if decide (n = 0 ∨ status_ok s) then (db', Ok tt)
  else (db, Err (storage_error
    "attachments set_status: CHECK constraint failed: status IN ('pending', 'complete', 'failed')")).

Definition list_pending_in (db : att_db) : list (bytes * bytes) :=
  (λ r, (at_id r, at_manifest r)) <$>
    filter (λ r, len (at_id r) = 16) (filter (λ r, at_direction r = "in" ∧ at_status r = "pending") (a_rows db)).

Definition all_ids (db : att_db) : list bytes := filter (λ i, len i = 16) (at_id <$> a_rows db).

Definition set_peer (aid peer : bytes) (db : att_db) : att_db :=
  with_rows ((λ r, if decide (at_id r = aid)
    then mkAttRow (at_id r) (at_direction r) (at_manifest r) (at_total_chunks r) (at_status r) (at_created_at r) (Some peer)
    else r) <$> a_rows db) db.

Definition peer_for (aid : bytes) (db : att_db) : option bytes :=
  match att_find aid db with
  | Some r => match at_peer r with Some b => if decide (len b = 32) then Some b else None | None => None end
  | None => None
  end.

Definition att_delete (aid : bytes) (db : att_db) : att_db :=
  mkAttDb (filter (λ r, at_id r ≠ aid) (a_rows db)) (filter (λ r, ck_id r ≠ aid) (a_chunks db)) (a_deposits db).

(** ** [AttachmentDepositRepo] *)

Record DepositDue : Type := mkDue { due_id : bytes; due_index : Z; due_recipient : bytes; due_attempts : Z }.

(** [INSERT OR IGNORE] for each index. *)
Definition enqueue_one (aid recipient : bytes) (first_due : Z) (l : list dep_row) (i : Z) : list dep_row :=
  if decide ((aid, i) ∈ (λ r, (dp_id r, dp_index r)) <$> l) then l
  else l ++ [mkDepRow aid i recipient 0 first_due "pending"].

Definition enqueue_all (aid recipient : bytes) (total_chunks first_due : Z) (db : att_db) : att_db :=
  with_deposits (foldl (enqueue_one aid recipient first_due) (a_deposits db) (seqZ 0 total_chunks)) db.

Definition is_due (now : Z) (r : dep_row) : Prop := dp_status r = "pending" ∧ dp_next_retry_at r ≤ now.
#[global] Instance is_due_dec now r : Decision (is_due now r).
Proof. unfold is_due. apply _. Defined.

Definition due_row (r : dep_row) : DepositDue :=
  mkDue (dp_id r) (as_u32 (dp_index r)) (dp_recipient r) (as_u32 (dp_attempts r)).

Definition deposits_due (now max : Z) (db : att_db) : list DepositDue :=
  due_row <$> filter (λ r, len (dp_id r) = 16 ∧ len (dp_recipient r) = 32)
    (limit max (order_by dp_next_retry_at (filter (is_due now) (a_deposits db)))).

Definition update_deposit (aid : bytes) (index : Z) (f : dep_row → dep_row) (db : att_db) : att_db :=
  with_deposits ((λ r, if decide (dp_id r = aid ∧ dp_index r = index) then f r else r) <$> a_deposits db) db.

Definition mark_deposited (aid : bytes) (index : Z) (db : att_db) : att_db :=
  update_deposit aid index (λ r,
    mkDepRow (dp_id r) (dp_index r) (dp_recipient r) (dp_attempts r) (dp_next_retry_at r) "deposited") db.

Definition dep_reschedule (aid : bytes) (index attempts next : Z) (db : att_db) : att_db :=
  update_deposit aid index (λ r,
    mkDepRow (dp_id r) (dp_index r) (dp_recipient r) attempts next (dp_status r)) db.

Definition all_deposited (aid : bytes) (db : att_db) : bool :=
  bool_decide (len (filter (λ r, dp_id r = aid ∧ dp_status r = "pending") (a_deposits db)) = 0).

Definition delete_for_attachment (aid : bytes) (db : att_db) : att_db :=
  with_deposits (filter (λ r, dp_id r ≠ aid) (a_deposits db)) db.

(** ** [chunk_sweep.rs] *)

Definition BACKOFF_MS : list Z := [15000; 60000; 300000; 900000].

Definition sweep_reschedule (row : DepositDue) (now : Z) (db : att_db) : att_db :=
  let attempts := Z.min (due_attempts row + 1) u32_max in
  let idx := Z.min attempts (len BACKOFF_MS) - 1 in
  let next := now + default 0 (BACKOFF_MS !! Z.to_nat idx) in
  dep_reschedule (due_id row) (due_index row) attempts next db.

(** A deposit a mailbox accepted: where, for whom, and what. *)
Record deposited : Type := mkDeposited {
  d_id : bytes; d_index : Z; d_onion : string; d_recipient_hash : bytes; d_chunk : bytes
}.

Record sweep_state : Type := mkSweep { sw_db : att_db; sw_store : chunk_store; sw_log : list deposited }.

(** The failover walk from mailbox [primary] on: the first that accepts. *)
Definition walk (accepts : string → bool) (onions : list string) (primary : Z) : option string :=
  let n := len onions in
  head (filter (λ o, accepts o = true)
    (omap (λ offset, onions !! Z.to_nat ((primary + offset) mod n)) (seqZ 0 n))).

Section sweep.
Context {sha : Sha256}.
(** [MailboxRepo::list_for_contact] (a failed query is no mailbox), and whether
    connecting to a mailbox and depositing a row's chunk there succeeds. *)
Context (mailboxes : bytes → list string) (accepts : bytes → Z → string → bool).

Definition finalize_out (aid : bytes) (st : sweep_state) : sweep_state :=
  if all_deposited aid (sw_db st) then
    let db := delete_for_attachment aid (sw_db st) in
    mkSweep (set_status aid "complete" db).1 (store_remove aid (sw_store st)) (sw_log st)
  else st.

Definition sweep_row (now : Z) (st : sweep_state) (row : DepositDue) : sweep_state :=
  let set_db db := mkSweep db (sw_store st) (sw_log st) in
  match mailboxes (due_recipient row) with
  | [] => set_db (sweep_reschedule row now (sw_db st))
  | onions =>
      match get_chunk (due_id row) (due_index row) (sw_store st) with
      | Err _ => set_db (mark_deposited (due_id row) (due_index row) (sw_db st))
      | Ok chunk =>
          let hash := sha256 (due_recipient row) in
          let primary := due_index row mod len onions in
          match walk (accepts (due_id row) (due_index row)) onions primary with
          | None => set_db (sweep_reschedule row now (sw_db st))
          | Some onion =>
              finalize_out (due_id row)
                (mkSweep (mark_deposited (due_id row) (due_index row) (sw_db st)) (sw_store st)
                   (sw_log st ++ [mkDeposited (due_id row) (due_index row) onion hash chunk]))
          end
      end
  end.

Definition run_chunk_sweep (now batch : Z) (st : sweep_state) : sweep_state :=
  foldl (sweep_row now) st (deposits_due now batch (sw_db st)).

(** ** The sweep's invariant *)

(** Every row is as [enqueue_all] writes it; a deposited row has been accepted
    by a mailbox and a pending row's chunk is staged. *)
Record sweep_inv (st : sweep_state) : Prop := {
  sw_index : ∀ r, r ∈ a_deposits (sw_db st) → 0 ≤ dp_index r ≤ u32_max;
  sw_done : ∀ r, r ∈ a_deposits (sw_db st) → dp_status r = "deposited" →
    ∃ d, d ∈ sw_log st ∧ d_id d = dp_id r ∧ d_index d = dp_index r;
  sw_staged : ∀ r, r ∈ a_deposits (sw_db st) → dp_status r = "pending" →
    is_Some (sw_store st !! (dp_id r, dp_index r));
  sw_status : ∀ r, r ∈ a_deposits (sw_db st) → dp_status r = "pending" ∨ dp_status r = "deposited"
}.

Lemma elem_update_deposit aid i f db r :
  r ∈ a_deposits (update_deposit aid i f db) ↔
  ∃ r0, r0 ∈ a_deposits db ∧ r = (if decide (dp_id r0 = aid ∧ dp_index r0 = i) then f r0 else r0).
Proof.
  unfold update_deposit, with_deposits. cbn [a_deposits]. rewrite list_elem_of_fmap. naive_solver.
Qed.

Lemma reschedule_inv row now st :
  sweep_inv st → sweep_inv (mkSweep (sweep_reschedule row now (sw_db st)) (sw_store st) (sw_log st)).
Proof.
  intros [H1 H2 H3 H4].
  split; cbn [sw_db sw_store sw_log]; unfold sweep_reschedule, dep_reschedule;
    intros r (r0 & Hr0 & ->)%elem_update_deposit; case_decide; cbn; eauto.
Qed.

Lemma mark_deposited_inv d st :
  sweep_inv st →
  sweep_inv (mkSweep (mark_deposited (d_id d) (d_index d) (sw_db st)) (sw_store st) (sw_log st ++ [d])).
Proof.
  intros [H1 H2 H3 H4].
  split; cbn [sw_db sw_store sw_log]; unfold mark_deposited;
    intros r (r0 & Hr0 & ->)%elem_update_deposit; case_decide as Hd; cbn; eauto.
  - destruct Hd as [-> ->]. intros _. exists d. set_solver.
  - intros Hs. destruct (H2 r0 Hr0 Hs) as (d0 & ? & ? & ?). exists d0. set_solver.
  - done.
Qed.

Lemma set_status_deposits aid s db : a_deposits (set_status aid s db).1 = a_deposits db.
Proof. unfold set_status, update_status. by case_decide. Qed.

Lemma finalize_deposits aid st r :
  r ∈ a_deposits (sw_db (finalize_out aid st)) → r ∈ a_deposits (sw_db st).
Proof.
  unfold finalize_out. destruct (all_deposited _ _); [|done]. cbn [sw_db]. rewrite set_status_deposits.
  by intros [_ ?]%list_elem_of_filter.
Qed.

Lemma finalize_inv aid st : sweep_inv st → sweep_inv (finalize_out aid st).
Proof.
  intros [H1 H2 H3 H4]. split; intros r Hr; pose proof (finalize_deposits _ _ _ Hr) as Hr0.
  - by apply H1.
  - unfold finalize_out. destruct (all_deposited _ _); by apply H2.
  - intros Hp. destruct (H3 r Hr0 Hp) as [ct Hct]. revert Hr.
    unfold finalize_out. destruct (all_deposited _ _); [|by exists ct]. cbn [sw_db sw_store].
    rewrite set_status_deposits. intros [Hne _]%list_elem_of_filter. exists ct.
    unfold store_remove. by apply map_lookup_filter_Some.
  - by apply H4.
Qed.

(** Where the chunk of a key is: accepted by a mailbox, or still to be sent. *)
Definition safe (st : sweep_state) (aid : bytes) (i : Z) : Prop :=
  (∃ d, d ∈ sw_log st ∧ d_id d = aid ∧ d_index d = i) ∨
  (∃ r, r ∈ a_deposits (sw_db st) ∧ dp_id r = aid ∧ dp_index r = i ∧ dp_status r = "pending").

Definition rests (now : Z) (st : sweep_state) (aid : bytes) (i : Z) : Prop :=
  ∀ r, r ∈ a_deposits (sw_db st) → dp_id r = aid → dp_index r = i → ¬ is_due now r.

(** What handling one row keeps. *)
Record sweep_step (now : Z) (st st' : sweep_state) : Prop := {
  ss_inv : sweep_inv st';
  ss_safe : ∀ aid i, safe st aid i → safe st' aid i;
  ss_rests : ∀ aid i, rests now st aid i → rests now st' aid i;
  ss_log : ∀ d, d ∈ sw_log st' → d ∈ sw_log st ∨ sw_store st !! (d_id d, d_index d) = Some (d_chunk d);
  ss_store : sw_store st' ⊆ sw_store st
}.

Lemma sweep_step_trans now st1 st2 st3 : sweep_step now st1 st2 → sweep_step now st2 st3 → sweep_step now st1 st3.
Proof.
  intros [I1 S1 R1 L1 T1] [I2 S2 R2 L2 T2]. split; auto; [|by trans (sw_store st2)].
  intros d Hd. destruct (L2 d Hd) as [?|Hs]; [by apply L1|]. right. by eapply lookup_weaken.
Qed.

Lemma reschedule_delay row : 0 ≤ due_attempts row →
  15000 ≤ default 0 (BACKOFF_MS !! Z.to_nat (Z.min (Z.min (due_attempts row + 1) u32_max) (len BACKOFF_MS) - 1)).
Proof.
  intros Ha. change (len BACKOFF_MS) with 4.
  assert (Z.to_nat (Z.min (Z.min (due_attempts row + 1) u32_max) 4 - 1) < 4)%nat as Hn by lia.
  destruct (Z.to_nat _) as [|[|[|[|n]]]]; [vm_compute; discriminate..|lia].
Qed.

Lemma reschedule_step row now st :
  sweep_inv st → 0 ≤ due_attempts row →
  let st' := mkSweep (sweep_reschedule row now (sw_db st)) (sw_store st) (sw_log st) in
  sweep_step now st st' ∧ rests now st' (due_id row) (due_index row).
Proof.
  intros Hinv Ha st'. pose proof (reschedule_delay row Ha) as Hdelay.
  assert (rests now st' (due_id row) (due_index row)) as Hrow.
  { intros r (r0 & Hr0 & ->)%elem_update_deposit Hid Hix. case_decide as Hd; [|by destruct Hd].
    intros [_ Hdue]. cbn [dp_next_retry_at] in Hdue. lia. }
  split; [|done]. split; [by apply reschedule_inv| | |by left|done].
  - intros aid i [?|(r & Hr & Hid & Hix & Hp)]; [by left|]. right.
    eexists. split; [apply elem_update_deposit; by exists r|]. by case_decide.
  - intros aid i Hrest r Hr Hid Hix.
    destruct (decide (aid = due_id row ∧ i = due_index row)) as [[-> ->]|Hne]; [by apply Hrow|].
    apply elem_update_deposit in Hr as (r0 & Hr0 & ->). case_decide as Hd.
    + cbn in Hid, Hix. destruct Hne. naive_solver.
    + by apply Hrest.
Qed.

(** Marking a row whose chunk is gone: it was deposited before. *)
Lemma mark_noop aid i st :
  sweep_inv st → sw_store st !! (aid, i) = None → mark_deposited aid i (sw_db st) = sw_db st.
Proof.
  intros Hinv Hnone. unfold mark_deposited, update_deposit, with_deposits.
  destruct (sw_db st) as [rs cs ds] eqn:E. cbn [a_rows a_chunks a_deposits]. f_equal.
  rewrite <- (list_fmap_id ds) at 2. apply list_fmap_ext. intros k r Hr%list_elem_of_lookup_2. simpl.
  case_decide as Hd; [|done]. destruct Hd as [Hid Hix].
  assert (r ∈ a_deposits (sw_db st)) as Hin by by rewrite E.
  destruct (sw_status _ Hinv r Hin) as [Hp|Hp].
  - destruct (sw_staged _ Hinv r Hin Hp) as [ct Hct]. by rewrite Hid, Hix, Hnone in Hct.
  - destruct r. cbn in *. by subst.
Qed.

Lemma deposit_step now st d :
  sweep_inv st → sw_store st !! (d_id d, d_index d) = Some (d_chunk d) →
  let st' := mkSweep (mark_deposited (d_id d) (d_index d) (sw_db st)) (sw_store st) (sw_log st ++ [d]) in
  sweep_step now st st' ∧ rests now st' (d_id d) (d_index d).
Proof.
  intros Hinv Hct st'. assert (rests now st' (d_id d) (d_index d)) as Hrow.
  { intros r (r0 & Hr0 & ->)%elem_update_deposit Hid Hix. case_decide as Hd; [|by destruct Hd].
    by intros [? _]. }
  split; [|done]. split; [by apply mark_deposited_inv| | | |done].
  - intros aid i [(d0 & Hd0 & ?)|(r & Hr & Hid & Hix & Hp)].
    { left. exists d0. split; [|done]. apply elem_of_app. by left. }
    destruct (decide (dp_id r = d_id d ∧ dp_index r = d_index d)) as [[Hi1 Hi2]|Hne].
    + left. exists d. split_and!; [set_solver|congruence..].
    + right. exists r. split_and!; try done. apply elem_update_deposit. exists r. by rewrite decide_False.
  - intros aid i Hrest r (r0 & Hr0 & ->)%elem_update_deposit. case_decide; [by intros _ _ [? _]|by apply Hrest].
  - intros d0 [?| ->%list_elem_of_singleton]%elem_of_app; [by left|by right].
Qed.

Lemma finalize_step now aid st : sweep_inv st → sweep_step now st (finalize_out aid st).
Proof.
  intros Hinv. split; [by apply finalize_inv|..].
  - intros a i [Hl|(r & Hr & Hid & Hix & Hp)].
    { left. unfold finalize_out. by destruct (all_deposited _ _). }
    right. exists r. split_and!; try done. unfold finalize_out.
    destruct (all_deposited aid (sw_db st)) eqn:Ha; [|done]. cbn [sw_db]. rewrite set_status_deposits.
    apply list_elem_of_filter. split; [|done]. intros Heq.
    unfold all_deposited in Ha. apply bool_decide_eq_true in Ha.
    assert (r ∈ filter (λ r, dp_id r = aid ∧ dp_status r = "pending") (a_deposits (sw_db st))) as Hin
      by by apply list_elem_of_filter.
    destruct (filter _ _) as [|r0 l]; [by apply elem_of_nil in Hin|]. rewrite len_cons in Ha. lens.
  - intros a i Hrest r Hr%finalize_deposits. by apply Hrest.
  - intros d Hd. left. revert Hd. unfold finalize_out. by destruct (all_deposited _ _).
  - unfold finalize_out. destruct (all_deposited _ _); [|done]. apply map_filter_subseteq.
Qed.

Lemma sweep_row_step now st row :
  sweep_inv st → 0 ≤ due_attempts row →
  sweep_step now st (sweep_row now st row) ∧ rests now (sweep_row now st row) (due_id row) (due_index row).
Proof.
  intros Hinv Ha. unfold sweep_row. destruct (mailboxes (due_recipient row)) as [|o onions].
  { by apply reschedule_step. }
  unfold get_chunk. destruct (sw_store st !! (due_id row, due_index row)) as [ct|] eqn:Hct; cbn [ok_or].
  - destruct (walk _ _ _) as [onion|]; [|by apply reschedule_step].
    set (d := mkDeposited (due_id row) (due_index row) onion (sha256 (due_recipient row)) ct).
    destruct (deposit_step now st d Hinv Hct) as [Hs Hr].
    pose proof (finalize_step now (due_id row) _ (ss_inv _ _ _ Hs)) as Hf.
    split; [by eapply sweep_step_trans|]. by apply (ss_rests _ _ _ Hf).
  - rewrite (mark_noop _ _ st Hinv Hct). destruct st as [db store log]. cbn [sw_db sw_store sw_log] in *.
    split; [by split; auto|]. intros r Hr Hid Hix [Hp _].
    destruct (sw_staged _ Hinv r Hr Hp) as [ct' Hct']. cbn in Hct'. by rewrite Hid, Hix, Hct in Hct'.
Qed.

Lemma sweep_rows_step now rows st :
  sweep_inv st → Forall (λ row, 0 ≤ due_attempts row) rows →
  sweep_step now st (foldl (sweep_row now) st rows) ∧
  Forall (λ row, rests now (foldl (sweep_row now) st rows) (due_id row) (due_index row)) rows.
Proof.
  revert st. induction rows as [|row rows IH]; intros st Hinv Hrows; simpl.
  { split; [by split; auto|constructor]. }
  apply Forall_cons in Hrows as [Hrow Hrows].
  destruct (sweep_row_step now st row Hinv Hrow) as [Hs Hr].
  destruct (IH _ (ss_inv _ _ _ Hs) Hrows) as [Hs' Hrs].
  split; [by eapply sweep_step_trans|]. constructor; [|done]. by apply (ss_rests _ _ _ Hs').
Qed.

(** Offline delivery loses no chunk.  Whatever mailboxes the recipients
    have and whichever of them answer, after a sweep every chunk that had a row
    is either accepted by a mailbox or still pending, also when the sweep pruned
    the attachment; every chunk it deposited is the staged ciphertext; none of
    the rows it handled is due again at the same time; and the invariant that
    makes this true of the next sweep holds again. *)
Theorem chunk_sweep_safe now batch st :
  sweep_inv st →
  let st' := run_chunk_sweep now batch st in
  sweep_inv st' ∧
  (∀ r, r ∈ a_deposits (sw_db st) → safe st' (dp_id r) (dp_index r)) ∧
  (∀ d, d ∈ sw_log st' → d ∈ sw_log st ∨ sw_store st !! (d_id d, d_index d) = Some (d_chunk d)) ∧
  Forall (λ row, rests now st' (due_id row) (due_index row)) (deposits_due now batch (sw_db st)).
Proof.
  intros Hinv st'. destruct (sweep_rows_step now (deposits_due now batch (sw_db st)) st Hinv) as [Hs Hrests].
  { apply Forall_forall. intros row (r & -> & _)%list_elem_of_fmap. cbn. unfold as_u32. apply Z.mod_pos_bound. lia. }
  split_and!; [exact (ss_inv _ _ _ Hs)| |exact (ss_log _ _ _ Hs)|exact Hrests].
  intros r Hr. apply (ss_safe _ _ _ Hs). destruct (sw_status _ Hinv r Hr) as [Hp|Hp].
  - right. by exists r.
  - left. by apply (sw_done _ Hinv).
Qed.

(** [enqueue_all] after staging establishes the invariant. *)
Lemma enqueue_one_inv aid recipient first_due st i :
  sweep_inv st → 0 ≤ i ≤ u32_max → is_Some (sw_store st !! (aid, i)) →
  sweep_inv (mkSweep (with_deposits (enqueue_one aid recipient first_due (a_deposits (sw_db st)) i) (sw_db st))
    (sw_store st) (sw_log st)).
Proof.
  intros [H1 H2 H3 H4] Hi Hs. unfold enqueue_one. case_decide.
  { destruct st as [[] ? ?]. by split. }
  split; cbn [sw_db sw_store sw_log with_deposits a_deposits];
    intros r [Hr| ->%list_elem_of_singleton]%elem_of_app; cbn; eauto; done.
Qed.
End sweep.

Lemma enqueue_all_inv aid recipient total first_due st :
  sweep_inv st → total ≤ u32_max + 1 →
  (∀ i, 0 ≤ i < total → is_Some (sw_store st !! (aid, i))) →
  sweep_inv (mkSweep (enqueue_all aid recipient total first_due (sw_db st)) (sw_store st) (sw_log st)).
Proof.
  intros Hinv Htot Hstaged. unfold enqueue_all.
  assert (Forall (λ i, 0 ≤ i ≤ u32_max ∧ is_Some (sw_store st !! (aid, i))) (seqZ 0 total)) as Hall.
  { apply Forall_forall. intros i Hi%elem_of_seqZ. split; [lia|]. apply Hstaged. lia. }
  revert st Hinv Hstaged Hall. induction (seqZ 0 total) as [|i l IH]; intros st Hinv Hstaged Hall; simpl.
  { destruct st as [[] ? ?]. exact Hinv. }
  apply Forall_cons in Hall as [[Hi Hs] Hall].
  exact (IH _ (enqueue_one_inv aid recipient first_due st i Hinv Hi Hs) Hstaged Hall).
Qed.

(** ** The terminal claim *)

Definition att_wf (db : att_db) : Prop := NoDup (at_id <$> a_rows db).

(** What the two lanes and the user do to inbound attachments. *)
Inductive att_op : Type :=
| OpInsert (aid : bytes) (direction : string) (manifest : bytes) (total_chunks created_at : Z)
| OpMark (aid : bytes) (index : Z)
| OpClaim (aid : bytes) (s : TerminalStatus)
| OpRearm (aid : bytes)
| OpSetPeer (aid peer : bytes).

Definition att_apply (op : att_op) (db : att_db) : att_db * bool :=
  match op with
  | OpInsert aid d m n t => ((att_insert aid d m n t db).1, false)
  | OpMark aid i => (mark_received aid i db, false)
  | OpClaim aid s => claim_terminal aid s db
  | OpRearm aid => rearm_failed_in aid db
  | OpSetPeer aid p => (set_peer aid p db, false)
  end.

(** A run, with the answer to every operation. *)
Fixpoint att_run (ops : list att_op) (db : att_db) : att_db * list (att_op * bool) :=
  match ops with
  | [] => (db, [])
  | op :: ops' =>
      let '(db1, b) := att_apply op db in
      let '(db2, bs) := att_run ops' db1 in (db2, (op, b) :: bs)
  end.

Definition count_won (f : att_op → bool) (log : list (att_op * bool)) : Z :=
  sum_by (λ ob, if f ob.1 && ob.2 then 1 else 0) log.
Definition is_claim (aid : bytes) (op : att_op) : bool :=
  match op with OpClaim a _ => bool_decide (a = aid) | _ => false end.
Definition is_complete_claim (aid : bytes) (op : att_op) : bool :=
  match op with OpClaim a Complete => bool_decide (a = aid) | _ => false end.
Definition is_rearm (aid : bytes) (op : att_op) : bool :=
  match op with OpRearm a => bool_decide (a = aid) | _ => false end.

Definition status_of (aid : bytes) (db : att_db) : option string := at_status <$> att_find aid db.

Lemma att_rows_key db aid :
  att_wf db → filter (λ r, at_id r = aid) (a_rows db) = option_list (att_find aid db).
Proof.
  intros Hwf. unfold att_find. destruct (filter _ _) as [|r l] eqn:E; [done|]. simpl.
  assert (r ∈ filter (λ r, at_id r = aid) (a_rows db)) as Hr by (rewrite E; set_solver).
  apply list_elem_of_filter in Hr as [<- Hr]. rewrite (filter_key at_id _ r Hwf Hr) in E. congruence.
Qed.

(** A conditional status update touches the row of its id, and reports it. *)
Lemma update_status_spec aid (Q : att_row → Prop) `{!∀ r, Decision (Q r)} s db :
  att_wf db →
  let '(db', n) := update_status (λ r, at_id r = aid ∧ Q r) s db in
  att_wf db' ∧
  n = match att_find aid db with Some r => if decide (Q r) then 1 else 0 | None => 0 end ∧
  (∀ a, a ≠ aid → att_find a db' = att_find a db) ∧
  att_find aid db' = (λ r, if decide (Q r) then set_at_status s r else r) <$> att_find aid db.
Proof.
  intros Hwf. unfold update_status. set (f := λ r, if decide (at_id r = aid ∧ Q r) then set_at_status s r else r).
  assert (∀ r, at_id (f r) = at_id r) as Hf by (intros r; unfold f; by case_decide).
  assert (∀ a, att_find a (with_rows (f <$> a_rows db) db) = f <$> att_find a db) as Hfind.
  { intros a. unfold att_find. cbn [with_rows a_rows]. apply head_filter_fmap. intros r. by rewrite Hf. }
  assert (∀ a r, att_find a db = Some r → at_id r = a) as Hid.
  { intros a r E. unfold att_find in E. apply head_Some_elem_of in E. by apply list_elem_of_filter in E as [? _]. }
  split_and!.
  - unfold att_wf. cbn [with_rows a_rows]. rewrite <- list_fmap_compose. erewrite list_fmap_ext; [exact Hwf|].
    intros i r _. apply Hf.
  - rewrite (filter_ext_in _ (λ r, Q r ∧ at_id r = aid)) by (intros; tauto).
    rewrite <- list_filter_filter, (att_rows_key db aid Hwf).
    destruct (att_find aid db) as [r|]; [|done]. simpl. rewrite filter_cons. by case_decide.
  - intros a Ha. rewrite Hfind. destruct (att_find a db) as [r|] eqn:E; [|done]. simpl. f_equal.
    apply Hid in E. unfold f. rewrite decide_False; [done|]. intros [? _]. congruence.
  - rewrite Hfind. destruct (att_find aid db) as [r|] eqn:E; [|done]. simpl. f_equal.
    apply Hid in E. unfold f. repeat case_decide; tauto.
Qed.

(** What may still be claimed: a row that is pending, or not there yet. *)
Definition claimable (o : option string) : Z :=
  match o with None => 1 | Some s => if decide (s = "pending") then 1 else 0 end.
Definition not_complete (o : option string) : Z := if decide (o = Some "complete") then 0 else 1.

(** An operation that is neither a claim nor a re-arm of [aid]. *)
Lemma claimable_find aid db db' :
  (at_status <$> att_find aid db' = at_status <$> att_find aid db ∨
   att_find aid db = None ∧ status_of aid db' = Some "pending") →
  claimable (status_of aid db') = claimable (status_of aid db) ∧
  not_complete (status_of aid db') = not_complete (status_of aid db).
Proof.
  unfold status_of. intros [-> |[-> Hp]]; [done|]. unfold status_of in Hp. by rewrite Hp.
Qed.

Lemma att_find_insert aid db d m n t a :
  let db' := (att_insert aid d m n t db).1 in
  (att_wf db → att_wf db') ∧
  (at_status <$> att_find a db' = at_status <$> att_find a db ∨
   att_find a db = None ∧ status_of a db' = Some "pending").
Proof.
  unfold att_insert. case_decide; [|by split; [|left]]. case_decide as Hin; [by split; [|left]|].
  cbn [fst]. split.
  - intros Hwf. unfold att_wf. cbn [with_rows a_rows]. rewrite fmap_app. apply NoDup_app.
    split_and!; [done| |apply NoDup_singleton]. intros x Hx Hx'. apply list_elem_of_singleton in Hx'.
    cbn in Hx'. congruence.
  - unfold status_of, att_find. cbn [with_rows a_rows]. rewrite filter_app.
    destruct (filter (λ r, at_id r = a) (a_rows db)) as [|r l]; [|by left]. rewrite filter_cons.
    case_decide; [by right|by left].
Qed.

Lemma att_find_set_peer aid p db a :
  let db' := set_peer aid p db in
  (att_wf db → att_wf db') ∧ at_status <$> att_find a db' = at_status <$> att_find a db.
Proof.
  split.
  - intros Hwf. unfold att_wf, set_peer. cbn [with_rows a_rows]. rewrite <- list_fmap_compose.
    erewrite list_fmap_ext; [exact Hwf|]. intros i r _. simpl. by case_decide.
  - unfold att_find, set_peer. cbn [with_rows a_rows].
    rewrite head_filter_fmap by (intros r; by case_decide). destruct (head _) as [r|]; [|done].
    simpl. by case_decide.
Qed.

Lemma att_apply_tokens aid op db :
  att_wf db →
  let '(db', b) := att_apply op db in
  att_wf db' ∧
  count_won (is_claim aid) [(op, b)] + claimable (status_of aid db')
    = count_won (is_rearm aid) [(op, b)] + claimable (status_of aid db) ∧
  count_won (is_complete_claim aid) [(op, b)] + not_complete (status_of aid db') = not_complete (status_of aid db).
Proof.
  intros Hwf. destruct op as [a d m n t|a i|a s|a|a p]; cbn [att_apply].
  - destruct (att_find_insert a db d m n t aid) as [Hwf' Hf]. apply claimable_find in Hf as [-> ->].
    split_and!; [auto|done..].
  - done.
  - unfold claim_terminal. pose proof (update_status_spec a (λ r, at_status r = "pending") (terminal_as_str s) db Hwf) as Hs.
    destruct (update_status _ _ _) as [db' k]. destruct Hs as (Hwf' & -> & Hother & Hself). split; [done|].
    destruct (decide (a = aid)) as [->|Hne].
    + unfold count_won, status_of, sum_by. cbn [foldr fst snd is_claim is_rearm is_complete_claim]. rewrite Hself.
      destruct (att_find aid db) as [r|]; [|destruct s; by rewrite bool_decide_true].
      cbn. destruct (decide (at_status r = "pending")) as [Hp|Hp]; cbn.
      * rewrite Hp. destruct s; rewrite !bool_decide_true by done; done.
      * rewrite ?andb_false_r, ?decide_False by done. destruct s; rewrite ?andb_false_r; split; lia.
    + unfold status_of. rewrite Hother by done. unfold count_won, sum_by. cbn.
      destruct s; rewrite !bool_decide_false by done; split; cbn; lia.
  - unfold rearm_failed_in. pose proof (update_status_spec a
      (λ r, at_direction r = "in" ∧ at_status r = "failed") "pending" db Hwf) as Hs.
    destruct (update_status _ _ _) as [db' k]. destruct Hs as (Hwf' & -> & Hother & Hself). split; [done|].
    destruct (decide (a = aid)) as [->|Hne].
    + unfold count_won, status_of, sum_by. cbn [foldr fst snd is_claim is_rearm is_complete_claim]. rewrite Hself.
      destruct (att_find aid db) as [r|]; [|cbn; rewrite ?andb_false_r; split; lia].
      cbn. destruct (decide (at_direction r = "in" ∧ at_status r = "failed")) as [[? Hp]|Hp]; cbn.
      * rewrite Hp. rewrite !bool_decide_true by done; done.
      * rewrite andb_false_r. split; lia.
    + unfold status_of. rewrite Hother by done. unfold count_won, sum_by. cbn.
      rewrite !bool_decide_false by done; split; cbn; lia.
  - destruct (att_find_set_peer a p db aid) as [Hwf' Hf].
    destruct (claimable_find aid db _ (or_introl Hf)) as [-> ->]. by split; [apply Hwf'|].
Qed.

Lemma att_run_tokens aid ops db :
  att_wf db →
  let '(db', log) := att_run ops db in
  count_won (is_claim aid) log + claimable (status_of aid db')
    = count_won (is_rearm aid) log + claimable (status_of aid db) ∧
  count_won (is_complete_claim aid) log + not_complete (status_of aid db') = not_complete (status_of aid db).
Proof.
  revert db. induction ops as [|op ops IH]; intros db Hwf; cbn [att_run]; [done|].
  pose proof (att_apply_tokens aid op db Hwf) as Hop. destruct (att_apply op db) as [db1 b].
  destruct Hop as (Hwf1 & H1 & H2). specialize (IH db1 Hwf1). destruct (att_run ops db1) as [db2 bs].
  destruct IH as [IH1 IH2]. unfold count_won, sum_by in *. cbn [foldr] in *. lia.
Qed.

Lemma count_won_nonneg f log : 0 ≤ count_won f log.
Proof. apply sum_by_nonneg. intros ? _. destruct (_ && _); lia. Qed.

Lemma complete_stays aid ops db :
  att_wf db → status_of aid db = Some "complete" →
  let '(db', log) := att_run ops db in
  status_of aid db' = Some "complete" ∧
  count_won (is_claim aid) log = 0 ∧ count_won (is_rearm aid) log = 0.
Proof.
  revert db. induction ops as [|op ops IH]; intros db Hwf Hc; cbn [att_run]; [done|].
  pose proof (att_apply_tokens aid op db Hwf) as Hop. destruct (att_apply op db) as [db1 b].
  destruct Hop as (Hwf1 & H1 & H2). rewrite Hc in H1, H2.
  pose proof (count_won_nonneg (is_complete_claim aid) [(op, b)]).
  assert (status_of aid db1 = Some "complete") as Hc1.
  { unfold not_complete in H2. rewrite (decide_True (P := Some "complete" = _)) in H2 by done.
    case_decide; [done|lia]. }
  rewrite Hc1 in H1. specialize (IH db1 Hwf1 Hc1). destruct (att_run ops db1) as [db2 bs].
  destruct IH as (IH0 & IH1 & IH2). split; [done|]. unfold count_won, sum_by in *. cbn [foldr] in *.
  destruct op; cbn in *; lia.
Qed.

(** A transfer ends once.  Let the direct lane, the offline lane and the
    user's retries run in any interleaving: for every attachment the claims that
    win are at most one more than the re-arms that won, so without a re-arm at
    most one lane reports an end; at most one claim of completion ever wins; and
    once an attachment is complete nothing is won for it again. *)
Theorem claim_exactly_once aid ops db :
  att_wf db →
  let '(db', log) := att_run ops db in
  count_won (is_claim aid) log ≤ count_won (is_rearm aid) log + 1 ∧
  count_won (is_complete_claim aid) log ≤ 1 ∧
  (count_won (is_complete_claim aid) log = 1 → status_of aid db' = Some "complete") ∧
  (status_of aid db = Some "complete" →
     status_of aid db' = Some "complete" ∧
     count_won (is_claim aid) log = 0 ∧ count_won (is_rearm aid) log = 0).
Proof.
  intros Hwf. pose proof (complete_stays aid ops db Hwf) as Hstay. pose proof (att_run_tokens aid ops db Hwf) as Ht. destruct (att_run ops db) as [db' log].
  destruct Ht as [H1 H2]. pose proof (count_won_nonneg (is_complete_claim aid) log).
  assert (∀ o, 0 ≤ claimable o ≤ 1) as Hc by (intros [s|]; simpl; [case_decide|]; lia).
  pose proof (Hc (status_of aid db)). pose proof (Hc (status_of aid db')).
  split_and!; [lia| | |done]; unfold not_complete in H2; repeat case_decide; done || lia.
Qed.

(** ** Examples and witnesses *)

#[local] Existing Instance toy_hash.

Definition demo_aid : bytes := fill 16 Byte.x01.
Definition demo_recipient : bytes := fill 32 Byte.x02.
Definition demo_mailboxes (r : bytes) : list string := ["m1"; "m2"].
Definition demo_accepts (aid : bytes) (i : Z) (o : string) : bool := bool_decide (o = "m2").
Definition demo_db : att_db :=
  enqueue_all demo_aid demo_recipient 2 0 (att_insert demo_aid "out" [] 2 0 empty_att_db).1.
Definition demo_store : chunk_store :=
  store_put demo_aid 1 [Byte.x07] (store_put demo_aid 0 [Byte.x06] ∅).

(** A row whose staged chunk is missing is marked as deposited without a
    deposit.  With another chunk after it the attachment is reported complete
    although no mailbox has the missing chunk; as the last one it leaves the
    attachment pending, with rows that no sweep looks at again. *)
Lemma missing_chunk_completes :
  let st := mkSweep demo_db (store_put demo_aid 1 [Byte.x07] ∅) [] in
  let st' := run_chunk_sweep demo_mailboxes demo_accepts 0 10 st in
  status_of demo_aid (sw_db st') = Some "complete" ∧ d_index <$> sw_log st' = [1].
Proof. vm_compute. done. Qed.

Lemma missing_chunk_stuck :
  let st := mkSweep demo_db (store_put demo_aid 0 [Byte.x06] ∅) [] in
  let st' := run_chunk_sweep demo_mailboxes demo_accepts 0 10 st in
  status_of demo_aid (sw_db st') = Some "pending" ∧ dp_status <$> a_deposits (sw_db st') = ["deposited"; "deposited"].
Proof. vm_compute. done. Qed.

Lemma demo_inv : sweep_inv (mkSweep demo_db demo_store []).
Proof.
  apply (enqueue_all_inv demo_aid demo_recipient 2 0
    (mkSweep (att_insert demo_aid "out" [] 2 0 empty_att_db).1 demo_store [])).
  - split; intros r Hr; by apply elem_of_nil in Hr.
  - vm_compute. discriminate.
  - intros i Hi. assert (i = 0 ∨ i = 1) as [-> | ->] by lia; vm_compute; by eexists.
Defined.

Lemma chunk_sweep_safe_witness :
  let st := mkSweep demo_db demo_store [] in
  let st' := run_chunk_sweep demo_mailboxes demo_accepts 0 10 st in
  a_deposits (sw_db st') = [] ∧ status_of demo_aid (sw_db st') = Some "complete" ∧
  safe st' demo_aid 0 ∧ safe st' demo_aid 1.
Proof.
  intros st st'. destruct (chunk_sweep_safe demo_mailboxes demo_accepts 0 10 st demo_inv) as (_ & Hsafe & _).
  split_and!; [vm_compute; reflexivity|vm_compute; reflexivity|..].
  - apply (Hsafe (mkDepRow demo_aid 0 demo_recipient 0 0 "pending")).
    apply (list_elem_of_lookup_2 _ 0). vm_compute. reflexivity.
  - apply (Hsafe (mkDepRow demo_aid 1 demo_recipient 0 0 "pending")).
    apply (list_elem_of_lookup_2 _ 1). vm_compute. reflexivity.
Defined.

Definition demo_ops : list att_op :=
  [OpInsert demo_aid "in" [] 1 0; OpClaim demo_aid Failed; OpClaim demo_aid Complete; OpRearm demo_aid;
   OpClaim demo_aid Complete; OpClaim demo_aid Failed; OpRearm demo_aid].

Lemma claim_exactly_once_witness :
  (att_run demo_ops empty_att_db).2.*2 = [false; true; false; true; true; false; false] ∧
  status_of demo_aid (att_run demo_ops empty_att_db).1 = Some "complete".
Proof.
  split; [vm_compute; reflexivity|].
  pose proof (claim_exactly_once demo_aid demo_ops empty_att_db) as H.
  destruct (att_run demo_ops empty_att_db) as [db' log] eqn:E.
  destruct H as (_ & _ & Hc & _); [apply NoDup_nil_2|]. apply Hc.
  vm_compute in E. injection E as _ <-. vm_compute. reflexivity.
Defined.
