(* ===== verification/Hex.v ===== *)
(** * Hex: the hexadecimal newtypes of the IPC surface

    [crates/core/src/daemon/hex.rs]: [Hex16] and [Hex32] print as lower-case
    hexadecimal and parse case-insensitively. *)

From S2P Require Import Prelude Text.

Inductive HexParseError : Type :=
| Hex_Length (expected got : Z)
| Hex_NonHex (index : Z).

Definition display_hex_error (e : HexParseError) : string :=
  match e with
  | Hex_Length expected got => "hex: expected " +:+ pretty expected +:+ " characters, got " +:+ pretty got
  | Hex_NonHex index => "hex: non-hex character at byte " +:+ pretty index
  end.

Definition from_hex_char (c : Ascii.ascii) : option Z :=
  let n := Z.of_nat (Ascii.nat_of_ascii c) in
  if decide (48 ≤ n ≤ 57) then Some (n - 48)
  else if decide (97 ≤ n ≤ 102) then Some (n - 97 + 10)
  else if decide (65 ≤ n ≤ 70) then Some (n - 65 + 10)
  else None.

(** The loop of [parse_fixed] over [chunks_exact(2)], from byte [i]. *)
Fixpoint parse_pairs (i : Z) (s : string) : result bytes HexParseError :=
  match s with
  | String a (String b s') =>
      let? hi := ok_or (from_hex_char a) (Hex_NonHex (i * 2)) in
      let? lo := ok_or (from_hex_char b) (Hex_NonHex (i * 2 + 1)) in
      let? rest := parse_pairs (i + 1) s' in
      Ok (byte_of_Z (Z.lor (Z.shiftl hi 4) lo) :: rest)
  | _ => Ok []
  end.

(** [parse_fixed::<N>]; [Hex16::from_str] and [Hex32::from_str] are it at 16 and
    at 32, and [Display] is [Text.hex_encode]. *)
Definition parse_fixed (n : nat) (s : string) : result bytes HexParseError :=
  if decide (String.length s ≠ (n * 2)%nat)
  then Err (Hex_Length (Z.of_nat n * 2) (Z.of_nat (String.length s)))
  else parse_pairs 0 s.

Definition hex16_from_str : string → result bytes HexParseError := parse_fixed 16.
Definition hex32_from_str : string → result bytes HexParseError := parse_fixed 32.

(** ** Lemmas *)

Lemma from_hex_char_lower a h : from_hex_char a = Some h → 0 ≤ h < 16 ∧ ascii_lower a = hex_digit h.
Proof. destruct a as [[] [] [] [] [] [] [] []]; vm_compute; intros [=]; subst; done. Qed.

Lemma hex_lower_inv a h : 0 ≤ h < 16 → ascii_lower a = hex_digit h → from_hex_char a = Some h.
Proof.
  intros Hh. assert (h = 0 ∨ h = 1 ∨ h = 2 ∨ h = 3 ∨ h = 4 ∨ h = 5 ∨ h = 6 ∨ h = 7 ∨ h = 8 ∨ h = 9 ∨ h = 10
    ∨ h = 11 ∨ h = 12 ∨ h = 13 ∨ h = 14 ∨ h = 15) as H by lia.
  repeat (destruct H as [->|H]; [destruct a as [[] [] [] [] [] [] [] []]; vm_compute; congruence|]).
  subst h. destruct a as [[] [] [] [] [] [] [] []]; vm_compute; congruence.
Qed.

Lemma from_hex_char_digit a : is_ascii_hexdigit a = bool_decide (is_Some (from_hex_char a)).
Proof. by destruct a as [[] [] [] [] [] [] [] []]. Qed.

Lemma nibbles (b : byte) :
  byte_of_Z (Z.lor (Z.shiftl (Z_of_byte b / 16) 4) (Z_of_byte b mod 16)) = b.
Proof. by destruct b. Qed.

Lemma nibbles_value hi lo : 0 ≤ hi < 16 → 0 ≤ lo < 16 →
  Z_of_byte (byte_of_Z (Z.lor (Z.shiftl hi 4) lo)) = hi * 16 + lo.
Proof.
  intros Hhi Hlo. pose proof (nibbles (byte_of_Z (hi * 16 + lo))) as H.
  rewrite Z_of_byte_of_Z, (Z.mod_small (hi * 16 + lo)) in H by lia.
  rewrite Z.div_add_l, (Z.div_small lo), Z.add_0_r, Z.add_comm, Z_mod_plus_full, (Z.mod_small lo) in H by lia.
  rewrite H, Z_of_byte_of_Z. rewrite Z.mod_small; lia.
Qed.

Lemma parse_pairs_Ok n i s b :
  String.length s = (n * 2)%nat → (parse_pairs i s = Ok b ↔ to_ascii_lowercase s = hex_encode b).
Proof.
  revert i s b. induction n as [|n IH]; intros i s b Hlen.
  { destruct s; [|done]. simpl. split; [by intros [= <-]|]. by destruct b. }
  destruct s as [|x [|y s]]; [done..|]. simpl in Hlen. cbn [parse_pairs to_ascii_lowercase]. split.
  - destruct (from_hex_char x) as [hi|] eqn:Ex; [|done]. cbn. destruct (from_hex_char y) as [lo|] eqn:Ey; [|done].
    cbn. intros (rest & Hr & [= <-])%bind_Ok_inv. apply IH in Hr; [|lia]. cbn [hex_encode].
    apply from_hex_char_lower in Ex as [Hhi ->], Ey as [Hlo ->]. rewrite nibbles_value, Hr by done.
    rewrite Z.div_add_l, (Z.div_small lo), Z.add_0_r, Z.add_comm, Z_mod_plus_full, (Z.mod_small lo) by lia. done.
  - destruct b as [|c b]; [done|]. cbn [hex_encode]. intros [= Hx Hy Hs]. pose proof (Z_of_byte_range c).
    apply hex_lower_inv in Hx; [|split; [apply Z.div_pos|apply Z.div_lt_upper_bound]; lia].
    apply hex_lower_inv in Hy; [|apply Z.mod_pos_bound; lia]. rewrite Hx, Hy. cbn.
    apply (IH (i + 1)) in Hs; [|lia]. rewrite Hs. cbn. by rewrite nibbles.
Qed.

Lemma parse_pairs_Err n i s e :
  String.length s = (n * 2)%nat → parse_pairs i s = Err e →
  ∃ (k : nat) a, e = Hex_NonHex (i * 2 + Z.of_nat k) ∧ String.get k s = Some a ∧ is_ascii_hexdigit a = false ∧
    ∀ (j : nat) c, (j < k)%nat → String.get j s = Some c → is_ascii_hexdigit c = true.
Proof.
  revert i s. induction n as [|n IH]; intros i s Hlen; [by destruct s|].
  destruct s as [|x [|y s]]; [done..|]. simpl in Hlen. cbn [parse_pairs].
  destruct (from_hex_char x) as [hi|] eqn:Ex; cbn.
  2:{ intros [= <-]. exists 0%nat, x. rewrite from_hex_char_digit, Ex, Z.add_0_r. split_and!; try done. lia. }
  assert (is_ascii_hexdigit x = true) as Hx by (rewrite from_hex_char_digit, Ex; by apply bool_decide_eq_true_2).
  destruct (from_hex_char y) as [lo|] eqn:Ey; cbn.
  2:{ intros [= <-]. exists 1%nat, y. rewrite from_hex_char_digit, Ey. split_and!; try done.
      intros j c Hj. assert (j = 0)%nat as -> by lia. by intros [= <-]. }
  assert (is_ascii_hexdigit y = true) as Hy by (rewrite from_hex_char_digit, Ey; by apply bool_decide_eq_true_2).
  intros [Hs|(? & _ & ?)]%bind_Err_inv; [|done]. apply IH in Hs as (k & a & -> & Hk & Ha & Hall); [|lia].
  exists (S (S k)), a. split_and!; [f_equal; lia|done..|].
  intros [|[|j]] c Hj; [by intros [= <-]..|]. apply Hall. lia.
Qed.

Lemma lowercase_length s : String.length (to_ascii_lowercase s) = String.length s.
Proof. induction s as [|a s IH]; [done|]. simpl. by rewrite IH. Qed.

Lemma hex_encode_length b : String.length (hex_encode b) = (length b * 2)%nat.
Proof. induction b as [|x b IH]; [done|]. simpl. by rewrite IH. Qed.

Lemma hex_encode_lower b : to_ascii_lowercase (hex_encode b) = hex_encode b.
Proof.
  induction b as [|x b IH]; [done|].
  cbn [hex_encode to_ascii_lowercase]. destruct (hex_digit_pair x) as (_ & _ & -> & ->). by rewrite IH.
Qed.

(** A hexadecimal id round-trips and parses exactly its spellings.  A text
    parses to the [n] bytes [b] exactly when it is the printed form of [b] up to
    the case of its letters; so every id the daemon prints parses back, and two
    spellings of an id parse alike.  A refusal tells the length, or the first
    character that is not a hexadecimal digit. *)
Theorem hex_exact (n : nat) (s : string) :
  (∀ b, parse_fixed n s = Ok b ↔ length b = n ∧ to_ascii_lowercase s = hex_encode b) ∧
  (∀ b, length b = n → parse_fixed n (hex_encode b) = Ok b) ∧
  (∀ expected got, parse_fixed n s = Err (Hex_Length expected got) ↔
     String.length s ≠ (n * 2)%nat ∧ expected = Z.of_nat n * 2 ∧ got = Z.of_nat (String.length s)) ∧
  (∀ index, parse_fixed n s = Err (Hex_NonHex index) →
     ∃ a, String.get (Z.to_nat index) s = Some a ∧ is_ascii_hexdigit a = false ∧
       ∀ (j : nat) c, (j < Z.to_nat index)%nat → String.get j s = Some c → is_ascii_hexdigit c = true).
Proof.
  assert (∀ t b, parse_fixed n t = Ok b ↔ length b = n ∧ to_ascii_lowercase t = hex_encode b) as Hok.
  { intros t b. unfold parse_fixed. case_decide as Hl.
    - split; [done|]. intros [<- Ht]. exfalso. apply Hl. by rewrite <- lowercase_length, Ht, hex_encode_length.
    - rewrite (parse_pairs_Ok n) by lia. split; [|by intros [_ ?]]. intros Ht. split; [|done].
      apply (f_equal String.length) in Ht. rewrite lowercase_length, hex_encode_length in Ht. lia. }
  split_and!.
  - apply Hok.
  - intros b Hb. apply Hok. split; [done|]. apply hex_encode_lower.
  - intros ex got. unfold parse_fixed. case_decide as Hl; [split; [by intros [= <- <-]|by intros (_ & -> & ->)]|].
    split; [|intros [? _]; done]. intros (k & a & ? & _)%(parse_pairs_Err n); [done|lia].
  - intros index. unfold parse_fixed. case_decide; [done|].
    intros (k & a & [= ->] & Hk & Ha & Hall)%(parse_pairs_Err n); [|lia].
    exists a. replace (Z.to_nat (0 * 2 + Z.of_nat k)) with k by lia. done.
Qed.
