(* ===== verification/Mls.v ===== *)
(** * Mls: the group wrapper over OpenMLS

    [crates/core/src/mls]: [group.rs], [key_package.rs], [provider.rs] and
    [state_machine.rs], and the group table of [storage/groups.rs].  OpenMLS is
    the class [OpenMls]: its operations act on the provider's key-value storage
    and on an opaque group, and may fail with a text.  Randomness is an argument;
    poisoned locks are not modelled. *)

From S2P Require Import Prelude Text Framing SimpleCodec CoreErrors Sql MailboxProtocol Identity Messages.

(** ** OpenMLS *)

(** [openmls_basic_credential::SignatureKeyPair] and [PreSharedKeyId]. *)
Record SignatureKeyPair : Type := mkKeyPair { kp_private : bytes; kp_public : bytes }.
Record CredentialWithKey : Type := mkCredential { cred_identity : bytes; cred_signature_key : bytes }.
Record PreSharedKeyId : Type := mkPskId { psk_identifier : bytes; psk_nonce : bytes }.

(** The storage of a provider, [HashMap<Vec<u8>, Vec<u8>>]. *)
Abbreviation provider := (gmap bytes bytes).

(** [MlsMessageBodyIn] and [ProcessedMessageContent]. *)
Inductive MlsMessageBody (W P : Type) : Type :=
| BodyWelcome (w : W)
| BodyPrivate (p : P)
| BodyPublic (p : P)
| BodyOther.
Arguments BodyWelcome {W P} _.
Arguments BodyPrivate {W P} _.
Arguments BodyPublic {W P} _.
Arguments BodyOther {W P}.

Inductive ProcessedContent (C : Type) : Type :=
| ApplicationMessage (b : bytes)
| StagedCommitMessage (c : C)
| ProposalMessage
| ExternalJoinProposalMessage.
Arguments ApplicationMessage {C} _.
Arguments StagedCommitMessage {C} _.
Arguments ProposalMessage {C}.
Arguments ExternalJoinProposalMessage {C}.

Class OpenMls : Type := {
  MlsGroup : Type;
  OmKeyPackage : Type;
  OmMessageOut : Type;
  OmWelcome : Type;
  OmProtocol : Type;
  OmStagedWelcome : Type;
  OmStagedCommit : Type;
  om_store_signer : SignatureKeyPair → action provider unit string;
  om_read_signer : bytes → provider → option SignatureKeyPair;
  om_store_psk : PreSharedKeyId → bytes → action provider unit string;
  om_new_with_group_id : bytes → SignatureKeyPair → bytes → CredentialWithKey → action provider MlsGroup string;
  om_load : bytes → provider → result (option MlsGroup) string;
  om_members : MlsGroup → list bytes;
  om_own_signature_key : MlsGroup → option bytes;
  om_epoch : MlsGroup → Z;
  om_group_id : MlsGroup → bytes;
  om_propose_external_psk : bytes → SignatureKeyPair → PreSharedKeyId → action (provider * MlsGroup) unit string;
  om_add_members : bytes → SignatureKeyPair → OmKeyPackage →
    action (provider * MlsGroup) (OmMessageOut * OmMessageOut) string;
  om_merge_pending_commit : action (provider * MlsGroup) unit string;
  om_merge_staged_commit : OmStagedCommit → action (provider * MlsGroup) unit string;
  om_create_message : bytes → SignatureKeyPair → bytes → action (provider * MlsGroup) OmMessageOut string;
  om_self_update : bytes → SignatureKeyPair → action (provider * MlsGroup) OmMessageOut string;
  om_process_message : OmProtocol → action (provider * MlsGroup) (ProcessedContent OmStagedCommit) string;
  om_serialize : OmMessageOut → result bytes string;
  om_deserialize : bytes → result (MlsMessageBody OmWelcome OmProtocol) string;
  om_welcome_secrets : OmWelcome → list bytes;
  om_new_from_welcome : OmWelcome → action provider OmStagedWelcome string;
  om_into_group : OmStagedWelcome → action provider MlsGroup string;
  om_kp_build : bytes → SignatureKeyPair → CredentialWithKey → action provider OmKeyPackage string;
  om_kp_serialize : OmKeyPackage → result bytes string;
  om_kp_parse : bytes → result OmKeyPackage string;
  om_kp_validate : OmKeyPackage → result unit string;
  om_kp_ref : bytes → result bytes string
}.

Definition mls_error (s : string) : CoreError := Core_Mls (Mls_Other s).

(** ** [state_machine.rs] *)

Inductive GroupState : Type := Active (epoch : Z) | PendingJoin | Corrupt (reason : string).

Definition can_send (s : GroupState) : bool := match s with Active _ => true | _ => false end.
Definition can_receive (s : GroupState) : bool := match s with Active _ => true | _ => false end.
Definition is_recoverable (s : GroupState) : bool := match s with Corrupt _ => false | _ => true end.

(** [{:?}] of a state. *)
Definition debug_state (s : GroupState) : string :=
  match s with
  | Active e => "Active { epoch: " +:+ pretty e +:+ " }"
  | PendingJoin => "PendingJoin"
  | Corrupt r => "Corrupt { reason: " +:+ debug_str r +:+ " }"
  end.

(** ** [storage/groups.rs] *)

Record group_row : Type := mkGroupRow { gr_id : Z; gr_group_id : bytes; gr_state_blob : bytes; gr_epoch : Z }.
Abbreviation mls_groups := (table group_row).

(** [INSERT ... ON CONFLICT(group_id) DO UPDATE]. *)
Definition groups_put_in_tx (group_id state_blob : bytes) (epoch : Z) (t : mls_groups)
    : result (mls_groups * unit) CoreError :=
  let? epoch_i := if decide (epoch ≤ i64_max) then Ok epoch
    else Err (Core_Storage (Storage_Other "epoch overflows i64")) in
  if decide (group_id ∈ gr_group_id <$> t_rows t)
  then Ok ((t_update (λ r, gr_group_id r = group_id)
              (λ r, mkGroupRow (gr_id r) group_id state_blob epoch_i) t).1, tt)
  else Ok ((t_insert (λ i, mkGroupRow i group_id state_blob epoch_i) t).1, tt).

Definition groups_put (group_id state_blob : bytes) (epoch : Z) : action mls_groups unit CoreError :=
  λ t, transaction t (groups_put_in_tx group_id state_blob epoch).

Definition groups_get (group_id : bytes) (t : mls_groups) : option bytes :=
  gr_state_blob <$> head (filter (λ r, gr_group_id r = group_id) (t_rows t)).

Definition groups_delete_in_tx (group_id : bytes) (t : mls_groups) : mls_groups :=
  (t_delete (λ r, gr_group_id r = group_id) t).1.

(** Rows are in [id] order: ids grow and updates keep a row's place. *)
Definition groups_list (t : mls_groups) : list (bytes * Z) :=
  (λ r, (gr_group_id r, if decide (0 ≤ gr_epoch r) then gr_epoch r else 0)) <$> t_rows t.

(** ** [provider.rs] *)

Section provider.
Context {ser : Serialize provider} {de : Deserialize provider}.

Definition provider_new : provider := ∅.

Definition snapshot (p : provider) : result bytes CoreError :=
  map_err (λ e, mls_error ("mls: snapshot: cbor encode: " +:+ e)) (into_writer p).

Definition provider_load (b : bytes) : result provider CoreError :=
  map_err (λ e, mls_error ("mls: load: cbor decode: " +:+ e)) (from_reader b).
End provider.

(** ** [storage/key_packages.rs] *)

Record kp_row : Type := mkKpRow {
  kr_id : Z; kr_hash : bytes; kr_bytes : bytes; kr_direction : string; kr_consumed : Z; kr_created_at : Z
}.
Abbreviation key_packages := (table kp_row).

Definition kp_insert (now : Z) (hash b : bytes) (direction : string) : action key_packages unit CoreError := λ t,
  let refuse e := (t, Err (Core_Storage (Storage_Other ("insert key_package: " +:+ e)))) in
  if negb (bool_decide (direction = "ours") || bool_decide (direction = "theirs"))
  then refuse "CHECK constraint failed: direction IN ('ours', 'theirs')"
  else if decide (hash ∈ kr_hash <$> t_rows t) then refuse "UNIQUE constraint failed: key_packages.kp_hash"
  else ((t_insert (λ i, mkKpRow i hash b direction 0 now) t).1, Ok tt).

(** [get] and [get_in_tx]. *)
Definition kp_get (hash : bytes) (t : key_packages) : option (bytes * bool) :=
  (λ r, (kr_bytes r, bool_decide (kr_consumed r ≠ 0))) <$> head (filter (λ r, kr_hash r = hash) (t_rows t)).

(** [mark_consumed] and [mark_consumed_in_tx]. *)
Definition kp_mark_consumed (hash : bytes) (t : key_packages) : key_packages :=
  (t_update (λ r, kr_hash r = hash)
     (λ r, mkKpRow (kr_id r) (kr_hash r) (kr_bytes r) (kr_direction r) 1 (kr_created_at r)) t).1.

(** Running an OpenMLS operation on a part of the state, with the code's error. *)
Definition on_provider {T} (c : string) (f : action provider T string) : action provider T CoreError :=
  λ p, let '(p', r) := f p in (p', map_err (λ e, mls_error (c +:+ e)) r).

(** ** [key_package.rs] *)

Section key_package.
Context {om : OpenMls} {scheme : SignatureScheme} {sha : Sha256}.

Definition signer_from_identity (k : IdentityKey) : action provider SignatureKeyPair CoreError :=
  let signer := mkKeyPair (secret k) (public k) in
  let! _ := on_provider "mls: signer store: " (om_store_signer signer) in
  lift (Ok signer).

Definition credential_with_key (k : IdentityKey) (signer : SignatureKeyPair) : CredentialWithKey :=
  mkCredential (public k) (kp_public signer).

(** [KeyPackage::to_bytes] and [KeyPackage::hash]. *)
Definition kp_to_bytes (kp : OmKeyPackage) : result bytes CoreError :=
  map_err (λ e, mls_error ("mls: key_package serialize: " +:+ e)) (om_kp_serialize kp).

Definition kp_hash (kp : OmKeyPackage) : result bytes CoreError :=
  let? b := map_err (λ e, mls_error ("mls: key_package hash serialize: " +:+ e)) (om_kp_serialize kp) in
  Ok (sha256 b).

(** [KeyPackage::generate] over the provider and the repository. *)
Definition kp_generate (rng : bytes) (now : Z) (k : IdentityKey)
    : action (provider * key_packages) OmKeyPackage CoreError := λ st,
  let '(p, r) := (let! signer := signer_from_identity k in
                  on_provider "mls: key_package builder: " (om_kp_build rng signer (credential_with_key k signer)))
                   st.1 in
  match (let? kp := r in let? b := kp_to_bytes kp in Ok (kp, b)) with
  | Err e => ((p, st.2), Err e)
  | Ok (kp, b) =>
      let '(t, r) := kp_insert now (sha256 b) b "ours" st.2 in
      ((p, t), let? _ := r in Ok kp)
  end.

(** [KeyPackage::from_bytes]. *)
Definition kp_from_bytes (b : bytes) : result OmKeyPackage CoreError :=
  let? kp := map_err (λ e, mls_error ("mls: key_package deserialize: " +:+ e)) (om_kp_parse b) in
  let? _ := map_err (λ e, mls_error ("mls: key_package validate: " +:+ e)) (om_kp_validate kp) in
  Ok kp.

Definition parse_welcome_kp_hash (welcome : bytes) : result bytes CoreError :=
  let? body := map_err (λ e, mls_error ("welcome parse: deserialize: " +:+ e)) (om_deserialize welcome) in
  let? w := match body with BodyWelcome w => Ok w | _ => Err (mls_error "welcome parse: not a Welcome") end in
  match om_welcome_secrets w with
  | [] => Err (mls_error "welcome parse: empty secrets")
  | [kp_ref] =>
      if decide (len kp_ref = 32) then Ok kp_ref
      else Err (mls_error ("welcome parse: kp_ref wrong length " +:+ pretty (len kp_ref)))
  | secrets => Err (mls_error ("welcome parse: " +:+ pretty (len secrets) +:+ " secrets, only 1 supported in Phase 2"))
  end.

Definition key_package_ref (kp : OmKeyPackage) : result bytes CoreError :=
  let? b := map_err (λ e, mls_error ("kpref: serialize: " +:+ e)) (om_kp_serialize kp) in
  let? r := map_err (λ e, mls_error ("kpref: compute: " +:+ e)) (om_kp_ref b) in
  if decide (len r = 32) then Ok r else Err (mls_error ("kpref: wrong length " +:+ pretty (len r))).
End key_package.

(** ** [group.rs] *)

Record Group {om : OpenMls} : Type := mkGroup {
  g_id : bytes; g_state : GroupState; g_provider : provider; g_inner : MlsGroup
}.

Definition psk_id (label kp_ref : bytes) : PreSharedKeyId :=
  mkPskId (bytes_of_string "skattr-" ++ label ++ bytes_of_string "-v1" ++ kp_ref) kp_ref.

Definition label_invite : bytes := bytes_of_string "invite".
Definition label_htransport : bytes := bytes_of_string "htransport".

Section group.
Context {om : OpenMls} {scheme : SignatureScheme}.
Context {ser : Serialize provider} {de : Deserialize provider}.
Context {ser_env : Serialize Envelope} {de_env : Deserialize Envelope}.

Definition register_psk (label kp_ref psk : bytes) : action provider PreSharedKeyId CoreError :=
  let id := psk_id label kp_ref in
  let! _ := on_provider "mls: psk register: " (om_store_psk id psk) in
  lift (Ok id).

(** An optional [(kp_ref, secret)] pair, registered when present. *)
Definition register_opt (label : bytes) (o : option (bytes * bytes)) : action provider unit CoreError :=
  match o with
  | None => lift (Ok tt)
  | Some (kp_ref, psk) => let! _ := register_psk label kp_ref psk in lift (Ok tt)
  end.

Definition create_solo (rng gid : bytes) (k : IdentityKey) (invite_psk h_transport : option (bytes * bytes))
    : action provider Group CoreError :=
  let! signer := signer_from_identity k in
  let! inner := on_provider "mls: builder: "
    (om_new_with_group_id rng signer gid (credential_with_key k signer)) in
  let! _ := register_opt label_invite invite_psk in
  let! _ := register_opt label_htransport h_transport in
  λ p, (p, Ok (mkGroup om gid (Active 0) p inner)).

Definition own_public_key (g : MlsGroup) : result bytes CoreError :=
  ok_or (om_own_signature_key g) (mls_error "mls: own_public_key: no own leaf").

Definition load_signer (p : provider) (pk : bytes) : result SignatureKeyPair CoreError :=
  ok_or (om_read_signer pk p) (mls_error "mls: load_signer: missing signer").

(** An operation of OpenMLS, and one on the provider alone, on a [Group]. *)
Definition on_group {T} (c : string) (f : action (provider * MlsGroup) T string) : action Group T CoreError := λ g,
  let '((p, inner), r) := f (g_provider g, g_inner g) in
  (mkGroup om (g_id g) (g_state g) p inner, map_err (λ e, mls_error (c +:+ e)) r).

Definition on_group_provider {T} (f : action provider T CoreError) : action Group T CoreError := λ g,
  let '(p, r) := f (g_provider g) in (mkGroup om (g_id g) (g_state g) p (g_inner g), r).

Definition set_state (s : GroupState) (g : Group) : Group := mkGroup om (g_id g) s (g_provider g) (g_inner g).

Definition own_signer : action Group SignatureKeyPair CoreError := λ g,
  (g, let? pk := own_public_key (g_inner g) in load_signer (g_provider g) pk).

Definition propose_opt (rng : bytes) (signer : SignatureKeyPair) (label : bytes) (o : option (bytes * bytes))
    : action Group unit CoreError :=
  match o with
  | None => lift (Ok tt)
  | Some (kp_ref, psk) =>
      let! id := on_group_provider (register_psk label kp_ref psk) in
      on_group "mls: propose external psk: " (om_propose_external_psk rng signer id)
  end.

Definition is_some {A} (o : option A) : bool := match o with Some _ => true | None => false end.

Definition add_member (rng : bytes) (invitee_kp : OmKeyPackage) (invite_psk h_transport : option (bytes * bytes))
    : action Group (bytes * bytes) CoreError :=
  let! members := gets (λ g, om_members (g_inner g)) in
  let! _ := ensure (bool_decide (len members < 2)) (mls_error "mls: add_member: already 2-member") in
  let! _ := (if is_some invite_psk || is_some h_transport then
               let! signer := own_signer in
               let! _ := propose_opt rng signer label_invite invite_psk in
               propose_opt rng signer label_htransport h_transport
             else lift (Ok tt)) in
  let! signer := own_signer in
  let! out := on_group "mls: add_members: " (om_add_members rng signer invitee_kp) in
  let! _ := on_group "mls: merge_pending_commit: " om_merge_pending_commit in
  let! welcome := lift (map_err (λ e, mls_error ("mls: welcome serialize: " +:+ e)) (om_serialize out.2)) in
  let! commit := lift (map_err (λ e, mls_error ("mls: commit serialize: " +:+ e)) (om_serialize out.1)) in
  λ g, (set_state PendingJoin g, Ok (welcome, commit)).

Definition set_active (g : Group) : Group * bool :=
  match g_state g with
  | PendingJoin => (set_state (Active (om_epoch (g_inner g))) g, true)
  | _ => (g, false)
  end.

(** The signer may already be stored: that error is ignored. *)
Definition join_from_welcome (k : IdentityKey) (welcome : bytes) (invite_psk h_transport : option (bytes * bytes))
    : action provider Group CoreError := λ p,
  let p := (signer_from_identity k p).1 in
  (let! _ := register_opt label_invite invite_psk in
   let! _ := register_opt label_htransport h_transport in
   let! body := lift (map_err (λ e, mls_error ("mls: welcome deserialize: " +:+ e)) (om_deserialize welcome)) in
   let! w := lift (match body with BodyWelcome w => Ok w | _ => Err (mls_error "mls: welcome: wrong message type") end) in
   let! staged := on_provider "mls: welcome process: " (om_new_from_welcome w) in
   let! inner := on_provider "mls: welcome into_group: " (om_into_group staged) in
   λ p, (p, Ok (mkGroup om (om_group_id inner) (Active (om_epoch inner)) p inner))) p.

Definition group_encrypt (rng : bytes) (envelope : Envelope) : action Group bytes CoreError :=
  let! s := gets g_state in
  let! _ := ensure (can_send s) (mls_error ("mls: encrypt: invalid state " +:+ debug_state s)) in
  let! signer := own_signer in
  let! plaintext := lift (encode_envelope envelope) in
  let! out := on_group "mls: encrypt: " (om_create_message rng signer plaintext) in
  lift (map_err (λ e, mls_error ("mls: encrypt: serialize: " +:+ e)) (om_serialize out)).

Definition merge_staged (staged : OmStagedCommit) : action Group unit CoreError :=
  let! _ := on_group "mls: merge_staged_commit: " (om_merge_staged_commit staged) in
  λ g, (set_state (Active (om_epoch (g_inner g))) g, Ok tt).

Definition protocol_of (wrong : string) (b : MlsMessageBody OmWelcome OmProtocol) : result OmProtocol CoreError :=
  match b with BodyPrivate p | BodyPublic p => Ok p | _ => Err (mls_error wrong) end.

Definition group_decrypt (ciphertext : bytes) : action Group (option Envelope) CoreError :=
  let! s := gets g_state in
  let! _ := ensure (can_receive s) (mls_error ("mls: decrypt: invalid state " +:+ debug_state s)) in
  let! body := lift (map_err (λ e, mls_error ("mls: decrypt: deserialize: " +:+ e)) (om_deserialize ciphertext)) in
  let! m := lift (protocol_of "mls: decrypt: unsupported message type" body) in
  let! content := on_group "mls: authentication failed: " (om_process_message m) in
  match content with
  | ApplicationMessage b => let! e := lift (decode_envelope b) in lift (Ok (Some e))
  | StagedCommitMessage staged => let! _ := merge_staged staged in lift (Ok None)
  | ProposalMessage => lift (Err (mls_error "mls: decrypt: received Proposal"))
  | ExternalJoinProposalMessage => lift (Err (mls_error "mls: decrypt: received ExternalJoinProposal"))
  end.

Definition process_incoming_commit (commit : bytes) : action Group unit CoreError :=
  let! body := lift (map_err (λ e, mls_error ("mls: process_commit: deserialize: " +:+ e)) (om_deserialize commit)) in
  let! m := lift (protocol_of "mls: process_commit: wrong message type" body) in
  let! content := on_group "mls: authentication failed: " (om_process_message m) in
  match content with
  | StagedCommitMessage staged => merge_staged staged
  | _ => lift (Err (mls_error "mls: process_commit: not a Commit message"))
  end.

Definition advance_epoch (rng : bytes) : action Group bytes CoreError :=
  let! s := gets g_state in
  let! _ := ensure (can_send s) (mls_error ("mls: advance_epoch: invalid state " +:+ debug_state s)) in
  let! signer := own_signer in
  let! out := on_group "mls: self_update: " (om_self_update rng signer) in
  let! _ := on_group "mls: merge_pending_commit: " om_merge_pending_commit in
  let! b := lift (map_err (λ e, mls_error ("mls: advance_epoch: serialize: " +:+ e)) (om_serialize out)) in
  λ g, (set_state (Active (om_epoch (g_inner g))) g, Ok b).

(** [Group::save_in_tx]. *)
Definition group_save_in_tx (g : Group) (t : mls_groups) : result (mls_groups * unit) CoreError :=
  let? blob := snapshot (g_provider g) in
  groups_put_in_tx (g_id g) blob (om_epoch (g_inner g)) t.

(** [Group::save]. *)
Definition group_save (g : Group) : action mls_groups unit CoreError := λ t,
  transaction t (group_save_in_tx g).

Definition group_load (group_id : bytes) (t : mls_groups) : result (option Group) CoreError :=
  match groups_get group_id t with
  | None => Ok None
  | Some blob =>
      let? p := provider_load blob in
      let? o := map_err (λ e, mls_error ("mls: load: " +:+ e)) (om_load group_id p) in
      let? inner := ok_or o (Core_Mls Mls_GroupCorrupt) in
      Ok (Some (mkGroup om group_id (Active (om_epoch inner)) p inner))
  end.

Definition peer_identity (g : Group) : result bytes CoreError :=
  let members := om_members (g_inner g) in
  if decide (len members ≠ 2) then Err (mls_error "mls: peer_identity: group is not exactly 2-member")
  else
    let? own := ok_or (om_own_signature_key (g_inner g)) (mls_error "mls: peer_identity: no own leaf") in
    match head (filter (λ sk, sk ≠ own) members) with
    | Some sk => if decide (len sk = 32) then Ok sk
                 else Err (mls_error "mls: peer_identity: signature key not 32 bytes")
    | None => Err (mls_error "mls: peer_identity: no distinct peer member")
    end.
End group.

(** ** Lemmas *)

(** Group ids are unique, and so are row ids. *)
Record groups_wf (t : mls_groups) : Prop := {
  gw_ids : t_wf gr_id t;
  gw_seq : 0 ≤ t_seq t;
  gw_group_ids : NoDup (gr_group_id <$> t_rows t)
}.

Lemma groups_wf_empty : groups_wf empty_table.
Proof. split; [apply t_wf_empty|done|apply NoDup_nil_2]. Qed.

Lemma groups_put_spec gid blob epoch t t' :
  groups_wf t → groups_put_in_tx gid blob epoch t = Ok (t', tt) →
  groups_wf t' ∧ groups_get gid t' = Some blob ∧
  (∀ g, g ≠ gid → groups_get g t' = groups_get g t) ∧
  (∀ g, g ∈ (groups_list t').*1 ↔ g = gid ∨ g ∈ (groups_list t).*1).
Proof.
  intros [Hids Hseq Hnd]. unfold groups_put_in_tx. case_decide; [|done]. cbn [bind_result].
  assert (∀ u, (groups_list u).*1 = gr_group_id <$> t_rows u) as Hlist
    by (intros u; unfold groups_list; by rewrite <- list_fmap_compose).
  case_decide as Hin; intros [= <-]; rewrite !Hlist.
  - set (f := λ r, if decide (gr_group_id r = gid) then mkGroupRow (gr_id r) gid blob epoch else r).
    assert (∀ r, gr_group_id (f r) = gr_group_id r ∧ gr_id (f r) = gr_id r) as Hf
      by (intros r; unfold f; by case_decide).
    assert (gr_group_id <$> (f <$> t_rows t) = gr_group_id <$> t_rows t) as Hkeys.
    { rewrite <- list_fmap_compose. apply list_fmap_ext. intros i r _. apply Hf. }
    unfold t_update. cbn [fst t_rows]. change (λ r, if decide (gr_group_id r = gid) then _ else r) with f.
    split_and!.
    + split; [apply t_wf_map; [done|apply Hf]|done|]. cbn [t_rows]. by rewrite Hkeys.
    + unfold groups_get. cbn [t_rows]. rewrite head_filter_fmap by (intros r; by rewrite (proj1 (Hf r))).
      apply list_elem_of_fmap in Hin as (r & -> & Hr). rewrite (filter_key gr_group_id _ r Hnd Hr).
      simpl. unfold f. by rewrite decide_True.
    + intros g Hg. unfold groups_get. cbn [t_rows].
      rewrite filter_update; [done|]. intros r _. rewrite (proj1 (Hf r)). split; [done|].
      intros Heq. unfold f. rewrite decide_False; [done|]. congruence.
    + intros g. rewrite Hkeys. split; [by right|]. intros [->|]; done.
  - unfold t_insert. cbn [fst t_rows]. split_and!.
    + split; [by apply (t_wf_insert gr_id (λ i, mkGroupRow i gid blob epoch))|simpl; lia|].
      cbn [t_rows]. rewrite fmap_app. apply NoDup_app. split_and!; [done| |apply NoDup_singleton].
      intros x Hx ->%list_elem_of_singleton. by apply Hin.
    + unfold groups_get. cbn [t_rows]. rewrite filter_app.
      rewrite (filter_none (λ r, gr_group_id r = gid) (t_rows t)).
      2:{ intros r Hr Heq. apply Hin. rewrite <- Heq. by apply list_elem_of_fmap_2. }
      rewrite filter_cons_True by done. done.
    + intros g Hg. unfold groups_get. cbn [t_rows]. rewrite filter_app, filter_cons_False, app_nil_r by (simpl; congruence).
      done.
    + intros g. rewrite fmap_app, elem_of_app. cbn [fmap list_fmap]. cbn. rewrite list_elem_of_singleton. tauto.
Qed.

Section group_facts.
Context {om : OpenMls} {scheme : SignatureScheme}.
Context {ser_env : Serialize Envelope} {de_env : Deserialize Envelope}.
Context {ser : Serialize provider} {de : Deserialize provider}.

(** An OpenMLS call and the wrapper around it keep the lifecycle state. *)
Lemma on_group_state {T} (c : string) (f : action (provider * MlsGroup) T string) (g : Group) :
  g_state (on_group c f g).1 = g_state g ∧ g_id (on_group c f g).1 = g_id g.
Proof. unfold on_group. by destruct (f _) as [[p i] r]. Qed.

(** What a successful [add_member] leaves behind. *)
Lemma add_member_pending rng kp ipsk ht g g' out :
  add_member rng kp ipsk ht g = (g', Ok out) → g_state g' = PendingJoin.
Proof.
  unfold add_member. repeat (intros (? & ? & ? & H)%bind_action_Ok; revert H). by intros [= <- _].
Qed.

(** A loaded group is active, and the one its provider holds. *)
Lemma group_load_Ok gid t g :
  group_load gid t = Ok (Some g) →
  g = mkGroup om gid (Active (om_epoch (g_inner g))) (g_provider g) (g_inner g) ∧
  om_load gid (g_provider g) = Ok (Some (g_inner g)).
Proof.
  unfold group_load. destruct (groups_get gid t) as [blob|]; [|done].
  intros (p & _ & H)%bind_Ok_inv. apply bind_Ok_inv in H as (o & Ho & H). apply bind_Ok_inv in H as (inner & Hi & [= <-]).
  split; [done|]. cbn. destruct (om_load gid p) as [x|]; [|done]. injection Ho as ->. destruct o; [|done]. by injection Hi as ->.
Qed.

Context {law : CborRoundtrip provider}.

Lemma group_save_load g t t' :
  groups_wf t → om_load (g_id g) (g_provider g) = Ok (Some (g_inner g)) →
  group_save g t = (t', Ok tt) →
  groups_wf t' ∧
  group_load (g_id g) t' = Ok (Some (set_state (Active (om_epoch (g_inner g))) g)) ∧
  ∀ gid, gid ≠ g_id g → group_load gid t' = group_load gid t.
Proof.
  intros Hwf Hload Hs. apply transaction_Ok in Hs. unfold group_save_in_tx in Hs.
  apply bind_Ok_inv in Hs as (blob & Hblob & Hput).
  destruct (groups_put_spec _ _ _ _ _ Hwf Hput) as (Hwf' & Hget & Hother & _).
  split_and!; [done| |].
  - unfold group_load. rewrite Hget. unfold provider_load, snapshot in *.
    destruct (into_writer (g_provider g)) as [b|e] eqn:E; [|done]. injection Hblob as <-.
    rewrite (from_into _ _ E). cbn [map_err bind_result]. rewrite Hload. done.
  - intros gid Hne. unfold group_load. by rewrite Hother.
Qed.
End group_facts.
