(* ===== verification/Samples.v ===== *)
(** * Samples: concrete instances of the interfaces to third-party code

    The models take the signature scheme, the hash functions, CBOR and OpenMLS as
    parameters.  This file gives one instance of each, simple enough to evaluate:
    none of it models code of the repository, and none of it is secure.  The
    witnesses of the theorems use it to run the modelled code on concrete data. *)

From S2P Require Import Prelude Text Framing SimpleCodec CoreErrors Sql MailboxProtocol Identity Messages Attachments Mls.

(** ** Keys and hashes *)

Definition pad (n : nat) (b : bytes) : bytes := take n (b ++ fill n Byte.x00).

Lemma len_pad n b : len (pad n b) = Z.of_nat n.
Proof. unfold pad, len, fill. rewrite length_take, length_app, length_replicate. lia. Qed.

(** A signature is the beginning of the signed text, a key its own X25519 key. *)
Definition sample_scheme : SignatureScheme := {|
  to_montgomery pk := pk;
  verifying_key sk := pad 32 sk;
  sign_bytes sk m := pad 64 (m ++ pad 32 sk);
  key_on_curve pk := bool_decide (len pk = 32);
  verify_strict pk m s := bool_decide (s = pad 64 (m ++ pk))
|}.

Lemma sample_scheme_laws : @SignatureLaws sample_scheme.
Proof. split; intros; apply bool_decide_eq_true_2; [apply len_pad|done]. Qed.

(** The last bytes of the text. *)
Definition sample_sha : Sha256 := λ b, pad 32 (reverse b).

(** ** Encodings *)

#[local] Existing Instance codec_contact_card.
Definition codec_card_body : Codec ContactCardBody :=
  codec_via (λ b, (card_identity b, card_onion b, card_mailboxes b, card_version b, card_expires_at b))
    (λ v, Some (mkContactCardBody v.1.1.1.1 v.1.1.1.2 v.1.1.2 v.1.2 v.2))
    (λ '(mkContactCardBody _ _ _ _ _), eq_refl).

Definition codec_chunk_ref : Codec ChunkRef :=
  codec_via (λ c, (cr_index c, cr_ciphertext_hash c, cr_len c)) (λ v, Some (mkChunkRef v.1.1 v.1.2 v.2))
    (λ '(mkChunkRef _ _ _), eq_refl).
#[local] Existing Instance codec_chunk_ref.
Definition codec_manifest : Codec AttachmentManifest :=
  codec_via (λ m, (manifest_version m, attachment_id m, filename m, mime m, total_size m, chunk_size m, file_key m, chunks m))
    (λ v, Some (mkManifest v.1.1.1.1.1.1.1 v.1.1.1.1.1.1.2 v.1.1.1.1.1.2 v.1.1.1.1.2 v.1.1.1.2 v.1.1.2 v.1.2 v.2))
    (λ '(mkManifest _ _ _ _ _ _ _ _), eq_refl).

Lemma map_list_roundtrip (p : provider) : Some (list_to_map (M := provider) (map_to_list p)) = Some p.
Proof. by rewrite list_to_map_to_list. Qed.
Definition codec_provider : Codec provider :=
  codec_via (A := provider) map_to_list (λ l, Some (list_to_map l)) map_list_roundtrip.

(** ** A group protocol without secrecy *)

(** A group is written through to the provider; [sg_psks] are the proposed keys
    and [sg_pending] the members of a commit that is not merged. *)
Record sample_mls_group : Type := mkSampleGroup {
  sg_id : bytes; sg_own : bytes; sg_members : list bytes; sg_epoch : Z; sg_sent : Z; sg_received : Z;
  sg_psks : list bytes; sg_pending : list bytes
}.
Definition codec_group : Codec sample_mls_group :=
  codec_via (λ g, (sg_id g, sg_own g, sg_members g, sg_epoch g, sg_sent g, sg_received g, sg_psks g, sg_pending g))
    (λ v, Some (mkSampleGroup v.1.1.1.1.1.1.1 v.1.1.1.1.1.1.2 v.1.1.1.1.1.2 v.1.1.1.1.2 v.1.1.1.2 v.1.1.2 v.1.2 v.2))
    (λ '(mkSampleGroup _ _ _ _ _ _ _ _), eq_refl).
#[local] Existing Instance codec_group.

(** A Welcome names the key package it is for and the keys it is bound to. *)
Record sample_welcome : Type := mkSampleWelcome {
  sw_kp_ref : bytes; sw_group : bytes; sw_members : list bytes; sw_psks : list (bytes * bytes)
}.
Inductive sample_protocol : Type :=
| SampleApplication (group : bytes) (epoch seq : Z) (payload : bytes)
| SampleCommit (group : bytes) (epoch : Z).
Inductive sample_out : Type := OutWelcome (w : sample_welcome) | OutProtocol (p : sample_protocol).

Definition codec_out : Codec sample_out.
Proof.
  refine (codec_via
    (λ o, match o with
      | OutWelcome w => (0, [sw_kp_ref w; sw_group w], 0, 0, (sw_members w, sw_psks w))
      | OutProtocol (SampleApplication g e s p) => (1, [g; p], e, s, ([], []))
      | OutProtocol (SampleCommit g e) => (2, [g], e, 0, ([], [])) end)
    (λ v, match v with
      | (0, [k; g], _, _, (m, ps)) => Some (OutWelcome (mkSampleWelcome k g m ps))
      | (1, [g; p], e, s, _) => Some (OutProtocol (SampleApplication g e s p))
      | (2, [g], e, _, _) => Some (OutProtocol (SampleCommit g e))
      | _ => None end) _).
  by intros [[]|[]].
Defined.
#[local] Existing Instance codec_out.

(** The keys of the provider. *)
Definition k_signer (pk : bytes) : bytes := Byte.x73 :: pk.
Definition k_psk (id : bytes) : bytes := Byte.x70 :: id.
Definition k_group (gid : bytes) : bytes := Byte.x67 :: gid.
Definition k_package (r : bytes) : bytes := Byte.x6b :: r.

Definition put_group (g : sample_mls_group) (p : provider) : provider := <[k_group (sg_id g) := enc g]> p.
Definition update_group (f : sample_mls_group → sample_mls_group) : action (provider * sample_mls_group) unit string :=
  λ '(p, g), ((put_group (f g) p, f g), Ok tt).

(** A key package is its owner's key and a nonce, known by the nonce. *)
Definition package_ref (b : bytes) : bytes := pad 32 (drop 32 b).

Definition sample_add (p : provider) (g : sample_mls_group) (kp : bytes) : provider * sample_mls_group * sample_welcome :=
  let psks := omap (λ id, (λ v, (id, v)) <$> p !! k_psk id) (sg_psks g) in
  let members := sg_members g ++ [take 32 kp] in
  let g' := mkSampleGroup (sg_id g) (sg_own g) (sg_members g) (sg_epoch g) (sg_sent g) (sg_received g) [] members in
  (put_group g' p, g', mkSampleWelcome (package_ref kp) (sg_id g) members psks).

(** Commits and application messages are those of the group's epoch, and a
    message is accepted once. *)
Definition sample_process (m : sample_protocol) : action (provider * sample_mls_group) (ProcessedContent unit) string :=
  λ '(p, g), match m with
  | SampleApplication gid epoch seq payload =>
      if decide (gid = sg_id g ∧ epoch = sg_epoch g ∧ sg_received g ≤ seq) then
        let g' := mkSampleGroup (sg_id g) (sg_own g) (sg_members g) (sg_epoch g) (sg_sent g) (seq + 1) (sg_psks g)
          (sg_pending g) in
        ((put_group g' p, g'), Ok (ApplicationMessage payload))
      else ((p, g), Err "decryption failed")
  | SampleCommit gid epoch =>
      if decide (gid = sg_id g ∧ epoch = sg_epoch g) then ((p, g), Ok (StagedCommitMessage tt))
      else ((p, g), Err "wrong epoch")
  end.

Definition next_epoch (members : list bytes) (g : sample_mls_group) : sample_mls_group :=
  mkSampleGroup (sg_id g) (sg_own g) members (sg_epoch g + 1) 0 0 (sg_psks g) [].

(** The joiner has the private key of the package and every bound key. *)
Definition sample_join (w : sample_welcome) (p : provider) : result sample_mls_group string :=
  match p !! k_package (sw_kp_ref w) with
  | None => Err "no matching key package"
  | Some own =>
      if forallb (λ '(id, v), bool_decide (p !! k_psk id = Some v)) (sw_psks w)
      then Ok (mkSampleGroup (sw_group w) own (sw_members w) 1 0 0 [] [])
      else Err "psk not found"
  end.

Definition sample_mls : OpenMls := {|
  MlsGroup := sample_mls_group; OmKeyPackage := bytes; OmMessageOut := sample_out; OmWelcome := sample_welcome;
  OmProtocol := sample_protocol; OmStagedWelcome := sample_mls_group; OmStagedCommit := unit;
  om_store_signer s p := (<[k_signer (kp_public s) := kp_private s]> p, Ok tt);
  om_read_signer pk p := (λ sk, mkKeyPair sk pk) <$> p !! k_signer pk;
  om_store_psk id psk p := (<[k_psk (psk_identifier id) := psk]> p, Ok tt);
  om_new_with_group_id _ signer gid cred p :=
    let g := mkSampleGroup gid (kp_public signer) [kp_public signer] 0 0 0 [] [] in (put_group g p, Ok g);
  om_load gid p :=
    match p !! k_group gid with
    | None => Ok None
    | Some b =>
        match dec b with
        | Some (g, _) => if decide (sg_id g = gid) then Ok (Some g) else Err "other group"
        | None => Err "corrupt group"
        end
    end;
  om_members := sg_members;
  om_own_signature_key g := Some (sg_own g);
  om_epoch := sg_epoch;
  om_group_id := sg_id;
  om_propose_external_psk _ _ id :=
    update_group (λ g, mkSampleGroup (sg_id g) (sg_own g) (sg_members g) (sg_epoch g) (sg_sent g) (sg_received g)
      (sg_psks g ++ [psk_identifier id]) (sg_pending g));
  om_add_members _ _ kp := λ '(p, g),
    let '(p', g', w) := sample_add p g kp in
    ((p', g'), Ok (OutProtocol (SampleCommit (sg_id g) (sg_epoch g)), OutWelcome w));
  om_merge_pending_commit := update_group (λ g, next_epoch (sg_pending g) g);
  om_merge_staged_commit _ := update_group (λ g, next_epoch (sg_members g) g);
  om_create_message _ _ payload := λ '(p, g),
    let g' := mkSampleGroup (sg_id g) (sg_own g) (sg_members g) (sg_epoch g) (sg_sent g + 1) (sg_received g)
      (sg_psks g) (sg_pending g) in
    ((put_group g' p, g'), Ok (OutProtocol (SampleApplication (sg_id g) (sg_epoch g) (sg_sent g) payload)));
  om_self_update _ _ := λ '(p, g),
    let g' := mkSampleGroup (sg_id g) (sg_own g) (sg_members g) (sg_epoch g) (sg_sent g) (sg_received g) (sg_psks g)
      (sg_members g) in
    ((put_group g' p, g'), Ok (OutProtocol (SampleCommit (sg_id g) (sg_epoch g))));
  om_process_message := sample_process;
  om_serialize o := Ok (enc o);
  om_deserialize b :=
    match dec b with
    | Some (OutWelcome w, []) => Ok (BodyWelcome w)
    | Some (OutProtocol m, []) => Ok (BodyPrivate m)
    | _ => Err "malformed message"
    end;
  om_welcome_secrets w := [sw_kp_ref w];
  om_new_from_welcome w p := (p, sample_join w p);
  om_into_group g p := (put_group g p, Ok g);
  om_kp_build rng signer _ p :=
    let kp := kp_public signer ++ rng in (<[k_package (package_ref kp) := kp_public signer]> p, Ok kp);
  om_kp_serialize kp := Ok kp;
  om_kp_parse b := Ok b;
  om_kp_validate kp := if decide (32 ≤ len kp) then Ok tt else Err "short key package";
  om_kp_ref b := Ok (package_ref b)
|}.
