(* ===== verification/Invites.v ===== *)
(** * Invites: invite links and the inviter's outstanding invites

    [crates/core/src/invite/link.rs], whose links carry a signed card, a
    single-use key package and a one-time secret, and the table of
    [crates/core/src/storage/outstanding_invites.rs].  The [base64] crate is the
    class [Base64Url]. *)

From S2P Require Import Prelude Text Framing SimpleCodec CoreErrors Sql MailboxProtocol Identity Messages Mls.

(** The [URL_SAFE_NO_PAD] engine of [base64]. *)
Class Base64Url : Type := {
  b64_encode : bytes → string;
  b64_decode : string → option bytes
}.

(** [A-Z], [a-z], [0-9], [-] and [_]. *)
Definition is_b64url (a : Ascii.ascii) : bool :=
  let n := Ascii.nat_of_ascii a in
  ((65 <=? n)%nat && (n <=? 90)%nat) || ((97 <=? n)%nat && (n <=? 122)%nat)
  || ((48 <=? n)%nat && (n <=? 57)%nat) || (n =? 45)%nat || (n =? 95)%nat.

Class Base64UrlLaws {b64 : Base64Url} : Prop := {
  b64_roundtrip b : b64_decode (b64_encode b) = Some b;
  b64_alphabet b : string_forall is_b64url (b64_encode b) = true
}.

(** Ed25519 signatures have 64 bytes. *)
Class SignatureLength {scheme : SignatureScheme} : Prop := {
  signature_length sk m : len (sign_bytes sk m) = 64
}.

Definition URL_PREFIX : string := "skattr://invite/v1#".
Definition ampersand : Ascii.ascii := Ascii.ascii_of_nat 38.
Definition equals_sign : Ascii.ascii := Ascii.ascii_of_nat 61.

Record InviteLinkBody : Type := mkInviteBody {
  il_card : ContactCard; il_key_package : bytes; il_psk : bytes; il_expires_at : Z
}.

(** [link_psk] is the [InvitePsk] guard. *)
Record InviteLink : Type := mkInviteLink { link_body : InviteLinkBody; link_signature : bytes; link_psk : bytes }.

(** The [key=value] pairs seen so far. *)
Record link_fields : Type := mkFields {
  f_card : option string; f_kp : option string; f_psk : option string; f_exp : option string; f_sig : option string
}.

Definition invite_error (s : string) : CoreError := Core_Invite (Invite_Other s).

(** One step of the loop over the pairs: a later pair with the same key wins. *)
Definition take_pair (f : link_fields) (pair : string) : link_fields :=
  let '(key, value) := split_first equals_sign pair in
  if decide (key = "card") then mkFields (Some value) (f_kp f) (f_psk f) (f_exp f) (f_sig f)
  else if decide (key = "kp") then mkFields (f_card f) (Some value) (f_psk f) (f_exp f) (f_sig f)
  else if decide (key = "psk") then mkFields (f_card f) (f_kp f) (Some value) (f_exp f) (f_sig f)
  else if decide (key = "exp") then mkFields (f_card f) (f_kp f) (f_psk f) (Some value) (f_sig f)
  else if decide (key = "sig") then mkFields (f_card f) (f_kp f) (f_psk f) (f_exp f) (Some value)
  else f.

Definition no_fields : link_fields := mkFields None None None None None.
Definition parse_fields (fragment : string) : link_fields :=
  foldl take_pair no_fields (split_on ampersand fragment).

Section links.
Context {b64 : Base64Url} {scheme : SignatureScheme} {sha : Sha256}.
Context {ser_body : Serialize InviteLinkBody} {ser_card : Serialize ContactCard} {de_card : Deserialize ContactCard}.

Definition encode_b64url (b : bytes) : string := b64_encode b.
Definition decode_b64url (s : string) : option bytes := b64_decode (trim_end_matches equals_sign s).

(** [InviteLink::generate]. *)
Definition generate (inviter : IdentityKey) (card : ContactCard) (key_package psk : bytes) (ttl_secs now : Z)
    : result InviteLink CoreError :=
  if decide (card_identity (card_body card) ≠ public inviter) then Err (invite_error "card identity != inviter")
  else
    let? ttl := if decide (ttl_secs ≤ i64_max) then Ok ttl_secs else Err (invite_error "ttl overflows i64") in
    let? expires_at := if decide (i64_min ≤ now + ttl ≤ i64_max) then Ok (now + ttl)
                       else Err (invite_error "expires_at overflows i64") in
    let body := mkInviteBody card key_package psk expires_at in
    let? signature := map_err (λ e, invite_error ("sign: " +:+ display e)) (sign_cbor inviter body) in
    Ok (mkInviteLink body signature psk).

(** [decode_b64url] of a field that must have [n] bytes. *)
Definition decode_sized (n : Z) (e : CoreError) (s : string) : result bytes CoreError :=
  let? b := ok_or (decode_b64url s) e in
  if decide (len b = n) then Ok b else Err e.

(** [InviteLink::from_url]. *)
Definition from_url (url : string) (now : Z) : result InviteLink CoreError :=
  let? fragment := ok_or (strip_prefix URL_PREFIX url) (invite_error "unsupported scheme") in
  let f := parse_fields fragment in
  let? kp_str := ok_or (f_kp f) (invite_error "missing field kp") in
  let? psk_str := ok_or (f_psk f) (invite_error "missing field psk") in
  let? exp_str := ok_or (f_exp f) (invite_error "missing field exp") in
  let? sig_str := ok_or (f_sig f) (invite_error "missing field sig") in
  let? key_package := ok_or (decode_b64url kp_str) (invite_error "malformed kp") in
  let? psk := decode_sized 32 (invite_error "malformed psk") psk_str in
  let? expires_at := ok_or (parse_i64 exp_str) (invite_error "malformed exp") in
  let? signature := decode_sized 64 (invite_error "malformed sig") sig_str in
  let? card_str := ok_or (f_card f) (invite_error "missing field card") in
  let? card_blob := ok_or (decode_b64url card_str) (invite_error "malformed card") in
  let? card := map_err (λ e, invite_error ("card decode: " +:+ e)) (from_reader card_blob) in
  let body := mkInviteBody card key_package psk expires_at in
  let? _ := map_err (λ _, Core_Invite Invite_SignatureInvalid)
    (verify_cbor (card_identity (card_body card)) body signature) in
  if decide (now > expires_at) then Err (Core_Invite Invite_Expired)
  else Ok (mkInviteLink (mkInviteBody card key_package (fill 32 Byte.x00) expires_at) signature psk).

(** [InviteLink::to_url]. *)
Definition to_url (l : InviteLink) : result string CoreError :=
  let? card_blob := map_err (λ e, invite_error ("card cbor: " +:+ e)) (into_writer (il_card (link_body l))) in
  Ok (URL_PREFIX +:+ "card=" +:+ encode_b64url card_blob +:+ "&kp=" +:+ encode_b64url (il_key_package (link_body l))
      +:+ "&psk=" +:+ encode_b64url (link_psk l) +:+ "&exp=" +:+ pretty (il_expires_at (link_body l))
      +:+ "&sig=" +:+ encode_b64url (link_signature l)).

(** [InviteLink::kp_hash]. *)
Definition link_kp_hash (l : InviteLink) : bytes := sha256 (il_key_package (link_body l)).

(** [InviteLink::record_received]. *)
Definition record_received (now : Z) (l : InviteLink) : action key_packages unit CoreError := λ t,
  match kp_get (link_kp_hash l) t with
  | Some _ => (t, Ok tt)
  | None => kp_insert now (link_kp_hash l) (il_key_package (link_body l)) "theirs" t
  end.

(** [is_consumed] and [is_consumed_in_tx]. *)
Definition is_consumed (l : InviteLink) (t : key_packages) : bool :=
  match kp_get (link_kp_hash l) t with Some (_, consumed) => consumed | None => false end.

(** [mark_consumed_in_tx]. *)
Definition mark_consumed_in_tx (l : InviteLink) (t : key_packages) : result (key_packages * unit) CoreError :=
  match kp_get (link_kp_hash l) t with
  | None => Err (invite_error "unknown: not recorded")
  | Some _ => Ok (kp_mark_consumed (link_kp_hash l) t, tt)
  end.

(** [mark_consumed]. *)
Definition mark_consumed (l : InviteLink) : action key_packages unit CoreError := λ t,
  match kp_get (link_kp_hash l) t with
  | None => (t, Err (invite_error "unknown: not recorded"))
  | Some _ => (kp_mark_consumed (link_kp_hash l) t, Ok tt)
  end.
End links.

(** ** [storage/outstanding_invites.rs] *)

Record oi_row : Type := mkOiRow {
  oi_kp_hash : bytes; oi_psk : bytes; oi_inviter_kp : bytes; oi_provider_snapshot : option bytes;
  oi_expires_at : Z; oi_created_at : Z; oi_nickname : option string
}.
Abbreviation outstanding_invites := (list oi_row).

(** [INSERT OR REPLACE] on the primary key. *)
Definition oi_replace (r : oi_row) (l : outstanding_invites) : outstanding_invites :=
  filter (λ r', oi_kp_hash r' ≠ oi_kp_hash r) l ++ [r].

(** [put]: the columns it does not name become [NULL]. *)
Definition oi_put (kp_hash psk inviter_kp : bytes) (expires_at created_at : Z)
    : outstanding_invites → outstanding_invites :=
  oi_replace (mkOiRow kp_hash psk inviter_kp None expires_at created_at None).

(** [put_with_provider]. *)
Definition oi_put_with_provider (kp_hash psk inviter_kp provider_snapshot : bytes) (expires_at created_at : Z)
    (nickname : option string) : outstanding_invites → outstanding_invites :=
  oi_replace (mkOiRow kp_hash psk inviter_kp (Some provider_snapshot) expires_at created_at nickname).

(** [UPDATE outstanding_invites SET psk = zeroblob(32) WHERE P]. *)
Definition oi_zeroize (P : oi_row → Prop) `{!∀ r, Decision (P r)} (l : outstanding_invites) : outstanding_invites :=
  (λ r, if decide (P r) then mkOiRow (oi_kp_hash r) (fill 32 Byte.x00) (oi_inviter_kp r) (oi_provider_snapshot r)
                               (oi_expires_at r) (oi_created_at r) (oi_nickname r) else r) <$> l.

(** [mark_consumed] and [mark_consumed_in_tx]. *)
Definition oi_mark_consumed (kp_ref : bytes) (l : outstanding_invites) : outstanding_invites :=
  filter (λ r, oi_kp_hash r ≠ kp_ref) (oi_zeroize (λ r, oi_kp_hash r = kp_ref) l).

(** [purge_expired], with the number of rows deleted. *)
Definition oi_purge_expired (now : Z) (l : outstanding_invites) : outstanding_invites * Z :=
  let l' := oi_zeroize (λ r, oi_expires_at r < now) l in
  (filter (λ r, ¬ oi_expires_at r < now) l', len (filter (λ r, oi_expires_at r < now) l')).

Definition oi_find (kp_ref : bytes) (l : outstanding_invites) : option oi_row :=
  head (filter (λ r, oi_kp_hash r = kp_ref) l).

Definition oi_psk_checked (r : oi_row) : result bytes CoreError :=
  if decide (len (oi_psk r) = 32) then Ok (oi_psk r)
  else Err (Core_Storage (Storage_Other ("oi: psk wrong length: " +:+ pretty (len (oi_psk r))))).

(** [get_psk_and_kp_bytes]. *)
Definition oi_get_psk_and_kp_bytes (kp_ref : bytes) (l : outstanding_invites)
    : result (option (bytes * bytes * option bytes * Z * option string)) CoreError :=
  match oi_find kp_ref l with
  | None => Ok None
  | Some r => let? psk := oi_psk_checked r in
              Ok (Some (psk, oi_inviter_kp r, oi_provider_snapshot r, oi_expires_at r, oi_nickname r))
  end.

(** [get_psk]. *)
Definition oi_get_psk (kp_ref : bytes) (l : outstanding_invites) : result (option (bytes * Z)) CoreError :=
  match oi_find kp_ref l with
  | None => Ok None
  | Some r => let? psk := oi_psk_checked r in Ok (Some (psk, oi_expires_at r))
  end.

(** ** Lemmas *)

Lemma take_pair_app f k v : without equals_sign k = true →
  take_pair f (k +:+ String equals_sign v) =
    if decide (k = "card") then mkFields (Some v) (f_kp f) (f_psk f) (f_exp f) (f_sig f)
    else if decide (k = "kp") then mkFields (f_card f) (Some v) (f_psk f) (f_exp f) (f_sig f)
    else if decide (k = "psk") then mkFields (f_card f) (f_kp f) (Some v) (f_exp f) (f_sig f)
    else if decide (k = "exp") then mkFields (f_card f) (f_kp f) (f_psk f) (Some v) (f_sig f)
    else if decide (k = "sig") then mkFields (f_card f) (f_kp f) (f_psk f) (f_exp f) (Some v)
    else f.
Proof. intros Hk. unfold take_pair. by rewrite split_first_app. Qed.

(** One [key=value&] of a fragment. *)
Lemma fragment_step f k v rest :
  without equals_sign k = true → without ampersand k = true → without ampersand v = true →
  foldl take_pair f (split_on ampersand (k +:+ String equals_sign (v +:+ String ampersand rest))) =
  foldl take_pair (take_pair f (k +:+ String equals_sign v)) (split_on ampersand rest).
Proof.
  intros Hk Hk' Hv.
  replace (k +:+ String equals_sign (v +:+ String ampersand rest))
    with ((k +:+ String equals_sign v) +:+ String ampersand rest) by apply string_app_assoc.
  rewrite split_on_app; [done|]. unfold without in *. rewrite string_forall_app, Hk'. simpl. done.
Qed.

Lemma parse_printed_fields c k p e s :
  without ampersand c = true → without ampersand k = true → without ampersand p = true →
  without ampersand e = true → without ampersand s = true →
  parse_fields ("card=" +:+ c +:+ "&kp=" +:+ k +:+ "&psk=" +:+ p +:+ "&exp=" +:+ e +:+ "&sig=" +:+ s)
  = mkFields (Some c) (Some k) (Some p) (Some e) (Some s).
Proof.
  intros Hc Hk Hp He Hs. unfold parse_fields.
  etrans; [exact (fragment_step no_fields "card" c _ eq_refl eq_refl Hc)|].
  etrans; [exact (fragment_step _ "kp" k _ eq_refl eq_refl Hk)|].
  etrans; [exact (fragment_step _ "psk" p _ eq_refl eq_refl Hp)|].
  etrans; [exact (fragment_step _ "exp" e _ eq_refl eq_refl He)|].
  rewrite split_on_last by exact Hs. cbn [foldl].
  rewrite (take_pair_app no_fields "card" c eq_refl), (take_pair_app _ "kp" k eq_refl),
    (take_pair_app _ "psk" p eq_refl), (take_pair_app _ "exp" e eq_refl).
  etrans; [exact (take_pair_app _ "sig" s eq_refl)|]. reflexivity.
Qed.

Lemma b64url_without s :
  string_forall is_b64url s = true → without ampersand s = true ∧ without equals_sign s = true.
Proof.
  intros Hs. split; (eapply string_forall_impl; [|exact Hs]);
    intros a Ha; apply negb_true_iff, bool_decide_eq_false; intros ->; vm_compute in Ha; done.
Qed.

Section link_facts.
Context {b64 : Base64Url} {blaws : Base64UrlLaws} {scheme : SignatureScheme}.
Context {ser_body : Serialize InviteLinkBody} {ser_card : Serialize ContactCard} {de_card : Deserialize ContactCard}.

Lemma b64url_decode_encode b : decode_b64url (encode_b64url b) = Some b.
Proof.
  unfold decode_b64url, encode_b64url. destruct (b64url_without _ (b64_alphabet b)) as [_ H].
  by rewrite (trim_end_matches_id _ _ H), b64_roundtrip.
Qed.

Lemma encode_without b : without ampersand (encode_b64url b) = true.
Proof. apply (b64url_without _ (b64_alphabet b)). Qed.

Lemma exp_without (z : Z) : without ampersand (pretty z) = true.
Proof.
  eapply string_forall_impl; [|apply pretty_Z_chars]. intros a Ha.
  apply negb_true_iff, bool_decide_eq_false. intros ->. vm_compute in Ha. done.
Qed.

Lemma generate_Ok {laws : SignatureLaws} inviter card kp psk ttl now l :
  generate inviter card kp psk ttl now = Ok l →
  in_i64 (now + ttl) ∧ link_psk l = psk ∧ link_body l = mkInviteBody card kp psk (now + ttl) ∧
  card_identity (card_body card) = public inviter ∧
  (∃ m, link_signature l = sign_bytes (secret inviter) m) ∧
  verify_cbor (public inviter) (link_body l) (link_signature l) = Ok tt.
Proof.
  unfold generate. case_decide as Hid; [done|]. case_decide; [|done]. cbn [bind_result].
  case_decide; [|done]. cbn [bind_result]. unfold sign_cbor, verify_cbor.
  destruct (into_writer _) as [m|e] eqn:E; [|done]. cbn. intros [= <-]. cbn. rewrite E. cbn.
  split_and!; [done..|eauto|]. unfold verify, public, sign. by rewrite own_key_valid, own_signature_verifies.
Qed.

(** C30: an invite survives its URL.  The link an identity generates and prints
    parses, for anyone with the URL and until it expires, to the same card, key
    package, secret, expiry and signature, the secret only in its guarded copy;
    after the expiry the parser refuses it as expired. *)
Theorem invite_roundtrip {laws : SignatureLaws} {slen : SignatureLength} {law : CborRoundtrip ContactCard}
    inviter card kp psk ttl now now' l url :
  generate inviter card kp psk ttl now = Ok l → len psk = 32 → to_url l = Ok url →
  from_url url now' =
    if decide (now' ≤ now + ttl)
    then Ok (mkInviteLink (mkInviteBody card kp (fill 32 Byte.x00) (now + ttl)) (link_signature l) psk)
    else Err (Core_Invite Invite_Expired).
Proof.
  intros (Hexp & Hpsk & Hb & Hid & [m Hsig] & Hver)%generate_Ok Hlen Hurl.
  unfold to_url in Hurl. apply bind_Ok_inv in Hurl as (blob & Hblob & [= <-]). rewrite Hb in *. cbn in Hblob.
  cbn [link_body il_card il_key_package il_expires_at] in *.
  destruct (into_writer card) as [cb|] eqn:Ecb; [|done]. injection Hblob as <-.
  unfold from_url. rewrite strip_prefix_app. cbn [ok_or bind_result].
  rewrite (parse_printed_fields _ _ _ _ _ (encode_without cb) (encode_without kp) (encode_without _)
             (exp_without (now + ttl)) (encode_without _)).
  cbn [f_card f_kp f_psk f_exp f_sig ok_or bind_result]. unfold decode_sized.
  rewrite !b64url_decode_encode, parse_i64_pretty by done. cbn [ok_or bind_result].
  rewrite decide_True by (by rewrite Hpsk). cbn [bind_result].
  rewrite decide_True by (rewrite Hsig; apply signature_length). cbn [bind_result].
  rewrite (from_into _ _ Ecb). cbn [map_err bind_result]. rewrite Hpsk, Hid, Hver. cbn [map_err bind_result].
  repeat case_decide; done || lia.
Qed.

(** Parsing looks at the clock for the expiry only. *)
Lemma from_url_later url now now' l :
  from_url url now = Ok l →
  from_url url now' = if decide (now' > il_expires_at (link_body l)) then Err (Core_Invite Invite_Expired) else Ok l.
Proof.
  unfold from_url. repeat (let x := fresh "x" in intros (x & -> & H)%bind_Ok_inv; cbn [bind_result]; revert H).
  case_decide; [done|]. by intros [= <-].
Qed.

(** Only signed, unexpired invites parse.  Whatever the text, an accepted
    link's card, key package, secret and expiry are exactly what its signature
    covers under the identity of its own card; it has not expired, its secret has
    32 bytes, and the body holds no copy of the secret.  No field of a link can
    thus be changed, dropped or replaced by a repeated one without a signature of
    the inviter on the result. *)
Theorem invite_authentic url now l :
  from_url url now = Ok l →
  let body := link_body l in
  verify_cbor (card_identity (card_body (il_card body)))
    (mkInviteBody (il_card body) (il_key_package body) (link_psk l) (il_expires_at body)) (link_signature l) = Ok tt ∧
  now ≤ il_expires_at body ∧ len (link_psk l) = 32 ∧ len (link_signature l) = 64 ∧
  il_psk body = fill 32 Byte.x00 ∧ String.prefix URL_PREFIX url = true.
Proof.
  unfold from_url. intros (fr & Hfr & H)%bind_Ok_inv.
  do 4 (apply bind_Ok_inv in H as (? & _ & H)).
  apply bind_Ok_inv in H as (kp & _ & H). apply bind_Ok_inv in H as (psk & Hpsk & H).
  apply bind_Ok_inv in H as (ex & _ & H). apply bind_Ok_inv in H as (sg & Hsg & H).
  do 2 (apply bind_Ok_inv in H as (? & _ & H)). apply bind_Ok_inv in H as (card & _ & H).
  apply bind_Ok_inv in H as ([] & Hv & H). case_decide; [done|]. injection H as <-. cbn.
  assert (∀ n e s b, decode_sized n e s = Ok b → len b = n) as Hsized.
  { intros n e s b. unfold decode_sized. intros (? & _ & H')%bind_Ok_inv. case_decide; [|done]. by injection H' as <-. }
  split_and!; [|lia|by eapply Hsized|by eapply Hsized|done|].
  - destruct (verify_cbor _ _ sg) as [[]|] eqn:E; [done|]. discriminate Hv.
  - destruct (strip_prefix URL_PREFIX url) as [rest|] eqn:E; [|done].
    revert E. generalize URL_PREFIX. clear. intros p. revert url. induction p as [|a p IH]; intros [|b url]; [done..|].
    simpl. case_decide; [subst|done]. destruct (Ascii.ascii_dec b b); [|done]. apply IH.
Qed.
End link_facts.
