(* ===== verification/FirstContact.v ===== *)
(** * FirstContact: the tables of first contact

    [crates/core/src/storage/pending_welcomes.rs] (the committer's Welcomes that
    have not been acknowledged), [storage/first_contact_acks.rs] (the inviter's
    record of which peer consumed which invite), over the tables of migrations
    0017, 0018 and 0019, and the constants and backoff of
    [delivery/welcome_sweep.rs]. *)

From S2P Require Import Prelude CoreErrors.

(** ** [storage/pending_welcomes.rs] *)

Record pw_row : Type := mkPwRow {
  pw_peer : bytes; pw_group_id : bytes; pw_welcome : bytes; pw_next_retry_at : Z;
  pw_attempts : Z; pw_created_at : Z; pw_failed : Z
}.
Abbreviation pending_welcomes := (list pw_row).

(** [PendingWelcomeDue]. *)
Record PendingWelcomeDue : Type := mkPwDue {
  pd_peer : bytes; pd_group_id : bytes; pd_welcome : bytes; pd_attempts : Z; pd_created_at : Z
}.

(** [INSERT OR IGNORE] on the primary key [peer_pubkey]. *)
Definition pw_insert_in_tx (peer group_id welcome : bytes) (next_retry_at now : Z) (l : pending_welcomes)
    : pending_welcomes :=
  if decide (peer ∈ pw_peer <$> l) then l
  else l ++ [mkPwRow peer group_id welcome next_retry_at 0 now 0].

Definition pw_is_due (now : Z) (r : pw_row) : Prop := pw_next_retry_at r ≤ now ∧ pw_failed r = 0.
#[global] Instance pw_is_due_dec now r : Decision (pw_is_due now r).
Proof. unfold pw_is_due. apply _. Defined.

Definition pw_due_row (r : pw_row) : PendingWelcomeDue :=
  mkPwDue (pw_peer r) (pw_group_id r) (pw_welcome r) (pw_attempts r) (pw_created_at r).

(** [due]: a row whose key has not 32 bytes is skipped after the [LIMIT]. *)
Definition pw_due (now n : Z) (l : pending_welcomes) : list PendingWelcomeDue :=
  pw_due_row <$> filter (λ r, len (pw_peer r) = 32) (limit n (order_by pw_next_retry_at (filter (pw_is_due now) l))).

Definition pw_update (peer : bytes) (f : pw_row → pw_row) (l : pending_welcomes) : pending_welcomes :=
  (λ r, if decide (pw_peer r = peer) then f r else r) <$> l.

Definition pw_mark_failed (peer : bytes) : pending_welcomes → pending_welcomes :=
  pw_update peer (λ r, mkPwRow (pw_peer r) (pw_group_id r) (pw_welcome r) (pw_next_retry_at r) (pw_attempts r)
                         (pw_created_at r) 1).

Definition pw_is_failed (peer : bytes) (l : pending_welcomes) : bool :=
  bool_decide (0 < len (filter (λ r, pw_peer r = peer ∧ pw_failed r = 1) l)).

Definition pw_reschedule (peer : bytes) (next_retry_at : Z) : pending_welcomes → pending_welcomes :=
  pw_update peer (λ r, mkPwRow (pw_peer r) (pw_group_id r) (pw_welcome r) next_retry_at (pw_attempts r + 1)
                         (pw_created_at r) (pw_failed r)).

(** [delete] and [delete_in_tx]. *)
Definition pw_delete (peer : bytes) (l : pending_welcomes) : pending_welcomes := filter (λ r, pw_peer r ≠ peer) l.

Definition pw_is_pending (peer : bytes) (l : pending_welcomes) : bool :=
  bool_decide (0 < len (filter (λ r, pw_peer r = peer) l)).

Definition pw_count (l : pending_welcomes) : Z := len l.

(** ** [storage/first_contact_acks.rs] *)

Record ack_row : Type := mkAckRow { ak_kp_ref : bytes; ak_x25519 : bytes; ak_identity : bytes; ak_created_at : Z }.
Abbreviation first_contact_acks := (list ack_row).

Definition ack_insert_in_tx (kp_ref x25519 identity : bytes) (now : Z) (l : first_contact_acks)
    : first_contact_acks :=
  if decide (kp_ref ∈ ak_kp_ref <$> l) then l else l ++ [mkAckRow kp_ref x25519 identity now].

Definition ack_delete_by_peer_in_tx (identity : bytes) (l : first_contact_acks) : first_contact_acks :=
  filter (λ r, ak_identity r ≠ identity) l.

(** [lookup]: the two keys, [peer_x25519] first. *)
Definition ack_lookup (kp_ref : bytes) (l : first_contact_acks) : result (option (bytes * bytes)) CoreError :=
  match head (filter (λ r, ak_kp_ref r = kp_ref) l) with
  | None => Ok None
  | Some r =>
      if decide (len (ak_x25519 r) ≠ 32)
      then Err (Core_Storage (Storage_Other "first_contact_acks lookup: peer_x25519 wrong length"))
      else if decide (len (ak_identity r) ≠ 32)
      then Err (Core_Storage (Storage_Other "first_contact_acks lookup: peer_identity wrong length"))
      else Ok (Some (ak_x25519 r, ak_identity r))
  end.

(** ** [delivery/welcome_sweep.rs] *)

Definition WELCOME_BACKOFF_MS : list Z := [5000; 15000; 30000; 60000].
Definition MAX_WELCOME_AGE_MS : Z := 24 * 60 * 60 * 1000.

Definition welcome_backoff_ms (attempts : Z) : Z :=
  let idx := Z.max attempts 0 in
  nth (Z.to_nat (Z.min idx (len WELCOME_BACKOFF_MS - 1))) WELCOME_BACKOFF_MS 0.

(** [finalize_welcome_ack]: the row is deleted, whatever its state. *)
Definition finalize_welcome_ack (peer : bytes) (l : pending_welcomes) : pending_welcomes := pw_delete peer l.

(** ** Lemmas *)

Lemma welcome_backoff_range attempts : 5000 ≤ welcome_backoff_ms attempts ≤ 60000.
Proof.
  unfold welcome_backoff_ms, WELCOME_BACKOFF_MS, len. cbn [length].
  set (i := Z.to_nat _). assert (i < 4)%nat by lia.
  destruct i as [|[|[|[|]]]]; cbn; lia.
Qed.

Lemma pw_pending_iff peer l : pw_is_pending peer l = true ↔ peer ∈ pw_peer <$> l.
Proof.
  unfold pw_is_pending. rewrite bool_decide_eq_true. rewrite list_elem_of_fmap. split.
  - destruct (filter _ l) as [|r f] eqn:E; intros Hlt; [by apply Z.lt_irrefl in Hlt|].
    assert (r ∈ filter (λ r, pw_peer r = peer) l) as [Hp Hr]%list_elem_of_filter by (rewrite E; set_solver).
    by exists r.
  - intros (r & -> & Hr). assert (r ∈ filter (λ r', pw_peer r' = pw_peer r) l) as H by (by apply list_elem_of_filter).
    destruct (filter _ l); [by apply elem_of_nil in H|]. lens.
Qed.

Lemma pw_update_peers peer f l : (∀ r, pw_peer (f r) = pw_peer r) → pw_peer <$> pw_update peer f l = pw_peer <$> l.
Proof.
  intros Hf. unfold pw_update. rewrite <- list_fmap_compose. apply list_fmap_ext. intros i r _. simpl.
  case_decide; [apply Hf|done].
Qed.

Lemma pw_delete_pending peer peer' l :
  pw_is_pending peer (pw_delete peer' l) = pw_is_pending peer l && negb (bool_decide (peer = peer')).
Proof.
  apply eq_true_iff_eq. rewrite andb_true_iff, negb_true_iff, bool_decide_eq_false, !pw_pending_iff.
  unfold pw_delete. rewrite !list_elem_of_fmap. split.
  - intros (r & -> & [Hne Hr]%list_elem_of_filter). eauto.
  - intros [(r & -> & Hr) Hne]. exists r. split; [done|]. by apply list_elem_of_filter.
Qed.

Lemma pw_insert_pending peer peer' g w n t l :
  pw_is_pending peer (pw_insert_in_tx peer' g w n t l) = pw_is_pending peer l || bool_decide (peer = peer').
Proof.
  apply eq_true_iff_eq. rewrite orb_true_iff, bool_decide_eq_true, !pw_pending_iff.
  unfold pw_insert_in_tx. case_decide as Hin.
  - split; [by left|]. intros [?| ->]; done.
  - rewrite fmap_app, elem_of_app. cbn. rewrite list_elem_of_singleton. done.
Qed.

(** The answer for one invite is settled by its first record. *)
Lemma ack_lookup_insert kp x id now l :
  ack_lookup kp l = Ok None → len x = 32 → len id = 32 → ack_lookup kp (ack_insert_in_tx kp x id now l) = Ok (Some (x, id)).
Proof.
  unfold ack_lookup. destruct (head _) as [r|] eqn:E; [by repeat case_decide|]. intros _ Hx Hid.
  unfold ack_insert_in_tx. case_decide as Hin.
  - apply list_elem_of_fmap in Hin as (r & -> & Hr).
    assert (r ∈ filter (λ r', ak_kp_ref r' = ak_kp_ref r) l) as H by (by apply list_elem_of_filter).
    destruct (filter _ l); [by apply elem_of_nil in H|done].
  - rewrite filter_app. destruct (filter _ l); [|done]. rewrite filter_cons_True by done. cbn.
    by rewrite !decide_False by (intros H; by apply H).
Qed.

Lemma ack_lookup_kept kp kp' x id now l :
  kp ∈ ak_kp_ref <$> l ∨ kp ≠ kp' → ack_lookup kp (ack_insert_in_tx kp' x id now l) = ack_lookup kp l.
Proof.
  intros Hk. unfold ack_insert_in_tx. case_decide as Hin; [done|].
  assert (kp ≠ kp') by (destruct Hk; [congruence|done]).
  unfold ack_lookup. by rewrite filter_app, filter_cons_False, app_nil_r by (simpl; congruence).
Qed.
