(* ===== verification/Mailboxes.v ===== *)
(** * Mailboxes: the table of mailboxes, ours and our contacts'

    [crates/core/src/storage/mailboxes.rs] over the table [mailboxes] of
    migrations 0001 and 0008, with its unique index on onion and role. *)

From S2P Require Import Prelude Framing CoreErrors Sql Identity Contacts.

Inductive MailboxRole : Type := Mine | Theirs.

(** [MailboxRole::as_sql] and [MailboxRole::from_sql]. *)
Definition role_as_sql (r : MailboxRole) : string := match r with Mine => "mine" | Theirs => "theirs" end.
Definition role_from_sql (s : string) : result MailboxRole CoreError :=
  if decide (s = "mine") then Ok Mine
  else if decide (s = "theirs") then Ok Theirs
  else Err (Core_Storage (Storage_Other ("unknown mailbox role: " +:+ s))).

Inductive MailboxStatus : Type := Unknown | Reachable | Unreachable | RateLimited | PendingRemoval | Removed.

#[export] Instance MailboxStatus_eq_decision : EqDecision MailboxStatus.
Proof. solve_decision. Defined.

(** [MailboxStatus::as_sql] and [MailboxStatus::from_sql]. *)
Definition status_as_sql (s : MailboxStatus) : string :=
  match s with
  | Unknown => "unknown"
  | Reachable => "reachable"
  | Unreachable => "unreachable"
  | RateLimited => "rate_limited"
  | PendingRemoval => "pending_removal"
  | Removed => "removed"
  end.

Definition status_from_sql (s : string) : option MailboxStatus :=
  if decide (s = "unknown") then Some Unknown
  else if decide (s = "reachable") then Some Reachable
  else if decide (s = "unreachable") then Some Unreachable
  else if decide (s = "rate_limited") then Some RateLimited
  else if decide (s = "pending_removal") then Some PendingRemoval
  else if decide (s = "removed") then Some Removed
  else None.

Record mailbox_row : Type := mkMailboxRow {
  mb_id : Z; mb_onion : string; mb_registered_at : Z; mb_role : string; mb_status : string;
  mb_last_poll_at : option Z; mb_last_error_at : option Z; mb_last_error_kind : option string
}.
Abbreviation mailboxes := (table mailbox_row).

(** [MailboxRow]. *)
Record MailboxRow : Type := mkMailbox {
  mr_id : Z; mr_onion : string; mr_registered_at : Z; mr_role : string; mr_status : MailboxStatus;
  mr_last_poll_at : option Z; mr_last_error_at : option Z; mr_last_error_kind : option string
}.

Definition mailbox_of (r : mailbox_row) : MailboxRow :=
  mkMailbox (mb_id r) (mb_onion r) (mb_registered_at r) (mb_role r) (default Unknown (status_from_sql (mb_status r)))
    (mb_last_poll_at r) (mb_last_error_at r) (mb_last_error_kind r).

Definition mb_match (onion : string) (role : MailboxRole) (r : mailbox_row) : Prop :=
  mb_onion r = onion ∧ mb_role r = role_as_sql role.
#[global] Instance mb_match_dec onion role r : Decision (mb_match onion role r).
Proof. unfold mb_match. apply _. Defined.

Definition new_mailbox (onion : string) (role : MailboxRole) (now id : Z) : mailbox_row :=
  mkMailboxRow id onion now (role_as_sql role) "unknown" None None None.

(** [INSERT ... DO NOTHING] and [INSERT OR IGNORE]. *)
Definition mb_insert_ignore (onion : string) (role : MailboxRole) (now : Z) (t : mailboxes) : mailboxes :=
  match filter (mb_match onion role) (t_rows t) with
  | [] => (t_insert (new_mailbox onion role now) t).1
  | _ => t
  end.

(** [insert]: [last_insert] is the connection's [last_insert_rowid()], which an
    ignored insert leaves as it was. *)
Definition mb_insert (onion : string) (role : MailboxRole) (registered_at last_insert : Z) (t : mailboxes)
    : mailboxes * Z :=
  match filter (mb_match onion role) (t_rows t) with
  | [] => t_insert (new_mailbox onion role registered_at) t
  | _ => (t, last_insert)
  end.

(** [list]. *)
Definition mb_list (role : MailboxRole) (t : mailboxes) : list string :=
  mb_onion <$> order_by mb_registered_at (filter (λ r, mb_role r = role_as_sql role) (t_rows t)).

(** [remove]. *)
Definition mb_remove (onion : string) (role : MailboxRole) (t : mailboxes) : mailboxes :=
  (t_delete (mb_match onion role) t).1.

(** [add_mine] and [ensure_theirs]: insert unless present, then read the id. *)
Definition mb_ensure (role : MailboxRole) (context onion : string) (now : Z) : action mailboxes Z CoreError := λ t,
  let t' := mb_insert_ignore onion role now t in
  (t', ok_or (mb_id <$> head (filter (mb_match onion role) (t_rows t')))
         (Core_Storage (Storage_Other (context +:+ " select: Query returned no rows")))).
Definition add_mine : string → Z → action mailboxes Z CoreError := mb_ensure Mine "add_mine".
Definition ensure_theirs : string → Z → action mailboxes Z CoreError := mb_ensure Theirs "ensure_theirs".

(** [ORDER BY registered_at, id]. *)
Definition registered_before (r r' : mailbox_row) : Prop :=
  mb_registered_at r < mb_registered_at r' ∨ mb_registered_at r = mb_registered_at r' ∧ mb_id r ≤ mb_id r'.
#[global] Instance registered_before_dec : RelDecision registered_before := λ r r', _.

Definition list_mine (t : mailboxes) : list MailboxRow :=
  mailbox_of <$> merge_sort registered_before (filter (λ r, mb_role r = "mine") (t_rows t)).

(** [get]. *)
Definition mb_get (id : Z) (t : mailboxes) : option MailboxRow :=
  mailbox_of <$> head (filter (λ r, mb_id r = id) (t_rows t)).

Definition mb_update (id : Z) (f : mailbox_row → mailbox_row) (t : mailboxes) : mailboxes :=
  (t_update (λ r, mb_id r = id) f t).1.

Definition mark_status (id : Z) (s : MailboxStatus) : mailboxes → mailboxes :=
  mb_update id (λ r, mkMailboxRow (mb_id r) (mb_onion r) (mb_registered_at r) (mb_role r) (status_as_sql s)
                       (mb_last_poll_at r) (mb_last_error_at r) (mb_last_error_kind r)).
Definition mark_pending_removal (id : Z) : mailboxes → mailboxes := mark_status id PendingRemoval.
Definition finalize_removal (id : Z) : mailboxes → mailboxes := mark_status id Removed.

Definition touch_poll (id now : Z) : mailboxes → mailboxes :=
  mb_update id (λ r, mkMailboxRow (mb_id r) (mb_onion r) (mb_registered_at r) (mb_role r) (mb_status r)
                       (Some now) (mb_last_error_at r) (mb_last_error_kind r)).

Definition record_error (id : Z) (kind : string) (now : Z) : mailboxes → mailboxes :=
  mb_update id (λ r, mkMailboxRow (mb_id r) (mb_onion r) (mb_registered_at r) (mb_role r) (mb_status r)
                       (mb_last_poll_at r) (Some now) (Some kind)).

(** [list_for_contact]: the mailboxes of the latest card. *)
Definition list_for_contact `{!Deserialize ContactCard} (identity : bytes) (db : contacts_db)
    : result (list string) CoreError :=
  let? c := latest_card identity db in
  Ok (match c with Some card => card_mailboxes (card_body card) | None => [] end).

(** The self-card's mailboxes: ours that are reachable. *)
Definition reachable_mine (t : mailboxes) : list string :=
  mr_onion <$> filter (λ r, mr_status r = Reachable) (list_mine t).

(** ** Lemmas *)

Record mailboxes_wf (t : mailboxes) : Prop := {
  mw_ids : t_wf mb_id t;
  mw_seq : 0 ≤ t_seq t;
  mw_key : NoDup ((λ r, (mb_onion r, mb_role r)) <$> t_rows t);
  mw_status : ∀ r, r ∈ t_rows t → is_Some (status_from_sql (mb_status r))
}.

Lemma status_sql_roundtrip s : status_from_sql (status_as_sql s) = Some s.
Proof. by destruct s. Qed.

Lemma mb_insert_ignore_wf onion role now t : mailboxes_wf t → mailboxes_wf (mb_insert_ignore onion role now t).
Proof.
  intros [Hids Hseq Hkey Hst]. unfold mb_insert_ignore. destruct (filter _ _) as [|? ?] eqn:E; [|done].
  split.
  - by apply (t_wf_insert mb_id (new_mailbox onion role now)).
  - simpl. lia.
  - cbn [t_insert fst t_rows]. rewrite fmap_app. apply NoDup_app. split_and!; [done| |apply NoDup_singleton].
    intros x (r & -> & Hr)%list_elem_of_fmap Heq%list_elem_of_singleton. simpl in Heq. injection Heq as Ho Hro.
    assert (r ∈ filter (mb_match onion role) (t_rows t)) as H by (by apply list_elem_of_filter).
    rewrite E in H. by apply elem_of_nil in H.
  - cbn [t_insert fst t_rows]. intros r [Hr| ->%list_elem_of_singleton]%elem_of_app; [by apply Hst|].
    simpl. eauto.
Qed.

Lemma mb_update_wf id f t :
  (∀ r, mb_id (f r) = mb_id r ∧ mb_onion (f r) = mb_onion r ∧ mb_role (f r) = mb_role r ∧
        (is_Some (status_from_sql (mb_status r)) → is_Some (status_from_sql (mb_status (f r))))) →
  mailboxes_wf t → mailboxes_wf (mb_update id f t).
Proof.
  intros Hf [Hids Hseq Hkey Hst]. unfold mb_update, t_update. cbn [fst]. split; cbn [t_rows t_seq].
  - apply (t_wf_map mb_id); [done|]. intros r. case_decide; [apply Hf|done].
  - done.
  - rewrite <- list_fmap_compose. erewrite list_fmap_ext; [exact Hkey|]. intros i r _. simpl.
    case_decide; [|done]. destruct (Hf r) as (_ & -> & -> & _). done.
  - intros r (r' & -> & Hr)%list_elem_of_fmap. case_decide; [|by apply Hst].
    destruct (Hf r') as (_ & _ & _ & Hs). by apply Hs, Hst.
Qed.

(** Registering a mailbox twice gives the same id and changes nothing. *)
Lemma mb_ensure_idem role context onion now now' t t' id :
  mb_ensure role context onion now t = (t', Ok id) → mb_ensure role context onion now' t' = (t', Ok id).
Proof.
  unfold mb_ensure. intros [= <- H]. set (t1 := mb_insert_ignore onion role now t) in *.
  assert (mb_insert_ignore onion role now' t1 = t1) as ->; [|by rewrite H].
  unfold mb_insert_ignore at 1. destruct (filter _ (t_rows t1)) as [|r l] eqn:E; [|done].
  try rewrite E in H. done.
Qed.
