(* ===== verification/Api.v ===== *)
(** * Api: the command, event and IPC types of the daemon

    [crates/core/src/daemon/commands.rs], [daemon/events.rs] and
    [daemon/ipc/wire.rs]: one inductive type per enum with the source's
    variants, a record per struct, the projection of a stored message to the
    wire, and [map_err] of [daemon/dispatch.rs], the projection of a library
    error.  Public keys and ids are byte strings. *)

From S2P Require Import Prelude Text CoreErrors Float64 Identity Messages Mailboxes.

(** ** [daemon/commands.rs] *)

Inductive NotificationMode : Type := Full | Minimal | Generic | Off.
Inductive LogLevel : Type := Trace | Debug | Info | Warn | ErrorLevel.
Record LogRecord : Type := mkLogRecord {
  log_seq : Z; log_ts_unix_ms : Z; log_level : LogLevel; log_target : string; log_message : string
}.

Record ConfigSnapshot : Type := mkConfigSnapshot {
  cs_history_retention_days : Z; cs_direct_timeout_secs : Z; cs_notification_mode : NotificationMode;
  cs_close_to_tray : bool; cs_start_minimised : bool; cs_persist_logs_to_disk : bool
}.

Record ConfigPatch : Type := mkConfigPatch {
  cp_history_retention_days : option Z; cp_direct_timeout_secs : option Z;
  cp_notification_mode : option NotificationMode; cp_close_to_tray : option bool;
  cp_start_minimised : option bool; cp_persist_logs_to_disk : option bool; cp_download_dir : option string
}.

Inductive Command : Type :=
| Cmd_CreateInvite (nickname : option string) (ttl_secs : option Z)
| Cmd_AddContact (invite_url : string)
| Cmd_ListContacts
| Cmd_SendMessage (contact : bytes) (kind : Kind)
| Cmd_SendFile (contact : bytes) (path : string)
| Cmd_RecentMessages (contact : option bytes) (limit : Z) (before_id : option Z) (paged : bool)
| Cmd_CreateGroup (members : list bytes) (name : string)
| Cmd_RotateOnion
| Cmd_Shutdown
| Cmd_SearchMessages (query : string) (contact : option bytes) (limit offset : Z) (newest_first : bool)
| Cmd_MarkRead (contact : bytes) (up_to_message_id : Z)
| Cmd_PruneHistory (contact : option bytes) (before_ts_recv keep_last : option Z)
| Cmd_AddMailbox (onion : string)
| Cmd_RemoveMailbox (id : Z)
| Cmd_ListMailboxes
| Cmd_DaemonInfo
| Cmd_ExportHistory (contact : bytes) (after_id : option Z) (limit : Z)
| Cmd_RenameContact (contact : bytes) (nickname : option string)
| Cmd_RemoveContact (contact : bytes)
| Cmd_ListContactsWithFilter (include_hidden : bool)
| Cmd_GetConfig
| Cmd_SetConfig (patch : ConfigPatch)
| Cmd_ChangePassphrase (old new : string)
| Cmd_SetContactMuted (contact : bytes) (muted : bool)
| Cmd_TailLogs (since_seq : option Z) (limit : Z)
| Cmd_GetPassphraseAuditLatest
| Cmd_WipeAllData
| Cmd_ExportBackup (dest_path : string)
| Cmd_OpenAttachment (attachment_id : bytes)
| Cmd_SaveAttachment (attachment_id : bytes) (dest_path : string)
| Cmd_AttachmentAvailable (attachment_id : bytes)
| Cmd_AttachmentStatus (attachment_id : bytes)
| Cmd_RetryAttachment (attachment_id : bytes)
| Cmd_DismissMessage (message_id : bytes).

Inductive SendStatus : Type := Queued | Delivered.
Inductive Direction : Type := Incoming | Outgoing.
Inductive MlsGroupStateLabel : Type := Label_Active | Label_PendingJoin | Label_Corrupt.

Record ContactSummary : Type := mkContactSummary {
  cs_pubkey : bytes; cs_nickname : option string; cs_onion : string; cs_card_version : Z; cs_added_at : Z;
  cs_unread_count : Z; cs_last_message_preview : option string; cs_last_ts_recv : option Z;
  cs_group_state : option MlsGroupStateLabel; cs_last_read_row_id : option Z; cs_muted : bool;
  cs_peer_mailboxes : list string; cs_welcome_failed : bool
}.

Record MessageRecord : Type := mkMessageRecord {
  rec_row_id : Z; rec_message_id : bytes; rec_contact : bytes; rec_direction : Direction; rec_kind : Kind;
  rec_mls_generation : Z; rec_ts_daemon_recv : Z; rec_ts_envelope : Z; rec_delivered_at : option Z;
  rec_dismissed_at : option Z; rec_failed_reason : option string
}.

(** [u64::try_from(t).ok()] and [u64::try_from(t).unwrap_or(0)] of an [i64]. *)
Definition u64_of_i64 (t : Z) : option Z := if decide (0 ≤ t) then Some t else None.
Definition u64_or_zero (t : Z) : Z := default 0 (u64_of_i64 t).

(** [MessageRecord::project]. *)
Definition project (row_id : Z) (envelope : Envelope) (contact : bytes) (mls_generation ts_daemon_recv : Z)
    (direction : Direction) (delivered_at : option Z) : MessageRecord :=
  mkMessageRecord row_id (e_id envelope) contact direction (e_kind envelope) mls_generation
    (u64_or_zero ts_daemon_recv) (e_ts envelope) (t ← delivered_at; u64_of_i64 t) None None.

(** [MessageRecord::with_persisted_status]. *)
Definition with_persisted_status (dismissed_at : option Z) (failed_reason : option string) (r : MessageRecord)
    : MessageRecord :=
  mkMessageRecord (rec_row_id r) (rec_message_id r) (rec_contact r) (rec_direction r) (rec_kind r)
    (rec_mls_generation r) (rec_ts_daemon_recv r) (rec_ts_envelope r) (rec_delivered_at r)
    (t ← dismissed_at; u64_of_i64 t) failed_reason.

Record SearchHitRecord : Type := mkSearchHitRecord { shr_record : MessageRecord; shr_bm25 : f64; shr_snippet : string }.

Inductive AttachmentDirection : Type := AttIn | AttOut.
Inductive AttachmentState : Type := AttPending | AttComplete | AttFailed.
Record AttachmentStatusReport : Type := mkStatusReport { asr_direction : AttachmentDirection; asr_state : AttachmentState }.
Record MailboxSummary : Type := mkMailboxSummary {
  ms_id : Z; ms_onion : string; ms_status : MailboxStatus; ms_registered_at : Z
}.

Inductive CommandResult : Type :=
| Res_InviteCreated (url : string) (key_package_id : bytes) (expires_at : Z)
| Res_ContactAdded (c : ContactSummary)
| Res_Contacts (l : list ContactSummary)
| Res_MessageSent (message_id : bytes) (status : SendStatus) (record : option MessageRecord)
| Res_FileQueued (message_id attachment_id : bytes) (total_chunks : Z)
| Res_Messages (l : list MessageRecord)
| Res_MessagesPage (records : list MessageRecord) (next_before_id : option Z)
| Res_Subscribed
| Res_Ok
| Res_ContactRemoved (hard : bool)
| Res_SearchResults (l : list SearchHitRecord)
| Res_MarkedRead (up_to : Z)
| Res_Pruned (rows_deleted : Z)
| Res_ExportPage (records : list MessageRecord) (next_after_id : option Z)
| Res_Mailboxes (l : list MailboxSummary)
| Res_DaemonInfo (local_pubkey : bytes) (current_onion : option string) (daemon_version : string) (schema_version : Z)
| Res_Config (c : ConfigSnapshot)
| Res_PassphraseChanged
| Res_Logs (records : list LogRecord) (next_since_seq : Z)
| Res_PassphraseAudit (last_changed_unix : option Z)
| Res_AttachmentDecrypted (path : string)
| Res_AttachmentAvailability (available : bool)
| Res_AttachmentStatus (report : option AttachmentStatusReport).

(** ** [daemon/events.rs] *)

Inductive TorStatus : Type := Tor_Idle | Tor_Bootstrapping (percent : Z) | Tor_Ready | Tor_Failed (reason : string).
Inductive DeliveryStatus : Type :=
| Status_Queued
| Status_Delivered
| Status_Deposited
| Status_Failed (reason : string).

Inductive Event : Type :=
| Ev_TorStatusChanged (s : TorStatus)
| Ev_MessageReceived (contact : bytes) (record : MessageRecord)
| Ev_ContactUpdated (contact : bytes)
| Ev_ContactRemoved (contact : bytes)
| Ev_DeliveryStatusChanged (message : bytes) (status : DeliveryStatus)
| Ev_MailboxStatusChanged (mailbox_id : Z) (status : MailboxStatus)
| Ev_ContactCardReceived (contact : bytes) (version : Z)
| Ev_LogRecord (r : LogRecord)
| Ev_AttachmentReceived (contact attachment_id : bytes) (filename mime : list Z) (size : Z)
| Ev_AttachmentProgress (attachment_id : bytes) (received total : Z)
| Ev_AttachmentFailed (attachment_id : bytes) (reason : string).

(** ** [daemon/ipc/wire.rs] *)

Definition MAX_IPC_BODY : Z := 1024 * 1024.

Inductive EventFilter : Type :=
| Filter_All
| Filter_Contact (contact : bytes)
| Filter_TorStatus
| Filter_Messages (contact : option bytes)
| Filter_Mailboxes
| Filter_Delivery
| Filter_Logs.

Inductive IpcRequest : Type := Req_Execute (c : Command) | Req_Subscribe (f : EventFilter) | Req_Shutdown.

Inductive IpcError : Type :=
| Ipc_AuthDenied
| Ipc_Codec (msg : string)
| Ipc_FrameTooLarge (got max : Z)
| Ipc_UnknownCommand
| Ipc_VaultNotReady
| Ipc_Daemon (k : DaemonErrorKind)
| Ipc_Internal (msg : string).

Inductive IpcResponse : Type := Resp_Ok (r : CommandResult) | Resp_Err (e : IpcError) | Resp_Event (e : Event) | Resp_Bye.

(** ** [map_err] of [daemon/dispatch.rs] *)

(** [chars().take(n)] of UTF-8 text: a character ends before the next byte that
    does not continue one. *)
Definition is_continuation (a : Ascii.ascii) : bool :=
  let n := Ascii.nat_of_ascii a in (128 <=? n)%nat && (n <? 192)%nat.

Fixpoint take_chars (n : nat) (s : string) : string :=
  match s with
  | EmptyString => EmptyString
  | String a s' =>
      if is_continuation a then String a (take_chars n s')
      else match n with O => EmptyString | S n' => String a (take_chars n' s') end
  end.

(** [chars().count()]. *)
Fixpoint count_chars (s : string) : nat :=
  match s with
  | EmptyString => O
  | String a s' => if is_continuation a then count_chars s' else S (count_chars s')
  end.

Definition ipc_error (e : CoreError) : IpcError :=
  match kind e with
  | Some k => Ipc_Daemon k
  | None => Ipc_Internal (take_chars 256 (display e))
  end.

(** [truncate_preview]. *)
Definition truncate_preview (s : string) (max_chars : nat) : string := take_chars max_chars s.

Definition invalid_argument (message : string) : IpcError := Ipc_Daemon (Daemon_InvalidArgument message).
