(* ===== verification/Daemon.v ===== *)
(** * Daemon: the state the command handlers and the inbound path share

    The database behind [crates/core/src/storage/pool.rs], one field per
    repository, and the process state around it: the event channel of
    [daemon/events.rs], the queued attachment fetches of [daemon/inbound.rs], the
    staged chunks of [attachment/store.rs] and the jobs handed to the delivery
    hub.  A transaction of the pool is [atomically] on the database. *)

From S2P Require Import Prelude CoreErrors Sql Outbox Contacts Messages Receiver Attachments AttachmentRepo.
From S2P Require Import Mls Invites FirstContact Mailboxes Api.

Record daemon_db : Type := mkDb {
  d_contacts : contacts_db;
  d_groups : mls_groups;
  d_recv : receiver_db;
  d_outbox : outbox;
  d_kps : key_packages;
  d_invites : outstanding_invites;
  d_pending : pending_welcomes;
  d_acks : first_contact_acks;
  d_atts : att_db;
  d_mailboxes : mailboxes;
  d_card_version : Z
}.

Definition empty_db : daemon_db :=
  mkDb empty_contacts empty_table (mkReceiverDb empty_messages ∅) empty_table empty_table [] [] [] empty_att_db
    empty_table 0.

(** ** Its fields *)

Definition f_contacts : field daemon_db contacts_db := mkField d_contacts (λ x d,
  mkDb x (d_groups d) (d_recv d) (d_outbox d) (d_kps d) (d_invites d) (d_pending d) (d_acks d) (d_atts d)
    (d_mailboxes d) (d_card_version d)).
Definition f_groups : field daemon_db mls_groups := mkField d_groups (λ x d,
  mkDb (d_contacts d) x (d_recv d) (d_outbox d) (d_kps d) (d_invites d) (d_pending d) (d_acks d) (d_atts d)
    (d_mailboxes d) (d_card_version d)).
Definition f_recv : field daemon_db receiver_db := mkField d_recv (λ x d,
  mkDb (d_contacts d) (d_groups d) x (d_outbox d) (d_kps d) (d_invites d) (d_pending d) (d_acks d) (d_atts d)
    (d_mailboxes d) (d_card_version d)).
Definition f_messages : field daemon_db messages_db := mkField (λ d, rd_messages (d_recv d)) (λ x d,
  mkDb (d_contacts d) (d_groups d) (mkReceiverDb x (rd_seen (d_recv d))) (d_outbox d) (d_kps d) (d_invites d)
    (d_pending d) (d_acks d) (d_atts d) (d_mailboxes d) (d_card_version d)).
Definition f_outbox : field daemon_db outbox := mkField d_outbox (λ x d,
  mkDb (d_contacts d) (d_groups d) (d_recv d) x (d_kps d) (d_invites d) (d_pending d) (d_acks d) (d_atts d)
    (d_mailboxes d) (d_card_version d)).
Definition f_kps : field daemon_db key_packages := mkField d_kps (λ x d,
  mkDb (d_contacts d) (d_groups d) (d_recv d) (d_outbox d) x (d_invites d) (d_pending d) (d_acks d) (d_atts d)
    (d_mailboxes d) (d_card_version d)).
Definition f_invites : field daemon_db outstanding_invites := mkField d_invites (λ x d,
  mkDb (d_contacts d) (d_groups d) (d_recv d) (d_outbox d) (d_kps d) x (d_pending d) (d_acks d) (d_atts d)
    (d_mailboxes d) (d_card_version d)).
Definition f_pending : field daemon_db pending_welcomes := mkField d_pending (λ x d,
  mkDb (d_contacts d) (d_groups d) (d_recv d) (d_outbox d) (d_kps d) (d_invites d) x (d_acks d) (d_atts d)
    (d_mailboxes d) (d_card_version d)).
Definition f_acks : field daemon_db first_contact_acks := mkField d_acks (λ x d,
  mkDb (d_contacts d) (d_groups d) (d_recv d) (d_outbox d) (d_kps d) (d_invites d) (d_pending d) x (d_atts d)
    (d_mailboxes d) (d_card_version d)).
Definition f_atts : field daemon_db att_db := mkField d_atts (λ x d,
  mkDb (d_contacts d) (d_groups d) (d_recv d) (d_outbox d) (d_kps d) (d_invites d) (d_pending d) (d_acks d) x
    (d_mailboxes d) (d_card_version d)).
Definition f_mailboxes : field daemon_db mailboxes := mkField d_mailboxes (λ x d,
  mkDb (d_contacts d) (d_groups d) (d_recv d) (d_outbox d) (d_kps d) (d_invites d) (d_pending d) (d_acks d)
    (d_atts d) x (d_card_version d)).
Definition f_card_version : field daemon_db Z := mkField d_card_version (λ x d,
  mkDb (d_contacts d) (d_groups d) (d_recv d) (d_outbox d) (d_kps d) (d_invites d) (d_pending d) (d_acks d)
    (d_atts d) (d_mailboxes d) x).

(** ** The process *)

(** [delivery/chunk_transfer.rs]: a manifest whose chunks are to be fetched. *)
Record AttachmentBegin : Type := mkBegin { begin_id : bytes; begin_manifest : AttachmentManifest }.

(** A [DeliveryJob] and a [WelcomeJob] handed to a peer's actor, a control message
    to the poll scheduler, and a deposit a mailbox accepted. *)
Inductive outgoing : Type :=
| Job (peer message_id ciphertext : bytes)
| WelcomeJob (peer welcome : bytes)
| EnsureActor (peer : bytes)
| PollAdd (mailbox_id : Z)
| PollRemove (mailbox_id : Z)
| Nudge
| DepositTo (onion : string) (recipient_hash ciphertext : bytes).

Record daemon : Type := mkDaemon {
  dm_db : daemon_db;
  dm_events : list Event;
  dm_begins : gmap bytes (list AttachmentBegin);
  dm_store : chunk_store;
  dm_out : list outgoing
}.

Definition start (db : daemon_db) : daemon := mkDaemon db [] ∅ ∅ [].

Definition f_db : field daemon daemon_db := mkField dm_db (λ x d,
  mkDaemon x (dm_events d) (dm_begins d) (dm_store d) (dm_out d)).
Definition f_begins : field daemon (gmap bytes (list AttachmentBegin)) := mkField dm_begins (λ x d,
  mkDaemon (dm_db d) (dm_events d) x (dm_store d) (dm_out d)).
Definition f_store : field daemon chunk_store := mkField dm_store (λ x d,
  mkDaemon (dm_db d) (dm_events d) (dm_begins d) x (dm_out d)).

(** A field of the database, from the process. *)
Definition of_db {A} (f : field daemon_db A) : field daemon A :=
  mkField (λ d, fget f (dm_db d)) (λ x d, fset f_db (fset f x (dm_db d)) d).

(** [events_tx.send(e)]: sending to no subscriber is not an error. *)
Definition emit {E} (e : Event) : action daemon unit E := λ d,
  (mkDaemon (dm_db d) (dm_events d ++ [e]) (dm_begins d) (dm_store d) (dm_out d), Ok tt).
Definition hand_over {E} (o : outgoing) : action daemon unit E := λ d,
  (mkDaemon (dm_db d) (dm_events d) (dm_begins d) (dm_store d) (dm_out d ++ [o]), Ok tt).

(** A [Result] that is only logged. *)
Definition ignore {S T E F} (c : action S T E) : action S unit F := λ s, ((c s).1, Ok tt).

(** [get_group_id], empty and missing group ids alike, as the callers read it. *)
Definition linked_group (peer : bytes) (db : contacts_db) : option bytes :=
  match get_group_id peer db with Some g => if decide (g = []) then None else Some g | None => None end.
