(* ===== verification/MailboxClient.v ===== *)
(** * MailboxClient: the daemon's side of the mailbox protocol

    [crates/core/src/mailbox/client.rs].  A client holds one framed stream; what
    is at the other end is a parameter: a state and how it answers a frame
    ([talk]).  The theorems of [MailboxEndToEnd] put the modelled server there. *)

From S2P Require Import Prelude Framing CoreErrors MailboxProtocol MailboxCodec Identity.

(** [framed.send(f)] failed, or what [framed.next()] gave after it. *)
Inductive talk_outcome : Type :=
| SendFailed
| Next (r : result MailboxFrame CoreError)
| Eof.

Definition client_error (k : MailboxClientErrorKind) : CoreError := Core_MailboxClient k.

(** [{code:?}]. *)
Definition debug_code (c : ErrorCode) : string :=
  match c with
  | EC_UnsupportedVersion => "UnsupportedVersion" | EC_MalformedRequest => "MalformedRequest"
  | EC_TooLarge => "TooLarge" | EC_RateLimited => "RateLimited" | EC_RecipientFull => "RecipientFull"
  | EC_TtlTooLong => "TtlTooLong" | EC_TtlTooShort => "TtlTooShort" | EC_InvalidSignature => "InvalidSignature"
  | EC_HashMismatch => "HashMismatch" | EC_NonceExpired => "NonceExpired" | EC_NotFound => "NotFound"
  | EC_Internal => "Internal"
  end.

Definition map_error_code (code : ErrorCode) : MailboxClientErrorKind :=
  match code with
  | EC_UnsupportedVersion => MailboxClient_UnsupportedVersion
  | EC_RateLimited => MailboxClient_RateLimited
  | EC_RecipientFull => MailboxClient_RecipientFull
  | EC_InvalidSignature => MailboxClient_InvalidSignature
  | EC_NonceExpired => MailboxClient_NonceExpired
  | EC_HashMismatch => MailboxClient_HashMismatch
  | EC_MalformedRequest => MailboxClient_Malformed
  | EC_TooLarge | EC_TtlTooLong | EC_TtlTooShort | EC_NotFound | EC_Internal =>
      MailboxClient_Other ("server error: " +:+ debug_code code)
  end.

Definition recipient_hash_from_pubkey {sha : Sha256} (pk : bytes) : bytes := sha256 pk.

Section client.
Context {W : Type} (talk : MailboxFrame → W → W * talk_outcome).
Context {sha : Sha256} {scheme : SignatureScheme}.
Context {ser3 : Serialize (Z * bytes * bytes)} {ser4 : Serialize (Z * bytes * bytes * list bytes)}.

(** The send and the part of the [match] on the answer that the requests share. *)
Definition request (f : MailboxFrame) : action W MailboxFrame CoreError := λ w,
  let '(w', o) := talk f w in
  (w', match o with
       | SendFailed | Eof => Err (client_error MailboxClient_Unreachable)
       | Next (Err e) => Err e
       | Next (Ok (MF_Error b)) => Err (client_error (map_error_code (eb_code b)))
       | Next (Ok frame) => Ok frame
       end).

Definition client_deposit (recipient_hash ciphertext : bytes) (ttl_request : Z) : action W DepositOk CoreError :=
  let! answer := request (MF_Deposit (mkDeposit PROTOCOL_VERSION recipient_hash ciphertext ttl_request)) in
  lift (match answer with MF_DepositOk ok => Ok ok | _ => Err (client_error MailboxClient_Malformed) end).

Definition client_challenge (identity_hash : bytes) : action W bytes CoreError :=
  let! answer := request (MF_Challenge (mkChallenge PROTOCOL_VERSION identity_hash)) in
  lift (match answer with MF_ChallengeNonce c => Ok (cn_nonce c) | _ => Err (client_error MailboxClient_Malformed) end).

Definition client_fetch (k : IdentityKey) : action W FetchResponse CoreError :=
  let pk := public k in
  let! nonce := client_challenge (recipient_hash_from_pubkey pk) in
  let! digest := lift (map_err (λ e, client_error (MailboxClient_Other e)) (payload_digest (PROTOCOL_VERSION, pk, nonce))) in
  let sig := sign k (signing_input nonce OP_BYTE_FETCH digest) in
  let! answer := request (MF_Fetch (mkFetch PROTOCOL_VERSION pk nonce sig)) in
  lift (match answer with MF_FetchResponse r => Ok r | _ => Err (client_error MailboxClient_Malformed) end).

Definition client_delete (k : IdentityKey) (deposit_ids : list bytes) : action W DeleteOk CoreError :=
  let pk := public k in
  let! nonce := client_challenge (recipient_hash_from_pubkey pk) in
  let! digest := lift (map_err (λ e, client_error (MailboxClient_Other e))
    (payload_digest (PROTOCOL_VERSION, pk, nonce, deposit_ids))) in
  let sig := sign k (signing_input nonce OP_BYTE_DELETE digest) in
  let! answer := request (MF_Delete (mkDelete PROTOCOL_VERSION pk nonce sig deposit_ids)) in
  lift (match answer with MF_DeleteOk ok => Ok ok | _ => Err (client_error MailboxClient_Malformed) end).

Definition client_probe (identity_hash : bytes) : action W unit CoreError :=
  let! answer := request (MF_Challenge (mkChallenge PROTOCOL_VERSION identity_hash)) in
  lift (match answer with MF_ChallengeNonce _ => Ok tt | _ => Err (client_error MailboxClient_Malformed) end).
End client.
