(* ===== verification/MailboxEndToEnd.v ===== *)
(** * MailboxEndToEnd: the mailbox client against the mailbox server

    The client of [crates/core/src/mailbox/client.rs] ([MailboxClient]) talking to
    the server of [crates/mailbox] ([MailboxServer]) over the two codecs, while
    other connections and the background sweeps do anything in between. *)

From S2P Require Import Prelude Framing SimpleCodec CoreErrors MailboxProtocol MailboxStore MailboxCodec Float64.
From S2P Require Import MailboxPolicy MailboxAuth DepositStore MailboxDispatch MailboxServer Identity MailboxClient.

(** A world and the number of requests made so far. *)
Record session : Type := mkSession { ses_world : World Store; ses_requests : nat }.

(** The event is not one of connection [cid]. *)
Definition foreign (cid : nat) (ev : event) : Prop :=
  match ev with
  | EvConnect c _ | EvBytes c _ | EvLoop c _ | EvClose c => c ≠ cid
  | EvExpireSweep _ | EvChallengeSweep _ => True
  end.

Section talk.
Context {sha : Sha256} {ed : Ed25519}.
Context {ser3 : Serialize (Z * bytes * bytes)} {ser4 : Serialize (Z * bytes * bytes * list bytes)}.
Context {wire : MailboxWire}.
(** The connection; what happens elsewhere before a request is handled, and the
    clocks and random bytes the server then reads. *)
Context (cid : nat) (others : nat → list event) (oracle : nat → Oracle).

(** The client waits on a connection that the server has closed or never
    accepted: the stream ends. *)
Definition outcome_of (r : reply) : talk_outcome :=
  match r with
  | Reply _ b =>
      match client_decode b with
      | (_, Ok (Some f)) => Next (Ok f)
      | (_, Ok None) => Eof
      | (_, Err e) => Next (Err e)
      end
  | Hangup _ | NoReply => Eof
  end.

Definition talk_events (s : session) (b : bytes) : list event := others (ses_requests s) ++ [EvBytes cid b].

Definition talk_server (f : MailboxFrame) (s : session) : session * talk_outcome :=
  match client_encode f [] with
  | Err _ => (s, SendFailed)
  | Ok b =>
      let '(w, r) := step (run (ses_world s) (talk_events s b)) (EvLoop cid (oracle (ses_requests s))) in
      (mkSession w (S (ses_requests s)), outcome_of r)
  end.

(** The connection is open and nothing is buffered on it. *)
Definition idle (w : World Store) : Prop := ∃ c, w_conns w !! cid = Some c ∧ cn_buffer c = [].

Lemma foreign_send (w : World Store) c f : c ≠ cid → w_conns (MailboxServer.send w c f).1 !! cid = w_conns w !! cid.
Proof.
  intros Hne. unfold MailboxServer.send. destruct (server_encode f []); [done|]. unfold close.
  cbn [fst]. destruct (w_conns w !! c); [|done]. cbn [w_conns]. by rewrite lookup_delete_ne.
Qed.

Lemma foreign_step (w : World Store) ev : foreign cid ev → w_conns (step w ev).1 !! cid = w_conns w !! cid.
Proof.
  destruct ev as [c now|c data|c o|c|now|now]; cbn [foreign]; intros Hne; cbn [step fst].
  - unfold serve_connection. case_decide; [|done]. cbn [w_conns]. by rewrite lookup_insert_ne.
  - cbn [w_conns]. by rewrite lookup_alter_ne.
  - unfold loop_iteration. destruct (w_conns w !! c) as [k|]; [|done].
    destruct (server_decode (cn_buffer k)) as [rest [[f|]|e]]; [|done|].
    + destruct (MailboxServer.dispatch _ _ _) as [ctx resp]. rewrite foreign_send by done. cbn [w_conns].
      by rewrite lookup_insert_ne.
    + rewrite foreign_send by done. cbn [w_conns]. by rewrite lookup_insert_ne.
  - unfold close. destruct (w_conns w !! c); [|done]. cbn [w_conns]. by rewrite lookup_delete_ne.
  - done.
  - unfold challenge_tick. by destruct (sv_challenges_poisoned _).
Qed.

Lemma foreign_run (w : World Store) evs : Forall (foreign cid) evs → w_conns (run w evs) !! cid = w_conns w !! cid.
Proof.
  revert w. induction evs as [|ev evs IH]; intros w; [done|]. intros [Hev Hevs]%Forall_cons.
  rewrite run_cons, IH by done. by apply foreign_step.
Qed.

Context {laws : MailboxWireLaws} (Hothers : ∀ n, Forall (foreign cid) (others n)).

(** Before the server looks, the connection holds just the request. *)
Lemma talk_conn s b :
  idle (ses_world s) →
  ∃ c, w_conns (run (ses_world s) (talk_events s b)) !! cid = Some c ∧ cn_buffer c = b.
Proof.
  intros (c & Hc & Hbuf). unfold talk_events. rewrite run_app.
  set (w := run (ses_world s) (others (ses_requests s))).
  assert (w_conns w !! cid = Some c) as Hw by (unfold w; by rewrite foreign_run).
  eexists. cbn. rewrite lookup_alter_eq, Hw. split; [done|]. cbn. by rewrite Hbuf.
Qed.

(** An answer is the server's, and the connection is idle again. *)
Lemma talk_Next s s' f f' :
  idle (ses_world s) → talk_server f s = (s', Next (Ok f')) →
  ∃ b, client_encode f [] = Ok b ∧
    let w := run (ses_world s) (talk_events s b) in
    let o := oracle (ses_requests s) in
    request_of w (EvLoop cid o) = Some (f, o) ∧
    ses_world s' = (step w (EvLoop cid o)).1 ∧ answer (step w (EvLoop cid o)).2 = Some f' ∧ idle (ses_world s').
Proof.
  intros Hidle. unfold talk_server. destruct (client_encode f []) as [b|e] eqn:Eb; [|done].
  destruct (talk_conn s b Hidle) as (c & Hc & Hbuf).
  apply client_encode_server in Eb as Hdec. apply (server_decode_encode f b []) in Hdec. rewrite app_nil_r in Hdec.
  destruct (step _ _) as [w' r] eqn:Es. intros [= <- Hr]. exists b. split; [done|]. cbn zeta. rewrite Es.
  split; [cbn; rewrite Hc; cbn; by rewrite Hbuf, Hdec|]. split; [done|]. cbn [fst snd ses_world].
  cbn in Es. unfold loop_iteration in Es. rewrite Hc, Hbuf, Hdec in Es.
  destruct (MailboxServer.dispatch _ _ _) as [ctx resp]. unfold MailboxServer.send in Es.
  destruct (server_encode _ []) as [wb|] eqn:Ew; injection Es as <- <-; [|done].
  apply (server_decode_encode _ wb []), server_decode_client in Ew. rewrite app_nil_r in Ew.
  cbn in Hr. rewrite Ew in Hr. injection Hr as ->. split; [done|].
  eexists. split; [apply lookup_insert_eq|done].
Qed.

(** A request that succeeded, as an exchange with the server. *)
Lemma request_Ok s s' f f' :
  idle (ses_world s) → MailboxClient.request talk_server f s = (s', Ok f') →
  ∃ b c ctx resp, let w := run (ses_world s) (talk_events s b) in let o := oracle (ses_requests s) in
    client_encode f [] = Ok b ∧ request_of w (EvLoop cid o) = Some (f, o) ∧
    MailboxServer.dispatch f o (make_ctx (w_server w) c) = (ctx, resp) ∧
    f' = match resp with Ok g => g | Err e => error_frame e end ∧
    ses_world s' = (step w (EvLoop cid o)).1 ∧ sv_store (w_server (ses_world s')) = store ctx ∧
    ses_requests s' = S (ses_requests s) ∧ idle (ses_world s').
Proof.
  intros Hidle. unfold MailboxClient.request. destruct (talk_server f s) as [s1 o] eqn:E. intros [= <- Ho].
  assert (o = Next (Ok f')) as ->.
  { destruct o as [|[g|e]|]; try done. destruct g; try done; by injection Ho as ->. }
  assert (ses_requests s1 = S (ses_requests s)) as Hn.
  { unfold talk_server in E. destruct (client_encode f []); [|done]. destruct (step _ _). by injection E as <- _. }
  apply talk_Next in E as (b & Hb & Hreq & Hw & Hans & Hidle'); [|done]. exists b.
  destruct (step_request _ _ _ _ Hreq) as (c & ctx & resp & Hd & Hst & _ & _ & Ha).
  exists c, ctx, resp. rewrite Hans in Ha. injection Ha as ->. rewrite <- Hw in Hst. done.
Qed.
End talk.

Section end_to_end.
Context {sha : Sha256} {ed : Ed25519} {scheme : SignatureScheme}.
Context {ser3 : Serialize (Z * bytes * bytes)} {ser4 : Serialize (Z * bytes * bytes * list bytes)}.
Context {wire : MailboxWire} {laws : MailboxWireLaws}.

(** What an accepted deposit leaves in the store. *)
Lemma client_deposit_Ok p (Hp : valid_policy p) cid others oracle s s' rh ct ttl ok :
  world_inv p (DepositStoreLaws0 := sqlite_store_laws _ (proj1 Hp)) (ses_world s) →
  (∀ n, Forall (foreign cid) (others n)) → idle cid (ses_world s) →
  client_deposit (talk_server cid others oracle) rh ct ttl s = (s', Ok ok) →
  world_inv p (DepositStoreLaws0 := sqlite_store_laws _ (proj1 Hp)) (ses_world s') ∧
  ∃ t, mkDepositRow (dok_deposit_id ok) rh ct t (dok_expires_at ok) ∈ rows (sv_store (w_server (ses_world s'))).
Proof.
  intros Hinv Hoth Hidle (s1 & f & Hreq & Hf)%bind_action_Ok. injection Hf as <- Hf.
  apply request_Ok in Hreq as (b & c & ctx & resp & _ & Hr & Hd & -> & Hw & Hst & _ & _); [|done..].
  pose proof (run_inv p (DepositStoreLaws0 := sqlite_store_laws _ (proj1 Hp)) (proj1 (proj2 Hp)) _
    (talk_events cid others s b) Hinv) as Hi.
  split; [rewrite Hw; by apply step_inv; [apply Hp|]|].
  destruct resp as [g|e]; [|done]. apply handle_deposit_cases in Hd as (_ & _ & _ & ttl' & id & _ & Hsz & _ & -> & Hins).
  injection Hf as <-. exists (o_now (oracle (ses_requests s))). rewrite Hst. cbn in Hins. unfold insert_for in Hins.
  cbn [policy make_ctx store] in Hins, Hsz. rewrite (winv_policy _ _ Hi) in Hins, Hsz.
  apply (ds_insert_law (DepositStoreLaws := sqlite_store_laws _ (proj1 Hp))) in Hins as (_ & -> & kept & _ & Hrows).
  - cbn in Hrows |- *. rewrite Hrows. set_solver.
  - apply Hi.
  - eapply deposit_size_fits; [exact Hsz|apply Hp].
Qed.

(** The events from the start of a request with a challenge to the moment the
    server handles its second frame. *)
Definition two_requests (cid : nat) (others : nat → list event) (oracle : nat → Oracle) (n : nat) (b b' : bytes)
    : list event :=
  others n ++ [EvBytes cid b; EvLoop cid (oracle n)] ++ others (S n) ++ [EvBytes cid b'].

Lemma two_requests_run cid others oracle s s1 b b' :
  ses_world s1 = (step (run (ses_world s) (talk_events cid others s b)) (EvLoop cid (oracle (ses_requests s)))).1 →
  ses_requests s1 = S (ses_requests s) →
  run (ses_world s1) (talk_events cid others s1 b') = run (ses_world s) (two_requests cid others oracle (ses_requests s) b b').
Proof.
  intros Hw Hn. unfold two_requests, talk_events in *. rewrite Hn, Hw. unfold run. by rewrite !foldl_app.
Qed.

(** The two requests of a fetch, as they are sent: a challenge for the key's hash,
    and a fetch signed over the nonce. *)
Definition fetch_bytes (k : IdentityKey) (nonce b b' : bytes) : Prop :=
  client_encode (MF_Challenge (mkChallenge PROTOCOL_VERSION (recipient_hash_from_pubkey (public k)))) [] = Ok b ∧
  ∃ sig, client_encode (MF_Fetch (mkFetch PROTOCOL_VERSION (public k) nonce sig)) [] = Ok b'.

(** What a fetch returns. *)
Lemma client_fetch_Ok cid others oracle s s' k resp :
  (∀ n, Forall (foreign cid) (others n)) → idle cid (ses_world s) →
  client_fetch (talk_server cid others oracle) k s = (s', Ok resp) →
  ∃ b b' nonce, fetch_bytes k nonce b b' ∧ let w := run (ses_world s) (two_requests cid others oracle (ses_requests s) b b') in
    let now := o_now (oracle (S (ses_requests s))) in
    ses_world s' = (step w (EvLoop cid (oracle (S (ses_requests s))))).1 ∧ idle cid (ses_world s') ∧
    sv_store (w_server (ses_world s')) = sv_store (w_server w) ∧ ses_requests s' = S (S (ses_requests s)) ∧
    resp = mkFetchResponse (to_pending <$> (to_stored <$>
      order_by deposited_at (visible (sha256 (public k)) now (rows (sv_store (w_server w)))))).
Proof.
  intros Hoth Hidle (s1 & nonce & Hch & H)%bind_action_Ok.
  apply bind_action_Ok in H as (s2 & digest & Hdig & H). injection Hdig as <- _.
  apply bind_action_Ok in H as (s3 & f & Hreq & Hf). injection Hf as <- Hf.
  apply bind_action_Ok in Hch as (s2 & f1 & Hch & Hf1). injection Hf1 as <- _.
  apply request_Ok in Hch as (d1 & _ & _ & _ & Hb1 & _ & _ & _ & Hw1 & _ & Hn1 & Hidle1); [|done..].
  apply request_Ok in Hreq as (d2 & c & ctx & r & Hb2 & _ & Hd & -> & Hw & Hst & Hn & Hidle2); [|done..].
  exists d1, d2, nonce. split; [split; [done|by eexists]|]. cbn zeta. rewrite <- (two_requests_run _ _ _ _ _ _ _ Hw1 Hn1). rewrite Hn1 in *.
  destruct r as [g|e]; [|done].
  apply handle_fetch_cases in Hd as (_ & _ & [(_ & _ & ? & ?)|(dg & v & _ & _ & Hrest)]); [done|].
  destruct Hrest as [(_ & _ & ? & ?)|(_ & rf & Hfe & Hg)]; [done|].
  apply fetch_law in Hfe as [Hsame Hds]. destruct rf as [ds|e]; [|done]. injection Hg as ->. injection Hf as <-.
  rewrite Hst, Hsame. split_and!; try done. by rewrite (Hds ds eq_refl).
Qed.

(** Success of a delete removes the listed deposits of the key, and only a
    request of at most [max_delete_ids] ids succeeds. *)
Lemma client_delete_Ok p (Hp : valid_policy p) cid others oracle s s' k ids ok :
  world_inv p (DepositStoreLaws0 := sqlite_store_laws _ (proj1 Hp)) (ses_world s) →
  (∀ n, Forall (foreign cid) (others n)) → idle cid (ses_world s) →
  client_delete (talk_server cid others oracle) k ids s = (s', Ok ok) →
  len ids ≤ max_delete_ids p ∧
  ∃ b b', let w := run (ses_world s) (two_requests cid others oracle (ses_requests s) b b') in
    ses_world s' = (step w (EvLoop cid (oracle (S (ses_requests s))))).1 ∧
    rows (sv_store (w_server (ses_world s'))) =
      filter (λ row, ¬ delete_hit (sha256 (public k)) ids row) (rows (sv_store (w_server w))).
Proof.
  intros Hinv Hoth Hidle (s1 & nonce & Hch & H)%bind_action_Ok.
  apply bind_action_Ok in H as (s2 & digest & Hdig & H). injection Hdig as <- _.
  apply bind_action_Ok in H as (s3 & f & Hreq & Hf). injection Hf as <- Hf.
  apply bind_action_Ok in Hch as (s2 & f1 & Hch & Hf1). injection Hf1 as <- _.
  apply request_Ok in Hch as (d1 & _ & _ & _ & _ & _ & _ & _ & Hw1 & _ & Hn1 & Hidle1); [|done..].
  apply request_Ok in Hreq as (d2 & c & ctx & r & _ & _ & Hd & -> & Hw & Hst & Hn & Hidle2); [|done..].
  pose proof (run_inv p (DepositStoreLaws0 := sqlite_store_laws _ (proj1 Hp)) (proj1 (proj2 Hp)) _
    (two_requests cid others oracle (ses_requests s) d1 d2) Hinv) as Hi.
  rewrite <- (two_requests_run _ _ _ _ _ _ _ Hw1 Hn1) in Hi. destruct r as [g|e]; [|done].
  apply handle_delete_cases in Hd as (_ & _ & [(_ & _ & ? & ?)|(dg & v & Hlen & _ & _ & Hrest)]); [done|].
  cbn [policy make_ctx del_deposit_ids] in Hlen. rewrite (winv_policy _ _ Hi) in Hlen. split; [done|].
  destruct Hrest as [(_ & _ & ? & ?)|(_ & rd & Hdel & Hg)]; [done|]. destruct rd as [x|e]; [|done].
  apply (ds_delete_law (DepositStoreLaws := sqlite_store_laws _ (proj1 Hp))) in Hdel as [_ Hrows]; [|apply Hi].
  exists d1, d2. cbn zeta. rewrite <- (two_requests_run _ _ _ _ _ _ _ Hw1 Hn1). rewrite Hn1 in Hw.
  split; [done|]. rewrite Hst. exact Hrows.
Qed.

(** C9: a deposit reaches its recipient.  After a client's deposit for a key was
    accepted, and whatever the server's other clients and its sweeps do next, a
    successful fetch with that key returns the deposited bytes under the id the
    depositor was given, unless the deposit's expiry has passed or the server handled
    an authentic request of its owner to delete it.  The events are those of the run:
    the fetch's own two requests in it are a challenge and a fetch. *)
Theorem mailbox_delivers p now_f start cidA othersA oracleA k ct ttl n s1 ok evs cidB othersB oracleB m s2 resp :
  valid_policy p →
  (∀ i, Forall (foreign cidA) (othersA i)) → (∀ i, Forall (foreign cidB) (othersB i)) →
  idle cidA (run (initial p now_f) start) →
  client_deposit (talk_server cidA othersA oracleA) (recipient_hash_from_pubkey (public k)) ct ttl
    (mkSession (run (initial p now_f) start) n) = (s1, Ok ok) →
  len (dok_deposit_id ok) = 16 →
  idle cidB (run (ses_world s1) evs) →
  client_fetch (talk_server cidB othersB oracleB) k (mkSession (run (ses_world s1) evs) m) = (s2, Ok resp) →
  ∃ t nonce b b', fetch_bytes k nonce b b' ∧
    let r := mkDepositRow (dok_deposit_id ok) (recipient_hash_from_pubkey (public k)) ct t (dok_expires_at ok) in
    mkPendingDeposit (dok_deposit_id ok) ct t ∈ fr_deposits resp ∨
    dok_expires_at ok ≤ o_now (oracleB (S m)) ∨
    ∃ evs1 ev evs2, evs ++ two_requests cidB othersB oracleB m b b' = evs1 ++ ev :: evs2 ∧
      (past_expiry ev r ∨ owner_deletes (run (ses_world s1) evs1) ev r).
Proof.
  intros Hp HA HB HiA Hdep Hid HiB Hfetch.
  apply (client_deposit_Ok p Hp) in Hdep as (Hinv & t & Hrow); [|apply run_inv, initial_inv; apply Hp|done..].
  apply client_fetch_Ok in Hfetch as (b & b' & nonce & Hb & _ & _ & _ & _ & ->); [|done..]. cbn [ses_world ses_requests] in *.
  exists t, nonce, b, b'. split; [done|]. cbn zeta. set (r := mkDepositRow _ _ _ _ _) in Hrow |- *. rewrite <- run_app in *.
  set (during := two_requests _ _ _ _ _ _).
  destruct (decide (r ∈ rows (sv_store (w_server (run (ses_world s1) (evs ++ during)))))) as [Hin|Hout].
  - destruct (decide (dok_expires_at ok ≤ o_now (oracleB (S m)))) as [Hle|Hgt]; [by right; left|left].
    cbn [fr_deposits]. rewrite <- list_fmap_compose. apply list_elem_of_fmap. exists r. split.
    + unfold to_pending, to_stored. cbn. by rewrite decide_True.
    + apply elem_of_order_by, list_elem_of_filter. split; [|done]. split; [done|]. cbn. lia.
  - right. right. by apply (run_loses p (DepositStoreLaws0 := sqlite_store_laws _ (proj1 Hp)) (proj1 (proj2 Hp))).
Qed.
End end_to_end.

(** ** Witness: two clients of one server *)

#[local] Existing Instance sample_sha256.
#[local] Existing Instance sample_ed25519.
#[local] Existing Instance serialize_of.
#[local] Existing Instance sample_wire.
#[local] Existing Instance toy_scheme.

Definition two_connections : list event := [EvConnect 0 (f64_of_Z 100); EvConnect 1 (f64_of_Z 100)].
Definition at_time (t : Z) (n : nat) : Oracle := sample_oracle (t + Z.of_nat n).
Definition quiet (n : nat) : list event := [].
Definition reader : IdentityKey := mkIdentityKey sample_key.
Definition deposit_run : session * result DepositOk CoreError :=
  client_deposit (talk_server 0 quiet (at_time 200)) (recipient_hash_from_pubkey (public reader)) (fill 3 Byte.x05) 0
    (mkSession (run (initial recommended (f64_of_Z 100)) two_connections) 0).
Definition fetch_run : session * result FetchResponse CoreError :=
  client_fetch (talk_server 1 quiet (at_time 300)) reader
    (mkSession (run (ses_world deposit_run.1) [EvExpireSweep 250]) 0).

Lemma mailbox_delivers_witness :
  deposit_run.2 = Ok (mkDepositOk (fill 16 Byte.x07) 605000) ∧
  ∃ t nonce b b', fetch_bytes reader nonce b b' ∧ let r := mkDepositRow (fill 16 Byte.x07) sample_key (fill 3 Byte.x05) t 605000 in
    mkPendingDeposit (fill 16 Byte.x07) (fill 3 Byte.x05) t ∈
      fr_deposits (mkFetchResponse [mkPendingDeposit (fill 16 Byte.x07) (fill 3 Byte.x05) 200]) ∨
    605000 ≤ o_now (at_time 300 1) ∨
    ∃ evs1 ev evs2, [EvExpireSweep 250] ++ two_requests 1 quiet (at_time 300) 0 b b' = evs1 ++ ev :: evs2 ∧
      (past_expiry ev r ∨ owner_deletes (run (ses_world deposit_run.1) evs1) ev r).
Proof.
  split; [vm_compute; reflexivity|].
  refine (mailbox_delivers (laws := sample_wire_laws) recommended (f64_of_Z 100) two_connections 0 quiet (at_time 200)
    reader (fill 3 Byte.x05) 0 0 deposit_run.1 (mkDepositOk (fill 16 Byte.x07) 605000) [EvExpireSweep 250] 1 quiet
    (at_time 300) 0 fetch_run.1 _ recommended_valid _ _ _ _ _ _ _).
  - intros i. constructor.
  - intros i. constructor.
  - eexists. split; vm_compute; reflexivity.
  - vm_compute. reflexivity.
  - reflexivity.
  - eexists. split; vm_compute; reflexivity.
  - vm_compute. reflexivity.
Defined.
