(* ===== verification/Poll.v ===== *)
(** * Poll: polling our mailboxes

    [crates/core/src/mailbox/poll.rs]: one poll cycle ([poll_dispatch_once]), the
    cadence, and the per-mailbox actors with their supervisor.  The mailbox at the
    other end of a connection is the parameter [talk] of [MailboxClient]; what an
    actor waits for (a signal or the end of its sleep) and whether it can connect
    are inputs.  Durations and instants are nanoseconds. *)

From S2P Require Import Prelude Text Framing SimpleCodec CoreErrors Sql MailboxProtocol MailboxCodec Identity Contacts Messages.
From S2P Require Import Receiver Attachments Mls Invites FirstContact Mailboxes Api Daemon MailboxClient.

(** ** Cadence *)

Definition seconds (n : Z) : Z := n * 1000000000.
Definition ACTIVE_BASE : Z := seconds 15.
Definition IDLE_BASE : Z := seconds 60.
Definition IDLE_CEILING : Z := seconds (5 * 60).
Definition ACTIVE_HOLD : Z := seconds (5 * 60).
Definition FAILURE_THRESHOLD : Z := 5.

Record PollCadence : Type := mkCadence { active_base : Z; idle_base : Z; idle_ceiling : Z; active_hold : Z }.
Definition default_cadence : PollCadence := mkCadence ACTIVE_BASE IDLE_BASE IDLE_CEILING ACTIVE_HOLD.

Definition base_interval (active unreachable : bool) (c : PollCadence) : Z :=
  match active, unreachable with
  | _, true => idle_ceiling c
  | true, false => active_base c
  | false, false => idle_base c
  end.

(** [delta] is what [gen_range(-jitter_range..=jitter_range)] drew. *)
Definition jitter_range (active unreachable : bool) (c : PollCadence) : Z := base_interval active unreachable c / 4.
Definition next_interval (active unreachable : bool) (c : PollCadence) (delta : Z) : Z :=
  Z.max (base_interval active unreachable c + delta) 0.

(** ** One poll *)

(** Both ends of a poll. *)
Definition at_mailbox {W} : field (W * daemon) W := mkField fst (λ w s, (w, s.2)).
Definition at_daemon {W} : field (W * daemon) daemon := mkField snd (λ d s, (s.1, d)).

Section poll.
Context {W : Type} (talk : MailboxFrame → W → W * talk_outcome).
Context {sha : Sha256} {scheme : SignatureScheme}.
Context {ser3 : Serialize (Z * bytes * bytes)} {ser4 : Serialize (Z * bytes * bytes * list bytes)}.

(** [run_one_poll_tick]. *)
Definition run_one_poll_tick (k : IdentityKey) : action W FetchResponse CoreError :=
  let! resp := client_fetch talk k in
  let! _ := (if decide (fr_deposits resp = []) then lift (Ok (mkDeleteOk 0 0))
             else client_delete talk k (pd_deposit_id <$> fr_deposits resp)) in
  lift (Ok resp).

(** [dispatch_attachment_chunk(ct) || dispatch_mailbox(ct).is_some()]; a daemon
    without a dispatcher accepts nothing. *)
Context (accept : PendingDeposit → daemon → daemon * bool).

(** The loop over the fetched deposits: the ids of those accepted. *)
Fixpoint dispatch_all (deposits : list PendingDeposit) (d : daemon) : daemon * list bytes :=
  match deposits with
  | [] => (d, [])
  | dep :: rest =>
      let '(d1, ok) := accept dep d in
      let '(d2, ids) := dispatch_all rest d1 in
      (d2, if ok then pd_deposit_id dep :: ids else ids)
  end.

Definition poll_dispatch_once (k : IdentityKey) : action (W * daemon) Z CoreError :=
  let! resp := on at_mailbox (client_fetch talk k) in
  if decide (fr_deposits resp = []) then lift (Ok 0)
  else
    let! ids := modify_get at_daemon (dispatch_all (fr_deposits resp)) in
    let! _ := (if decide (ids = []) then lift (Ok (mkDeleteOk 0 0)) else on at_mailbox (client_delete talk k ids)) in
    lift (Ok (len ids)).

(** ** A poll actor *)

Record poll_actor : Type := mkActor { pa_status : MailboxStatus; pa_failures : Z; pa_active_until : option Z }.

Definition error_kind_str (e : CoreError) : string :=
  match e with
  | Core_MailboxClient MailboxClient_Unreachable => "unreachable"
  | Core_MailboxClient MailboxClient_RateLimited => "rate_limited"
  | Core_MailboxClient MailboxClient_RecipientFull => "recipient_full"
  | Core_MailboxClient MailboxClient_InvalidSignature => "invalid_signature"
  | Core_MailboxClient MailboxClient_NonceExpired => "nonce_expired"
  | Core_MailboxClient MailboxClient_Malformed => "malformed"
  | Core_MailboxClient MailboxClient_HashMismatch => "hash_mismatch"
  | Core_MailboxClient MailboxClient_UnsupportedVersion => "unsupported_version"
  | Core_MailboxClient (MailboxClient_Other _) => "other"
  | _ => "other"
  end.

(** The start of [actor_loop]: an actor without a row exits. *)
Definition actor_new (id : Z) (t : mailboxes) : option poll_actor :=
  (λ row, mkActor (mr_status row) 0 None) <$> mb_get id t.

(** What the loop sleeps for at [instant]. *)
Definition is_active (instant : Z) (a : poll_actor) : bool :=
  match pa_active_until a with Some deadline => bool_decide (instant < deadline) | None => false end.
Definition sleep_for (c : PollCadence) (instant delta : Z) (a : poll_actor) : Z :=
  next_interval (is_active instant a) (bool_decide (pa_status a = Unreachable)) c delta.

(** [ActorSignal::BumpActive]. *)
Definition bump_active (c : PollCadence) (instant : Z) (a : poll_actor) : poll_actor :=
  mkActor (pa_status a) (pa_failures a) (Some (instant + active_hold c)).

(** A status that is not the last reported one is stored and announced. *)
Definition report (id : Z) (s : MailboxStatus) (a : poll_actor) (d : daemon) : poll_actor * daemon :=
  if decide (pa_status a = s) then (a, d)
  else
    let d1 := fset (of_db f_mailboxes) (mark_status id s (fget (of_db f_mailboxes) d)) d in
    (mkActor s (pa_failures a) (pa_active_until a), (emit (E := CoreError) (Ev_MailboxStatusChanged id s) d1).1).

Definition update_mailboxes (f : mailboxes → mailboxes) (d : daemon) : daemon :=
  fset (of_db f_mailboxes) (f (fget (of_db f_mailboxes) d)) d.

(** A failed connection or cycle. *)
Definition poll_failed (id : Z) (e : CoreError) (now : Z) (a : poll_actor) (d : daemon) : poll_actor * daemon :=
  let a1 := mkActor (pa_status a) (Z.min (pa_failures a + 1) u32_max) (pa_active_until a) in
  let d1 := update_mailboxes (record_error id (error_kind_str e) now) d in
  if decide (FAILURE_THRESHOLD ≤ pa_failures a1) then report id Unreachable a1 d1 else (a1, d1).

(** The result of a cycle. *)
Definition poll_done (id : Z) (c : PollCadence) (r : result Z CoreError) (now instant : Z) (a : poll_actor) (d : daemon)
    : poll_actor * daemon :=
  match r with
  | Ok dispatched =>
      let a1 := mkActor (pa_status a) 0
        (if decide (0 < dispatched) then Some (instant + active_hold c) else pa_active_until a) in
      report id Reachable a1 d
  | Err (Core_MailboxClient MailboxClient_RateLimited) =>
      report id RateLimited a
        (update_mailboxes (record_error id (error_kind_str (Core_MailboxClient MailboxClient_RateLimited)) now) d)
  | Err e => poll_failed id e now a d
  end.

(** One tick: [conn] is what connecting gave. *)
Definition poll_tick (id : Z) (c : PollCadence) (k : IdentityKey) (conn : result W CoreError) (now instant : Z)
    (a : poll_actor) (d : daemon) : poll_actor * daemon :=
  match conn with
  | Err e => poll_failed id e now a d
  | Ok w =>
      let d1 := update_mailboxes (touch_poll id now) d in
      let '((_, d2), r) := poll_dispatch_once k (w, d1) in
      poll_done id c r now instant a d2
  end.
End poll.

(** ** The supervisor *)

Inductive PollerCtrl : Type := Ctrl_AddMailbox (id : Z) | Ctrl_RemoveMailbox (id : Z) | Ctrl_BumpActive | Ctrl_Shutdown.

(** The actors, by mailbox; [None] is an actor that found no row and exited. *)
Abbreviation poll_actors := (gmap Z (option poll_actor)).

(** [SELECT id FROM mailboxes WHERE role = 'mine' ORDER BY registered_at, id]. *)
Definition initial_rows (t : mailboxes) : list Z := mr_id <$> list_mine t.
Definition supervisor_start (t : mailboxes) : poll_actors :=
  foldl (λ m id, <[id := actor_new id t]> m) ∅ (initial_rows t).

(** One control message: [None] once the supervisor has stopped.  [lands] tells
    which actors have room for a signal. *)
Definition supervisor_ctrl (c : PollCadence) (lands : Z → bool) (instant : Z) (t : mailboxes) (m : PollerCtrl)
    (actors : poll_actors) : option poll_actors :=
  match m with
  | Ctrl_AddMailbox id =>
      Some (match actors !! id with None => <[id := actor_new id t]> actors | Some _ => actors end)
  | Ctrl_RemoveMailbox id => Some (base.delete id actors)
  | Ctrl_BumpActive => Some (map_imap (λ id a, Some (match a with Some x => Some (if lands id then bump_active c instant x else x) | None => None end)) actors)
  | Ctrl_Shutdown => None
  end.
