(* ===== verification/PollProps.v ===== *)
(** * PollProps: what polling guarantees

    Theorems about [Poll]: a poll deletes from the mailbox exactly what the daemon
    accepted, against the modelled server it cannot delete more deposits than the
    server's limit, the sleep stays within a quarter of its base, and a restart
    brings a removed mailbox back. *)

From S2P Require Import Prelude Text Framing SimpleCodec CoreErrors Float64 MailboxStore MailboxAuth DepositStore MailboxPolicy MailboxDispatch.
From S2P Require Import MailboxServer MailboxEndToEnd Sql MailboxProtocol MailboxCodec Identity Contacts Messages.
From S2P Require Import Receiver Attachments Mls Invites FirstContact Mailboxes Api Daemon MailboxClient Poll.

(** ** What a poll sends *)

(** A mailbox that remembers the frames it was sent. *)
Definition logged {W} (talk : MailboxFrame → W → W * talk_outcome) (f : MailboxFrame) (s : W * list MailboxFrame)
    : (W * list MailboxFrame) * talk_outcome :=
  let '(w, o) := talk f s.1 in ((w, s.2 ++ [f]), o).

Section poll_facts.
Context {W : Type} (talk : MailboxFrame → W → W * talk_outcome).
Context {sha : Sha256} {scheme : SignatureScheme}.
Context {ser3 : Serialize (Z * bytes * bytes)} {ser4 : Serialize (Z * bytes * bytes * list bytes)}.
Context (accept : PendingDeposit → daemon → daemon * bool).

(** The daemon when the [i]-th deposit is dispatched. *)
Definition daemon_at (deposits : list PendingDeposit) (i : nat) (d : daemon) : daemon :=
  (dispatch_all accept (take i deposits) d).1.

Lemma dispatch_all_accepted deposits d id :
  id ∈ (dispatch_all accept deposits d).2 →
  ∃ i dep, deposits !! i = Some dep ∧ pd_deposit_id dep = id ∧ (accept dep (daemon_at deposits i d)).2 = true.
Proof.
  revert d. induction deposits as [|dep rest IH]; intros d; cbn [dispatch_all]; [by intros ?%elem_of_nil|].
  destruct (accept dep d) as [d1 ok] eqn:Ea. specialize (IH d1).
  assert (id ∈ (dispatch_all accept rest d1).2 → ∃ i dep', (dep :: rest) !! i = Some dep' ∧ pd_deposit_id dep' = id ∧
    (accept dep' (daemon_at (dep :: rest) i d)).2 = true) as Hrest.
  { intros (i & dep' & Hi & Hid & Ha)%IH. exists (S i), dep'. split_and!; [done..|].
    unfold daemon_at in *. cbn [take dispatch_all]. rewrite Ea. destruct (dispatch_all accept (take i rest) d1) as [d2 ids].
    by destruct ok. }
  destruct (dispatch_all accept rest d1) as [d2 ids]. cbn [snd] in *. destruct ok; [|done].
  intros [->|Hin]%elem_of_cons; [|by apply Hrest]. exists 0%nat, dep. split_and!; [done..|]. cbn. by rewrite Ea.
Qed.

Definition is_delete (f : MailboxFrame) : bool := match f with MF_Delete _ => true | _ => false end.

Lemma request_logged f s s' r : MailboxClient.request (logged talk) f s = (s', r) → s'.2 = s.2 ++ [f].
Proof.
  unfold MailboxClient.request, logged. destruct (talk f s.1) as [w o]. by intros [= <- _].
Qed.

(** The challenge and the fetch send no delete. *)
Lemma fetch_logged k s s' r :
  client_fetch (logged talk) k s = (s', r) → ∃ sent, s'.2 = s.2 ++ sent ∧ Forall (λ f, is_delete f = false) sent.
Proof.
  unfold client_fetch, client_challenge, bind_action, lift.
  destruct (MailboxClient.request _ _ s) as [s1 [f1|e1]] eqn:E1; apply request_logged in E1.
  2:{ intros [= <- _]. eexists. split; [exact E1|by repeat constructor]. }
  destruct f1; try (intros [= <- _]; eexists; (split; [exact E1|by repeat constructor])).
  destruct (map_err _ _) as [dg|e]; [|intros [= <- _]; eexists; (split; [exact E1|by repeat constructor])].
  destruct (MailboxClient.request _ _ s1) as [s2 r2] eqn:E2; apply request_logged in E2. intros Hs.
  assert (s' = s2) as -> by (by destruct r2; injection Hs as <- _).
  eexists. rewrite E2, E1, <- app_assoc. split; [done|by repeat constructor].
Qed.

Lemma delete_logged k ids s s' r :
  client_delete (logged talk) k ids s = (s', r) →
  ∃ sent, s'.2 = s.2 ++ sent ∧ ∀ b, MF_Delete b ∈ sent → del_deposit_ids b = ids.
Proof.
  unfold client_delete, client_challenge, bind_action, lift.
  destruct (MailboxClient.request _ _ s) as [s1 [f1|e1]] eqn:E1; apply request_logged in E1.
  2:{ intros [= <- _]. eexists. split; [exact E1|]. by intros b ?%list_elem_of_singleton. }
  destruct f1; try (intros [= <- _]; eexists; (split; [exact E1|]); by intros b' ?%list_elem_of_singleton).
  destruct (map_err _ _) as [dg|e]; [|intros [= <- _]; eexists; (split; [exact E1|]); by intros b' ?%list_elem_of_singleton].
  destruct (MailboxClient.request _ _ s1) as [s2 r2] eqn:E2; apply request_logged in E2. intros Hs.
  assert (s' = s2) as -> by (by destruct r2; injection Hs as <- _).
  eexists. rewrite E2, E1, <- app_assoc. split; [done|].
  intros b' [?|[= ->]%list_elem_of_singleton]%elem_of_cons; done.
Qed.

(** C34: a poll deletes only what the daemon accepted.  Every id in a [Delete] a
    poll sends is that of a fetched deposit whose bytes the daemon's dispatcher had
    accepted before the request was sent; a deposit that could not be dispatched
    stays in the mailbox for the next poll.  This holds for every mailbox, honest
    or not, and on every outcome of the poll. *)
Theorem poll_deletes_accepted k w d s' r :
  poll_dispatch_once (logged talk) accept k ((w, []), d) = (s', r) →
  ∀ b id, MF_Delete b ∈ s'.1.2 → id ∈ del_deposit_ids b →
  ∃ resp w1 i dep, client_fetch (logged talk) k (w, []) = (w1, Ok resp) ∧
    fr_deposits resp !! i = Some dep ∧ pd_deposit_id dep = id ∧
    (accept dep (daemon_at (fr_deposits resp) i d)).2 = true.
Proof.
  unfold poll_dispatch_once, bind_action at 1, on at 1. cbn [fget at_mailbox fst].
  destruct (client_fetch _ _ _) as [w1 r1] eqn:Ef. pose proof Ef as (sent & Hs & Hno)%fetch_logged. cbn [fset snd].
  cbn in Hs. assert (∀ b, MF_Delete b ∉ w1.2) as Hnone.
  { intros b Hb. rewrite Hs in Hb. rewrite Forall_forall in Hno. by apply Hno in Hb. }
  destruct r1 as [resp|e]; [|intros [= <- _] b id Hb; by apply Hnone in Hb].
  case_decide as Hnil; [intros [= <- _] b id Hb; by apply Hnone in Hb|].
  unfold bind_action at 1, modify_get. cbn [fget fset at_mailbox at_daemon fst snd].
  destruct (dispatch_all accept (fr_deposits resp) d) as [d2 ids] eqn:Ed.
  unfold bind_action at 1. case_decide as Hids; [intros [= <- _] b id Hb; by apply Hnone in Hb|].
  unfold on at 1. cbn [fget at_mailbox fst]. destruct (client_delete _ _ _ _) as [w2 r2] eqn:Edel.
  apply delete_logged in Edel as (sent2 & Hs2 & Hdel). intros Hr.
  assert (s'.1 = w2) as -> by (by destruct r2; injection Hr as <- _).
  intros b id Hb Hid. rewrite Hs2 in Hb. apply elem_of_app in Hb as [Hb|Hb]; [by apply Hnone in Hb|].
  rewrite (Hdel b Hb) in Hid. replace ids with (dispatch_all accept (fr_deposits resp) d).2 in Hid by (by rewrite Ed).
  apply dispatch_all_accepted in Hid as (i & dep & ? & ? & ?). by exists resp, w1, i, dep.
Qed.
End poll_facts.

(** ** Against the modelled server *)

Section poll_server.
Context {sha : Sha256} {ed : MailboxAuth.Ed25519} {scheme : SignatureScheme}.
Context {ser3 : Serialize (Z * bytes * bytes)} {ser4 : Serialize (Z * bytes * bytes * list bytes)}.
Context {wire : MailboxWire} {laws : MailboxWireLaws}.
Context (accept : PendingDeposit → daemon → daemon * bool).

(** A poll cannot empty a full mailbox.  A poll sends the ids of all the
    deposits the daemon accepted in one [Delete]; when they are more than the
    server's [max_delete_ids], the server refuses it and the poll ends in an error,
    although the daemon accepted every one of them. *)
Theorem poll_over_delete_limit p now_f start cid others oracle k n d s' r s1 resp :
  valid_policy p → in_u32 (max_delete_ids p) → (∀ i, Forall (foreign cid) (others i)) → idle cid (run (initial p now_f) start) →
  poll_dispatch_once (talk_server cid others oracle) accept k (mkSession (run (initial p now_f) start) n, d) = (s', r) →
  client_fetch (talk_server cid others oracle) k (mkSession (run (initial p now_f) start) n) = (s1, Ok resp) →
  max_delete_ids p < len (dispatch_all accept (fr_deposits resp) d).2 →
  ∃ e, r = Err e.
Proof.
  intros Hp Hmax Hoth Hidle Hpoll Hfetch Hmany. unfold poll_dispatch_once, bind_action at 1, on at 1 in Hpoll.
  cbn [fget fset at_mailbox at_daemon fst snd] in Hpoll. rewrite Hfetch in Hpoll.
  destruct (decide (fr_deposits resp = [])) as [Hnil|_].
  { rewrite Hnil in Hmany. cbn in Hmany. unfold in_u32 in Hmax. change (len (@nil bytes)) with 0 in Hmany. lia. }
  unfold bind_action at 1, modify_get in Hpoll. cbn [fget fset at_mailbox at_daemon fst snd] in Hpoll.
  destruct (dispatch_all accept (fr_deposits resp) d) as [d2 ids]. cbn [snd] in Hmany.
  apply client_fetch_Ok in Hfetch as (b & b' & nonce & _ & Hw1 & Hidle1 & _); [|done..].
  unfold bind_action at 1 in Hpoll. destruct (decide (ids = [])) as [->|_]; [unfold in_u32 in Hmax; change (len (@nil bytes)) with 0 in Hmany; lia|].
  unfold on at 1 in Hpoll. cbn [fget fset at_mailbox at_daemon fst snd] in Hpoll.
  destruct (client_delete _ _ _ _) as [s2 [ok|e]] eqn:Edel; [|injection Hpoll as _ <-; by exists e].
  apply (client_delete_Ok p Hp) in Edel as [Hle _]; [lia| |done|done].
  rewrite Hw1. apply step_inv; [apply Hp|]. do 2 (apply run_inv; [apply Hp|]). by apply initial_inv.
Qed.
End poll_server.

(** ** The cadence *)

(** The sleep before a poll stays within a quarter of its base. *)
Lemma next_interval_range active unreachable c delta :
  0 ≤ base_interval active unreachable c →
  - jitter_range active unreachable c ≤ delta ≤ jitter_range active unreachable c →
  3 * base_interval active unreachable c ≤ 4 * next_interval active unreachable c delta
    ≤ 5 * base_interval active unreachable c.
Proof.
  unfold next_interval, jitter_range. set (b := base_interval _ _ _). intros Hb Hd.
  pose proof (Z.div_mod b 4 ltac:(lia)). pose proof (Z.mod_pos_bound b 4 ltac:(lia)). lia.
Qed.

(** ** Removed mailboxes *)

Lemma mb_get_row t row : mailboxes_wf t → row ∈ t_rows t → mb_get (mb_id row) t = Some (mailbox_of row).
Proof.
  intros [Hids _ _ _] Hr. unfold mb_get. by rewrite (filter_key mb_id _ row (wf_ids _ _ Hids) Hr).
Qed.

Lemma supervisor_start_lookup t id :
  id ∈ initial_rows t → supervisor_start t !! id = Some (actor_new id t).
Proof.
  unfold supervisor_start. set (m := ∅ : poll_actors). clearbody m. revert m.
  induction (initial_rows t) as [|i l IH]; intros m; [by intros ?%elem_of_nil|]. cbn [foldl].
  intros Hin. destruct (decide (id ∈ l)) as [Hl|Hl]; [by apply IH|].
  apply elem_of_cons in Hin as [->|?]; [|done]. clear IH.
  assert (∀ m' : poll_actors, m' !! i = Some (actor_new i t) →
    foldl (λ m0 id0, <[id0 := actor_new id0 t]> m0) m' l !! i = Some (actor_new i t)) as H.
  { clear m. induction l as [|j l IH]; intros m' Hm; [done|]. cbn [foldl]. apply IH; [set_solver|].
    by rewrite lookup_insert_ne by set_solver. }
  apply H, lookup_insert_eq.
Qed.

Lemma list_mine_row t row : row ∈ t_rows t → mb_role row = "mine" → mailbox_of row ∈ list_mine t.
Proof.
  intros Hr Hm. unfold list_mine. apply list_elem_of_fmap_2. rewrite merge_sort_Permutation.
  by apply list_elem_of_filter.
Qed.

Lemma mb_update_row id f t row :
  row ∈ t_rows t → mb_id row = id → f row ∈ t_rows (mb_update id f t).
Proof.
  intros Hr <-. unfold mb_update, t_update. cbn. apply list_elem_of_fmap. exists row. by rewrite decide_True.
Qed.

Lemma reachable_row id row t :
  row ∈ t_rows t → mb_id row = id → mb_role row = "mine" → mb_onion row ∈ reachable_mine (mark_status id Reachable t).
Proof.
  intros Hr Hid Hm. unfold reachable_mine, mark_status.
  set (f := λ r, mkMailboxRow _ _ _ _ _ _ _ _). pose proof (mb_update_row id f t row Hr Hid) as Hin.
  apply list_elem_of_fmap. exists (mailbox_of (f row)). split; [done|].
  apply list_elem_of_filter. split; [done|]. by apply list_mine_row.
Qed.

(** A restart brings a removed mailbox back.  [RemoveMailbox] leaves the row
    with status [removed], and the supervisor starts an actor for every row of ours
    whatever its status: the first poll that succeeds marks the mailbox reachable
    again, and the next card advertises it to every contact. *)
Theorem removed_mailbox_returns {W} (talk : MailboxFrame → W → W * talk_outcome) {sha : Sha256} {scheme : SignatureScheme}
    {ser3 : Serialize (Z * bytes * bytes)} {ser4 : Serialize (Z * bytes * bytes * list bytes)}
    (accept : PendingDeposit → daemon → daemon * bool) c k row d w now instant w' d2 n :
  let t := finalize_removal (mb_id row) (d_mailboxes (dm_db d)) in
  let d1 := update_mailboxes (λ _, t) d in
  mailboxes_wf (d_mailboxes (dm_db d)) → row ∈ t_rows (d_mailboxes (dm_db d)) → mb_role row = "mine" →
  poll_dispatch_once talk accept k (w, update_mailboxes (touch_poll (mb_id row) now) d1) = ((w', d2), Ok n) →
  d_mailboxes (dm_db d2) = touch_poll (mb_id row) now t →
  ∃ a, supervisor_start t !! mb_id row = Some (Some a) ∧ pa_status a = Removed ∧
    let d3 := (poll_tick talk accept (mb_id row) c k (Ok w) now instant a d1).2 in
    mb_onion row ∈ reachable_mine (d_mailboxes (dm_db d3)) ∧
    Ev_MailboxStatusChanged (mb_id row) Reachable ∈ dm_events d3.
Proof.
  intros t d1 Hwf Hrow Hmine Hpoll Hd2. set (f := λ r, mkMailboxRow (mb_id r) (mb_onion r) (mb_registered_at r) (mb_role r)
    (status_as_sql Removed) (mb_last_poll_at r) (mb_last_error_at r) (mb_last_error_kind r)).
  assert (f row ∈ t_rows t) as Ht by (by apply (mb_update_row _ f)).
  assert (mailboxes_wf t) as Hwft by (apply mb_update_wf; [|done]; intros r; split_and!; try done; eauto).
  exists (mkActor Removed 0 None). split_and!; [|done|].
  { rewrite supervisor_start_lookup.
    - unfold actor_new. change (mb_id row) with (mb_id (f row)). by rewrite (mb_get_row t (f row) Hwft Ht).
    - unfold initial_rows. apply list_elem_of_fmap. exists (mailbox_of (f row)). split; [done|]. by apply list_mine_row. }
  cbn zeta. unfold poll_tick. rewrite Hpoll. cbn [poll_done]. unfold report. rewrite decide_False by done.
  split.
  - cbn. rewrite Hd2. eapply (reachable_row (mb_id row) (mkMailboxRow _ _ _ _ _ (Some now) _ _)); [|done..].
    by apply (mb_update_row (mb_id row) (λ r, mkMailboxRow (mb_id r) (mb_onion r) (mb_registered_at r) (mb_role r) (mb_status r)
      (Some now) (mb_last_error_at r) (mb_last_error_kind r)) t (f row)).
  - cbn. set_solver.
Qed.

(** ** Witnesses: polls of the mailbox of [MailboxEndToEnd] *)

#[local] Existing Instance sample_sha256.
#[local] Existing Instance sample_ed25519.
#[local] Existing Instance serialize_of.
#[local] Existing Instance sample_wire.
#[local] Existing Instance toy_scheme.

Definition accept_all (dep : PendingDeposit) (d : daemon) : daemon * bool := (d, true).
Definition first_poll : ((session * list MailboxFrame) * daemon) * result Z CoreError :=
  poll_dispatch_once (logged (talk_server 1 quiet (at_time 300))) accept_all reader
    ((mkSession (ses_world deposit_run.1) 0, []), start empty_db).

Lemma poll_deletes_accepted_witness :
  first_poll.2 = Ok 1 ∧
  ∃ b, MF_Delete b ∈ first_poll.1.1.2 ∧ fill 16 Byte.x07 ∈ del_deposit_ids b ∧
  ∃ resp w1 i dep,
    client_fetch (logged (talk_server 1 quiet (at_time 300))) reader (mkSession (ses_world deposit_run.1) 0, []) = (w1, Ok resp) ∧
    fr_deposits resp !! i = Some dep ∧ pd_deposit_id dep = fill 16 Byte.x07 ∧
    (accept_all dep (daemon_at accept_all (fr_deposits resp) i (start empty_db))).2 = true.
Proof.
  split; [vm_compute; reflexivity|].
  assert (∃ b, last first_poll.1.1.2 = Some (MF_Delete b) ∧ del_deposit_ids b = [fill 16 Byte.x07]) as (b & Hb & Hids)
    by (eexists; split; vm_compute; reflexivity).
  apply last_Some_elem_of in Hb. assert (fill 16 Byte.x07 ∈ del_deposit_ids b) as Hin by (rewrite Hids; by apply list_elem_of_singleton).
  exists b. split; [exact Hb|]. split; [exact Hin|].
  exact (poll_deletes_accepted (talk_server 1 quiet (at_time 300)) accept_all reader (mkSession (ses_world deposit_run.1) 0)
    (start empty_db) first_poll.1 first_poll.2 (surjective_pairing first_poll) b (fill 16 Byte.x07) Hb Hin).
Defined.

(** A mailbox whose policy allows one id in a delete holds two deposits. *)
Definition one_id_policy : Policy :=
  let p := recommended in
  mkPolicy (max_deposit_size p) (min_ttl_secs p) (max_ttl_secs p) (default_ttl_secs p) (recipient_cap_bytes p)
    (per_conn_deposits_per_min p) (per_conn_fetches_per_min p) (global_deposits_per_min p) (global_storage_cap_bytes p)
    (max_recipients p) (idle_timeout_secs p) (max_connections p) 1.
Definition deposit_as (id : byte) (now : Z) : list event :=
  [EvBytes 0 (on_wire sample_deposit); EvLoop 0 (mkOracle now (f64_of_Z now) (fill 16 id) sample_nonce)].
Definition two_deposits : list event := two_connections ++ deposit_as Byte.x01 200 ++ deposit_as Byte.x02 201.
Definition full_session : session := mkSession (run (initial one_id_policy (f64_of_Z 100)) two_deposits) 0.

Lemma poll_over_delete_limit_witness :
  ∃ e, (poll_dispatch_once (talk_server 1 quiet (at_time 300)) accept_all reader (full_session, start empty_db)).2 = Err e.
Proof.
  destruct (client_fetch (talk_server 1 quiet (at_time 300)) reader full_session) as [s1 [resp|e]] eqn:Ef;
    [|vm_compute in Ef; discriminate].
  refine (poll_over_delete_limit (laws := sample_wire_laws) accept_all one_id_policy (f64_of_Z 100) two_deposits 1 quiet
    (at_time 300) reader 0 (start empty_db) _ _ s1 resp _ _ _ _ (surjective_pairing _) Ef _).
  - vm_compute. repeat split; discriminate.
  - vm_compute. repeat split; discriminate.
  - intros i. constructor.
  - eexists. split; vm_compute; reflexivity.
  - vm_compute in Ef. injection Ef as _ <-. vm_compute. reflexivity.
Defined.

(** Our mailbox, removed, and polled by the next run of the daemon. *)
Definition our_mailbox : mailbox_row := mkMailboxRow 1 "box.onion" 50 "mine" "reachable" None None None.
Definition with_mailbox : daemon := update_mailboxes (λ _, mkTable [our_mailbox] 1) (start empty_db).

Lemma removed_mailbox_returns_witness :
  let t := finalize_removal 1 (mkTable [our_mailbox] 1) in
  reachable_mine t = [] ∧
  ∃ a, supervisor_start t !! 1 = Some (Some a) ∧ pa_status a = Removed ∧
    let d3 := (poll_tick (talk_server 1 quiet (at_time 300)) accept_all 1 default_cadence reader
      (Ok (mkSession (ses_world deposit_run.1) 0)) 300 0 a (update_mailboxes (λ _, t) with_mailbox)).2 in
    "box.onion" ∈ reachable_mine (d_mailboxes (dm_db d3)) ∧ Ev_MailboxStatusChanged 1 Reachable ∈ dm_events d3.
Proof.
  intros t. split; [vm_compute; reflexivity|].
  destruct (poll_dispatch_once (talk_server 1 quiet (at_time 300)) accept_all reader
    (mkSession (ses_world deposit_run.1) 0, update_mailboxes (touch_poll 1 300) (update_mailboxes (λ _, t) with_mailbox)))
    as [[w' d2] [n|e]] eqn:E; [|vm_compute in E; discriminate].
  apply (removed_mailbox_returns (talk_server 1 quiet (at_time 300)) accept_all default_cadence reader our_mailbox with_mailbox
    (mkSession (ses_world deposit_run.1) 0) 300 0 w' d2 n).
  - split; [|vm_compute; discriminate| |].
    + split; [apply NoDup_singleton|]. intros r ->%list_elem_of_singleton. cbn. lia.
    + apply NoDup_singleton.
    + intros r ->%list_elem_of_singleton. by eexists.
  - by apply list_elem_of_singleton.
  - reflexivity.
  - exact E.
  - vm_compute in E. injection E as _ <- _. vm_compute. reflexivity.
Defined.
