(* ===== verification/ContactCommands.v ===== *)
(** * ContactCommands: the commands on contacts

    [crates/core/src/daemon/dispatch.rs]: [list_contacts], [create_invite],
    [add_contact], [rename_contact], [remove_contact] and [set_contact_muted].
    A handler runs on the daemon's state; the clock, the random bytes and the
    outcomes of dialling are its arguments.  A read of a poisoned lock or a disk
    error is not modelled. *)

From S2P Require Import Prelude Text Framing SimpleCodec CoreErrors Sql MailboxProtocol Identity Contacts Messages.
From S2P Require Import Receiver Attachments Mls Invites FirstContact Mailboxes Api Daemon.

(** ** Handlers *)

(** An error reply, or a panic. *)
Inductive handler_failure : Type := Reply (e : IpcError) | Abort.
Abbreviation handler := (action daemon CommandResult handler_failure).

(** [map_err(map_err)?]. *)
Definition reply (e : CoreError) : handler_failure := Reply (ipc_error e).
Definition try {A T} (f : field daemon A) (c : action A T CoreError) : action daemon T handler_failure :=
  map_error reply (on f c).
Definition try_lift {T} (r : result T CoreError) : action daemon T handler_failure := lift (map_err reply r).
Definition try_read {A T} (f : field daemon A) (c : A → result T CoreError) : action daemon T handler_failure :=
  read_try f (λ a, map_err reply (c a)).

Definition daemon_error (k : DaemonErrorKind) : handler_failure := Reply (Ipc_Daemon k).
Definition bad_argument (message : string) : handler_failure := Reply (invalid_argument message).

Section handlers.
Context {om : OpenMls} {scheme : SignatureScheme} {sha : Sha256} {b64 : Base64Url}.
Context {ser_p : Serialize provider} {de_p : Deserialize provider}.
Context {ser_env : Serialize Envelope} {de_env : Deserialize Envelope}.
Context {ser_card : Serialize ContactCard} {de_card : Deserialize ContactCard}.
Context {ser_body : Serialize ContactCardBody} {ser_link : Serialize InviteLinkBody}.
(** The daemon's identity. *)
Context (me : IdentityKey).

(** ** [list_contacts] *)

(** The preview of the latest message of a group. *)
Definition preview (row : StoredMessage) : option string :=
  b ← sm_body_blob row;
  match decode_envelope b with
  | Ok env => match e_kind env with Text body => Some (truncate_preview body 80) | _ => None end
  | Err _ => None
  end.

(** The state of the group, before pending Welcomes are looked at. *)
Definition loaded_state (gid : bytes) (t : mls_groups) : MlsGroupStateLabel :=
  match group_load gid t with
  | Ok (Some _) => Label_Active
  | Ok None => Label_PendingJoin
  | Err _ => Label_Corrupt
  end.

Definition group_state (peer : bytes) (gid : option bytes) (db : daemon_db) : option MlsGroupStateLabel :=
  match (λ g, loaded_state g (d_groups db)) <$> gid with
  | Some Label_Active => if pw_is_pending peer (d_pending db) then Some Label_PendingJoin else Some Label_Active
  | other => other
  end.

Definition summary (db : daemon_db) (c : Contact) : ContactSummary :=
  let gid := get_group_id (identity c) (d_contacts db) in
  let msgs := rd_messages (d_recv db) in
  let latest := g ← gid; latest_for_group g msgs in
  mkContactSummary (identity c) (display_name c)
    (match card c with Some k => card_onion (card_body k) | None => EmptyString end)
    (match card c with Some k => card_version (card_body k) | None => 0 end)
    (u64_or_zero (added_at c))
    (match gid with Some g => unread_count g msgs | None => 0 end)
    (row ← latest; preview row)
    ((λ row, u64_or_zero (sm_ts_daemon_recv row)) <$> latest)
    (group_state (identity c) gid db)
    (g ← gid; read_cursor g msgs)
    (muted c)
    (match card c with Some k => card_mailboxes (card_body k) | None => [] end)
    (pw_is_failed (identity c) (d_pending db)).

(** [sort_by]: recent conversations first, then recently added contacts. *)
Definition listed_before (a b : ContactSummary) : Prop :=
  match cs_last_ts_recv a, cs_last_ts_recv b with
  | Some av, Some bv => bv < av ∨ bv = av ∧ cs_added_at b ≤ cs_added_at a
  | Some _, None => True
  | None, Some _ => False
  | None, None => cs_added_at b ≤ cs_added_at a
  end.
#[global] Instance listed_before_dec : RelDecision listed_before.
Proof. intros a b. unfold listed_before. repeat case_match; apply _. Defined.

Definition list_contacts_cmd (include_hidden : bool) : handler :=
  let! cs := try_read (of_db f_contacts) (λ t, if include_hidden then list_all t else list_contacts t) in
  let! db := gets dm_db in
  lift (Ok (Res_Contacts (merge_sort listed_before (summary db <$> cs)))).

(** ** [create_invite] *)

(** The optional nickname of an invite: blank is no nickname. *)
Definition invite_nickname (nickname : option string) : result (option string) handler_failure :=
  match nickname with
  | None => Ok None
  | Some s =>
      let t := str_trim s in
      if decide (t = EmptyString) then Ok None
      else if decide (64 < count_chars t)%nat then Err (bad_argument "nickname must be 64 characters or fewer")
      else Ok (Some t)
  end.

(** [KeyPackage::generate] with a new provider. *)
Definition kp_generate_new (rng : bytes) (now : Z) : action key_packages (OmKeyPackage * provider) CoreError := λ t,
  let '((p, t'), r) := kp_generate rng now me (provider_new, t) in (t', let? kp := r in Ok (kp, p)).

Definition create_invite (onion : option string) (rng psk : bytes) (now : Z) (nickname : option string)
    (ttl_secs : option Z) : handler :=
  let! nickname := lift (invite_nickname nickname) in
  let! onion := lift (ok_or onion (daemon_error Daemon_TorNotReady)) in
  let ttl := default (24 * 3600) ttl_secs in
  let! generated := try (of_db f_kps) (kp_generate_new rng now) in
  let '(kp, p) := generated in
  let! kp_ref := try_lift (key_package_ref kp) in
  let! kp_bytes := try_lift (kp_to_bytes kp) in
  let! mailboxes := read (of_db f_mailboxes) reachable_mine in
  let! card := try (of_db f_card_version) (build_next_self_card me onion mailboxes DEFAULT_TTL_SECS now) in
  let! link := try_lift (generate me card kp_bytes psk ttl now) in
  let! url := try_lift (to_url link) in
  let! snap := try_lift (snapshot p) in
  let! _ := modify (of_db f_invites) (oi_put_with_provider kp_ref psk kp_bytes snap (now + ttl) now nickname) in
  lift (Ok (Res_InviteCreated url kp_ref (u64_or_zero (now + ttl)))).

(** ** [add_contact] *)

Definition DIAL_ATTEMPTS : nat := 5.

(** The attempts, until one succeeds: [dials i] is the outcome of attempt [i]. *)
Fixpoint redial (dials : nat → result bytes CoreError) (attempt fuel : nat) (r : result bytes CoreError)
    : result bytes CoreError :=
  match fuel with
  | O => r
  | S fuel' => match r with Ok h => Ok h | Err _ => redial dials (S attempt) fuel' (dials attempt) end
  end.
Definition dial (dials : nat → result bytes CoreError) : result bytes handler_failure :=
  map_err (λ e, match CoreErrors.kind e with Some k => daemon_error k | None => daemon_error Daemon_DeliveryTimeout end)
    (redial dials 1 (DIAL_ATTEMPTS - 1) (dials O)).

(** [Group::create_solo] with a new provider, then [add_member]. *)
Definition genesis (rng gid kp_ref psk h_transport : bytes) (kp : OmKeyPackage) : result (Group * bytes) CoreError :=
  let? g := (create_solo rng gid me (Some (kp_ref, psk)) (Some (kp_ref, h_transport)) provider_new).2 in
  let '(g', r) := add_member rng kp (Some (kp_ref, psk)) (Some (kp_ref, h_transport)) g in
  let? wc := r in
  Ok (g', wc.1).

(** The transaction of [add_contact]. *)
Definition persist_contact (link : InviteLink) (g : Group) (welcome : bytes) (now now_ms : Z)
    : action daemon_db unit CoreError :=
  let inviter := card_identity (card_body (il_card (link_body link))) in
  atomically (
    let! spent := read f_kps (is_consumed link) in
    let! _ := ensure (negb spent) (Core_Invite Invite_Consumed) in
    let! _ := on f_contacts (upsert (mkContact inviter None now None false)) in
    let! _ := on_tx f_contacts (put_card_body now (il_card (link_body link))) in
    let! _ := on_tx f_groups (group_save_in_tx g) in
    let! _ := on f_contacts (set_group_id inviter (g_id g)) in
    let! _ := on_tx f_kps (mark_consumed_in_tx link) in
    modify f_pending (pw_insert_in_tx inviter (g_id g) welcome now_ms now_ms)).

(** The summary of a contact just added. *)
Definition added_summary (link : InviteLink) (now : Z) : ContactSummary :=
  let c := card_body (il_card (link_body link)) in
  mkContactSummary (card_identity c) None (card_onion c) 0 (u64_or_zero now) 0 None None (Some Label_PendingJoin)
    None false [] false.

Definition add_contact (dials : nat → result bytes CoreError) (rng gid : bytes) (now now_ms : Z)
    (invite_url : string) : handler :=
  let! link := try_lift (from_url invite_url now) in
  let! _ := try (of_db f_kps) (record_received now link) in
  let! spent := read (of_db f_kps) (is_consumed link) in
  let! _ := ensure (negb spent) (daemon_error Daemon_InviteConsumed) in
  let card := il_card (link_body link) in
  let! invitee_kp := try_lift (kp_from_bytes (il_key_package (link_body link))) in
  let! kp_ref := try_lift (key_package_ref invitee_kp) in
  let! _ := try_lift (card_verify card now) in
  let! h_transport := lift (dial dials) in
  let! made := try_lift (genesis rng gid kp_ref (link_psk link) h_transport invitee_kp) in
  let '(g, welcome) := made in
  let! _ := try f_db (persist_contact link g welcome now now_ms) in
  let! _ := emit (Ev_ContactUpdated (card_identity (card_body card))) in
  let! _ := hand_over Nudge in
  lift (Ok (Res_ContactAdded (added_summary link now))).

(** ** [rename_contact], [remove_contact] and [set_contact_muted] *)

Definition rename_nickname (nickname : option string) : result (option string) handler_failure :=
  match nickname with
  | None => Ok None
  | Some s =>
      let t := str_trim s in
      if decide (t = EmptyString) then Err (bad_argument "nickname must not be empty or whitespace-only")
      else if decide (64 < count_chars t)%nat then Err (bad_argument "nickname must be 64 characters or fewer")
      else Ok (Some t)
  end.

Definition rename_contact (contact : bytes) (nickname : option string) : handler :=
  let! trimmed := lift (rename_nickname nickname) in
  let! _ := try (of_db f_contacts) (set_display_name contact trimmed) in
  let! _ := emit (Ev_ContactUpdated contact) in
  lift (Ok Res_Ok).

(** [get(contact)?.is_none()] answered with [ContactNotFound]. *)
Definition known_contact (contact : bytes) : action daemon unit handler_failure :=
  let! c := try_read (of_db f_contacts) (Contacts.get contact) in
  ensure (is_some c) (daemon_error Daemon_ContactNotFound).

(** The transaction of the hard purge. *)
Definition purge_contact (contact : bytes) (group_id : option bytes) : action daemon_db unit CoreError :=
  atomically (
    let! _ := match group_id with
      | Some gid =>
          let! _ := modify f_groups (groups_delete_in_tx gid) in
          modify f_messages (delete_by_group_in_tx gid)
      | None => lift (Ok tt)
      end in
    let! _ := modify f_pending (pw_delete contact) in
    let! _ := modify f_acks (ack_delete_by_peer_in_tx contact) in
    let! _ := modify f_outbox (Outbox.delete_by_target_in_tx contact) in
    on f_contacts (Contacts.remove contact)).

Definition remove_contact (contact : bytes) : handler :=
  let! _ := known_contact contact in
  let! pending := read (of_db f_pending) (pw_is_pending contact) in
  let! _ := (if pending then
               let! group_id := read (of_db f_contacts) (get_group_id contact) in
               try f_db (purge_contact contact group_id)
             else
               let! _ := try (of_db f_contacts) (set_hidden contact true) in
               modify (of_db f_pending) (pw_delete contact)) in
  let! _ := emit (Ev_ContactRemoved contact) in
  lift (Ok (Res_ContactRemoved pending)).

Definition set_contact_muted (contact : bytes) (muted : bool) : handler :=
  let! _ := known_contact contact in
  let! _ := try (of_db f_contacts) (set_muted contact muted) in
  let! _ := emit (Ev_ContactUpdated contact) in
  lift (Ok Res_Ok).
End handlers.
