(* ===== verification/SendCommands.v ===== *)
(** * SendCommands: sending messages and files

    [crates/core/src/daemon/dispatch.rs]: [send_message] and [send_file].  The
    group's lock is held from loading the group to the end of the transaction, so
    that part of a call is one step on the daemon's state.  Message ids, random
    bytes, the clock, the file read from disk and whether the peer acknowledged
    within two seconds are arguments; writing a chunk file does not fail. *)

From S2P Require Import Prelude Text Framing SimpleCodec CoreErrors Sql MailboxProtocol Identity Contacts Messages.
From S2P Require Import Receiver Attachments AttachmentRepo Mls Invites FirstContact Mailboxes Api Daemon ContactCommands.

(** [attachment/mod.rs]. *)
Definition MAX_OFFLINE_ATTACHMENT_BYTES : Z := 10 * 1024 * 1024.
Definition OFFLINE_FALLBACK_STALL_SECS : Z := 90.

Definition to_handler (f : failure) : handler_failure := match f with Error e => reply e | Panic => Abort end.

Definition is_card_update (k : Kind) : bool := match k with ContactCardUpdate _ => true | _ => false end.

(** [Path::file_name] on Unix: the last component, unless it is [..]. *)
Definition file_name (path : string) : option string :=
  match last (filter (λ c, c ≠ EmptyString ∧ c ≠ ".") (split_on (Ascii.ascii_of_nat 47) path)) with
  | Some c => if decide (c = "..") then None else Some c
  | None => None
  end.

Section send.
Context {om : OpenMls} {scheme : SignatureScheme} {sha : Sha256} {crypto : AttachmentCrypto} {img : ImageLibrary}.
Context {ser_p : Serialize provider} {de_p : Deserialize provider}.
Context {ser_env : Serialize Envelope} {de_env : Deserialize Envelope}.
Context {ser_man : Serialize AttachmentManifest}.
Context (me : IdentityKey).

(** The transaction of [send_message]: the advanced ratchet, the message row and
    the outbox row, or none of them. *)
Definition persist_sent (contact gid : bytes) (g : Group) (envelope : Envelope) (ciphertext : bytes)
    (ts_daemon_recv : Z) : action daemon_db Z failure :=
  atomically (
    let! _ := map_error Error (on_tx f_groups (group_save_in_tx g)) in
    let! row_id := on_tx f_messages (Messages.insert_in_tx
      (mkInsertParams gid (public me) envelope (om_epoch (g_inner g)) ts_daemon_recv)) in
    let! _ := modify_get f_outbox (Outbox.insert_in_tx contact (e_id envelope) ciphertext 0) in
    lift (Ok row_id)).

(** What follows the transaction: the job for the peer's actor and the reply. *)
Definition sent (contact : bytes) (g : Group) (envelope : Envelope) (ciphertext : bytes) (acked : bool) (recv row_id : Z)
    : handler :=
  let! _ := hand_over (Job contact (e_id envelope) ciphertext) in
  lift (Ok (Res_MessageSent (e_id envelope) (if acked then Delivered else Queued)
    (Some (project row_id envelope contact (om_epoch (g_inner g)) recv Outgoing None)))).

Definition send_message (rng message_id : bytes) (acked : bool) (now_ms : Z) (contact : bytes) (kind : Kind) : handler :=
  let! _ := ensure (negb (is_card_update kind))
    (bad_argument "ContactCardUpdate is not a user-sendable message kind") in
  let! o := read (of_db f_contacts) (linked_group contact) in
  let! gid := lift (ok_or o (daemon_error Daemon_ContactNotFound)) in
  let! _ := ensure (bool_decide (len gid = 32)) (daemon_error Daemon_GroupCorrupt) in
  let! o := try_read (of_db f_groups) (group_load gid) in
  let! g := lift (ok_or o (daemon_error Daemon_GroupCorrupt)) in
  let! pending := read (of_db f_pending) (pw_is_pending contact) in
  let! _ := ensure (negb pending) (bad_argument "not connected yet — waiting for them to join") in
  let envelope := mkEnvelope 1 message_id now_ms None kind in
  let encrypted := group_encrypt rng envelope g in
  let! ciphertext := try_lift encrypted.2 in
  let recv := Z.quot now_ms 1000 in
  λ d, match on f_db (persist_sent contact gid encrypted.1 envelope ciphertext recv) d with
    | (d', Ok row_id) => sent contact encrypted.1 envelope ciphertext acked recv row_id d'
    | (d', Err (Error (Core_Storage Storage_DuplicateMessage))) => (d', Ok (Res_MessageSent message_id Delivered None))
    | (d', Err e) => (d', Err (to_handler e))
    end.

(** The end of [send_file], after the message is sent. *)
Definition queue_deposits (contact : bytes) (m : AttachmentManifest) (total_chunks now_ms : Z)
    : action daemon unit handler_failure :=
  if decide (total_size m ≤ MAX_OFFLINE_ATTACHMENT_BYTES)
  then modify (of_db f_atts)
         (enqueue_all (attachment_id m) contact total_chunks (now_ms + OFFLINE_FALLBACK_STALL_SECS * 1000))
  else lift (Ok tt).

(** [file] is the result of reading [path]; [aid] and [fk] the random id and key
    of the attachment. *)
Definition send_file (file : result bytes string) (aid fk rng message_id : bytes) (acked : bool) (now now_ms : Z)
    (contact : bytes) (path : string) : handler :=
  let! raw := lift (map_err (λ e, bad_argument ("cannot read file: " +:+ e)) file) in
  let name := chars (default "file" (file_name path)) in
  let! stripped := try_lift (strip_metadata raw (chars "application/octet-stream")) in
  let! made := try_lift (chunk_plaintext stripped.1 name stripped.2 aid fk) in
  let '(m, ciphertexts) := made in
  let! _ := modify f_store (stage (attachment_id m) 0 ciphertexts) in
  let! manifest_cbor := try_lift (to_cbor m) in
  let total_chunks := len (Attachments.chunks m) in
  let! _ := try (of_db f_atts) (att_insert (attachment_id m) "out" manifest_cbor total_chunks now) in
  let! res := send_message rng message_id acked now_ms contact (File manifest_cbor) in
  match res with
  | Res_MessageSent mid _ _ =>
      let! _ := queue_deposits contact m total_chunks now_ms in
      lift (Ok (Res_FileQueued mid (attachment_id m) total_chunks))
  | other => lift (Ok other)
  end.
End send.
