(* ===== verification/MailboxCommands.v ===== *)
(** * MailboxCommands: publishing the self-card and managing mailboxes

    [crates/core/src/daemon/dispatch.rs]: [build_self_card],
    [send_card_to_contact], [publish_self_card_update], [handle_rotate_onion],
    [handle_add_mailbox], [handle_remove_mailbox], [handle_list_mailboxes] and
    [handle_daemon_info].  Connecting to a mailbox, the message ids, random bytes
    and the clock are arguments. *)

From S2P Require Import Prelude Text Framing SimpleCodec CoreErrors Sql MailboxProtocol MailboxCodec Identity Contacts Messages.
From S2P Require Import Receiver Attachments Mls Invites FirstContact Mailboxes Api Daemon MailboxClient Poll ContactCommands.

Section mailbox_commands.
Context {om : OpenMls} {scheme : SignatureScheme} {sha : Sha256}.
Context {ser_p : Serialize provider} {de_p : Deserialize provider}.
Context {ser_env : Serialize Envelope} {de_env : Deserialize Envelope}.
Context {ser_card : Serialize ContactCard} {de_card : Deserialize ContactCard} {ser_body : Serialize ContactCardBody}.
Context {ser3 : Serialize (Z * bytes * bytes)} {ser4 : Serialize (Z * bytes * bytes * list bytes)}.
(** The daemon's identity and published onion. *)
Context (me : IdentityKey) (onion : option string).

(** [build_self_card]. *)
Definition build_self_card (now : Z) : action daemon ContactCard handler_failure :=
  let! o := lift (ok_or onion (daemon_error Daemon_TorNotReady)) in
  let! mailboxes := read (of_db f_mailboxes) reachable_mine in
  try (of_db f_card_version) (build_next_self_card me o mailboxes DEFAULT_TTL_SECS now).

(** [send_card_to_contact]: a contact that cannot be sent to is skipped. *)
Definition send_card_to_contact (rng message_id : bytes) (now_ms : Z) (card : ContactCard) (peer : bytes) (d : daemon)
    : daemon :=
  if pw_is_pending peer (d_pending (dm_db d)) then d
  else
    match linked_group peer (d_contacts (dm_db d)) with
    | None => d
    | Some gid =>
        if decide (len gid ≠ 32) then d
        else
          match group_load gid (d_groups (dm_db d)) with
          | Ok (Some g) =>
              match group_encrypt rng (mkEnvelope 1 message_id now_ms None (ContactCardUpdate card)) g with
              | (g', Ok ciphertext) =>
                  match on (of_db f_groups) (group_save g') d with
                  | (d', Ok _) => (hand_over (E := CoreError) (Job peer message_id ciphertext) d').1
                  | (d', Err _) => d'
                  end
              | (_, Err _) => d
              end
          | _ => d
          end
    end.

(** [publish_self_card_update]: [rng] and [ids] give a contact's random bytes and
    message id. *)
Definition publish_self_card_update (rng ids : bytes → bytes) (now now_ms : Z) : action daemon unit handler_failure :=
  let! card := build_self_card now in
  let! contacts := try_read (of_db f_contacts) list_contacts in
  λ d, (foldl (λ d c, send_card_to_contact (rng (identity c)) (ids (identity c)) now_ms card (identity c) d) d contacts, Ok tt).

(** [handle_rotate_onion]: the onion is not rotated. *)
Definition handle_rotate_onion (rng ids : bytes → bytes) (now now_ms : Z) : handler :=
  let! _ := publish_self_card_update rng ids now now_ms in
  lift (Ok Res_Ok).

(** Mailboxes: how to connect, and what talks at the other end. *)
Context {W : Type} (talk : MailboxFrame → W → W * talk_outcome).
Context (factory : option (string → result W CoreError)) (poller : bool).

Definition probe_reason (e : CoreError) : string :=
  match e with
  | Core_MailboxClient MailboxClient_UnsupportedVersion => "unsupported_version"
  | Core_MailboxClient MailboxClient_RateLimited => "rate_limited"
  | Core_MailboxClient MailboxClient_Malformed => "malformed_response"
  | _ => "other"
  end.

(** A control message to the poll scheduler, when there is one. *)
Definition notify_poller (o : outgoing) : action daemon unit handler_failure :=
  if poller then hand_over o else lift (Ok tt).

Definition handle_add_mailbox (rng ids : bytes → bytes) (now now_ms : Z) (mailbox : string) : handler :=
  let! connect := lift (ok_or factory (bad_argument "mailbox subsystem not initialized")) in
  let! client := lift (map_err (λ _, bad_argument "unreachable") (connect mailbox)) in
  let! _ := lift (map_err (λ e, bad_argument (probe_reason e)) (client_probe talk (sha256 (public me)) client).2) in
  let! id := try (of_db f_mailboxes) (add_mine mailbox now) in
  let! _ := modify (of_db f_mailboxes) (mark_status id Reachable) in
  let! _ := notify_poller (PollAdd id) in
  let! _ := publish_self_card_update rng ids now now_ms in
  lift (Ok Res_Ok).

(** The final drain: [accept] is the inbound dispatcher, if one is wired. *)
Definition final_drain (accept : option (PendingDeposit → daemon → daemon * bool)) (mailbox : string) (d : daemon) : daemon :=
  match factory, accept with
  | Some connect, Some acc =>
      match connect mailbox with
      | Ok client => (poll_dispatch_once talk acc me (client, d)).1.2
      | Err _ => d
      end
  | _, _ => d
  end.

Definition handle_remove_mailbox (accept : option (PendingDeposit → daemon → daemon * bool)) (rng ids : bytes → bytes)
    (now now_ms : Z) (id : Z) : handler :=
  let! o := read (of_db f_mailboxes) (mb_get id) in
  let! row := lift (ok_or o (bad_argument "not_found")) in
  let! _ := modify (of_db f_mailboxes) (mark_pending_removal id) in
  let! _ := emit (Ev_MailboxStatusChanged id PendingRemoval) in
  let! _ := (λ d, (final_drain accept (mr_onion row) d, Ok tt)) in
  let! _ := notify_poller (PollRemove id) in
  let! _ := modify (of_db f_mailboxes) (finalize_removal id) in
  let! _ := emit (Ev_MailboxStatusChanged id Removed) in
  let! _ := publish_self_card_update rng ids now now_ms in
  lift (Ok Res_Ok).

Definition handle_list_mailboxes : handler :=
  let! rows := read (of_db f_mailboxes) list_mine in
  lift (Ok (Res_Mailboxes
    ((λ r, mkMailboxSummary (mr_id r) (mr_onion r) (mr_status r) (u64_or_zero (mr_registered_at r))) <$> rows))).

(** [version] is the crate's and [schema] the database's. *)
Definition handle_daemon_info (version : string) (schema : Z) : handler :=
  lift (Ok (Res_DaemonInfo (public me) onion version schema)).
End mailbox_commands.
