(* ===== verification/Inbound.v ===== *)
(** * Inbound: the daemon's receive path

    [crates/core/src/daemon/inbound.rs]: application messages and Commits from a
    peer or a mailbox, Welcomes on a fresh or an established connection, and
    offline attachment chunks; and what [crates/core/src/daemon/accept.rs] does
    with an accepted connection.  Each function holds its group's lock from loading
    the group to saving it, so a call is one step on the daemon's state; a call
    reads the clock once ([now], seconds).  Writing a chunk file does not fail. *)

From S2P Require Import Prelude Text Framing SimpleCodec CoreErrors PeerFrame Sql MailboxProtocol Identity Contacts Messages.
From S2P Require Import Receiver Attachments ChunkTransfer AttachmentRepo Mls Invites FirstContact Mailboxes Api Daemon.

(** [blake2::Blake2s256]. *)
Class Blake2s : Type := blake2s256 : bytes → bytes.

(** [delivery/peer.rs]: the id under which a Welcome is acknowledged. *)
Definition welcome_msg_id {b2 : Blake2s} (welcome : bytes) : bytes := take 16 (blake2s256 welcome).

(** [begins.entry(peer).or_default().push_back(begin)]. *)
Definition push_begin (peer : bytes) (b : AttachmentBegin) (m : gmap bytes (list AttachmentBegin))
    : gmap bytes (list AttachmentBegin) := <[peer := default [] (m !! peer) ++ [b]]> m.

(** The contact statement of [welcome_join_persist]: [INSERT ... ON CONFLICT DO
    UPDATE SET display_name = COALESCE(excluded, contacts), hidden = 0]. *)
Definition join_upsert (id : bytes) (nickname : option string) (now : Z) (db : contacts_db) : contacts_db :=
  match rows_of id db with
  | [] => set_contacts (t_insert (λ i, mkContactRow i id nickname now [] 0 0) (contacts db)).1 db
  | _ :: _ =>
      (update_contact id (λ r, with_hidden 0
         (with_name (match nickname with Some n => Some n | None => c_display_name r end) r)) db).1
  end.

Section inbound.
Context {om : OpenMls} {scheme : SignatureScheme} {sha : Sha256} {b2 : Blake2s}.
Context {ser_p : Serialize provider} {de_p : Deserialize provider}.
Context {ser_env : Serialize Envelope} {de_env : Deserialize Envelope}.
Context {ser_card : Serialize ContactCard} {de_card : Deserialize ContactCard}.
Context {ser_body : Serialize ContactCardBody}.
Context {ser_man : Serialize AttachmentManifest} {de_man : Deserialize AttachmentManifest}.
(** The wired identity, and whether a chunk store is wired. *)
Context (wired : option IdentityKey) (store_wired : bool).

(** The block for [Kind::File]: a manifest that does not parse, is too large or
    has no chunks is skipped, and a failed insert is only logged. *)
Definition stage_attachment (from manifest_bytes : bytes) (now : Z) : action daemon unit failure := λ d,
  match from_cbor manifest_bytes with
  | Err _ => (d, Ok tt)
  | Ok m =>
      if decide (total_size m ≤ MAX_ATTACHMENT_BYTES ∧ chunks m ≠ []) then
        match on (of_db f_atts) (att_insert (attachment_id m) "in" manifest_bytes (len (chunks m)) now) d with
        | (d', Err _) => (d', Ok tt)
        | (d', Ok _) =>
            (let! _ := modify (of_db f_atts) (set_peer (attachment_id m) from) in
             modify f_begins (push_begin from (mkBegin (attachment_id m) m))) d'
        end
      else (d, Ok tt)
  end.

Definition stage_file (from : bytes) (k : Kind) (now : Z) : action daemon unit failure :=
  match k with File m => stage_attachment from m now | _ => lift (Ok tt) end.

(** The transaction of [dispatch_for_group]: the advanced ratchet, the dedup
    entry and the message row, or none of them. *)
Definition persist_received (from gid : bytes) (g : Group) (envelope : Envelope) (now : Z) (enforce : bool)
    : action daemon_db ReceiveOutcome failure :=
  atomically (
    let! _ := map_error Error (on_tx f_groups (group_save_in_tx g)) in
    let! out := on_tx f_recv (receive_in_tx from gid envelope (i64_clamp (now * 1000)) (om_epoch (g_inner g)) now
      enforce) in
    lift match out with
         | Rejected reason => Err (Error (Core_Delivery (Delivery_Other ("inbound: rejected: " +:+ reason))))
         | _ => Ok out
         end).

(** The [ContactCardUpdate] fast path. *)
Definition receive_card (from : bytes) (card : ContactCard) (mid : bytes) (now : Z) : action daemon bytes failure :=
  let! claimed := lift (map_err Error (card_verify card now)) in
  let! _ := ensure (bool_decide (claimed = from))
    (Error (Core_Contact (Contact_Other "card-update: sender identity mismatch"))) in
  let! _ := map_error Error (on (of_db f_contacts) (put_card now card)) in
  let! _ := emit (Ev_ContactCardReceived from (card_version (card_body card))) in
  lift (Ok mid).

(** The rest of [dispatch_for_group], for a message of another kind. *)
Definition receive_envelope (from gid : bytes) (g : Group) (envelope : Envelope) (now : Z) (enforce : bool)
    : action daemon bytes failure :=
  let! _ := stage_file from (e_kind envelope) now in
  let! outcome := on f_db (persist_received from gid g envelope now enforce) in
  let! _ := match outcome with
    | New env row_id _ _ generation recv =>
        emit (Ev_MessageReceived from (project row_id env from generation recv Incoming None))
    | _ => lift (Ok tt)
    end in
  lift (Ok (e_id envelope)).

Definition dispatch_for_group (from gid ciphertext : bytes) (enforce : bool) (fresh_id : bytes) (now : Z)
    : action daemon bytes failure :=
  let! _ := ensure (bool_decide (len gid = 32)) (Error (mls_error "mls: inbound: bad group_id length")) in
  let! o := read_try (of_db f_groups) (λ t, map_err Error (group_load gid t)) in
  let! g := lift (ok_or o (Error (mls_error "mls: inbound: unknown group_id"))) in
  let decrypted := group_decrypt ciphertext g in
  let! envelope := lift (map_err Error decrypted.2) in
  match envelope with
  | None =>
      let! _ := on f_db (atomically (map_error Error (on_tx f_groups (group_save_in_tx decrypted.1)))) in
      lift (Ok fresh_id)
  | Some env =>
      match e_kind env with
      | ContactCardUpdate card => receive_card from card (e_id env) now
      | _ => receive_envelope from gid decrypted.1 env now enforce
      end
  end.

Definition dispatch_inner (from ciphertext fresh_id : bytes) (now : Z) : action daemon bytes failure :=
  let! o := read (of_db f_contacts) (linked_group from) in
  let! gid := lift (ok_or o (Error (mls_error "mls: inbound: no group for peer"))) in
  dispatch_for_group from gid ciphertext true fresh_id now.

(** [InboundDispatch::dispatch]: the id to acknowledge, if any. *)
Definition ok {S T E} (c : action S T E) (s : S) : S * option T :=
  let '(s', r) := c s in (s', match r with Ok t => Some t | Err _ => None end).
Definition dispatch (from ciphertext fresh_id : bytes) (now : Z) : daemon → daemon * option bytes :=
  ok (dispatch_inner from ciphertext fresh_id now).

(** The group a mailbox deposit belongs to, and its peer. *)
Definition trial (ciphertext gid : bytes) (db : daemon_db) : option bytes :=
  match group_load gid (d_groups db) with
  | Ok (Some g) =>
      match (group_decrypt ciphertext g).2 with
      | Ok (Some _) => if decide (len gid = 32) then contact_for_group gid (d_contacts db) else None
      | _ => None
      end
  | _ => None
  end.

Fixpoint dispatch_trials (groups : list (bytes * Z)) (ciphertext fresh_id : bytes) (now : Z) (d : daemon)
    : daemon * option bytes :=
  match groups with
  | [] => (d, None)
  | (gid, _) :: groups' =>
      match trial ciphertext gid (dm_db d) with
      | Some peer => ok (dispatch_for_group peer gid ciphertext false fresh_id now) d
      | None => dispatch_trials groups' ciphertext fresh_id now d
      end
  end.

(** [dispatch_mailbox] and [dispatch_mailbox_inner]. *)
Definition dispatch_mailbox (ciphertext fresh_id : bytes) (now : Z) (d : daemon) : daemon * option bytes :=
  dispatch_trials (groups_list (d_groups (dm_db d))) ciphertext fresh_id now d.

(** ** Welcomes *)

(** The transaction of [welcome_join_persist]. *)
Definition persist_join (g : Group) (derived kp_sha256 kp_ref : bytes) (nickname : option string)
    (bind_x25519 : option bytes) (now : Z) : action daemon_db unit CoreError :=
  atomically (
    let! _ := on_tx f_groups (group_save_in_tx g) in
    let! _ := modify f_contacts (join_upsert derived nickname now) in
    let! _ := modify f_contacts (λ c, (update_contact derived (with_group (g_id g)) c).1) in
    let! _ := modify f_kps (kp_mark_consumed kp_sha256) in
    let! _ := modify f_invites (oi_mark_consumed kp_ref) in
    match bind_x25519 with
    | Some x => modify f_acks (ack_insert_in_tx kp_ref x derived now)
    | None => lift (Ok tt)
    end).

(** The transport binding: the derived identity's X25519 key is the one the
    handshake authenticated. *)
Definition check_binding (bind_x25519 : option bytes) (derived : bytes) : result unit CoreError :=
  match bind_x25519 with
  | None => Ok tt
  | Some expected =>
      if negb (key_on_curve derived) then Err (mls_error "inbound welcome: derived identity not a valid key")
      else if decide (ed25519_pub_to_x25519 derived = expected) then Ok tt
      else Err (mls_error "inbound welcome: transport identity does not bind to MLS identity")
  end.

Definition welcome_join_persist (welcome : bytes) (bind_x25519 h_transport : option bytes) (now : Z)
    : action daemon bytes CoreError :=
  let! k := lift (ok_or wired (mls_error "inbound welcome: identity not wired")) in
  let! kp_ref := lift (parse_welcome_kp_hash welcome) in
  let! o := read_try (of_db f_invites) (oi_get_psk_and_kp_bytes kp_ref) in
  let! row := lift (ok_or o (mls_error "inbound welcome: unknown kp_ref")) in
  let '(psk, kp_bytes, snap, expires_at, nickname) := row in
  let! _ := ensure (bool_decide (¬ expires_at < now)) (mls_error "inbound welcome: invite expired") in
  let! kp := lift (kp_from_bytes kp_bytes) in
  let! kp_sha256 := lift (kp_hash kp) in
  let! p := lift match snap with Some s => provider_load s | None => Ok provider_new end in
  let! g := lift (join_from_welcome k welcome (Some (kp_ref, psk)) ((λ h, (kp_ref, h)) <$> h_transport) p).2 in
  let! derived := lift (peer_identity g) in
  let! _ := lift (check_binding bind_x25519 derived) in
  let! _ := ensure (bool_decide (len (g_id g) = 32)) (mls_error "inbound welcome: bad group_id length") in
  let! _ := on f_db (persist_join g derived kp_sha256 kp_ref nickname bind_x25519 now) in
  let! _ := emit (Ev_ContactUpdated derived) in
  lift (Ok derived).

(** [lookup] of the Welcome's invite; a Welcome that does not parse and a failed
    lookup fall through to the join. *)
Definition recorded_join (welcome : bytes) (db : daemon_db) : option (bytes * bytes) :=
  match parse_welcome_kp_hash welcome with
  | Err _ => None
  | Ok kp_ref => match ack_lookup kp_ref (d_acks db) with Ok (Some r) => Some r | _ => None end
  end.

Definition dispatch_welcome (peer welcome : bytes) (now : Z) (d : daemon) : daemon * option bytes :=
  match recorded_join welcome (dm_db d) with
  | Some (_, identity) => (d, if decide (identity = peer) then Some (welcome_msg_id welcome) else None)
  | None =>
      let '(d', r) := welcome_join_persist welcome None None now d in
      (d', match r with Ok _ => Some (welcome_msg_id welcome) | Err _ => None end)
  end.

Definition dispatch_welcome_bootstrap (welcome expected_x25519 : bytes) (h_transport : option bytes) (now : Z)
    (d : daemon) : daemon * option bytes :=
  match recorded_join welcome (dm_db d) with
  | Some (x, identity) => (d, if decide (x = expected_x25519) then Some identity else None)
  | None => ok (welcome_join_persist welcome (Some expected_x25519) h_transport now) d
  end.

(** ** [daemon/accept.rs] *)

(** What the bounded read of the first frame gave. *)
Inductive first_read : Type := ReadFrame (f : Frame) | ReadClosed | ReadError | ReadTimeout.
(** The connection is handed to the peer's actor, after an acknowledgement if it
    brought a Welcome, or closed. *)
Inductive accept_outcome : Type := Ingested (peer : bytes) (ack : option bytes) | Closed.

(** [handle_inbound_stream], after a handshake that authenticated the static key
    [peer_x25519] with transcript value [h_transport]. *)
Definition handle_inbound_stream (peer_x25519 h_transport : bytes) (first : first_read) (now : Z) (d : daemon)
    : daemon * accept_outcome :=
  match find_by_noise_x25519 peer_x25519 (d_contacts (dm_db d)) with
  | Ok (Some peer) => (d, Ingested peer None)
  | Ok None =>
      match first with
      | ReadFrame (MlsWelcome b) =>
          match dispatch_welcome_bootstrap b peer_x25519 (Some h_transport) now d with
          | (d', Some peer) => (d', Ingested peer (Some (welcome_msg_id b)))
          | (d', None) => (d', Closed)
          end
      | _ => (d, Closed)
      end
  | Err _ => (d, Closed)
  end.

(** ** Attachments *)

(** [finalize_offline]. *)
Definition finalize_offline (aid : bytes) (m : AttachmentManifest) (d : daemon) : daemon :=
  let contact := default (fill 32 Byte.x00) (peer_for aid (d_atts (dm_db d))) in
  let '(atts, won) := claim_terminal aid Complete (d_atts (dm_db d)) in
  let d' := fset (of_db f_atts) atts d in
  if won
  then (emit (E := CoreError)
    (Ev_AttachmentReceived contact aid (sanitize_received (filename m)) (mime m) (total_size m)) d').1
  else d'.

Definition received_or_none (aid : bytes) (db : att_db) : list Z :=
  match received_indices aid db with Ok l => l | Err _ => [] end.

(** The chunk of the manifest with this hash, and what storing it does. *)
Definition store_offline_chunk (aid ciphertext : bytes) (m : AttachmentManifest) (c : ChunkRef) (d : daemon) : daemon :=
  if decide (cr_index c ∈ received_or_none aid (d_atts (dm_db d))) then d
  else
    let d1 := fset f_store (store_put aid (cr_index c) ciphertext (dm_store d)) d in
    let d2 := fset (of_db f_atts) (mark_received aid (cr_index c) (d_atts (dm_db d1))) d1 in
    let n := len (received_or_none aid (d_atts (dm_db d2))) in
    if decide (len (chunks m) ≤ n) then finalize_offline aid m d2
    else if decide (n mod 8 = 0)
    then (emit (E := CoreError) (Ev_AttachmentProgress aid (as_u32 n) (as_u32 (len (chunks m)))) d2).1
    else d2.

Fixpoint match_pending (pending : list (bytes * bytes)) (ciphertext : bytes) (d : daemon) : daemon * bool :=
  match pending with
  | [] => (d, false)
  | (aid, manifest_bytes) :: pending' =>
      match from_cbor manifest_bytes with
      | Err _ => match_pending pending' ciphertext d
      | Ok m =>
          match head (filter (λ c, cr_ciphertext_hash c = sha256 ciphertext) (chunks m)) with
          | Some c => (store_offline_chunk aid ciphertext m c d, true)
          | None => match_pending pending' ciphertext d
          end
      end
  end.

Definition dispatch_attachment_chunk (ciphertext : bytes) (d : daemon) : daemon * bool :=
  if negb store_wired then (d, false)
  else match_pending (list_pending_in (d_atts (dm_db d))) ciphertext d.

Definition take_begin_attachment (peer : bytes) (d : daemon) : daemon * option AttachmentBegin :=
  match dm_begins d !! peer with
  | Some (b :: rest) => (fset f_begins (<[peer := rest]> (dm_begins d)) d, Some b)
  | _ => (d, None)
  end.

Definition has_pending_begin (peer : bytes) (d : daemon) : bool :=
  match dm_begins d !! peer with Some (_ :: _) => true | _ => false end.

Definition requeue_attachment (peer : bytes) (b : AttachmentBegin) (d : daemon) : daemon :=
  fset f_begins (push_begin peer b (dm_begins d)) d.

(** ** Delivery reports *)

Definition message_delivered (message_id : bytes) (now : Z) (d : daemon) : daemon :=
  match wired with
  | None => d
  | Some k =>
      let '(m, marked) := mark_delivered_by_envelope_id message_id (public k) now (rd_messages (d_recv (dm_db d))) in
      let d' := fset (of_db f_messages) m d in
      if marked then (emit (E := CoreError) (Ev_DeliveryStatusChanged message_id Status_Delivered) d').1 else d'
  end.

Definition attachment_received (contact aid : bytes) (name ty : list Z) (size : Z) (d : daemon) : daemon :=
  (emit (E := CoreError) (Ev_AttachmentReceived contact aid name ty size) d).1.
Definition attachment_progress (aid : bytes) (received total : Z) (d : daemon) : daemon :=
  (emit (E := CoreError) (Ev_AttachmentProgress aid received total) d).1.
Definition attachment_failed (aid : bytes) (reason : string) (d : daemon) : daemon :=
  (emit (E := CoreError) (Ev_AttachmentFailed aid reason) d).1.
End inbound.

(** ** Lemmas *)

(** Nothing but the attachment tables differs. *)
Definition same_but_atts (db db' : daemon_db) : Prop := ∃ a, db' = fset f_atts a db.

Lemma same_but_atts_refl db : same_but_atts db db.
Proof. exists (d_atts db). by destruct db. Qed.

Lemma stage_attachment_frame {sm : Serialize AttachmentManifest} {dem : Deserialize AttachmentManifest} from m now d d' r :
  stage_attachment from m now d = (d', r) →
  r = Ok tt ∧ same_but_atts (dm_db d) (dm_db d') ∧ dm_events d' = dm_events d ∧ dm_out d' = dm_out d ∧
  dm_store d' = dm_store d.
Proof.
  unfold stage_attachment. destruct (from_cbor m) as [man|e].
  2:{ intros [= <- <-]. split_and!; try done. apply same_but_atts_refl. }
  case_decide.
  2:{ intros [= <- <-]. split_and!; try done. apply same_but_atts_refl. }
  unfold on. destruct (att_insert _ _ _ _ _ _) as [a [[]|e]]; intros [= <- <-]; split_and!; try done; by eexists.
Qed.

Section inbound_facts.
Context {om : OpenMls} {scheme : SignatureScheme} {sha : Sha256} {b2 : Blake2s}.
Context {ser_p : Serialize provider} {de_p : Deserialize provider}.
Context {ser_env : Serialize Envelope} {de_env : Deserialize Envelope}.
Context {ser_card : Serialize ContactCard} {de_card : Deserialize ContactCard}.
Context {ser_body : Serialize ContactCardBody}.
Context {ser_man : Serialize AttachmentManifest} {de_man : Deserialize AttachmentManifest}.
Context (wired : option IdentityKey) (store_wired : bool).

Lemma persist_received_cases from gid g env now enforce db db' r :
  persist_received from gid g env now enforce db = (db', r) →
  (∃ e, r = Err e ∧ db' = db) ∨
  ∃ t out rd, group_save_in_tx g (d_groups db) = Ok (t, tt) ∧
    receive from gid env (i64_clamp (now * 1000)) (om_epoch (g_inner g)) now enforce (d_recv db) = (rd, Ok out) ∧
    (∀ reason, out ≠ Rejected reason) ∧ r = Ok out ∧ db' = fset f_recv rd (fset f_groups t db).
Proof.
  unfold persist_received. destruct r as [out|e].
  2:{ rewrite atomically_Err. intros [-> _]. left. eauto. }
  rewrite atomically_Ok. intros H. apply bind_action_Ok in H as (db1 & [] & H1 & H).
  apply bind_action_Ok in H as (db2 & out' & H2 & H).
  unfold map_error, on_tx in H1. destruct (group_save_in_tx g (fget f_groups db)) as [[t []]|] eqn:Eg; [|done].
  injection H1 as <-. unfold on_tx in H2.
  destruct (receive_in_tx _ _ _ _ _ _ _ _) as [[rd o]|] eqn:Er; [|done]. injection H2 as <- <-.
  right. exists t, out, rd. split; [done|]. unfold lift in H.
  assert (o = out ∧ db' = fset f_recv rd (fset f_groups t db) ∧ ∀ reason, out ≠ Rejected reason) as (-> & -> & Hn).
  { destruct o; simplify_eq; done. }
  split_and!; try done. unfold receive, transaction.
  change (receive_in_tx from gid env (i64_clamp (now * 1000)) (om_epoch (g_inner g)) now enforce (d_recv db)
    = Ok (rd, out)) in Er. by rewrite Er.
Qed.

(** What a frame from the network can do to the daemon, whatever it holds. *)
Inductive inbound_result (from gid ciphertext fresh_id : bytes) (enforce : bool) (now : Z) (d d' : daemon)
    : result bytes failure → Prop :=
| in_failed e :
    same_but_atts (dm_db d) (dm_db d') → dm_events d' = dm_events d → dm_out d' = dm_out d →
    inbound_result from gid ciphertext fresh_id enforce now d d' (Err e)
| in_commit g t :
    group_load gid (d_groups (dm_db d)) = Ok (Some g) → (group_decrypt ciphertext g).2 = Ok None →
    group_save_in_tx (group_decrypt ciphertext g).1 (d_groups (dm_db d)) = Ok (t, tt) →
    d' = fset (of_db f_groups) t d →
    inbound_result from gid ciphertext fresh_id enforce now d d' (Ok fresh_id)
| in_card g env card c :
    group_load gid (d_groups (dm_db d)) = Ok (Some g) → (group_decrypt ciphertext g).2 = Ok (Some env) →
    e_kind env = ContactCardUpdate card → card_verify card now = Ok from →
    put_card now card (d_contacts (dm_db d)) = (c, Ok tt) →
    d' = (emit (E := failure) (Ev_ContactCardReceived from (card_version (card_body card)))
            (fset (of_db f_contacts) c d)).1 →
    inbound_result from gid ciphertext fresh_id enforce now d d' (Ok (e_id env))
| in_message g env t rd out :
    group_load gid (d_groups (dm_db d)) = Ok (Some g) → (group_decrypt ciphertext g).2 = Ok (Some env) →
    (∀ card, e_kind env ≠ ContactCardUpdate card) →
    group_save_in_tx (group_decrypt ciphertext g).1 (d_groups (dm_db d)) = Ok (t, tt) →
    receive from gid env (i64_clamp (now * 1000)) (om_epoch (g_inner (group_decrypt ciphertext g).1)) now enforce
      (d_recv (dm_db d)) = (rd, Ok out) → (∀ reason, out ≠ Rejected reason) →
    same_but_atts (fset f_recv rd (fset f_groups t (dm_db d))) (dm_db d') →
    dm_events d' = dm_events d ++
      match out with
      | New env' row_id _ _ generation recv =>
          [Ev_MessageReceived from (project row_id env' from generation recv Incoming None)]
      | _ => []
      end → dm_out d' = dm_out d →
    inbound_result from gid ciphertext fresh_id enforce now d d' (Ok (e_id env)).

Lemma receive_envelope_cases from gid ciphertext fresh_id g env now enforce d d' r :
  group_load gid (d_groups (dm_db d)) = Ok (Some g) → (group_decrypt ciphertext g).2 = Ok (Some env) →
  (∀ card, e_kind env ≠ ContactCardUpdate card) →
  receive_envelope from gid (group_decrypt ciphertext g).1 env now enforce d = (d', r) →
  inbound_result from gid ciphertext fresh_id enforce now d d' r.
Proof.
  intros Hl Hd Hk. unfold receive_envelope, bind_action at 1.
  destruct (stage_file from (e_kind env) now d) as [d1 r1] eqn:E1.
  assert (r1 = Ok tt ∧ same_but_atts (dm_db d) (dm_db d1) ∧ dm_events d1 = dm_events d ∧ dm_out d1 = dm_out d)
    as (-> & [a Ha] & Hev & Hout).
  { unfold stage_file in E1. destruct (e_kind env); try (injection E1 as <- <-; split_and!; try done; apply same_but_atts_refl).
    apply stage_attachment_frame in E1. tauto. }
  unfold bind_action at 1, on. destruct (persist_received _ _ _ _ _ _ _) as [db2 r2] eqn:E2.
  change (fget f_db d1) with (dm_db d1) in E2.
  apply persist_received_cases in E2 as [(e & -> & ->)|(t & out & rd & Hg & Hr & Hn & -> & ->)].
  - intros [= <- <-]. apply in_failed; [|done..]. exists a. exact Ha.
  - rewrite Ha in Hg, Hr. intros H.
    assert (r = Ok (e_id env) ∧ dm_db d' = fset f_recv rd (fset f_groups t (dm_db d1)) ∧
      dm_events d' = dm_events d ++ match out with
        | New env' row_id _ _ generation recv =>
            [Ev_MessageReceived from (project row_id env' from generation recv Incoming None)]
        | _ => [] end ∧ dm_out d' = dm_out d) as (-> & Hdb & Hevs & Hout').
    { rewrite <- Hev. destruct out as [env' rid s1 g1 gen recv| |reason]; [..|by destruct (Hn reason)];
        injection H as <- <-; split_and!; try done. by rewrite app_nil_r. }
    eapply in_message; try done. exists a. rewrite Hdb, Ha. reflexivity.
Qed.

Lemma dispatch_for_group_cases from gid ciphertext enforce fresh_id now d d' r :
  dispatch_for_group from gid ciphertext enforce fresh_id now d = (d', r) →
  inbound_result from gid ciphertext fresh_id enforce now d d' r.
Proof.
  assert (∀ e, inbound_result from gid ciphertext fresh_id enforce now d d (Err e)) as Hfail
    by (intros e; apply in_failed; [apply same_but_atts_refl|done..]).
  unfold dispatch_for_group. unfold bind_action at 1, ensure. case_bool_decide; [|intros [= <- <-]; apply Hfail].
  unfold bind_action at 1, read_try. change (fget (of_db f_groups) d) with (d_groups (dm_db d)).
  destruct (group_load gid (d_groups (dm_db d))) as [[g|]|e] eqn:El; cbn [map_err];
    [|intros [= <- <-]; apply Hfail..].
  cbn [bind_action lift ok_or]. unfold bind_action at 1, lift at 1.
  destruct ((group_decrypt ciphertext g).2) as [[env|]|e] eqn:Ed; cbn [map_err]; [| |intros [= <- <-]; apply Hfail].
  - assert ((∀ card, e_kind env ≠ ContactCardUpdate card) ∨ ∃ card, e_kind env = ContactCardUpdate card)
      as [Hk|[card Hk]] by (destruct (e_kind env); eauto; left; congruence).
    + intros Hr. eapply receive_envelope_cases; [exact El|exact Ed|exact Hk|].
      destruct (e_kind env) as [| | | | | |card]; try exact Hr. by destruct (Hk card).
    + rewrite Hk. unfold receive_card. cbn [bind_action lift].
      unfold bind_action at 1, lift at 1.
      destruct (card_verify card now) as [claimed|e] eqn:Ev; cbn [map_err]; [|intros [= <- <-]; apply Hfail].
      unfold bind_action at 1, ensure. case_bool_decide; [subst claimed|intros [= <- <-]; apply Hfail].
      unfold bind_action at 1, map_error, on. change (fget (of_db f_contacts) d) with (d_contacts (dm_db d)).
      destruct (put_card now card (d_contacts (dm_db d))) as [c [[]|e]] eqn:Ep; cbn [map_err].
      * intros [= <- <-]. eapply in_card; done.
      * apply transaction_Err in Ep as Ep'. destruct Ep' as [-> _]. intros [= <- <-].
        apply in_failed; [|by destruct d..]. destruct d as [[]]; apply same_but_atts_refl.
  - unfold on, map_error, on_tx, atomically. change (fget f_db d) with (dm_db d).
    change (fget f_groups (dm_db d)) with (d_groups (dm_db d)).
    destruct (group_save_in_tx _ _) as [[t []]|e] eqn:Es; cbn [map_err].
    + intros [= <- <-]. eapply in_commit; done.
    + intros [= <- <-]. destruct d. apply Hfail.
Qed.
End inbound_facts.
