(* ===== verification/Delivery.v ===== *)
(** * Delivery: fallback to mailboxes and the background sweeps

    [crates/core/src/delivery/hub.rs]: [run_mailbox_fallback],
    [redeposit_mailbox_row], [resume_queued] and [pick_first_mailbox_index];
    [delivery/outbox_sweep.rs], [delivery/mailbox_sweeper.rs] and
    [delivery/welcome_sweep.rs].  Whether a mailbox can be reached and accepts a
    deposit, and whether a peer acknowledges a Welcome, are inputs; what is handed
    to a peer's actor or accepted by a mailbox is logged in the daemon's state. *)

From S2P Require Import Prelude Text Framing SimpleCodec CoreErrors Float64 Backoff Outbox Sql MailboxProtocol MailboxCodec.
From S2P Require Import Identity Contacts Messages Receiver Attachments AttachmentRepo Mls Invites FirstContact Mailboxes Api Daemon.
From S2P Require Import MailboxClient Poll ContactCommands MailboxCommands Inbound.

Definition FALLBACK_TTL_SECS : Z := 24 * 3600.

(** [u64::from_le_bytes]. *)
Fixpoint le_Z (b : bytes) : Z :=
  match b with [] => 0 | x :: b' => Z_of_byte x + 256 * le_Z b' end.

(** [pick_first_mailbox_index], for [n > 0]. *)
Definition pick_first_mailbox_index {b2 : Blake2s} (message_id : bytes) (n : Z) : Z :=
  le_Z (take 8 (blake2s256 message_id)) mod (Z.max n 1).

Section delivery.
Context {om : OpenMls} {scheme : SignatureScheme} {sha : Sha256} {b2 : Blake2s}.
Context {ser_p : Serialize provider} {de_p : Deserialize provider}.
Context {ser_env : Serialize Envelope} {de_env : Deserialize Envelope}.
Context {ser_card : Serialize ContactCard} {de_card : Deserialize ContactCard} {ser_body : Serialize ContactCardBody}.
Context (me : IdentityKey).

(** ** [hub.rs] *)

Definition log {T} (o : outgoing) (d : daemon) : daemon := (hand_over (E := T) o d).1.
Definition announce {T} (e : Event) (d : daemon) : daemon := (emit (E := T) e d).1.
Definition update {A} (f : field daemon_db A) (g : A → A) (d : daemon) : daemon :=
  fset (of_db f) (g (fget (of_db f) d)) d.

(** A mailbox accepted the deposit: the row goes, and subscribers hear of it. *)
Definition deposited_at_mailbox (row_id : Z) (onion : string) (peer message_id ciphertext : bytes) (d : daemon) : daemon :=
  announce (T := unit) (Ev_DeliveryStatusChanged message_id Status_Deposited)
    (update f_outbox (λ t, (delete_by_id row_id t).1)
       (log (T := unit) (DepositTo onion (recipient_hash_from_pubkey peer) ciphertext) d)).

(** The walk of [run_mailbox_fallback]: [tries] are the mailboxes in the order
    they are tried, with whether the deposit is accepted there. *)
Fixpoint fallback_walk (row_id now : Z) (peer message_id ciphertext : bytes) (tries : list (string * bool)) (d : daemon)
    : daemon :=
  match tries with
  | [] => d
  | (onion, accepted) :: rest =>
      match on (of_db f_mailboxes) (ensure_theirs onion now) d with
      | (d1, Err _) => fallback_walk row_id now peer message_id ciphertext rest d1
      | (d1, Ok mailbox_id) =>
          match on (of_db f_outbox) (set_mailbox_target row_id mailbox_id) d1 with
          | (d2, Err _) => fallback_walk row_id now peer message_id ciphertext rest d2
          | (d2, Ok _) =>
              if accepted then deposited_at_mailbox row_id onion peer message_id ciphertext d2
              else fallback_walk row_id now peer message_id ciphertext rest d2
          end
      end
  end.

(** The mailboxes from the primary on, each once. *)
Definition rotation (onions : list string) (primary : Z) : list (Z * string) :=
  omap (λ offset, let i := (primary + offset) mod len onions in (λ o, (i, o)) <$> onions !! Z.to_nat i)
    (seqZ 0 (len onions)).

(** [accepts i]: connecting to the [i]-th mailbox and depositing there succeeds. *)
Definition run_mailbox_fallback (accepts : Z → bool) (now : Z) (peer message_id ciphertext : bytes) (d : daemon) : daemon :=
  match list_for_contact peer (d_contacts (dm_db d)) with
  | Err _ => d
  | Ok [] => d
  | Ok onions =>
      match find_direct_id peer message_id (d_outbox (dm_db d)) with
      | None => d
      | Some row_id =>
          let primary := pick_first_mailbox_index message_id (len onions) in
          fallback_walk row_id now peer message_id ciphertext
            ((λ io, (io.2, accepts io.1)) <$> rotation onions primary) d
      end
  end.

(** [reschedule_with_backoff]; [factor] is the jitter drawn. *)
Definition reschedule_with_backoff (row_id attempts now : Z) (factor : f64) (t : outbox) : outbox :=
  let delay := backoff attempts factor in
  reschedule_row row_id (i64_saturating_add now (if decide (delay ≤ i64_max) then delay else i64_max)) t.

(** [redeposit_mailbox_row], with its result. *)
Definition redeposit_mailbox_row (accepts : Z → bool) (factor : f64) (now : Z) (row : OutboxRow) (d : daemon)
    : daemon * bool :=
  let later := (update f_outbox (reschedule_with_backoff (or_id row) (or_attempts row) now factor) d, false) in
  if decide (len (or_target row) ≠ 32) then later
  else
    match list_for_contact (or_target row) (d_contacts (dm_db d)) with
    | Ok onions =>
        match head (filter (λ io, accepts io.1 = true) (imap (λ i o, (Z.of_nat i, o)) onions)) with
        | Some (_, onion) =>
            (deposited_at_mailbox (or_id row) onion (or_target row) (or_message_id row) (or_payload row) d, true)
        | None => later
        end
    | Err _ => later
    end.

(** [resume_queued]: the peers resumed before a malformed target stops it. *)
Fixpoint resume_targets (targets : list bytes) (n : Z) (d : daemon) : daemon * result Z CoreError :=
  match targets with
  | [] => (d, Ok n)
  | t :: rest =>
      if decide (len t ≠ 32)
      then (d, Err (Core_Storage (Storage_Other ("outbox target is " +:+ pretty (len t) +:+ " bytes, not a public key"))))
      else resume_targets rest n (log (T := unit) (EnsureActor t) d)
  end.
Definition resume_queued (d : daemon) : daemon * result Z CoreError :=
  let targets := direct_targets (d_outbox (dm_db d)) in resume_targets targets (len targets) d.

(** ** [mailbox_sweeper.rs] *)

Definition run_mailbox_sweep (accepts : Z → Z → bool) (factors : Z → f64) (now batch : Z) (d : daemon) : daemon :=
  foldl (λ d row, (redeposit_mailbox_row (accepts (or_id row)) (factors (or_id row)) now row d).1) d
    (due_mailbox now batch (d_outbox (dm_db d))).

(** ** [outbox_sweep.rs] *)

Definition DIRECT_EXPIRY_MS : Z := REPLAY_WINDOW_MS - 5 * 60 * 1000.
Definition NO_MAILBOX_REASON : string :=
  "Not delivered — this contact has no mailbox, so messages cannot reach them while they are offline.".

(** Rule 2: mark, delete, and announce only what the mark changed. *)
Definition expire_row (row : OutboxRow) (d : daemon) : daemon :=
  let '(m, marked) := mark_failed (or_message_id row) (public me) NO_MAILBOX_REASON (rd_messages (d_recv (dm_db d))) in
  let d1 := fset (of_db f_messages) m d in
  let d2 := update f_outbox (λ t, (delete_by_id (or_id row) t).1) d1 in
  if marked then announce (T := unit) (Ev_DeliveryStatusChanged (or_message_id row) (Status_Failed NO_MAILBOX_REASON)) d2
  else d2.

(** [now] is in milliseconds, [now_s] the seconds clock the fallback reads. *)
Definition sweep_outbox_row (accepts : Z → Z → bool) (now now_s : Z) (row : OutboxRow) (d : daemon) : daemon :=
  match or_target_kind row with
  | Mailbox => d
  | Direct =>
      match envelope_ts (or_message_id row) (rd_messages (d_recv (dm_db d))) with
      | None => d
      | Some ts =>
          if decide (i64_saturating_sub now ts < DIRECT_EXPIRY_MS) then d
          else if decide (len (or_target row) ≠ 32) then d
          else
            match list_for_contact (or_target row) (d_contacts (dm_db d)) with
            | Err _ => d
            | Ok [] => expire_row row d
            | Ok _ => run_mailbox_fallback (accepts (or_id row)) now_s (or_target row) (or_message_id row) (or_payload row) d
            end
      end
  end.

Definition run_outbox_sweep (accepts : Z → Z → bool) (now now_s batch : Z) (d : daemon) : daemon :=
  foldl (λ d row, sweep_outbox_row accepts now now_s row d) d (Outbox.due now batch (d_outbox (dm_db d))).

(** ** [welcome_sweep.rs] *)

Context (onion : option string).

(** [on_welcome_acked]. *)
Definition on_welcome_acked (rng message_id : bytes) (now now_ms : Z) (peer : bytes) (d : daemon) : daemon :=
  let d1 := update f_pending (finalize_welcome_ack peer) d in
  let d2 := match build_self_card me onion now d1 with
    | (d', Ok card) => send_card_to_contact rng message_id now_ms card peer d'
    | (d', Err _) => d'
    end in
  announce (T := unit) (Ev_ContactUpdated peer) d2.

(** One row: [acked] tells whether the peer acknowledges within 45 seconds. *)
Definition sweep_welcome_row (acked : bytes → bool) (rng ids : bytes → bytes) (now now_ms : Z) (row : PendingWelcomeDue)
    (d : daemon) : daemon :=
  let d1 := log (T := unit) (WelcomeJob (pd_peer row) (pd_welcome row)) d in
  if acked (pd_peer row) then on_welcome_acked (rng (pd_peer row)) (ids (pd_peer row)) now now_ms (pd_peer row) d1
  else if decide (MAX_WELCOME_AGE_MS ≤ i64_saturating_sub now_ms (FirstContact.pd_created_at row))
  then update f_pending (pw_mark_failed (pd_peer row)) d1
  else update f_pending
         (pw_reschedule (pd_peer row) (i64_saturating_add now_ms (welcome_backoff_ms (FirstContact.pd_attempts row)))) d1.

Definition run_welcome_sweep (acked : bytes → bool) (rng ids : bytes → bytes) (now now_ms batch : Z) (d : daemon) : daemon :=
  foldl (λ d row, sweep_welcome_row acked rng ids now now_ms row d) d (pw_due now_ms batch (d_pending (dm_db d))).
End delivery.
