(* ===== verification/Scenario.v ===== *)
(** * Scenario: a first contact between two daemons

    Alice creates an invite, Bob accepts it, Alice joins over Bob's connection, the
    acknowledgement reaches Bob, who sends a self-card and a message.  Every step
    is the modelled code at the instances of [Samples]; the witnesses of the
    theorems about daemons run on these states. *)

From S2P Require Import Prelude Text Hex Framing SimpleCodec CoreErrors PeerFrame Sql MailboxProtocol Identity Contacts Messages.
From S2P Require Import Receiver Attachments ChunkTransfer AttachmentRepo Mls Samples Invites FirstContact Mailboxes Api Daemon.
From S2P Require Import MailboxClient Poll ContactCommands SendCommands MailboxCommands Inbound Delivery.

(** ** The remaining interfaces *)

(** Hexadecimal in place of base64url, a truncation in place of BLAKE2s. *)
Definition sample_base64 : Base64Url := {|
  b64_encode := hex_encode;
  b64_decode s := match parse_pairs 0 s with Ok b => if decide (hex_encode b = s) then Some b else None | Err _ => None end
|}.
Definition sample_blake2s : Blake2s := pad 32.

Lemma sample_base64_laws : @Base64UrlLaws sample_base64.
Proof.
  split; intros b; cbn.
  - assert (parse_pairs 0 (hex_encode b) = Ok b) as ->; [|by rewrite decide_True].
    apply (parse_pairs_Ok (length b)); [apply hex_encode_length|apply hex_encode_lower].
  - pose proof (hex_encode_hexdigits b) as H. revert H. generalize (hex_encode b) as s.
    induction s as [|a s IH]; [done|]. cbn. intros [Ha Hs]%andb_true_iff. rewrite IH by done.
    rewrite andb_true_r. revert Ha. clear. destruct a as [[] [] [] [] [] [] [] []]; vm_compute; auto.
Qed.

Lemma sample_signature_length : @SignatureLength sample_scheme.
Proof. split. intros sk m. apply len_pad. Qed.

(** The instances, for the files whose witnesses evaluate the model. *)
Module SampleInstances.
#[export] Existing Instance sample_scheme.
#[export] Existing Instance sample_sha.
#[export] Existing Instance sample_blake2s.
#[export] Existing Instance sample_base64.
#[export] Existing Instance sample_mls.
#[export] Existing Instance codec_contact_card.
#[export] Existing Instance codec_card_body.
#[export] Existing Instance codec_envelope.
#[export] Existing Instance codec_manifest.
#[export] Existing Instance codec_provider.
#[export] Existing Instance serialize_of.
#[export] Existing Instance deserialize_of.
#[export] Instance codec_invite_body : Codec InviteLinkBody :=
  codec_via (λ b, (il_card b, il_key_package b, il_psk b, il_expires_at b))
    (λ v, Some (mkInviteBody v.1.1.1 v.1.1.2 v.1.2 v.2)) (λ '(mkInviteBody _ _ _ _), eq_refl).
End SampleInstances.
Import SampleInstances.

(** ** The run *)

Definition alice : IdentityKey := mkIdentityKey (fill 32 Byte.x0a).
Definition bob : IdentityKey := mkIdentityKey (fill 32 Byte.x0b).
(** The transcript value both ends of the connection see. *)
Definition transcript : bytes := fill 32 Byte.x42.

(** Alice's invite for Bob. *)
Definition invited : daemon * result CommandResult handler_failure :=
  create_invite alice (Some "alice.onion") (fill 32 Byte.x01) (fill 32 Byte.x02) 1000 (Some "Bob") None (start empty_db).
Definition alice_invited : daemon := invited.1.
Definition invite_url : string := match invited.2 with Ok (Res_InviteCreated url _ _) => url | _ => EmptyString end.

(** Bob's side of it: a pending contact. *)
Definition bob_added : daemon :=
  (add_contact bob (λ _, Ok transcript) (fill 32 Byte.x03) (fill 32 Byte.x04) 1100 1100000 invite_url (start empty_db)).1.
Definition the_welcome : bytes := match d_pending (dm_db bob_added) with r :: _ => pw_welcome r | [] => [] end.

(** Alice joins over Bob's connection. *)
Definition joined : daemon * accept_outcome :=
  handle_inbound_stream (Some alice) (public bob) transcript (ReadFrame (MlsWelcome the_welcome)) 1200 alice_invited.
Definition alice_joined : daemon := joined.1.

(** The acknowledgement reaches Bob's Welcome sweep, which publishes Bob's card. *)
Definition bob_settled : daemon :=
  run_welcome_sweep bob (Some "bob.onion") (λ _, true) (λ _, fill 32 Byte.x05) (λ _, fill 16 Byte.x06) 1300 1300000 32
    bob_added.
Definition jobs (d : daemon) : list bytes := omap (λ o, match o with Job _ _ c => Some c | _ => None end) (dm_out d).
Definition card_frame : bytes := default [] (jobs bob_settled !! 0%nat).

(** Bob writes to Alice. *)
Definition bob_sent : daemon :=
  (send_message bob (fill 32 Byte.x07) (fill 16 Byte.x08) false 1400000 (public alice) (Text "hello") bob_settled).1.
Definition text_frame : bytes := default [] (jobs bob_sent !! 1%nat).

(** What Alice makes of the two frames. *)
Definition alice_card : daemon := (dispatch (public bob) card_frame (fill 16 Byte.x00) 1500 alice_joined).1.
Definition alice_read : daemon := (dispatch (public bob) text_frame (fill 16 Byte.x00) 1600 alice_card).1.

Lemma scenario_runs :
  joined.2 = Ingested (public bob) (Some (welcome_msg_id the_welcome)) ∧
  d_pending (dm_db bob_settled) = [] ∧ length (jobs bob_sent) = 2%nat ∧
  last (dm_events alice_card) = Some (Ev_ContactCardReceived (public bob) 1) ∧
  (∃ r, last (dm_events alice_read) = Some (Ev_MessageReceived (public bob) r) ∧ rec_kind r = Text "hello").
Proof. vm_compute. split_and!; try reflexivity. eexists. split; reflexivity. Qed.

(** ** Witnesses of the theorems on invites *)

Definition sample_link : InviteLink :=
  match from_url invite_url 1000 with Ok l => l | Err _ => mkInviteLink (mkInviteBody (mkContactCard (mkContactCardBody [] EmptyString [] 0 0) []) [] [] 0) [] [] end.

Lemma invite_authentic_witness :
  from_url invite_url 1000 = Ok sample_link ∧
  verify_cbor (public alice)
    (mkInviteBody (il_card (link_body sample_link)) (il_key_package (link_body sample_link)) (fill 32 Byte.x02) 87400)
    (link_signature sample_link) = Ok tt.
Proof.
  assert (from_url invite_url 1000 = Ok sample_link) as H by (vm_compute; reflexivity). split; [exact H|].
  exact (proj1 (invite_authentic invite_url 1000 sample_link H)).
Defined.

(** The link as [generate] returned it. *)
Definition generated_link : result InviteLink CoreError :=
  generate alice (il_card (link_body sample_link)) (il_key_package (link_body sample_link)) (fill 32 Byte.x02) 86400 1000.

Lemma invite_roundtrip_witness :
  (let? l := generated_link in to_url l) = Ok invite_url ∧
  from_url invite_url 87401 = Err (Core_Invite Invite_Expired) ∧
  from_url invite_url 87400 = Ok sample_link.
Proof.
  destruct generated_link as [l|e] eqn:Eg; [|vm_compute in Eg; discriminate].
  assert (to_url l = Ok invite_url) as Hurl by (vm_compute in Eg; injection Eg as <-; vm_compute; reflexivity).
  pose proof (λ now', @invite_roundtrip sample_base64 sample_base64_laws sample_scheme _ _ _ sample_scheme_laws
    sample_signature_length roundtrip_of _ _ _ _ _ _ now' l invite_url Eg eq_refl Hurl) as H.
  split; [exact Hurl|]. split.
  - rewrite (H 87401). reflexivity.
  - rewrite (H 87400). vm_compute in Eg. injection Eg as <-. vm_compute. reflexivity.
Defined.
