(* ===== verification/InboundProps.v ===== *)
(** * InboundProps: what the receive path guarantees

    Theorems about [Inbound]: the receive path refines an inbox that delivers a
    message once, an invite is consumed once and only re-acknowledged to the peer
    that joined with it, and a Welcome joins only over the connection it binds to. *)

From S2P Require Import Prelude Text Framing SimpleCodec CoreErrors PeerFrame Sql MailboxProtocol Identity Contacts Messages.
From S2P Require Import Receiver Attachments ChunkTransfer AttachmentRepo Mls Invites FirstContact Mailboxes Api Daemon ContactCommands Inbound.
From S2P Require Import Samples Scenario.

(** ** The abstract inbox *)

(** The messages subscribers were told of, as sender and message id. *)
Definition notified (e : Event) : option (bytes * bytes) :=
  match e with Ev_MessageReceived contact r => Some (contact, rec_message_id r) | _ => None end.
Definition delivered (d : daemon) : list (bytes * bytes) := omap notified (dm_events d).

(** The specification: a message is delivered, unless it was before. *)
Inductive inbox_step (s : list (bytes * bytes)) : list (bytes * bytes) → Prop :=
| inbox_idle : inbox_step s s
| inbox_deliver k : k ∉ s → inbox_step s (s ++ [k]).

Section steps.
Context {om : OpenMls} {scheme : SignatureScheme} {sha : Sha256} {b2 : Blake2s}.
Context {ser_p : Serialize provider} {de_p : Deserialize provider}.
Context {ser_env : Serialize Envelope} {de_env : Deserialize Envelope}.
Context {ser_card : Serialize ContactCard} {de_card : Deserialize ContactCard}.
Context {ser_body : Serialize ContactCardBody}.
Context {ser_man : Serialize AttachmentManifest} {de_man : Deserialize AttachmentManifest}.
Context (wired : option IdentityKey) (store_wired : bool).

(** The entry points of [InboundDispatch], in any order and with any input. *)
Inductive inbound_step (d : daemon) : daemon → Prop :=
| st_frame from ciphertext fresh now : inbound_step d (dispatch from ciphertext fresh now d).1
| st_mailbox ciphertext fresh now : inbound_step d (dispatch_mailbox ciphertext fresh now d).1
| st_welcome peer welcome now : inbound_step d (dispatch_welcome wired peer welcome now d).1
| st_bootstrap welcome x h now : inbound_step d (dispatch_welcome_bootstrap wired welcome x h now d).1
| st_chunk ciphertext : inbound_step d (dispatch_attachment_chunk store_wired ciphertext d).1
| st_take peer : inbound_step d (take_begin_attachment peer d).1
| st_requeue peer b : inbound_step d (requeue_attachment peer b d)
| st_ack message_id now : inbound_step d (message_delivered wired message_id now d)
| st_received contact aid name ty size : inbound_step d (attachment_received contact aid name ty size d)
| st_progress aid received total : inbound_step d (attachment_progress aid received total d)
| st_failed aid reason : inbound_step d (attachment_failed aid reason d).

(** ** Joins *)

(** The database after a join. *)
Definition joined_db (g : Group) (t : mls_groups) (derived kp_sha256 kp_ref : bytes) (nickname : option string)
    (bind_x25519 : option bytes) (now : Z) (db : daemon_db) : daemon_db :=
  fset f_acks (match bind_x25519 with
               | Some x => ack_insert_in_tx kp_ref x derived now (d_acks db) | None => d_acks db end)
  (fset f_invites (oi_mark_consumed kp_ref (d_invites db))
  (fset f_kps (kp_mark_consumed kp_sha256 (d_kps db))
  (fset f_contacts (update_contact derived (with_group (g_id g)) (join_upsert derived nickname now (d_contacts db))).1
  (fset f_groups t db)))).

Lemma persist_join_cases g derived ks kp nick b now db db' r :
  persist_join g derived ks kp nick b now db = (db', r) →
  (∃ e, r = Err e ∧ db' = db) ∨
  ∃ t, group_save_in_tx g (d_groups db) = Ok (t, tt) ∧ r = Ok tt ∧ db' = joined_db g t derived ks kp nick b now db.
Proof.
  unfold persist_join, atomically. unfold bind_action at 1, on_tx.
  change (fget f_groups db) with (d_groups db).
  destruct (group_save_in_tx g (d_groups db)) as [[t []]|e]; [|intros [= <- <-]; left; eauto].
  intros H. right. exists t. split; [done|]. destruct b; injection H as <- <-; by destruct db.
Qed.

Lemma welcome_join_cases welcome b h now d d' r :
  welcome_join_persist wired welcome b h now d = (d', r) →
  (∃ e, r = Err e ∧ d' = d) ∨
  ∃ kp_ref row g t kp_sha256 nickname derived,
    parse_welcome_kp_hash welcome = Ok kp_ref ∧ oi_find kp_ref (d_invites (dm_db d)) = Some row ∧
    now ≤ oi_expires_at row ∧ peer_identity g = Ok derived ∧ check_binding b derived = Ok tt ∧
    len (g_id g) = 32 ∧ group_save_in_tx g (d_groups (dm_db d)) = Ok (t, tt) ∧ r = Ok derived ∧
    d' = mkDaemon (joined_db g t derived kp_sha256 kp_ref nickname b now (dm_db d))
           (dm_events d ++ [Ev_ContactUpdated derived]) (dm_begins d) (dm_store d) (dm_out d).
Proof.
  assert (∀ e, (d, Err e) = (d', r) → (∃ e, r = Err e ∧ d' = d)) as Hfail by (intros e [= <- <-]; eauto).
  unfold welcome_join_persist. unfold bind_action at 1, lift at 1.
  destruct (ok_or wired _) as [k|e]; [|intros ?%Hfail; by left].
  unfold bind_action at 1, lift at 1. destruct (parse_welcome_kp_hash welcome) as [kp_ref|e] eqn:Ep;
    [|intros ?%Hfail; by left].
  unfold bind_action at 1, read_try. change (fget (of_db f_invites) d) with (d_invites (dm_db d)).
  destruct (oi_get_psk_and_kp_bytes kp_ref (d_invites (dm_db d))) as [[[[[[psk kpb] snap] ex] nick]|]|e] eqn:Eo;
    [|intros ?%Hfail; by left..].
  assert (∃ row, oi_find kp_ref (d_invites (dm_db d)) = Some row ∧ oi_expires_at row = ex) as (row & Hrow & <-).
  { unfold oi_get_psk_and_kp_bytes in Eo. destruct (oi_find _ _) as [row|]; [|done].
    exists row. split; [done|]. unfold oi_psk_checked in Eo. case_decide; [|done]. by injection Eo. }
  unfold bind_action at 1, lift at 1. cbn [ok_or].
  unfold bind_action at 1, ensure at 1. case_bool_decide as Hex; [|intros ?%Hfail; by left].
  unfold bind_action at 1, lift at 1. destruct (kp_from_bytes kpb) as [kp|e]; [|intros ?%Hfail; by left].
  unfold bind_action at 1, lift at 1. destruct (kp_hash kp) as [ks|e]; [|intros ?%Hfail; by left].
  unfold bind_action at 1, lift at 1.
  destruct (match snap with Some s => provider_load s | None => Ok provider_new end) as [p|e]; [|intros ?%Hfail; by left].
  unfold bind_action at 1, lift at 1.
  destruct (join_from_welcome _ _ _ _ p).2 as [g|e]; [|intros ?%Hfail; by left].
  unfold bind_action at 1, lift at 1. destruct (peer_identity g) as [derived|e] eqn:Epi; [|intros ?%Hfail; by left].
  unfold bind_action at 1, lift at 1. destruct (check_binding b derived) as [[]|e] eqn:Eb; [|intros ?%Hfail; by left].
  unfold bind_action at 1, ensure at 1. case_bool_decide as Hlen; [|intros ?%Hfail; by left].
  unfold bind_action at 1, on. destruct (persist_join _ _ _ _ _ _ _ _) as [db' r'] eqn:Ej.
  change (fget f_db d) with (dm_db d) in Ej.
  apply persist_join_cases in Ej as [(e & -> & ->)|(t & Hs & -> & ->)].
  - intros [= <- <-]. left. exists e. split; [done|]. by destruct d.
  - intros [= <- <-]. right. exists kp_ref, row, g, t, ks, nick, derived. split_and!; try done. lia.
Qed.

(** ** The kinds of step *)

(** Only attachments, queues and other events changed. *)
Record calm (d d' : daemon) : Prop := {
  calm_recv : d_recv (dm_db d') = d_recv (dm_db d);
  calm_acks : d_acks (dm_db d') = d_acks (dm_db d);
  calm_groups : d_groups (dm_db d') = d_groups (dm_db d);
  calm_contacts : d_contacts (dm_db d') = d_contacts (dm_db d);
  calm_invites : d_invites (dm_db d') = d_invites (dm_db d);
  calm_outbox : d_outbox (dm_db d') = d_outbox (dm_db d);
  calm_kps : d_kps (dm_db d') = d_kps (dm_db d);
  calm_out : dm_out d' = dm_out d;
  calm_events : ∃ evs, dm_events d' = dm_events d ++ evs ∧ omap notified evs = []
}.

Lemma calm_refl d : calm d d.
Proof. split; try done. exists []. by rewrite app_nil_r. Qed.

Lemma store_offline_calm aid ct m c d : calm d (store_offline_chunk aid ct m c d).
Proof.
  unfold store_offline_chunk. case_decide; [apply calm_refl|]. cbv zeta. case_decide.
  - unfold finalize_offline. destruct (claim_terminal _ _ _) as [a [|]]; split; try done.
    + by eexists [_].
    + exists []. by rewrite app_nil_r.
  - case_decide; split; try done; [by eexists [_]|exists []; by rewrite app_nil_r].
Qed.

Lemma match_pending_calm l ct d : calm d (match_pending l ct d).1.
Proof.
  induction l as [|[aid mb] l IH]; cbn [match_pending]; [apply calm_refl|].
  destruct (from_cbor mb) as [m|]; [|done]. destruct (head _); [|done]. apply store_offline_calm.
Qed.

Lemma dispatch_view from ct fresh now d :
  (dispatch from ct fresh now d).1 = d ∨
  ∃ gid r, dispatch_for_group from gid ct true fresh now d = ((dispatch from ct fresh now d).1, r).
Proof.
  destruct (linked_group from (d_contacts (dm_db d))) as [gid|] eqn:E.
  - assert (dispatch_inner from ct fresh now d = dispatch_for_group from gid ct true fresh now d) as Hd.
    { unfold dispatch_inner, bind_action at 1, read. cbn -[dispatch_for_group]. by rewrite E. }
    right. exists gid. unfold dispatch, ok. rewrite Hd. destruct (dispatch_for_group _ _ _ _ _ _ _) as [d' r].
    by exists r.
  - left. unfold dispatch, ok, dispatch_inner, bind_action at 1, read. cbn -[dispatch_for_group]. by rewrite E.
Qed.

Lemma mailbox_view ct fresh now d :
  (dispatch_mailbox ct fresh now d).1 = d ∨
  ∃ from gid r, dispatch_for_group from gid ct false fresh now d = ((dispatch_mailbox ct fresh now d).1, r).
Proof.
  unfold dispatch_mailbox. induction (groups_list _) as [|[gid e] l IH]; cbn [dispatch_trials]; [by left|].
  destruct (trial _ _ _) as [peer|]; [|done]. right. exists peer, gid. unfold ok.
  destruct (dispatch_for_group _ _ _ _ _ _ _) as [d' r]. by exists r.
Qed.

Lemma inbound_step_cases d d' :
  inbound_step d d' →
  calm d d' ∨
  (∃ from gid ct fresh enforce now r, inbound_result from gid ct fresh enforce now d d' r) ∨
  (∃ welcome b h now derived, welcome_join_persist wired welcome b h now d = (d', Ok derived)) ∨
  (∃ message_id now, d' = message_delivered wired message_id now d).
Proof.
  destruct 1 as [from ct fresh now|ct fresh now|peer w now|w x h now|ct|peer|peer b|mid now| | |].
  - destruct (dispatch_view from ct fresh now d) as [->|(gid & r & H)]; [left; apply calm_refl|].
    right. left. do 7 eexists. by eapply dispatch_for_group_cases.
  - destruct (mailbox_view ct fresh now d) as [->|(from & gid & r & H)]; [left; apply calm_refl|].
    right. left. do 7 eexists. by eapply dispatch_for_group_cases.
  - unfold dispatch_welcome. destruct (recorded_join _ _) as [[? ?]|]; [left; apply calm_refl|].
    destruct (welcome_join_persist _ _ _ _ _ _) as [d1 [derived|e]] eqn:E.
    + right. right. left. by exists w, None, None, now, derived.
    + apply welcome_join_cases in E as [(? & _ & ->)|H]; [left; apply calm_refl|by destruct_and?; naive_solver].
  - unfold dispatch_welcome_bootstrap. destruct (recorded_join _ _) as [[? ?]|]; [left; apply calm_refl|].
    unfold ok. destruct (welcome_join_persist _ _ _ _ _ _) as [d1 [derived|e]] eqn:E.
    + right. right. left. by exists w, (Some x), h, now, derived.
    + apply welcome_join_cases in E as [(? & _ & ->)|H]; [left; apply calm_refl|by destruct_and?; naive_solver].
  - left. unfold dispatch_attachment_chunk. destruct (negb store_wired); [apply calm_refl|apply match_pending_calm].
  - left. unfold take_begin_attachment. destruct (dm_begins d !! peer) as [[|? ?]|]; split; try done; exists []; by rewrite app_nil_r.
  - left. split; try done. exists []. by rewrite app_nil_r.
  - right. right. right. eauto.
  - left. split; try done. by eexists [_].
  - left. split; try done. by eexists [_].
  - left. split; try done. by eexists [_].
Qed.

(** Nothing that arrives touches the outbox or hands out a job. *)
Lemma inbound_step_outbox d d' :
  inbound_step d d' →
  d_outbox (dm_db d') = d_outbox (dm_db d) ∧ dm_out d' = dm_out d ∧ ∃ evs, dm_events d' = dm_events d ++ evs.
Proof.
  intros Hstep. apply inbound_step_cases in Hstep as [Hc|[(from & gid & ct & fresh & enforce & now & r & Hres)
    |[(w & b & h & now & derived & Hj)|(mid & now & ->)]]].
  - destruct Hc as [_ _ _ _ _ Ho _ Hout (evs & He & _)]. eauto.
  - destruct Hres as [e [a Ha] He Ho|g t _ _ _ ->|g env card c _ _ _ _ _ ->|g env t rd out _ _ _ _ _ _ [a Ha] He Ho].
    + rewrite Ha, He. split_and!; [done..|]. exists []. by rewrite app_nil_r.
    + split_and!; [done..|]. exists []. by rewrite app_nil_r.
    + split_and!; [done..|]. by eexists.
    + rewrite Ha, He. split_and!; [done..|]. by eexists.
  - apply welcome_join_cases in Hj as [(? & ? & _)|H]; [done|].
    destruct H as (? & ? & ? & ? & ? & ? & ? & _ & _ & _ & _ & _ & _ & _ & _ & ->). split_and!; [done..|]. by eexists.
  - unfold message_delivered. destruct wired as [k|]; [|split_and!; [done..|]; exists []; by rewrite app_nil_r].
    destruct (mark_delivered_by_envelope_id _ _ _ _) as [m []]; (split_and!; [done..|]); [by eexists|].
    exists []. by rewrite app_nil_r.
Qed.

(** ** The inbox *)

(** The row of the history a notification names. *)
Definition notified_row (contact : bytes) (r : MessageRecord) (db : receiver_db) : Prop :=
  ∃ row, row ∈ t_rows (messages (rd_messages db)) ∧ m_id row = rec_row_id r ∧ m_sender row = contact ∧
    m_envelope_id row = Some (rec_message_id r).

Record inbox_inv (d : daemon) : Prop := {
  ii_seen : ∀ k, k ∈ delivered d → is_Some (rd_seen (d_recv (dm_db d)) !! k);
  ii_rows : ∀ contact r, Ev_MessageReceived contact r ∈ dm_events d → notified_row contact r (d_recv (dm_db d))
}.

(** Nothing was delivered, and the history only kept or updated its rows. *)
Lemma inbox_quiet d d' evs :
  inbox_inv d → dm_events d' = dm_events d ++ evs → omap notified evs = [] →
  rd_seen (d_recv (dm_db d')) = rd_seen (d_recv (dm_db d)) →
  (∀ contact r, notified_row contact r (d_recv (dm_db d)) → notified_row contact r (d_recv (dm_db d'))) →
  inbox_inv d' ∧ inbox_step (delivered d) (delivered d').
Proof.
  intros [Hs Hr] He Hn Hseen Hrows.
  assert (delivered d' = delivered d) as Hd by (unfold delivered; by rewrite He, omap_app, Hn, app_nil_r).
  split; [|rewrite Hd; apply inbox_idle]. split.
  - intros k. rewrite Hd, Hseen. apply Hs.
  - intros c r. rewrite He. intros [Hin|Hin]%elem_of_app; [by apply Hrows, Hr|].
    assert ((c, rec_message_id r) ∈ omap notified evs) as H by (apply list_elem_of_omap; eauto).
    rewrite Hn in H. by apply elem_of_nil in H.
Qed.

(** A receive that stored a new message. *)
Lemma inbox_new from gid env ms gen recv enforce rd s g row gen' recv' id d d' :
  inbox_inv d →
  receive from gid env ms gen recv enforce (d_recv (dm_db d)) = (rd, Ok (New env id s g gen' recv')) →
  d_recv (dm_db d') = rd → dm_events d' = dm_events d ++ [Ev_MessageReceived from row] →
  rec_row_id row = id → rec_message_id row = e_id env →
  inbox_inv d' ∧ inbox_step (delivered d) (delivered d').
Proof.
  intros [Hs Hr] Hrec Hd' He Hid Hmid.
  apply receive_cases in Hrec as [(? & ? & _)|(_ & [(? & _)|(Hnew & [(? & ? & _)|H])])]; [done..|].
  destruct H as (m & id' & Hi & _ & [= -> -> -> -> ->] & ->).
  apply insert_in_tx_Ok in Hi as (kind & body & _ & _ & _ & _ & _ & ->).
  assert (delivered d' = delivered d ++ [(from, e_id env)]) as Hdel.
  { unfold delivered. rewrite He, omap_app. cbn. by rewrite Hmid. }
  split; [split|].
  - intros k. rewrite Hdel, Hd'. cbn [rd_seen]. intros [Hk| ->%list_elem_of_singleton]%elem_of_app.
    + destruct (decide (k = (from, e_id env))) as [->|Hne]; [rewrite lookup_insert_eq; eauto|].
      rewrite lookup_insert_ne by done. by apply Hs.
    + rewrite lookup_insert_eq. eauto.
  - intros c r. rewrite He, Hd'. intros [Hin|Hin%list_elem_of_singleton]%elem_of_app.
    + destruct (Hr c r Hin) as (ro & Hro & Hrest). exists ro. cbn. rewrite elem_of_app. auto.
    + injection Hin as -> ->. eexists. cbn. split; [apply elem_of_app; right; by apply list_elem_of_singleton|].
      cbn. rewrite Hid, Hmid. done.
  - rewrite Hdel. apply inbox_deliver. intros Hk%Hs. rewrite Hnew in Hk. by destruct Hk.
Qed.

Lemma inbound_step_inbox d d' :
  inbox_inv d → inbound_step d d' → inbox_inv d' ∧ inbox_step (delivered d) (delivered d').
Proof.
  intros Hinv Hstep. apply inbound_step_cases in Hstep as [Hc|[(from & gid & ct & fresh & enforce & now & r & Hres)
    |[(w & b & h & now & derived & Hj)|(mid & now & ->)]]].
  - destruct Hc as [Hrecv _ _ _ _ _ _ _ (evs & He & Hn)]. eapply inbox_quiet; [done..| |]; by rewrite Hrecv.
  - destruct Hres as [e [a Ha] He _|g t _ _ _ ->|g env card c _ _ _ _ _ ->|g env t rd out _ _ _ _ Hrec Hn [a Ha] He _].
    + eapply (inbox_quiet _ _ []); rewrite ?app_nil_r; try done; by rewrite Ha.
    + eapply (inbox_quiet _ _ []); rewrite ?app_nil_r; done.
    + by eapply (inbox_quiet _ _ [_]).
    + destruct out as [env' rid s g' gen recv| |reason]; [| |by destruct (Hn reason)].
      * pose proof Hrec as Hrec'.
        apply receive_cases in Hrec' as [(? & ? & _)|(_ & [(? & _)|(_ & [(? & ? & _)|H])])]; [done..|].
        destruct H as (m & id' & _ & _ & [= -> -> -> -> -> ->] & _).
        eapply inbox_new; [done|exact Hrec|by rewrite Ha|exact He|reflexivity|reflexivity].
      * rewrite app_nil_r in He.
        apply receive_cases in Hrec as [(? & ? & _)|(_ & [(_ & -> & _)|(_ & [(? & ? & _)|H])])]; [done| |done|].
        -- eapply (inbox_quiet _ _ []); rewrite ?app_nil_r; try done; by rewrite Ha.
        -- destruct H as (? & ? & _ & _ & ? & _). done.
  - apply welcome_join_cases in Hj as [(? & ? & _)|H]; [done|].
    destruct H as (kp & row & g & t & ks & nick & der & _ & _ & _ & _ & _ & _ & _ & _ & ->).
    by eapply (inbox_quiet _ _ [_]).
  - unfold message_delivered. destruct wired as [k|]; [|by eapply (inbox_quiet _ _ []); rewrite ?app_nil_r].
    destruct (mark_delivered_by_envelope_id mid (public k) now (rd_messages (d_recv (dm_db d)))) as [m marked] eqn:Em.
    assert (∀ contact r db, rd_messages db = m → notified_row contact r (d_recv (dm_db d)) → notified_row contact r db) as Hrows.
    { intros contact r db Hdb (row & Hrow & Hid & Hsender & Henv). unfold notified_row. rewrite Hdb.
      unfold mark_delivered_by_envelope_id, update_where, t_update in Em. injection Em as <- _. cbn [messages t_rows].
      eexists. split; [by apply list_elem_of_fmap_2|]. case_decide; done. }
    destruct marked.
    + eapply (inbox_quiet _ _ [_]); try done. intros. by eapply Hrows.
    + eapply (inbox_quiet _ _ []); rewrite ?app_nil_r; try done. intros. by eapply Hrows.
Qed.

(** C7: the receive path refines an inbox that delivers a message once.  From any
    database, whatever frames, mailbox deposits, Welcomes, chunks and
    acknowledgements arrive in whatever order, each step either delivers one
    message that was not delivered before or delivers none; so no message of a
    sender is notified twice, and every notification names a row of the history
    that holds that message of that sender. *)
Theorem inbox_refinement db d :
  rtc inbound_step (start db) d →
  NoDup (delivered d) ∧
  (∀ contact r, Ev_MessageReceived contact r ∈ dm_events d → notified_row contact r (d_recv (dm_db d))) ∧
  (∀ d', inbound_step d d' → inbox_step (delivered d) (delivered d')).
Proof.
  intros Hrun.
  assert (inbox_inv d ∧ NoDup (delivered d)) as [Hinv Hnd].
  { assert (inbox_inv (start db) ∧ NoDup (delivered (start db))) as H0.
    { split; [split; cbn|apply NoDup_nil_2]; intros; by decompose_list_elem_of. }
    induction Hrun as [|x y z Hxy _ IH]; [done|]. apply IH. destruct H0 as [Hi Hn].
    destruct (inbound_step_inbox _ _ Hi Hxy) as [Hi' Hs]. split; [done|].
    destruct Hs as [|k Hk]; [done|]. apply NoDup_app. split_and!; [done| |apply NoDup_singleton].
    intros k' Hk' ->%list_elem_of_singleton. done. }
  split_and!; [done|apply Hinv|]. intros d' Hstep. by eapply inbound_step_inbox.
Qed.

(** ** Invites *)

(** Recorded joins hold 32-byte keys, and the X25519 key of the identity. *)
Definition ack_bound (r : ack_row) : Prop :=
  len (ak_x25519 r) = 32 ∧ len (ak_identity r) = 32 ∧ key_on_curve (ak_identity r) = true ∧
  ed25519_pub_to_x25519 (ak_identity r) = ak_x25519 r.
Definition acks_bound (d : daemon) : Prop := Forall ack_bound (d_acks (dm_db d)).

Lemma peer_identity_length g k : peer_identity g = Ok k → len k = 32.
Proof.
  unfold peer_identity. case_decide; [done|]. intros (own & _ & Hsk)%bind_Ok_inv.
  destruct (head _) as [sk|]; [|done]. case_decide; [|done]. by injection Hsk as <-.
Qed.

Lemma check_binding_Some x k : check_binding (Some x) k = Ok tt → key_on_curve k = true ∧ ed25519_pub_to_x25519 k = x.
Proof. unfold check_binding. destruct (key_on_curve k); [|done]. cbn. case_decide; done. Qed.

(** A step keeps the table of joins, or adds a bound row to it. *)
Lemma inbound_step_acks d d' :
  inbound_step d d' →
  d_acks (dm_db d') = d_acks (dm_db d) ∨
  ∃ kp_ref x derived now, d_acks (dm_db d') = ack_insert_in_tx kp_ref x derived now (d_acks (dm_db d)) ∧
    len derived = 32 ∧ key_on_curve derived = true ∧ ed25519_pub_to_x25519 derived = x.
Proof.
  intros Hstep. apply inbound_step_cases in Hstep as [Hc|[(from & gid & ct & fresh & enforce & now & r & Hres)
    |[(w & b & h & now & derived & Hj)|(mid & now & ->)]]].
  - left. apply Hc.
  - left. destruct Hres as [e [a ->] _|g t _ _ _ ->|g env card c _ _ _ _ _ ->|g env t rd out _ _ _ _ _ _ [a ->] _]; done.
  - apply welcome_join_cases in Hj as [(? & ? & _)|H]; [done|].
    destruct H as (kp & row & g & t & ks & nick & der & _ & _ & _ & Hp & Hb & _ & _ & _ & ->).
    destruct b as [x|]; [|by left]. right. exists kp, x, der, now. apply check_binding_Some in Hb as [Hk Hx].
    split_and!; try done. by eapply peer_identity_length.
  - left. unfold message_delivered. destruct wired as [k|]; [|done].
    by destruct (mark_delivered_by_envelope_id _ _ _ _) as [m []].
Qed.

(** [d] is reached with static keys of 32 bytes, as the handshake gives them. *)
Lemma acks_bound_step d d' :
  (∀ k, key_on_curve k = true → len (ed25519_pub_to_x25519 k) = 32) →
  acks_bound d → inbound_step d d' → acks_bound d'.
Proof.
  intros Hlen Hb Hstep. unfold acks_bound.
  apply inbound_step_acks in Hstep as [->|(kp & x & der & now & -> & Hl & Hk & Hx)]; [done|].
  unfold ack_insert_in_tx. case_decide; [done|]. apply Forall_app. split; [done|]. constructor; [|constructor].
  unfold ack_bound. cbn. subst x. split_and!; auto.
Qed.

Lemma ack_lookup_step d d' kp :
  inbound_step d d' → kp ∈ ak_kp_ref <$> d_acks (dm_db d) →
  kp ∈ ak_kp_ref <$> d_acks (dm_db d') ∧ ack_lookup kp (d_acks (dm_db d')) = ack_lookup kp (d_acks (dm_db d)).
Proof.
  intros Hstep Hin. apply inbound_step_acks in Hstep as [->|(kp' & x & der & now & -> & _)]; [done|].
  split; [|apply ack_lookup_kept; by left]. unfold ack_insert_in_tx. case_decide; [done|].
  rewrite fmap_app. apply elem_of_app. by left.
Qed.

Lemma recorded_None d w kp :
  acks_bound d → parse_welcome_kp_hash w = Ok kp → recorded_join w (dm_db d) = None →
  ack_lookup kp (d_acks (dm_db d)) = Ok None.
Proof.
  intros Hb Hp. unfold recorded_join. rewrite Hp. unfold ack_lookup.
  destruct (head _) as [r|] eqn:E; [|done].
  apply head_filter_elem in E as [_ Hr].
  unfold acks_bound in Hb. rewrite Forall_forall in Hb. destruct (Hb r Hr) as (H1 & H2 & _).
  by rewrite !decide_False by (by intros ?).
Qed.

(** The two ways a Welcome reaches the join: as the first frame of a connection
    whose handshake gave a static key and a binding value, or over the connection
    of a known peer. *)
Inductive route : Type := Fresh (x : bytes) (h : option bytes) | Established (peer : bytes).
Definition welcome_via (v : route) (w : bytes) (now : Z) (d : daemon) : daemon * option bytes :=
  match v with
  | Fresh x h => dispatch_welcome_bootstrap wired w x h now d
  | Established peer => dispatch_welcome wired peer w now d
  end.

(** Whatever arrives, and contacts that are removed. *)
Inductive life_step (d : daemon) : daemon → Prop :=
| lf_inbound d' : inbound_step d d' → life_step d d'
| lf_remove contact : life_step d (remove_contact contact d).1.

Lemma remove_contact_invites contact d : d_invites (dm_db (remove_contact contact d).1) = d_invites (dm_db d).
Proof.
  unfold remove_contact, known_contact, try_read, read_try, try, purge_contact, atomically, bind_action, on, map_error,
    read, modify, ensure, lift.
  repeat (case_match; simplify_eq/=); done.
Qed.

Lemma mark_consumed_gone kp kp' l : kp ∉ oi_kp_hash <$> l → kp ∉ oi_kp_hash <$> oi_mark_consumed kp' l.
Proof.
  intros Hn (r & -> & [_ Hr]%list_elem_of_filter)%list_elem_of_fmap. apply list_elem_of_fmap in Hr as (r' & -> & Hr').
  apply Hn, list_elem_of_fmap. exists r'. split; [by case_decide|done].
Qed.
Lemma mark_consumed_spent kp l : kp ∉ oi_kp_hash <$> oi_mark_consumed kp l.
Proof. by intros (r & -> & [? _]%list_elem_of_filter)%list_elem_of_fmap. Qed.

(** No invite comes back. *)
Lemma life_step_invites kp d d' :
  life_step d d' → kp ∉ oi_kp_hash <$> d_invites (dm_db d) → kp ∉ oi_kp_hash <$> d_invites (dm_db d').
Proof.
  intros [d1 Hstep|contact] Hn; [|by rewrite remove_contact_invites].
  apply inbound_step_cases in Hstep as [Hc|[(from & gid & ct & fresh & enforce & now & r & Hres)
    |[(w & b & h & now & derived & Hj)|(mid & now & ->)]]].
  - by rewrite (calm_invites _ _ Hc).
  - destruct Hres as [e [a ->] _|g t _ _ _ ->|g env card c _ _ _ _ _ ->|g env t rd out _ _ _ _ _ _ [a ->] _]; done.
  - apply welcome_join_cases in Hj as [(? & ? & _)|H]; [done|].
    destruct H as (kp' & row & g & t & ks & nick & der & _ & _ & _ & _ & _ & _ & _ & _ & ->).
    by apply mark_consumed_gone.
  - unfold message_delivered. destruct wired as [k|]; [|done]. by destruct (mark_delivered_by_envelope_id _ _ _ _) as [m []].
Qed.

(** Without its invite a Welcome joins nobody. *)
Lemma welcome_without_invite v w now d kp :
  parse_welcome_kp_hash w = Ok kp → kp ∉ oi_kp_hash <$> d_invites (dm_db d) → (welcome_via v w now d).1 = d.
Proof.
  intros Hp Hn. assert (∀ b h, (welcome_join_persist wired w b h now d).1 = d) as Hj.
  { intros b h. destruct (welcome_join_persist _ _ _ _ _ _) as [d' r] eqn:E.
    apply welcome_join_cases in E as [(e & _ & ->)|H]; [done|]. destruct H as (kp' & row & ? & ? & ? & ? & ? & Hp' & Hf & _).
    rewrite Hp in Hp'. injection Hp' as <-. apply head_filter_elem in Hf as [Hk Hr]. destruct Hn. apply list_elem_of_fmap. by exists row. }
  destruct v as [x h|peer]; cbn; unfold dispatch_welcome_bootstrap, dispatch_welcome; destruct (recorded_join _ _) as [[? ?]|]; try done.
  - specialize (Hj (Some x) h). unfold ok. by destruct (welcome_join_persist _ _ _ _ _ _).
  - specialize (Hj None None). by destruct (welcome_join_persist _ _ _ _ _ _).
Qed.

(** What a join leaves. *)
Lemma welcome_joins v w now d d1 a :
  recorded_join w (dm_db d) = None → welcome_via v w now d = (d1, Some a) →
  ∃ kp derived, parse_welcome_kp_hash w = Ok kp ∧ kp ∉ oi_kp_hash <$> d_invites (dm_db d1) ∧ len derived = 32 ∧
    ∀ x h, v = Fresh x h → a = derived ∧ ed25519_pub_to_x25519 derived = x ∧
      d_acks (dm_db d1) = ack_insert_in_tx kp x derived now (d_acks (dm_db d)).
Proof.
  intros Hrec Hvia. assert (∃ b h r, welcome_join_persist wired w b h now d = (d1, Ok r) ∧
    ∀ x h', v = Fresh x h' → b = Some x ∧ a = r) as (b & h & r & Hj & Hv).
  { destruct v as [x h|peer]; cbn in Hvia; unfold dispatch_welcome_bootstrap, dispatch_welcome in Hvia; rewrite Hrec in Hvia.
    - unfold ok in Hvia. destruct (welcome_join_persist _ _ _ _ _ _) as [d' [r|]] eqn:E; [|done]. injection Hvia as -> ->.
      exists (Some x), h, a. split; [done|]. by intros x' h' [= -> ->].
    - destruct (welcome_join_persist _ _ _ _ _ _) as [d' [r|]] eqn:E; [|done]. injection Hvia as -> _. by exists None, None, r. }
  apply welcome_join_cases in Hj as [(e & ? & _)|H]; [done|].
  destruct H as (kp & row & g & t & ks & nick & der & Hp & _ & _ & Hpi & Hbind & _ & _ & [= ->] & ->).
  exists kp, der. split_and!; [done|apply mark_consumed_spent|by eapply peer_identity_length|].
  intros x h' E. destruct (Hv x h' E) as [-> ->]. by apply check_binding_Some in Hbind as [_ ?].
Qed.

(** C5: an invite joins once.  Once a Welcome has joined with an invite of ours, over
    a fresh connection or over that of a known peer, then whatever arrives later and
    whichever contacts are removed, no Welcome for the same invite joins again or
    changes any state, on either route.  When it joined over a fresh connection, the
    peer that joined is the one whose static key the handshake authenticated, and
    until a contact is removed the Welcome is acknowledged again to that peer (a lost
    acknowledgement is repeated) and refused to everyone else.  On the connection of
    a known peer the code joins the identity the Welcome names without comparing it to
    the peer, and keeps no record for repeated acknowledgements. *)
Theorem invite_single_use v w now d d1 d2 a :
  recorded_join w (dm_db d) = None → welcome_via v w now d = (d1, Some a) → rtc life_step d1 d2 →
  (∀ v' w' now', parse_welcome_kp_hash w' = parse_welcome_kp_hash w → (welcome_via v' w' now' d2).1 = d2) ∧
  ∀ x h, v = Fresh x h → acks_bound d → len x = 32 →
    ed25519_pub_to_x25519 a = x ∧
    (rtc inbound_step d1 d2 → ∀ w', parse_welcome_kp_hash w' = parse_welcome_kp_hash w →
      (∀ x' h' now', dispatch_welcome_bootstrap wired w' x' h' now' d2 = (d2, if decide (x = x') then Some a else None)) ∧
      (∀ peer' now', dispatch_welcome wired peer' w' now' d2 =
         (d2, if decide (a = peer') then Some (welcome_msg_id w') else None))).
Proof.
  intros Hrec Hvia Hrun. destruct (welcome_joins v w now d d1 a Hrec Hvia) as (kp & der & Hp & Hgone & Hlen & Hfresh). split.
  - assert (kp ∉ oi_kp_hash <$> d_invites (dm_db d2)) as Hgone2.
    { clear Hvia Hfresh. induction Hrun as [|p q r Hpq _ IH]; [done|]. by apply IH, (life_step_invites kp p q). }
    intros v' w' now' Hw'. apply (welcome_without_invite v' w' now' d2 kp); [by rewrite Hw'|done].
  - intros x h Hv Hb Hx. destruct (Hfresh x h Hv) as (-> & Hmont & Hacks). split; [done|]. intros Hrun'.
    assert (ack_lookup kp (d_acks (dm_db d1)) = Ok (Some (x, der)) ∧ kp ∈ ak_kp_ref <$> d_acks (dm_db d1)) as [Hl Hin].
    { rewrite Hacks. split; [apply ack_lookup_insert; try done; by eapply recorded_None|].
      unfold ack_insert_in_tx. case_decide; [done|]. rewrite fmap_app. apply elem_of_app. right. by apply list_elem_of_singleton. }
    assert (ack_lookup kp (d_acks (dm_db d2)) = Ok (Some (x, der))) as Hl2.
    { clear Hvia Hrun Hgone Hacks Hfresh. induction Hrun' as [|p q r Hpq _ IH]; [done|]. destruct (ack_lookup_step _ _ kp Hpq Hin) as [Hin' Heq].
      apply IH; [by rewrite Heq|done]. }
    intros w' Hw'. unfold dispatch_welcome_bootstrap, dispatch_welcome, recorded_join. by rewrite Hw', Hp, Hl2.
Qed.

(** C16: a connection is attributed to the identity it proved.  In every state the
    receive path can reach from an empty table of joins, an accepted connection is
    handed only to an identity whose X25519 key is the one its Noise handshake
    authenticated, be it a known contact or a peer that just joined with one of
    our invites; and a connection that is closed changed nothing. *)
Theorem accept_authenticated db d x h first now d' out :
  (∀ k, key_on_curve k = true → len (ed25519_pub_to_x25519 k) = 32) →
  d_acks db = [] → rtc inbound_step (start db) d →
  handle_inbound_stream wired x h first now d = (d', out) →
  match out with Ingested peer _ => ed25519_pub_to_x25519 peer = x | Closed => d' = d end.
Proof.
  intros Hlen Hempty Hrun Hacc.
  assert (acks_bound d) as Hb.
  { assert (acks_bound (start db)) as H0 by (unfold acks_bound; cbn; by rewrite Hempty).
    induction Hrun as [|a b c Hab _ IH]; [done|]. by apply IH, (acks_bound_step a b). }
  unfold handle_inbound_stream in Hacc.
  destruct (find_by_noise_x25519 x _) as [[p|]|e] eqn:Ef; [| |by injection Hacc as <- <-].
  - injection Hacc as <- <-. unfold find_by_noise_x25519 in Ef. apply bind_Ok_inv in Ef as (cs & _ & [= Hh]).
    destruct (head _) as [c|] eqn:Eh; [|done]. injection Hh as <-. by apply head_filter_elem in Eh as [[_ ?] _].
  - destruct first as [f| | |]; try by injection Hacc as <- <-.
    destruct f; try by injection Hacc as <- <-.
    unfold dispatch_welcome_bootstrap in Hacc. destruct (recorded_join p (dm_db d)) as [[x' id]|] eqn:Er.
    + case_decide; injection Hacc as <- <-; [subst x'|done]. unfold recorded_join in Er.
      destruct (parse_welcome_kp_hash p) as [kp|]; [|done].
      destruct (ack_lookup kp _) as [[[? ?]|]|] eqn:El; try done. injection Er as -> ->.
      unfold ack_lookup in El. destruct (head _) as [r|] eqn:Eh; [|done].
      apply head_filter_elem in Eh as [_ Hr].
      unfold acks_bound in Hb. rewrite Forall_forall in Hb. destruct (Hb r Hr) as (_ & _ & _ & Hm).
      repeat case_decide; try done. by injection El as <- <-.
    + unfold ok in Hacc. destruct (welcome_join_persist _ _ _ _ _ _) as [d1 r] eqn:Ej.
      apply welcome_join_cases in Ej as [(e & -> & ->)|H]; [by injection Hacc as <- <-|].
      destruct H as (kp & row & g & t & ks & nick & der & _ & _ & _ & _ & Hbind & _ & _ & -> & _).
      injection Hacc as _ <-. by apply check_binding_Some in Hbind as [_ ?].
Qed.

(** A card update that was received cannot be received again.  The path of a
    card update does not advance the stored group, so that the same frame, sent
    again because its acknowledgement was lost, still decrypts; but its card is
    no longer newer than the one on file, and the frame fails: it is never
    acknowledged, while the sender keeps it until it is. *)
Theorem card_update_redelivery from gid ct enforce fresh now d d' mid v :
  dispatch_for_group from gid ct enforce fresh now d = (d', Ok mid) →
  dm_events d' = dm_events d ++ [Ev_ContactCardReceived from v] →
  ∀ fresh' now', ∃ e, dispatch_for_group from gid ct enforce fresh' now' d' = (d', Err e).
Proof.
  intros Hd Hev fresh' now'.
  assert (len gid = 32) as Hgid.
  { unfold dispatch_for_group in Hd. cbn in Hd. case_bool_decide; done. }
  apply dispatch_for_group_cases in Hd. remember (Ok mid) as r eqn:Hr.
  destruct Hd as [e _ _ _|g t _ _ _ ->|g env card c Hl Hdec Hk Hv Hput Hd'|g env t rd out _ _ _ _ _ _ _ He _]; [done| | |].
  - change (dm_events d = dm_events d ++ [Ev_ContactCardReceived from v]) in Hev.
    by apply (f_equal length) in Hev; rewrite length_app in Hev; cbn in Hev; lia.
  - assert (dm_db d' = fset f_contacts c (dm_db d)) as Hdb by by rewrite Hd'.
    unfold dispatch_for_group. unfold bind_action at 1, ensure. rewrite bool_decide_true by done.
    unfold bind_action at 1, read_try. replace (fget (of_db f_groups) d') with (d_groups (dm_db d)) by (by subst d').
    rewrite Hl. cbn [map_err]. unfold bind_action at 1, lift at 1. cbn [ok_or].
    unfold bind_action at 1, lift at 1. rewrite Hdec. cbn [map_err]. rewrite Hk. unfold receive_card.
    unfold bind_action at 1, lift at 1. destruct (card_verify card now') as [claimed|e]; [|by eexists].
    cbn [map_err]. unfold bind_action at 1, ensure. case_bool_decide; [|by eexists].
    destruct (put_card_twice _ now' _ _ _ Hput) as [e He]. exists (Error e).
    unfold bind_action at 1, map_error, on. replace (fget (of_db f_contacts) d') with c by (by subst d').
    rewrite He. f_equal. by subst d'.
  - rewrite He in Hev. apply app_inv_head in Hev. by destruct out.
Qed.
End steps.

(** ** Witnesses: Alice's side of [Scenario] *)

Import SampleInstances.

Lemma alice_start : alice_invited = start (dm_db alice_invited).
Proof. vm_compute. reflexivity. Qed.

Lemma alice_join_step : inbound_step (Some alice) true alice_invited alice_joined.
Proof.
  replace alice_joined with
    (dispatch_welcome_bootstrap (Some alice) the_welcome (public bob) (Some transcript) 1200 alice_invited).1
    by (vm_compute; reflexivity).
  apply st_bootstrap.
Qed.

Lemma alice_reads : rtc (inbound_step (Some alice) true) (start (dm_db alice_invited)) alice_read.
Proof.
  rewrite <- alice_start. eapply rtc_l; [exact alice_join_step|].
  eapply rtc_l; [apply (st_frame _ _ alice_joined (public bob) card_frame (fill 16 Byte.x00) 1500)|].
  eapply rtc_l; [apply (st_frame _ _ alice_card (public bob) text_frame (fill 16 Byte.x00) 1600)|]. apply rtc_refl.
Qed.

(** The text is delivered, and its redelivery is not. *)
Lemma inbox_refinement_witness :
  delivered alice_read = [(public bob, fill 16 Byte.x08)] ∧
  NoDup (delivered alice_read) ∧
  inbox_step (delivered alice_read)
    (delivered (dispatch (public bob) text_frame (fill 16 Byte.x01) 1700 alice_read).1).
Proof.
  destruct (inbox_refinement _ _ _ _ alice_reads) as (Hn & _ & Hstep).
  split; [vm_compute; reflexivity|]. split; [exact Hn|]. apply Hstep, st_frame.
Defined.

(** Mallory, who has the Welcome too, does not get Bob's place. *)
Lemma invite_single_use_witness :
  dispatch_welcome_bootstrap (Some alice) the_welcome (public bob) (Some transcript) 1200 alice_invited
    = (alice_joined, Some (public bob)) ∧
  dispatch_welcome_bootstrap (Some alice) the_welcome (fill 32 Byte.x0c) (Some transcript) 1300 alice_read
    = (alice_read, None) ∧
  dispatch_welcome_bootstrap (Some alice) the_welcome (public bob) (Some transcript) 1300 alice_read
    = (alice_read, Some (public bob)).
Proof.
  assert (dispatch_welcome_bootstrap (Some alice) the_welcome (public bob) (Some transcript) 1200 alice_invited
    = (alice_joined, Some (public bob))) as Hj by (vm_compute; reflexivity).
  assert (rtc (inbound_step (Some alice) true) alice_joined alice_read) as Hrun.
  { eapply rtc_l; [apply (st_frame _ _ alice_joined (public bob) card_frame (fill 16 Byte.x00) 1500)|].
    eapply rtc_l; [apply (st_frame _ _ alice_card (public bob) text_frame (fill 16 Byte.x00) 1600)|]. apply rtc_refl. }
  destruct (invite_single_use (Some alice) true (Fresh (public bob) (Some transcript)) the_welcome 1200 alice_invited alice_joined
    alice_read (public bob)) as [_ H]; [vm_compute; reflexivity|exact Hj| |].
  { clear - Hrun. induction Hrun; [apply rtc_refl|]. eapply rtc_l; [by apply lf_inbound|done]. }
  destruct (H (public bob) (Some transcript) eq_refl) as [_ H2]; [|vm_compute; reflexivity|].
  { unfold acks_bound. replace (d_acks (dm_db alice_invited)) with (@nil ack_row) by (vm_compute; reflexivity). constructor. }
  destruct (H2 Hrun the_welcome eq_refl) as [Hb _]. split_and!; [exact Hj|rewrite Hb; reflexivity|rewrite Hb; reflexivity].
Defined.

Lemma accept_authenticated_witness :
  joined.2 = Ingested (public bob) (Some (welcome_msg_id the_welcome)) ∧ ed25519_pub_to_x25519 (public bob) = public bob.
Proof.
  destruct (handle_inbound_stream (Some alice) (public bob) transcript (ReadFrame (MlsWelcome the_welcome)) 1200 alice_invited)
    as [d' out] eqn:E.
  pose proof (accept_authenticated (Some alice) true (dm_db alice_invited) alice_invited (public bob) transcript
    (ReadFrame (MlsWelcome the_welcome)) 1200 d' out) as H.
  assert (out = Ingested (public bob) (Some (welcome_msg_id the_welcome))) as ->.
  { change out with (d', out).2. rewrite <- E. vm_compute. reflexivity. }
  split; [unfold joined; rewrite E; reflexivity|]. apply H; [|vm_compute; reflexivity| |exact E].
  - intros k Hk. by apply bool_decide_eq_true_1 in Hk.
  - rewrite <- alice_start. apply rtc_refl.
Defined.

(** Bob's card, received and received again. *)
Lemma card_update_redelivery_witness :
  ∃ e, dispatch_for_group (public bob) (fill 32 Byte.x04) card_frame true (fill 16 Byte.x00) 1600 alice_card
         = (alice_card, Err e).
Proof.
  apply (card_update_redelivery (public bob) (fill 32 Byte.x04) card_frame true (fill 16 Byte.x00) 1500 alice_joined
    alice_card (fill 16 Byte.x06) 1); vm_compute; reflexivity.
Defined.
