(* ===== verification/DeliveryProps.v ===== *)
(** * DeliveryProps: what the background sweeps guarantee

    Theorems about [Delivery]: a queued message leaves the outbox only when a
    mailbox accepted it or after the sender was told that it failed. *)

From S2P Require Import Prelude Text Framing SimpleCodec CoreErrors Float64 Backoff Outbox Sql MailboxProtocol MailboxCodec.
From S2P Require Import Identity Contacts Messages Receiver Attachments AttachmentRepo Mls Invites FirstContact Mailboxes Api Daemon.
From S2P Require Import MailboxClient Poll ContactCommands MailboxCommands Inbound Delivery Samples Scenario.

Section delivery_facts.
Context {scheme : SignatureScheme} {sha : Sha256} {b2 : Blake2s}.
Context {de_card : Deserialize ContactCard}.
Context (me : IdentityKey).
Implicit Types (d : daemon) (r : outbox_row).

Definition queued d : list outbox_row := t_rows (d_outbox (dm_db d)).
Definition history d : messages_db := rd_messages (d_recv (dm_db d)).

(** ** What can become of a queued message *)

(** The same message to the same peer. *)
Record same_message r r' : Prop := {
  sm_target : ob_target r' = ob_target r;
  sm_message : ob_message_id r' = ob_message_id r;
  sm_bytes : ob_payload r' = ob_payload r
}.

Definition still_queued r d : Prop := ∃ r', r' ∈ queued d ∧ same_message r r'.

(** The mailboxes of a peer: those its latest card names. *)
Definition mailbox_of (c : contacts_db) (peer : bytes) (onion : string) : Prop :=
  ∃ onions, list_for_contact peer c = Ok onions ∧ onion ∈ onions.

(** What was handed out and announced between two states. *)
Definition handed_out d d' (outs : list outgoing) : Prop := dm_out d' = dm_out d ++ outs.
Definition announced d d' (evs : list Event) : Prop := dm_events d' = dm_events d ++ evs.

(** Between [d] and [d'] a mailbox took it for the peer, one of those the peer has
    according to [site], and subscribers were told. *)
Definition in_a_mailbox (site : bytes → string → Prop) r d d' : Prop := ∃ onion outs evs,
  site (ob_target r) onion ∧
  handed_out d d' outs ∧ DepositTo onion (recipient_hash_from_pubkey (ob_target r)) (ob_payload r) ∈ outs ∧
  announced d d' evs ∧ Ev_DeliveryStatusChanged (ob_message_id r) Status_Deposited ∈ evs.

(** Every copy of it in our history that was not delivered says that it failed. *)
Definition told_failed (message_id : bytes) d : Prop :=
  ∀ m, m ∈ t_rows (messages (history d)) → sent_by_us message_id (public me) m → m_delivered_at m = None →
    m_failed_reason m = Some NO_MAILBOX_REASON.

(** It is older than the receiver's window allows, for a peer without a mailbox. *)
Definition hopeless (now : Z) r d : Prop :=
  list_for_contact (ob_target r) (d_contacts (dm_db d)) = Ok [] ∧
  ∃ ts, envelope_ts (ob_message_id r) (history d) = Some ts ∧ DIRECT_EXPIRY_MS ≤ i64_saturating_sub now ts.

Definition accounted (now : Z) d d' r : Prop :=
  still_queued r d' ∨ in_a_mailbox (mailbox_of (d_contacts (dm_db d))) r d d' ∨ (hopeless now r d ∧ told_failed (ob_message_id r) d').

(** ** One step of a sweep *)

Record swept (now : Z) d d' : Prop := {
  sw_accounted : ∀ r, r ∈ queued d → accounted now d d' r;
  sw_derived : ∀ r', r' ∈ queued d' → ∃ r, r ∈ queued d ∧ ob_id r' = ob_id r ∧ same_message r r';
  sw_ids : NoDup (ob_id <$> queued d) → NoDup (ob_id <$> queued d');
  sw_contacts : d_contacts (dm_db d') = d_contacts (dm_db d);
  sw_ts : ∀ mid, envelope_ts mid (history d') = envelope_ts mid (history d);
  sw_out : ∃ outs, handed_out d d' outs;
  sw_events : ∃ evs, announced d d' evs;
  sw_failed : ∀ mid, told_failed mid d → told_failed mid d'
}.

Lemma same_message_refl r : same_message r r.
Proof. by split. Qed.
Lemma same_message_trans r1 r2 r3 : same_message r1 r2 → same_message r2 r3 → same_message r1 r3.
Proof. intros [] []. split; congruence. Qed.

(** Deposits of a part are deposits of the whole. *)
Lemma in_a_mailbox_before site r d1 d2 d3 outs evs :
  in_a_mailbox site r d1 d2 → handed_out d2 d3 outs → announced d2 d3 evs → in_a_mailbox site r d1 d3.
Proof.
  intros (o & outs1 & evs1 & Hs & Ho & Hin & He & Hev) Ho2 He2. exists o, (outs1 ++ outs), (evs1 ++ evs).
  unfold handed_out, announced in *. rewrite Ho2, Ho, He2, He, !(assoc_L (++)). split_and!; try done; apply elem_of_app; by left.
Qed.
Lemma in_a_mailbox_after site r r' d1 d2 d3 outs evs :
  same_message r r' → handed_out d1 d2 outs → announced d1 d2 evs → in_a_mailbox site r' d2 d3 → in_a_mailbox site r d1 d3.
Proof.
  intros [Ht Hm Hb] Ho2 He2 (o & outs1 & evs1 & Hs & Ho & Hin & He & Hev). exists o, (outs ++ outs1), (evs ++ evs1).
  unfold handed_out, announced in *. rewrite Ho, Ho2, He, He2, !(assoc_L (++)). rewrite Ht, Hb in *. rewrite Hm in Hev.
  split_and!; try done; apply elem_of_app; by right.
Qed.
Lemma handed_out_refl d : ∃ outs, handed_out d d outs.
Proof. exists []. unfold handed_out. by rewrite app_nil_r. Qed.
Lemma announced_refl d : ∃ evs, announced d d evs.
Proof. exists []. unfold announced. by rewrite app_nil_r. Qed.
Lemma handed_out_trans d1 d2 d3 : (∃ l, handed_out d1 d2 l) → (∃ l, handed_out d2 d3 l) → ∃ l, handed_out d1 d3 l.
Proof. intros [l1 H1] [l2 H2]. exists (l1 ++ l2). unfold handed_out in *. by rewrite H2, H1, (assoc_L (++)). Qed.
Lemma announced_trans d1 d2 d3 : (∃ l, announced d1 d2 l) → (∃ l, announced d2 d3 l) → ∃ l, announced d1 d3 l.
Proof. intros [l1 H1] [l2 H2]. exists (l1 ++ l2). unfold announced in *. by rewrite H2, H1, (assoc_L (++)). Qed.

Lemma swept_refl now d : swept now d d.
Proof.
  split; auto using handed_out_refl, announced_refl; try done.
  - intros r Hr. left. exists r. split; [done|apply same_message_refl].
  - intros r Hr. by exists r.
Qed.

Lemma swept_trans now d1 d2 d3 : swept now d1 d2 → swept now d2 d3 → swept now d1 d3.
Proof.
  intros [A1 D1 I1 C1 T1 O1 E1 F1] [A2 D2 I2 C2 T2 O2 E2 F2].
  split; [|..|by eapply handed_out_trans|by eapply announced_trans|]; try (intros; eauto; congruence).
  - intros r Hr. destruct (A1 r Hr) as [(r' & Hr' & Hsame)|[Hin|[Hh Hf]]].
    + destruct O1 as [outs1 O1], E1 as [evs1 E1]. destruct (A2 r' Hr') as [(r3 & Hr3 & Hs)|[Hin|[[Hl (ts & Hts & Hage)] Hf]]].
      * left. exists r3. split; [done|]. by eapply same_message_trans; [|exact Hs].
      * right. left. rewrite C1 in Hin. by eapply in_a_mailbox_after.
      * right. right. destruct Hsame as [Ht Hm Hb]. rewrite Ht, C1 in Hl. rewrite Hm in Hf. rewrite Hm, T1 in Hts. split; [|done].
        split; [done|]. by exists ts.
    + right. left. destruct O2 as [outs O2], E2 as [evs E2]. by eapply in_a_mailbox_before.
    + right. right. split; [done|by apply F2].
  - intros r' Hr'. destruct (D2 r' Hr') as (r2 & Hr2 & Hid2 & Hs2). destruct (D1 r2 Hr2) as (r1 & Hr1 & Hid1 & Hs1).
    exists r1. split_and!; [done|congruence|by eapply same_message_trans].
Qed.

(** Updates that keep a row's identity. *)
Lemma swept_map now d d' (f : outbox_row → outbox_row) :
  (∀ r, ob_id (f r) = ob_id r ∧ same_message r (f r)) →
  queued d' = f <$> queued d → d_contacts (dm_db d') = d_contacts (dm_db d) → history d' = history d →
  dm_out d' = dm_out d → dm_events d' = dm_events d → swept now d d'.
Proof.
  intros Hf Hq Hc Hh Ho He. split; rewrite ?Hh; try done.
  - intros r Hr. left. exists (f r). split; [rewrite Hq; by apply list_elem_of_fmap_2|apply Hf].
  - intros r'. rewrite Hq. intros (r & -> & Hr)%list_elem_of_fmap. exists r. split; [done|apply Hf].
  - rewrite Hq, <- list_fmap_compose. intros Hn. erewrite list_fmap_ext; [exact Hn|]. intros i r _. apply Hf.
  - exists []. unfold handed_out. by rewrite Ho, app_nil_r.
  - exists []. unfold announced. by rewrite He, app_nil_r.
  - intros mid Hm. unfold told_failed. by rewrite Hh.
Qed.

(** The row an id names is the message [row] is a copy of. *)
Record snapshot_of (row : OutboxRow) d : Prop := {
  sn_id : ∀ r, r ∈ queued d → ob_id r = or_id row → ob_target r = or_target row ∧ ob_message_id r = or_message_id row;
  sn_bytes : ∀ r, r ∈ queued d → ob_target r = or_target row → ob_message_id r = or_message_id row →
    ob_payload r = or_payload row
}.

Lemma snapshot_kept now row d d' : swept now d d' → snapshot_of row d → snapshot_of row d'.
Proof.
  intros Hs [Hid Hb]. split.
  - intros r' Hr' Heq. destruct (sw_derived _ _ _ Hs r' Hr') as (r & Hr & Hi & [-> -> _]). apply Hid; congruence.
  - intros r' Hr' Ht Hm. destruct (sw_derived _ _ _ Hs r' Hr') as (r & Hr & _ & [Ht' Hm' ->]).
    apply Hb; congruence.
Qed.

(** A deposit of the row [row_id]. *)
Lemma deposited_swept now row_id onion peer mid ct d :
  mailbox_of (d_contacts (dm_db d)) peer onion →
  (∀ r, r ∈ queued d → ob_id r = row_id → ob_target r = peer ∧ ob_message_id r = mid ∧ ob_payload r = ct) →
  swept now d (deposited_at_mailbox row_id onion peer mid ct d).
Proof.
  intros Hsite Hrow.
  assert (queued (deposited_at_mailbox row_id onion peer mid ct d) = filter (λ r, ¬ ob_id r = row_id) (queued d)) as Hq by done.
  split; rewrite ?Hq; try done.
  - intros r Hr. destruct (decide (ob_id r = row_id)) as [Hid|Hid].
    + right. left. destruct (Hrow r Hr Hid) as (<- & <- & <-). exists onion. do 2 eexists. split_and!; [done| |by apply list_elem_of_here| |by apply list_elem_of_here]; done.
    + left. exists r. rewrite Hq. split; [by apply list_elem_of_filter|by split].
  - intros r' [_ Hr']%list_elem_of_filter. exists r'. by split_and!.
  - intros Hn. by apply NoDup_fmap_filter.
  - by eexists.
  - by eexists.
Qed.

Lemma set_target_rows row_id mailbox t :
  ∃ f, (∀ r, ob_id (f r) = ob_id r ∧ same_message r (f r)) ∧ t_rows (set_mailbox_target row_id mailbox t).1 = f <$> t_rows t.
Proof.
  unfold set_mailbox_target. case_decide.
  - exists id. split; [by split|]. by rewrite list_fmap_id.
  - set (g := λ r, mkOutboxRow _ _ _ _ _ _ _ _). exists (λ r, if decide (ob_id r = row_id) then g r else r).
    split; [intros r; by case_decide|]. cbn. by case_decide.
Qed.

Lemma fallback_walk_swept now now' row_id peer mid ct tries d :
  (∀ t, t ∈ tries → mailbox_of (d_contacts (dm_db d)) peer t.1) →
  (∀ r, r ∈ queued d → ob_id r = row_id → ob_target r = peer ∧ ob_message_id r = mid ∧ ob_payload r = ct) →
  swept now d (fallback_walk row_id now' peer mid ct tries d).
Proof.
  revert d. induction tries as [|[onion accepted] rest IH]; intros d Hsite Hrow; cbn [fallback_walk]; [apply swept_refl|].
  assert (mailbox_of (d_contacts (dm_db d)) peer onion) as Hhere by (apply (Hsite (onion, accepted)), list_elem_of_here).
  assert (∀ t, t ∈ rest → mailbox_of (d_contacts (dm_db d)) peer t.1) as Hrest by (intros t Ht; by apply Hsite, list_elem_of_further).
  unfold on at 1. destruct (ensure_theirs onion now' _) as [t [mb|e]] eqn:Em.
  2:{ eapply swept_trans; [|by apply IH]. apply (swept_map _ _ _ id); [by split|by rewrite list_fmap_id|done..]. }
  set (d1 := fset (of_db f_mailboxes) t d). unfold on at 1.
  destruct (set_mailbox_target row_id mb (fget (of_db f_outbox) d1)) as [o r] eqn:Et.
  destruct (set_target_rows row_id mb (fget (of_db f_outbox) d1)) as (f & Hf & Hrows). rewrite Et in Hrows. cbn [fst] in Hrows.
  set (d2 := fset (of_db f_outbox) o d1).
  assert (swept now d d2) as H12 by (by apply (swept_map now d d2 f)).
  assert (∀ r, r ∈ queued d2 → ob_id r = row_id → ob_target r = peer ∧ ob_message_id r = mid ∧ ob_payload r = ct) as Hrow2.
  { intros r' Hr' Hid. destruct (sw_derived _ _ _ H12 r' Hr') as (r0 & Hr0 & Hi & [-> -> ->]). apply Hrow; congruence. }
  destruct r as [u|e]; [destruct accepted|]; (eapply swept_trans; [exact H12|]).
  - by apply deposited_swept.
  - by apply IH.
  - by apply IH.
Qed.

Lemma rotation_elem onions primary io : io ∈ rotation onions primary → io.2 ∈ onions.
Proof.
  unfold rotation. intros (i & _ & Hi)%list_elem_of_omap. destruct (onions !! _) as [o|] eqn:E; [|done].
  injection Hi as <-. by eapply list_elem_of_lookup_2.
Qed.
Lemma rotation_sites c peer onions primary (accepts : Z → bool) (t : string * bool) :
  list_for_contact peer c = Ok onions → t ∈ (λ io : Z * string, (io.2, accepts io.1)) <$> rotation onions primary →
  mailbox_of c peer t.1.
Proof. intros Hl (io & -> & Hio)%list_elem_of_fmap. exists onions. split; [done|]. by eapply rotation_elem. Qed.

Lemma fallback_swept now accepts now' row d :
  NoDup (ob_id <$> queued d) → snapshot_of row d →
  swept now d (run_mailbox_fallback accepts now' (or_target row) (or_message_id row) (or_payload row) d).
Proof.
  intros Hn [Hid Hb]. unfold run_mailbox_fallback.
  destruct (list_for_contact _ _) as [[|o onions]|e] eqn:El; [apply swept_refl| |apply swept_refl].
  destruct (find_direct_id _ _ _) as [row_id|] eqn:Ef; [|apply swept_refl].
  apply fallback_walk_swept; [intros t; by apply rotation_sites|]. intros r Hr Hrid. unfold find_direct_id in Ef.
  destruct (head _) as [r0|] eqn:Eh; [|done]. injection Ef as <-. apply head_filter_elem in Eh as [(Ht & Hm & _) Hr0].
  assert (r = r0) as -> by (by eapply (key_unique ob_id)). split_and!; [done..|]. by apply Hb.
Qed.

(** ** Giving up *)

Lemma mark_failed_rows mid reason db :
  t_rows (messages (mark_failed mid (public me) reason db).1) =
    (λ m, if decide (sent_by_us mid (public me) m ∧ m_delivered_at m = None) then with_failed reason m else m)
      <$> t_rows (messages db).
Proof. done. Qed.

Lemma mark_failed_ts mid mid' reason db :
  envelope_ts mid' (mark_failed mid (public me) reason db).1 = envelope_ts mid' db.
Proof.
  unfold envelope_ts, rows_of_envelope. rewrite mark_failed_rows.
  rewrite head_filter_fmap by (intros m; by case_decide). destruct (head _) as [m|]; [|done]. cbn. by case_decide.
Qed.

Lemma mark_failed_told mid mid' db (m : message_row) :
  m ∈ t_rows (messages (mark_failed mid (public me) NO_MAILBOX_REASON db).1) → sent_by_us mid' (public me) m →
  m_delivered_at m = None →
  m_failed_reason m = Some NO_MAILBOX_REASON ∨
  (mid' ≠ mid ∧ m ∈ t_rows (messages db)).
Proof.
  rewrite mark_failed_rows. intros (m0 & -> & Hm0)%list_elem_of_fmap. case_decide as Hc; [by left|]. intros Hs Hd.
  right. split; [|done]. intros ->. by destruct Hc.
Qed.

Lemma expire_row_swept now row d ts :
  snapshot_of row d → list_for_contact (or_target row) (d_contacts (dm_db d)) = Ok [] →
  envelope_ts (or_message_id row) (history d) = Some ts → DIRECT_EXPIRY_MS ≤ i64_saturating_sub now ts →
  swept now d (expire_row me row d).
Proof.
  intros [Hid _] Hl Hts Hage. unfold expire_row.
  pose proof (mark_failed_ts (or_message_id row)) as Ht. pose proof (mark_failed_told (or_message_id row)) as Hf.
  specialize (λ mid', Ht mid' NO_MAILBOX_REASON (history d)). specialize (λ mid', Hf mid' (history d)).
  unfold history in Ht, Hf. destruct (mark_failed _ _ _ _) as [m marked]. cbn [fst] in Ht, Hf.
  set (d2 := update f_outbox _ _). set (d' := if marked then _ else _).
  assert (queued d' = filter (λ r, ¬ ob_id r = or_id row) (queued d) ∧ history d' = m ∧
    d_contacts (dm_db d') = d_contacts (dm_db d) ∧ dm_out d' = dm_out d ∧ ∃ evs, announced d d' evs)
    as (Hq & Hh & Hc & Ho & He).
  { unfold d'. destruct marked; split_and!; try done; [by eexists|exists []; unfold announced; by rewrite app_nil_r]. }
  split; rewrite ?Hh, ?Hq; try done.
  - intros r Hr. destruct (decide (ob_id r = or_id row)) as [Hi|Hi].
    + right. right. destruct (Hid r Hr Hi) as [Htg Hm]. unfold hopeless. rewrite Htg, Hm. split; [eauto|].
      intros x Hx Hs Hd. rewrite Hh in Hx. destruct (Hf _ x Hx Hs Hd) as [?|[? _]]; done.
    + left. exists r. rewrite Hq. split; [by apply list_elem_of_filter|by split].
  - intros r' [_ Hr']%list_elem_of_filter. exists r'. by split_and!.
  - intros Hn. by apply NoDup_fmap_filter.
  - exists []. unfold handed_out. by rewrite Ho, app_nil_r.
  - intros mid Ht' x Hx Hs Hd. rewrite Hh in Hx. destruct (Hf _ x Hx Hs Hd) as [?|[_ ?]]; [done|]. by apply Ht'.
Qed.

(** ** The sweeps *)

Lemma outbox_row_swept accepts now now_s row d :
  NoDup (ob_id <$> queued d) → snapshot_of row d → swept now d (sweep_outbox_row me accepts now now_s row d).
Proof.
  intros Hn Hs. unfold sweep_outbox_row. destruct (or_target_kind row); [|apply swept_refl].
  destruct (envelope_ts _ _) as [ts|] eqn:Ets; [|apply swept_refl].
  case_decide as Hage; [apply swept_refl|]. case_decide; [apply swept_refl|].
  destruct (list_for_contact _ _) as [[|o l]|e] eqn:El; [| |apply swept_refl].
  - apply (expire_row_swept now row d ts); [done..|]. lia.
  - by apply fallback_swept.
Qed.

Lemma redeposit_swept accepts factor now row d :
  NoDup (ob_id <$> queued d) → snapshot_of row d → swept now d (redeposit_mailbox_row accepts factor now row d).1.
Proof.
  intros Hn [Hid Hb]. unfold redeposit_mailbox_row. set (later := (update f_outbox _ d, false)).
  assert (swept now d later.1) as Hl.
  { unfold later. cbn [fst]. set (d' := update f_outbox _ d).
    set (f := λ r, if decide (ob_id r = or_id row) then mkOutboxRow (ob_id r) (ob_target r) (ob_payload r)
      (ob_message_id r) (ob_attempts r + 1) (i64_saturating_add now (if decide (backoff (or_attempts row) factor ≤ i64_max)
        then backoff (or_attempts row) factor else i64_max)) (ob_target_kind r) (ob_mailbox_id r) else r).
    apply (swept_map now d d' f); try done. intros r. unfold f. by case_decide. }
  case_decide; [done|]. destruct (list_for_contact _ _) as [onions|e] eqn:El; [|done].
  destruct (head _) as [[i onion]|] eqn:Eh; [|done]. cbn [fst].
  apply head_filter_elem in Eh as [_ (n & o & [= _ ->] & Ho)%elem_of_lookup_imap]. apply deposited_swept.
  { exists onions. split; [done|]. by eapply list_elem_of_lookup_2. }
  intros r Hr Hrid.
  destruct (Hid r Hr Hrid) as [Ht Hm]. split_and!; [done..|]. by apply Hb.
Qed.

(** The rows a sweep works on are copies of queued ones. *)
Definition one_ciphertext d : Prop :=
  ∀ r r', r ∈ queued d → r' ∈ queued d → ob_target r = ob_target r' → ob_message_id r = ob_message_id r' →
    ob_payload r = ob_payload r'.

Lemma due_snapshot d r :
  NoDup (ob_id <$> queued d) → one_ciphertext d → r ∈ queued d → len (ob_message_id r) = 16 → snapshot_of (map_row r) d.
Proof.
  intros Hn Ho Hr Hlen. split; cbn; rewrite decide_True by done.
  - intros r' Hr' Hid. assert (r' = r) as -> by (by eapply (key_unique ob_id)). done.
  - intros r' Hr' Ht Hm. by apply Ho.
Qed.

Lemma sweep_rows_swept now (step : OutboxRow → daemon → daemon) rows d :
  (∀ row d', NoDup (ob_id <$> queued d') → snapshot_of row d' → swept now d' (step row d')) →
  NoDup (ob_id <$> queued d) → (∀ row, row ∈ rows → snapshot_of row d) →
  swept now d (foldl (λ d row, step row d) d rows).
Proof.
  intros Hstep. revert d. induction rows as [|row rows IH]; intros d Hn Hrows; [apply swept_refl|]. cbn [foldl].
  assert (swept now d (step row d)) as Hs by (apply Hstep; [done|apply Hrows, list_elem_of_here]).
  eapply swept_trans; [exact Hs|]. apply IH; [by apply (sw_ids _ _ _ Hs)|].
  intros row' Hrow'. eapply snapshot_kept; [exact Hs|]. by apply Hrows, list_elem_of_further.
Qed.

(** C13: a queued message is never lost.  A pass of the outbox sweep or of the
    mailbox sweep, over an outbox with unique ids in which a message has one
    ciphertext and a 16-byte id, leaves every queued message queued; or hands it, in
    this pass, to a mailbox that the latest card of its recipient names and announces
    it as deposited; or, only when it is 55 minutes old and the recipient has no
    mailbox, marks it as failed in our history with the reason, if it was not
    delivered. *)
Theorem sweep_loses_nothing accepts factors now now_s batch d r :
  NoDup (ob_id <$> queued d) → one_ciphertext d → (∀ r, r ∈ queued d → len (ob_message_id r) = 16) → r ∈ queued d →
  accounted now d (run_outbox_sweep me accepts now now_s batch d) r ∧
  accounted now d (run_mailbox_sweep accepts factors now batch d) r.
Proof.
  intros Hn Ho Hlen Hr.
  assert (∀ l : list outbox_row, (∀ x, x ∈ l → x ∈ queued d) → ∀ row, row ∈ map_row <$> l → snapshot_of row d) as Hsnap.
  { intros l Hl row (x & -> & Hx)%list_elem_of_fmap. apply due_snapshot; auto. }
  assert (∀ n (l : list outbox_row) x, x ∈ limit n (order_by ob_next_retry_at l) → x ∈ l) as Hlim.
  { intros n l x Hx. unfold limit in Hx. eapply (elem_of_order_by ob_next_retry_at).
    by eapply subseteq_take in Hx. }
  split.
  - apply (sw_accounted _ _ (run_outbox_sweep me accepts now now_s batch d)); [|done].
    unfold run_outbox_sweep. apply (sweep_rows_swept now (sweep_outbox_row me accepts now now_s)); [|done|].
    { intros. by apply outbox_row_swept. }
    apply Hsnap. intros x Hx%Hlim. by apply list_elem_of_filter in Hx as [_ ?].
  - apply (sw_accounted _ _ (run_mailbox_sweep accepts factors now batch d)); [|done].
    unfold run_mailbox_sweep. apply (sweep_rows_swept now
      (λ row d, (redeposit_mailbox_row (accepts (or_id row)) (factors (or_id row)) now row d).1)); [|done|].
    { intros. by apply redeposit_swept. }
    apply Hsnap. intros x Hx%Hlim. by apply list_elem_of_filter in Hx as [_ ?].
Qed.
End delivery_facts.

(** ** Witness: Bob's message an hour later, when Alice has no mailbox *)

Import SampleInstances.

Lemma sweep_loses_nothing_witness :
  let d' := run_outbox_sweep bob (λ _ _, true) 5000000 5000 32 bob_sent in
  ∃ r, queued bob_sent = [r] ∧ queued d' = [] ∧
    accounted bob 5000000 bob_sent d' r ∧
    accounted bob 5000000 bob_sent (run_mailbox_sweep (λ _ _, true) (λ _, f64_of_Z 1) 5000000 32 bob_sent) r.
Proof.
  intros d'. assert (∃ r, queued bob_sent = [r] ∧ ob_message_id r = fill 16 Byte.x08) as (r & Hq & Hm)
    by (eexists; vm_compute; repeat split).
  exists r. split; [exact Hq|]. split; [vm_compute; reflexivity|].
  apply sweep_loses_nothing; unfold one_ciphertext; rewrite ?Hq.
  - apply NoDup_singleton.
  - intros r1 r2 ->%list_elem_of_singleton ->%list_elem_of_singleton. done.
  - intros x ->%list_elem_of_singleton. rewrite Hm. reflexivity.
  - by apply list_elem_of_singleton.
Defined.
