(* ===== verification/WelcomeProps.v ===== *)
(** * WelcomeProps: first contact is settled

    Theorems about the Welcome sweep of [Delivery]: what a pass does to a pending
    Welcome, and that repeated passes settle it: the peer acknowledged, or the
    first contact is marked as failed after a day. *)

From S2P Require Import Prelude Text Framing SimpleCodec CoreErrors Float64 Backoff Outbox Sql MailboxProtocol MailboxCodec.
From S2P Require Import Identity Contacts Messages Receiver Attachments AttachmentRepo Mls Invites FirstContact Mailboxes Api Daemon.
From S2P Require Import MailboxClient Poll ContactCommands MailboxCommands Inbound Delivery Samples Scenario.

Section welcome_facts.
Context {om : OpenMls} {scheme : SignatureScheme} {sha : Sha256} {b2 : Blake2s}.
Context {ser_p : Serialize provider} {de_p : Deserialize provider}.
Context {ser_env : Serialize Envelope} {de_env : Deserialize Envelope}.
Context {ser_card : Serialize ContactCard} {de_card : Deserialize ContactCard} {ser_body : Serialize ContactCardBody}.
Context (me : IdentityKey) (onion : option string).

(** ** The table, pass by pass *)

(** What one row's turn does to the table. *)
Definition settle_row (acked : bytes → bool) (now_ms : Z) (l : pending_welcomes) (row : PendingWelcomeDue) : pending_welcomes :=
  if acked (pd_peer row) then pw_delete (pd_peer row) l
  else if decide (MAX_WELCOME_AGE_MS ≤ i64_saturating_sub now_ms (FirstContact.pd_created_at row))
  then pw_mark_failed (pd_peer row) l
  else pw_reschedule (pd_peer row) (i64_saturating_add now_ms (welcome_backoff_ms (FirstContact.pd_attempts row))) l.

Lemma send_card_pending rng mid now_ms card peer d :
  d_pending (dm_db (send_card_to_contact rng mid now_ms card peer d)) = d_pending (dm_db d).
Proof.
  unfold send_card_to_contact, on. repeat (case_match || case_decide); simplify_eq/=; done.
Qed.

Lemma build_card_pending now d : d_pending (dm_db (build_self_card me onion now d).1) = d_pending (dm_db d).
Proof.
  unfold build_self_card, try, map_error, on, bind_action, lift, read. destruct onion; [|done]. cbn.
  by destruct (build_next_self_card _ _ _ _ _ _).
Qed.

Lemma sweep_row_pending acked rng ids now now_ms row d :
  d_pending (dm_db (sweep_welcome_row me onion acked rng ids now now_ms row d)) =
    settle_row acked now_ms (d_pending (dm_db d)) row.
Proof.
  unfold sweep_welcome_row, settle_row. destruct (acked (pd_peer row)); [|by case_decide].
  unfold on_welcome_acked. set (d1 := update f_pending _ _).
  pose proof (build_card_pending now d1) as Hb. destruct (build_self_card me onion now d1) as [d2 [card|e]]; cbn in Hb.
  - change (d_pending (dm_db (send_card_to_contact (rng (pd_peer row)) (ids (pd_peer row)) now_ms card (pd_peer row) d2))
      = pw_delete (pd_peer row) (d_pending (dm_db d))). by rewrite send_card_pending, Hb.
  - exact Hb.
Qed.

Lemma sweep_pending acked rng ids now now_ms batch d :
  d_pending (dm_db (run_welcome_sweep me onion acked rng ids now now_ms batch d)) =
    foldl (settle_row acked now_ms) (d_pending (dm_db d)) (pw_due now_ms batch (d_pending (dm_db d))).
Proof.
  unfold run_welcome_sweep. generalize (pw_due now_ms batch (d_pending (dm_db d))) as rows. intros rows. revert d.
  induction rows as [|row rows IH]; intros d; [done|]. cbn [foldl]. by rewrite IH, sweep_row_pending.
Qed.

(** ** One peer's Welcome *)

Definition welcome_of (peer : bytes) (l : pending_welcomes) : list pw_row := filter (λ r, pw_peer r = peer) l.

(** The row's next state, when it is due. *)
Definition next_row (acked : bytes → bool) (now_ms : Z) (r : pw_row) : list pw_row :=
  if acked (pw_peer r) then []
  else if decide (MAX_WELCOME_AGE_MS ≤ i64_saturating_sub now_ms (pw_created_at r))
  then [mkPwRow (pw_peer r) (pw_group_id r) (pw_welcome r) (pw_next_retry_at r) (pw_attempts r) (pw_created_at r) 1]
  else [mkPwRow (pw_peer r) (pw_group_id r) (pw_welcome r)
          (i64_saturating_add now_ms (welcome_backoff_ms (pw_attempts r))) (pw_attempts r + 1) (pw_created_at r) (pw_failed r)].

Lemma welcome_of_update peer peer' f l :
  (∀ r, pw_peer (f r) = pw_peer r) →
  welcome_of peer (pw_update peer' f l) = (if decide (peer = peer') then f <$> welcome_of peer l else welcome_of peer l).
Proof.
  intros Hf. unfold welcome_of, pw_update. induction l as [|r l IH]; [by case_decide|].
  rewrite fmap_cons, !filter_cons, IH. destruct (decide (pw_peer r = peer')) as [Hr|Hr].
  - rewrite Hf, Hr. destruct (decide (peer = peer')) as [->|Hne]; [by rewrite !decide_True|by rewrite !decide_False].
  - destruct (decide (peer = peer')) as [->|Hne]; [by rewrite !decide_False|done].
Qed.

Lemma welcome_of_delete peer peer' l :
  welcome_of peer (pw_delete peer' l) = if decide (peer = peer') then [] else welcome_of peer l.
Proof.
  unfold welcome_of, pw_delete. rewrite list_filter_filter. case_decide as Hp.
  - apply filter_none. naive_solver.
  - apply list_filter_iff. naive_solver.
Qed.

Lemma settle_other acked now_ms l row peer :
  peer ≠ pd_peer row → welcome_of peer (settle_row acked now_ms l row) = welcome_of peer l.
Proof.
  intros Hne. unfold settle_row. destruct (acked _); [by rewrite welcome_of_delete, decide_False|].
  case_decide; unfold pw_mark_failed, pw_reschedule; by rewrite welcome_of_update, decide_False.
Qed.

Lemma settle_own acked now_ms l r :
  welcome_of (pw_peer r) l = [r] → welcome_of (pw_peer r) (settle_row acked now_ms l (pw_due_row r)) = next_row acked now_ms r.
Proof.
  intros Hl. unfold settle_row, next_row. cbn [pw_due_row pd_peer FirstContact.pd_created_at FirstContact.pd_attempts].
  destruct (acked (pw_peer r)); [by rewrite welcome_of_delete, decide_True|].
  case_decide; unfold pw_mark_failed, pw_reschedule; by rewrite welcome_of_update, decide_True, Hl.
Qed.

Lemma settle_all_other acked now_ms rows l peer :
  peer ∉ pd_peer <$> rows → welcome_of peer (foldl (settle_row acked now_ms) l rows) = welcome_of peer l.
Proof.
  revert l. induction rows as [|row rows IH]; intros l Hp; [done|]. cbn [foldl]. rewrite IH by set_solver.
  apply settle_other. set_solver.
Qed.

Lemma settle_all_own acked now_ms rows l r :
  NoDup (pw_peer <$> rows) → r ∈ rows → welcome_of (pw_peer r) l = [r] →
  welcome_of (pw_peer r) (foldl (settle_row acked now_ms) l (pw_due_row <$> rows)) = next_row acked now_ms r.
Proof.
  revert l. induction rows as [|r' rows IH]; intros l Hn Hin Hl; [by apply elem_of_nil in Hin|].
  rewrite fmap_cons in *. apply NoDup_cons in Hn as [Hr' Hn]. cbn [foldl].
  apply elem_of_cons in Hin as [->|Hin].
  - rewrite settle_all_other; [by apply settle_own|]. by rewrite <- list_fmap_compose.
  - apply IH; [done..|]. rewrite settle_other; [done|]. cbn. intros Heq. apply Hr'. rewrite <- Heq. by apply list_elem_of_fmap_2.
Qed.

(** A pass over a table with one row per peer. *)
Lemma pass_row acked now_ms batch l r :
  NoDup (pw_peer <$> l) → len l ≤ batch → r ∈ l → len (pw_peer r) = 32 →
  welcome_of (pw_peer r) (foldl (settle_row acked now_ms) l (pw_due now_ms batch l)) =
    if decide (pw_is_due now_ms r) then next_row acked now_ms r else [r].
Proof.
  intros Hn Hb Hr Hlen. assert (welcome_of (pw_peer r) l = [r]) as Hl by (by apply (filter_key pw_peer)).
  unfold pw_due. set (rows := filter (λ r, len (pw_peer r) = 32) _).
  assert (∀ x, x ∈ rows ↔ x ∈ l ∧ pw_is_due now_ms x ∧ len (pw_peer x) = 32) as Hrows.
  { intros x. unfold rows. rewrite list_elem_of_filter.
    assert (limit batch (order_by pw_next_retry_at (filter (pw_is_due now_ms) l)) = order_by pw_next_retry_at (filter (pw_is_due now_ms) l)) as ->.
    { unfold limit. apply take_ge. rewrite order_by_Permutation. unfold len in Hb. pose proof (length_filter (pw_is_due now_ms) l). lia. }
    rewrite elem_of_order_by, list_elem_of_filter. tauto. }
  assert (NoDup (pw_peer <$> rows)) as Hnr.
  { unfold rows. apply NoDup_fmap_filter. unfold limit. eapply sublist_NoDup; [|apply (fmap_sublist pw_peer), sublist_take].
    rewrite order_by_Permutation. by apply NoDup_fmap_filter. }
  case_decide as Hd.
  - apply settle_all_own; [done| |done]. by apply Hrows.
  - rewrite settle_all_other; [done|]. rewrite <- list_fmap_compose. cbn. intros (x & Heq & Hx)%list_elem_of_fmap.
    apply Hrows in Hx as (Hx & Hdx & _). by rewrite (key_unique pw_peer l x r Hn Hx Hr (eq_sym Heq)) in Hdx.
Qed.

(** ** Repeated passes *)

(** A pass: who acknowledges, the random bytes and ids, and the two clocks. *)
Record pass : Type := mkPass {
  ps_acked : bytes → bool; ps_rng : bytes → bytes; ps_ids : bytes → bytes; ps_now : Z; ps_now_ms : Z
}.
Definition run_pass (batch : Z) (d : daemon) (p : pass) : daemon :=
  run_welcome_sweep me onion (ps_acked p) (ps_rng p) (ps_ids p) (ps_now p) (ps_now_ms p) batch d.
Definition run_passes (batch : Z) (passes : list pass) (d : daemon) : daemon := foldl (run_pass batch) d passes.

(** The pass [q] sent [peer] its Welcome. *)
Definition tried_in (batch : Z) (d : daemon) (passes : list pass) (peer : bytes) (q : pass) : Prop :=
  ∃ ps1 ps2, passes = ps1 ++ q :: ps2 ∧
    peer ∈ pd_peer <$> pw_due (ps_now_ms q) batch (d_pending (dm_db (run_passes batch ps1 d))).

(** How a Welcome queued at [created] is settled: some pass sent it and it was
    acknowledged, or some pass sent it a day later and it was not. *)
Definition acknowledged (batch : Z) (d : daemon) (passes : list pass) (peer : bytes) : Prop :=
  ∃ q, tried_in batch d passes peer q ∧ ps_acked q peer = true.
Definition given_up (batch : Z) (d : daemon) (passes : list pass) (peer : bytes) (created : Z) : Prop :=
  ∃ q, tried_in batch d passes peer q ∧ ps_acked q peer = false ∧ created + MAX_WELCOME_AGE_MS ≤ ps_now_ms q.

(** The time by which a pass settles it: a day and the longest backoff. *)
Definition deadline (created : Z) : Z := created + MAX_WELCOME_AGE_MS + 60000.

Lemma settle_peers acked now_ms l row : pw_peer <$> settle_row acked now_ms l row `sublist_of` pw_peer <$> l.
Proof.
  unfold settle_row. destruct (acked _); [apply fmap_sublist, sublist_filter|].
  case_decide; unfold pw_mark_failed, pw_reschedule; by rewrite pw_update_peers.
Qed.

Lemma settle_all_peers acked now_ms rows l : pw_peer <$> foldl (settle_row acked now_ms) l rows `sublist_of` pw_peer <$> l.
Proof.
  revert l. induction rows as [|row rows IH]; intros l; [done|]. cbn [foldl]. etrans; [apply IH|apply settle_peers].
Qed.

Lemma welcome_of_nil peer l : welcome_of peer l = [] ↔ peer ∉ pw_peer <$> l.
Proof.
  unfold welcome_of. split; [|intros; apply filter_none; set_solver].
  intros Hl (r & -> & Hr)%list_elem_of_fmap. apply elem_of_nil with r. rewrite <- Hl. by apply list_elem_of_filter.
Qed.

Lemma failed_welcome peer l : pw_is_failed peer l = true ↔ ∃ r, r ∈ welcome_of peer l ∧ pw_failed r = 1.
Proof.
  unfold pw_is_failed, welcome_of. rewrite bool_decide_eq_true. split.
  - destruct (filter _ l) as [|r f] eqn:E; intros Hlt; [by apply Z.lt_irrefl in Hlt|].
    assert (r ∈ filter (λ r, pw_peer r = peer ∧ pw_failed r = 1) l) as [[Hp Hf] Hr]%list_elem_of_filter by (rewrite E; set_solver).
    exists r. by rewrite list_elem_of_filter.
  - intros (r & [Hp Hr]%list_elem_of_filter & Hf).
    assert (r ∈ filter (λ r, pw_peer r = peer ∧ pw_failed r = 1) l) as Hin by (by apply list_elem_of_filter).
    destruct (filter _ l); [by apply elem_of_nil in Hin|]. lens.
Qed.

Lemma not_pending_welcome peer l : pw_is_pending peer l = false ↔ welcome_of peer l = [].
Proof.
  unfold pw_is_pending, welcome_of. rewrite bool_decide_eq_false. destruct (filter _ l); [done|].
  split; [|done]. intros Hn. exfalso. apply Hn. lens.
Qed.

Lemma settle_all_len acked now_ms rows l : len (foldl (settle_row acked now_ms) l rows) ≤ len l.
Proof.
  pose proof (settle_all_peers acked now_ms rows l) as H. apply sublist_length in H. rewrite !length_fmap in H.
  unfold len. lia.
Qed.

Lemma due_tried now_ms batch l r :
  len l ≤ batch → r ∈ l → pw_is_due now_ms r → len (pw_peer r) = 32 → pw_peer r ∈ pd_peer <$> pw_due now_ms batch l.
Proof.
  intros Hb Hr Hd Hlen. unfold pw_due. rewrite <- list_fmap_compose. apply (list_elem_of_fmap_2 pw_peer).
  apply list_elem_of_filter. split; [done|]. unfold limit. rewrite take_ge.
  - rewrite elem_of_order_by, list_elem_of_filter. done.
  - rewrite order_by_Permutation. unfold len in Hb. pose proof (length_filter (pw_is_due now_ms) l). lia.
Qed.

Lemma tried_before batch d passes p peer q : tried_in batch d passes peer q → tried_in batch d (passes ++ [p]) peer q.
Proof. intros (ps1 & ps2 & -> & H). exists ps1, (ps2 ++ [p]). by rewrite <- app_assoc. Qed.
Lemma tried_last batch d passes p peer :
  peer ∈ pd_peer <$> pw_due (ps_now_ms p) batch (d_pending (dm_db (run_passes batch passes d))) →
  tried_in batch d (passes ++ [p]) peer p.
Proof. intros H. by exists passes, []. Qed.

(** What a run of passes made of [peer]'s Welcome: it waits, and then the last pass
    was before the deadline; or it is acknowledged and gone; or it is given up. *)
Inductive progress (batch : Z) (d : daemon) (passes : list pass) (peer : bytes) (created : Z) (l : pending_welcomes) : Prop :=
| still_waiting r :
    welcome_of peer l = [r] → pw_created_at r = created → pw_failed r = 0 → pw_next_retry_at r ≤ deadline created →
    (∀ q, last passes = Some q → ps_now_ms q < deadline created) → progress batch d passes peer created l
| now_gone : welcome_of peer l = [] → acknowledged batch d passes peer → progress batch d passes peer created l
| now_failed r :
    welcome_of peer l = [r] → pw_failed r = 1 → given_up batch d passes peer created → progress batch d passes peer created l.

Lemma welcome_of_one peer l r : welcome_of peer l = [r] → r ∈ l ∧ pw_peer r = peer.
Proof.
  intros Hl. assert (r ∈ welcome_of peer l) as [? ?]%list_elem_of_filter by (rewrite Hl; by apply list_elem_of_singleton). done.
Qed.

Section pass.
Context (batch : Z) (d : daemon) (passes : list pass) (p : pass) (peer : bytes) (created : Z).
Context (Hlen : len peer = 32) (Hnow : 0 ≤ ps_now_ms p ≤ i64_max) (Hcreated : 0 ≤ created).

Let l := d_pending (dm_db (run_passes batch passes d)).
Let l' := foldl (settle_row (ps_acked p) (ps_now_ms p)) l (pw_due (ps_now_ms p) batch l).
Context (Hn : NoDup (pw_peer <$> l)) (Hb : len l ≤ batch).

(** A pass over a Welcome that waits. *)
Lemma pass_waiting r :
  welcome_of peer l = [r] → pw_created_at r = created → pw_failed r = 0 → pw_next_retry_at r ≤ deadline created →
  progress batch d (passes ++ [p]) peer created l'.
Proof using Hlen Hnow Hcreated Hn Hb.
  intros Hr Hc Hf Hd. destruct (welcome_of_one _ _ _ Hr) as [Hin Hp].
  pose proof (pass_row (ps_acked p) (ps_now_ms p) batch l r Hn Hb Hin) as Hpass. rewrite Hp in Hpass. specialize (Hpass Hlen).
  fold l' in Hpass. unfold deadline, MAX_WELCOME_AGE_MS in *. destruct (decide (pw_is_due (ps_now_ms p) r)) as [Hdue|Hdue].
  2: { apply (still_waiting _ _ _ _ _ _ r); [done..|]. intros q. rewrite last_snoc. intros [= <-]. unfold pw_is_due in Hdue.
       unfold deadline, MAX_WELCOME_AGE_MS. lia. }
  assert (tried_in batch d (passes ++ [p]) peer p) as Ht.
  { apply tried_last. rewrite <- Hp. apply due_tried; [done..|]. by rewrite Hp. }
  unfold next_row in Hpass. rewrite Hp in Hpass. destruct (ps_acked p peer) eqn:Ea; [by apply now_gone; [|exists p]|].
  pose proof (welcome_backoff_range (pw_attempts r)). case_decide as Hold.
  - eapply now_failed; [exact Hpass|done|]. exists p. unfold MAX_WELCOME_AGE_MS in *. split_and!; [done..|]. widths.
  - assert (ps_now_ms p < created + 86400000) by (unfold MAX_WELCOME_AGE_MS in *; widths).
    eapply still_waiting; [exact Hpass|done..| |].
    + cbn [pw_next_retry_at]. unfold deadline, MAX_WELCOME_AGE_MS. widths.
    + intros q. rewrite last_snoc. intros [= <-]. unfold deadline, MAX_WELCOME_AGE_MS. lia.
Qed.

(** A pass over a table without a waiting Welcome of [peer]. *)
Lemma pass_gone : welcome_of peer l = [] → welcome_of peer l' = [].
Proof using Type.
  rewrite !welcome_of_nil. intros Hout Hin. apply Hout. eapply sublist_elem_of; [apply settle_all_peers|exact Hin].
Qed.
Lemma pass_failed r : welcome_of peer l = [r] → pw_failed r = 1 → welcome_of peer l' = [r].
Proof using Hlen Hn Hb.
  intros Hr Hf. destruct (welcome_of_one _ _ _ Hr) as [Hin Hp].
  pose proof (pass_row (ps_acked p) (ps_now_ms p) batch l r Hn Hb Hin) as Hpass. rewrite Hp in Hpass. specialize (Hpass Hlen).
  rewrite decide_False in Hpass; [done|]. unfold pw_is_due. lia.
Qed.
End pass.

Lemma passes_progress batch d peer created r passes :
  NoDup (pw_peer <$> d_pending (dm_db d)) → len (d_pending (dm_db d)) ≤ batch → len peer = 32 → 0 ≤ created →
  welcome_of peer (d_pending (dm_db d)) = [r] → pw_created_at r = created → pw_failed r = 0 →
  pw_next_retry_at r ≤ deadline created → (∀ q, q ∈ passes → 0 ≤ ps_now_ms q ≤ i64_max) →
  let l := d_pending (dm_db (run_passes batch passes d)) in
  NoDup (pw_peer <$> l) ∧ len l ≤ batch ∧ progress batch d passes peer created l.
Proof.
  intros Hn Hb Hlen Hc0 Hr Hc Hf Hd. induction passes as [|p passes IH] using rev_ind; intros Hps l.
  { split_and!; [done..|]. by apply (still_waiting _ _ _ _ _ _ r). }
  destruct IH as (Hn' & Hb' & Hp); [intros q Hq; apply Hps; set_solver|].
  assert (0 ≤ ps_now_ms p ≤ i64_max) as Hnow by (apply Hps; set_solver).
  subst l. unfold run_passes. rewrite foldl_app. cbn [foldl]. fold (run_passes batch passes d). unfold run_pass. rewrite sweep_pending.
  split_and!; [eapply sublist_NoDup; [exact Hn'|apply settle_all_peers]|etrans; [apply settle_all_len|done]|].
  destruct Hp as [r1 H1 H2 H3 H4 _|H1 (q & Hq & Ha)|r1 H1 H2 (q & Hq & Ha)].
  - by apply (pass_waiting batch d passes p peer created Hlen Hnow Hc0 Hn' Hb' r1).
  - apply now_gone; [by apply pass_gone|]. exists q. split; [by apply tried_before|done].
  - apply (now_failed _ _ _ _ _ _ r1); [by apply pass_failed|done|]. exists q. split; [by apply tried_before|done].
Qed.

(** C23: first contact is settled.  Whatever the peer does and however often the
    sweep runs, a pending Welcome is not retried for ever. Once a pass runs a day
    and a minute (the longest backoff) after the Welcome was queued, either one of
    the passes sent it and the peer acknowledged, and it is not pending, so that the
    contact can be written to; or a pass that ran at least a day after it was queued
    sent it without an answer, and the first contact is marked as failed. The passes
    are those of the sweep with no other change to the table between them, all
    Welcomes that wait fit in one batch, and the writes of a pass succeed. *)
Theorem welcome_settles batch passes p peer d r :
  NoDup (pw_peer <$> d_pending (dm_db d)) → len (d_pending (dm_db d)) ≤ batch →
  r ∈ d_pending (dm_db d) → pw_peer r = peer → len peer = 32 → pw_failed r = 0 → 0 ≤ pw_created_at r →
  pw_next_retry_at r ≤ deadline (pw_created_at r) →
  (∀ q, q ∈ passes ++ [p] → 0 ≤ ps_now_ms q ≤ i64_max) → deadline (pw_created_at r) ≤ ps_now_ms p →
  let l := d_pending (dm_db (run_passes batch (passes ++ [p]) d)) in
  (pw_is_pending peer l = false ∧ acknowledged batch d (passes ++ [p]) peer) ∨
  (pw_is_failed peer l = true ∧ given_up batch d (passes ++ [p]) peer (pw_created_at r)).
Proof.
  intros Hn Hb Hr Hpeer Hlen Hf Hc Hretry Hps Hage l.
  assert (welcome_of peer (d_pending (dm_db d)) = [r]) as Hw by (rewrite <- Hpeer; by apply (filter_key pw_peer)).
  destruct (passes_progress batch d peer (pw_created_at r) r (passes ++ [p])) as (_ & _ & [r1 _ _ _ _ H|H1 H2|r1 H1 H2 H3]); try done.
  - specialize (H p (last_snoc _ _)). lia.
  - left. split; [by apply not_pending_welcome|done].
  - right. split; [|done]. apply failed_welcome. exists r1. subst l. rewrite H1. by split; [apply list_elem_of_singleton|].
Qed.
End welcome_facts.

(** ** Witness: Alice never answers Bob *)

Import SampleInstances.

(** The sweep runs every five seconds; these are some of its passes. *)
Definition unanswered (now : Z) : pass := mkPass (λ _, false) (λ _, fill 32 Byte.x05) (λ _, fill 16 Byte.x06) now (now * 1000).

Lemma welcome_settles_witness :
  let passes := [unanswered 1200; unanswered 1205; unanswered 1210; unanswered 90000] in
  pw_is_failed (public alice) (d_pending (dm_db (run_passes bob (Some "bob.onion") 32 passes bob_added))) = true ∧
  given_up bob (Some "bob.onion") 32 bob_added passes (public alice) 1100000.
Proof.
  assert (∃ r, d_pending (dm_db bob_added) = [r] ∧ pw_peer r = public alice ∧ pw_failed r = 0 ∧
    pw_created_at r = 1100000 ∧ pw_next_retry_at r = 1100000) as (r & Hl & Hp & Hf & Hc & Hn)
    by (eexists; vm_compute; repeat split).
  destruct (welcome_settles bob (Some "bob.onion") 32 [unanswered 1200; unanswered 1205; unanswered 1210] (unanswered 90000)
    (public alice) bob_added r) as [[H _]|H]; rewrite ?Hl, ?Hp, ?Hf, ?Hc, ?Hn.
  - apply NoDup_singleton.
  - vm_compute. discriminate.
  - by apply list_elem_of_singleton.
  - reflexivity.
  - vm_compute. reflexivity.
  - reflexivity.
  - lia.
  - vm_compute. discriminate.
  - apply Forall_forall. repeat constructor; discriminate.
  - vm_compute. discriminate.
  - vm_compute in H. discriminate.
  - rewrite Hc in H. exact H.
Defined.
