(* ===== verification/SendProps.v ===== *)
(** * SendProps: what sending a message does

    Theorems about [SendCommands]: a send is one atomic step, every error leaves
    the daemon as it was, and nothing is sent to a contact that has not joined. *)

From S2P Require Import Prelude Text Framing SimpleCodec CoreErrors Outbox Sql MailboxProtocol Identity Contacts Messages.
From S2P Require Import Receiver Attachments AttachmentRepo Mls Invites FirstContact Mailboxes Api Daemon ContactCommands.
From S2P Require Import SendCommands MailboxClient Poll MailboxCommands Samples Scenario.

Section send_facts.
Context {om : OpenMls} {scheme : SignatureScheme} {sha : Sha256}.
Context {ser_p : Serialize provider} {de_p : Deserialize provider}.
Context {ser_env : Serialize Envelope} {de_env : Deserialize Envelope}.
Context (me : IdentityKey).

(** The daemon after a message was stored, queued and handed over. *)
Definition sent_daemon (contact message_id ciphertext : bytes) (t : mls_groups) (m : messages_db) (d : daemon) : daemon :=
  mkDaemon
    (fset f_outbox (Outbox.insert_in_tx contact message_id ciphertext 0 (d_outbox (dm_db d))).1
      (fset f_messages m (fset f_groups t (dm_db d))))
    (dm_events d) (dm_begins d) (dm_store d) (dm_out d ++ [Job contact message_id ciphertext]).

Lemma persist_sent_cases contact gid g env ct recv db db' r :
  is_card_update (e_kind env) = false → persist_sent me contact gid g env ct recv db = (db', r) →
  (∃ e, r = Err (Error e) ∧ db' = db) ∨
  ∃ t m row_id, group_save_in_tx g (d_groups db) = Ok (t, tt) ∧
    Messages.insert_in_tx (mkInsertParams gid (public me) env (om_epoch (g_inner g)) recv) (rd_messages (d_recv db))
      = Ok (m, row_id) ∧ r = Ok row_id ∧
    db' = fset f_outbox (Outbox.insert_in_tx contact (e_id env) ct 0 (d_outbox db)).1
            (fset f_messages m (fset f_groups t db)).
Proof.
  intros Hk. unfold persist_sent, atomically. unfold bind_action at 1, map_error, on_tx at 1.
  change (fget f_groups db) with (d_groups db).
  destruct (group_save_in_tx g (d_groups db)) as [[t []]|e]; [|intros [= <- <-]; left; eauto]. cbn [map_err].
  unfold bind_action at 1, on_tx. change (fget f_messages (fset f_groups t db)) with (rd_messages (d_recv db)).
  destruct (Messages.insert_in_tx _ _) as [[m row_id]|e] eqn:Ei.
  - unfold bind_action at 1, modify_get. change (fget f_outbox (fset f_messages m (fset f_groups t db))) with (d_outbox db).
    destruct (Outbox.insert_in_tx _ _ _ _ _) as [o x]. intros [= <- <-]. right. by exists t, m, row_id.
  - intros [= <- <-]. left. destruct e as [e|]; [eauto|]. exfalso. revert Ei. unfold Messages.insert_in_tx.
    destruct (encode_envelope _); cbn; [|done]. destruct (e_kind env); cbn in *; try done;
      repeat (case_decide; cbn); done.
Qed.

(** The outcomes of a send. *)
Lemma send_cases rng mid acked now_ms contact kind d d' r :
  send_message me rng mid acked now_ms contact kind d = (d', r) →
  (∃ e, r = Err (Reply e) ∧ d' = d) ∨
  (r = Ok (Res_MessageSent mid Delivered None) ∧ d' = d) ∨
  ∃ gid g g' ct t m row_id, let env := mkEnvelope 1 mid now_ms None kind in let recv := Z.quot now_ms 1000 in
    linked_group contact (d_contacts (dm_db d)) = Some gid ∧ len gid = 32 ∧
    group_load gid (d_groups (dm_db d)) = Ok (Some g) ∧ pw_is_pending contact (d_pending (dm_db d)) = false ∧
    is_card_update kind = false ∧ group_encrypt rng env g = (g', Ok ct) ∧
    group_save_in_tx g' (d_groups (dm_db d)) = Ok (t, tt) ∧
    Messages.insert_in_tx (mkInsertParams gid (public me) env (om_epoch (g_inner g')) recv)
      (rd_messages (d_recv (dm_db d))) = Ok (m, row_id) ∧
    d' = sent_daemon contact mid ct t m d ∧
    r = Ok (Res_MessageSent mid (if acked then Delivered else Queued)
              (Some (project row_id env contact (om_epoch (g_inner g')) recv Outgoing None))).
Proof.
  assert (∀ e, (d, Err (Reply e)) = (d', r) → (∃ e, r = Err (Reply e) ∧ d' = d)) as Hfail by (intros e [= <- <-]; eauto).
  unfold send_message. unfold bind_action at 1, ensure at 1.
  destruct (is_card_update kind) eqn:Hk; [intros ?%Hfail; by left|]. cbn [negb].
  unfold bind_action at 1, read at 1. change (fget (of_db f_contacts) d) with (d_contacts (dm_db d)).
  unfold bind_action at 1, lift at 1. destruct (linked_group _ _) as [gid|] eqn:El; [|intros ?%Hfail; by left]. cbn [ok_or].
  unfold bind_action at 1, ensure at 1. case_bool_decide as Hlen; [|intros ?%Hfail; by left].
  unfold bind_action at 1, try_read, read_try. change (fget (of_db f_groups) d) with (d_groups (dm_db d)).
  destruct (group_load gid _) as [o|e] eqn:Eg; [|intros ?%Hfail; by left]. cbn [map_err].
  unfold bind_action at 1, lift at 1. destruct o as [g|]; [|intros ?%Hfail; by left]. cbn [ok_or].
  unfold bind_action at 1, read at 1. change (fget (of_db f_pending) d) with (d_pending (dm_db d)).
  unfold bind_action at 1, ensure at 1. destruct (pw_is_pending _ _) eqn:Hp; [intros ?%Hfail; by left|]. cbn [negb].
  set (env := mkEnvelope 1 mid now_ms None kind). destruct (group_encrypt rng env g) as [g' re] eqn:Ee.
  cbn [fst snd]. unfold bind_action at 1, try_lift, lift at 1. destruct re as [ct|e]; [|intros ?%Hfail; by left]. cbn [map_err].
  unfold on at 1. change (fget f_db d) with (dm_db d).
  destruct (persist_sent _ _ _ _ _ _ _ _) as [db' rp] eqn:Epp.
  apply persist_sent_cases in Epp as [(e & -> & ->)|(t & m & row_id & Hs & Hi & -> & ->)]; [| |done].
  - replace (fset f_db (dm_db d) d) with d by (by destruct d).
    intros H. destruct e; try (left; by apply (Hfail _ H)).
    destruct k; try (left; by apply (Hfail _ H)). right. left. by injection H as <- <-.
  - intros [= <- <-]. right. right. exists gid, g, g', ct, t, m, row_id. cbv zeta. split_and!; done.
Qed.

Lemma insert_queued contact mid ct t :
  (contact, mid, "direct", 0) ∉ ob_key <$> t_rows t →
  t_rows (Outbox.insert_in_tx contact mid ct 0 t).1 =
    t_rows t ++ [mkOutboxRow (t_seq t + 1) contact ct mid 0 0 "direct" 0].
Proof. intros Hn. unfold Outbox.insert_in_tx, insert_ignore. by rewrite decide_False. Qed.

(** C26: a send is exact.  A message is accepted only for a contact that has joined
    its group; then one row is added to our history, from which the very envelope
    decodes, and the ciphertext handed to the peer's actor is the one queued in the
    outbox, due at once.  A repeated id is answered without any effect, and so is
    every error: no partial send remains, and no input makes the handler panic. *)
Theorem send_exact {law : CborRoundtrip Envelope} rng mid acked now_ms contact kind d d' r :
  send_message me rng mid acked now_ms contact kind d = (d', r) →
  match r with
  | Err e => d' = d ∧ e ≠ Abort
  | Ok (Res_MessageSent id _ None) => id = mid ∧ d' = d
  | Ok (Res_MessageSent id status (Some record)) =>
      id = mid ∧ status = (if acked then Delivered else Queued) ∧ dm_events d' = dm_events d ∧
      is_some (linked_group contact (d_contacts (dm_db d))) = true ∧ pw_is_pending contact (d_pending (dm_db d)) = false ∧
      (∃ row body, t_rows (messages (rd_messages (d_recv (dm_db d')))) = t_rows (messages (rd_messages (d_recv (dm_db d)))) ++ [row] ∧
        m_id row = rec_row_id record ∧ m_sender row = public me ∧ m_envelope_id row = Some mid ∧
        m_body_blob row = Some body ∧ decode_envelope body = Ok (mkEnvelope 1 mid now_ms None kind)) ∧
      (∃ ct, dm_out d' = dm_out d ++ [Job contact mid ct] ∧
        ((contact, mid, "direct", 0) ∉ ob_key <$> t_rows (d_outbox (dm_db d)) →
         ∃ row, t_rows (d_outbox (dm_db d')) = t_rows (d_outbox (dm_db d)) ++ [row] ∧ ob_target row = contact ∧
           ob_message_id row = mid ∧ ob_payload row = ct ∧ ob_next_retry_at row = 0))
  | Ok _ => False
  end.
Proof.
  intros [(e & -> & ->)|[(-> & ->)|H]]%send_cases; [done..|].
  destruct H as (gid & g & g' & ct & t & m & row_id & Hl & _ & _ & Hp & _ & _ & _ & Hi & -> & ->).
  apply insert_in_tx_Ok in Hi as (kname & body & Hb & _ & _ & _ & -> & ->).
  split_and!; try done.
  - by rewrite Hl.
  - exists (inserted_row (mkInsertParams gid (public me) (mkEnvelope 1 mid now_ms None kind) (om_epoch (g_inner g'))
      (Z.quot now_ms 1000)) kname body (t_seq (messages (rd_messages (d_recv (dm_db d)))) + 1)), body.
    split_and!; try done. unfold encode_envelope in Hb. destruct (into_writer _) as [b|] eqn:Eb; [|done].
    injection Hb as <-. unfold decode_envelope. by rewrite (from_into _ _ Eb).
  - exists ct. split; [done|]. intros Hn. eexists. split; [exact (insert_queued contact mid ct _ Hn)|done].
Qed.

(** Nothing is written to a contact that has not joined.  While its Welcome is
    pending, neither a message nor a self-card is encrypted for a contact: the
    group, the history, the outbox and the jobs stay as they are, and a message is
    refused. *)
Theorem pending_gate rng mid acked now_ms contact kind card d :
  pw_is_pending contact (d_pending (dm_db d)) = true →
  (∃ e, send_message me rng mid acked now_ms contact kind d = (d, Err (Reply e))) ∧
  send_card_to_contact rng mid now_ms card contact d = d.
Proof.
  intros Hp. split; [|unfold send_card_to_contact; by rewrite Hp].
  unfold send_message. unfold bind_action at 1, ensure at 1. destruct (negb _); [|by eexists].
  unfold bind_action at 1, read at 1. unfold bind_action at 1, lift at 1.
  destruct (ok_or _ _) as [gid|e] eqn:E1; [|destruct (linked_group _ _); [done|]; injection E1 as <-; by eexists].
  unfold bind_action at 1, ensure at 1. case_bool_decide; [|by eexists].
  unfold bind_action at 1, try_read, read_try. destruct (group_load gid _) as [o|e]; [|by eexists]. cbn [map_err].
  unfold bind_action at 1, lift at 1. destruct o as [g|]; [|by eexists]. cbn [ok_or].
  unfold bind_action at 1, read at 1. change (fget (of_db f_pending) d) with (d_pending (dm_db d)). rewrite Hp. by eexists.
Qed.
End send_facts.

(** ** Witnesses: Bob before and after Alice joins *)

Import SampleInstances.

Lemma send_exact_witness :
  ∃ ct, dm_out bob_sent = dm_out bob_settled ++ [Job (public alice) (fill 16 Byte.x08) ct] ∧
    ∃ row, t_rows (d_outbox (dm_db bob_sent)) = t_rows (d_outbox (dm_db bob_settled)) ++ [row] ∧ ob_payload row = ct.
Proof.
  destruct (send_message bob (fill 32 Byte.x07) (fill 16 Byte.x08) false 1400000 (public alice) (Text "hello") bob_settled)
    as [d' r] eqn:E.
  pose proof (send_exact (law := roundtrip_of) bob _ _ _ _ _ _ _ _ _ E) as H.
  assert (∃ status record, r = Ok (Res_MessageSent (fill 16 Byte.x08) status (Some record))) as (status & record & ->).
  { change r with (d', r).2. rewrite <- E. vm_compute. eauto. }
  destruct H as (_ & _ & _ & _ & _ & _ & ct & Hout & Hq).
  unfold bob_sent. rewrite E. cbn [fst]. exists ct. split; [exact Hout|].
  destruct Hq as (row & Hrow & _ & _ & Hct & _).
  { replace (t_rows (d_outbox (dm_db bob_settled))) with (@nil outbox_row) by (vm_compute; reflexivity). by intros ?%elem_of_nil. }
  exists row. split; [exact Hrow|exact Hct].
Defined.

Lemma pending_gate_witness :
  ∃ e, send_message bob (fill 32 Byte.x07) (fill 16 Byte.x08) false 1400000 (public alice) (Text "hello") bob_added
         = (bob_added, Err (Reply e)).
Proof.
  refine (proj1 (pending_gate bob (fill 32 Byte.x07) (fill 16 Byte.x08) false 1400000 (public alice) (Text "hello")
    (il_card (link_body sample_link)) bob_added _)).
  vm_compute. reflexivity.
Defined.
