(* ===== verification/PeerActor.v ===== *)
(** * PeerActor: the connection actor of a peer

    [crates/core/src/delivery/peer.rs]: one actor per peer owns the connection,
    the messages in flight and the attachment it is fetching, and reacts to jobs,
    timers, control messages and frames.  One iteration of its [select!] loop is
    [iteration]; which branch is ready is the event it is given.  A branch is an
    [action] on the actor's state whose errors are [continue] and [break].

    Sockets, clocks, random numbers and the disk are the class [PeerIo]: what they
    answer is arbitrary and may depend on everything asked before. *)

From S2P Require Import Prelude Text CoreErrors Framing Float64 Backoff Outbox MailboxProtocol PeerFrame Attachments.
From S2P Require Import ChunkTransfer AttachmentRepo Identity Messages Mls Daemon Inbound Delivery.

(** ** The environment *)

Class PeerIo (W C : Type) : Type := {
  io_send : C → Frame → W → W * bool;          (** [conn.send(frame).await.is_ok()] *)
  io_close : C → W → W;                        (** [conn.close().await] *)
  io_dial : bytes → W → W * option C;          (** [dialer.dial(peer).await] *)
  io_instant : W → W * Z;                      (** [Instant::now()], in milliseconds *)
  io_now_ms : W → W * Z;                       (** the wall clock *)
  io_now_s : W → W * Z;
  io_factor : W → W * f64;                     (** the jitter of a backoff *)
  io_accepts : bytes → W → W * (Z → bool);     (** the mailboxes that take a deposit *)
  io_random : W → W * bytes;                   (** a fresh id *)
  io_stored : bytes → Z → W → W * bool;        (** [ChunkStore::put] succeeded *)
  io_order : list Z → W → W * list Z           (** the iteration order of a [HashMap] *)
}.

(** ** The trait [InboundDispatch] *)

Record InboundDispatch : Type := mkInbound {
  in_dispatch : bytes → bytes → bytes → Z → daemon → daemon * option bytes;
  in_dispatch_welcome : bytes → bytes → Z → daemon → daemon * option bytes;
  in_dispatch_mailbox : bytes → bytes → Z → daemon → daemon * option bytes;
  in_dispatch_attachment_chunk : bytes → daemon → daemon * bool;
  in_dispatch_welcome_bootstrap : bytes → bytes → option bytes → Z → daemon → daemon * option bytes;
  in_take_begin_attachment : bytes → daemon → daemon * option AttachmentBegin;
  in_has_pending_begin : bytes → daemon → bool;
  in_requeue_attachment : bytes → AttachmentBegin → daemon → daemon;
  in_attachment_received : bytes → bytes → list Z → list Z → Z → daemon → daemon;
  in_attachment_progress : bytes → Z → Z → daemon → daemon;
  in_attachment_failed : bytes → string → daemon → daemon;
  in_message_delivered : bytes → Z → daemon → daemon
}.

(** ** State *)

(** What a job's oneshot yields: [Ok(())], [Err(())], or a closed channel. *)
Inductive ack_result : Type := Acked | TornDown | Dropped.

Inductive PendingOrigin : Type := From_Outbox | From_Welcome.
#[global] Instance origin_eq_dec : EqDecision PendingOrigin.
Proof. solve_decision. Defined.

(** [ps_ack]: the oneshot, by a number; the sends of the retry tick have none. *)
Record PendingSend : Type := mkPendingSend { ps_ack : option nat; ps_sent_at : Z; ps_origin : PendingOrigin }.

Record DeliveryJob : Type := mkJob { job_message_id : bytes; job_ciphertext : bytes; job_ack : option nat }.
Record WelcomeJob : Type := mkWelcomeJob { wj_welcome : bytes; wj_ack : option nat }.

Inductive PeerCtrl (C : Type) : Type := ReplaceConn (c : C) | Shutdown.
Arguments ReplaceConn {C} c.
Arguments Shutdown {C}.

Definition RETRY_TICK : Z := 1000.
Definition KEEPALIVE_PERIOD : Z := 60 * 1000.
Definition PONG_DEADLINE : Z := 30 * 1000.
Definition IDLE_CLOSE : Z := 180 * 1000.
Definition PENDING_INFLIGHT_DEADLINE : Z := 30 * 1000.
Definition CHUNK_DIAL_BACKOFF_MS : list Z := [15000; 60000; 300000; 900000].

(** [t.elapsed()] and [a.duration_since(t)] saturate. *)
Definition elapsed (now t : Z) : Z := Z.max 0 (now - t).

(** The entries past their deadline; a Welcome's never is. *)
Definition overdue (now : Z) (kv : bytes * PendingSend) : Prop :=
  ps_origin kv.2 = From_Outbox ∧ PENDING_INFLIGHT_DEADLINE ≤ elapsed now (ps_sent_at kv.2).
#[global] Instance overdue_dec now kv : Decision (overdue now kv).
Proof. unfold overdue. apply _. Defined.

(** A dial ladder: when the next dial may start, and the step reached. *)
Record ladder : Type := mkLadder { next_dial_at : option Z; dial_step : Z }.
Definition ladder_reset : ladder := mkLadder None 0.

Record actor (C : Type) : Type := mkActor {
  ac_conn : option C;
  ac_pending : gmap bytes PendingSend;
  ac_last_traffic : Z;
  ac_awaiting_pong : option Z;
  ac_first_failure : option Z;
  ac_active_rx : option ChunkRx;
  ac_served : ServedTracker;
  ac_rx_queue : list AttachmentBegin;
  ac_chunk_dial : ladder;
  ac_outbox_dial : ladder;
  ac_answers : list (nat * ack_result)
}.
Arguments mkActor {C}.
Arguments ac_conn {C} a.
Arguments ac_pending {C} a.
Arguments ac_last_traffic {C} a.
Arguments ac_awaiting_pong {C} a.
Arguments ac_first_failure {C} a.
Arguments ac_active_rx {C} a.
Arguments ac_served {C} a.
Arguments ac_rx_queue {C} a.
Arguments ac_chunk_dial {C} a.
Arguments ac_outbox_dial {C} a.
Arguments ac_answers {C} a.

(** The actor's state at the start of [full_run]. *)
Definition actor_new {C} (conn : option C) (now : Z) : actor C :=
  mkActor conn ∅ now None None None ∅ [] ladder_reset ladder_reset [].

Record peer (W C : Type) : Type := mkPeer { p_world : W; p_daemon : daemon; p_actor : actor C }.
Arguments mkPeer {W C}.
Arguments p_world {W C} p.
Arguments p_daemon {W C} p.
Arguments p_actor {W C} p.

Section fields.
Context {W C : Type}.

Definition f_world : field (peer W C) W := mkField p_world (λ w p, mkPeer w (p_daemon p) (p_actor p)).
Definition f_daemon : field (peer W C) daemon := mkField p_daemon (λ d p, mkPeer (p_world p) d (p_actor p)).
Definition of_actor {A} (get : actor C → A) (set : A → actor C → actor C) : field (peer W C) A :=
  mkField (λ p, get (p_actor p)) (λ x p, mkPeer (p_world p) (p_daemon p) (set x (p_actor p))).

Definition f_conn : field (peer W C) (option C) := of_actor ac_conn (λ x a,
  mkActor x (ac_pending a) (ac_last_traffic a) (ac_awaiting_pong a) (ac_first_failure a) (ac_active_rx a)
    (ac_served a) (ac_rx_queue a) (ac_chunk_dial a) (ac_outbox_dial a) (ac_answers a)).
Definition f_inflight : field (peer W C) (gmap bytes PendingSend) := of_actor ac_pending (λ x a,
  mkActor (ac_conn a) x (ac_last_traffic a) (ac_awaiting_pong a) (ac_first_failure a) (ac_active_rx a)
    (ac_served a) (ac_rx_queue a) (ac_chunk_dial a) (ac_outbox_dial a) (ac_answers a)).
Definition f_last_traffic : field (peer W C) Z := of_actor ac_last_traffic (λ x a,
  mkActor (ac_conn a) (ac_pending a) x (ac_awaiting_pong a) (ac_first_failure a) (ac_active_rx a)
    (ac_served a) (ac_rx_queue a) (ac_chunk_dial a) (ac_outbox_dial a) (ac_answers a)).
Definition f_awaiting_pong : field (peer W C) (option Z) := of_actor ac_awaiting_pong (λ x a,
  mkActor (ac_conn a) (ac_pending a) (ac_last_traffic a) x (ac_first_failure a) (ac_active_rx a)
    (ac_served a) (ac_rx_queue a) (ac_chunk_dial a) (ac_outbox_dial a) (ac_answers a)).
Definition f_first_failure : field (peer W C) (option Z) := of_actor ac_first_failure (λ x a,
  mkActor (ac_conn a) (ac_pending a) (ac_last_traffic a) (ac_awaiting_pong a) x (ac_active_rx a)
    (ac_served a) (ac_rx_queue a) (ac_chunk_dial a) (ac_outbox_dial a) (ac_answers a)).
Definition f_active_rx : field (peer W C) (option ChunkRx) := of_actor ac_active_rx (λ x a,
  mkActor (ac_conn a) (ac_pending a) (ac_last_traffic a) (ac_awaiting_pong a) (ac_first_failure a) x
    (ac_served a) (ac_rx_queue a) (ac_chunk_dial a) (ac_outbox_dial a) (ac_answers a)).
Definition f_served : field (peer W C) ServedTracker := of_actor ac_served (λ x a,
  mkActor (ac_conn a) (ac_pending a) (ac_last_traffic a) (ac_awaiting_pong a) (ac_first_failure a) (ac_active_rx a)
    x (ac_rx_queue a) (ac_chunk_dial a) (ac_outbox_dial a) (ac_answers a)).
Definition f_rx_queue : field (peer W C) (list AttachmentBegin) := of_actor ac_rx_queue (λ x a,
  mkActor (ac_conn a) (ac_pending a) (ac_last_traffic a) (ac_awaiting_pong a) (ac_first_failure a) (ac_active_rx a)
    (ac_served a) x (ac_chunk_dial a) (ac_outbox_dial a) (ac_answers a)).
Definition f_chunk_dial : field (peer W C) ladder := of_actor ac_chunk_dial (λ x a,
  mkActor (ac_conn a) (ac_pending a) (ac_last_traffic a) (ac_awaiting_pong a) (ac_first_failure a) (ac_active_rx a)
    (ac_served a) (ac_rx_queue a) x (ac_outbox_dial a) (ac_answers a)).
Definition f_outbox_dial : field (peer W C) ladder := of_actor ac_outbox_dial (λ x a,
  mkActor (ac_conn a) (ac_pending a) (ac_last_traffic a) (ac_awaiting_pong a) (ac_first_failure a) (ac_active_rx a)
    (ac_served a) (ac_rx_queue a) (ac_chunk_dial a) x (ac_answers a)).
Definition f_answers : field (peer W C) (list (nat * ack_result)) := of_actor ac_answers (λ x a,
  mkActor (ac_conn a) (ac_pending a) (ac_last_traffic a) (ac_awaiting_pong a) (ac_first_failure a) (ac_active_rx a)
    (ac_served a) (ac_rx_queue a) (ac_chunk_dial a) (ac_outbox_dial a) x).
End fields.

(** ** Operations *)

Inductive flow : Type := Continue | Break.

Section actor.
Context {W C : Type} {io : PeerIo W C} {sha : Sha256} {b2 : Blake2s} {de_card : Deserialize ContactCard}.

(** The arguments of [full_run]: the peer, the dispatcher, and whether a dialer,
    a mailbox fallback, a chunk store and a download directory are configured. *)
Context (self : bytes) (inbound : option InboundDispatch).
Context (dialer : bool) (direct_timeout : Z) (fallback has_store download_dir : bool).

Abbreviation prog T := (action (peer W C) T flow).

Definition ret {T} (t : T) : prog T := lift (Ok t).
Definition look {A} (f : field (peer W C) A) : prog A := read f id.
Definition assign {A} (f : field (peer W C) A) (x : A) : prog unit := modify f (λ _, x).
Definition ask {T} (g : W → W * T) : prog T := modify_get f_world g.
Definition daemon_do (g : daemon → daemon) : prog unit := modify f_daemon g.
Definition daemon_ask {T} (g : daemon → daemon * T) : prog T := modify_get f_daemon g.
(** [if let Some(d) = inbound.as_ref()]. *)
Definition tell (g : InboundDispatch → daemon → daemon) : prog unit :=
  match inbound with Some d => daemon_do (g d) | None => ret tt end.

Definition touch : prog unit :=
  let! now := ask io_instant in assign f_last_traffic now.

(** ** Oneshots *)

Definition resolve (ack : option nat) (r : ack_result) : prog unit :=
  match ack with
  | Some n => modify f_answers (λ l, l ++ [(n, r)])
  | None => ret tt
  end.

Definition tickets (m : gmap bytes PendingSend) : list nat := omap (λ kv, ps_ack kv.2) (map_to_list m).

(** The entries whose senders are dropped or answered together. *)
Definition resolve_all (m : gmap bytes PendingSend) (r : ack_result) : prog unit :=
  modify f_answers (λ l, l ++ ((λ n, (n, r)) <$> tickets m)).

Definition drain_pending : prog unit :=
  let! m := look f_inflight in
  let! _ := resolve_all m TornDown in
  assign f_inflight ∅.

(** [pending.insert]: an entry under the same id is dropped. *)
Definition pending_insert (mid : bytes) (p : PendingSend) : prog unit :=
  let! m := look f_inflight in
  let! _ := match m !! mid with Some old => resolve (ps_ack old) Dropped | None => ret tt end in
  assign f_inflight (<[mid := p]> m).

Definition arm_failure : prog unit :=
  let! o := look f_first_failure in
  match o with
  | Some _ => ret tt
  | None => let! now := ask io_instant in assign f_first_failure (Some now)
  end.

(** [conn = None; drain_pending(&mut pending)]. *)
Definition drop_conn : prog unit :=
  let! _ := assign f_conn None in drain_pending.

Definition ensure_conn : prog bool :=
  let! c := look f_conn in
  match c with
  | Some _ => ret true
  | None =>
      if negb dialer then ret false
      else
        let! r := ask (io_dial self) in
        match r with
        | Some c => let! _ := assign f_conn (Some c) in ret true
        | None => ret false
        end
  end.

(** [if let Some(c) = conn.as_mut() { let _ = c.send(f).await; }]. *)
Definition send_ignored (f : Frame) : prog unit :=
  let! c := look f_conn in
  match c with
  | Some c => let! _ := ask (io_send c f) in ret tt
  | None => ret tt
  end.

(** ** Jobs *)

Definition refuse (ack : option nat) : prog unit :=
  let! _ := resolve ack TornDown in
  let! _ := arm_failure in
  lift (Err Continue).

(** The body the two job branches share: [f] is the frame, [mid] its id. *)
Definition submit (f : Frame) (mid : bytes) (ack : option nat) (origin : PendingOrigin) : prog unit :=
  let! up := ensure_conn in
  if negb up then refuse ack
  else
    let! c := look f_conn in
    match c with
    | None => refuse ack
    | Some c =>
        let! sent := ask (io_send c f) in
        if negb sent then
          let! _ := resolve ack TornDown in
          let! _ := drop_conn in
          let! _ := arm_failure in
          lift (Err Continue)
        else
          let! now := ask io_instant in
          let! _ := pending_insert mid (mkPendingSend ack now origin) in
          let! _ := touch in
          assign f_first_failure None
    end.

Definition on_job (o : option DeliveryJob) : prog unit :=
  match o with
  | None => lift (Err Break)
  | Some job => submit (MlsApp (job_ciphertext job)) (job_message_id job) (job_ack job) From_Outbox
  end.

Definition on_welcome_job (o : option WelcomeJob) : prog unit :=
  match o with
  | None => lift (Err Break)
  | Some wj => submit (MlsWelcome (wj_welcome wj)) (welcome_msg_id (wj_welcome wj)) (wj_ack wj) From_Welcome
  end.

(** ** Attachments being fetched *)

Definition attachment_id_of (rx : ChunkRx) : bytes := attachment_id (rx_manifest rx).

Fixpoint send_each (c : C) (aid : bytes) (indices : list Z) : prog bool :=
  match indices with
  | [] => ret true
  | i :: rest =>
      let! sent := ask (io_send c (ChunkRequest aid i)) in
      if sent then send_each c aid rest else ret false
  end.

Definition send_chunk_requests (aid : bytes) (indices : list Z) : prog bool :=
  let! c := look f_conn in
  match c with
  | None => ret false
  | Some c => send_each c aid indices
  end.

(** Request [indices] for [rx]; what could not be sent is put back. *)
Definition request (rx : ChunkRx) (indices : list Z) : prog ChunkRx :=
  let! sent := send_chunk_requests (attachment_id_of rx) indices in
  ret (if sent then rx else unsent indices rx).

Definition finalize_rx (rx : ChunkRx) : prog unit :=
  let m := rx_manifest rx in
  let aid := attachment_id m in
  let! won := daemon_ask (λ d, let '(t, won) := claim_terminal aid Complete (d_atts (dm_db d)) in
                               (fset (of_db f_atts) t d, won)) in
  let! _ := (if won : bool
             then tell (λ i, in_attachment_received i self aid (sanitize_received (filename m)) (mime m) (total_size m))
             else ret tt) in
  send_ignored (AttachmentComplete aid).

Definition fail_rx (rx : ChunkRx) (reason : string) : prog unit :=
  let aid := attachment_id_of rx in
  let! won := daemon_ask (λ d, let '(t, won) := claim_terminal aid Failed (d_atts (dm_db d)) in
                               (fset (of_db f_atts) t d, won)) in
  if won : bool then tell (λ i, in_attachment_failed i aid reason) else ret tt.

Fixpoint start_next (queue : list AttachmentBegin) : prog (option ChunkRx) :=
  match queue with
  | [] => ret None
  | b :: rest =>
      let! _ := assign f_rx_queue rest in
      let! already := read f_daemon (λ d, received_or_none (begin_id b) (d_atts (dm_db d))) in
      let rx := rx_new (begin_manifest b) already in
      if is_complete rx then let! _ := finalize_rx rx in start_next rest
      else
        let! now := ask io_instant in
        let '(rx1, reqs) := next_requests now rx in
        let! rx2 := request rx1 reqs in
        ret (Some rx2)
  end.

Definition maybe_start_next_rx : prog (option ChunkRx) :=
  let! q := look f_rx_queue in start_next q.

(** [active_rx = maybe_start_next_rx(..).await]. *)
Definition advance : prog unit :=
  let! rx := maybe_start_next_rx in assign f_active_rx rx.

(** [while let Some(begin) = d.take_begin_attachment(peer)]: at most as many
    begins as the dispatcher holds for the peer. *)
Fixpoint take_begins (fuel : nat) (i : InboundDispatch) : prog unit :=
  match fuel with
  | O => ret tt
  | S fuel' =>
      let! o := daemon_ask (in_take_begin_attachment i self) in
      match o with
      | None => ret tt
      | Some b => let! _ := modify f_rx_queue (λ q, q ++ [b]) in take_begins fuel' i
      end
  end.

Definition drain_begins (i : InboundDispatch) : prog unit :=
  let! n := read f_daemon (λ d, length (default [] (dm_begins d !! self))) in
  let! _ := take_begins (S n) i in
  let! rx := look f_active_rx in
  match rx with None => advance | Some _ => ret tt end.

Definition chunk_enabled : bool := has_store && download_dir.

(** ** The retry tick *)

(** [pending.retain(..)]. *)
Definition evict_overdue : prog unit :=
  let! now := ask io_instant in
  let! m := look f_inflight in
  let! _ := resolve_all (filter (overdue now) m) Dropped in
  assign f_inflight (filter (λ kv, ¬ overdue now kv) m).

(** A fresh connection: nothing of the old one's timers survives. *)
Definition fresh_conn : prog unit :=
  let! _ := touch in assign f_awaiting_pong None.

Definition ladder_ready (l : ladder) : prog bool :=
  match next_dial_at l with
  | None => ret true
  | Some t => let! now := ask io_instant in ret (bool_decide (t ≤ now))
  end.

Definition backoff_at (step : Z) : Z :=
  default 900000 (CHUNK_DIAL_BACKOFF_MS !! Z.to_nat (Z.min step (len CHUNK_DIAL_BACKOFF_MS - 1))).

Definition climb (f : field (peer W C) ladder) : prog unit :=
  let! l := look f in
  let! now := ask io_instant in
  assign f (mkLadder (Some (now + backoff_at (dial_step l))) (Z.min (dial_step l + 1) (len CHUNK_DIAL_BACKOFF_MS - 1))).

(** Dial for background work, paced by a ladder. *)
Definition paced_dial (f : field (peer W C) ladder) (on_failure : prog unit) : prog unit :=
  let! c := look f_conn in
  match c with
  | Some _ => ret tt
  | None =>
      let! l := look f in
      let! ready := ladder_ready l in
      if negb ready then ret tt
      else
        let! up := ensure_conn in
        if up : bool then let! _ := assign f ladder_reset in fresh_conn
        else let! _ := on_failure in climb f
  end.

(** The loop over the due rows. *)
Fixpoint resend (now : Z) (due : list OutboxEntry) : prog unit :=
  match due with
  | [] => ret tt
  | e :: rest =>
      let! m := look f_inflight in
      if decide (is_Some (m !! oe_message_id e)) then resend now rest
      else
        let! c := look f_conn in
        match c with
        | None => ret tt
        | Some c =>
            let! sent := ask (io_send c (MlsApp (oe_payload e))) in
            if negb sent then let! _ := drop_conn in arm_failure
            else
              let! at_ := ask io_instant in
              let! _ := pending_insert (oe_message_id e) (mkPendingSend None at_ From_Outbox) in
              let! factor := ask io_factor in
              let! _ := daemon_do (update f_outbox (reschedule (oe_id e) (oe_attempts e) now factor)) in
              let! _ := touch in
              let! _ := assign f_first_failure None in
              resend now rest
        end
  end.

Definition due_rows (now : Z) : prog (list OutboxEntry) :=
  read f_daemon (λ d, entries_due_direct_for self now 32 (d_outbox (dm_db d))).

Fixpoint fall_back (due : list OutboxEntry) : prog unit :=
  match due with
  | [] => ret tt
  | e :: rest =>
      let! accepts := ask (io_accepts (oe_message_id e)) in
      let! now := ask io_now_s in
      let! _ := daemon_do (run_mailbox_fallback accepts now self (oe_message_id e) (oe_payload e)) in
      fall_back rest
  end.

Definition maybe_fall_back : prog unit :=
  if negb (fallback && bool_decide (0 < direct_timeout)) then ret tt
  else
    let! o := look f_first_failure in
    match o with
    | None => ret tt
    | Some t =>
        let! now := ask io_instant in
        if decide (direct_timeout ≤ elapsed now t) then
          let! now := ask io_now_ms in
          let! due := due_rows now in
          let! _ := fall_back due in
          assign f_first_failure None
        else ret tt
    end.

Definition work_pending : prog bool :=
  let! rx := look f_active_rx in
  match rx with
  | Some _ => ret true
  | None =>
      match inbound with
      | Some i => read f_daemon (in_has_pending_begin i self)
      | None => ret false
      end
  end.

(** Requests rolled back earlier are issued again. *)
Definition refill : prog unit :=
  let! c := look f_conn in
  let! o := look f_active_rx in
  match c, o with
  | Some _, Some rx =>
      let! now := ask io_instant in
      let '(rx1, reqs) := next_requests now rx in
      if decide (reqs = []) then assign f_active_rx (Some rx1)
      else let! rx2 := request rx1 reqs in assign f_active_rx (Some rx2)
  | _, _ => ret tt
  end.

Definition check_timeouts : prog unit :=
  let! o := look f_active_rx in
  match o with
  | None => ret tt
  | Some rx =>
      let! now := ask io_instant in
      let! order := ask (io_order (reissue rx)) in
      let '(rx1, act) := timed_out now order rx in
      match act with
      | Request [] => assign f_active_rx (Some rx1)
      | Request indices => let! rx2 := request rx1 indices in assign f_active_rx (Some rx2)
      | Fail =>
          let! _ := assign f_active_rx None in
          let! _ := fail_rx rx1 "request timeout" in
          advance
      end
  end.

Definition chunk_tick : prog unit :=
  if negb chunk_enabled then ret tt
  else
    let! pending := work_pending in
    let! _ := (if pending : bool then paced_dial f_chunk_dial (ret tt) else ret tt) in
    let! _ := refill in
    let! _ := check_timeouts in
    let! c := look f_conn in
    match c, inbound with
    | Some _, Some i => drain_begins i
    | _, _ => ret tt
    end.

Definition on_retry_tick : prog unit :=
  let! _ := evict_overdue in
  let! now := ask io_now_ms in
  let! due := due_rows now in
  let! m := look f_inflight in
  let! _ := (if decide (Exists (λ e, m !! oe_message_id e = None) due)
             then paced_dial f_outbox_dial arm_failure else ret tt) in
  let! _ := resend now due in
  let! _ := maybe_fall_back in
  chunk_tick.

(** ** The keepalive tick and control messages *)

Definition on_keepalive_tick : prog unit :=
  let! c := look f_conn in
  match c with
  | None => ret tt
  | Some c =>
      let! last := look f_last_traffic in
      let! now := ask io_instant in
      if decide (IDLE_CLOSE ≤ elapsed now last) then
        let! _ := assign f_conn None in
        let! _ := modify f_world (io_close c) in
        let! _ := drain_pending in
        lift (Err Continue)
      else
        let! o := look f_awaiting_pong in
        let! late := match o with
                     | Some t => let! now := ask io_instant in ret (bool_decide (PONG_DEADLINE ≤ elapsed now t))
                     | None => ret false
                     end in
        if late : bool then
          let! _ := drop_conn in
          let! _ := assign f_awaiting_pong None in
          lift (Err Continue)
        else
          let! _ := ask (io_send c Ping) in
          match o with
          | Some _ => ret tt
          | None => let! now := ask io_instant in assign f_awaiting_pong (Some now)
          end
  end.

Definition on_ctrl (o : option (PeerCtrl C)) : prog unit :=
  match o with
  | None | Some Shutdown => lift (Err Break)
  | Some (ReplaceConn new) =>
      let! old := look f_conn in
      let! _ := match old with
                | Some c => let! _ := assign f_conn None in modify f_world (io_close c)
                | None => ret tt
                end in
      let! _ := drain_pending in
      let! _ := assign f_conn (Some new) in
      let! _ := fresh_conn in
      let! _ := assign f_first_failure None in
      let! _ := assign f_chunk_dial ladder_reset in
      let! _ := assign f_outbox_dial ladder_reset in
      let! o := look f_active_rx in
      match o with
      | None => ret tt
      | Some rx => let! rx' := request rx (reissue rx) in assign f_active_rx (Some rx')
      end
  end.

(** ** Frames *)

Definition on_ack (mid : bytes) : prog unit :=
  let! m := look f_inflight in
  let! _ := match m !! mid with
            | Some p => let! _ := assign f_inflight (base.delete mid m) in resolve (ps_ack p) Acked
            | None => ret tt
            end in
  let! hit := daemon_ask (λ d, let '(t, hit) := ack self mid (d_outbox (dm_db d)) in
                               (fset (of_db f_outbox) t d, hit)) in
  let! now := ask io_now_s in
  let! _ := (if hit : bool then tell (λ i, in_message_delivered i mid now) else ret tt) in
  touch.

Definition on_mls_app (ct : bytes) : prog unit :=
  let! _ := touch in
  match inbound with
  | None => ret tt
  | Some i =>
      let! fresh := ask io_random in
      let! now := ask io_now_s in
      let! o := daemon_ask (in_dispatch i self ct fresh now) in
      let! _ := match o with Some mid => send_ignored (Ack mid) | None => ret tt end in
      if chunk_enabled then drain_begins i else ret tt
  end.

Definition on_mls_welcome (welcome : bytes) : prog unit :=
  let! _ := touch in
  match inbound with
  | None => ret tt
  | Some i =>
      let! now := ask io_now_s in
      let! o := daemon_ask (in_dispatch_welcome i self welcome now) in
      match o with Some id => send_ignored (Ack id) | None => ret tt end
  end.

(** The answer to a request, and the number of chunks announced with it. *)
Definition chunk_reply (aid : bytes) (index : Z) (d : daemon) : Frame * Z :=
  let row := att_get aid (d_atts (dm_db d)) in
  let total := match row with Some r => as_u32 (row_total_chunks r) | None => 0 end in
  let outbound := match row with Some r => bool_decide (row_direction r = "out") | None => false end in
  (if outbound then serve_chunk_request (dm_store d) aid index total
   else ChunkNack aid index NACK_UNKNOWN_ATTACHMENT, total).

Definition on_chunk_request (aid : bytes) (index : Z) : prog unit :=
  let! _ := touch in
  if negb has_store then ret tt
  else
    let! r := read f_daemon (chunk_reply aid index) in
    let '(reply, total) := (r : Frame * Z) in
    let! c := look f_conn in
    match c with
    | None => ret tt
    | Some c =>
        let! sent := ask (io_send c reply) in
        if negb sent then drop_conn
        else
          match reply with
          | Chunk _ _ _ =>
              let! count := modify_get f_served (served_record aid index) in
              tell (λ i, in_attachment_progress i aid count total)
          | _ => ret tt
          end
    end.

(** A verified chunk: stored, recorded, and the next ones requested. *)
Definition take_chunk (rx : ChunkRx) (aid : bytes) (index : Z) (ct : bytes) : prog unit :=
  let! stored := (if has_store then ask (io_stored aid index) else ret true) in
  if negb stored then let! _ := assign f_active_rx (Some rx) in lift (Err Continue)
  else
    let! _ := (if has_store then daemon_do (λ d, fset f_store (store_put aid index ct (dm_store d)) d) else ret tt) in
    let! _ := daemon_do (update f_atts (mark_received aid index)) in
    let rx1 := (on_received index rx).1 in
    let '(recv, total) := progress rx1 in
    let! _ := (if decide (recv mod 8 = 0 ∨ recv = total)
               then tell (λ i, in_attachment_progress i aid recv total) else ret tt) in
    if is_complete rx1 then let! _ := finalize_rx rx1 in advance
    else
      let! now := ask io_instant in
      let '(rx2, reqs) := next_requests now rx1 in
      let! rx3 := request rx2 reqs in
      assign f_active_rx (Some rx3).

Definition on_chunk (aid : bytes) (index : Z) (ct : bytes) : prog unit :=
  let! _ := touch in
  if negb chunk_enabled then ret tt
  else
    let! o := look f_active_rx in
    match o with
    | None => ret tt
    | Some rx =>
        if decide (attachment_id_of rx ≠ aid) then ret tt
        else
          let! _ := assign f_active_rx None in
          if rx_verify rx index ct then take_chunk rx aid index ct
          else
            let! now := ask io_instant in
            let '(rx1, act) := on_bad now index rx in
            match act with
            | Request indices => let! rx2 := request rx1 indices in assign f_active_rx (Some rx2)
            | Fail => let! _ := fail_rx rx1 "chunk hash mismatch" in advance
            end
    end.

Definition on_chunk_nack (aid : bytes) (reason : Z) : prog unit :=
  let! _ := touch in
  let! o := look f_active_rx in
  match o with
  | Some rx =>
      if decide (chunk_enabled = true ∧ attachment_id_of rx = aid) then
        let! _ := assign f_active_rx None in
        let! _ := fail_rx rx ("sender nack reason " +:+ pretty reason) in
        advance
      else ret tt
  | None => ret tt
  end.

Definition on_attachment_complete (aid : bytes) : prog unit :=
  let! _ := touch in
  let! _ := daemon_do (λ d, fset (of_db f_atts) (set_status aid "complete" (d_atts (dm_db d))).1 d) in
  let! _ := (if has_store then daemon_do (λ d, fset f_store (store_remove aid (dm_store d)) d) else ret tt) in
  let! _ := modify f_served (served_forget aid) in
  let! _ := daemon_do (update f_atts (delete_for_attachment aid)) in
  let! row := read f_daemon (λ d, att_get aid (d_atts (dm_db d))) in
  match row with
  | Some r => let t := as_u32 (row_total_chunks r) in tell (λ i, in_attachment_progress i aid t t)
  | None => ret tt
  end.

(** The connection ended: by a [Bye], an end of file or an error. *)
Definition on_closed : prog unit :=
  let! _ := drop_conn in assign f_awaiting_pong None.

Definition on_frame (f : Frame) : prog unit :=
  match f with
  | Ack mid => on_ack mid
  | Bye => on_closed
  | Ping => let! _ := send_ignored Pong in touch
  | Pong => let! _ := assign f_awaiting_pong None in touch
  | MlsApp ct => on_mls_app ct
  | MlsWelcome w => on_mls_welcome w
  | ChunkRequest aid index => on_chunk_request aid index
  | Chunk aid index ct => on_chunk aid index ct
  | ChunkNack aid _ reason => on_chunk_nack aid reason
  | AttachmentComplete aid => on_attachment_complete aid
  | _ => ret tt
  end.

(** ** The loop *)

(** The branch that is ready: [Ev_Frame None] is an end of file or an error. *)
Inductive actor_event : Type :=
| Ev_Job (job : option DeliveryJob)
| Ev_Welcome (job : option WelcomeJob)
| Ev_RetryTick
| Ev_KeepaliveTick
| Ev_Ctrl (c : option (PeerCtrl C))
| Ev_Frame (f : option Frame).

(** A branch that is not ready cannot be taken: without a connection there is
    nothing to receive. *)
Definition ready (ev : actor_event) (s : peer W C) : bool :=
  match ev with Ev_Frame _ => bool_decide (is_Some (ac_conn (p_actor s))) | _ => true end.

Definition branch (ev : actor_event) : prog unit :=
  match ev with
  | Ev_Job o => on_job o
  | Ev_Welcome o => on_welcome_job o
  | Ev_RetryTick => on_retry_tick
  | Ev_KeepaliveTick => on_keepalive_tick
  | Ev_Ctrl o => on_ctrl o
  | Ev_Frame (Some f) => on_frame f
  | Ev_Frame None => on_closed
  end.

(** After the loop. *)
Definition leave : prog unit :=
  let! c := look f_conn in
  let! _ := match c with Some c => modify f_world (io_close c) | None => ret tt end in
  drain_pending.

(** One iteration, and whether the loop goes on. *)
Definition iteration (ev : actor_event) (s : peer W C) : peer W C * bool :=
  match branch ev s with
  | (s', Err Break) => ((leave s').1, false)
  | (s', _) => (s', true)
  end.

(** The runs of the actor: any number of iterations, each on a branch that is
    ready. *)
Inductive actor_run (s0 : peer W C) : list actor_event → peer W C → bool → Prop :=
| run_start : actor_run s0 [] s0 true
| run_next evs s ev s' b :
    actor_run s0 evs s true → ready ev s = true → iteration ev s = (s', b) → actor_run s0 (evs ++ [ev]) s' b.
End actor.

(** ** [DaemonInbound] *)

Section production.
Context {om : OpenMls} {scheme : SignatureScheme} {sha : Sha256} {b2 : Blake2s}.
Context {ser_p : Serialize provider} {de_p : Deserialize provider}.
Context {ser_env : Serialize Envelope} {de_env : Deserialize Envelope}.
Context {ser_card : Serialize ContactCard} {de_card : Deserialize ContactCard}.
Context {ser_body : Serialize ContactCardBody}.
Context {ser_man : Serialize AttachmentManifest} {de_man : Deserialize AttachmentManifest}.

(** [wired] is the identity given to the dispatcher, [store_wired] whether a chunk
    store was. *)
Definition daemon_inbound (wired : option IdentityKey) (store_wired : bool) : InboundDispatch := {|
  in_dispatch := dispatch;
  in_dispatch_welcome := dispatch_welcome wired;
  in_dispatch_mailbox := dispatch_mailbox;
  in_dispatch_attachment_chunk := dispatch_attachment_chunk store_wired;
  in_dispatch_welcome_bootstrap := dispatch_welcome_bootstrap wired;
  in_take_begin_attachment := take_begin_attachment;
  in_has_pending_begin := has_pending_begin;
  in_requeue_attachment := requeue_attachment;
  in_attachment_received := attachment_received;
  in_attachment_progress := attachment_progress;
  in_attachment_failed := attachment_failed;
  in_message_delivered := message_delivered wired
|}.
End production.
