(* ===== verification/PeerActorProps.v ===== *)
(** * PeerActorProps: what the peer actor guarantees

    Proved over all runs of [PeerActor.iteration], for every behaviour of the
    connection, the clock and the dispatcher: every caller that waits for an
    acknowledgement is answered once; the timers agree with what is in flight; a
    message leaves the outbox only by the peer's acknowledgement or a deposit. *)

From S2P Require Import Prelude Text CoreErrors Framing Float64 Backoff Outbox MailboxProtocol PeerFrame Attachments.
From S2P Require Import ChunkTransfer AttachmentRepo Identity Daemon Inbound Delivery PeerActor Scenario.

(** ** The callers that wait *)

Lemma tickets_insert m k p :
  m !! k = None → tickets (<[k := p]> m) ≡ₚ option_list (ps_ack p) ++ tickets m.
Proof.
  intros H. unfold tickets. rewrite map_to_list_insert by done. simpl. by destruct (ps_ack p).
Qed.

Lemma tickets_delete m k p :
  m !! k = Some p → tickets m ≡ₚ option_list (ps_ack p) ++ tickets (base.delete k m).
Proof.
  intros H. unfold tickets. rewrite <- (map_to_list_delete m k p H). simpl. by destruct (ps_ack p).
Qed.

Lemma tickets_replace m k p :
  option_list (m !! k ≫= ps_ack) ++ tickets (<[k := p]> m) ≡ₚ option_list (ps_ack p) ++ tickets m.
Proof.
  destruct (m !! k) as [old|] eqn:E; simpl.
  - rewrite <- insert_delete_eq, tickets_insert by apply lookup_delete_eq.
    rewrite (tickets_delete m k old E). rewrite !(assoc_L (++)). f_equiv. apply (comm (++)).
  - by rewrite tickets_insert.
Qed.

Lemma map_to_list_filter (P : bytes * PendingSend → Prop) `{!∀ kv, Decision (P kv)} (m : gmap bytes PendingSend) :
  map_to_list (filter P m) ≡ₚ filter P (map_to_list m).
Proof.
  rewrite map_filter_alt. apply map_to_list_to_map, NoDup_fmap_filter, NoDup_fst_map_to_list.
Qed.

Lemma tickets_split (P : bytes * PendingSend → Prop) `{!∀ kv, Decision (P kv)} m :
  tickets m ≡ₚ tickets (filter P m) ++ tickets (filter (λ kv, ¬ P kv) m).
Proof.
  unfold tickets. rewrite !map_to_list_filter, <- omap_app. f_equiv. symmetry. apply filter_app_complement.
Qed.

(** The part of the actor that the guarantees are about. *)
Record core (C : Type) : Type := mkCore {
  k_conn : option C; k_pending : gmap bytes PendingSend; k_armed : option Z; k_answers : list (nat * ack_result)
}.
Arguments mkCore {C}.
Arguments k_conn {C} c.
Arguments k_pending {C} c.
Arguments k_armed {C} c.
Arguments k_answers {C} c.

Definition core_of {W C} (s : peer W C) : core C :=
  let a := p_actor s in mkCore (ac_conn a) (ac_pending a) (ac_first_failure a) (ac_answers a).

Section sound.
Context {C : Type} (waits : nat → bytes → Prop) (acked : nat → Prop).

(** [submitted] are the callers so far: each was answered once or waits, under
    the id of its message, and one that was told of an acknowledgement was
    acknowledged. *)
Definition balanced (submitted : list nat) (k : core C) : Prop :=
  (k_answers k).*1 ++ tickets (k_pending k) ≡ₚ submitted ∧
  (∀ n, (n, Acked) ∈ k_answers k → acked n) ∧
  (∀ mid p n, k_pending k !! mid = Some p → ps_ack p = Some n → waits n mid).

(** Nothing is in flight without a connection, or while the failure timer is
    armed. *)
Record sound (submitted : list nat) (k : core C) : Prop := {
  s_balanced : balanced submitted k;
  s_conn : k_conn k = None → k_pending k = ∅;
  s_armed : k_armed k ≠ None → k_pending k = ∅
}.
End sound.

Lemma sound_weaken {C} (waits waits' : nat → bytes → Prop) (acked acked' : nat → Prop) L (k : core C) :
  (∀ n mid, waits n mid → waits' n mid) → (∀ n, acked n → acked' n) →
  sound waits acked L k → sound waits' acked' L k.
Proof. intros Hw Ha [(? & ? & ?) ? ?]. split; [split_and!|..]; eauto. Qed.

Section props.
Context {W C : Type} {io : PeerIo W C} {sha : Sha256} {b2 : Blake2s} {de_card : Deserialize ContactCard}.
Context (self : bytes).
Context (dialer : bool) (direct_timeout : Z) (fallback has_store download_dir : bool).
Implicit Types (s : peer W C) (L : list nat).

Abbreviation prog T := (action (peer W C) T flow).

(** A program that leaves the core alone. *)
Definition quiet {T} (c : prog T) : Prop := ∀ s, core_of (c s).1 = core_of s.

Lemma quiet_bind {T U} (c : prog T) (k : T → prog U) : quiet c → (∀ t, quiet (k t)) → quiet (bind_action c k).
Proof.
  intros Hc Hk s. unfold bind_action. specialize (Hc s). destruct (c s) as [s1 [t|e]]; simpl in *; [|done].
  by rewrite Hk.
Qed.
Lemma quiet_ask {T} (g : W → W * T) : quiet (ask g).
Proof. intros s. unfold ask, modify_get. cbn. by destruct (g (p_world s)). Qed.
Lemma quiet_daemon_ask {T} (g : daemon → daemon * T) : quiet (daemon_ask g).
Proof. intros s. unfold daemon_ask, modify_get. cbn. by destruct (g (p_daemon s)). Qed.
Lemma quiet_daemon_do g : quiet (daemon_do g).
Proof. done. Qed.
Lemma quiet_lift {T} (r : result T flow) : quiet (lift r).
Proof. done. Qed.
Lemma quiet_look {A} (f : field (peer W C) A) : quiet (look f).
Proof. done. Qed.
Lemma quiet_read {A T} (f : field (peer W C) A) (g : A → T) : quiet (read f g).
Proof. done. Qed.
Lemma quiet_served {T} (g : ServedTracker → ServedTracker * T) : quiet (modify_get f_served g).
Proof. intros s. unfold modify_get. cbn. by destruct (g _). Qed.
Lemma quiet_tell ib g : quiet (tell ib g).
Proof. unfold tell. by destruct ib. Qed.

Create HintDb quiet.
#[local] Hint Resolve quiet_ask quiet_daemon_ask quiet_daemon_do quiet_lift quiet_look quiet_read quiet_served
  quiet_tell : quiet.

(** Take a program apart down to its primitive steps. *)
Ltac quieten :=
  repeat match goal with
  | |- quiet (bind_action _ _) => apply quiet_bind; [|intros ?]
  | |- quiet (match ?x with _ => _ end) => destruct x
  | |- quiet _ => first [solve [auto with quiet] | solve [intros ?; reflexivity]]
  end.

Lemma quiet_touch : quiet touch.
Proof. unfold touch. quieten. Qed.
Lemma quiet_send_ignored f : quiet (send_ignored f).
Proof. unfold send_ignored. quieten. Qed.
#[local] Hint Resolve quiet_touch quiet_send_ignored : quiet.

Lemma quiet_send_each c aid l : quiet (send_each c aid l).
Proof. induction l as [|i l IH]; simpl; quieten. Qed.
#[local] Hint Resolve quiet_send_each : quiet.

Lemma quiet_request rx l : quiet (request rx l).
Proof. unfold request, send_chunk_requests. quieten. Qed.
#[local] Hint Resolve quiet_request : quiet.

Lemma quiet_finalize_rx ib rx : quiet (finalize_rx self ib rx).
Proof. unfold finalize_rx. quieten. Qed.
Lemma quiet_fail_rx ib rx reason : quiet (fail_rx ib rx reason).
Proof. unfold fail_rx. quieten. Qed.
#[local] Hint Resolve quiet_finalize_rx quiet_fail_rx : quiet.

Lemma quiet_start_next ib q : quiet (start_next self ib q).
Proof. induction q as [|b q IH]; simpl; quieten. Qed.
#[local] Hint Resolve quiet_start_next : quiet.

Lemma quiet_advance ib : quiet (advance self ib).
Proof. unfold advance, maybe_start_next_rx. quieten. Qed.
#[local] Hint Resolve quiet_advance : quiet.

Lemma quiet_take_begins n i : quiet (take_begins self n i).
Proof. induction n as [|n IH]; simpl; quieten. Qed.
#[local] Hint Resolve quiet_take_begins : quiet.

Lemma quiet_drain_begins ib i : quiet (drain_begins self ib i).
Proof. unfold drain_begins. quieten. Qed.
#[local] Hint Resolve quiet_drain_begins : quiet.

Lemma quiet_refill : quiet refill.
Proof. unfold refill. quieten. Qed.
Lemma quiet_check_timeouts ib : quiet (check_timeouts self ib).
Proof. unfold check_timeouts. quieten. Qed.
Lemma quiet_ladder_ready l : quiet (ladder_ready l).
Proof. unfold ladder_ready. quieten. Qed.
Lemma quiet_fresh_conn : quiet fresh_conn.
Proof. unfold fresh_conn. quieten. Qed.
Lemma quiet_due_rows now : quiet (due_rows self now).
Proof. unfold due_rows. quieten. Qed.
Lemma quiet_work_pending ib : quiet (work_pending self ib).
Proof. unfold work_pending. quieten. Qed.
Lemma quiet_fall_back due : quiet (fall_back self due).
Proof. induction due as [|e due IH]; simpl; quieten. Qed.
#[local] Hint Resolve quiet_refill quiet_check_timeouts quiet_ladder_ready quiet_fresh_conn quiet_due_rows
  quiet_work_pending quiet_fall_back : quiet.

Lemma quiet_on_mls_app ib ct : quiet (on_mls_app self ib has_store download_dir ct).
Proof. unfold on_mls_app. quieten. Qed.
Lemma quiet_on_mls_welcome ib w : quiet (on_mls_welcome self ib w).
Proof. unfold on_mls_welcome. quieten. Qed.
Lemma quiet_take_chunk ib rx aid i ct : quiet (take_chunk self ib has_store rx aid i ct).
Proof. unfold take_chunk. quieten. Qed.
#[local] Hint Resolve quiet_take_chunk : quiet.
Lemma quiet_on_chunk ib aid i ct : quiet (on_chunk self ib has_store download_dir aid i ct).
Proof. unfold on_chunk. quieten. Qed.
Lemma quiet_on_chunk_nack ib aid r : quiet (on_chunk_nack self ib has_store download_dir aid r).
Proof. unfold on_chunk_nack. quieten. Qed.
Lemma quiet_on_attachment_complete ib aid : quiet (on_attachment_complete ib has_store aid).
Proof. unfold on_attachment_complete. quieten. Qed.
#[local] Hint Resolve quiet_on_mls_app quiet_on_mls_welcome quiet_on_chunk quiet_on_chunk_nack
  quiet_on_attachment_complete : quiet.

(** ** Triples on the core

    [triple I P c Q]: from a core with [P], [c] ends in one with [Q] of its result,
    or jumps out of the branch in one with [I]. *)

Definition triple {T} (I P : core C → Prop) (c : prog T) (Q : T → core C → Prop) : Prop :=
  ∀ s, P (core_of s) → match (c s).2 with Ok t => Q t (core_of (c s).1) | Err _ => I (core_of (c s).1) end.

Lemma triple_bind {T U} I P (c : prog T) R (k : T → prog U) Q :
  triple I P c R → (∀ t, triple I (R t) (k t) Q) → triple I P (bind_action c k) Q.
Proof.
  intros Hc Hk s H. specialize (Hc s H). unfold bind_action. destruct (c s) as [s1 [t|e]]; [|done]. by apply Hk.
Qed.
Lemma triple_post {T} I P (c : prog T) (Q Q' : T → core C → Prop) :
  triple I P c Q → (∀ t k, Q t k → Q' t k) → triple I P c Q'.
Proof. intros H HQ s Hs. specialize (H s Hs). destruct (c s) as [s1 [t|e]]; simpl in *; auto. Qed.
Lemma triple_pre {T} I (P P' : core C → Prop) (c : prog T) Q :
  triple I P c Q → (∀ k, P' k → P k) → triple I P' c Q.
Proof. intros H HP s Hs. by apply H, HP. Qed.
Lemma triple_quiet {T} I (P : core C → Prop) (c : prog T) :
  quiet c → (∀ k, P k → I k) → triple I P c (λ _, P).
Proof. intros H HI s Hs. specialize (H s). destruct (c s) as [s1 [t|e]]; simpl in *; rewrite H; auto. Qed.
Lemma triple_ret {T} I (Q : T → core C → Prop) t : triple I (Q t) (ret t) Q.
Proof. by intros s. Qed.
Lemma triple_jump {T} I (P : core C → Prop) e (Q : T → core C → Prop) :
  (∀ k, P k → I k) → triple I P (lift (Err e)) Q.
Proof. intros H s. apply H. Qed.
Lemma triple_ask {T} I P (g : W → W * T) : triple I P (ask g) (λ _, P).
Proof. intros s. unfold ask, modify_get. cbn. by destruct (g (p_world s)). Qed.
Lemma triple_daemon_do I P g : triple I P (daemon_do g) (λ _, P).
Proof. by intros s. Qed.
Lemma triple_world_do I P g : triple I P (modify f_world g) (λ _, P).
Proof. by intros s. Qed.
Lemma triple_touch I P : triple I P touch (λ _, P).
Proof. eapply triple_bind; [apply triple_ask|]. by intros t s. Qed.
Lemma triple_conn I P : triple I P (look f_conn) (λ o k, P k ∧ k_conn k = o).
Proof. by intros s. Qed.
Lemma triple_armed I P : triple I P (look f_first_failure) (λ o k, P k ∧ k_armed k = o).
Proof. by intros s. Qed.
Lemma triple_inflight I P : triple I P (look f_inflight) (λ m k, P k ∧ k_pending k = m).
Proof. by intros s. Qed.

(** The cores reached by a change [f]. *)
Definition after (f : core C → core C) (P : core C → Prop) (k' : core C) : Prop := ∃ k, P k ∧ k' = f k.

Lemma triple_set_conn I P x :
  triple I P (assign f_conn x) (λ _, after (λ k, mkCore x (k_pending k) (k_armed k) (k_answers k)) P).
Proof. intros s ?. by exists (core_of s). Qed.
Lemma triple_set_armed I P x :
  triple I P (assign f_first_failure x) (λ _, after (λ k, mkCore (k_conn k) (k_pending k) x (k_answers k)) P).
Proof. intros s ?. by exists (core_of s). Qed.
Lemma triple_set_inflight I P x :
  triple I P (assign f_inflight x) (λ _, after (λ k, mkCore (k_conn k) x (k_armed k) (k_answers k)) P).
Proof. intros s ?. by exists (core_of s). Qed.

Definition resolved (new : list nat) (r : ack_result) (k : core C) : core C :=
  mkCore (k_conn k) (k_pending k) (k_armed k) (k_answers k ++ ((λ n, (n, r)) <$> new)).

Lemma triple_resolve I P ack r : triple I P (resolve ack r) (λ _, after (resolved (option_list ack) r) P).
Proof.
  intros s ?. destruct ack; cbn; exists (core_of s); (split; [done|]); [done|].
  unfold resolved, core_of. cbn. by rewrite app_nil_r.
Qed.
Lemma triple_resolve_all I P m r : triple I P (resolve_all m r) (λ _, after (resolved (tickets m) r) P).
Proof. intros s ?. by exists (core_of s). Qed.

(** ** What the steps do to the core *)

Definition drained (k : core C) : core C :=
  mkCore (k_conn k) ∅ (k_armed k) (k_answers k ++ ((λ n, (n, TornDown)) <$> tickets (k_pending k))).
Definition torn (k : core C) : core C := drained (mkCore None (k_pending k) (k_armed k) (k_answers k)).
Definition inserted (mid : bytes) (p : PendingSend) (k : core C) : core C :=
  mkCore (k_conn k) (<[mid := p]> (k_pending k)) (k_armed k)
    (k_answers k ++ ((λ n, (n, Dropped)) <$> option_list (k_pending k !! mid ≫= ps_ack))).

Context (waits : nat → bytes → Prop) (acked : nat → Prop).
#[local] Abbreviation balanced := (balanced waits acked).
#[local] Abbreviation sound := (sound waits acked).

Lemma answers_map (l : list nat) (r : ack_result) : ((λ n, (n, r)) <$> l).*1 = l.
Proof. rewrite <- list_fmap_compose. apply list_fmap_id. Qed.

Lemma answers_other n (l : list nat) r : r ≠ Acked → (n, Acked) ∉ ((λ m, (m, r)) <$> l).
Proof. intros Hr. rewrite list_elem_of_fmap. by intros (m & [= _ <-] & _). Qed.

Lemma balanced_resolved L (k : core C) new r :
  r ≠ Acked → balanced L k → balanced (L ++ new) (resolved new r k).
Proof.
  intros Hr (H & Ha & Hw). split_and!; cbn; [|intros n|done].
  - rewrite <- H, fmap_app, answers_map, <- !(assoc_L (++)). apply Permutation_app_head, Permutation_app_comm.
  - rewrite elem_of_app. intros [?|[]%answers_other]; auto.
Qed.

Lemma balanced_drained L (k : core C) : balanced L k → sound L (drained k).
Proof.
  intros (H & Ha & Hw). split; [split_and!|done|done]; cbn; [|intros n|by intros ? ? ? ?].
  - by rewrite fmap_app, answers_map, app_nil_r.
  - rewrite elem_of_app. intros [?|[]%answers_other]; auto.
Qed.

Lemma balanced_inserted L (k : core C) mid p :
  (∀ n, ps_ack p = Some n → waits n mid) → balanced L k → balanced (L ++ option_list (ps_ack p)) (inserted mid p k).
Proof.
  intros Hp (H & Ha & Hw). split_and!; cbn; [|intros n|intros mid' p' n].
  - rewrite <- H, fmap_app, answers_map, <- !(assoc_L (++)), tickets_replace.
    apply Permutation_app_head, Permutation_app_comm.
  - rewrite elem_of_app. intros [?|[]%answers_other]; auto.
  - intros [[<- <-]|[_ ?]]%lookup_insert_Some; eauto.
Qed.

Lemma triple_drain I P : triple I P drain_pending (λ _, after drained P).
Proof. intros s ?. by exists (core_of s). Qed.
Lemma triple_drop I P : triple I P drop_conn (λ _, after torn P).
Proof. intros s ?. by exists (core_of s). Qed.
Lemma triple_insert I P mid p : triple I P (pending_insert mid p) (λ _, after (inserted mid p) P).
Proof.
  intros s H. unfold pending_insert, bind_action, look, read. cbn.
  destruct (ac_pending (p_actor s) !! mid) as [[[n|] ? ?]|] eqn:E; cbn; exists (core_of s); (split; [done|]);
    unfold inserted, core_of; cbn; rewrite E; cbn; rewrite ?app_nil_r; done.
Qed.

Ltac step := eapply triple_bind; [first
  [ apply triple_ask | apply triple_touch | apply triple_conn | apply triple_armed | apply triple_inflight
  | apply triple_set_conn | apply triple_set_armed | apply triple_set_inflight | apply triple_resolve
  | apply triple_resolve_all | apply triple_drain | apply triple_drop | apply triple_insert ]|].

Lemma triple_arm I L :
  triple I (λ k, balanced L k ∧ k_pending k = ∅) arm_failure (λ _ k, sound L k ∧ k_pending k = ∅).
Proof.
  unfold arm_failure. step. intros [t|].
  - intros s [[Hb Hp] _]. by split; [split|].
  - step. intros t. eapply triple_post; [apply triple_set_armed|]. intros [] ? (k & [[Hb Hp] _] & ->). by split; [split|].
Qed.

Lemma triple_ensure I L :
  triple I (sound L) (ensure_conn self dialer)
    (λ b k, sound L k ∧ if b : bool then k_conn k ≠ None else k_conn k = None).
Proof.
  unfold ensure_conn. step. intros [c|].
  - intros s [? ?]. cbn in *. split; [done|congruence].
  - destruct dialer; cbn [negb]; [|by intros s].
    step. intros [c|]; [|by intros s]. step. intros []. eapply triple_pre; [apply triple_ret|].
    intros ? (k & [[Hb Hc Ha] _] & ->). by split; [split|].
Qed.

(** ** The job branches *)

Lemma triple_refuse L ack Q :
  triple (sound (L ++ option_list ack)) (λ k, sound L k ∧ k_conn k = None) (refuse ack) Q.
Proof.
  unfold refuse. step. intros []. eapply triple_bind; [eapply triple_pre; [apply triple_arm|]|].
  - intros ? (k & [[Hb Hc _] Hn] & ->). split; [by apply balanced_resolved|by apply Hc].
  - intros []. apply triple_jump. by intros k [? _].
Qed.

Lemma triple_submit L f mid ack origin :
  (∀ n, ack = Some n → waits n mid) →
  triple (sound (L ++ option_list ack)) (sound L) (submit self dialer f mid ack origin)
    (λ _, sound (L ++ option_list ack)).
Proof.
  intros Hw. unfold submit. eapply triple_bind; [apply triple_ensure|]. intros []; cbn [negb]; [|apply triple_refuse].
  step. intros [c|]; [|eapply triple_pre; [apply triple_refuse|]; by intros k [[? ?] ?]].
  step. intros []; cbn [negb].
  - step. intros now. step. intros []. step. intros []. eapply triple_post; [apply triple_set_armed|].
    intros [] ? (? & (k & [[[Hb _ _] _] Hc] & ->) & ->). cbn. split; [by apply balanced_inserted| |done].
    cbn. by rewrite Hc.
  - step. intros []. step. intros []. eapply triple_bind; [eapply triple_pre; [apply triple_arm|]|].
    + intros ? (? & (k & [[[Hb _ _] _] _] & ->) & ->). split; [|done].
      by apply (balanced_drained _ (mkCore None _ _ _)), (balanced_resolved L).
    + intros []. apply triple_jump. by intros k [? _].
Qed.

(** ** The other branches *)

Abbreviation keeps L c := (triple (sound L) (sound L) c (λ _, sound L)).

Lemma keeps_quiet {T} L (c : prog T) : quiet c → keeps L c.
Proof. intros H. by apply triple_quiet. Qed.
Lemma keeps_bind {T U} L (c : prog T) (k : T → prog U) : keeps L c → (∀ t, keeps L (k t)) → keeps L (bind_action c k).
Proof. intros. by eapply triple_bind. Qed.
Lemma keeps_drop L : keeps L drop_conn.
Proof.
  eapply triple_post; [apply triple_drop|]. intros [] ? (k & [Hb _ _] & ->). by apply balanced_drained.
Qed.

Lemma keeps_evict L : keeps L evict_overdue.
Proof.
  unfold evict_overdue. step. intros now. step. intros m. step. intros [].
  eapply triple_post; [apply triple_set_inflight|]. intros [] ? (? & (k & [[Hb Hc Ha] <-] & ->) & ->). cbn.
  split; cbn.
  - destruct Hb as (Hp & Hk & Hw). split_and!; cbn; [|intros n|intros mid p n].
    + by rewrite <- Hp, fmap_app, answers_map, <- (assoc_L (++)), <- tickets_split.
    + rewrite elem_of_app. intros [?|[]%answers_other]; auto.
    + rewrite map_lookup_filter_Some. intros [? _]. eauto.
  - intros Hn. by rewrite (Hc Hn), map_filter_empty.
  - intros Hn. by rewrite (Ha Hn), map_filter_empty.
Qed.

Lemma quiet_climb f : (∀ x s, core_of (fset f x s) = core_of s) → quiet (climb f).
Proof.
  intros Hf. unfold climb. apply quiet_bind; [done|intros l]. apply quiet_bind; [apply quiet_ask|intros now s].
  apply Hf.
Qed.

Lemma keeps_paced_dial L f fail :
  (∀ x s, core_of (fset f x s) = core_of s) →
  triple (sound L) (λ k, sound L k ∧ k_conn k = None) fail (λ _, sound L) →
  keeps L (paced_dial self dialer f fail).
Proof.
  intros Hf Hfail. unfold paced_dial. step. intros [c|]; [by intros s [? _]|].
  eapply triple_bind; [apply (triple_quiet _ (λ k, sound L k ∧ k_conn k = None)); [done|by intros ? [? _]]|]. intros l.
  eapply triple_bind; [apply triple_quiet; [apply quiet_ladder_ready|by intros ? [? _]]|].
  intros []; cbn [negb]; [|by intros s [? _]].
  eapply triple_bind; [eapply triple_pre; [apply triple_ensure|by intros ? [? _]]|]. intros [].
  - eapply triple_pre; [apply keeps_quiet|by intros ? [? _]].
    apply quiet_bind; [intros s; apply Hf|intros ?; apply quiet_fresh_conn].
  - eapply triple_bind; [exact Hfail|]. intros []. by apply keeps_quiet, quiet_climb.
Qed.

Lemma keeps_resend L now due : keeps L (resend now due).
Proof.
  induction due as [|e due IH]; simpl; [by intros s|]. step. intros m.
  case_decide; [eapply triple_pre; [apply IH|by intros ? [? _]]|].
  step. intros [c|]; [|by intros s [[? _] _]]. step. intros []; cbn [negb].
  - step. intros at_. step. intros []. step. intros factor.
    eapply triple_bind; [apply triple_daemon_do|]. intros []. step. intros []. step. intros [].
    eapply triple_pre; [apply IH|]. intros ? (? & (k & [[[Hb _ _] _] Hc] & ->) & ->). cbn. split; cbn.
    + pose proof (balanced_inserted L k (oe_message_id e) (mkPendingSend None at_ From_Outbox)) as Hi.
      cbn in Hi. rewrite app_nil_r in Hi. by apply Hi.
    + by rewrite Hc.
    + done.
  - step. intros []. eapply triple_post; [eapply triple_pre; [apply triple_arm|]|].
    + intros ? (k & [[[Hb _ _] _] _] & ->). split; [by apply balanced_drained|done].
    + by intros [] k [? _].
Qed.

Lemma keeps_fall_back L : keeps L (maybe_fall_back self direct_timeout fallback).
Proof.
  unfold maybe_fall_back. destruct (negb _); [by intros s|]. step. intros [t|]; [|by intros s [? _]].
  step. intros now. case_decide; [|by intros s [? _]].
  eapply triple_pre with (P := sound L); [|by intros ? [? _]].
  step. intros now'. apply keeps_bind; [apply keeps_quiet, quiet_due_rows|intros due].
  apply keeps_bind; [apply keeps_quiet, quiet_fall_back|intros _].
  eapply triple_post; [apply triple_set_armed|]. intros [] ? (k & [Hb Hc _] & ->). by split.
Qed.

Lemma keeps_chunk_tick L ib : keeps L (chunk_tick self ib dialer has_store download_dir).
Proof.
  unfold chunk_tick. destruct (negb _); [by intros s|].
  apply keeps_bind; [apply keeps_quiet, quiet_work_pending|intros p].
  apply keeps_bind; [destruct p; [apply keeps_paced_dial; [done|by intros s [? _]]|by intros s]|intros _].
  apply keeps_bind; [apply keeps_quiet, quiet_refill|intros _].
  apply keeps_bind; [apply keeps_quiet, quiet_check_timeouts|intros _].
  apply keeps_bind; [by apply keeps_quiet|intros c].
  destruct c, ib; try (by intros s). apply keeps_quiet, quiet_drain_begins.
Qed.

Lemma keeps_retry_tick L ib :
  keeps L (on_retry_tick self ib dialer direct_timeout fallback has_store download_dir).
Proof.
  unfold on_retry_tick. apply keeps_bind; [apply keeps_evict|intros _].
  step. intros now. apply keeps_bind; [apply keeps_quiet, quiet_due_rows|intros due].
  apply keeps_bind; [by apply keeps_quiet|intros m].
  apply keeps_bind; [|intros _; apply keeps_bind; [apply keeps_resend|intros _]].
  - case_decide; [|by intros s]. apply keeps_paced_dial; [done|].
    eapply triple_post; [eapply triple_pre; [apply triple_arm|]|]; [|by intros [] k [? _]].
    intros k [[Hb Hc _] Hn]. auto.
  - apply keeps_bind; [apply keeps_fall_back|intros _; apply keeps_chunk_tick].
Qed.

Lemma keeps_keepalive L : keeps L on_keepalive_tick.
Proof.
  unfold on_keepalive_tick. step. intros [c|]; [|by intros s [? _]].
  eapply triple_pre with (P := sound L); [|by intros ? [? _]].
  apply keeps_bind; [by apply keeps_quiet|intros last]. step. intros now. case_decide.
  - step. intros []. eapply triple_bind; [apply triple_world_do|]. intros []. step. intros [].
    apply triple_jump. intros ? (? & (k & [Hb _ _] & ->) & ->). by apply balanced_drained.
  - apply keeps_bind; [by apply keeps_quiet|intros o].
    apply keeps_bind; [destruct o; [step; intros ?|]; by intros s|intros []].
    + apply keeps_bind; [apply keeps_drop|intros _]. apply keeps_quiet. by apply quiet_bind.
    + step. intros []; destruct o; try (by intros s); step; intros ?; by intros s.
Qed.

Lemma keeps_ctrl L o : keeps L (on_ctrl o).
Proof.
  destruct o as [[new|]|]; try (by apply triple_jump). simpl. step. intros old.
  eapply triple_pre with (P := balanced L); [|by intros ? [[? _ _] _]].
  eapply triple_bind with (R := λ _, balanced L).
  { destruct old as [c|]; [|by intros s]. step. intros [].
    eapply triple_post; [apply triple_world_do|]. by intros [] ? (k & ? & ->). }
  intros []. step. intros []. step. intros [].
  eapply triple_pre with (P := sound L).
  2: { intros ? (? & (k & Hb & ->) & ->). destruct (balanced_drained L k Hb) as [Hd _ Ha]. by split. }
  apply keeps_bind; [apply keeps_quiet, quiet_fresh_conn|intros _].
  apply keeps_bind; [|intros _].
  { eapply triple_post; [apply triple_set_armed|]. intros [] ? (k & [Hb Hc _] & ->). by split. }
  apply keeps_quiet. quieten; auto using quiet_request.
Qed.

Lemma keeps_ack L ib mid : (∀ n, waits n mid → acked n) → keeps L (on_ack self ib mid).
Proof.
  intros Hmid. unfold on_ack. step. intros m. apply triple_bind with (R := λ _, sound L); [|intros _].
  - destruct (m !! mid) as [p|] eqn:E; [|by intros s [? _]]. step. intros [].
    eapply triple_post; [apply triple_resolve|]. intros [] ? (? & (k & [[Hb Hc Ha] Hm] & ->) & ->). cbn. subst m.
    split; cbn.
    + destruct Hb as (Hp & Hk & Hw). split_and!; cbn; [|intros n|intros mid' p' n].
      * by rewrite <- Hp, (tickets_delete _ _ _ E), fmap_app, answers_map, <- (assoc_L (++)).
      * rewrite elem_of_app, list_elem_of_fmap. intros [?|(n' & [= <-] & Hn)]; [auto|].
        destruct (ps_ack p) as [n'|] eqn:En; [|by apply not_elem_of_nil in Hn].
        apply list_elem_of_singleton in Hn as ->. by eapply Hmid, Hw.
      * intros [_ ?]%lookup_delete_Some. eauto.
    + intros Hn. by rewrite (Hc Hn) in E.
    + intros Hn. by rewrite (Ha Hn) in E.
  - apply keeps_quiet. quieten; auto using quiet_tell, quiet_touch.
Qed.

Lemma keeps_chunk_request L ib aid index : keeps L (on_chunk_request ib has_store aid index).
Proof.
  unfold on_chunk_request. apply keeps_bind; [apply keeps_quiet, quiet_touch|intros _].
  destruct (negb _); [by intros s|]. apply keeps_bind; [by apply keeps_quiet|intros [reply total]].
  apply keeps_bind; [by apply keeps_quiet|intros [c|]]; [|by intros s].
  step. intros []; cbn [negb]; [|apply keeps_drop]. apply keeps_quiet. destruct reply; try done.
  apply quiet_bind; [apply quiet_served|intros ?; apply quiet_tell].
Qed.

Lemma keeps_closed L : keeps L on_closed.
Proof. unfold on_closed. apply keeps_bind; [apply keeps_drop|intros _]. by apply keeps_quiet. Qed.

Lemma keeps_frame L ib f :
  (∀ mid n, f = Ack mid → waits n mid → acked n) → keeps L (on_frame self ib has_store download_dir f).
Proof.
  intros Hf. destruct f; simpl; try (by apply keeps_quiet); eauto using keeps_ack, keeps_chunk_request, keeps_closed;
    apply keeps_quiet; quieten;
    auto using quiet_send_ignored, quiet_touch, quiet_on_mls_app, quiet_on_mls_welcome, quiet_on_chunk,
      quiet_on_chunk_nack, quiet_on_attachment_complete.
Qed.
End props.

(** ** Runs *)

Section runs.
Context {W C : Type} {io : PeerIo W C} {sha : Sha256} {b2 : Blake2s} {de_card : Deserialize ContactCard}.
Context (self : bytes) (inbound : option InboundDispatch).
Context (dialer : bool) (direct_timeout : Z) (fallback has_store download_dir : bool).
Implicit Types (s : peer W C) (evs : list (actor_event (C := C))).

Abbreviation branch := (branch self inbound dialer direct_timeout fallback has_store download_dir).
Abbreviation iteration := (iteration self inbound dialer direct_timeout fallback has_store download_dir).
Abbreviation actor_run := (actor_run self inbound dialer direct_timeout fallback has_store download_dir).

(** The caller an event adds, and the id it waits for. *)
Definition caller (ev : actor_event (C := C)) : option (nat * bytes) :=
  match ev with
  | Ev_Job (Some j) => (λ n, (n, job_message_id j)) <$> job_ack j
  | Ev_Welcome (Some w) => (λ n, (n, welcome_msg_id (wj_welcome w))) <$> wj_ack w
  | _ => None
  end.
Definition callers evs : list nat := (omap caller evs).*1.

Definition waits_in evs (n : nat) (mid : bytes) : Prop := (n, mid) ∈ omap caller evs.
(** The peer acknowledged the message after the caller had submitted it. *)
Definition acked_in evs (n : nat) : Prop :=
  ∃ evs1 mid evs2, evs = evs1 ++ Ev_Frame (Some (Ack mid)) :: evs2 ∧ waits_in evs1 n mid.

Lemma waits_in_app evs evs' n mid : waits_in evs n mid → waits_in (evs ++ evs') n mid.
Proof. unfold waits_in. rewrite omap_app, elem_of_app. auto. Qed.
Lemma acked_in_app evs evs' n : acked_in evs n → acked_in (evs ++ evs') n.
Proof. intros (e1 & mid & e2 & -> & H). exists e1, mid, (e2 ++ evs'). by rewrite <- (assoc_L (++)). Qed.

Abbreviation sound_in evs := (sound (waits_in evs) (acked_in evs) (callers evs)).

Lemma callers_snoc evs ev : callers (evs ++ [ev]) = callers evs ++ (option_list (caller ev)).*1.
Proof. unfold callers. rewrite omap_app, fmap_app. cbn. by destruct (caller ev). Qed.

Lemma sound_snoc evs ev (k : core C) :
  caller ev = None → sound (waits_in evs) (acked_in (evs ++ [ev])) (callers evs) k → sound_in (evs ++ [ev]) k.
Proof.
  intros Hn H. rewrite callers_snoc, Hn. cbn. rewrite app_nil_r.
  eapply sound_weaken; [| |exact H]; eauto using waits_in_app.
Qed.

Lemma triple_run {T} (c : action (peer W C) T flow) waits acked L L' s :
  triple (sound waits acked L') (sound waits acked L) c (λ _, sound waits acked L') →
  sound waits acked L (core_of s) → sound waits acked L' (core_of (c s).1).
Proof. intros Hc Hs. specialize (Hc s Hs). by destruct (c s) as [s1 [t|e]]. Qed.

Lemma submit_run evs ev f mid ack origin s :
  caller ev = (λ n, (n, mid)) <$> ack → sound_in evs (core_of s) →
  sound_in (evs ++ [ev]) (core_of (submit self dialer f mid ack origin s).1).
Proof.
  intros Hev H. rewrite callers_snoc.
  assert ((option_list (caller ev)).*1 = option_list ack) as -> by (rewrite Hev; by destruct ack).
  eapply triple_run; [apply triple_submit|].
  - intros n ->. unfold waits_in. rewrite omap_app, elem_of_app. right. cbn. rewrite Hev. cbn. by left.
  - eapply sound_weaken; [| |exact H]; eauto using waits_in_app, acked_in_app.
Qed.

(** Every branch takes soundness on. *)
Lemma branch_sound evs ev s :
  sound_in evs (core_of s) → sound_in (evs ++ [ev]) (core_of (branch ev s).1).
Proof.
  intros H.
  assert (sound (waits_in evs) (acked_in (evs ++ [ev])) (callers evs) (core_of s)) as H'
    by (eapply sound_weaken; [| |exact H]; eauto using acked_in_app).
  destruct ev as [[j|]|[w|]| | |c|[f|]]; cbn [PeerActor.branch on_job on_welcome_job]; try (by apply submit_run); (apply sound_snoc; [done|]);
    try done; (eapply triple_run; [|exact H']).
  - apply keeps_retry_tick.
  - apply keeps_keepalive.
  - apply keeps_ctrl.
  - apply keeps_frame. intros mid n -> Hn. by exists evs, mid, [].
  - apply keeps_closed.
Qed.

Lemma leave_sound evs s :
  sound_in evs (core_of s) → sound_in evs (core_of (leave s).1) ∧ k_pending (core_of (leave s).1) = ∅.
Proof.
  intros [Hb _ _]. unfold leave, bind_action, look, read. cbn.
  destruct (ac_conn (p_actor s)); cbn; (split; [|done]);
    match goal with |- sound _ _ _ (core_of ?s') => change (core_of s') with (drained (core_of s)) end;
    by apply balanced_drained.
Qed.

Lemma run_sound conn now w d evs s b :
  actor_run (mkPeer w d (actor_new conn now)) evs s b →
  sound_in evs (core_of s) ∧ (b = false → k_pending (core_of s) = ∅).
Proof.
  induction 1 as [|evs s ev s' b Hrun IH Hready Hit].
  - split; [|done]. split; [split_and!|done|done]; cbn; [done|intros n|done].
    by intros ?%not_elem_of_nil.
  - destruct IH as [IH _]. pose proof (branch_sound evs ev s IH) as Hs. unfold PeerActor.iteration in Hit.
    destruct (branch ev s) as [s1 [[]|[|]]]; cbn [fst] in Hs; try (injection Hit as <- <-; by split).
    injection Hit as <- <-. destruct (leave_sound _ s1 Hs). by split.
Qed.

(** Every caller is answered once.  Whatever the peer, the connection and the
    clocks do, each caller that handed the actor a message or a Welcome is at any
    time either waiting or has been answered exactly once, and all have been
    answered when the actor ends.  A caller is told of an acknowledgement only if
    the peer acknowledged that caller's message after it was submitted.  Nothing
    is in flight without a connection, nor while the timer of the mailbox fallback
    is armed, so the fallback never handles a message that is also in flight. *)
Theorem actor_answers_once conn now w d evs s b :
  actor_run (mkPeer w d (actor_new conn now)) evs s b →
  let a := p_actor s in
  (ac_answers a).*1 ++ tickets (ac_pending a) ≡ₚ callers evs ∧
  (∀ n, (n, Acked) ∈ ac_answers a → acked_in evs n) ∧
  (b = false → tickets (ac_pending a) = []) ∧
  (ac_conn a = None ∨ ac_first_failure a ≠ None → ac_pending a = ∅).
Proof.
  intros H. destruct (run_sound _ _ _ _ _ _ _ H) as [[(Hp & Ha & _) Hc Hf] Hb]. cbn in *. split_and!; [done|done| |].
  - intros E. by rewrite (Hb E).
  - intros [?|?]; auto.
Qed.

(** ** Running a list of events *)

Fixpoint exec evs s : option (peer W C * bool) :=
  match evs with
  | [] => Some (s, true)
  | ev :: evs' =>
      if ready ev s then
        match iteration ev s, evs' with
        | (s', true), _ => exec evs' s'
        | (s', false), [] => Some (s', false)
        | _, _ => None
        end
      else None
  end.

Lemma exec_run s0 evs0 s evs s' b : actor_run s0 evs0 s true → exec evs s = Some (s', b) → actor_run s0 (evs0 ++ evs) s' b.
Proof.
  revert evs0 s. induction evs as [|ev evs IH]; intros evs0 s Hrun; simpl.
  - intros [= <- <-]. by rewrite app_nil_r.
  - destruct (ready ev s) eqn:Er; [|done]. destruct (iteration ev s) as [s1 b1] eqn:Ei.
    assert (actor_run s0 (evs0 ++ [ev]) s1 b1) as H1 by (by eapply run_next).
    destruct b1; [|destruct evs; [intros [= <- <-]; done|done]].
    intros He. replace (evs0 ++ ev :: evs) with ((evs0 ++ [ev]) ++ evs) by (by rewrite <- (assoc_L (++))).
    by eapply IH.
Qed.

Lemma exec_start s0 evs s b : exec evs s0 = Some (s, b) → actor_run s0 evs s b.
Proof. apply (exec_run s0 []), run_start. Qed.
End runs.

(** ** Witness: a scripted connection *)

Module ActorSamples.

(** Each send and dial takes the next answer of a script, and succeeds when the
    script is exhausted; the clock moves by 20 seconds at each reading. *)
Record script : Type := mkScript { sc_clock : Z; sc_sends : list bool; sc_dials : list bool; sc_log : list Frame }.

#[export] Instance scripted : PeerIo script nat := {|
  io_send c f w := (mkScript (sc_clock w) (tail (sc_sends w)) (sc_dials w) (sc_log w ++ [f]), default true (head (sc_sends w)));
  io_close c w := w;
  io_dial peer w := (mkScript (sc_clock w) (sc_sends w) (tail (sc_dials w)) (sc_log w),
    if default true (head (sc_dials w)) then Some 7%nat else None);
  io_instant w := (mkScript (sc_clock w + 20000) (sc_sends w) (sc_dials w) (sc_log w), sc_clock w);
  io_now_ms w := (w, 1000);
  io_now_s w := (w, 1);
  io_factor w := (w, f64_of_Z 1);
  io_accepts mid w := (w, λ _, true);
  io_random w := (w, fill 16 Byte.x09);
  io_stored aid i w := (w, true);
  io_order l w := (w, l)
|}.

Definition peer_key : bytes := fill 32 Byte.x05.
Definition job (n : nat) (b : byte) : DeliveryJob := mkJob (fill 16 b) [b] (Some n).
Definition idle_actor (w : script) (d : daemon) : peer script nat := mkPeer w d (actor_new (Some 0%nat) 0).
End ActorSamples.

Import SampleInstances ActorSamples.

Lemma actor_answers_once_witness :
  let evs : list (actor_event (C := nat)) := [Ev_Job (Some (job 1 Byte.x01)); Ev_Job (Some (job 2 Byte.x02)); Ev_Frame (Some (Ack (fill 16 Byte.x01)));
              Ev_Ctrl (Some Shutdown)] in
  ∃ s : peer script nat, ac_answers (p_actor s) = [(1%nat, Acked); (2%nat, TornDown)] ∧
    (ac_answers (p_actor s)).*1 ++ tickets (ac_pending (p_actor s)) ≡ₚ callers evs ∧ acked_in evs 1.
Proof.
  intros evs.
  destruct (exec peer_key None true 60000 true true true evs (idle_actor (mkScript 0 [] [] []) (start empty_db)))
    as [[s b]|] eqn:E; [|vm_compute in E; discriminate].
  pose proof (exec_start peer_key None true 60000 true true true _ _ _ _ E) as Hrun.
  assert (ac_answers (p_actor s) = [(1%nat, Acked); (2%nat, TornDown)]) as Ha
    by (assert (option_map (λ p, ac_answers (p_actor p.1)) (Some (s, b)) = Some [(1%nat, Acked); (2%nat, TornDown)]) as Hs
          by (rewrite <- E; vm_compute; reflexivity); by injection Hs).
  destruct (actor_answers_once peer_key None true 60000 true true true _ _ _ _ _ _ _ Hrun) as (H1 & H2 & _).
  exists s. split; [exact Ha|]. split; [exact H1|]. apply H2. rewrite Ha. apply list_elem_of_here.
Defined.
