(* ===== verification/PeerActorDelivery.v ===== *)
(** * PeerActorDelivery: the peer actor and the outbox

    A message leaves the outbox of a running actor only by the peer's
    acknowledgement or by a deposit at one of its mailboxes.  The dispatcher is
    any that keeps its hands off the outbox ([InboundLaws]); the daemon's own is
    an instance. *)

From S2P Require Import Prelude Text CoreErrors Framing Float64 Backoff Sql Outbox MailboxProtocol PeerFrame Attachments.
From S2P Require Import ChunkTransfer AttachmentRepo Identity Contacts Messages Receiver Mls Daemon Api Inbound Delivery.
From S2P Require Import Mailboxes InboundProps DeliveryProps PeerActor PeerActorProps Samples Scenario.

(** ** What a dispatcher promises to the actor *)

(** The outbox and the jobs stay, events are only added. *)
Definition grows (d d' : daemon) : Prop :=
  d_outbox (dm_db d') = d_outbox (dm_db d) ∧ dm_out d' = dm_out d ∧ ∃ evs, dm_events d' = dm_events d ++ evs.

Class InboundLaws (i : InboundDispatch) : Prop := {
  law_dispatch peer ct fresh now d : grows d (in_dispatch i peer ct fresh now d).1;
  law_dispatch_welcome peer w now d : grows d (in_dispatch_welcome i peer w now d).1;
  law_take_begin peer d : grows d (in_take_begin_attachment i peer d).1;
  law_received contact aid name ty size d : grows d (in_attachment_received i contact aid name ty size d);
  law_progress aid n m d : grows d (in_attachment_progress i aid n m d);
  law_failed aid reason d : grows d (in_attachment_failed i aid reason d);
  law_delivered mid now d : grows d (in_message_delivered i mid now d)
}.

Section production.
Context {om : OpenMls} {scheme : SignatureScheme} {sha : Sha256} {b2 : Blake2s}.
Context {ser_p : Serialize provider} {de_p : Deserialize provider}.
Context {ser_env : Serialize Envelope} {de_env : Deserialize Envelope}.
Context {ser_card : Serialize ContactCard} {de_card : Deserialize ContactCard}.
Context {ser_body : Serialize ContactCardBody}.
Context {ser_man : Serialize AttachmentManifest} {de_man : Deserialize AttachmentManifest}.

#[global] Instance daemon_inbound_laws wired store : InboundLaws (daemon_inbound wired store).
Proof.
  split; intros; eapply (inbound_step_outbox wired true); constructor.
Qed.
End production.

Lemma grows_refl d : grows d d.
Proof. split_and!; [done..|]. exists []. by rewrite app_nil_r. Qed.
Lemma grows_trans d1 d2 d3 : grows d1 d2 → grows d2 d3 → grows d1 d3.
Proof.
  intros (O1 & U1 & evs1 & E1) (O2 & U2 & evs2 & E2). split_and!; [congruence..|].
  exists (evs1 ++ evs2). by rewrite E2, E1, (assoc_L (++)).
Qed.

(** ** Programs that leave the outbox alone *)

Section actor_outbox.
Context {W C : Type} {io : PeerIo W C} {sha : Sha256} {b2 : Blake2s} {de_card : Deserialize ContactCard}.
Context (self : bytes) (dialer : bool) (direct_timeout : Z) (fallback has_store download_dir : bool).
Implicit Types (s : peer W C) (ib : option InboundDispatch).

Abbreviation prog T := (action (peer W C) T flow).

Definition inert {T} (c : prog T) : Prop := ∀ s, grows (p_daemon s) (p_daemon (c s).1).

(** The laws of an optional dispatcher. *)
Definition lawful ib : Prop := match ib with Some i => InboundLaws i | None => True end.

Lemma inert_bind {T U} (c : prog T) (k : T → prog U) : inert c → (∀ t, inert (k t)) → inert (bind_action c k).
Proof.
  intros Hc Hk s. unfold bind_action. specialize (Hc s). destruct (c s) as [s1 [t|e]]; simpl in *; [|done].
  eapply grows_trans; [exact Hc|apply Hk].
Qed.
Lemma inert_ask {T} (g : W → W * T) : inert (ask g).
Proof. intros s. unfold ask, modify_get. cbn. destruct (g (p_world s)). apply grows_refl. Qed.
Lemma inert_world g : inert (modify f_world g).
Proof. intros s. apply grows_refl. Qed.
Lemma inert_daemon_do g : (∀ d, grows d (g d)) → inert (daemon_do g).
Proof. intros H s. apply H. Qed.
Lemma inert_daemon_ask {T} (g : daemon → daemon * T) : (∀ d, grows d (g d).1) → inert (daemon_ask g).
Proof. intros H s. unfold daemon_ask, modify_get. cbn. specialize (H (p_daemon s)). by destruct (g (p_daemon s)). Qed.
Lemma inert_served {T} (g : ServedTracker → ServedTracker * T) : inert (modify_get f_served g).
Proof. intros s. unfold modify_get. cbn. destruct (g _). apply grows_refl. Qed.
Lemma inert_lift {T} (r : result T flow) : inert (lift r).
Proof. intros s. apply grows_refl. Qed.
Lemma inert_tell ib g : lawful ib → (∀ i d, InboundLaws i → grows d (g i d)) → inert (tell ib g).
Proof. intros Hl Hg. destruct ib as [i|]; cbn; [|apply inert_lift]. apply inert_daemon_do. intros d. by apply Hg. Qed.

(** The attachment tables and the chunk store are not the outbox. *)
Lemma grows_atts t d : grows d (fset (of_db f_atts) t d).
Proof. split_and!; [done..|]. exists []. by rewrite app_nil_r. Qed.
Lemma grows_store t d : grows d (fset f_store t d).
Proof. split_and!; [done..|]. exists []. by rewrite app_nil_r. Qed.

Create HintDb inert.
#[local] Hint Resolve inert_ask inert_world inert_served inert_lift : inert.
#[local] Hint Resolve law_dispatch law_dispatch_welcome law_take_begin law_received law_progress law_failed law_delivered
  grows_atts grows_store : inert.

Ltac calm_down :=
  repeat match goal with
  | |- inert (bind_action _ _) => apply inert_bind; [|intros ?]
  | |- inert (match ?x with _ => _ end) => destruct x
  | |- inert (tell _ _) => apply inert_tell; [done|intros; auto with inert]
  | |- inert (daemon_do _) => apply inert_daemon_do; intros ?; unfold update; auto with inert
  | |- inert _ => first [solve [auto with inert] | solve [intros ?; apply grows_refl]]
  end.

Lemma inert_touch : inert touch.
Proof. unfold touch. calm_down. Qed.
Lemma inert_resolve ack r : inert (resolve ack r).
Proof. unfold resolve. calm_down. Qed.
#[local] Hint Resolve inert_touch inert_resolve : inert.
Lemma inert_pending_insert mid p : inert (pending_insert mid p).
Proof. unfold pending_insert. calm_down. Qed.
Lemma inert_drop_conn : inert drop_conn.
Proof. intros s. apply grows_refl. Qed.
Lemma inert_arm_failure : inert arm_failure.
Proof. unfold arm_failure. calm_down. Qed.
Lemma inert_ensure_conn : inert (ensure_conn self dialer).
Proof. unfold ensure_conn. calm_down. Qed.
Lemma inert_send_ignored f : inert (send_ignored f).
Proof. unfold send_ignored. calm_down. Qed.
#[local] Hint Resolve inert_pending_insert inert_drop_conn inert_arm_failure inert_ensure_conn inert_send_ignored : inert.

Lemma inert_submit f mid ack origin : inert (submit self dialer f mid ack origin).
Proof. unfold submit, refuse. calm_down. Qed.

Lemma inert_send_each c aid l : inert (send_each c aid l).
Proof. induction l as [|i l IH]; simpl; calm_down. Qed.
#[local] Hint Resolve inert_send_each : inert.
Lemma inert_request rx l : inert (request rx l).
Proof. unfold request, send_chunk_requests. calm_down. Qed.
#[local] Hint Resolve inert_request : inert.

Lemma inert_claim {T} aid status (k : bool → prog T) :
  (∀ b, inert (k b)) →
  inert (bind_action (daemon_ask (λ d, let '(t, won) := claim_terminal aid status (d_atts (dm_db d)) in
                                       (fset (of_db f_atts) t d, won))) k).
Proof.
  intros Hk. apply inert_bind; [|done]. apply inert_daemon_ask. intros d.
  destruct (claim_terminal _ _ _). apply grows_atts.
Qed.

Lemma lawful_Some i : lawful (Some i) → InboundLaws i.
Proof. done. Qed.
#[local] Hint Resolve lawful_Some : inert.

Lemma inert_finalize_rx ib rx : lawful ib → inert (finalize_rx self ib rx).
Proof. intros laws. unfold finalize_rx. apply inert_claim. intros b. calm_down. Qed.
Lemma inert_fail_rx ib rx reason : lawful ib → inert (fail_rx ib rx reason).
Proof. intros laws. unfold fail_rx. apply inert_claim. intros b. calm_down. Qed.
#[local] Hint Resolve inert_finalize_rx inert_fail_rx : inert.
Lemma inert_start_next ib q : lawful ib → inert (start_next self ib q).
Proof. intros laws. induction q as [|b q IH]; simpl; calm_down. Qed.
#[local] Hint Resolve inert_start_next : inert.
Lemma inert_advance ib : lawful ib → inert (advance self ib).
Proof. intros laws. unfold advance, maybe_start_next_rx. calm_down. Qed.
#[local] Hint Resolve inert_advance : inert.
Lemma inert_take_begins n i : InboundLaws i → inert (take_begins self n i).
Proof.
  intros Hi. induction n as [|n IH]; simpl; [apply inert_lift|].
  apply inert_bind; [apply inert_daemon_ask; auto with inert|intros [b|]]; calm_down.
Qed.
#[local] Hint Resolve inert_take_begins : inert.
Lemma inert_drain_begins ib i : lawful ib → InboundLaws i → inert (drain_begins self ib i).
Proof. intros laws Hi. unfold drain_begins. calm_down. Qed.
#[local] Hint Resolve inert_drain_begins : inert.
Lemma inert_refill : inert refill.
Proof. unfold refill. calm_down. Qed.
Lemma inert_check_timeouts ib : lawful ib → inert (check_timeouts self ib).
Proof. intros laws. unfold check_timeouts. calm_down. Qed.
#[local] Hint Resolve inert_refill inert_check_timeouts : inert.

Lemma inert_paced_dial f (fail : prog unit) :
  (∀ x s, p_daemon (fset f x s) = p_daemon s) → inert fail → inert (paced_dial self dialer f fail).
Proof.
  intros Hf Hfail. assert (∀ x, inert (assign f x)) as Hset by (intros x s; cbn; rewrite Hf; apply grows_refl).
  unfold paced_dial, ladder_ready, climb, fresh_conn. calm_down.
Qed.

Lemma inert_chunk_tick ib : lawful ib → inert (chunk_tick self ib dialer has_store download_dir).
Proof.
  intros laws.
  unfold chunk_tick, work_pending. destruct (negb _); [apply inert_lift|]. apply inert_bind; [calm_down|intros p].
  apply inert_bind; [destruct p; [apply inert_paced_dial; [done|apply inert_lift]|apply inert_lift]|intros _].
  calm_down.
Qed.

Lemma inert_keepalive : inert on_keepalive_tick.
Proof. unfold on_keepalive_tick. calm_down. Qed.
Lemma inert_ctrl o : inert (on_ctrl o).
Proof. unfold on_ctrl, fresh_conn. calm_down. Qed.

Lemma inert_on_mls_app ib ct : lawful ib → inert (on_mls_app self ib has_store download_dir ct).
Proof.
  intros laws.
  unfold on_mls_app. apply inert_bind; [apply inert_touch|intros _]. destruct ib as [i|]; [|apply inert_lift].
  apply inert_bind; [apply inert_ask|intros fresh]. apply inert_bind; [apply inert_ask|intros now].
  apply inert_bind; [apply inert_daemon_ask; auto with inert|intros o]. calm_down.
Qed.
Lemma inert_on_mls_welcome ib w : lawful ib → inert (on_mls_welcome self ib w).
Proof.
  intros laws.
  unfold on_mls_welcome. apply inert_bind; [apply inert_touch|intros _]. destruct ib as [i|]; [|apply inert_lift].
  apply inert_bind; [apply inert_ask|intros now].
  apply inert_bind; [apply inert_daemon_ask; auto with inert|intros o]. calm_down.
Qed.
Lemma inert_chunk_request ib aid index : lawful ib → inert (on_chunk_request ib has_store aid index).
Proof. intros laws. unfold on_chunk_request. calm_down. Qed.
Lemma inert_take_chunk ib rx aid i ct : lawful ib → inert (take_chunk self ib has_store rx aid i ct).
Proof. intros laws. unfold take_chunk. calm_down. Qed.
#[local] Hint Resolve inert_take_chunk : inert.
Lemma inert_on_chunk ib aid i ct : lawful ib → inert (on_chunk self ib has_store download_dir aid i ct).
Proof. intros laws. unfold on_chunk. calm_down. Qed.
Lemma inert_on_chunk_nack ib aid r : lawful ib → inert (on_chunk_nack self ib has_store download_dir aid r).
Proof. intros laws. unfold on_chunk_nack. calm_down. Qed.
Lemma inert_on_attachment_complete ib aid : lawful ib → inert (on_attachment_complete ib has_store aid).
Proof. intros laws. unfold on_attachment_complete. calm_down. Qed.

(** Every frame but an acknowledgement. *)
Lemma inert_frame ib f :
  lawful ib → (∀ mid, f ≠ Ack mid) → inert (on_frame self ib has_store download_dir f).
Proof.
  intros laws.
  intros Hf. destruct f; simpl; try (intros s; apply grows_refl); try done; try (by destruct (Hf id));
    auto using inert_on_mls_app, inert_on_mls_welcome, inert_chunk_request, inert_on_chunk, inert_on_chunk_nack,
      inert_on_attachment_complete; unfold on_closed; calm_down.
Qed.

(** ** What becomes of the queued messages *)

(** [acks]: the ids the peer acknowledged; [site]: the mailboxes peers have. *)
Record carried (acks : bytes → Prop) (site : bytes → string → Prop) (d d' : daemon) : Prop := {
  c_rows : ∀ r, r ∈ queued d →
    still_queued r d' ∨ in_a_mailbox site r d d' ∨ (ob_target r = self ∧ acks (ob_message_id r));
  c_derived : ∀ r', r' ∈ queued d' → ∃ r, r ∈ queued d ∧ ob_id r' = ob_id r ∧ same_message r r';
  c_ids : NoDup (ob_id <$> queued d) → NoDup (ob_id <$> queued d');
  c_out : ∃ outs, handed_out d d' outs;
  c_events : ∃ evs, announced d d' evs
}.

Lemma grows_carried acks site d d' : grows d d' → carried acks site d d'.
Proof.
  intros (Ho & Hu & evs & He). split; unfold queued; rewrite ?Ho; try done.
  - intros r Hr. left. exists r. unfold queued. rewrite Ho. split; [done|apply same_message_refl].
  - intros r Hr. exists r. split_and!; [done..|apply same_message_refl].
  - exists []. unfold handed_out. by rewrite app_nil_r.
  - by exists evs.
Qed.

Lemma carried_refl acks site d : carried acks site d d.
Proof. apply grows_carried, grows_refl. Qed.

Lemma carried_trans acks site d1 d2 d3 : carried acks site d1 d2 → carried acks site d2 d3 → carried acks site d1 d3.
Proof.
  intros [R1 D1 I1 O1 E1] [R2 D2 I2 O2 E2]. split; [|..|by eapply handed_out_trans|by eapply announced_trans]; eauto.
  - destruct O1 as [outs1 O1], E1 as [evs1 E1], O2 as [outs2 O2], E2 as [evs2 E2].
    intros r Hr. destruct (R1 r Hr) as [(r' & Hr' & Hs)|[Hin|?]]; [|right; left; by eapply in_a_mailbox_before|auto].
    destruct (R2 r' Hr') as [(r3 & Hr3 & Hs')|[Hin|[H1 H2]]].
    + left. exists r3. split; [done|]. by eapply same_message_trans.
    + right. left. by eapply in_a_mailbox_after.
    + right. right. destruct Hs as [Ht Hm _]. by rewrite <- Ht, <- Hm.
  - intros r' Hr'. destruct (D2 r' Hr') as (r2 & Hr2 & Hid2 & Hs2). destruct (D1 r2 Hr2) as (r1 & Hr1 & Hid1 & Hs1).
    exists r1. split_and!; [done|congruence|by eapply same_message_trans].
Qed.

Lemma carried_weaken (acks acks' : bytes → Prop) (site site' : bytes → string → Prop) d d' :
  (∀ mid, acks mid → acks' mid) → (∀ peer onion, site peer onion → site' peer onion) →
  carried acks site d d' → carried acks' site' d d'.
Proof.
  intros Ha Hsite [R ? ? ? ?]. split; try done. intros r Hr. destruct (R r Hr) as [?|[(o & outs & evs & Hs & ?)|[? ?]]]; auto.
  right. left. exists o, outs, evs. auto.
Qed.

Abbreviation sites d := (mailbox_of (d_contacts (dm_db d))).

(** A sweep that works at any time gives up on no message. *)
Lemma swept_carried {scheme : SignatureScheme} (me : IdentityKey) acks d d' :
  (∀ now, swept me now d d') → carried acks (sites d) d d'.
Proof.
  intros H. destruct (H 0) as [_ D I _ _ O E _]. split; try done. intros r Hr.
  set (now := default 0 (envelope_ts (ob_message_id r) (history d))).
  destruct (sw_accounted _ _ _ _ (H now) r Hr) as [?|[?|[(_ & ts & Hts & Hage) _]]]; [by left|right; by left|].
  unfold now in Hage. rewrite Hts in Hage. cbn in Hage. unfold i64_saturating_sub in Hage. rewrite Z.sub_diag in Hage.
  unfold i64_clamp, DIRECT_EXPIRY_MS, REPLAY_WINDOW_MS in Hage. by widths.
Qed.

(** The outbox as the program keeps it. *)
Record tidy (d : daemon) : Prop := {
  tidy_ids : NoDup (ob_id <$> queued d);
  tidy_one : one_ciphertext d;
  tidy_len : ∀ r, r ∈ queued d → len (ob_message_id r) = 16
}.

Lemma carried_tidy acks site d d' : carried acks site d d' → tidy d → tidy d'.
Proof.
  intros [_ D I _ _] [Hi Ho Hl]. split; [by apply I| |].
  - intros r1' r2' H1 H2 Ht Hm. destruct (D _ H1) as (r1 & ? & _ & [Ht1 Hm1 Hb1]).
    destruct (D _ H2) as (r2 & ? & _ & [Ht2 Hm2 Hb2]). rewrite Hb1, Hb2. apply Ho; congruence.
  - intros r' Hr'. destruct (D _ Hr') as (r & ? & _ & [_ Hm _]). rewrite Hm. by apply Hl.
Qed.

(** The deposits of a program go to the mailboxes known when it starts. *)
Definition carries {T} (acks : bytes → Prop) (c : prog T) : Prop :=
  ∀ s, tidy (p_daemon s) → carried acks (sites (p_daemon s)) (p_daemon s) (p_daemon (c s).1).

Lemma inert_carries {T} acks (c : prog T) : inert c → carries acks c.
Proof. intros H s _. by apply grows_carried. Qed.

(** Programs that leave the contacts as they are. *)
Definition steady {T} (c : prog T) : Prop :=
  ∀ s, d_contacts (dm_db (p_daemon (c s).1)) = d_contacts (dm_db (p_daemon s)).

Lemma steady_let {T U} (c : prog T) (k : T → prog U) : steady c → (∀ t, steady (k t)) → steady (bind_action c k).
Proof.
  intros Hc Hk s. unfold bind_action. specialize (Hc s). destruct (c s) as [s1 [t|e]]; [|done]. by rewrite (Hk t s1).
Qed.
Lemma steady_ask {T} (g : W → W * T) : steady (ask g).
Proof. intros s. unfold ask, modify_get. cbn. by destruct (g (p_world s)). Qed.

Ltac keep_contacts :=
  repeat match goal with
  | |- steady (bind_action _ _) => apply steady_let; [|intros ?]
  | |- steady (ask _) => apply steady_ask
  | |- steady (match ?x with _ => _ end) => destruct x
  | |- steady _ => solve [by intros ?]
  end.

Lemma steady_dial : steady (paced_dial self dialer f_outbox_dial arm_failure).
Proof. unfold paced_dial, ladder_ready, ensure_conn, climb, fresh_conn, touch, arm_failure. keep_contacts. Qed.
Lemma steady_resend now due : steady (resend now due).
Proof.
  induction due as [|e due IH]; cbn [resend]; [by intros s|]. unfold drop_conn, drain_pending, arm_failure, pending_insert, resolve, touch.
  keep_contacts; exact IH.
Qed.

Lemma carries_bind {T U} acks (c : prog T) (k : T → prog U) :
  carries acks c → steady c → (∀ t, carries acks (k t)) → carries acks (bind_action c k).
Proof.
  intros Hc Hst Hk s Hs. specialize (Hc s Hs). specialize (Hst s). unfold bind_action. destruct (c s) as [s1 [t|e]]; [|done].
  cbn [fst] in *. eapply carried_trans; [exact Hc|]. rewrite <- Hst. apply Hk. by eapply carried_tidy.
Qed.

(** Any identity will do for a pass that gives up on nothing. *)
Lemma reschedule_carried acks id attempts now factor d :
  carried acks (sites d) d (update f_outbox (reschedule id attempts now factor) d).
Proof.
  apply (swept_carried (scheme := sample_scheme) (mkIdentityKey [])). intros now'.
  unfold reschedule, reschedule_row. set (next := i64_saturating_add _ _).
  set (f := λ r, if decide (ob_id r = id) then mkOutboxRow (ob_id r) (ob_target r) (ob_payload r) (ob_message_id r)
    (ob_attempts r + 1) next (ob_target_kind r) (ob_mailbox_id r) else r).
  apply (swept_map _ now' d _ f); try done. intros r. unfold f. by case_decide.
Qed.

Lemma carries_resend acks now due : carries acks (resend now due).
Proof.
  induction due as [|e due IH]; simpl; [apply inert_carries, inert_lift|].
  apply carries_bind; [by apply inert_carries; intros s; apply grows_refl|done|intros m]. case_decide; [done|].
  apply carries_bind; [by apply inert_carries; intros s; apply grows_refl|done|intros [c|]]; [|apply inert_carries, inert_lift].
  apply carries_bind; [apply inert_carries, inert_ask|apply steady_ask|intros []]; cbn [negb].
  2: { apply inert_carries, inert_bind; [apply inert_drop_conn|intros _; apply inert_arm_failure]. }
  apply carries_bind; [apply inert_carries, inert_ask|apply steady_ask|intros at_].
  apply carries_bind; [apply inert_carries, inert_pending_insert|unfold pending_insert, resolve; keep_contacts|intros _].
  apply carries_bind; [apply inert_carries, inert_ask|apply steady_ask|intros factor].
  apply carries_bind; [intros s _; apply reschedule_carried|by intros s|intros _].
  apply carries_bind; [apply inert_carries, inert_touch|unfold touch; keep_contacts|intros _].
  apply carries_bind; [apply inert_carries; intros s; apply grows_refl|by intros s|done].
Qed.

(** An entry read from the outbox: every row of its message holds its bytes. *)
Definition entry_of (d : daemon) (e : OutboxEntry) : Prop :=
  ∀ r, r ∈ queued d → ob_target r = self → ob_message_id r = oe_message_id e → ob_payload r = oe_payload e.

Lemma carried_entry acks site d d' e : carried acks site d d' → entry_of d e → entry_of d' e.
Proof.
  intros [_ D _ _ _] H r' Hr' Ht Hm. destruct (D r' Hr') as (r & Hr & _ & [Ht' Hm' ->]). apply H; congruence.
Qed.

Lemma due_entries now d : tidy d → Forall (entry_of d) (entries_due_direct_for self now 32 (d_outbox (dm_db d))).
Proof.
  intros [_ Ho Hl]. apply Forall_forall. intros e. unfold entries_due_direct_for, due_direct_for.
  rewrite <- list_fmap_compose. intros (r & -> & Hr)%list_elem_of_fmap.
  apply limit_elem_of, elem_of_order_by, list_elem_of_filter in Hr as [(_ & Ht & _) Hr].
  intros r' Hr' Ht'. cbn. rewrite decide_True by (by apply Hl). intros Hm.
  apply Ho; [done|done|congruence|done].
Qed.

Lemma fallback_carried acks accepts now e d :
  tidy d → entry_of d e → carried acks (sites d) d (run_mailbox_fallback accepts now self (oe_message_id e) (oe_payload e) d).
Proof.
  intros [Hi _ _] He. apply (swept_carried (scheme := sample_scheme) (mkIdentityKey [])). intros now'.
  unfold run_mailbox_fallback. destruct (list_for_contact _ _) as [[|o onions]|err] eqn:El; [apply swept_refl| |apply swept_refl].
  destruct (find_direct_id _ _ _) as [row_id|] eqn:Ef; [|apply swept_refl].
  apply fallback_walk_swept; [intros t; by apply rotation_sites|]. intros r Hr Hrid. unfold find_direct_id in Ef.
  destruct (head _) as [r0|] eqn:Eh; [|done]. injection Ef as <-. apply head_filter_elem in Eh as [(Ht & Hm & _) Hr0].
  assert (r = r0) as -> by (by eapply (key_unique ob_id)). split_and!; [done..|]. by apply He.
Qed.

Lemma fallback_contacts accepts now mid ct d :
  d_contacts (dm_db (run_mailbox_fallback accepts now self mid ct d)) = d_contacts (dm_db d).
Proof.
  unfold run_mailbox_fallback. destruct (list_for_contact _ _) as [[|o onions]|err]; [done| |done].
  destruct (find_direct_id _ _ _) as [row_id|]; [|done]. generalize ((λ io : Z * string, (io.2, accepts io.1)) <$> rotation (o :: onions)
    (pick_first_mailbox_index mid (len (o :: onions)))) as l.
  intros l. revert d. induction l as [|[onion acc] l IH]; intros d; [done|]. cbn [fallback_walk]. unfold on.
  destruct (ensure_theirs _ _ _) as [m [id|e]]; [|by rewrite IH]. destruct (set_mailbox_target _ _ _) as [t [u|e]]; [|by rewrite IH].
  destruct acc; [done|by rewrite IH].
Qed.
Lemma steady_fall_back due : steady (fall_back self due).
Proof.
  induction due as [|e due IH]; cbn [fall_back]; [by intros s|].
  apply steady_let; [apply steady_ask|intros accepts]. apply steady_let; [apply steady_ask|intros now].
  apply steady_let; [|done]. intros s. apply fallback_contacts.
Qed.
Lemma steady_maybe_fall_back : steady (maybe_fall_back self direct_timeout fallback).
Proof.
  unfold maybe_fall_back, due_rows. destruct (negb _); [by intros s|]. apply steady_let; [by intros s|intros [t|]]; [|by intros s].
  apply steady_let; [apply steady_ask|intros now]. case_decide; [|by intros s]. apply steady_let; [apply steady_ask|intros now'].
  apply steady_let; [by intros s|intros due]. apply steady_let; [apply steady_fall_back|by intros _ s].
Qed.

Lemma carries_fall_back acks due s :
  tidy (p_daemon s) → Forall (entry_of (p_daemon s)) due →
  carried acks (sites (p_daemon s)) (p_daemon s) (p_daemon (fall_back self due s).1).
Proof.
  revert s. induction due as [|e due IH]; intros s Hs Hdue; simpl; [apply carried_refl|].
  apply Forall_cons in Hdue as [He Hdue]. unfold bind_action at 1, ask at 1, modify_get at 1. cbn [fget f_world].
  destruct (io_accepts _ _) as [w1 accepts]. unfold bind_action at 1, ask at 1, modify_get at 1. cbn [fget f_world].
  destruct (io_now_s _) as [w2 now]. unfold bind_action at 1, daemon_do at 1, modify at 1.
  set (s1 := fset f_daemon _ _).
  assert (carried acks (sites (p_daemon s)) (p_daemon s) (p_daemon s1)) as H1 by (by apply (fallback_carried acks accepts now e)).
  eapply carried_trans; [exact H1|].
  assert (d_contacts (dm_db (p_daemon s1)) = d_contacts (dm_db (p_daemon s))) as <- by apply fallback_contacts.
  apply IH; [by eapply carried_tidy|]. eapply Forall_impl; [exact Hdue|]. intros e'. by eapply carried_entry.
Qed.

Lemma carries_maybe_fall_back acks : carries acks (maybe_fall_back self direct_timeout fallback).
Proof.
  unfold maybe_fall_back. destruct (negb _); [apply inert_carries, inert_lift|].
  apply carries_bind; [by apply inert_carries; intros s; apply grows_refl|by intros s|intros [t|]]; [|apply inert_carries, inert_lift].
  apply carries_bind; [apply inert_carries, inert_ask|apply steady_ask|intros now]. case_decide; [|apply inert_carries, inert_lift].
  apply carries_bind; [apply inert_carries, inert_ask|apply steady_ask|intros now'].
  intros s Hs. unfold bind_action at 1, due_rows, read. cbn [fget f_daemon].
  pose proof (carries_fall_back acks _ s Hs (due_entries now' (p_daemon s) Hs)) as Hf.
  unfold bind_action. by destruct (fall_back _ _ _) as [s1 [[]|e]].
Qed.

Lemma carries_retry_tick acks ib :
  lawful ib → carries acks (on_retry_tick self ib dialer direct_timeout fallback has_store download_dir).
Proof.
  intros laws. unfold on_retry_tick.
  apply carries_bind; [apply inert_carries; unfold evict_overdue; calm_down|unfold evict_overdue; keep_contacts|intros _].
  apply carries_bind; [apply inert_carries, inert_ask|apply steady_ask|intros now].
  apply carries_bind; [apply inert_carries; unfold due_rows; calm_down|by intros s|intros due].
  apply carries_bind; [by apply inert_carries; intros s; apply grows_refl|by intros s|intros m].
  apply carries_bind; [apply inert_carries; case_decide; [by apply inert_paced_dial; [|apply inert_arm_failure]|apply inert_lift]
    |case_decide; [apply steady_dial|by intros s]|intros _].
  apply carries_bind; [apply carries_resend|apply steady_resend|intros _].
  apply carries_bind; [apply carries_maybe_fall_back|apply steady_maybe_fall_back|intros _]. by apply inert_carries, inert_chunk_tick.
Qed.

(** An acknowledgement removes the peer's rows of that message, and is reported
    only if there was one. *)
Lemma ack_daemon ib mid s :
  ∃ now, p_daemon (on_ack self ib mid s).1 =
    let '(t, hit) := ack self mid (d_outbox (dm_db (p_daemon s))) in
    let d' := fset (of_db f_outbox) t (p_daemon s) in
    match hit, ib with true, Some i => in_message_delivered i mid now d' | _, _ => d' end.
Proof.
  unfold on_ack. unfold bind_action at 1, look, read.
  set (c := match _ with Some p => _ | None => _ end).
  assert (∃ s1, c s = (s1, Ok tt) ∧ p_daemon s1 = p_daemon s) as (s1 & Hc & Hd).
  { unfold c. destruct (_ !! mid) as [p|]; [|by exists s]. unfold resolve. destruct (ps_ack p); by eexists. }
  unfold bind_action at 1. rewrite Hc. unfold bind_action at 1, daemon_ask, modify_get. cbn [fget f_daemon]. rewrite Hd.
  destruct (ack _ _ _) as [t hit]. unfold bind_action at 1, ask, modify_get. cbn [fget f_world].
  destruct (io_now_s _) as [w now]. exists now. unfold bind_action, touch, ask, modify_get, tell. cbn -[of_db].
  by destruct hit; [destruct ib as [i|]|]; cbn -[of_db]; unfold bind_action; cbn -[of_db]; destruct (io_instant w).
Qed.

Lemma carries_ack ib mid : lawful ib → carries (λ m, m = mid) (on_ack self ib mid).
Proof.
  intros laws s _. destruct (ack_daemon ib mid s) as [now ->]. unfold ack, ack_by_message_id, t_delete.
  set (t := mkTable _ _). set (d := p_daemon s). set (d' := fset (of_db f_outbox) t d).
  assert (carried (λ m, m = mid) (sites d) d d') as Hd.
  { assert (queued d' = filter (λ r, ¬ (ob_target r = self ∧ ob_message_id r = mid)) (queued d)) as Hq by done.
    split; rewrite ?Hq; try done.
    - intros r Hr. destruct (decide (ob_target r = self ∧ ob_message_id r = mid)); [auto|].
      left. exists r. rewrite Hq. split; [by apply list_elem_of_filter|apply same_message_refl].
    - intros r' [_ Hr']%list_elem_of_filter. exists r'. split_and!; [done..|apply same_message_refl].
    - intros Hn. by apply NoDup_fmap_filter.
    - exists []. unfold handed_out. by rewrite app_nil_r.
    - exists []. unfold announced. by rewrite app_nil_r. }
  destruct (bool_decide _); [|done]. destruct ib as [i|]; [|done].
  eapply carried_trans; [exact Hd|]. by apply grows_carried, (law_delivered (InboundLaws := laws)).
Qed.
End actor_outbox.

(** ** Runs *)

Section runs.
Context {W C : Type} {io : PeerIo W C} {sha : Sha256} {b2 : Blake2s} {de_card : Deserialize ContactCard}.
Context (self : bytes) (inbound : option InboundDispatch).
Context (dialer : bool) (direct_timeout : Z) (fallback has_store download_dir : bool).
Implicit Types (s : peer W C) (evs : list (actor_event (C := C))).

Abbreviation branch := (branch self inbound dialer direct_timeout fallback has_store download_dir).
Abbreviation actor_run := (actor_run self inbound dialer direct_timeout fallback has_store download_dir).

Definition acked_by evs (mid : bytes) : Prop := Ev_Frame (Some (Ack mid)) ∈ evs.

Lemma branch_carries ev : lawful inbound → carries self (acked_by [ev]) (branch ev).
Proof.
  intros laws. destruct ev as [[j|]|[w|]| | |c|[f|]]; cbn [PeerActor.branch on_job on_welcome_job];
    try (apply inert_carries; apply inert_submit); try (apply inert_carries, inert_lift).
  - by apply carries_retry_tick.
  - apply inert_carries, inert_keepalive.
  - apply inert_carries, inert_ctrl.
  - assert ((∃ mid, f = Ack mid) ∨ ∀ mid, f ≠ Ack mid) as [[mid ->]|Hf] by (destruct f; eauto; by right).
    + intros s Hs. eapply carried_weaken; [|done|by apply carries_ack]. intros m ->. by apply list_elem_of_here.
    + by apply inert_carries, inert_frame.
  - apply inert_carries. unfold on_closed. apply inert_bind; [apply inert_drop_conn|intros _ s; apply grows_refl].
Qed.

Lemma leave_daemon s : p_daemon (leave s).1 = p_daemon s.
Proof. unfold leave, bind_action, look, read. cbn. by destruct (ac_conn (p_actor s)). Qed.

(** The mailboxes that the contacts of the daemon named at some point of the run. *)
Definition named_in_run s0 evs (peer : bytes) (onion : string) : Prop := ∃ evs1 evs2 s1,
  evs = evs1 ++ evs2 ∧ actor_run s0 evs1 s1 true ∧ mailbox_of (d_contacts (dm_db (p_daemon s1))) peer onion.

Lemma run_carries s0 evs s b :
  lawful inbound → tidy (p_daemon s0) → actor_run s0 evs s b →
  carried self (acked_by evs) (named_in_run s0 evs) (p_daemon s0) (p_daemon s).
Proof.
  intros laws H0. induction 1 as [|evs s ev s' b Hrun IH Hready Hit]; [apply carried_refl|].
  eapply carried_trans.
  - eapply carried_weaken; [| |exact IH].
    + intros mid Hm. apply elem_of_app. by left.
    + intros peer onion (evs1 & evs2 & s1 & -> & Hr & Hs). exists evs1, (evs2 ++ [ev]), s1. by rewrite (assoc_L (++)).
  - eapply (carried_weaken _ (acked_by [ev]) _ (mailbox_of (d_contacts (dm_db (p_daemon s))))).
    + intros mid Hm. apply elem_of_app. by right.
    + intros peer onion Hs. by exists evs, [ev], s.
    + pose proof (branch_carries ev laws s (carried_tidy _ _ _ _ _ IH H0)) as Hb. unfold iteration in Hit.
      destruct (branch ev s) as [s1 [[]|[|]]]; try (injection Hit as <- _; exact Hb).
      injection Hit as <- _. by rewrite leave_daemon.
Qed.

(** C10: the actor loses no message.  In every run of a peer's actor from a tidy
    outbox, whatever the peer sends, however connections break and whenever the timers
    fire, a message that was queued is still queued with the same bytes; or was
    deposited in the run at a mailbox of its recipient, one that the recipient's card
    named at some point of the run, and announced so; or is for this peer and was
    acknowledged by it.  And an acknowledgement for which nothing is queued changes
    nothing: a peer cannot forge a delivery receipt. *)
Theorem actor_loses_nothing s0 evs s b r :
  lawful inbound → tidy (p_daemon s0) → actor_run s0 evs s b → r ∈ queued (p_daemon s0) →
  (still_queued r (p_daemon s) ∨ in_a_mailbox (named_in_run s0 evs) r (p_daemon s0) (p_daemon s) ∨
     (ob_target r = self ∧ Ev_Frame (Some (Ack (ob_message_id r))) ∈ evs)) ∧
  ∀ mid, (∀ r', r' ∈ queued (p_daemon s) → ¬ (ob_target r' = self ∧ ob_message_id r' = mid)) →
    p_daemon (on_ack self inbound mid s).1 = p_daemon s.
Proof.
  intros laws H0 Hrun Hr. split; [by apply (c_rows _ _ _ _ _ (run_carries s0 evs s b laws H0 Hrun))|].
  intros mid Hno. destruct (ack_daemon self inbound mid s) as [now ->]. unfold ack, ack_by_message_id, t_delete.
  change (t_rows (d_outbox (dm_db (p_daemon s)))) with (queued (p_daemon s)).
  rewrite (filter_none _ (queued (p_daemon s))) by done. rewrite filter_all by done. cbn -[of_db].
  by destruct (p_daemon s) as [[? ? ? [] ? ? ? ? ? ? ?] ? ? ? ?].
Qed.
End runs.

(** ** Witness: Bob's message to Alice, acknowledged after a retry tick *)

Import SampleInstances ActorSamples.

Definition bob_actor : peer script nat := idle_actor (mkScript 0 [] [] []) bob_sent.
Definition bob_events : list (actor_event (C := nat)) := [Ev_RetryTick; Ev_Frame (Some (Ack (fill 16 Byte.x08)))].
Definition bob_inbound : option InboundDispatch := Some (daemon_inbound (Some bob) true).
#[local] Abbreviation bob_after := (exec (public alice) bob_inbound true 60000 true true true bob_events bob_actor).

Lemma bob_queue : ∃ r, queued (p_daemon bob_actor) = [r] ∧ ob_message_id r = fill 16 Byte.x08.
Proof. eexists. vm_compute. repeat split. Qed.

Lemma bob_tidy : tidy (p_daemon bob_actor).
Proof.
  destruct bob_queue as (r & Hq & Hm). split; unfold one_ciphertext; rewrite Hq; [apply NoDup_singleton|..].
  - intros r1 r2 ->%list_elem_of_singleton ->%list_elem_of_singleton. done.
  - intros x ->%list_elem_of_singleton. rewrite Hm. reflexivity.
Qed.

Lemma bob_after_queue : option_map (λ p, queued (p_daemon p.1)) bob_after = Some [].
Proof. vm_compute. reflexivity. Qed.

Lemma actor_loses_nothing_witness :
  ∃ (r : outbox_row) (s : peer script nat), queued (p_daemon bob_actor) = [r] ∧ queued (p_daemon s) = [] ∧
    (still_queued r (p_daemon s) ∨
       in_a_mailbox (named_in_run (public alice) bob_inbound true 60000 true true true bob_actor bob_events) r
         (p_daemon bob_actor) (p_daemon s) ∨
       (ob_target r = public alice ∧ Ev_Frame (Some (Ack (ob_message_id r))) ∈ bob_events)) ∧
    p_daemon (on_ack (public alice) bob_inbound (fill 16 Byte.x08) s).1 = p_daemon s.
Proof.
  destruct bob_queue as (r & Hq & _). pose proof bob_after_queue as Hs.
  destruct bob_after as [[s b]|] eqn:E; [|discriminate]. injection Hs as Hs.
  exists r, s. split; [exact Hq|]. split; [exact Hs|].
  destruct (actor_loses_nothing (public alice) bob_inbound true 60000 true true true bob_actor bob_events s b r) as [H1 H2].
  - apply daemon_inbound_laws.
  - exact bob_tidy.
  - exact (exec_start (public alice) bob_inbound true 60000 true true true bob_actor bob_events s b E).
  - rewrite Hq. by apply list_elem_of_singleton.
  - split; [exact H1|]. apply H2. rewrite Hs. intros r' Hr'. destruct (not_elem_of_nil _ Hr').
Defined.
