(* ===== verification/PeerActorTimers.v ===== *)
(** * PeerActorTimers: the peer actor's ticks, and two of its faults

    With a working connection a retry tick leaves no due message waiting.  The
    keepalive tick can close a connection that was just made, and the end-of-transfer
    frame is believed whoever sends it. *)

From S2P Require Import Prelude Text CoreErrors Framing Float64 Backoff Sql Outbox MailboxProtocol PeerFrame Attachments.
From S2P Require Import ChunkTransfer AttachmentRepo Identity Daemon Inbound Delivery PeerActor PeerActorProps Samples Scenario.

Section timers.
Context {W C : Type} {io : PeerIo W C} {sha : Sha256} {b2 : Blake2s} {de_card : Deserialize ContactCard}.
Context (self : bytes) (inbound : option InboundDispatch).
Context (dialer : bool) (direct_timeout : Z) (fallback has_store download_dir : bool).
Implicit Types (s : peer W C) (k : core C).

Abbreviation prog T := (action (peer W C) T flow).
Abbreviation iteration := (iteration self inbound dialer direct_timeout fallback has_store download_dir).

(** ** The retry tick *)

(** In flight before the tick, which began at [at_], and not overdue; or sent since
    then from the outbox. *)
Definition covered (m : gmap bytes PendingSend) (at_ : Z) (mid : bytes) k : Prop :=
  ∃ p, k_pending k !! mid = Some p ∧
    ((m !! mid = Some p ∧ ¬ overdue at_ (mid, p)) ∨ ∃ t, p = mkPendingSend None t From_Outbox ∧ at_ ≤ t).

(** What remains in flight is what was and is not overdue, or was sent since. *)
Definition evicted (m : gmap bytes PendingSend) (at_ : Z) k : Prop :=
  ∀ mid, is_Some (k_pending k !! mid) → covered m at_ mid k.

(** The connection is up and the messages [mids] are covered. *)
Definition all_covered (c : C) m (at_ : Z) (mids : list bytes) k : Prop :=
  k_conn k = Some c ∧ ∀ mid, mid ∈ mids → covered m at_ mid k.

(** [Instant::now] does not go back: not from one reading to the next, and not over
    a send or another request to the world. *)
Definition instant (w : W) : Z := (io_instant w).2.
Definition monotonic : Prop :=
  ∀ w, instant w ≤ instant (io_instant w).1 ∧ instant w ≤ instant (io_now_ms w).1 ∧ instant w ≤ instant (io_factor w).1 ∧
    ∀ c f, instant w ≤ instant (io_send c f w).1.

Section working.
Context (sends : ∀ c f w, (io_send c f w).2 = true) (clock : monotonic).

(** A due row that is not in flight is sent. *)
Lemma resend_one c now e due s :
  ac_conn (p_actor s) = Some c → ac_pending (p_actor s) !! oe_message_id e = None →
  ∃ s' t, resend now (e :: due) s = resend now due s' ∧ ac_conn (p_actor s') = Some c ∧
    ac_pending (p_actor s') = <[oe_message_id e := mkPendingSend None t From_Outbox]> (ac_pending (p_actor s)) ∧
    instant (p_world s) ≤ t ∧ instant (p_world s) ≤ instant (p_world s').
Proof using sends clock.
  intros Hc Hp. set (w0 := p_world s). destruct (io_send c (MlsApp (oe_payload e)) w0) as [w1 b] eqn:E1.
  pose proof (sends c (MlsApp (oe_payload e)) w0) as Hb. rewrite E1 in Hb. cbn in Hb. subst b.
  destruct (io_instant w1) as [w2 t] eqn:E2, (io_factor w2) as [w3 factor] eqn:E3, (io_instant w3) as [w4 t'] eqn:E4.
  pose proof (clock w0) as (_ & _ & _ & H1). specialize (H1 c (MlsApp (oe_payload e))). rewrite E1 in H1. cbn in H1.
  pose proof (clock w1) as (H2 & _). rewrite E2 in H2. cbn in H2. pose proof (clock w2) as (_ & _ & H3 & _). rewrite E3 in H3. cbn in H3.
  pose proof (clock w3) as (H4 & _). rewrite E4 in H4. cbn in H4. assert (instant w1 = t) as Ht by (unfold instant; by rewrite E2).
  eexists _, t. split.
  - cbn [resend]. unfold bind_action at 1, look at 1, read at 1. change (id (fget f_inflight s)) with (ac_pending (p_actor s)).
    rewrite decide_False by (rewrite Hp; by intros [? [=]]).
    unfold bind_action at 1, look at 1, read at 1. change (id (fget f_conn s)) with (ac_conn (p_actor s)). rewrite Hc.
    unfold pending_insert, touch, look, read, assign, modify, ask, modify_get, daemon_do, bind_action. cbn -[resend update].
    fold w0. rewrite E1. cbn -[resend update]. rewrite E2. cbn -[resend update]. rewrite Hp. cbn -[resend update]. rewrite E3. cbn -[resend update].
    rewrite E4. cbn -[resend update]. reflexivity.
  - cbn. split_and!; [done|done|lia|lia].
Qed.

Lemma covered_insert m at_ mid mid' t k k' :
  k_pending k !! mid' = None → k_pending k' = <[mid' := mkPendingSend None t From_Outbox]> (k_pending k) → at_ ≤ t →
  covered m at_ mid k ∨ mid = mid' → covered m at_ mid k'.
Proof using Type.
  intros Hn Hk Ht. unfold covered. rewrite Hk. intros [(p & Hp & H)| ->]; [exists p|exists (mkPendingSend None t From_Outbox)].
  - rewrite lookup_insert_ne; [done|]. intros <-. congruence.
  - rewrite lookup_insert_eq. eauto.
Qed.

Lemma resend_covers c m at_ now due (done : list bytes) s :
  ac_conn (p_actor s) = Some c → evicted m at_ (core_of s) → at_ ≤ instant (p_world s) →
  (∀ mid, mid ∈ done → covered m at_ mid (core_of s)) →
  ∃ s', resend now due s = (s', Ok tt) ∧ all_covered c m at_ (done ++ (oe_message_id <$> due)) (core_of s').
Proof using sends clock.
  revert s done. induction due as [|e due IH]; intros s done Hc He Hat Hd.
  { exists s. split; [done|]. split; [done|]. by rewrite app_nil_r. }
  destruct (ac_pending (p_actor s) !! oe_message_id e) as [p|] eqn:Hp.
  - destruct (IH s (done ++ [oe_message_id e]) Hc He Hat) as (s' & Hr & Hs').
    { intros mid [?| ->%list_elem_of_singleton]%elem_of_app; [by apply Hd|]. apply He. cbn. rewrite Hp. eauto. }
    exists s'. rewrite <- (assoc_L (++)) in Hs'. split; [|done]. cbn [resend]. unfold bind_action at 1, look at 1, read at 1.
    change (id (fget f_inflight s)) with (ac_pending (p_actor s)). by rewrite decide_True by (rewrite Hp; eauto).
  - destruct (resend_one c now e due s Hc Hp) as (s1 & t & -> & Hc1 & Hp1 & Ht & Hw).
    assert (∀ mid, covered m at_ mid (core_of s) ∨ mid = oe_message_id e → covered m at_ mid (core_of s1)) as Hcov
      by (intros mid; apply (covered_insert m at_ mid _ t (core_of s) (core_of s1)); [done|done|lia]).
    destruct (IH s1 (done ++ [oe_message_id e]) Hc1) as (s' & Hr & Hs'); [|lia| |].
    + intros mid Hs. apply Hcov. cbn in Hs. rewrite Hp1 in Hs. apply lookup_insert_is_Some in Hs as [<-|[_ Hs]]; [by right|].
      left. by apply He.
    + intros mid [?| ->%list_elem_of_singleton]%elem_of_app; apply Hcov; [left; by apply Hd|by right].
    + exists s'. by rewrite <- (assoc_L (++)) in Hs'.
Qed.

Lemma fall_back_covers c m at_ mids :
  triple (all_covered c m at_ mids) (all_covered c m at_ mids) (maybe_fall_back self direct_timeout fallback) (λ _, all_covered c m at_ mids).
Proof using Type.
  unfold maybe_fall_back. destruct (negb _); [by intros s|]. eapply triple_bind; [apply triple_armed|].
  intros [t|]; [|by intros s [? _]]. eapply triple_pre with (P := all_covered c m at_ mids); [|by intros ? [? _]].
  eapply triple_bind; [apply triple_ask|]. intros now. case_decide; [|by intros s].
  eapply triple_bind; [apply triple_ask|]. intros now'.
  eapply triple_bind; [apply triple_quiet; [apply quiet_due_rows|done]|]. intros due.
  eapply triple_bind; [apply triple_quiet; [apply quiet_fall_back|done]|]. intros [].
  eapply triple_post; [apply triple_set_armed|]. by intros [] ? (k & Hk & ->).
Qed.

Lemma chunk_tick_covers c m at_ mids :
  triple (all_covered c m at_ mids) (all_covered c m at_ mids) (chunk_tick self inbound dialer has_store download_dir)
    (λ _, all_covered c m at_ mids).
Proof using Type.
  unfold chunk_tick. destruct (negb _); [by intros s|].
  eapply triple_bind; [apply triple_quiet; [apply quiet_work_pending|done]|]. intros p.
  eapply triple_bind with (R := λ _, all_covered c m at_ mids).
  { destruct p; [|by intros s]. unfold paced_dial. eapply triple_bind; [apply triple_conn|].
    intros [c'|]; [by intros s [? _]|by intros s [[-> _] ?]]. }
  intros []. eapply triple_bind; [apply triple_quiet; [apply quiet_refill|done]|]. intros [].
  eapply triple_bind; [apply triple_quiet; [apply quiet_check_timeouts|done]|]. intros [].
  eapply triple_bind; [apply triple_quiet; [apply quiet_look|done]|]. intros o.
  destruct o, inbound; try (by intros s). by apply triple_quiet; [apply quiet_drain_begins|].
Qed.

Lemma evict_run s w1 at_ :
  io_instant (p_world s) = (w1, at_) →
  ∃ s1, evict_overdue s = (s1, Ok tt) ∧ p_world s1 = w1 ∧ p_daemon s1 = p_daemon s ∧
    ac_conn (p_actor s1) = ac_conn (p_actor s) ∧
    ac_pending (p_actor s1) = filter (λ kv, ¬ overdue at_ kv) (ac_pending (p_actor s)).
Proof using Type.
  intros Ei. unfold evict_overdue, bind_action, ask, modify_get. cbn. rewrite Ei. by eexists.
Qed.

End working.

(** ** The keepalive tick *)

(** A job leaves the wait for a pong as it was; when it ends with a connection,
    its message is in flight. *)
Lemma job_pong j s s' b :
  iteration (Ev_Job (Some j)) s = (s', b) →
  ac_awaiting_pong (p_actor s') = ac_awaiting_pong (p_actor s) ∧
  (is_Some (ac_conn (p_actor s')) → ∃ p, ac_pending (p_actor s') !! job_message_id j = Some p ∧ ps_ack p = job_ack j).
Proof.
  unfold PeerActor.iteration. cbn [PeerActor.branch on_job]. unfold submit, ensure_conn, refuse, pending_insert, touch,
    arm_failure, resolve, drop_conn, drain_pending, resolve_all, look, read, ask, modify_get.
  unfold bind_action, assign, modify, ret, lift. cbn.
  intros H. repeat (case_match; cbn in *; simplify_eq); cbn; try (split; [done|by intros [? ?]]);
    split; try done; intros [? ?]; first [eexists; split; [apply lookup_insert_eq|done] | congruence].
Qed.

(** The wait for a pong outlives its connection.  When a send fails while a
    pong is awaited, the next message dials a new connection but the wait goes on:
    the keepalive tick closes the new connection, on which no ping was sent, and
    the message just handed over is reported as torn down. *)
Theorem stale_pong_closes_fresh s t j1 s1 j2 s2 c s3 :
  ac_awaiting_pong (p_actor s) = Some t →
  iteration (Ev_Job (Some j1)) s = (s1, true) → ac_conn (p_actor s1) = None →
  iteration (Ev_Job (Some j2)) s1 = (s2, true) → ac_conn (p_actor s2) = Some c →
  t + PONG_DEADLINE ≤ (io_instant (io_instant (p_world s2)).1).2 →
  iteration Ev_KeepaliveTick s2 = (s3, true) →
  ac_conn (p_actor s3) = None ∧ ∀ n, job_ack j2 = Some n → (n, TornDown) ∈ ac_answers (p_actor s3).
Proof.
  intros Ht H1 _ H2 Hc Hnow H3. apply job_pong in H1 as [H1 _]. apply job_pong in H2 as [H2 Hp].
  destruct Hp as (p & Hp & Hack); [by rewrite Hc|]. rewrite H1, Ht in H2. clear H1 Ht.
  assert (core_of s3 = torn (core_of s2)) as Hs3.
  { unfold PeerActor.iteration, PeerActor.branch, on_keepalive_tick in H3.
    unfold bind_action at 1, look at 1, read at 1 in H3. cbn [fget f_conn of_actor id] in H3. rewrite Hc in H3.
    unfold bind_action at 1, look at 1, read at 1, bind_action at 1, ask at 1, modify_get at 1 in H3.
    cbn [fget f_world f_last_traffic of_actor id] in H3. destruct (io_instant (p_world s2)) as [w1 n1].
    case_decide; [by injection H3 as <-|].
    unfold bind_action at 1, look at 1, read at 1 in H3. cbn in H3. rewrite H2 in H3.
    unfold bind_action at 1, bind_action at 1, ask at 1, modify_get at 1 in H3. cbn in H3.
    cbn in Hnow. destruct (io_instant w1) as [w2 n2]. cbn in H3, Hnow.
    rewrite bool_decide_true in H3 by (unfold elapsed; lia). by injection H3 as <-. }
  split; [by apply (f_equal k_conn) in Hs3|]. intros n Hn.
  assert (ac_answers (p_actor s3) = k_answers (torn (core_of s2))) as -> by (by rewrite <- Hs3).
  cbn. apply elem_of_app. right. apply list_elem_of_fmap. exists n. split; [done|].
  unfold tickets. apply list_elem_of_omap. exists (job_message_id j2, p). split; [by apply elem_of_map_to_list|].
  cbn. congruence.
Qed.

(** ** The end of a transfer *)

(** The end of a transfer is believed whoever reports it.  An
    [AttachmentComplete] from any peer marks the attachment with that id complete
    and deletes its chunks, without a check that we are its sender or that the
    peer is its recipient: the sender of a file can thus have us delete the chunks
    we received, while the attachment counts as complete. *)
Theorem complete_frame_unchecked aid s row :
  att_find aid (d_atts (dm_db (p_daemon s))) = Some row → has_store = true →
  (∀ i, inbound = Some i → ∀ a n m d, let d' := in_attachment_progress i a n m d in
     dm_db d' = dm_db d ∧ dm_store d' = dm_store d) →
  let d' := p_daemon (iteration (Ev_Frame (Some (AttachmentComplete aid))) s).1 in
  status_of aid (d_atts (dm_db d')) = Some "complete" ∧ ∀ i, dm_store d' !! (aid, i) = None.
Proof.
  intros Hrow -> Hib d'.
  assert (∃ t, dm_db d' = fset f_atts (delete_for_attachment aid t) (dm_db (p_daemon s)) ∧
    dm_store d' = store_remove aid (dm_store (p_daemon s)) ∧ t = (set_status aid "complete" (d_atts (dm_db (p_daemon s)))).1)
    as (t & Hdb & Hst & Ht).
  { eexists. unfold d', PeerActor.iteration, PeerActor.branch, on_frame, on_attachment_complete, touch, ask, modify_get.
    unfold bind_action, daemon_do, modify, read, tell, assign, ret, lift. cbn -[set_status delete_for_attachment store_remove].
    destruct (io_instant (p_world s)) as [w now]. cbn -[set_status delete_for_attachment store_remove].
    destruct (att_get _ _) as [r|]; [|by split_and!]. destruct inbound as [i|]; [|by split_and!].
    destruct (Hib i eq_refl aid (as_u32 (row_total_chunks r)) (as_u32 (row_total_chunks r)) (update f_atts
      (delete_for_attachment aid) (fset f_store (store_remove aid (dm_store (p_daemon s)))
        (fset (of_db f_atts) (set_status aid "complete" (d_atts (dm_db (p_daemon s)))).1 (p_daemon s))))) as [E1 E2].
    cbn -[set_status delete_for_attachment store_remove] in *. by rewrite E1, E2. }
  rewrite Hdb, Hst. split.
  - subst t. cbn -[set_status]. unfold status_of, att_find, set_status, update_status. cbn [a_rows delete_for_attachment with_deposits].
    rewrite decide_True by (right; right; by left). cbn [fst with_rows a_rows].
    rewrite head_filter_fmap by (intros r; by case_decide). unfold att_find in Hrow. rewrite Hrow. cbn.
    apply head_filter_elem in Hrow as [Hid _]. by rewrite decide_True.
  - intros i. apply map_lookup_filter_None. right. intros x _ Hne. by apply Hne.
Qed.
End timers.

(** ** Witnesses *)

Import SampleInstances ActorSamples.

(** A scripted connection whose sends always succeed. *)
Definition reliable : PeerIo script nat := {|
  io_send c f w := (mkScript (sc_clock w) (sc_sends w) (sc_dials w) (sc_log w ++ [f]), true);
  io_close := io_close; io_dial := io_dial; io_instant := io_instant; io_now_ms := io_now_ms; io_now_s := io_now_s;
  io_factor := io_factor; io_accepts := io_accepts; io_random := io_random; io_stored := io_stored; io_order := io_order
|}.

Lemma reliable_monotonic : monotonic (io := reliable).
Proof. intros w. unfold instant. cbn. split_and!; intros; lia. Qed.

Definition waiting : peer script nat := idle_actor (mkScript 0 [] [] []) bob_sent.
#[local] Abbreviation after_tick :=
  (on_retry_tick (io := reliable) (public alice) (Some (daemon_inbound (Some bob) true)) true 60000 true true true waiting).
#[local] Abbreviation due_now := (entries_due_direct_for (public alice) 1000 32 (d_outbox (dm_db (p_daemon waiting)))).

Lemma due_one : ∃ e, due_now = [e].
Proof. eexists. vm_compute. reflexivity. Qed.


(** The first send fails, the second connection works; the clock moves on while
    the old pong is awaited. *)
Definition pinged : peer script nat :=
  fset f_awaiting_pong (Some 0) (idle_actor (mkScript 20000 [false] [] []) (start empty_db)).
#[local] Abbreviation turn := (iteration peer_key None true 60000 true true true).

Lemma stale_pong_closes_fresh_witness :
  let s1 := (turn (Ev_Job (Some (job 1 Byte.x01))) pinged).1 in
  let s2 := (turn (Ev_Job (Some (job 2 Byte.x02))) s1).1 in
  let s3 := (turn Ev_KeepaliveTick s2).1 in
  ac_conn (p_actor s2) = Some 7%nat ∧ ac_conn (p_actor s3) = None ∧ (2%nat, TornDown) ∈ ac_answers (p_actor s3).
Proof.
  intros s1 s2 s3. split; [vm_compute; reflexivity|].
  destruct (stale_pong_closes_fresh peer_key None true 60000 true true true pinged 0 (job 1 Byte.x01) s1 (job 2 Byte.x02) s2 7%nat s3)
    as [H1 H2]; try (vm_compute; reflexivity); [vm_compute; discriminate|].
  split; [exact H1|]. apply H2. reflexivity.
Defined.

(** A file received from the peer, all of its one chunk stored; the peer, its
    sender, announces the end of the transfer. *)
Definition file_id : bytes := fill 16 Byte.x06.
Definition received_file : peer script nat :=
  let d := start empty_db in
  let t := mkAttDb [mkAttRow file_id "in" [] 1 "complete" 0 (Some peer_key)] [mkChunkRow file_id 0 1] [] in
  idle_actor (mkScript 0 [] [] []) (fset f_store {[(file_id, 0) := [Byte.x01]]} (fset (of_db f_atts) t d)).

Lemma complete_frame_unchecked_witness :
  let s' := (turn (Ev_Frame (Some (AttachmentComplete file_id))) received_file).1 in
  dm_store (p_daemon received_file) !! (file_id, 0) = Some [Byte.x01] ∧
  status_of file_id (d_atts (dm_db (p_daemon s'))) = Some "complete" ∧ dm_store (p_daemon s') !! (file_id, 0) = None.
Proof.
  intros s'. split; [vm_compute; reflexivity|].
  destruct (complete_frame_unchecked peer_key None true 60000 true true true file_id received_file
    (mkAttRow file_id "in" [] 1 "complete" 0 (Some peer_key))) as [H1 H2]; [vm_compute; reflexivity|reflexivity|discriminate|].
  split; [exact H1|apply H2].
Defined.
