(* ===== verification/Conversation.v ===== *)
(** * Conversation: two daemons exchanging messages

    [SendCommands] on one daemon composed with [Inbound] on the other: two daemons
    that share a group send in any interleaving, the frames travel in order, and
    each direction is a first-in first-out channel.  The group protocol's promise
    is the class [MlsChannel]. *)

From S2P Require Import Prelude Text Framing SimpleCodec CoreErrors PeerFrame Outbox Sql MailboxProtocol Identity Contacts Messages.
From S2P Require Import Receiver Attachments ChunkTransfer AttachmentRepo Mls Invites FirstContact Mailboxes Api Daemon ContactCommands.
From S2P Require Import SendCommands MailboxClient Poll MailboxCommands Inbound InboundProps Samples Scenario SendProps.

(** ** What OpenMLS promises *)

(** [in_step s r]: the receiver [r] reads what the sender [s] encrypts next.  A
    member reads messages in the order they were encrypted; encrypting does not
    disturb what a member reads, nor reading what it encrypts; messages do not
    change the epoch; and a group is written through to its provider. *)
Class MlsChannel {om : OpenMls} : Type := {
  in_step : provider * MlsGroup → provider * MlsGroup → Prop;
  channel_next s r rng signer payload s' out b :
    in_step s r → om_create_message rng signer payload s = (s', Ok out) → om_serialize out = Ok b →
    ∃ m r', om_deserialize b = Ok (BodyPrivate m) ∧ om_process_message m r = (r', Ok (ApplicationMessage payload)) ∧
      in_step s' r';
  channel_receiver_sends s r rng signer payload r' out :
    in_step s r → om_create_message rng signer payload r = (r', Ok out) → in_step s r';
  channel_sender_receives s r m payload s' :
    in_step s r → om_process_message m s = (s', Ok (ApplicationMessage payload)) → in_step s' r;
  create_stored gid rng signer payload p g p' g' out :
    om_load gid p = Ok (Some g) → om_create_message rng signer payload (p, g) = ((p', g'), Ok out) →
    om_load gid p' = Ok (Some g') ∧ om_epoch g' = om_epoch g;
  process_stored gid m payload p g p' g' :
    om_load gid p = Ok (Some g) → om_process_message m (p, g) = ((p', g'), Ok (ApplicationMessage payload)) →
    om_load gid p' = Ok (Some g') ∧ om_epoch g' = om_epoch g
}.

(** A map of byte strings always serialises. *)
Class ProviderSerializes {ser : Serialize provider} : Prop :=
  provider_serializes (p : provider) : ∃ b, into_writer p = Ok b.

Section conversation.
Context {om : OpenMls} {scheme : SignatureScheme} {sha : Sha256} {b2 : Blake2s}.
Context {ser_p : Serialize provider} {de_p : Deserialize provider}.
Context {ser_env : Serialize Envelope} {de_env : Deserialize Envelope}.
Context {ser_card : Serialize ContactCard} {de_card : Deserialize ContactCard} {ser_body : Serialize ContactCardBody}.
Context {ser_man : Serialize AttachmentManifest} {de_man : Deserialize AttachmentManifest}.
Context {channel : MlsChannel} {total : ProviderSerializes}.
Context {law_p : CborRoundtrip provider} {law_env : CborRoundtrip Envelope}.

(** ** One daemon and its group *)

(** The group of the conversation as the daemon has it stored. *)
Record holds (gid peer : bytes) (d : daemon) (st : provider * MlsGroup) : Prop := {
  hd_linked : linked_group peer (d_contacts (dm_db d)) = Some gid;
  hd_wf : groups_wf (d_groups (dm_db d));
  hd_load : group_load gid (d_groups (dm_db d)) = Ok (Some (mkGroup om gid (Active (om_epoch st.2)) st.1 st.2));
  hd_inner : om_load gid st.1 = Ok (Some st.2);
  hd_epoch : om_epoch st.2 ≤ i64_max;
  hd_len : len gid = 32
}.

(** Saving the advanced group. *)
Lemma save_advanced gid peer d st st' :
  holds gid peer d st → om_load gid st'.1 = Ok (Some st'.2) → om_epoch st'.2 = om_epoch st.2 →
  ∃ t, group_save_in_tx (mkGroup om gid (Active (om_epoch st'.2)) st'.1 st'.2) (d_groups (dm_db d)) = Ok (t, tt) ∧
    groups_wf t ∧ group_load gid t = Ok (Some (mkGroup om gid (Active (om_epoch st'.2)) st'.1 st'.2)).
Proof.
  intros [_ Hwf _ _ He _] Hl Hep. set (g := mkGroup om gid (Active (om_epoch st'.2)) st'.1 st'.2).
  assert (∃ t, group_save_in_tx g (d_groups (dm_db d)) = Ok (t, tt)) as [t Ht].
  { unfold group_save_in_tx, snapshot. destruct (provider_serializes (g_provider g)) as [b ->]. cbn [map_err bind_result].
    unfold groups_put_in_tx. rewrite decide_True by (cbn; lia). cbn [bind_result]. case_decide; eauto. }
  exists t. split; [done|]. destruct (group_save_load g (d_groups (dm_db d)) t Hwf) as (Hwf' & Hload & _).
  - exact Hl.
  - unfold group_save. by apply transaction_Ok.
  - done.
Qed.

Definition history_keys (d : daemon) : list (option (bytes * bytes)) :=
  m_key <$> t_rows (messages (rd_messages (d_recv (dm_db d)))).
Definition seen (d : daemon) : gmap (bytes * bytes) Z := rd_seen (d_recv (dm_db d)).

Lemma encrypt_Ok rng env gid st g' ct :
  group_encrypt rng env (mkGroup om gid (Active (om_epoch st.2)) st.1 st.2) = (g', Ok ct) →
  ∃ signer body st' out, encode_envelope env = Ok body ∧ om_create_message rng signer body st = (st', Ok out) ∧
    om_serialize out = Ok ct ∧ g' = mkGroup om gid (Active (om_epoch st.2)) st'.1 st'.2.
Proof.
  intros (s1 & x & Hs & H)%bind_action_Ok. injection Hs as <- <-.
  apply bind_action_Ok in H as (s1 & [] & Hs & H). injection Hs as <-.
  apply bind_action_Ok in H as (s1 & signer & Hs & H). injection Hs as <- _.
  apply bind_action_Ok in H as (s1 & body & Hs & H). injection Hs as <- Hbody.
  apply bind_action_Ok in H as (s1 & out & Hs & H). injection H as <- Hct.
  unfold on_group in Hs. cbn [g_provider g_inner g_id g_state] in Hs. destruct st as [p g]. cbn [fst snd] in *.
  destruct (om_create_message rng signer body (p, g)) as [[p' g''] [o|e]] eqn:E; [|done]. injection Hs as <- <-.
  exists signer, body, (p', g''), o. split_and!; try done. by destruct (om_serialize o); [injection Hct as <-|].
Qed.

(** A send, as the conversation sees it. *)
Lemma send_advances me gid peer d st rng mid acked now_ms kind d' id status record :
  holds gid peer d st → send_message me rng mid acked now_ms peer kind d = (d', Ok (Res_MessageSent id status (Some record))) →
  ∃ signer body st' out ct, encode_envelope (mkEnvelope 1 mid now_ms None kind) = Ok body ∧
    om_create_message rng signer body st = (st', Ok out) ∧ om_serialize out = Ok ct ∧ holds gid peer d' st' ∧
    dm_out d' = dm_out d ++ [Job peer mid ct] ∧ dm_events d' = dm_events d ∧ seen d' = seen d ∧
    history_keys d' = history_keys d ++ [Some (gid, mid)] ∧ len mid = 16 ∧ is_card_update kind = false.
Proof.
  intros Hh [(e & [=] & _)|[([=] & _)|H]]%send_cases.
  destruct H as (gid' & g & g' & ct & t & m & row_id & Hl & _ & Hg & _ & Hk & He & Hs & Hi & -> & _).
  assert (gid' = gid) as -> by (pose proof (hd_linked _ _ _ _ Hh); congruence).
  rewrite (hd_load _ _ _ _ Hh) in Hg. injection Hg as <-.
  apply encrypt_Ok in He as (signer & body & st' & out & Hbody & Hc & Hser & ->).
  destruct st as [p0 g0], st' as [p' g'']. cbn [fst snd] in *.
  destruct (create_stored _ _ _ _ _ _ _ _ _ (hd_inner _ _ _ _ Hh) Hc) as [Hl' Hep]. cbn [snd] in Hep.
  destruct (save_advanced _ _ _ _ (p', g'') Hh Hl' Hep) as (t' & Ht & Hwf & Hload). cbn [fst snd] in Ht, Hload.
  rewrite Hep in Ht, Hload. rewrite Ht in Hs. injection Hs as <-.
  apply insert_in_tx_Ok in Hi as (kname & b & _ & _ & Hlen & _ & _ & ->).
  exists signer, body, (p', g''), out, ct. split_and!; try done.
  - split; cbn; try done; try apply Hh.
    + rewrite Hep. exact Hload.
    + rewrite Hep. apply Hh.
  - unfold history_keys. cbn. by rewrite fmap_app.
Qed.

(** The transaction of a message that is new. *)
Lemma persist_received_new from gid g env body now db t :
  group_save_in_tx g (d_groups db) = Ok (t, tt) → encode_envelope env = Ok body → is_card_update (e_kind env) = false →
  outside_window (e_ts env) (i64_clamp (now * 1000)) = false → rd_seen (d_recv db) !! (from, e_id env) = None →
  len gid = 32 → len (e_id env) = 16 →
  Some (gid, e_id env) ∉ m_key <$> t_rows (messages (rd_messages (d_recv db))) →
  ∃ m row_id, persist_received from gid g env now true db =
    (fset f_recv (mkReceiverDb m (<[(from, e_id env) := i64_clamp (now * 1000)]> (rd_seen (d_recv db)))) (fset f_groups t db),
     Ok (New env row_id from gid (om_epoch (g_inner g)) now)) ∧
    m_key <$> t_rows (messages m) = (m_key <$> t_rows (messages (rd_messages (d_recv db)))) ++ [Some (gid, e_id env)].
Proof.
  intros Hs Hb Hk Hw Hseen Hgid Hid Hnew.
  assert (∃ kname, kind_name (e_kind env) = Ok kname) as [kname Hkn] by (destruct (e_kind env); naive_solver).
  eexists _, _. unfold persist_received, atomically, bind_action at 1, map_error, on_tx at 1.
  change (fget f_groups db) with (d_groups db). rewrite Hs. cbn [map_err].
  unfold bind_action at 1, on_tx. change (fget f_recv (fset f_groups t db)) with (d_recv db).
  unfold receive_in_tx. rewrite Hw. cbn [andb]. unfold seen_insert_in_tx. rewrite Hseen. cbn [negb].
  rewrite decide_True by done. cbn [bind_result]. unfold insert_in_tx. cbn [ip_envelope ip_group_id].
  rewrite Hb. cbn [map_err bind_result]. rewrite Hkn. cbn [bind_result]. rewrite decide_True by done. cbn [bind_result].
  rewrite decide_False by done. cbn [bind_result]. split; [reflexivity|]. cbn. by rewrite fmap_app.
Qed.

Lemma decrypt_Ok ct gid st st' m env body :
  om_deserialize ct = Ok (BodyPrivate m) → om_process_message m st = (st', Ok (ApplicationMessage body)) →
  encode_envelope env = Ok body →
  group_decrypt ct (mkGroup om gid (Active (om_epoch st.2)) st.1 st.2) =
    (mkGroup om gid (Active (om_epoch st.2)) st'.1 st'.2, Ok (Some env)).
Proof.
  intros Hd Hp Hb. unfold group_decrypt. unfold bind_action at 1, gets. unfold bind_action at 1, ensure. cbn [can_receive g_state].
  unfold bind_action at 1, lift at 1. rewrite Hd. cbn [map_err].
  unfold bind_action at 1, lift at 1. cbn [protocol_of]. unfold bind_action at 1, on_group.
  cbn [g_provider g_inner g_id g_state]. destruct st as [p g]. cbn [fst snd]. rewrite Hp. destruct st' as [p' g']. cbn [map_err].
  unfold encode_envelope in Hb. destruct (into_writer env) as [b|] eqn:Eb; [|done]. injection Hb as ->.
  unfold bind_action, lift, decode_envelope. by rewrite (from_into _ _ Eb).
Qed.

(** A receipt, as the conversation sees it. *)
Lemma receive_advances gid from d st st' m env body ct fresh now :
  holds gid from d st → om_deserialize ct = Ok (BodyPrivate m) →
  om_process_message m st = (st', Ok (ApplicationMessage body)) → encode_envelope env = Ok body →
  is_card_update (e_kind env) = false → outside_window (e_ts env) (i64_clamp (now * 1000)) = false →
  seen d !! (from, e_id env) = None → Some (gid, e_id env) ∉ history_keys d → len (e_id env) = 16 →
  ∃ d' row_id, dispatch from ct fresh now d = (d', Some (e_id env)) ∧ holds gid from d' st' ∧
    dm_events d' = dm_events d ++
      [Ev_MessageReceived from (project row_id env from (om_epoch st'.2) now Incoming None)] ∧
    seen d' = <[(from, e_id env) := i64_clamp (now * 1000)]> (seen d) ∧
    history_keys d' = history_keys d ++ [Some (gid, e_id env)].
Proof.
  intros Hh Hde Hpr Hb Hk Hw Hseen Hnew Hid. pose proof (decrypt_Ok ct gid st st' m env body Hde Hpr Hb) as Hdec.
  assert (om_load gid st'.1 = Ok (Some st'.2) ∧ om_epoch st'.2 = om_epoch st.2) as [Hl' Hep].
  { destruct st as [p g], st' as [p' g']. exact (process_stored _ _ _ _ _ _ _ (hd_inner _ _ _ _ Hh) Hpr). }
  destruct (save_advanced _ _ _ _ st' Hh Hl' Hep) as (t & Ht & Hwf & Hload). rewrite Hep in Ht, Hload.
  unfold dispatch, ok, dispatch_inner. unfold bind_action at 1, read.
  change (fget (of_db f_contacts) d) with (d_contacts (dm_db d)). rewrite (hd_linked _ _ _ _ Hh).
  unfold bind_action at 1, lift at 1. cbn [ok_or]. unfold dispatch_for_group. unfold bind_action at 1, ensure.
  rewrite bool_decide_true by apply Hh. unfold bind_action at 1, read_try.
  change (fget (of_db f_groups) d) with (d_groups (dm_db d)). rewrite (hd_load _ _ _ _ Hh). cbn [map_err].
  unfold bind_action at 1, lift at 1. cbn [ok_or]. rewrite Hdec. cbn [fst snd].
  unfold bind_action at 1, lift at 1. cbn [map_err].
  set (g' := mkGroup om gid (Active (om_epoch st.2)) st'.1 st'.2) in *.
  destruct (stage_file from (e_kind env) now d) as [d1 r1] eqn:E1.
  assert (r1 = Ok tt ∧ same_but_atts (dm_db d) (dm_db d1) ∧ dm_events d1 = dm_events d) as (-> & [a Ha] & Hev).
  { unfold stage_file in E1. destruct (e_kind env); try (injection E1 as <- <-; split_and!; try done; apply same_but_atts_refl).
    apply stage_attachment_frame in E1. tauto. }
  destruct (persist_received_new from gid g' env body now (dm_db d1) t) as (msgs & row_id & Hp & Hkeys);
    rewrite ?Ha; try done; [apply Hh|].
  assert (receive_envelope from gid g' env now true d =
    ((emit (E := failure) (Ev_MessageReceived from (project row_id env from (om_epoch st'.2) now Incoming None))
       (fset f_db (fset f_recv (mkReceiverDb msgs (<[(from, e_id env) := i64_clamp (now * 1000)]> (seen d)))
         (fset f_groups t (dm_db d1))) d1)).1, Ok (e_id env))) as Hr.
  { unfold receive_envelope. unfold bind_action at 1. rewrite E1. unfold bind_action at 1, on.
    change (fget f_db d1) with (dm_db d1). rewrite Hp, Ha. reflexivity. }
  eexists _, row_id. split.
  - destruct (e_kind env) eqn:Ek; try (rewrite Hr; reflexivity). done.
  - cbn. rewrite Hev. split; [|split; [done|split; [by rewrite Ha in Hkeys|]]].
    + split; cbn; rewrite ?Ha; try apply Hh; try done; rewrite Hep; [done|apply Hh].
    + rewrite Ha in Hkeys. exact Hkeys.
Qed.

(** ** Frames in flight *)

(** From [s] on, a member encrypted the frames [q], reading in between. *)
Inductive path : provider * MlsGroup → list (Envelope * bytes) → provider * MlsGroup → Prop :=
| path_nil s : path s [] s
| path_read s s1 m payload q s' :
    om_process_message m s = (s1, Ok (ApplicationMessage payload)) → path s1 q s' → path s q s'
| path_send s rng signer env body s1 out ct q s' :
    encode_envelope env = Ok body → om_create_message rng signer body s = (s1, Ok out) → om_serialize out = Ok ct →
    path s1 q s' → path s ((env, ct) :: q) s'.

Lemma path_then_read s q s1 m payload s' :
  path s q s1 → om_process_message m s1 = (s', Ok (ApplicationMessage payload)) → path s q s'.
Proof. induction 1; intros Hm; [eapply path_read; [done|apply path_nil]|eapply path_read|eapply path_send]; eauto. Qed.

Lemma path_then_send s q s1 rng signer env body s' out ct :
  path s q s1 → encode_envelope env = Ok body → om_create_message rng signer body s1 = (s', Ok out) →
  om_serialize out = Ok ct → path s (q ++ [(env, ct)]) s'.
Proof.
  induction 1; intros Hb Hc Hs; [eapply path_send; [done..|apply path_nil]|eapply path_read|eapply path_send]; eauto.
Qed.

(** The receiver reads the first frame in flight. *)
Lemma path_next s q s' r env ct rest :
  path s q s' → in_step s r → q = (env, ct) :: rest →
  ∃ s1 m r' body, encode_envelope env = Ok body ∧ om_deserialize ct = Ok (BodyPrivate m) ∧
    om_process_message m r = (r', Ok (ApplicationMessage body)) ∧ in_step s1 r' ∧ path s1 rest s'.
Proof.
  induction 1 as [|s s1 m payload q s' Hm Hp IH|s rng signer env' body s1 out ct' q s' Hb Hc Hs Hp _]; intros Hin Hq; [done| |].
  - apply IH; [|done]. by eapply channel_sender_receives.
  - injection Hq as -> -> ->. destruct (channel_next _ _ _ _ _ _ _ _ Hin Hc Hs) as (m & r' & Hd & Hr & Hin').
    by exists s1, m, r', body.
Qed.

(** ** The network *)

Context (keys : bool → IdentityKey) (gid : bytes).
Definition pub (s : bool) : bytes := public (keys s).

(** The two daemons, the frames in flight from each with the envelopes they carry,
    and the envelopes each sent. *)
Record network : Type := mkNetwork {
  n_daemon : bool → daemon; n_flight : bool → list (Envelope * bytes); n_sent : bool → list Envelope
}.
Definition upd {A} (f : bool → A) (s : bool) (x : A) (s' : bool) : A := if decide (s' = s) then x else f s'.

(** An id no daemon has used or is about to see. *)
Definition unused (n : network) (mid : bytes) : Prop := ∀ s,
  Some (gid, mid) ∉ history_keys (n_daemon n s) ∧ seen (n_daemon n s) !! (pub (negb s), mid) = None ∧
  mid ∉ e_id <$> (n_flight n s).*1.

(** A user of either daemon sends, or the oldest frame in flight arrives while its
    timestamp is acceptable. *)
Inductive conv_step (n : network) : network → Prop :=
| cv_send s rng mid acked now_ms kind d' id status record ct :
    unused n mid →
    send_message (keys s) rng mid acked now_ms (pub (negb s)) kind (n_daemon n s) =
      (d', Ok (Res_MessageSent id status (Some record))) →
    last (dm_out d') = Some (Job (pub (negb s)) mid ct) →
    let env := mkEnvelope 1 mid now_ms None kind in
    conv_step n (mkNetwork (upd (n_daemon n) s d') (upd (n_flight n) s (n_flight n s ++ [(env, ct)]))
      (upd (n_sent n) s (n_sent n s ++ [env])))
| cv_arrive s env ct rest fresh now :
    n_flight n s = (env, ct) :: rest → outside_window (e_ts env) (i64_clamp (now * 1000)) = false →
    conv_step n (mkNetwork (upd (n_daemon n) (negb s) (dispatch (pub s) ct fresh now (n_daemon n (negb s))).1)
      (upd (n_flight n) s rest) (n_sent n)).

(** What a reader is shown of an envelope, and what was shown of [s]'s messages. *)
Definition shown_of (e : Envelope) : bytes * Kind * Z := (e_id e, e_kind e, e_ts e).
Definition shown_event (s : bool) (e : Event) : option (bytes * Kind * Z) :=
  match e with
  | Ev_MessageReceived c r => if decide (c = pub s) then Some (rec_message_id r, rec_kind r, rec_ts_envelope r) else None
  | _ => None
  end.
Definition shown (s : bool) (n : network) : list (bytes * Kind * Z) := omap (shown_event s) (dm_events (n_daemon n (negb s))).

(** Both daemons hold the group, in step with each other, and nothing is in flight. *)
Definition connected (n : network) : Prop :=
  (∃ st, ∀ s, holds gid (pub (negb s)) (n_daemon n s) (st s) ∧ in_step (st s) (st (negb s))) ∧
  ∀ s, n_flight n s = [] ∧ n_sent n s = [].

(** A frame in flight is new to the daemon it travels to. *)
Definition deliverable (d : daemon) (from : bytes) (env : Envelope) : Prop :=
  is_card_update (e_kind env) = false ∧ len (e_id env) = 16 ∧ Some (gid, e_id env) ∉ history_keys d ∧
  seen d !! (from, e_id env) = None.

Record conv_inv (base : bool → list (bytes * Kind * Z)) (n : network) (st : bool → provider * MlsGroup) : Prop := {
  cv_holds s : holds gid (pub (negb s)) (n_daemon n s) (st s);
  cv_path s : ∃ s0, in_step s0 (st (negb s)) ∧ path s0 (n_flight n s) (st s);
  cv_fifo s : shown s n ++ (shown_of <$> (n_flight n s).*1) = base s ++ (shown_of <$> n_sent n s);
  cv_new s : Forall (deliverable (n_daemon n (negb s)) (pub s)) (n_flight n s).*1;
  cv_ids : NoDup ((e_id <$> (n_flight n true).*1) ++ (e_id <$> (n_flight n false).*1))
}.

Lemma upd_same {A} (f : bool → A) s x : upd f s x s = x.
Proof. unfold upd. by rewrite decide_True. Qed.
Lemma upd_other {A} (f : bool → A) s x : upd f s x (negb s) = f (negb s).
Proof. unfold upd. rewrite decide_False; [done|by destruct s]. Qed.
Lemma upd_self {A} (f : bool → A) s x : upd f (negb s) x s = f s.
Proof. unfold upd. rewrite decide_False; [done|by destruct s]. Qed.

(** A statement about both sides, proved for one and for the other. *)
Lemma both_sides (P : bool → Prop) s : P s → P (negb s) → ∀ s', P s'.
Proof. destruct s; intros ? ? []; done. Qed.

Lemma ids_of_sides (f : bool → list (Envelope * bytes)) s :
  NoDup ((e_id <$> (f true).*1) ++ (e_id <$> (f false).*1)) ↔
  NoDup ((e_id <$> (f s).*1) ++ (e_id <$> (f (negb s)).*1)).
Proof. destruct s; [done|]. cbn. by rewrite (Permutation_app_comm (e_id <$> (f true).*1)). Qed.

Lemma send_keeps base n st s rng mid acked now_ms kind d' id status record ct :
  conv_inv base n st → unused n mid →
  send_message (keys s) rng mid acked now_ms (pub (negb s)) kind (n_daemon n s) =
    (d', Ok (Res_MessageSent id status (Some record))) →
  last (dm_out d') = Some (Job (pub (negb s)) mid ct) →
  let env := mkEnvelope 1 mid now_ms None kind in
  ∃ st', conv_inv base (mkNetwork (upd (n_daemon n) s d') (upd (n_flight n) s (n_flight n s ++ [(env, ct)]))
    (upd (n_sent n) s (n_sent n s ++ [env]))) st'.
Proof.
  intros Hinv Hun Hsend Hlast env.
  destruct (send_advances _ _ _ _ _ _ _ _ _ _ _ _ _ _ (cv_holds _ _ _ Hinv s) Hsend)
    as (signer & body & st' & out & ct' & Hb & Hc & Hs & Hh & Hout & Hev & Hseen & Hkeys & Hlen & Hk).
  assert (ct' = ct) as -> by (rewrite Hout, last_snoc in Hlast; congruence).
  exists (upd st s st'). split; cbn [n_daemon n_flight n_sent].
  - apply (both_sides _ s); rewrite ?upd_same, ?upd_other; [exact Hh|apply Hinv].
  - apply (both_sides _ s); rewrite ?negb_involutive, ?upd_same, ?upd_other.
    + destruct (cv_path _ _ _ Hinv s) as (s0 & Hin & Hp). exists s0. split; [done|]. by eapply path_then_send.
    + destruct (cv_path _ _ _ Hinv (negb s)) as (s0 & Hin & Hp). rewrite negb_involutive in Hin. exists s0. split; [|done].
      by eapply channel_receiver_sends.
  - apply (both_sides _ s); unfold shown; cbn [n_daemon]; rewrite ?negb_involutive, ?upd_same, ?upd_other.
    + rewrite !fmap_app, app_assoc. pose proof (cv_fifo _ _ _ Hinv s) as Hf. unfold shown in Hf. rewrite Hf.
      by rewrite <- app_assoc.
    + rewrite Hev. pose proof (cv_fifo _ _ _ Hinv (negb s)) as Hf. unfold shown in Hf. by rewrite negb_involutive in Hf.
  - apply (both_sides _ s); rewrite ?negb_involutive, ?upd_same, ?upd_other.
    + rewrite fmap_app. apply Forall_app. split; [apply Hinv|]. apply Forall_singleton. cbn.
      destruct (Hun (negb s)) as (H1 & H2 & _). rewrite negb_involutive in H2. split_and!; done.
    + pose proof (cv_new _ _ _ Hinv (negb s)) as Hf. rewrite negb_involutive in Hf.
      rewrite Forall_forall in Hf |- *. intros e He. destruct (Hf e He) as (? & ? & Hnew & ?).
      unfold deliverable. rewrite Hkeys, Hseen. split_and!; try done. rewrite elem_of_app, list_elem_of_singleton.
      intros [|[= Heq]]; [done|]. destruct (Hun (negb s)) as (_ & _ & Hfl). apply Hfl. rewrite <- Heq. by apply list_elem_of_fmap_2.
  - apply (ids_of_sides _ s). rewrite upd_same, upd_other, !fmap_app.
    pose proof (proj1 (ids_of_sides _ s) (cv_ids _ _ _ Hinv)) as Hn.
    rewrite <- app_assoc, (Permutation_app_comm _ (e_id <$> (n_flight n (negb s)).*1)), app_assoc.
    apply NoDup_app. split_and!; [done| |apply NoDup_singleton].
    intros x Hx ->%list_elem_of_singleton. apply elem_of_app in Hx as [Hx|Hx]; by apply Hun in Hx.
Qed.

Lemma arrive_keeps base n st s env ct rest fresh now :
  conv_inv base n st → n_flight n s = (env, ct) :: rest → outside_window (e_ts env) (i64_clamp (now * 1000)) = false →
  let arrived := dispatch (pub s) ct fresh now (n_daemon n (negb s)) in
  arrived.2 = Some (e_id env) ∧
  ∃ st', conv_inv base (mkNetwork (upd (n_daemon n) (negb s) arrived.1) (upd (n_flight n) s rest) (n_sent n)) st'.
Proof.
  intros Hinv Hfl Hw.
  destruct (cv_path _ _ _ Hinv s) as (s0 & Hin & Hp).
  destruct (path_next _ _ _ _ _ _ _ Hp Hin Hfl) as (s1 & m & r' & body & Hb & Hd & Hr & Hin' & Hp').
  pose proof (cv_new _ _ _ Hinv s) as Hnew. rewrite Hfl, fmap_cons in Hnew. apply Forall_cons in Hnew as [Hdel Hnew].
  destruct Hdel as (Hk & Hlen & Hkey & Hseen).
  pose proof (cv_holds _ _ _ Hinv (negb s)) as Hh. rewrite negb_involutive in Hh.
  destruct (receive_advances gid (pub s) _ _ _ m env body ct fresh now Hh Hd Hr Hb Hk Hw Hseen Hkey Hlen)
    as (d' & row_id & Hdis & Hh' & Hev & Hseen' & Hkeys').
  cbv zeta. rewrite Hdis. cbn [fst snd]. split; [done|].
  pose proof (proj1 (ids_of_sides _ s) (cv_ids _ _ _ Hinv)) as Hn. rewrite Hfl, !fmap_cons in Hn. cbn [fst] in Hn.
  apply NoDup_cons in Hn as [Hid Hn]. rewrite elem_of_app in Hid.
  exists (upd st (negb s) r'). split; cbn [n_daemon n_flight n_sent].
  - apply (both_sides _ s); rewrite ?negb_involutive, ?upd_same, ?upd_self; [apply Hinv|exact Hh'].
  - apply (both_sides _ s); rewrite ?negb_involutive, ?upd_same, ?upd_other, ?upd_self; [by exists s1|].
    destruct (cv_path _ _ _ Hinv (negb s)) as (s2 & Hin2 & Hp2). rewrite negb_involutive in Hin2. exists s2. split; [done|].
    by eapply path_then_read.
  - pose proof (cv_fifo _ _ _ Hinv) as Hf. unfold shown in *. cbn [n_daemon].
    apply (both_sides _ s); rewrite ?negb_involutive, ?upd_same, ?upd_other, ?upd_self.
    + specialize (Hf s). rewrite Hfl, fmap_cons in Hf. rewrite Hev, omap_app. cbn [omap list_omap shown_event].
      rewrite decide_True by done. rewrite <- app_assoc. exact Hf.
    + specialize (Hf (negb s)). by rewrite negb_involutive in Hf.
  - apply (both_sides _ s); rewrite ?negb_involutive, ?upd_same, ?upd_other, ?upd_self.
    + rewrite Forall_forall in Hnew |- *. intros e He. destruct (Hnew e He) as (? & ? & Hnk & Hns).
      assert (e_id e ≠ e_id env) as Hne.
      { intros Heq. apply Hid. left. rewrite <- Heq. by apply list_elem_of_fmap_2. }
      unfold deliverable. rewrite Hkeys', Hseen', elem_of_app, list_elem_of_singleton, lookup_insert_ne by congruence.
      split_and!; try done. intros [|[= ?]]; done.
    + pose proof (cv_new _ _ _ Hinv (negb s)) as Hf. by rewrite negb_involutive in Hf.
  - apply (ids_of_sides _ s). by rewrite upd_same, upd_other.
Qed.

Lemma conv_step_inv base n n' st : conv_inv base n st → conv_step n n' → ∃ st', conv_inv base n' st'.
Proof.
  intros Hinv [s rng mid acked now_ms kind d' id status record ct Hun Hsend Hlast|s env ct rest fresh now Hfl Hw].
  - by eapply send_keeps.
  - by destruct (arrive_keeps _ _ _ _ _ _ _ fresh now Hinv Hfl Hw) as [_ ?].
Qed.

Lemma connected_inv n : connected n → ∃ st, conv_inv (λ s, shown s n) n st.
Proof.
  intros ((st & Hst) & Hempty). exists st.
  assert (∀ s, n_flight n s = [] ∧ n_sent n s = []) as Hs by done. split.
  - apply Hst.
  - intros s. destruct (Hs s) as [-> _]. exists (st s). split; [apply Hst|apply path_nil].
  - intros s. by destruct (Hs s) as [-> ->].
  - intros s. destruct (Hs s) as [-> _]. apply Forall_nil_2.
  - destruct (Hs true) as [-> _], (Hs false) as [-> _]. apply NoDup_nil_2.
Qed.

(** C2: a conversation is a pair of first-in first-out channels.  From two
    daemons that share a group, however their users' sends and the arrivals of
    frames interleave, what each daemon showed of the other's messages, followed by
    what is still in flight, is exactly what the other sent, in order: nothing is
    lost, repeated, altered or attributed to someone else.  And no frame gets
    stuck: the oldest one in flight is accepted and acknowledged under its
    message's id, whenever it arrives within the replay window. *)
Theorem conversation_fifo n0 n :
  connected n0 → rtc conv_step n0 n → ∀ s,
  shown s n ++ (shown_of <$> (n_flight n s).*1) = shown s n0 ++ (shown_of <$> n_sent n s) ∧
  ∀ env ct rest fresh now, n_flight n s = (env, ct) :: rest → outside_window (e_ts env) (i64_clamp (now * 1000)) = false →
    (dispatch (pub s) ct fresh now (n_daemon n (negb s))).2 = Some (e_id env).
Proof.
  intros Hc Hrun. assert (∃ st, conv_inv (λ s, shown s n0) n st) as [st Hinv].
  { apply connected_inv in Hc as [st Hinv]. revert st Hinv. generalize (λ s, shown s n0). intros base.
    induction Hrun as [|a b c Hab _ IH]; [eauto|]. intros st Hinv.
    destruct (conv_step_inv _ _ _ _ Hinv Hab) as [st' Hinv']. by eapply IH. }
  intros s. split; [exact (cv_fifo _ _ _ Hinv s)|]. intros env ct rest fresh now Hfl Hw.
  by destruct (arrive_keeps _ _ _ _ _ _ _ fresh now Hinv Hfl Hw).
Qed.
End conversation.

(** ** Witness: Alice and Bob *)

Import SampleInstances.

Definition sample_in_step (s r : provider * sample_mls_group) : Prop :=
  sg_id s.2 = sg_id r.2 ∧ sg_epoch s.2 = sg_epoch r.2 ∧ sg_received r.2 ≤ sg_sent s.2.

Lemma dec_enc_all {T} `{!Codec T} (v : T) : dec (enc v) = Some (v, []).
Proof. pose proof (dec_enc v []) as H. by rewrite app_nil_r in H. Qed.

Lemma put_group_load g p : sg_id g = sg_id g → om_load (OpenMls := sample_mls) (sg_id g) (put_group g p) = Ok (Some g).
Proof.
  intros _. unfold om_load, sample_mls, put_group. rewrite lookup_insert_eq.
  rewrite (@dec_enc_all _ codec_group). by rewrite decide_True.
Qed.

Lemma sample_load_id gid p g : om_load (OpenMls := sample_mls) gid p = Ok (Some g) → sg_id g = gid.
Proof.
  unfold om_load, sample_mls. destruct (p !! k_group gid) as [b|]; [|done].
  destruct (dec b) as [[g' rest]|]; [|done]. case_decide; [|done]. by intros [= <-].
Qed.

Definition sample_channel : @MlsChannel sample_mls.
Proof.
  refine {| in_step := sample_in_step : provider * @MlsGroup sample_mls → provider * @MlsGroup sample_mls → Prop |}.
  - intros [ps gs] [pr gr] rng signer payload s' out b (Hid & Hep & Hle) Hc Hs.
    cbn [om_create_message om_serialize sample_mls fst snd] in *. assert (b = @enc _ codec_out out) as -> by (by injection Hs).
    injection Hc as <- <-.
    exists (SampleApplication (sg_id gs) (sg_epoch gs) (sg_sent gs) payload).
    eexists. split; [|split].
    + cbn [om_deserialize sample_mls]. by rewrite (@dec_enc_all _ codec_out).
    + cbn [om_process_message sample_mls sample_process]. by rewrite decide_True by done.
    + unfold sample_in_step. cbn. split_and!; [done..|lia].
  - intros [ps gs] [pr gr] rng signer payload r' out (Hid & Hep & Hle) Hc. cbn in Hc. by injection Hc as <- _.
  - intros [ps gs] [pr gr] m payload s' (Hid & Hep & Hle) Hm. cbn in Hm. unfold sample_process in Hm.
    destruct m; case_decide; injection Hm as <- _; done.
  - intros gid rng signer payload p g p' g' out Hl%sample_load_id Hc. cbn in Hc. injection Hc as <- <- _.
    split; [|done]. rewrite <- Hl. by apply (put_group_load (mkSampleGroup _ _ _ _ _ _ _ _)).
  - intros gid m payload p g p' g' Hl%sample_load_id Hm. cbn in Hm. unfold sample_process in Hm.
    destruct m; case_decide; injection Hm as <- <- Hr; try discriminate Hr. split; [|done]. rewrite <- Hl.
    by apply (put_group_load (mkSampleGroup _ _ _ _ _ _ _ _)).
Defined.

Definition party (s : bool) : IdentityKey := if s then alice else bob.
Definition their_group : bytes := fill 32 Byte.x04.
Definition stored_group (d : daemon) : provider * sample_mls_group :=
  match group_load their_group (d_groups (dm_db d)) with
  | Ok (Some g) => (g_provider g, g_inner g)
  | _ => (∅, mkSampleGroup [] [] [] 0 0 0 [] [])
  end.
Definition first_network : network :=
  mkNetwork (λ s, if s then alice_card else bob_settled) (λ _, []) (λ _, []).

(** Bob sends, and Alice answers before Bob's message arrives. *)
Definition bob_asks : daemon :=
  (send_message bob (fill 32 Byte.x07) (fill 16 Byte.x08) false 1400000 (public alice) (Text "how are you?") bob_settled).1.
Definition alice_tells : daemon :=
  (send_message alice (fill 32 Byte.x07) (fill 16 Byte.x09) false 1400500 (public bob) (Text "hello") alice_card).1.
Definition frame_of (d : daemon) : bytes := match last (dm_out d) with Some (Job _ _ ct) => ct | _ => [] end.

Lemma sample_serializes : ProviderSerializes (ser := serialize_of).
Proof. intros p. by eexists. Qed.

Lemma groups_wf_singleton r : 0 < gr_id r → groups_wf (mkTable [r] (gr_id r)).
Proof.
  intros Hr. split; [split|cbn; lia|apply NoDup_singleton]; [apply NoDup_singleton|].
  intros r' ->%list_elem_of_singleton. cbn. lia.
Qed.

Lemma first_wf s : groups_wf (d_groups (dm_db (n_daemon first_network s))).
Proof.
  assert (∃ r, d_groups (dm_db (n_daemon first_network s)) = mkTable [r] 1 ∧ gr_id r = 1) as (r & -> & Hr)
    by (destruct s; eexists; (split; [vm_compute; reflexivity|reflexivity])).
  rewrite <- Hr. apply groups_wf_singleton. lia.
Qed.

Lemma first_holds s :
  holds their_group (public (party (negb s))) (n_daemon first_network s) (stored_group (n_daemon first_network s)).
Proof.
  unfold stored_group. destruct (group_load their_group (d_groups (dm_db (n_daemon first_network s)))) as [[g|]|e] eqn:E.
  - apply group_load_Ok in E as E'. destruct E' as [Hg Hl].
    assert (om_epoch (g_inner g) = 1) as He.
    { assert (match group_load their_group (d_groups (dm_db (n_daemon first_network s))) with
              | Ok (Some g) => sg_epoch (g_inner g) | _ => 0 end = 1) as H by (destruct s; vm_compute; reflexivity).
      rewrite E in H. exact H. }
    split; cbn [fst snd]; [destruct s; vm_compute; reflexivity|apply first_wf|by rewrite E, Hg at 1|exact Hl|
      rewrite He; vm_compute; discriminate|reflexivity].
  - assert (match group_load their_group (d_groups (dm_db (n_daemon first_network s))) with
            | Ok (Some _) => true | _ => false end = true) as H by (destruct s; vm_compute; reflexivity).
    rewrite E in H. discriminate.
  - assert (match group_load their_group (d_groups (dm_db (n_daemon first_network s))) with
            | Ok (Some _) => true | _ => false end = true) as H by (destruct s; vm_compute; reflexivity).
    rewrite E in H. discriminate.
Qed.

Lemma first_connected : connected (channel := sample_channel) party their_group first_network.
Proof.
  split; [|done]. exists (λ s, stored_group (n_daemon first_network s)). intros s. split; [apply first_holds|].
  split_and!; destruct s; vm_compute; done.
Qed.

Definition network1 : network :=
  mkNetwork (upd (n_daemon first_network) false bob_asks)
    (upd (n_flight first_network) false [(mkEnvelope 1 (fill 16 Byte.x08) 1400000 None (Text "how are you?"), frame_of bob_asks)])
    (upd (n_sent first_network) false [mkEnvelope 1 (fill 16 Byte.x08) 1400000 None (Text "how are you?")]).
Definition network2 : network :=
  mkNetwork (upd (n_daemon network1) true alice_tells)
    (upd (n_flight network1) true [(mkEnvelope 1 (fill 16 Byte.x09) 1400500 None (Text "hello"), frame_of alice_tells)])
    (upd (n_sent network1) true [mkEnvelope 1 (fill 16 Byte.x09) 1400500 None (Text "hello")]).
Definition network3 : network :=
  mkNetwork (upd (n_daemon network2) true (dispatch (public bob) (frame_of bob_asks) (fill 16 Byte.x00) 1500 (n_daemon network2 true)).1)
    (upd (n_flight network2) false []) (n_sent network2).

Lemma unused_dec n mid :
  forallb (λ s, bool_decide (Some (their_group, mid) ∉ history_keys (n_daemon n s) ∧
    seen (n_daemon n s) !! (pub party (negb s), mid) = None ∧ mid ∉ e_id <$> (n_flight n s).*1)) [true; false] = true →
  unused party their_group n mid.
Proof.
  cbn [forallb]. rewrite !andb_true_iff, !bool_decide_eq_true. intros (Ht & Hf & _) []; done.
Qed.

Lemma conversation_run : rtc (conv_step party their_group) first_network network3.
Proof.
  eapply rtc_l; [|eapply rtc_l; [|eapply rtc_l; [|apply rtc_refl]]].
  - destruct (send_message bob (fill 32 Byte.x07) (fill 16 Byte.x08) false 1400000 (public alice) (Text "how are you?") bob_settled)
      as [d' r] eqn:E.
    assert (∃ id status record, r = Ok (Res_MessageSent id status (Some record))) as (id & status & record & ->).
    { change r with (d', r).2. rewrite <- E. vm_compute. eauto. }
    pose proof (cv_send party their_group first_network false (fill 32 Byte.x07) (fill 16 Byte.x08) false 1400000
      (Text "how are you?") d' id status record (frame_of bob_asks)) as H.
    assert (bob_asks = d') as Hd by (unfold bob_asks; by rewrite E). rewrite <- Hd in *.
    apply H; [apply unused_dec; vm_compute; reflexivity|exact E|vm_compute; reflexivity].
  - destruct (send_message alice (fill 32 Byte.x07) (fill 16 Byte.x09) false 1400500 (public bob) (Text "hello") alice_card)
      as [d' r] eqn:E.
    assert (∃ id status record, r = Ok (Res_MessageSent id status (Some record))) as (id & status & record & ->).
    { change r with (d', r).2. rewrite <- E. vm_compute. eauto. }
    pose proof (cv_send party their_group network1 true (fill 32 Byte.x07) (fill 16 Byte.x09) false 1400500
      (Text "hello") d' id status record (frame_of alice_tells)) as H.
    assert (alice_tells = d') as Hd by (unfold alice_tells; by rewrite E). rewrite <- Hd in *.
    apply H; [apply unused_dec; vm_compute; reflexivity|exact E|vm_compute; reflexivity].
  - refine (cv_arrive party their_group network2 false (mkEnvelope 1 (fill 16 Byte.x08) 1400000 None (Text "how are you?"))
      (frame_of bob_asks) [] (fill 16 Byte.x00) 1500 _ _); reflexivity.
Qed.

Lemma conversation_fifo_witness :
  shown party false network3 = [(fill 16 Byte.x08, Text "how are you?", 1400000)] ∧
  shown party true network3 ++ (shown_of <$> (n_flight network3 true).*1) = [(fill 16 Byte.x09, Text "hello", 1400500)].
Proof.
  pose proof (conversation_fifo (channel := sample_channel) (total := sample_serializes) (law_p := roundtrip_of)
    (law_env := roundtrip_of) party their_group first_network network3 first_connected conversation_run) as H.
  split.
  - pose proof (proj1 (H false)) as Hf. change (n_flight network3 false) with (@nil (Envelope * bytes)) in Hf.
    rewrite app_nil_r in Hf. rewrite Hf. vm_compute. reflexivity.
  - rewrite (proj1 (H true)). vm_compute. reflexivity.
Defined.
