(* ===== verification/ContactProps.v ===== *)
(** * ContactProps: adding and removing contacts

    Theorems about [ContactCommands]: accepting an invite is atomic and works once,
    a second invite of a peer whose Welcome is pending does not replace that
    Welcome, and removing a contact that has not joined leaves nothing of it. *)

From S2P Require Import Prelude Text Framing SimpleCodec CoreErrors Outbox Sql MailboxProtocol Identity Contacts Messages.
From S2P Require Import Receiver Attachments ChunkTransfer AttachmentRepo Mls Invites FirstContact Mailboxes Api Daemon.
From S2P Require Import ContactCommands Inbound InboundProps Samples Scenario.

Section contact_facts.
Context {om : OpenMls} {scheme : SignatureScheme} {sha : Sha256} {b64 : Base64Url}.
Context {ser_p : Serialize provider} {de_p : Deserialize provider}.
Context {ser_env : Serialize Envelope} {de_env : Deserialize Envelope}.
Context {ser_card : Serialize ContactCard} {de_card : Deserialize ContactCard}.
Context {ser_body : Serialize ContactCardBody} {ser_link : Serialize InviteLinkBody}.
Context (me : IdentityKey).

Definition inviter_of (link : InviteLink) : bytes := card_identity (card_body (il_card (link_body link))).

(** ** The transaction *)

(** The contact tables and the database after a contact was added. *)
Definition added_contacts (link : InviteLink) (g : Group) (now : Z) (c c' : contacts_db) : Prop :=
  ∃ c1 c2, upsert (mkContact (inviter_of link) None now None false) c = (c1, Ok tt) ∧
    put_card_body now (il_card (link_body link)) c1 = Ok (c2, tt) ∧ set_group_id (inviter_of link) (g_id g) c2 = (c', Ok tt).

Lemma persist_contact_cases link g welcome now now_ms db db' r :
  persist_contact link g welcome now now_ms db = (db', r) →
  (∃ e, r = Err e ∧ db' = db) ∨
  ∃ c t, is_consumed link (d_kps db) = false ∧ is_Some (kp_get (link_kp_hash link) (d_kps db)) ∧
    added_contacts link g now (d_contacts db) c ∧
    group_save_in_tx g (d_groups db) = Ok (t, tt) ∧ r = Ok tt ∧
    db' = fset f_pending (pw_insert_in_tx (inviter_of link) (g_id g) welcome now_ms now_ms (d_pending db))
            (fset f_kps (kp_mark_consumed (link_kp_hash link) (d_kps db)) (fset f_groups t (fset f_contacts c db))).
Proof.
  unfold persist_contact. destruct r as [[]|e]; [|rewrite atomically_Err; intros [-> _]; left; eauto].
  rewrite atomically_Ok. intros (db0 & spent & Hs & H)%bind_action_Ok. injection Hs as <- <-.
  apply bind_action_Ok in H as (db0 & [] & Hs & H). unfold ensure in Hs.
  change (fget f_kps db) with (d_kps db) in Hs.
  destruct (is_consumed link (d_kps db)) eqn:Ec; [done|]. injection Hs as <-.
  apply bind_action_Ok in H as (db1 & [] & H1 & H). unfold on in H1. change (fget f_contacts db) with (d_contacts db) in H1.
  destruct (upsert _ _) as [c1 r1] eqn:E1. injection H1 as <- ->.
  apply bind_action_Ok in H as (db2 & [] & H2 & H). unfold on_tx in H2.
  change (fget f_contacts _) with c1 in H2.
  destruct (put_card_body _ _ c1) as [[c2 []]|] eqn:E2; [|done]. injection H2 as <-.
  apply bind_action_Ok in H as (db3 & [] & H3 & H). unfold on_tx in H3.
  change (fget f_groups _) with (d_groups db) in H3.
  destruct (group_save_in_tx g (d_groups db)) as [[t []]|] eqn:E3; [|done]. injection H3 as <-.
  apply bind_action_Ok in H as (db4 & [] & H4 & H). unfold on in H4.
  change (fget f_contacts _) with c2 in H4.
  destruct (set_group_id _ _ c2) as [c3 r3] eqn:E4. injection H4 as <- ->.
  apply bind_action_Ok in H as (db5 & [] & H5 & H). unfold on_tx in H5.
  change (fget f_kps _) with (d_kps db) in H5. unfold mark_consumed_in_tx in H5.
  destruct (kp_get (link_kp_hash link) (d_kps db)) eqn:E5; [|done]. injection H5 as <-. injection H as <-.
  right. exists c3, t. split_and!; try done. by exists c1, c2.
Qed.

Lemma consumed_after_mark link t : is_Some (kp_get (link_kp_hash link) t) → is_consumed link (kp_mark_consumed (link_kp_hash link) t) = true.
Proof.
  unfold is_consumed, kp_get, kp_mark_consumed, t_update. cbn [fst t_rows].
  rewrite head_filter_fmap by (intros r; by case_decide). destruct (head _) as [r|] eqn:E; [|by intros [? ?]].
  intros _. apply head_filter_elem in E as [Hr _]. cbn. by rewrite decide_True.
Qed.

(** ** The handler *)

Lemma add_contact_cases dials rng gid now now_ms url d d' r :
  add_contact me dials rng gid now now_ms url d = (d', r) →
  (∃ e, r = Err (Reply e) ∧ (d' = d ∨ ∃ link k, from_url url now = Ok link ∧
     record_received now link (d_kps (dm_db d)) = (k, Ok tt) ∧ d' = fset (of_db f_kps) k d)) ∨
  ∃ link k h kp kp_ref g welcome c t, from_url url now = Ok link ∧
    record_received now link (d_kps (dm_db d)) = (k, Ok tt) ∧ is_consumed link k = false ∧
    is_Some (kp_get (link_kp_hash link) k) ∧ is_ok (card_verify (il_card (link_body link)) now) = true ∧ dial dials = Ok h ∧
    genesis me rng gid kp_ref (link_psk link) h kp = Ok (g, welcome) ∧
    added_contacts link g now (d_contacts (dm_db d)) c ∧ group_save_in_tx g (d_groups (dm_db d)) = Ok (t, tt) ∧
    d' = mkDaemon
      (fset f_pending (pw_insert_in_tx (inviter_of link) (g_id g) welcome now_ms now_ms (d_pending (dm_db d)))
        (fset f_kps (kp_mark_consumed (link_kp_hash link) k) (fset f_groups t (fset f_contacts c (dm_db d)))))
      (dm_events d ++ [Ev_ContactUpdated (inviter_of link)]) (dm_begins d) (dm_store d) (dm_out d ++ [Nudge]) ∧
    r = Ok (Res_ContactAdded (added_summary link now)).
Proof.
  unfold add_contact. unfold bind_action at 1, try_lift at 1, lift at 1.
  destruct (from_url url now) as [link|e] eqn:Eu; [|intros [= <- <-]; left; eauto]. cbn [map_err].
  unfold bind_action at 1, try at 1, map_error at 1, on at 1. change (fget (of_db f_kps) d) with (d_kps (dm_db d)).
  destruct (record_received now link (d_kps (dm_db d))) as [k [[]|e]] eqn:Er; cbn [map_err].
  2:{ assert (k = d_kps (dm_db d)) as ->.
      { unfold record_received, kp_insert in Er. repeat (case_match || case_decide); by injection Er. }
      intros [= <- <-]. left. eexists. split; [done|]. left. by destruct d as [[]]. }
  set (d1 := fset (of_db f_kps) k d).
  assert (∀ e, (d1, Err (Reply e)) = (d', r) → ∃ e, r = Err (Reply e) ∧ d' = fset (of_db f_kps) k d) as Hfail
    by (intros e [= <- <-]; eauto).
  assert ((∃ e, r = Err (Reply e) ∧ d' = fset (of_db f_kps) k d) → ∃ e, r = Err (Reply e) ∧ (d' = d ∨ ∃ link0 k0,
    @Ok InviteLink CoreError link = Ok link0 ∧ record_received now link0 (d_kps (dm_db d)) = (k0, Ok tt) ∧
    d' = fset (of_db f_kps) k0 d)) as Hleft.
  { intros (e & -> & ->). exists e. split; [done|]. right. by exists link, k. }
  unfold bind_action at 1, read at 1. change (fget (of_db f_kps) d1) with k.
  unfold bind_action at 1, ensure at 1. destruct (is_consumed link k) eqn:Ec; [intros ?%Hfail; left; auto|]. cbn [negb].
  unfold bind_action at 1, try_lift at 1, lift at 1. destruct (kp_from_bytes _) as [kp|e]; [|intros ?%Hfail; left; auto]. cbn [map_err].
  unfold bind_action at 1, try_lift at 1, lift at 1. destruct (key_package_ref kp) as [kp_ref|e]; [|intros ?%Hfail; left; auto]. cbn [map_err].
  unfold bind_action at 1, try_lift at 1, lift at 1. destruct (card_verify _ now) as [who|e] eqn:Ev; [|intros ?%Hfail; left; auto]. cbn [map_err].
  unfold bind_action at 1, lift at 1. destruct (dial dials) as [h|e] eqn:Ed.
  2:{ unfold dial in Ed. destruct (redial _ _ _ _) as [|e0]; [done|]. injection Ed as <-.
      destruct (CoreErrors.kind e0); intros ?%Hfail; left; auto. }
  unfold bind_action at 1, try_lift at 1, lift at 1. destruct (genesis _ _ _ _ _ _ _) as [[g welcome]|e] eqn:Eg;
    [|intros ?%Hfail; left; auto]. cbn [map_err].
  unfold bind_action at 1, try at 1, map_error at 1, on at 1. change (fget f_db d1) with (dm_db d1).
  destruct (persist_contact _ _ _ _ _ _) as [db' rp] eqn:Ep.
  apply persist_contact_cases in Ep as [(e & -> & ->)|(c & t & _ & Hk & Hc & Ht & -> & ->)]; cbn [map_err].
  - intros ?%Hfail. left. auto.
  - intros [= <- <-]. right. exists link, k, h, kp, kp_ref, g, welcome, c, t. rewrite Ev. split_and!; done.
Qed.

Lemma set_group_id_get id gid c c' : set_group_id id gid c = (c', Ok tt) → get_group_id id c' = Some gid.
Proof.
  unfold set_group_id, update_existing, update_contact. destruct (t_update _ _ _) as [t n] eqn:E.
  case_decide as Hn; [done|]. intros [= <-]. unfold t_update in E. injection E as <- <-.
  unfold get_group_id, rows_of, set_contacts. cbn [contacts t_rows].
  rewrite head_filter_fmap by (intros r; by case_decide).
  destruct (head _) as [r|] eqn:Eh.
  - apply head_filter_elem in Eh as [Hr _]. cbn. by rewrite decide_True.
  - destruct (filter _ (t_rows (contacts c))); done.
Qed.

(** ** Spent invites stay spent *)

Definition kp_spent (h : bytes) (t : key_packages) : bool := match kp_get h t with Some (_, c) => c | None => false end.

Lemma kp_insert_spent h now h' b dir t : kp_spent h t = true → kp_spent h (kp_insert now h' b dir t).1 = true.
Proof.
  intros Hs. unfold kp_insert. case_match; [done|]. destruct (decide (h' ∈ _)); [done|]. revert Hs.
  unfold kp_spent, kp_get. cbn [fst t_insert t_rows]. rewrite filter_app. by destruct (filter _ (t_rows t)).
Qed.
Lemma kp_mark_spent h h' t : kp_spent h t = true → kp_spent h (kp_mark_consumed h' t) = true.
Proof.
  unfold kp_spent, kp_get, kp_mark_consumed, t_update. cbn [fst t_rows]. rewrite head_filter_fmap by (intros r; by case_decide).
  destruct (head _) as [r|]; [|done]. cbn. by case_decide.
Qed.
Lemma record_received_spent h now link t : kp_spent h t = true → kp_spent h (record_received now link t).1 = true.
Proof. intros Hs. unfold record_received. destruct (kp_get _ _); [done|]. by apply kp_insert_spent. Qed.
Lemma kp_generate_spent h rng now t : kp_spent h t = true → kp_spent h (kp_generate_new me rng now t).1 = true.
Proof.
  intros Hs. unfold kp_generate_new, kp_generate. cbn [fst snd]. destruct (bind_action _ _ provider_new) as [p r].
  destruct (bind_result r _) as [[kp b]|e]; [|done].
  pose proof (kp_insert_spent h now (sha256 b) b "ours" t Hs) as H. by destruct (kp_insert _ _ _ _ t).
Qed.

Context {b2 : Blake2s} {ser_man : Serialize AttachmentManifest} {de_man : Deserialize AttachmentManifest}.
Context (wired : option IdentityKey) (store_wired : bool).

(** The commands on contacts and invites, and whatever arrives. *)
Inductive contact_step (d : daemon) : daemon → Prop :=
| cs_create onion rng psk now nick ttl : contact_step d (create_invite me onion rng psk now nick ttl d).1
| cs_add dials rng gid now now_ms url : contact_step d (add_contact me dials rng gid now now_ms url d).1
| cs_rename contact nick : contact_step d (rename_contact contact nick d).1
| cs_remove contact : contact_step d (remove_contact contact d).1
| cs_mute contact muted : contact_step d (set_contact_muted contact muted d).1
| cs_inbound d' : inbound_step wired store_wired d d' → contact_step d d'.

Ltac run_handler :=
  unfold known_contact, try_read, read_try, try, try_lift, purge_contact, atomically, bind_action, on, map_error,
    read, modify, ensure, lift, emit; repeat (case_match; simplify_eq/=); done.

Lemma create_invite_spent h onion rng psk now nick ttl d :
  kp_spent h (d_kps (dm_db d)) = true → kp_spent h (d_kps (dm_db (create_invite me onion rng psk now nick ttl d).1)) = true.
Proof.
  intros Hs. pose proof (kp_generate_spent h rng now (d_kps (dm_db d)) Hs) as Hg. unfold create_invite.
  do 2 (unfold bind_action at 1, lift at 1; case_match; [|done]). unfold bind_action at 1, try at 1, map_error at 1, on at 1.
  change (fget (of_db f_kps) d) with (d_kps (dm_db d)). destruct (kp_generate_new me rng now _) as [k [[kp p]|e]]; [|done]. cbn [map_err].
  remember (fset (of_db f_kps) k d) as d1 eqn:Ed1. assert (kp_spent h (d_kps (dm_db d1)) = true) as H1 by (by rewrite Ed1).
  clear - H1. revert H1. run_handler.
Qed.

Lemma inbound_step_spent h d d' :
  inbound_step wired store_wired d d' → kp_spent h (d_kps (dm_db d)) = true → kp_spent h (d_kps (dm_db d')) = true.
Proof.
  intros Hstep Hs. apply inbound_step_cases in Hstep as [Hc|[(from & gid & ct & fresh & enforce & now & r & Hres)
    |[(w & b & x & now & derived & Hj)|(mid & now & ->)]]].
  - by rewrite (calm_kps _ _ Hc).
  - destruct Hres as [e [a ->] _|g t _ _ _ ->|g env card c _ _ _ _ _ ->|g env t rd out _ _ _ _ _ _ [a ->] _]; done.
  - apply welcome_join_cases in Hj as [(? & ? & _)|H]; [done|].
    destruct H as (kp & row & g & t & ks & nick & der & _ & _ & _ & _ & _ & _ & _ & _ & ->). by apply kp_mark_spent.
  - unfold message_delivered. destruct wired as [k|]; [|done]. by destruct (mark_delivered_by_envelope_id _ _ _ _) as [m []].
Qed.

Lemma contact_step_spent h d d' :
  contact_step d d' → kp_spent h (d_kps (dm_db d)) = true → kp_spent h (d_kps (dm_db d')) = true.
Proof.
  intros Hstep Hs. destruct Hstep as [onion rng psk now nick ttl|dials rng gid now now_ms url|contact nick|contact|contact muted|d' Hin].
  - by apply create_invite_spent.
  - destruct (add_contact _ _ _ _ _ _ _ d) as [d' r] eqn:E. apply add_contact_cases in E as [(e & -> & H)|H].
    + destruct H as [->|(link & k & _ & Hr & ->)]; [done|]. pose proof (record_received_spent h now link _ Hs) as Hk. by rewrite Hr in Hk.
    + destruct H as (link & k & ? & ? & ? & ? & ? & ? & ? & _ & Hr & _ & _ & _ & _ & _ & _ & _ & -> & _).
      pose proof (record_received_spent h now link _ Hs) as Hk. rewrite Hr in Hk. by apply kp_mark_spent.
  - revert Hs. unfold rename_contact, set_display_name, update_existing. run_handler.
  - revert Hs. unfold remove_contact. run_handler.
  - revert Hs. unfold set_contact_muted. run_handler.
  - by apply (inbound_step_spent h d d').
Qed.

Lemma spent_refused dials rng gid now0 now now_ms url link d :
  from_url url now0 = Ok link → is_consumed link (d_kps (dm_db d)) = true →
  add_contact me dials rng gid now now_ms url d =
    (d, Err (if decide (now > il_expires_at (link_body link)) then reply (Core_Invite Invite_Expired)
             else daemon_error Daemon_InviteConsumed)).
Proof.
  intros Hu Hspent. unfold add_contact. unfold bind_action at 1, try_lift at 1, lift at 1.
  rewrite (from_url_later _ _ now _ Hu). case_decide; [done|]. cbn [map_err].
  unfold bind_action at 1, try at 1, map_error at 1, on at 1. change (fget (of_db f_kps) d) with (d_kps (dm_db d)).
  unfold record_received. unfold is_consumed in Hspent.
  destruct (kp_get (link_kp_hash link) (d_kps (dm_db d))) as [[b cons]|] eqn:Eg; [|done]. subst cons.
  assert (fset (of_db f_kps) (d_kps (dm_db d)) d = d) as -> by (by destruct d as [[]]).
  cbn [map_err]. unfold bind_action at 1, read at 1. change (fget (of_db f_kps) d) with (d_kps (dm_db d)).
  unfold bind_action at 1, ensure at 1, is_consumed. by rewrite Eg.
Qed.

(** C8: an invite is accepted once, and whole.  Adding a contact either fails,
    leaving the daemon as it was but for the row of the invite's key package, which
    is inserted as not consumed if it was not there; or it succeeds: then the contact
    is linked to the new group, the group is saved, its Welcome is pending and the
    invite is spent.  From then on, whatever commands on contacts and invites follow
    and whatever arrives, also when the contact is removed, the same link changes
    nothing and is answered as consumed, or as expired when it is; and so is the
    transaction of a call that had passed the first check before. *)
Theorem add_contact_once dials rng gid now now_ms url d d' r :
  add_contact me dials rng gid now now_ms url d = (d', r) →
  match r with
  | Err e => e ≠ Abort ∧ (d' = d ∨ ∃ link, from_url url now = Ok link ∧ kp_get (link_kp_hash link) (d_kps (dm_db d)) = None ∧
      d' = fset (of_db f_kps) (t_insert (λ i, mkKpRow i (link_kp_hash link) (il_key_package (link_body link)) "theirs" 0 now)
                                 (d_kps (dm_db d))).1 d)
  | Ok res => ∃ link g, from_url url now = Ok link ∧ res = Res_ContactAdded (added_summary link now) ∧
      get_group_id (inviter_of link) (d_contacts (dm_db d')) = Some (g_id g) ∧
      group_save_in_tx g (d_groups (dm_db d)) = Ok (d_groups (dm_db d'), tt) ∧
      pw_is_pending (inviter_of link) (d_pending (dm_db d')) = true ∧
      dm_events d' = dm_events d ++ [Ev_ContactUpdated (inviter_of link)] ∧ dm_out d' = dm_out d ++ [Nudge] ∧
      ∀ d2, rtc contact_step d' d2 →
        (∀ dials' rng' gid' now' now_ms', add_contact me dials' rng' gid' now' now_ms' url d2 =
           (d2, Err (if decide (now' > il_expires_at (link_body link)) then reply (Core_Invite Invite_Expired)
                     else daemon_error Daemon_InviteConsumed))) ∧
        (∀ g' welcome' now' now_ms', persist_contact link g' welcome' now' now_ms' (dm_db d2) =
           (dm_db d2, Err (Core_Invite Invite_Consumed)))
  end.
Proof.
  intros [(e & -> & H)|H]%add_contact_cases.
  { split; [done|]. destruct H as [->|(link & k & Hu & Hr & ->)]; [by left|]. unfold record_received, kp_insert in Hr.
    destruct (kp_get _ _) as [?|] eqn:Ek; [injection Hr as <-; left; by destruct d as [[]]|]. cbn in Hr. case_decide; [done|].
    injection Hr as <-. right. by exists link. }
  destruct H as (link & k & h & kp & kp_ref & g & welcome & c & t & Hu & Hrec & _ & Hk & _ & _ & _ & Hc & Ht & -> & ->).
  pose proof (consumed_after_mark link k Hk) as Hspent.
  exists link, g. split_and!; try done.
  - destruct Hc as (c1 & c2 & _ & _ & Hg). by apply set_group_id_get in Hg.
  - cbn. rewrite pw_insert_pending. apply orb_true_iff. right. by apply bool_decide_eq_true_2.
  - intros d2 Hrun. assert (is_consumed link (d_kps (dm_db d2)) = true) as Hspent2.
    { change (kp_spent (link_kp_hash link) (d_kps (dm_db d2)) = true). remember (mkDaemon _ _ _ _ _) as d1 eqn:Ed1 in Hrun.
      assert (kp_spent (link_kp_hash link) (d_kps (dm_db d1)) = true) as H1 by (by rewrite Ed1). clear Ed1.
      induction Hrun as [|p q s Hpq _ IH]; [done|]. by apply IH, (contact_step_spent _ p q). }
    split; [intros; by eapply spent_refused|]. intros g' welcome' now' now_ms'.
    unfold persist_contact, atomically, bind_action at 1, read. change (fget f_kps (dm_db d2)) with (d_kps (dm_db d2)). by rewrite Hspent2.
Qed.

(** A second invite does not replace a Welcome that is pending.  When the
    inviter of an accepted link already has a pending Welcome, even one marked as
    failed, the new Welcome is not queued: the row keeps the old Welcome, its old
    group and its failure, while the contact is linked to the new group and the new
    invite is spent; and a row that failed is never sent again. *)
Theorem readd_keeps_old_welcome dials rng gid now now_ms url d d' res link :
  add_contact me dials rng gid now now_ms url d = (d', Ok res) → from_url url now = Ok link →
  pw_is_pending (inviter_of link) (d_pending (dm_db d)) = true →
  d_pending (dm_db d') = d_pending (dm_db d) ∧
  (∃ g, get_group_id (inviter_of link) (d_contacts (dm_db d')) = Some (g_id g) ∧
     group_save_in_tx g (d_groups (dm_db d)) = Ok (d_groups (dm_db d'), tt)) ∧
  is_consumed link (d_kps (dm_db d')) = true ∧
  ((∀ row, row ∈ d_pending (dm_db d) → pw_peer row = inviter_of link → pw_failed row = 1) →
   ∀ now2 batch row, row ∈ pw_due now2 batch (d_pending (dm_db d')) → pd_peer row ≠ inviter_of link).
Proof.
  intros [(e & [=] & _)|H]%add_contact_cases Hu Hp.
  destruct H as (link' & k & h & kp & kp_ref & g & welcome & c & t & Hu' & _ & _ & Hk & _ & _ & _ & Hc & Ht & -> & _).
  assert (link' = link) as -> by congruence.
  assert (pw_insert_in_tx (inviter_of link) (g_id g) welcome now_ms now_ms (d_pending (dm_db d)) = d_pending (dm_db d)) as Hsame.
  { unfold pw_insert_in_tx. rewrite decide_True; [done|]. by apply pw_pending_iff. }
  cbn. rewrite Hsame. split; [done|]. split; [|split; [by apply consumed_after_mark|]].
  - exists g. split; [|done]. destruct Hc as (c1 & c2 & _ & _ & Hg). by apply set_group_id_get in Hg.
  - intros Hfailed now2 batch row (r & -> & Hr)%list_elem_of_fmap. cbn.
    apply list_elem_of_filter in Hr as [_ Hr%limit_elem_of]. apply elem_of_order_by, list_elem_of_filter in Hr as [[_ Hf] Hr].
    intros Heq. specialize (Hfailed r Hr Heq). lia.
Qed.
(** ** Removal *)

(** What the database has of a contact. *)
Record traces_gone (contact : bytes) (group_id : option bytes) (db : daemon_db) : Prop := {
  tg_contact : rows_of contact (d_contacts db) = [];
  tg_queued : ∀ r, r ∈ t_rows (d_outbox db) → ob_target r ≠ contact;
  tg_pending : pw_is_pending contact (d_pending db) = false;
  tg_acks : ∀ r, r ∈ d_acks db → ak_identity r ≠ contact;
  tg_group : ∀ gid, group_id = Some gid → groups_get gid (d_groups db) = None;
  tg_history : ∀ gid, group_id = Some gid → in_group gid (rd_messages (d_recv db)) = []
}.

Definition purged_db (contact : bytes) (group_id : option bytes) (db : daemon_db) : daemon_db :=
  fset f_contacts (Contacts.remove contact (d_contacts db)).1
    (fset f_outbox (Outbox.delete_by_target_in_tx contact (d_outbox db))
      (fset f_acks (ack_delete_by_peer_in_tx contact (d_acks db))
        (fset f_pending (pw_delete contact (d_pending db))
          match group_id with
          | Some gid => fset f_messages (delete_by_group_in_tx gid (rd_messages (d_recv db)))
                          (fset f_groups (groups_delete_in_tx gid (d_groups db)) db)
          | None => db
          end))).

Lemma purge_contact_Ok contact group_id db : purge_contact contact group_id db = (purged_db contact group_id db, Ok tt).
Proof. unfold purge_contact, atomically. by destruct group_id. Qed.

Lemma purged_gone contact group_id db : traces_gone contact group_id (purged_db contact group_id db).
Proof.
  split.
  - change (rows_of contact (Contacts.remove contact (d_contacts db)).1 = []). rewrite rows_of_remove. by rewrite decide_True.
  - unfold purged_db, delete_by_target_in_tx. cbn. by intros r [? _]%list_elem_of_filter.
  - unfold purged_db. cbn. apply not_true_iff_false. rewrite pw_pending_iff. intros (r & -> & [? _]%list_elem_of_filter)%list_elem_of_fmap. done.
  - unfold purged_db, ack_delete_by_peer_in_tx. cbn. by intros r [? _]%list_elem_of_filter.
  - intros gid ->. unfold purged_db, groups_get, groups_delete_in_tx. cbn. rewrite filter_none; [done|].
    by intros r [? _]%list_elem_of_filter.
  - intros gid ->. unfold purged_db, in_group, delete_by_group_in_tx, delete_where. cbn. apply filter_none.
    by intros r [? _]%list_elem_of_filter.
Qed.

Lemma rows_of_update id id' f db :
  (∀ r, c_identity_pubkey (f r) = c_identity_pubkey r) →
  rows_of id' (update_contact id f db).1 = if decide (id' = id) then f <$> rows_of id' db else rows_of id' db.
Proof.
  intros Hf. unfold update_contact, t_update, rows_of, set_contacts. cbn [fst contacts t_rows].
  induction (t_rows (contacts db)) as [|r l IH]; [by case_decide|].
  rewrite fmap_cons, !filter_cons, IH. destruct (decide (c_identity_pubkey r = id)) as [Hr|Hr].
  - rewrite Hf, Hr. destruct (decide (id' = id)) as [->|Hne]; [by rewrite !decide_True|by rewrite !decide_False].
  - destruct (decide (id' = id)) as [->|Hne]; [by rewrite !decide_False|done].
Qed.

Lemma known_contact_rows contact d d' : known_contact contact d = (d', Ok tt) → d' = d ∧ rows_of contact (d_contacts (dm_db d)) ≠ [].
Proof.
  unfold known_contact, bind_action, try_read, read_try, ensure. change (fget (of_db f_contacts) d) with (d_contacts (dm_db d)).
  unfold Contacts.get. destruct (rows_of contact _) as [|row l]; [done|]. cbn. destruct (latest_card _ _); [|done].
  by intros [= <-].
Qed.

Lemma set_hidden_known contact c : rows_of contact c ≠ [] → set_hidden contact true c = ((update_contact contact (with_hidden 1) c).1, Ok tt).
Proof.
  intros Hne. unfold set_hidden, update_existing. destruct (update_contact contact (with_hidden 1) c) as [c' n] eqn:E.
  rewrite decide_False; [done|]. unfold update_contact, t_update in E. injection E as _ <-.
  unfold rows_of in Hne. destruct (filter _ _); [done|]. lens.
Qed.

(** The rest of the database, as another contact sees it. *)
Definition others_kept (contact : bytes) (db db' : daemon_db) : Prop := ∀ other, other ≠ contact →
  rows_of other (d_contacts db') = rows_of other (d_contacts db) ∧
  filter (λ r, ob_target r = other) (t_rows (d_outbox db')) = filter (λ r, ob_target r = other) (t_rows (d_outbox db)) ∧
  pw_is_pending other (d_pending db') = pw_is_pending other (d_pending db).

Lemma purged_others contact group_id db : others_kept contact db (purged_db contact group_id db).
Proof.
  intros other Hne. split_and!.
  - change (rows_of other (Contacts.remove contact (d_contacts db)).1 = rows_of other (d_contacts db)).
    rewrite rows_of_remove. by rewrite decide_False.
  - unfold purged_db, delete_by_target_in_tx. cbn. apply filter_filter_in. intros r _ Hr. congruence.
  - unfold purged_db. cbn. rewrite pw_delete_pending. rewrite bool_decide_eq_false_2 by done. by rewrite andb_true_r.
Qed.

(** Removing a contact is complete.  A contact whose Welcome is still pending
    is purged: no row, card, queued message, acknowledgement record, pending
    Welcome, group or message of its conversation is left.  One that joined is
    hidden, its history kept.  Either way it is no longer pending, subscribers are
    told, and every other contact keeps its row, its queue and its state; an error
    changes nothing. *)
Theorem remove_contact_exact contact d d' r :
  remove_contact contact d = (d', r) →
  match r with
  | Err e => d' = d ∧ e ≠ Abort
  | Ok res =>
      let purged := pw_is_pending contact (d_pending (dm_db d)) in
      res = Res_ContactRemoved purged ∧ dm_events d' = dm_events d ++ [Ev_ContactRemoved contact] ∧
      pw_is_pending contact (d_pending (dm_db d')) = false ∧ others_kept contact (dm_db d) (dm_db d') ∧
      if purged then traces_gone contact (get_group_id contact (d_contacts (dm_db d))) (dm_db d')
      else d_recv (dm_db d') = d_recv (dm_db d) ∧ d_groups (dm_db d') = d_groups (dm_db d) ∧
        d_outbox (dm_db d') = d_outbox (dm_db d) ∧
        rows_of contact (d_contacts (dm_db d')) = with_hidden 1 <$> rows_of contact (d_contacts (dm_db d))
  end.
Proof.
  unfold remove_contact. unfold bind_action at 1. destruct (known_contact contact d) as [d0 [[]|e]] eqn:Ek.
  2:{ unfold known_contact, bind_action, try_read, read_try, ensure in Ek.
      destruct (Contacts.get _ _) as [[c|]|e0]; simplify_eq/=; intros [= <- <-]; done. }
  apply known_contact_rows in Ek as [-> Hrows]. unfold bind_action at 1, read at 1.
  change (fget (of_db f_pending) d) with (d_pending (dm_db d)). destruct (pw_is_pending contact _) eqn:Hp.
  - unfold bind_action at 1. unfold bind_action at 1, read at 1. change (fget (of_db f_contacts) d) with (d_contacts (dm_db d)).
    unfold try, map_error, on. change (fget f_db d) with (dm_db d). rewrite purge_contact_Ok. intros [= <- <-]. cbv zeta.
    split_and!; try done; [apply purged_gone|apply purged_others|apply purged_gone].
  - unfold bind_action at 1. unfold bind_action at 1, try, map_error, on. change (fget (of_db f_contacts) d) with (d_contacts (dm_db d)).
    rewrite set_hidden_known by done. intros [= <- <-]. cbv zeta. split_and!; try done.
    + cbn. rewrite pw_delete_pending, Hp. done.
    + intros other Hne. split_and!; [|done|].
      * change (rows_of other (update_contact contact (with_hidden 1) (d_contacts (dm_db d))).1 = rows_of other (d_contacts (dm_db d))).
        rewrite rows_of_update by done. by rewrite decide_False.
      * cbn. rewrite pw_delete_pending, bool_decide_eq_false_2 by done. by rewrite andb_true_r.
    + change (rows_of contact (update_contact contact (with_hidden 1) (d_contacts (dm_db d))).1 = with_hidden 1 <$> rows_of contact (d_contacts (dm_db d))).
      rewrite rows_of_update by done. by rewrite decide_True.
Qed.
End contact_facts.

(** ** Witnesses *)

Import SampleInstances.

Lemma add_contact_once_witness :
  add_contact bob (λ _, Ok transcript) (fill 32 Byte.x03) (fill 32 Byte.x05) 1200 1200000 invite_url bob_added
    = (bob_added, Err (daemon_error Daemon_InviteConsumed)) ∧
  pw_is_pending (public alice) (d_pending (dm_db bob_added)) = true.
Proof.
  destruct (add_contact bob (λ _, Ok transcript) (fill 32 Byte.x03) (fill 32 Byte.x04) 1100 1100000 invite_url (start empty_db))
    as [d' r] eqn:E.
  pose proof (add_contact_once bob (Some bob) true _ _ _ _ _ _ _ _ _ E) as H.
  assert (∃ res, r = Ok res) as [res ->] by (change r with (d', r).2; rewrite <- E; vm_compute; eauto).
  assert (bob_added = d') as -> by (unfold bob_added; by rewrite E).
  destruct H as (link & g & Hu & _ & _ & _ & Hp & _ & _ & Hlater). destruct (Hlater d' (rtc_refl _ d')) as [Hagain _].
  assert (from_url invite_url 1100 = Ok sample_link) as Hl by (vm_compute; reflexivity).
  rewrite Hl in Hu. injection Hu as <-. split; [rewrite (Hagain (λ _, Ok transcript)); reflexivity|exact Hp].
Defined.

(** Bob's first contact fails, and Bob accepts a second invite. *)
Definition bob_failed : daemon :=
  fset (of_db f_pending) (pw_mark_failed (public alice) (d_pending (dm_db bob_added))) bob_added.
Definition second_url : string :=
  match (create_invite alice (Some "alice.onion") (fill 32 Byte.x11) (fill 32 Byte.x12) 2000 None None alice_invited).2 with
  | Ok (Res_InviteCreated url _ _) => url | _ => EmptyString end.

Lemma readd_keeps_old_welcome_witness :
  let again := add_contact bob (λ _, Ok transcript) (fill 32 Byte.x13) (fill 32 Byte.x14) 2100 2100000 second_url bob_failed in
  is_ok again.2 = true ∧ d_pending (dm_db again.1) = d_pending (dm_db bob_failed) ∧
  ∀ now2 batch row, row ∈ pw_due now2 batch (d_pending (dm_db again.1)) → pd_peer row ≠ public alice.
Proof.
  intros again. destruct again as [d' r] eqn:E.
  assert (∃ res, r = Ok res) as [res ->] by (change r with (d', r).2; rewrite <- E; vm_compute; eauto).
  destruct (from_url second_url 2100) as [link|e] eqn:El; [|vm_compute in El; discriminate].
  assert (inviter_of link = public alice) as Hi.
  { assert (match from_url second_url 2100 with Ok l => inviter_of l | Err _ => [] end = public alice) as H
      by (vm_compute; reflexivity). by rewrite El in H. }
  destruct (readd_keeps_old_welcome bob _ _ _ _ _ _ _ _ _ _ E El) as (Hsame & _ & _ & Hdue).
  { rewrite Hi. vm_compute. reflexivity. }
  split; [done|]. split; [exact Hsame|]. rewrite Hi in Hdue. apply Hdue. intros row Hrow _.
  assert (∃ r, d_pending (dm_db bob_failed) = [r] ∧ pw_failed r = 1) as (r & Hl & Hf) by (eexists; vm_compute; split; reflexivity).
  rewrite Hl in Hrow. by apply list_elem_of_singleton in Hrow as ->.
Defined.

Lemma remove_contact_exact_witness :
  let d' := (remove_contact (public alice) bob_added).1 in
  traces_gone (public alice) (Some (fill 32 Byte.x04)) (dm_db d').
Proof.
  intros d'. destruct (remove_contact (public alice) bob_added) as [d1 r] eqn:E.
  pose proof (remove_contact_exact (public alice) bob_added d1 r E) as H.
  assert (∃ res, r = Ok res) as [res ->] by (change r with (d1, r).2; rewrite <- E; vm_compute; eauto).
  destruct H as (_ & _ & _ & _ & H).
  assert (pw_is_pending (public alice) (d_pending (dm_db bob_added)) = true) as Hp by (vm_compute; reflexivity).
  assert (get_group_id (public alice) (d_contacts (dm_db bob_added)) = Some (fill 32 Byte.x04)) as Hg by (vm_compute; reflexivity).
  rewrite Hp, Hg in H. exact H.
Defined.
