(* ===== verification/Disk.v ===== *)
(** * Disk: files, failing operations and crashes

    The file operations the sources use, on a disk that maps paths to contents.
    Every operation consults a plan of faults: it can succeed, fail, or the process
    can die in it, and a write that fails or dies has written a prefix.  A program
    is an [action] on the disk whose errors are [Failed e], which Rust code can
    handle, and [Crashed], which ends the process where it stands.  A statement
    about all plans is a statement about all failures and all points of a crash. *)

From S2P Require Import Prelude Text CoreErrors.

(** A path as [dir.join(name)] makes it: the directory and the file name. *)
Definition path : Type := string * string.
#[global] Instance path_eq_dec : EqDecision path := prod_eq_dec.
#[global] Instance path_countable : Countable path := prod_countable.

(** The files of a disk. *)
Abbreviation tree := (gmap path bytes).

Record io_error : Type := mkIoError { io_not_found : bool; io_text : string }.

Inductive fault : Type := Fine | Faulty (e : io_error) (written : nat) | Dies (written : nat).

Record disk : Type := mkDisk { files : tree; plan : list fault }.

Inductive stop (E : Type) : Type := Failed (e : E) | Crashed.
Arguments Failed {E} e.
Arguments Crashed {E}.

Abbreviation io T := (action disk T (stop io_error)).
Abbreviation prog T := (action disk T (stop CoreError)).

(** ** Operations *)

(** One system call: [done] is its effect, [torn n] what is left of it when it
    stops after [n] bytes. *)
Definition syscall {T} (done : tree → result (tree * T) io_error)
    (torn : nat → tree → tree) : io T := λ d,
  match plan d with
  | Faulty e n :: p => (mkDisk (torn n (files d)) p, Err (Failed e))
  | Dies n :: p => (mkDisk (torn n (files d)) p, Err Crashed)
  | p =>
      match done (files d) with
      | Ok (m, t) => (mkDisk m (tail p), Ok t)
      | Err e => (mkDisk (files d) (tail p), Err (Failed e))
      end
  end.

Definition not_found : io_error := mkIoError true "No such file or directory (os error 2)".

Definition untouched (n : nat) (m : tree) : tree := m.

(** [fs::read]. *)
Definition fs_read (p : path) : io bytes :=
  syscall (λ m, match m !! p with Some b => Ok (m, b) | None => Err not_found end) untouched.

(** [File::create]. *)
Definition fs_create (p : path) : io unit := syscall (λ m, Ok (<[p := []]> m, tt)) untouched.

Definition appended (p : path) (b : bytes) (m : tree) : tree :=
  <[p := default [] (m !! p) ++ b]> m.

(** [Write::write_all] at the end of an open file. *)
Definition fs_append (p : path) (b : bytes) : io unit :=
  syscall (λ m, Ok (appended p b m, tt)) (λ n, appended p (take n b)).

(** [fs::write]. *)
Definition fs_write (p : path) (b : bytes) : io unit :=
  let! _ := fs_create p in fs_append p b.

(** [fs::rename]. *)
Definition fs_rename (p q : path) : io unit :=
  syscall (λ m, match m !! p with Some b => Ok (<[q := b]> (base.delete p m), tt) | None => Err not_found end) untouched.

(** [fs::remove_file]. *)
Definition fs_remove (p : path) : io unit :=
  syscall (λ m, match m !! p with Some _ => Ok (base.delete p m, tt) | None => Err not_found end) untouched.

(** A call that changes no file's contents: [sync_all], [create_dir_all],
    [set_permissions], [lock]. *)
Definition fs_other : io unit := syscall (λ m, Ok (m, tt)) untouched.

(** ** Handling errors *)

Definition map_stop {S T E F} (f : E → F) (c : action S T (stop E)) : action S T (stop F) := λ s,
  match c s with
  | (s', Ok t) => (s', Ok t)
  | (s', Err (Failed e)) => (s', Err (Failed (f e)))
  | (s', Err Crashed) => (s', Err Crashed)
  end.

(** [?] on an [io::Error]. *)
Definition io_err {T} (c : io T) : prog T := map_stop (λ e, Core_Io (io_text e)) c.
(** [.map_err(|e| CoreError::Storage(StorageErrorKind::Other(format!("{what}: {e}"))))]. *)
Definition storage_err {T} (what : string) (c : io T) : prog T :=
  map_stop (λ e, Core_Storage (Storage_Other (what +:+ ": " +:+ io_text e))) c.
(** An error of a library call. *)
Definition lib_err {T} (f : string → CoreError) (r : result T string) : prog T :=
  lift (map_err (λ e, Failed (f e)) r).
Definition storage_other (what : string) (e : string) : CoreError :=
  Core_Storage (Storage_Other (what +:+ ": " +:+ e)).

(** [let _ = c;]. *)
Definition attempt {S T E F} (c : action S T (stop E)) : action S unit (stop F) := λ s,
  match c s with
  | (s', Err Crashed) => (s', Err Crashed)
  | (s', _) => (s', Ok tt)
  end.

(** [match c { Ok(t) => Ok(t), Err(e) => { h; Err(e) } }]. *)
Definition or_else {S T E} (c : action S T (stop E)) (h : action S unit (stop E)) : action S T (stop E) := λ s,
  match c s with
  | (s', Err (Failed e)) =>
      match h s' with
      | (s'', Err Crashed) => (s'', Err Crashed)
      | (s'', _) => (s'', Err (Failed e))
      end
  | r => r
  end.

(** [Path::exists]: looking a file up does not fail, but the process can die. *)
Definition exists_ {E} (p : path) : action disk bool (stop E) := λ d,
  match plan d with
  | Dies _ :: pl => (mkDisk (files d) pl, Err Crashed)
  | pl => (mkDisk (files d) (tail pl), Ok (bool_decide (is_Some (files d !! p))))
  end.

(** ** Paths *)

Definition join_path (dir name : string) : path := (dir, name).

(** The bytes before the last dot of a file name that has one past its first
    byte. *)
Fixpoint last_dot (i : nat) (s : string) (best : option nat) : option nat :=
  match s with
  | EmptyString => best
  | String a s' => last_dot (S i) s' (if decide (a = Ascii.ascii_of_nat 46 ∧ i ≠ O) then Some i else best)
  end.
Definition file_stem (name : string) : string :=
  match last_dot 0 name None with
  | Some i => String.substring 0 i name
  | None => name
  end.

(** [Path::with_extension] with a non-empty extension. *)
Definition with_extension (ext : string) (p : path) : path := (p.1, file_stem p.2 +:+ "." +:+ ext).

(** [Path::display]. *)
Definition path_display (p : path) : string := p.1 +:+ "/" +:+ p.2.

(** ** What can happen

    [leads c P]: however the operations of [c] turn out, it ends with [P] of the
    files: of those after success with the result, or of those where it stopped. *)

Definition leads {T E : Type} (P : tree → Prop) (c : action disk T (stop E))
    (Q : T → tree → Prop) (R : tree → Prop) : Prop :=
  ∀ d, P (files d) → match (c d).2 with Ok t => Q t (files (c d).1) | Err _ => R (files (c d).1) end.

Section leads.
Context {E : Type}.
Implicit Types P R : tree → Prop.

Lemma leads_bind {T U : Type} P (c : action disk T (stop E)) Q (k : T → action disk U (stop E)) Q' R :
  leads P c Q R → (∀ t, leads (Q t) (k t) Q' R) → leads P (bind_action c k) Q' R.
Proof.
  intros Hc Hk d H. specialize (Hc d H). unfold bind_action. destruct (c d) as [d' [t|e]]; [|done]. by apply Hk.
Qed.

Lemma leads_pre {T} P P' (c : action disk T (stop E)) Q R : (∀ m, P' m → P m) → leads P c Q R → leads P' c Q R.
Proof. intros HP H d Hd. by apply H, HP. Qed.
Lemma leads_post {T} P (c : action disk T (stop E)) (Q Q' : T → tree → Prop) R R' :
  (∀ t m, Q t m → Q' t m) → (∀ m, R m → R' m) → leads P c Q R → leads P c Q' R'.
Proof. intros HQ HR H d Hd. specialize (H d Hd). destruct (c d) as [d' [t|e]]; simpl in *; auto. Qed.

Lemma leads_lift {T} P (r : result T (stop E)) Q R :
  (∀ t m, r = Ok t → P m → Q t m) → (∀ m, P m → R m) → leads P (lift r) Q R.
Proof. intros HQ HR d Hd. simpl. destruct r; auto. Qed.

Lemma leads_ensure P (b : bool) (e : stop E) R :
  (∀ m, P m → R m) → leads P (ensure b e) (λ _ m, P m ∧ b = true) R.
Proof. intros HR d Hd. unfold ensure. destruct b; simpl; auto. Qed.

Lemma leads_attempt {T F : Type} P (c : action disk T (stop F)) (Q : tree → Prop) R :
  leads P c (λ _, Q) R → (∀ m, R m → Q m) → leads P (attempt (F := E) c) (λ _, Q) R.
Proof.
  intros H HR d Hd. specialize (H d Hd). unfold attempt. destruct (c d) as [d' [t|[e|]]]; simpl in *; auto.
Qed.

Lemma leads_or_else {T} P (c : action disk T (stop E)) h Q R :
  leads P c Q R → leads R h (λ _, R) R → leads P (or_else c h) Q R.
Proof.
  intros Hc Hh d Hd. specialize (Hc d Hd). unfold or_else. destruct (c d) as [d' [t|[e|]]]; simpl in *; [done| |done].
  specialize (Hh d' Hc). destruct (h d') as [d'' [[]|[e'|]]]; simpl in *; done.
Qed.

Lemma leads_map_stop {T F : Type} (f : F → E) P (c : action disk T (stop F)) Q R :
  leads P c Q R → leads P (map_stop f c) Q R.
Proof. intros H d Hd. specialize (H d Hd). unfold map_stop. by destruct (c d) as [d' [t|[e|]]]. Qed.

Lemma leads_exists P p R :
  (∀ m, P m → R m) →
  leads P (exists_ (E := E) p) (λ b m, P m ∧ b = bool_decide (is_Some (m !! p))) R.
Proof.
  intros HR [m pl] Hd. unfold exists_. cbn [plan files] in *. destruct pl as [|[|e n|n] pl]; simpl in *; auto.
Qed.
End leads.

Lemma leads_syscall {T : Type} (P : tree → Prop) (done : tree → result (tree * T) io_error) (torn : nat → tree → tree) (Q : T → tree → Prop) (R : tree → Prop) :
  (∀ m, P m → match done m with Ok (m', t) => Q t m' | Err _ => R m end) →
  (∀ m n, P m → R (torn n m)) →
  leads P (syscall done torn) Q R.
Proof.
  intros HQ HR [m p] Hd. unfold syscall. cbn [plan files] in *. specialize (HQ m Hd). specialize (HR m).
  destruct p as [|[|e n|n] p]; cbn; [destruct (done m) as [[m' t]|e]..| |]; cbn; auto.
Qed.

Lemma leads_read (P : tree → Prop) p (R : tree → Prop) : (∀ m, P m → R m) → leads P (fs_read p) (λ b m, P m ∧ m !! p = Some b) R.
Proof.
  intros HR. apply leads_syscall; [|by intros m n; apply HR]. intros m Hm. destruct (m !! p) eqn:E; auto.
Qed.
Lemma leads_create (P : tree → Prop) p (R Q : tree → Prop) :
  (∀ m, P m → R m) → (∀ m, P m → Q (<[p := []]> m)) → leads P (fs_create p) (λ _, Q) R.
Proof. intros HR HQ. apply leads_syscall; [done|by intros m n; apply HR]. Qed.
Lemma leads_append (P : tree → Prop) p b (R Q : tree → Prop) :
  (∀ m n, P m → R (appended p (take n b) m)) → (∀ m, P m → Q (appended p b m)) → leads P (fs_append p b) (λ _, Q) R.
Proof. intros HR HQ. apply leads_syscall; auto. Qed.
Lemma leads_rename (P : tree → Prop) p q (R Q : tree → Prop) :
  (∀ m, P m → R m) → (∀ m b, P m → m !! p = Some b → Q (<[q := b]> (base.delete p m))) →
  leads P (fs_rename p q) (λ _, Q) R.
Proof.
  intros HR HQ. apply leads_syscall; [|by intros m n; apply HR]. intros m Hm. destruct (m !! p) eqn:E; auto.
Qed.
Lemma leads_remove (P : tree → Prop) p (R Q : tree → Prop) :
  (∀ m, P m → R m) → (∀ m, P m → Q (base.delete p m)) → leads P (fs_remove p) (λ _, Q) R.
Proof.
  intros HR HQ. apply leads_syscall; [|by intros m n; apply HR]. intros m Hm. destruct (m !! p) eqn:E; auto.
Qed.
Lemma leads_other (P : tree → Prop) (R : tree → Prop) : (∀ m, P m → R m) → leads P fs_other (λ _, P) R.
Proof. intros HR. apply leads_syscall; [done|by intros m n; apply HR]. Qed.
