(* ===== verification/Pool.v ===== *)
(** * Pool: the encrypted database file

    [crates/core/src/storage/pool.rs] and [storage/migrations.rs]: the database is
    a plaintext SQLite file while the daemon runs and an age-encrypted one
    otherwise.  Opening decrypts it, applies the migrations and, when a plaintext
    was left behind, encrypts it again; closing encrypts it and removes the
    plaintext.  All of it runs on [Disk], so operations fail and the process dies
    wherever the plan says.

    SQLite is the class [Sqlite]: which database a main file and a write-ahead log
    stand for, and what commits and checkpoints do to the two.  Age is the class
    [Age]; a decryption yields its plaintext in pieces and can fail after some. *)

From S2P Require Import Prelude Text CoreErrors Attachments Disk.

(** ** Libraries *)

Class Sqlite (D : Type) : Type := {
  sq_recover : bytes → bytes → result D string;            (** main file and log *)
  sq_commit : bytes → bytes → D → bytes * bytes;            (** a commit of a new content *)
  sq_commit_torn : nat → bytes → bytes → D → bytes * bytes; (** a commit cut short *)
  sq_checkpoint : bytes → bytes → bytes;                    (** [wal_checkpoint(TRUNCATE)] empties the log *)
  sq_checkpoint_torn : nat → bytes → bytes → bytes;
  sq_vacuum : D → bytes;                                    (** [VACUUM INTO] *)
  sq_version_table : D → D;                                 (** [CREATE TABLE IF NOT EXISTS schema_version] *)
  sq_version : D → result Z string;                         (** [COALESCE(MAX(version), 0)] *)
  sq_migration : Z → D → result D string;                   (** the SQL of migration [n] *)
  sq_set_version : Z → D → result D string                  (** [INSERT OR REPLACE INTO schema_version] *)
}.

Inductive age_write_error : Type := Age_Recipients (e : string) | Age_Wrap (e : string) | Age_Write (e : string) | Age_Finish (e : string).
Inductive age_read_error : Type := Age_Decryptor (e : string) | Age_NotScrypt | Age_Decrypt (e : string).

Class Age : Type := {
  (** work factor, passphrase, random bytes, plaintext *)
  age_encrypt : Z → string → bytes → bytes → result bytes age_write_error;
  (** largest work factor, passphrase, ciphertext: the pieces read, and the error
      that ended the reading *)
  age_decrypt : Z → string → bytes → result (list bytes * option string) age_read_error
}.

(** ** [migrations.rs] *)

(** [ALL_MIGRATIONS]: 0001_init.sql to 0021_messages_delivery_outcome.sql. *)
Definition ALL_MIGRATIONS : list Z := seqZ 1 21.
Definition max_known : Z := foldr Z.max 0 ALL_MIGRATIONS.

Section pool.
Context {D : Type} {sq : Sqlite D} {age : Age} {crypto : AttachmentCrypto}.

(** *** The connection *)

Definition wal_of (working : path) : path := (working.1, working.2 +:+ "-wal").
Definition shm_of (working : path) : path := (working.1, working.2 +:+ "-shm").

Definition main_bytes (working : path) (m : tree) : bytes := default [] (m !! working).
Definition wal_bytes (working : path) (m : tree) : bytes := default [] (m !! wal_of working).
Definition set_db (working : path) (f : bytes * bytes) (m : tree) : tree :=
  <[wal_of working := f.2]> (<[working := f.1]> m).

(** The database a connection to [working] sees. *)
Definition db_at (working : path) (m : tree) : result D string := sq_recover (main_bytes working m) (wal_bytes working m).

Definition sqlite_error (e : string) : io_error := mkIoError false e.

(** [Connection::open] creates a missing file. *)
Definition db_open (working : path) : io unit :=
  syscall (λ m, Ok (<[working := main_bytes working m]> m, tt)) untouched.

Definition db_get (working : path) : io D :=
  syscall (λ m, let? d := map_err sqlite_error (db_at working m) in Ok (m, d)) untouched.

Definition db_commit (working : path) (d : D) : io unit :=
  syscall (λ m, Ok (set_db working (sq_commit (main_bytes working m) (wal_bytes working m) d) m, tt))
    (λ n m, set_db working (sq_commit_torn n (main_bytes working m) (wal_bytes working m) d) m).

Definition db_checkpoint (working : path) : io unit :=
  syscall (λ m, Ok (set_db working (sq_checkpoint (main_bytes working m) (wal_bytes working m), []) m, tt))
    (λ n m, <[working := sq_checkpoint_torn n (main_bytes working m) (wal_bytes working m)]> m).

Definition sqlite_err {T} (c : io T) : prog T := map_stop (λ e, Core_Sqlite (io_text e)) c.

(** Turning on WAL mode reads the file and rewrites its header. *)
Definition apply_pragmas (working : path) : prog unit :=
  let! _ := storage_err "pragma foreign_keys" fs_other in
  let! _ := storage_err "pragma journal_mode"
    (let! d := db_get working in db_commit working d) in
  storage_err "pragma synchronous" fs_other.

(** *** Migrations *)

(** The transaction of one migration, on the database. *)
Definition migrate_one (v : Z) (d : D) : result D string :=
  let? d := sq_migration v d in sq_set_version v d.

Fixpoint migrate_from (working : path) (current : Z) (todo : list Z) : prog unit :=
  match todo with
  | [] => lift (Ok tt)
  | v :: todo =>
      if decide (v ≤ current) then migrate_from working current todo
      else
        let! _ := sqlite_err (
          let! d := db_get working in
          let! d' := lift (map_err (λ e, Failed (sqlite_error e)) (migrate_one v d)) in
          db_commit working d') in
        migrate_from working current todo
  end.

Definition apply_migrations (working : path) : prog unit :=
  let! _ := sqlite_err (let! d := db_get working in db_commit working (sq_version_table d)) in
  let! current := storage_err "read schema_version" (
    let! d := db_get working in lift (map_err (λ e, Failed (sqlite_error e)) (sq_version d))) in
  let! _ := ensure (bool_decide (current ≤ max_known)) (Failed (Core_Storage (Storage_SchemaTooNew current max_known))) in
  migrate_from working current ALL_MIGRATIONS.

(** *** Encryption *)

Definition AGE_WORK_FACTOR : Z := 12.
Definition AGE_MAX_WORK_FACTOR : Z := 22.

Definition age_write_message (e : age_write_error) : string :=
  match e with
  | Age_Recipients e => "age recipients: " +:+ e
  | Age_Wrap e => "age wrap: " +:+ e
  | Age_Write e => "age write: " +:+ e
  | Age_Finish e => "age finish: " +:+ e
  end.
Definition age_read_message (e : age_read_error) : string :=
  match e with
  | Age_Decryptor e => "age decryptor: " +:+ e
  | Age_NotScrypt => "unexpected age recipient type on storage DB"
  | Age_Decrypt e => "age decrypt: " +:+ e
  end.

Fixpoint write_pieces (p : path) (pieces : list bytes) : prog unit :=
  match pieces with
  | [] => lift (Ok tt)
  | b :: pieces => let! _ := storage_err "write plaintext" (fs_append p b) in write_pieces p pieces
  end.

Definition decrypt_db (encrypted plaintext : path) (passphrase : string) : prog unit :=
  let! ciphertext := io_err (fs_read encrypted) in
  let! r := lift (map_err (λ e, Failed (Core_Storage (Storage_Other (age_read_message e))))
    (age_decrypt AGE_MAX_WORK_FACTOR passphrase ciphertext)) in
  let '(pieces, broken) := (r : list bytes * option string) in
  let! _ := storage_err "create plaintext" (fs_create plaintext) in
  let! _ := write_pieces plaintext pieces in
  let! _ := lift (match broken with
    | Some e => Err (Failed (storage_other "age read" e))
    | None => Ok tt
    end) in
  storage_err "sync plaintext" fs_other.

Definition encrypt_db (rng : bytes) (plaintext encrypted : path) (passphrase : string) : prog unit :=
  let! b := io_err (fs_read plaintext) in
  let! ciphertext := lift (map_err (λ e, Failed (Core_Storage (Storage_Other (age_write_message e))))
    (age_encrypt AGE_WORK_FACTOR passphrase rng b)) in
  let tmp := with_extension "age.tmp" encrypted in
  let! _ := storage_err "write ciphertext tmp" (fs_write tmp ciphertext) in
  storage_err "rename ciphertext" (fs_rename tmp encrypted).

(** *** [Pool] *)

Record Pool : Type := mkPool {
  encrypted_path : path; working_path : path; sentinel_path : path; passphrase : string
}.

Definition INFO_STORAGE_V1 : bytes := bytes_of_string "skattr-storage-v1".

Definition paths_in (data_dir : string) (passphrase : string) : Pool :=
  mkPool (join_path data_dir "skattr.sqlite.age") (join_path data_dir "skattr.sqlite")
    (join_path data_dir "skattr.sqlite.open") passphrase.

(** Before the connection is opened: whether a plaintext was left behind, and the
    decryption if none was. *)
Definition prepare (p : Pool) : prog bool :=
  let! residue := exists_ (working_path p) in
  let! enc := exists_ (encrypted_path p) in
  let! _ := (if enc : bool then
               let! w := exists_ (working_path p) in
               if w : bool then lift (Ok tt)
               else decrypt_db (encrypted_path p) (working_path p) (passphrase p)
             else lift (Ok tt)) in
  lift (Ok residue).

(** The re-encryption of what a crash left. *)
Definition recover_residue (rng : bytes) (p : Pool) (residue : bool) : prog unit :=
  if residue then
    let! _ := storage_err "boot checkpoint" (db_checkpoint (working_path p)) in
    encrypt_db rng (working_path p) (encrypted_path p) (passphrase p)
  else lift (Ok tt).

Definition connect (rng : bytes) (p : Pool) : prog unit :=
  let! residue := prepare p in
  let! _ := storage_err "open sqlite" (db_open (working_path p)) in
  let! _ := apply_pragmas (working_path p) in
  let! _ := apply_migrations (working_path p) in
  let! _ := recover_residue rng p residue in
  storage_err "write sentinel" (fs_write (sentinel_path p) []).

Definition pool_open (rng : bytes) (data_dir : string) (seed : bytes) : prog Pool :=
  let! _ := io_err fs_other in
  let! _ := io_err fs_other in
  let! key := lift (map_err Failed (hkdf_expand 32 seed INFO_STORAGE_V1)) in
  let p := paths_in data_dir (hex_encode key) in
  let! _ := connect rng p in
  lift (Ok p).

Definition remove_plaintext_artifacts (working sentinel : path) : prog unit :=
  let! _ := attempt (fs_remove working) in
  let! _ := attempt (fs_remove (wal_of working)) in
  let! _ := attempt (fs_remove (shm_of working)) in
  attempt (fs_remove sentinel).

(** A pool that is shared: its files, and whether the connection is still there. *)
Record session : Type := mkSession { se_disk : disk; se_conn : bool }.
Definition f_disk : field session disk := mkField se_disk (λ x s, mkSession x (se_conn s)).
Definition f_live : field session bool := mkField se_conn (λ x s, mkSession (se_disk s) x).

Abbreviation sess T := (action session T (stop CoreError)).

Definition pool_close (rng : bytes) (p : Pool) : sess unit :=
  let! live := on f_disk (exists_ (working_path p)) in
  if negb live then lift (Ok tt)
  else
    let! conn := read f_live id in
    let! _ := (if conn : bool then on f_disk (storage_err "wal_checkpoint" (db_checkpoint (working_path p)))
               else lift (Ok tt)) in
    let! _ := modify f_live (λ _, false) in
    on f_disk (
      let! _ := encrypt_db rng (working_path p) (encrypted_path p) (passphrase p) in
      remove_plaintext_artifacts (working_path p) (sentinel_path p)).

Definition pool_closed : CoreError := Core_Storage (Storage_Other "pool is closed").

Definition with_conn {T} (c : prog T) : sess T :=
  let! conn := read f_live id in
  let! _ := ensure conn (Failed pool_closed) in
  on f_disk c.

(** [Pool::transaction]: the body's changes are committed when it succeeds. *)
Definition pool_transaction {T} (p : Pool) (body : D → result (D * T) CoreError) : sess T :=
  with_conn (
    let! d := storage_err "begin tx" (db_get (working_path p)) in
    let! r := lift (map_err Failed (body d)) in
    let! _ := storage_err "commit" (db_commit (working_path p) r.1) in
    lift (Ok r.2)).

Definition snapshot_encrypted (rng : bytes) (p : Pool) (out_age : path) : sess unit := λ s,
  let snap := with_extension "snapshot" (working_path p) in
  let body : sess unit :=
    let! _ := with_conn (
      let! _ := storage_err "checkpoint" (db_checkpoint (working_path p)) in
      let! _ := attempt (fs_remove snap) in
      let! d := storage_err "vacuum into" (db_get (working_path p)) in
      storage_err "vacuum into" (fs_write snap (sq_vacuum d))) in
    on f_disk (encrypt_db rng snap out_age (passphrase p)) in
  match body s with
  | (s', Err Crashed) => (s', Err Crashed)
  | (s', r) =>
      match on f_disk (attempt (F := CoreError) (fs_remove snap)) s' with
      | (s'', Err Crashed) => (s'', Err Crashed)
      | (s'', _) => (s'', r)
      end
  end.
End pool.
