(* ===== verification/PoolProps.v ===== *)
(** * PoolProps: the database survives crashes, except one

    Over all plans of failures and crashes: a migration that is cut short is
    resumed, a transaction is committed or not, and whatever happens while a pool
    is opened on a plaintext, used or closed, the directory still holds the last
    committed database.  The exception is the decryption at start-up. *)

From S2P Require Import Prelude Text CoreErrors Attachments Disk Pool.

(** What SQLite documents: commits and checkpoints are atomic under a crash of the
    process, a checkpoint keeps the content, [CREATE TABLE IF NOT EXISTS] does
    nothing when the table is there, a version that was written is read back. *)
Class SqliteLaws (D : Type) {sq : Sqlite D} : Prop := {
  law_commit m w d d' : sq_recover m w = Ok d → let f := sq_commit m w d' in sq_recover f.1 f.2 = Ok d';
  law_commit_torn n m w d d' : sq_recover m w = Ok d →
    let f := sq_commit_torn n m w d' in sq_recover f.1 f.2 = Ok d ∨ sq_recover f.1 f.2 = Ok d';
  law_checkpoint m w d : sq_recover m w = Ok d → sq_recover (sq_checkpoint m w) [] = Ok d;
  law_checkpoint_torn n m w d : sq_recover m w = Ok d → sq_recover (sq_checkpoint_torn n m w) w = Ok d;
  law_vacuum d : sq_recover (sq_vacuum d) [] = Ok d;
  law_version_table d c : sq_version d = Ok c → sq_version_table d = d;
  law_version_table_version d : is_ok (sq_version (sq_version_table d)) = true;
  law_set_version v c d d' : v ∈ ALL_MIGRATIONS → migrate_one v d = Ok d' → sq_version d = Ok c → c < v →
    sq_version d' = Ok v
}.

Class AgeLaws {age : Age} : Prop := {
  law_age f max pass rng b ct : age_encrypt f pass rng b = Ok ct → f ≤ max →
    ∃ pieces, age_decrypt max pass ct = Ok (pieces, None) ∧ concat pieces = b
}.

Section props.
Context {D : Type} {sq : Sqlite D} {laws : SqliteLaws D} {age : Age} {age_laws : AgeLaws}.
Context (p : Pool).
Implicit Types (m : tree) (d : D).

Abbreviation working := (working_path p).
Abbreviation encrypted := (encrypted_path p).

(** The paths of a pool are different files. *)
Definition distinct_paths : Prop :=
  NoDup [working; wal_of working; shm_of working; encrypted; with_extension "age.tmp" encrypted; sentinel_path p].

(** ** Migrations as a function *)

Fixpoint migrate_pure (current : Z) (todo : list Z) (d : D) : result D string :=
  match todo with
  | [] => Ok d
  | v :: todo => if decide (v ≤ current) then migrate_pure current todo d
                 else let? d := migrate_one v d in migrate_pure current todo d
  end.

(** The database [Pool::open] makes of [d], if it is not newer than the code. *)
Definition upgrade (d : D) : option (result D string) :=
  let d := sq_version_table d in
  match sq_version d with
  | Ok c => if decide (c ≤ max_known) then Some (migrate_pure c ALL_MIGRATIONS d) else None
  | Err _ => None
  end.

Lemma migrate_skip c l1 l2 d : Forall (λ v, v ≤ c) l1 → migrate_pure c (l1 ++ l2) d = migrate_pure c l2 d.
Proof. induction 1 as [|v l1 Hv _ IH]; simpl; [done|]. by rewrite decide_True. Qed.
Lemma migrate_agree c c' l d : Forall (λ v, v ≤ c ↔ v ≤ c') l → migrate_pure c l d = migrate_pure c' l d.
Proof.
  intros H. revert d. induction H as [|v l Hv _ IH]; intros d; simpl; [done|].
  destruct (decide (v ≤ c)); [rewrite decide_True by tauto; apply IH|rewrite decide_False by tauto].
  destruct (migrate_one v d); simpl; [apply IH|done].
Qed.

(** The state of the loop: [todo] is left of the migrations, and of those the ones
    past [current] are also past the version reached. *)
Definition midway (current : Z) (todo : list Z) (d : D) : Prop :=
  ∃ past c, ALL_MIGRATIONS = past ++ todo ∧ sq_version d = Ok c ∧ current ≤ c ≤ max_known ∧
    Forall (λ v, v ≤ c) past ∧ Forall (λ v, v ≤ current ∨ c < v) todo.

Lemma midway_upgrade current todo d : midway current todo d → upgrade d = Some (migrate_pure current todo d).
Proof.
  intros (past & c & Hall & Hc & Hle & Hpast & Htodo). unfold upgrade.
  rewrite (law_version_table d c Hc), Hc, decide_True by lia. rewrite Hall, migrate_skip by done. f_equal.
  apply migrate_agree. eapply Forall_impl; [exact Htodo|]. intros v Hv. cbn in *. lia.
Qed.

Lemma migrations_sorted : StronglySorted Z.lt ALL_MIGRATIONS.
Proof. vm_compute. repeat (constructor; [|repeat constructor; lia]). constructor. Qed.
Lemma migrations_known : Forall (λ v, v ≤ max_known) ALL_MIGRATIONS.
Proof. apply Forall_forall. intros v [? ?]%elem_of_seqZ. change max_known with 21. lia. Qed.

Lemma midway_step current v todo d d' :
  midway current (v :: todo) d → current < v → migrate_one v d = Ok d' → midway current todo d'.
Proof.
  intros (past & c & Hall & Hc & Hle & Hpast & Htodo) Hv Hm. apply Forall_cons_1 in Htodo as [Hcv Htodo].
  pose proof migrations_sorted as Hs. pose proof migrations_known as Hk. rewrite Hall in Hs, Hk.
  apply Forall_app in Hk as [_ [Hvk _]%Forall_cons_1].
  assert (Forall (λ v', v < v') todo) as Hgt.
  { apply StronglySorted_app_1_r in Hs. by inversion Hs. }
  assert (v ∈ ALL_MIGRATIONS) by (rewrite Hall; apply elem_of_app; right; apply list_elem_of_here).
  exists (past ++ [v]), v. split_and!; [by rewrite <- (assoc_L (++))|by eapply law_set_version; eauto; lia|lia|lia| |].
  - apply Forall_app. split; [eapply Forall_impl; [exact Hpast|]; intros v' ?; cbn in *; lia|by constructor].
  - eapply Forall_impl; [exact Hgt|]. intros v' ?. cbn in *. lia.
Qed.

(** ** What the directory holds *)

(** A plaintext that recovers to [d]. *)
Definition live (d : D) (m : tree) : Prop := is_Some (m !! working) ∧ db_at working m = Ok d.

(** An encrypted copy of [d] that does not need a log. *)
Definition age_holds (d : D) (m : tree) : Prop := ∃ ct pieces,
  m !! encrypted = Some ct ∧ age_decrypt AGE_MAX_WORK_FACTOR (passphrase p) ct = Ok (pieces, None) ∧
  sq_recover (concat pieces) [] = Ok d.

(** No plaintext, and an encrypted copy that with the log left behind is [d]. *)
Definition at_rest (d : D) (ct : bytes) (pieces : list bytes) (m : tree) : Prop :=
  m !! working = None ∧ m !! encrypted = Some ct ∧
  age_decrypt AGE_MAX_WORK_FACTOR (passphrase p) ct = Ok (pieces, None) ∧
  sq_recover (concat pieces) (wal_bytes working m) = Ok d.

(** Neither: a new directory. *)
Definition unborn (d : D) (m : tree) : Prop :=
  m !! working = None ∧ m !! encrypted = None ∧ sq_recover [] (wal_bytes working m) = Ok d.

Definition holds (d : D) (m : tree) : Prop :=
  live d m ∨ (∃ ct pieces, at_rest d ct pieces m) ∨ unborn d m.

(** The decryption of [d] was cut short. *)
Definition torn (d : D) (m : tree) : Prop := ∃ ct pieces b,
  m !! encrypted = Some ct ∧ age_decrypt AGE_MAX_WORK_FACTOR (passphrase p) ct = Ok (pieces, None) ∧
  sq_recover (concat pieces) (wal_bytes working m) = Ok d ∧ m !! working = Some b ∧
  b `prefix_of` concat pieces ∧ b ≠ concat pieces.

(** A database that the migrations take to the same one as [d]. *)
Definition live_as (d : D) (m : tree) : Prop := ∃ d', live d' m ∧ upgrade d' = upgrade d.

Lemma live_live_as d m : live d m → live_as d m.
Proof. by exists d. Qed.

Context (distinct : distinct_paths).

Lemma working_wal : working ≠ wal_of working.
Proof using distinct.
  unfold distinct_paths in distinct. rewrite NoDup_cons in distinct. destruct distinct as [H _].
  intros E. apply H. rewrite <- E. apply list_elem_of_here.
Qed.

Lemma db_at_set f m : db_at working (set_db working f m) = sq_recover f.1 f.2.
Proof using distinct.
  unfold db_at, main_bytes, wal_bytes, set_db. pose proof working_wal.
  by rewrite lookup_insert_ne, !lookup_insert_eq by done.
Qed.
Lemma live_set f m d : sq_recover f.1 f.2 = Ok d → live d (set_db working f m).
Proof using distinct.
  intros H. split; [|by rewrite db_at_set]. unfold set_db. pose proof working_wal.
  rewrite lookup_insert_ne, lookup_insert_eq by done. eauto.
Qed.

Lemma leads_db_get d : leads (live d) (db_get working) (λ d' m, live d m ∧ d' = d) (live d).
Proof using Type.
  apply leads_syscall; [|by intros m n]. intros m [? H]. rewrite H. simpl. by split.
Qed.
Lemma leads_db_commit d d' : leads (live d) (db_commit working d') (λ _, live d') (λ m, live d m ∨ live d' m).
Proof using distinct laws.
  apply leads_syscall.
  - intros m [? H]. apply live_set. by apply (law_commit _ _ d).
  - intros m n [? H]. destruct (law_commit_torn n _ _ d d' H); [left|right]; by apply live_set.
Qed.
Lemma leads_checkpoint d :
  leads (live d) (db_checkpoint working) (λ _ m, live d m ∧ wal_bytes working m = []) (live d).
Proof using distinct laws.
  apply leads_syscall.
  - intros m [? H]. split; [apply live_set; by apply law_checkpoint|]. unfold wal_bytes, set_db. by rewrite lookup_insert_eq.
  - intros m n [? H]. split; [rewrite lookup_insert_eq; eauto|]. pose proof working_wal.
    unfold db_at, main_bytes, wal_bytes in *. rewrite lookup_insert_eq, lookup_insert_ne by done.
    by apply law_checkpoint_torn.
Qed.

(** ** Opening *)

(** A commit of a database that the migrations take to the same one. *)
Lemma leads_commit_as d d' d0 :
  upgrade d = upgrade d0 → upgrade d' = upgrade d0 →
  leads (live d) (db_commit working d') (λ _, live d') (live_as d0).
Proof using distinct laws.
  intros H H'. eapply leads_post; [| |apply leads_db_commit]; [done|]. intros m [?|?]; [by exists d|by exists d'].
Qed.

Lemma leads_get_as d0 : leads (live_as d0) (db_get working) (λ d m, live d m ∧ upgrade d = upgrade d0) (live_as d0).
Proof using Type.
  intros dk (d & Hl & Hu). pose proof (leads_db_get d dk Hl) as H.
  destruct (db_get working dk) as [dk' [d'|e]]; simpl in *; [|by exists d]. by destruct H as [? ->].
Qed.

Lemma leads_pragmas d :
  leads (live d) (apply_pragmas working) (λ _, live d) (live_as d).
Proof using distinct laws.
  unfold apply_pragmas. eapply leads_bind; [apply leads_map_stop, leads_other, live_live_as|intros []].
  eapply (leads_bind _ _ (λ _, live d)); [|intros []; apply leads_map_stop, leads_other, live_live_as].
  apply leads_map_stop. intros dk Hl. pose proof (leads_db_get d dk Hl) as H. unfold bind_action.
  destruct (db_get working dk) as [dk' [d'|e]]; simpl in *; [|by apply live_live_as]. destruct H as [H ->].
  by apply (leads_commit_as d d d).
Qed.

Lemma leads_migrate_from d0 current todo :
  leads (λ m, ∃ d, live d m ∧ midway current todo d ∧ upgrade d = upgrade d0) (migrate_from working current todo)
    (λ _ m, ∃ d, live d m ∧ upgrade d0 = Some (Ok d) ∧ upgrade d = upgrade d0) (live_as d0).
Proof using distinct laws.
  induction todo as [|v todo IH]; simpl.
  - intros dk (d & Hl & Hm & Hu). simpl. exists d. split_and!; [done| |done]. rewrite <- Hu. by rewrite (midway_upgrade _ _ _ Hm).
  - case_decide as Hv.
    + eapply leads_pre; [|exact IH]. intros m (d & Hl & Hm & Hu). exists d. split_and!; [done| |done].
      destruct Hm as (past & c & Hall & Hc & Hle & Hp & Ht). exists (past ++ [v]), c.
      apply Forall_cons_1 in Ht as [_ Ht]. split_and!; [by rewrite <- (assoc_L (++))|done|lia|lia| |done].
      apply Forall_app. split; [done|]. constructor; [lia|done].
    + eapply (leads_bind _ _ (λ _ m, ∃ d, live d m ∧ midway current todo d ∧ upgrade d = upgrade d0)); [|intros []; exact IH]. apply leads_map_stop. intros dk (d & Hl & Hm & Hu).
      pose proof (leads_db_get d dk Hl) as H. unfold bind_action.
      destruct (db_get working dk) as [dk' [d'|e]]; simpl in *; [|by exists d]. destruct H as [H ->].
      destruct (migrate_one v d) as [d'|e] eqn:E; simpl; [|by exists d].
      assert (midway current todo d') as Hm' by (eapply midway_step; [exact Hm|lia|exact E]).
      assert (upgrade d' = upgrade d0) as Hu'.
      { rewrite <- Hu, (midway_upgrade _ _ _ Hm), (midway_upgrade _ _ _ Hm'). simpl.
        rewrite decide_False by lia. by rewrite E. }
      pose proof (leads_commit_as d d' d0 Hu Hu' dk' H) as Hc.
      destruct (db_commit working d' dk') as [? [[]|?]]; simpl in *; [by exists d'|done].
Qed.

Lemma upgrade_version_table d : upgrade (sq_version_table d) = upgrade d.
Proof using laws.
  unfold upgrade. pose proof (law_version_table_version d) as H.
  destruct (sq_version (sq_version_table d)) as [c|e] eqn:E; [|done]. by rewrite (law_version_table _ _ E), E.
Qed.

Lemma leads_apply_migrations d :
  leads (live d) (apply_migrations working)
    (λ _ m, ∃ d', live d' m ∧ upgrade d = Some (Ok d') ∧ upgrade d' = upgrade d) (live_as d).
Proof using distinct laws.
  unfold apply_migrations. eapply leads_bind with (Q := λ _, live (sq_version_table d)).
  { apply leads_map_stop. intros dk Hl. pose proof (leads_db_get d dk Hl) as H. unfold bind_action.
    destruct (db_get working dk) as [dk' [d'|e]]; simpl in *; [|by exists d]. destruct H as [H ->].
    by apply (leads_commit_as d _ d); [|apply upgrade_version_table|]. }
  intros []. set (d1 := sq_version_table d).
  eapply leads_bind with (Q := λ c m, live d1 m ∧ sq_version d1 = Ok c).
  { apply leads_map_stop. intros dk Hl. pose proof (leads_db_get d1 dk Hl) as H. unfold bind_action.
    destruct (db_get working dk) as [dk' [d'|e]]; simpl in *.
    - destruct H as [H ->]. destruct (sq_version d1) as [c|e] eqn:E; simpl; [done|].
      exists d1. split; [done|apply upgrade_version_table].
    - exists d1. split; [done|apply upgrade_version_table]. }
  intros c. eapply leads_bind; [apply leads_ensure|].
  { intros m [? _]. exists d1. split; [done|apply upgrade_version_table]. }
  intros []. eapply leads_pre; [|apply leads_migrate_from].
  intros m [[Hl Hc] Hle%bool_decide_eq_true]. exists d1. split_and!; [done| |apply upgrade_version_table].
  exists [], c. split_and!; [done|done|lia|done|by constructor|]. apply Forall_forall. intros v _. lia.
Qed.

(** *** Encrypting *)

Abbreviation tmp := (with_extension "age.tmp" encrypted).

(** A change of another file. *)
Lemma live_frame d m m' : m' !! working = m !! working → m' !! wal_of working = m !! wal_of working → live d m → live d m'.
Proof using Type. unfold live, db_at, main_bytes, wal_bytes. by intros -> ->. Qed.
Lemma wal_frame m m' : m' !! wal_of working = m !! wal_of working → wal_bytes working m' = wal_bytes working m.
Proof using Type. unfold wal_bytes. by intros ->. Qed.

(** Different entries of the list of paths are different. *)
Ltac apart :=
  let H := fresh in
  pose proof distinct as H; unfold distinct_paths in H; rewrite ?NoDup_cons, ?elem_of_cons in H;
  intuition congruence.

(** [src] is encrypted to [dst]; nothing else changes but the temporary file. *)
Lemma leads_encrypt_file rng (P : tree → Prop) src dst b :
  let tmp := with_extension "age.tmp" dst in
  src ≠ tmp → tmp ≠ dst →
  (∀ m x, P m → P (<[tmp := x]> m)) → (∀ m x, P m → P (<[dst := x]> (base.delete tmp m))) →
  leads (λ m, P m ∧ m !! src = Some b) (encrypt_db rng src dst (passphrase p))
    (λ _ m, P m ∧ ∃ ct pieces, m !! dst = Some ct ∧
       age_decrypt AGE_MAX_WORK_FACTOR (passphrase p) ct = Ok (pieces, None) ∧ concat pieces = b) P.
Proof using age_laws.
  intros tmp Hsrc Hdst Htmp Hren. unfold encrypt_db.
  eapply leads_bind; [apply leads_map_stop, leads_read; by intros ? [? _]|]. intros b'.
  destruct (age_encrypt _ _ _ _) as [ct|e] eqn:E; [|by intros dk [[? _] _]]. cbn [map_err].
  eapply (leads_bind _ _ (λ ct' m, ct' = ct ∧ P m ∧ b' = b)); [by intros dk [[? ?] ?]; simplify_eq|]. intros ct'.
  eapply (leads_bind _ _ (λ _ m, P m ∧ b' = b ∧ m !! tmp = Some ct)).
  - apply leads_map_stop. unfold fs_write. eapply (leads_bind _ _ (λ _ m, ct' = ct ∧ P m ∧ b' = b ∧ m !! tmp = Some [])).
    + apply leads_create; [by intros m (_ & ? & _)|]. intros m (-> & ? & ->). rewrite lookup_insert_eq. auto.
    + intros []. apply leads_append; unfold appended.
      * intros m n (_ & ? & _). by apply Htmp.
      * intros m (-> & ? & -> & Ht). rewrite lookup_insert_eq. fold tmp. rewrite Ht. auto.
  - intros []. apply leads_map_stop, leads_rename; [by intros m [? _]|].
    intros m x (HP & -> & Ht) Hx. fold tmp in Hx. rewrite Ht in Hx. injection Hx as <-. split; [by apply Hren|].
    destruct (law_age _ AGE_MAX_WORK_FACTOR _ _ _ _ E) as (pieces & Hd & Hc); [by vm_compute|].
    exists ct, pieces. by rewrite lookup_insert_eq.
Qed.

(** A property of the plaintext and its log. *)
Definition plain_only (P : tree → Prop) : Prop :=
  ∀ m m', m' !! working = m !! working → m' !! wal_of working = m !! wal_of working → P m → P m'.

Lemma plain_live d : plain_only (λ m, live d m ∧ wal_bytes working m = []).
Proof using Type. intros m m' Hw Hl [? Hn]. split; [by eapply live_frame|]. by rewrite (wal_frame m). Qed.

Lemma leads_encrypt rng d :
  leads (λ m, live d m ∧ wal_bytes working m = []) (encrypt_db rng working encrypted (passphrase p))
    (λ _ m, live d m ∧ wal_bytes working m = [] ∧ age_holds d m) (λ m, live d m ∧ wal_bytes working m = []).
Proof using distinct age_laws.
  assert (working ≠ tmp) by apart. assert (wal_of working ≠ tmp) by apart. assert (tmp ≠ encrypted) by apart.
  assert (working ≠ encrypted) by apart. assert (wal_of working ≠ encrypted) by apart.
  intros dk [Hl Hw]. pose proof Hl as [[b Hb] Hr].
  pose proof (leads_encrypt_file rng (λ m, (live d m ∧ wal_bytes working m = []) ∧ m !! working = Some b) working encrypted b) as Henc.
  specialize (Henc ltac:(done) ltac:(done)).
  specialize (Henc ltac:(intros m x [? ?]; split; [eapply plain_live; [..|done]|]; by rewrite lookup_insert_ne)).
  specialize (Henc ltac:(intros m x [? ?]; split; [eapply plain_live; [..|done]|]; by rewrite lookup_insert_ne, lookup_delete_ne)).
  specialize (Henc dk ltac:(done)).
  destruct (encrypt_db _ _ _ _ dk) as [dk' [[]|e]]; cbn in *; [|by destruct Henc].
  destruct Henc as [[[Hl' Hw'] Hb'] (ct & pieces & He & Hd & Hc)]. split_and!; [done|done|].
  exists ct, pieces. split_and!; [done|done|]. rewrite Hc. destruct Hl' as [_ Hr']. unfold db_at, main_bytes in Hr'.
  by rewrite Hb', Hw' in Hr'.
Qed.

(** *** Decrypting *)

(** The plaintext written so far. *)
Definition partial (d : D) (ct : bytes) (pieces : list bytes) (b : bytes) (m : tree) : Prop :=
  m !! encrypted = Some ct ∧ age_decrypt AGE_MAX_WORK_FACTOR (passphrase p) ct = Ok (pieces, None) ∧
  sq_recover (concat pieces) (wal_bytes working m) = Ok d ∧ m !! working = Some b.

Lemma partial_torn d ct pieces b m : partial d ct pieces b m → b `prefix_of` concat pieces → live d m ∨ torn d m.
Proof using Type.
  intros (? & ? & Hr & Hb) ?. destruct (decide (b = concat pieces)) as [->|]; [left|right; by exists ct, pieces, b].
  split; [eauto|]. unfold db_at, main_bytes. by rewrite Hb.
Qed.

Lemma partial_set d ct pieces b b' m : partial d ct pieces b m → partial d ct pieces b' (<[working := b']> m).
Proof using distinct.
  intros (He & Hd & Hr & _). assert (encrypted ≠ working) by apart. pose proof working_wal.
  unfold partial. rewrite lookup_insert_eq, lookup_insert_ne by done. split_and!; try done.
  by rewrite (wal_frame m) by by rewrite lookup_insert_ne.
Qed.

Lemma leads_write_pieces d ct past rest :
  leads (partial d ct (past ++ rest) (concat past)) (write_pieces working rest)
    (λ _, partial d ct (past ++ rest) (concat (past ++ rest))) (λ m, live d m ∨ torn d m).
Proof using distinct.
  revert past. induction rest as [|b rest IH]; intros past; simpl.
  - intros dk H. simpl. by rewrite app_nil_r in *.
  - eapply (leads_bind _ _ (λ _, partial d ct (past ++ b :: rest) (concat (past ++ [b])))).
    + apply leads_map_stop, leads_append; unfold appended.
      * intros m n Hm. pose proof Hm as (_ & _ & _ & ->). simpl.
        eapply partial_torn; [by eapply partial_set|]. rewrite concat_app. apply prefix_app. simpl.
        etrans; [apply prefix_take|]. by eexists.
      * intros m Hm. pose proof Hm as (_ & _ & _ & ->). simpl. rewrite concat_app. simpl. rewrite app_nil_r.
        by eapply partial_set.
    + intros []. specialize (IH (past ++ [b])). by rewrite <- (assoc_L (++)) in IH.
Qed.

Lemma leads_decrypt d ct pieces :
  leads (at_rest d ct pieces) (decrypt_db encrypted working (passphrase p)) (λ _, live d)
    (λ m, at_rest d ct pieces m ∨ live d m ∨ torn d m).
Proof using distinct.
  unfold decrypt_db. eapply leads_bind; [apply leads_map_stop, leads_read; auto|]. intros ct'.
  intros dk [H Hct]. pose proof H as (Hw & He & Hd & Hr). rewrite He in Hct. injection Hct as <-.
  rewrite Hd. unfold bind_action at 1, lift at 1. cbn [map_err]. revert dk H Hw He Hr.
  cut (leads (at_rest d ct pieces) (
    let! _ := storage_err "create plaintext" (fs_create working) in
    let! _ := write_pieces working pieces in
    let! _ := lift (Ok tt) in storage_err "sync plaintext" fs_other) (λ _, live d) (λ m, at_rest d ct pieces m ∨ live d m ∨ torn d m)).
  { intros Hc dk H _ _ _. exact (Hc dk H). }
  eapply (leads_bind _ _ (λ _, partial d ct pieces [])).
  { apply leads_map_stop, leads_create; [auto|]. intros m (Hw & He & _ & Hr).
    assert (encrypted ≠ working) by apart. pose proof working_wal.
    unfold partial. rewrite lookup_insert_eq, lookup_insert_ne by done. split_and!; try done.
    by rewrite (wal_frame m) by by rewrite lookup_insert_ne. }
  intros []. eapply leads_bind; [eapply leads_post; [| |apply (leads_write_pieces d ct [] pieces)]; [done|auto]|].
  intros []. eapply leads_bind; [by apply leads_lift; [intros t m _ H; exact H|intros m H; right; eapply partial_torn]|].
  intros []. apply leads_map_stop. eapply leads_post; [| |apply (leads_other _ (λ m, live d m ∨ torn d m))].
  - intros [] m (_ & _ & Hr & Hb). split; [eauto|]. unfold db_at, main_bytes. by rewrite Hb.
  - auto.
  - intros m H. by eapply partial_torn.
Qed.

(** *** The whole of opening *)

Definition ready_db (d : D) (m : tree) : Prop := live d m ∨ unborn d m.

Lemma leads_prepare_live d : leads (live d) (prepare p) (λ b m, live d m ∧ b = true) (live d).
Proof using Type.
  unfold prepare. eapply leads_bind; [by apply leads_exists|]. intros r.
  eapply leads_bind; [by apply leads_exists; intros m [? _]|]. intros e.
  eapply (leads_bind _ _ (λ _ m, live d m ∧ r = true)).
  - destruct e; [|by intros dk [[H ->] _]; split; [|apply bool_decide_eq_true; apply H]].
    eapply leads_bind; [by apply leads_exists; intros m [[? _] _]|]. intros w dk [[[H ->] _] ->]. pose proof H as [Hw _].
    rewrite bool_decide_true by done. by split.
  - intros [] dk H. exact H.
Qed.

Lemma leads_prepare d :
  leads (holds d) (prepare p) (λ b m, ready_db d m ∧ (b = true → live d m)) (λ m, holds d m ∨ torn d m).
Proof using distinct.
  intros dk [H|[(ct & pieces & H)|H]].
  - pose proof (leads_prepare_live d dk H) as Hp. destruct (prepare p dk) as [dk' [b|e]]; simpl in *.
    + destruct Hp as [? _]. split; [by left|done].
    + left. by left.
  - revert dk H. change (leads (at_rest d ct pieces) (prepare p) (λ b m, ready_db d m ∧ (b = true → live d m)) (λ m, holds d m ∨ torn d m)).
    unfold prepare. assert (∀ m, at_rest d ct pieces m → holds d m ∨ torn d m) as HR by (intros m ?; left; right; left; eauto).
    eapply leads_bind; [by apply leads_exists|]. intros r. eapply leads_bind; [by apply leads_exists; intros m [? _]; auto|].
    intros e. eapply (leads_bind _ _ (λ _ m, live d m ∧ r = false)).
    + destruct e.
      * eapply leads_bind; [by apply leads_exists; intros m [[? _] _]; auto|]. intros w dk [[[H ->] _] ->].
        pose proof H as (Hw & _). rewrite !Hw. cbn.
        pose proof (leads_decrypt d ct pieces dk H) as Hd. destruct (decrypt_db _ _ _ dk) as [dk' [[]|e]]; simpl in *; [done|].
        destruct Hd as [?|[?|?]]; [auto|left; by left|auto].
      * intros dk [[H ->] He]. pose proof H as (_ & He' & _). rewrite He' in He. done.
    + intros [] dk [H ->]. simpl. split; [by left|done].
  - revert dk H. change (leads (unborn d) (prepare p) (λ b m, ready_db d m ∧ (b = true → live d m)) (λ m, holds d m ∨ torn d m)).
    unfold prepare. assert (∀ m, unborn d m → holds d m ∨ torn d m) as HR by (intros m ?; left; right; right; done).
    eapply leads_bind; [by apply leads_exists|]. intros r. eapply leads_bind; [by apply leads_exists; intros m [? _]; auto|].
    intros e. eapply (leads_bind _ _ (λ _ m, unborn d m ∧ r = false)).
    + intros dk [[H ->] ->]. pose proof H as (Hw & He & _). rewrite Hw, He. cbn. done.
    + intros [] dk [H ->]. simpl. split; [by right|done].
Qed.

Lemma leads_db_open_live d : leads (live d) (db_open working) (λ _, live d) (live d).
Proof using Type.
  apply leads_syscall; [|done]. intros m [[b Hb] Hd]. unfold main_bytes. rewrite Hb. simpl.
  rewrite insert_id by done. split; [by rewrite Hb|done].
Qed.
Lemma leads_db_open d : leads (ready_db d) (db_open working) (λ _, live d) (ready_db d).
Proof using distinct.
  apply leads_syscall; [|done]. pose proof working_wal. intros m [[Hw Hd]|(Hw & He & Hr)].
  - destruct Hw as [b Hb]. unfold main_bytes. rewrite Hb. simpl. rewrite insert_id by done. split; [by rewrite Hb|done].
  - split; [rewrite lookup_insert_eq; eauto|]. unfold db_at, main_bytes. rewrite lookup_insert_eq, Hw. simpl.
    by rewrite (wal_frame m) by by rewrite lookup_insert_ne.
Qed.

(** Everything after the connection is there. *)
Definition settle (rng : bytes) (residue : bool) : prog unit :=
  let! _ := apply_pragmas working in
  let! _ := apply_migrations working in
  let! _ := recover_residue rng p residue in
  storage_err "write sentinel" (fs_write (sentinel_path p) []).

Lemma leads_residue rng residue d d0 :
  upgrade d = upgrade d0 →
  leads (live d) (recover_residue rng p residue) (λ _ m, live d m ∧ (residue = true → age_holds d m)) (live_as d0).
Proof using distinct laws age_laws.
  intros Hu. assert (∀ m, live d m → live_as d0 m) as HR by (by exists d). unfold recover_residue.
  destruct residue; [|by intros dk H; simpl].
  eapply leads_bind; [apply leads_map_stop; eapply leads_post; [| |apply leads_checkpoint]; [done|exact HR]|]. intros [].
  eapply leads_post; [| |apply leads_encrypt]; [|by intros m [? _]; apply HR]. by intros [] m (? & _ & ?).
Qed.

Lemma leads_sentinel d d0 (b : bool) :
  upgrade d = upgrade d0 →
  leads (λ m, live d m ∧ (b = true → age_holds d m)) (fs_write (sentinel_path p) [])
    (λ _ m, live d m ∧ (b = true → age_holds d m)) (live_as d0).
Proof using distinct.
  intros Hu. assert (working ≠ sentinel_path p) by apart. assert (wal_of working ≠ sentinel_path p) by apart.
  assert (encrypted ≠ sentinel_path p) by apart.
  assert (∀ m x, live d m ∧ (b = true → age_holds d m) →
    live d (<[sentinel_path p := x]> m) ∧ (b = true → age_holds d (<[sentinel_path p := x]> m))) as Hset.
  { intros m x [Hl Ha]. split.
    - eapply live_frame; [..|exact Hl]; by rewrite lookup_insert_ne.
    - intros Hb. destruct (Ha Hb) as (ct & pieces & He & Hr). exists ct, pieces. by rewrite lookup_insert_ne. }
  unfold fs_write. eapply (leads_bind _ _ (λ _ m, live d m ∧ (b = true → age_holds d m))).
  - apply leads_create; [by intros m [? _]; exists d|]. intros m Hm. by apply Hset.
  - intros []. apply leads_append; unfold appended.
    + intros m n Hm. exists d. split; [by apply Hset|done].
    + intros m Hm. by apply Hset.
Qed.

Lemma leads_settle rng residue d :
  leads (live d) (settle rng residue)
    (λ _ m, ∃ d', live d' m ∧ upgrade d = Some (Ok d') ∧ (residue = true → age_holds d' m)) (live_as d).
Proof using distinct laws age_laws.
  unfold settle. eapply leads_bind; [apply leads_pragmas|]. intros []. eapply leads_bind; [apply leads_apply_migrations|].
  intros [] dk (d' & Hl & Hd & Hu). revert dk Hl.
  change (leads (live d') (let! _ := recover_residue rng p residue in
    storage_err "write sentinel" (fs_write (sentinel_path p) []))
    (λ _ m, ∃ d', live d' m ∧ upgrade d = Some (Ok d') ∧ (residue = true → age_holds d' m)) (live_as d)).
  eapply leads_bind; [by apply leads_residue|]. intros []. apply leads_map_stop.
  eapply leads_post; [| |apply (leads_sentinel d' d residue Hu)]; [|done]. intros [] m [? ?]. by exists d'.
Qed.

(** Opening on a plaintext: whatever happens the plaintext stays, and after a
    success there is a current encrypted copy. *)
Lemma leads_connect_live rng d :
  leads (live d) (connect rng p) (λ _ m, ∃ d', live d' m ∧ upgrade d = Some (Ok d') ∧ age_holds d' m) (live_as d).
Proof using distinct laws age_laws.
  unfold connect. eapply leads_bind; [eapply leads_post; [| |apply leads_prepare_live]; [done|apply live_live_as]|].
  intros b. eapply (leads_bind _ _ (λ _ m, live d m ∧ b = true)).
  - apply leads_map_stop. intros dk [H ->]. pose proof (leads_db_open_live d dk H) as Ho.
    destruct (db_open working dk) as [dk' [[]|e]]; simpl in *; [done|by apply live_live_as].
  - intros [] dk [H ->]. pose proof (leads_settle rng true d dk H) as Hs. unfold settle in Hs.
    destruct (bind_action _ _ dk) as [dk' [[]|e]]; simpl in *; [|done]. destruct Hs as (d' & ? & ? & ?). exists d'. auto.
Qed.

Definition holds_as (d : D) (m : tree) : Prop := ∃ d', holds d' m ∧ upgrade d' = upgrade d.

Lemma leads_connect rng d :
  leads (holds d) (connect rng p) (λ _ m, ∃ d', live d' m ∧ upgrade d = Some (Ok d')) (λ m, holds_as d m ∨ torn d m).
Proof using distinct laws age_laws.
  unfold connect. eapply leads_bind.
  { eapply leads_post; [| |apply leads_prepare]; [done|]. intros m [?|?]; [|by right]. left. by exists d. }
  intros b. eapply (leads_bind _ _ (λ _, live d)).
  - apply leads_map_stop. eapply leads_pre; [|eapply leads_post; [| |apply (leads_db_open d)]]; [by intros m [? _]|done|].
    intros m [?|?]; left; exists d; (split; [|done]); [by left|by right; right].
  - intros []. eapply leads_post; [| |apply (leads_settle rng b d)].
    + intros [] m (d' & ? & ? & _). by exists d'.
    + intros m (d' & ? & ?). left. exists d'. split; [by left|done].
Qed.

(** ** Sessions *)

(** The log is folded in, and the plaintext or a current encrypted copy is there. *)
Definition closed_on (d : D) (m : tree) : Prop :=
  wal_bytes working m = [] ∧ (live d m ∨ m !! working = None ∧ age_holds d m).

Definition serves (d : D) (s : session) : Prop :=
  if se_conn s then live d (files (se_disk s)) else closed_on d (files (se_disk s)).

Lemma closed_holds d m : closed_on d m → holds d m.
Proof using Type.
  intros [Hw [?|[Hn (ct & pieces & ? & ? & ?)]]]; [by left|]. right. left. exists ct, pieces.
  unfold at_rest. by rewrite Hw.
Qed.
Lemma serves_holds d s : serves d s → holds d (files (se_disk s)).
Proof using Type. unfold serves. destruct (se_conn s); [by left|apply closed_holds]. Qed.

(** While the plaintext is removed. *)
Definition removing (d : D) (m : tree) : Prop :=
  wal_bytes working m = [] ∧ age_holds d m ∧ (live d m ∨ m !! working = None).

Lemma removing_closed d m : removing d m → closed_on d m.
Proof using Type. intros (? & ? & [?|?]); split; auto. Qed.

Lemma removing_delete d q m : q ≠ encrypted → removing d m → removing d (base.delete q m).
Proof using distinct.
  intros Hq (Hw & (ct & pieces & He & Hd & Hr) & Hl). split_and!.
  - unfold wal_bytes in *. destruct (decide (q = wal_of working)) as [->|]; [by rewrite lookup_delete_eq|].
    by rewrite lookup_delete_ne.
  - exists ct, pieces. by rewrite lookup_delete_ne.
  - destruct (decide (q = working)) as [->|Hqw]; [right; apply lookup_delete_eq|]. rewrite lookup_delete_ne by done.
    destruct Hl as [[Hs Hl]|?]; [left|by right]. split; [by rewrite lookup_delete_ne|].
    unfold db_at, main_bytes in *. rewrite lookup_delete_ne by done. rewrite Hw in Hl. rewrite <- Hl. f_equal.
    unfold wal_bytes in *. destruct (decide (q = wal_of working)) as [->|]; [by rewrite lookup_delete_eq|].
    by rewrite lookup_delete_ne.
Qed.

Lemma leads_remove_artifacts d :
  leads (removing d) (remove_plaintext_artifacts working (sentinel_path p)) (λ _, removing d) (removing d).
Proof using distinct.
  assert (∀ q, q ≠ encrypted → leads (E := CoreError) (removing d) (attempt (fs_remove q)) (λ _, removing d) (removing d)) as H.
  { intros q Hq. apply leads_attempt; [|done]. apply leads_remove; [done|]. intros m. by apply removing_delete. }
  unfold remove_plaintext_artifacts. eapply leads_bind; [apply H; apart|]. intros [].
  eapply leads_bind; [apply H; apart|]. intros []. eapply leads_bind; [apply H; apart|]. intros []. apply H; apart.
Qed.

Lemma leads_shut rng d :
  leads (λ m, live d m ∧ wal_bytes working m = [])
    (let! _ := encrypt_db rng working encrypted (passphrase p) in
     remove_plaintext_artifacts working (sentinel_path p)) (λ _, removing d)
    (closed_on d).
Proof using distinct laws age_laws.
  eapply leads_bind; [eapply leads_post; [| |apply leads_encrypt]; [done|]; intros m [? ?]; split; auto|]. intros [].
  eapply leads_pre; [|eapply leads_post; [| |apply (leads_remove_artifacts d)]]; [|done|apply removing_closed].
  intros m (? & ? & ?). split_and!; auto.
Qed.

Lemma exists_same {E} q dk :
  files (exists_ (E := E) q dk).1 = files dk ∧
  ∀ b, (exists_ (E := E) q dk).2 = Ok b → b = bool_decide (is_Some (files dk !! q)).
Proof using Type.
  destruct dk as [m [|[|e n|n] pl]]; cbn; (split; [done|]); intros b H; by simplify_eq.
Qed.

(** Closing keeps the database, however it ends. *)
Lemma close_serves rng d s : serves d s → serves d (pool_close rng p s).1.
Proof using distinct laws age_laws.
  destruct s as [dk conn]. unfold serves at 1, pool_close. cbn [se_conn se_disk]. intros H.
  unfold bind_action at 1, on at 1. cbn [fget f_disk se_disk]. destruct (exists_same (E := CoreError) working dk) as [Hf Hb].
  destruct (exists_ working dk) as [dk1 [b|e]]; cbn [fst snd] in *; [|rewrite <- Hf in H; by destruct conn].
  specialize (Hb b eq_refl). rewrite <- Hf in H, Hb. cbn [fset f_disk se_conn]. clear Hf dk. destruct b; cbn [negb]; [|done].
  symmetry in Hb. apply bool_decide_eq_true in Hb.
  unfold bind_action at 1, read at 1. cbn [fget fset f_disk f_live se_disk se_conn id].
  assert (∀ dk, live d (files dk) ∧ wal_bytes working (files dk) = [] →
    closed_on d (files ((let! _ := encrypt_db rng working encrypted (passphrase p) in
      remove_plaintext_artifacts working (sentinel_path p)) dk).1)) as Hshut.
  { intros dk Hdk. pose proof (leads_shut rng d dk Hdk) as Hs.
    destruct (bind_action _ _ dk) as [dk2 [[]|e]]; cbn in *; [by apply removing_closed|done]. }
  destruct conn.
  - unfold bind_action at 1, on at 1. cbn [fget fset f_disk se_disk se_conn].
    pose proof (leads_map_stop (λ e, Core_Storage (Storage_Other ("wal_checkpoint" +:+ ": " +:+ io_text e))) _ _ _ _ (leads_checkpoint d) dk1 H) as Hc.
    unfold storage_err. destruct (map_stop _ _ dk1) as [dk2 [[]|e]]; cbn [fst snd] in *; [|done].
    unfold bind_action at 1, modify, on. cbn [fget fset f_disk f_live se_disk se_conn].
    specialize (Hshut dk2 Hc). by destruct (bind_action _ _ dk2).
  - unfold bind_action at 1, lift at 1, bind_action at 1, modify, on. cbn [fget fset f_disk f_live se_disk se_conn].
    assert (live d (files dk1) ∧ wal_bytes working (files dk1) = []) as Hc.
    { destruct H as [Hw [?|[Hn _]]]; [done|]. rewrite Hn in Hb. by destruct Hb. }
    specialize (Hshut dk1 Hc). by destruct (bind_action _ _ dk1).
Qed.

(** A transaction is whole or without effect. *)
Lemma transaction_serves {T} (body : D → result (D * T) CoreError) d s s' r :
  serves d s → pool_transaction p body s = (s', r) →
  match r with
  | Ok t => ∃ d', body d = Ok (d', t) ∧ serves d' s'
  | Err _ => serves d s' ∨ ∃ d' t, body d = Ok (d', t) ∧ serves d' s'
  end.
Proof using distinct laws.
  destruct s as [dk conn]. unfold pool_transaction, with_conn. intros H.
  unfold bind_action at 1, read. cbn [fget f_live se_conn id]. unfold bind_action at 1, ensure.
  destruct conn; [|intros [= <- <-]; by left]. unfold on. cbn [fget f_disk se_disk].
  pose proof (leads_map_stop (λ e, Core_Storage (Storage_Other ("begin tx" +:+ ": " +:+ io_text e))) _ _ _ _ (leads_db_get d) dk H) as Hg.
  unfold bind_action at 1, storage_err at 1.
  destruct (map_stop _ _ dk) as [dk1 [d1|e]]; cbn [fst snd] in *; [|intros [= <- <-]; by left].
  destruct Hg as [Hg ->]. unfold bind_action at 1, lift at 1.
  destruct (body d) as [[d' t]|e] eqn:Hb; cbn [map_err]; [|intros [= <- <-]; by left].
  pose proof (leads_map_stop (λ e, Core_Storage (Storage_Other ("commit" +:+ ": " +:+ io_text e))) _ _ _ _ (leads_db_commit d d') dk1 Hg) as Hc.
  unfold bind_action at 1, storage_err. cbn [fst snd].
  destruct (map_stop _ _ dk1) as [dk2 [[]|e]]; cbn in *; intros [= <- <-].
  - by exists d'.
  - destruct Hc; [by left|right]. by exists d', t.
Qed.

(** *** Snapshots *)

Abbreviation snap := (with_extension "snapshot" working).

Definition snapshot_paths (out : path) : Prop :=
  NoDup [working; wal_of working; encrypted; snap; out; with_extension "age.tmp" out].

(** [out] is an encrypted copy of [d]. *)
Definition copy_at (out : path) (d : D) (m : tree) : Prop := ∃ ct pieces,
  m !! out = Some ct ∧ age_decrypt AGE_MAX_WORK_FACTOR (passphrase p) ct = Ok (pieces, None) ∧
  sq_recover (concat pieces) [] = Ok d.

Lemma leads_vacuum out d :
  snapshot_paths out →
  leads (live d)
    (let! _ := storage_err "checkpoint" (db_checkpoint working) in
     let! _ := attempt (fs_remove snap) in
     let! d := storage_err "vacuum into" (db_get working) in
     storage_err "vacuum into" (fs_write snap (sq_vacuum d)))
    (λ _ m, live d m ∧ m !! snap = Some (sq_vacuum d)) (live d).
Proof using distinct laws.
  intros Hout. unfold snapshot_paths in Hout. rewrite !NoDup_cons, !elem_of_cons in Hout.
  assert (working ≠ snap) by intuition. assert (wal_of working ≠ snap) by intuition.
  assert (∀ m x, live d m → live d (<[snap := x]> m)) as Hset
    by (intros m x Hl; eapply live_frame; [..|exact Hl]; by rewrite lookup_insert_ne).
  eapply (leads_bind _ _ (λ _, live d)).
  { apply leads_map_stop. eapply leads_post; [| |apply leads_checkpoint]; [by intros [] m [? _]|done]. }
  intros []. eapply (leads_bind _ _ (λ _, live d)).
  { apply leads_attempt; [|done]. apply leads_remove; [done|]. intros m Hl.
    eapply live_frame; [..|exact Hl]; by rewrite lookup_delete_ne. }
  intros []. eapply leads_bind; [apply leads_map_stop, leads_db_get|]. intros d' dk [Hl ->]. revert dk Hl.
  change (leads (live d) (storage_err "vacuum into" (fs_write snap (sq_vacuum d)))
    (λ _ m, live d m ∧ m !! snap = Some (sq_vacuum d)) (live d)).
  apply leads_map_stop. unfold fs_write. eapply (leads_bind _ _ (λ _ m, live d m ∧ m !! snap = Some [])).
  - apply leads_create; [done|]. intros m Hl. rewrite lookup_insert_eq. auto.
  - intros []. apply leads_append; unfold appended; [intros m n [Hl _]; by apply Hset|].
    intros m [Hl Hs]. rewrite lookup_insert_eq, Hs. auto.
Qed.

(** The part of a snapshot before the temporary plaintext is removed. *)
Definition snapshot_body (rng : bytes) (out : path) : action session unit (stop CoreError) :=
  let! _ := with_conn (
    let! _ := storage_err "checkpoint" (db_checkpoint working) in
    let! _ := attempt (fs_remove snap) in
    let! d := storage_err "vacuum into" (db_get working) in
    storage_err "vacuum into" (fs_write snap (sq_vacuum d))) in
  on f_disk (encrypt_db rng snap out (passphrase p)).

Lemma snapshot_body_serves rng out d s s' r :
  snapshot_paths out → serves d s → snapshot_body rng out s = (s', r) → serves d s' ∧ (r = Ok tt → copy_at out d (files (se_disk s'))).
Proof using distinct laws age_laws.
  intros Hout H. unfold snapshot_body, with_conn. destruct s as [dk conn].
  unfold bind_action at 1 2, read. cbn [fget f_live se_conn id]. unfold bind_action at 1, ensure.
  destruct conn; [|intros [= <- <-]; by split]. unfold on at 1. cbn [fget f_disk se_disk].
  pose proof (leads_vacuum out d Hout dk H) as Hv. destruct (bind_action _ _ dk) as [dk1 [[]|e]]; cbn [fst snd] in Hv;
    [|intros [= <- <-]; by split].
  unfold snapshot_paths in Hout. rewrite !NoDup_cons, !elem_of_cons in Hout.
  pose proof (leads_encrypt_file rng (live d) snap out (sq_vacuum d)) as He. cbv zeta in He.
  specialize (He ltac:(intuition) ltac:(intuition)).
  specialize (He ltac:(intros m x Hl; eapply live_frame; [..|exact Hl]; rewrite lookup_insert_ne by intuition; done)).
  specialize (He ltac:(intros m x Hl; eapply live_frame; [..|exact Hl]; rewrite lookup_insert_ne, lookup_delete_ne by intuition; done)).
  specialize (He dk1 Hv). unfold on. cbn [fget fset f_disk se_disk se_conn].
  destruct (encrypt_db _ _ _ _ dk1) as [dk2 [[]|e]]; cbn in He; intros [= <- <-]; [|by split].
  destruct He as [Hl (ct & pieces & Ho & Hd & Hc)]. split; [done|]. intros _. exists ct, pieces.
  split_and!; [done|done|]. rewrite Hc. apply law_vacuum.
Qed.

Lemma live_delete d q m : q ≠ working → q ≠ wal_of working → live d m → live d (base.delete q m).
Proof using Type. intros ? ? Hl. eapply live_frame; [..|exact Hl]; by rewrite lookup_delete_ne. Qed.

Lemma serves_delete d q dk conn pl :
  q ≠ working → q ≠ wal_of working → q ≠ encrypted →
  serves d (mkSession dk conn) → serves d (mkSession (mkDisk (base.delete q (files dk)) pl) conn).
Proof using Type.
  intros Hw Hl He. unfold serves. cbn. destruct conn; [by apply live_delete|].
  intros [Hwal Hcase]. split; [unfold wal_bytes in *; by rewrite lookup_delete_ne|].
  destruct Hcase as [?|[Hn (ct & pieces & Hct & Hr)]]; [left; by apply live_delete|right].
  rewrite lookup_delete_ne by done. split; [done|]. exists ct, pieces. by rewrite lookup_delete_ne.
Qed.

Lemma serves_plan d m pl pl' conn : serves d (mkSession (mkDisk m pl) conn) → serves d (mkSession (mkDisk m pl') conn).
Proof using Type. done. Qed.

(** A removal that may fail. *)
Lemma attempt_remove q dk dk' r :
  attempt (F := CoreError) (fs_remove q) dk = (dk', r) → files dk' = files dk ∨ files dk' = base.delete q (files dk).
Proof using Type.
  destruct dk as [m pl]. unfold attempt, fs_remove, syscall. cbn.
  destruct pl as [|[|e n|n] pl]; cbn; try destruct (m !! q); cbn; intros [= <- <-]; cbn; auto.
Qed.

Lemma snapshot_serves rng out d s s' r :
  snapshot_paths out → serves d s → snapshot_encrypted rng p out s = (s', r) →
  serves d s' ∧ (r = Ok tt → copy_at out d (files (se_disk s'))).
Proof using distinct laws age_laws.
  intros Hout H Hrun. unfold snapshot_encrypted in Hrun. change (bind_action _ _ s) with (snapshot_body rng out s) in Hrun.
  destruct (snapshot_body rng out s) as [[dk1 conn1] r1] eqn:Hb.
  destruct (snapshot_body_serves rng out d s _ r1 Hout H Hb) as [Hs Hc]. unfold snapshot_paths in Hout.
  rewrite !NoDup_cons, !elem_of_cons in Hout. unfold on in Hrun. cbn [fget fset f_disk se_disk se_conn] in Hrun.
  destruct (attempt (fs_remove snap) dk1) as [dk2 r2] eqn:Ha. apply attempt_remove in Ha.
  assert (serves d (mkSession dk2 conn1) ∧ (copy_at out d (files dk1) → copy_at out d (files dk2))) as [Hs2 Hc2].
  { destruct dk2 as [m2 pl2]. cbn in Ha. destruct Ha as [->| ->]; [by split|]. split.
    - apply serves_delete; [intuition..|done].
    - intros (ct & pieces & Ho & ?). exists ct, pieces. cbn. rewrite lookup_delete_ne by intuition. done. }
  destruct r1 as [[]|[e|]]; [| |by injection Hrun as <- <-]; destruct r2 as [[]|[e2|]]; injection Hrun as <- <-; split; auto; done.
Qed.
End props.
