(* ===== verification/PoolLife.v ===== *)
(** * PoolLife: the lives of a data directory

    A data directory over any number of daemon lives: it is opened, used, copied
    and closed, each operation fails or is cut short where it likes, and the
    process dies at any time.  The directory refines one database that only
    committed transactions and migrations change, with one exception: a start-up
    that dies while it decrypts. *)

From S2P Require Import Prelude Text CoreErrors Attachments Disk Pool PoolProps.

Lemma pool_paths_distinct dir pass : distinct_paths (paths_in dir pass).
Proof.
  change (NoDup ((λ n, (dir, n) : path) <$> ["skattr.sqlite"; "skattr.sqlite-wal"; "skattr.sqlite-shm"; "skattr.sqlite.age";
    "skattr.sqlite.age.tmp"; "skattr.sqlite.open"])).
  apply NoDup_fmap_2; [by intros ? ? [= ->]|]. apply (bool_decide_unpack _). vm_compute. exact I.
Qed.

Section life.
Context {D : Type} {sq : Sqlite D} {laws : SqliteLaws D} {age : Age} {age_laws : AgeLaws} {crypto : AttachmentCrypto}.
(** The results of transactions. *)
Context {R : Type}.
Context (data_dir : string) (seed key : bytes) (derived : hkdf_expand 32 seed INFO_STORAGE_V1 = Ok key).

Abbreviation p := (paths_in data_dir (hex_encode key)).
Abbreviation working := (working_path p).

Lemma pool_open_inv rng dk dk' r :
  pool_open rng data_dir seed dk = (dk', r) →
  (∃ dk1, files dk1 = files dk ∧ ∃ r1, connect rng p dk1 = (dk', r1) ∧ (∀ q, r = Ok q ↔ r1 = Ok tt ∧ q = p)) ∨
  files dk' = files dk ∧ ∃ e, r = Err e.
Proof using derived.
  unfold pool_open. unfold bind_action at 1. destruct dk as [m pl].
  assert (∀ pl, ∃ pl' r, io_err fs_other (mkDisk m pl) = (mkDisk m pl', r)) as Hio.
  { intros [|[|e n|n] pl']; do 2 eexists; reflexivity. }
  destruct (Hio pl) as (pl1 & r1 & ->). destruct r1 as [[]|e]; [|intros [= <- <-]; right; eauto].
  unfold bind_action at 1. destruct (Hio pl1) as (pl2 & r2 & ->). destruct r2 as [[]|e]; [|intros [= <- <-]; right; eauto].
  unfold bind_action at 1, lift at 1. rewrite derived. cbn [map_err]. unfold bind_action at 1.
  destruct (connect rng p (mkDisk m pl2)) as [dk3 r3] eqn:E. intros H. left. exists (mkDisk m pl2). split; [done|].
  exists r3. destruct r3 as [[]|e]; injection H as <- <-; (split; [done|]); intros q; split; [intros [= <-]|intros [_ ->]|..]; naive_solver.
Qed.

(** ** Processes *)

Inductive proc : Type := Down (m : tree) | Up (s : session).

Inductive label : Type :=
| L_open (ok : bool)
| L_tx (body : D → result (D * R) CoreError) (r : result R (stop CoreError))
| L_close (r : result unit (stop CoreError))
| L_snapshot (out : path) (r : result unit (stop CoreError))
| L_die.

Definition with_plan (pl : list fault) (s : session) : session := mkSession (mkDisk (files (se_disk s)) pl) (se_conn s).

(** A process that died leaves its files. *)
Definition outcome {T} (r : result T (stop CoreError)) (s : session) : proc :=
  match r with Err Crashed => Down (files (se_disk s)) | _ => Up s end.

Inductive proc_step : proc → label → proc → Prop :=
| st_open rng pl m dk q : pool_open rng data_dir seed (mkDisk m pl) = (dk, Ok q) →
    proc_step (Down m) (L_open true) (Up (mkSession dk true))
| st_open_fails rng pl m dk e : pool_open rng data_dir seed (mkDisk m pl) = (dk, Err e) →
    proc_step (Down m) (L_open false) (Down (files dk))
| st_tx body pl s s' r : pool_transaction p body (with_plan pl s) = (s', r) →
    proc_step (Up s) (L_tx body r) (outcome r s')
| st_close rng pl s s' r : pool_close rng p (with_plan pl s) = (s', r) →
    proc_step (Up s) (L_close r) (outcome r s')
| st_snapshot rng out pl s s' r : snapshot_paths p out → snapshot_encrypted rng p out (with_plan pl s) = (s', r) →
    proc_step (Up s) (L_snapshot out r) (outcome r s')
| st_die s : proc_step (Up s) L_die (Down (files (se_disk s))).

Inductive proc_run : proc → list label → proc → Prop :=
| run_nil c : proc_run c [] c
| run_cons c l c1 ls c' : proc_step c l c1 → proc_run c1 ls c' → proc_run c (l :: ls) c'.

(** ** One database *)

(** A failed start may have done some of the migrations; a transaction that
    reported an error may have been committed before the process stopped. *)
Definition spec (l : label) (d d' : D) : Prop :=
  match l with
  | L_open true => upgrade d = Some (Ok d')
  | L_open false => upgrade d' = upgrade d
  | L_tx body (Ok t) => body d = Ok (d', t)
  | L_tx body (Err _) => d' = d ∨ ∃ t, body d = Ok (d', t)
  | L_close _ | L_snapshot _ _ | L_die => d' = d
  end.

Inductive spec_run : D → list label → D → Prop :=
| spec_nil d : spec_run d [] d
| spec_cons d l d1 ls d' : spec l d d1 → spec_run d1 ls d' → spec_run d (l :: ls) d'.

Definition matches (d : D) (c : proc) : Prop :=
  match c with Down m => holds p d m | Up s => serves p d s end.

Lemma outcome_matches {T} (r : result T (stop CoreError)) s d : serves p d s → matches d (outcome r s).
Proof using Type. intros H. destruct r as [t|[e|]]; cbn; [done|done|by apply serves_holds]. Qed.

Lemma step_refines d c l c' :
  matches d c → proc_step c l c' → (∃ d', spec l d d' ∧ matches d' c') ∨ (l = L_open false ∧ ∃ m, c' = Down m ∧ torn p d m).
Proof using laws age_laws derived.
  intros H. pose proof (pool_paths_distinct data_dir (hex_encode key)) as Hp.
  destruct 1 as [rng pl m dk q E|rng pl m dk e E|body pl s s' r E|rng pl s s' r E|rng out pl s s' r Ho E|s]; cbn in H.
  - left. apply pool_open_inv in E as [(dk1 & Hf & r1 & E & Hr)|[_ [e ?]]]; [|done].
    destruct (proj1 (Hr q) eq_refl) as [-> _]. cbn in Hf. rewrite <- Hf in H.
    pose proof (leads_connect p Hp rng d dk1 H) as Hc. rewrite E in Hc. destruct Hc as (d' & ? & ?). by exists d'.
  - apply pool_open_inv in E as [(dk1 & Hf & r1 & E & Hr)|[Hf [e' ?]]].
    + cbn in Hf. rewrite <- Hf in H. pose proof (leads_connect p Hp rng d dk1 H) as Hc. rewrite E in Hc. cbn in Hc.
      destruct r1 as [[]|e1]; [by destruct (Hr p) as [_ Hr2]; specialize (Hr2 (conj eq_refl eq_refl))|].
      destruct Hc as [(d' & ? & ?)|Ht]; [left; by exists d'|right]. split; [done|]. by exists (files dk).
    + left. exists d. cbn in *. rewrite Hf. done.
  - left. pose proof (transaction_serves p Hp body d (with_plan pl s) s' r H E) as Hr. destruct r as [t|e].
    + destruct Hr as (d' & ? & ?). by exists d'.
    + destruct Hr as [?|(d' & t & ? & ?)]; [exists d|exists d']; (split; [cbn; eauto|by apply outcome_matches]).
  - left. exists d. split; [done|]. apply outcome_matches.
    pose proof (close_serves p Hp rng d (with_plan pl s) H) as Hc. by rewrite E in Hc.
  - left. exists d. split; [done|]. apply outcome_matches.
    by destruct (snapshot_serves p Hp rng out d (with_plan pl s) s' r Ho H E).
  - left. exists d. split; [done|]. by apply serves_holds.
Qed.


(** ** The exception *)

(** The process dies after the plaintext was created, before its first byte. *)
Definition dies_decrypting : list fault := [Fine; Fine; Fine; Fine; Fine; Fine; Fine; Dies 0].

Lemma stopped_decrypting rng ct b pieces d m :
  at_rest p d ct (b :: pieces) m →
  pool_open rng data_dir seed (mkDisk m dies_decrypting) = (mkDisk (<[working := []]> m) [], Err Crashed).
Proof using derived.
  intros (Hw & He & Hd & _). unfold pool_open, bind_action at 1 2. cbn [io_err map_stop fs_other syscall plan dies_decrypting files tail].
  unfold bind_action at 1, lift at 1. rewrite derived. cbn [map_err]. unfold bind_action at 1, connect.
  unfold bind_action at 1, prepare. unfold bind_action at 1, exists_ at 1. cbn [plan files tail]. rewrite Hw.
  unfold bind_action at 1, exists_ at 1. cbn [plan files tail]. rewrite He. unfold bind_action at 1.
  rewrite (bool_decide_true (is_Some (Some ct))) by eauto. unfold bind_action at 1, exists_ at 1. cbn [plan files tail]. rewrite Hw.
  rewrite (bool_decide_false (is_Some None)) by (by intros [? ?]). unfold decrypt_db, bind_action at 1, io_err, map_stop at 1, fs_read, syscall at 1.
  cbn [plan files tail]. rewrite He. unfold bind_action at 1, lift at 1. rewrite Hd. cbn [map_err].
  unfold bind_action at 1, storage_err at 1, map_stop at 1, fs_create, syscall at 1. cbn [plan files tail].
  unfold bind_action at 1, write_pieces. cbn [plan files tail]. unfold bind_action at 1, storage_err at 1, map_stop at 1, fs_append, syscall at 1.
  cbn [plan files tail]. unfold appended. rewrite lookup_insert_eq. cbn. by rewrite insert_insert_eq.
Qed.

(** C37: a start that dies while decrypting loses the database.  When the process
    dies after it created the plaintext and before it wrote to it, the next start
    takes the empty plaintext for what a crash left behind, migrates it as a new
    database and encrypts it over the good copy: every start that succeeds leaves a
    new, empty database and an encrypted copy of that one. *)
Theorem stopped_decrypt_loses rng ct b pieces d m fresh :
  at_rest p d ct (b :: pieces) m → wal_bytes working m = [] → sq_recover [] [] = Ok fresh →
  (∃ m1, pool_open rng data_dir seed (mkDisk m dies_decrypting) = (mkDisk m1 [], Err Crashed) ∧
     ∀ rng' pl dk q, pool_open rng' data_dir seed (mkDisk m1 pl) = (dk, Ok q) →
       ∃ d', upgrade fresh = Some (Ok d') ∧ live p d' (files dk) ∧ age_holds p d' (files dk)).
Proof using laws age_laws derived.
  intros Hr Hw Hfresh. pose proof (pool_paths_distinct data_dir (hex_encode key)) as Hp.
  eexists. split; [by eapply stopped_decrypting|]. intros rng' pl dk q E.
  apply pool_open_inv in E as [(dk1 & Hf & r1 & E & Hq)|[_ [e ?]]]; [|done].
  destruct (proj1 (Hq q) eq_refl) as [-> _]. cbn in Hf.
  assert (live p fresh (files dk1)) as Hl.
  { rewrite Hf. split; [rewrite lookup_insert_eq; eauto|]. unfold db_at, main_bytes. rewrite lookup_insert_eq.
    rewrite (wal_frame p m) by (rewrite lookup_insert_ne; [done|exact (working_wal p Hp)]). by rewrite Hw. }
  pose proof (leads_connect_live p Hp rng' fresh dk1 Hl) as Hc. rewrite E in Hc. destruct Hc as (d' & ? & ? & ?). by exists d'.
Qed.

(** ** Closing *)

(** Without faults. *)
Definition calm {T E} (c : action disk T (stop E)) : Prop := ∀ d, plan d = [] → plan (c d).1 = [].

Lemma calm_bind {T U E} (c : action disk T (stop E)) (k : T → action disk U (stop E)) :
  calm c → (∀ t, calm (k t)) → calm (bind_action c k).
Proof using Type.
  intros Hc Hk d H. specialize (Hc d H). unfold bind_action. destruct (c d) as [d' [t|e]]; [|done]. by apply Hk.
Qed.
Lemma calm_syscall {T} (done : tree → result (tree * T) io_error) torn : calm (syscall done torn).
Proof using Type. intros [m pl] H. cbn in H. subst pl. cbn. by destruct (done m) as [[? ?]|?]. Qed.
Lemma calm_map_stop {T E F} (f : E → F) (c : action disk T (stop E)) : calm c → calm (map_stop f c).
Proof using Type. intros Hc d H. specialize (Hc d H). unfold map_stop. by destruct (c d) as [d' [t|[e|]]]. Qed.

Lemma calm_encrypt rng src dst pass : calm (encrypt_db rng src dst pass).
Proof using Type.
  unfold encrypt_db, io_err, storage_err, fs_write, fs_create, fs_append, fs_rename, fs_read.
  repeat first [apply calm_bind; [|intros ?]|apply calm_map_stop|apply calm_syscall]. by intros d.
Qed.

Lemma removed q m : attempt (F := CoreError) (fs_remove q) (mkDisk m []) = (mkDisk (base.delete q m) [], Ok tt).
Proof using Type.
  unfold attempt, fs_remove, syscall. cbn. destruct (m !! q) eqn:E; cbn; [done|]. by rewrite delete_id.
Qed.

(** What [close] removes. *)
Definition artifacts : list path := [working; wal_of working; shm_of working; sentinel_path p].

Lemma artifacts_removed m q :
  q ∈ artifacts → files (remove_plaintext_artifacts working (sentinel_path p) (mkDisk m [])).1 !! q = None.
Proof using Type.
  unfold remove_plaintext_artifacts, bind_action. rewrite removed, removed, removed, removed. cbn [fst files].
  unfold artifacts. rewrite !elem_of_cons. intros [->|[->|[->|[->|[]%not_elem_of_nil]]]];
    repeat first [rewrite lookup_delete_eq; done|rewrite lookup_delete_ne by (by intros [=])]; done.
Qed.

Lemma close_run rng s s' :
  se_conn s = true → is_Some (files (se_disk s) !! working) → pool_close rng p s = (s', Ok tt) →
  ∃ dk1 dk2 dk3, files dk1 = files (se_disk s) ∧ (plan (se_disk s) = [] → plan dk1 = []) ∧
    storage_err "wal_checkpoint" (db_checkpoint working) dk1 = (dk2, Ok tt) ∧
    encrypt_db rng working (encrypted_path p) (passphrase p) dk2 = (dk3, Ok tt) ∧
    remove_plaintext_artifacts working (sentinel_path p) dk3 = (se_disk s', Ok tt).
Proof using Type.
  destruct s as [dk conn]. cbn [se_conn se_disk]. intros -> Hw. unfold pool_close, bind_action at 1, on at 1.
  cbn [fget fset f_disk se_disk se_conn]. destruct (exists_same (E := CoreError) working dk) as [Hf Hb].
  assert (plan dk = [] → plan (exists_ (E := CoreError) working dk).1 = []) as Hpl by (destruct dk as [? pl]; cbn; by intros ->).
  destruct (exists_ working dk) as [dk1 [b|e]]; [|done]. cbn [fst snd] in *. specialize (Hb b eq_refl).
  rewrite bool_decide_true in Hb by done. subst b. cbn [negb]. unfold bind_action at 1, read. cbn [fget f_live se_conn id].
  unfold bind_action at 1, on at 1. cbn [fget fset f_disk se_disk se_conn].
  destruct (storage_err "wal_checkpoint" _ dk1) as [dk2 [[]|e]] eqn:E2; [|done]. unfold bind_action at 1, modify, on.
  cbn [fget fset f_disk f_live se_disk se_conn]. unfold bind_action.
  destruct (encrypt_db _ _ _ _ dk2) as [dk3 [[]|e]] eqn:E3; [|done].
  destruct (remove_plaintext_artifacts _ _ dk3) as [dk4 r4] eqn:E4. intros [= <- ->]. by exists dk1, dk2, dk3.
Qed.

(** A close that reports success has sealed the database.  The encrypted file
    alone, without any log, is then a copy of it; and when no file operation
    failed, the plaintext, its two side files and the marker are gone. *)
Theorem close_seals rng d s s' :
  serves p d s → se_conn s = true → pool_close rng p s = (s', Ok tt) →
  age_holds p d (files (se_disk s')) ∧ serves p d s' ∧
  (plan (se_disk s) = [] → ∀ q, q ∈ artifacts → files (se_disk s') !! q = None).
Proof using laws age_laws.
  intros Hs Hc E. pose proof (pool_paths_distinct data_dir (hex_encode key)) as Hp.
  assert (serves p d s') as Hs' by (pose proof (close_serves p Hp rng d s Hs) as H; by rewrite E in H).
  unfold serves in Hs. rewrite Hc in Hs. destruct (close_run rng s s' Hc (proj1 Hs) E) as (dk1 & dk2 & dk3 & Hf & Hpl & E2 & E3 & E4).
  rewrite <- Hf in Hs. split_and!; [|done|].
  - pose proof (leads_map_stop (λ e, Core_Storage (Storage_Other ("wal_checkpoint" +:+ ": " +:+ io_text e))) _ _ _ _
      (leads_checkpoint p Hp d) dk1 Hs) as H2. unfold storage_err in E2. rewrite E2 in H2. cbn in H2.
    pose proof (leads_encrypt p Hp rng d dk2 H2) as H3. rewrite E3 in H3. destruct H3 as (? & ? & ?).
    assert (removing p d (files dk3)) as Hr by (split_and!; auto).
    pose proof (leads_remove_artifacts p Hp d dk3 Hr) as H4. rewrite E4 in H4. by destruct H4 as (_ & ? & _).
  - intros Hn q Hq. specialize (Hpl Hn). pose proof (calm_map_stop (λ e, Core_Storage (Storage_Other ("wal_checkpoint" +:+ ": " +:+ io_text e))) _
      (calm_syscall _ _) dk1 Hpl : plan (storage_err "wal_checkpoint" (db_checkpoint working) dk1).1 = []) as H2.
    rewrite E2 in H2. pose proof (calm_encrypt rng working (encrypted_path p) (passphrase p) dk2 H2) as H3. rewrite E3 in H3.
    destruct dk3 as [m3 pl3]. cbn in H3. subst pl3. pose proof (artifacts_removed m3 q Hq) as H4. by rewrite E4 in H4.
Qed.
End life.

(** ** Witnesses

    A database is a byte for its version and bytes of content; the log holds a
    whole new content. *)

Module PoolSamples.
#[export] Instance toy_sqlite : Sqlite bytes := {|
  sq_recover m w := Ok (match w with [] => m | _ :: d => d end);
  sq_commit m w d := (m, Byte.x01 :: d);
  sq_commit_torn n m w d := (m, w);
  sq_checkpoint m w := match w with [] => m | _ :: d => d end;
  sq_checkpoint_torn n m w := m;
  sq_vacuum d := d;
  sq_version_table d := match d with [] => [Byte.x00] | _ => d end;
  sq_version d := match d with [] => Err "no such table: schema_version" | v :: _ => Ok (Z_of_byte v) end;
  sq_migration v d := Ok d;
  sq_set_version v d := match d with [] => Err "no such table: schema_version" | _ :: c => Ok (byte_of_Z v :: c) end
|}.

#[export] Instance toy_sqlite_laws : SqliteLaws bytes.
Proof.
  split.
  - done.
  - intros n m w d d' H. by left.
  - intros m w d H. injection H as <-. by destruct w.
  - done.
  - done.
  - by intros [|] c.
  - by intros [|].
  - intros v c d d' [? ?]%elem_of_seqZ. unfold migrate_one. destruct d as [|x d]; [done|]. cbn. intros [= <-] _ _.
    cbn. by rewrite Z_of_byte_of_Z, Z.mod_small by lia.
Qed.

#[export] Instance toy_age : Age := {|
  age_encrypt f pass rng b := Ok b;
  age_decrypt max pass ct := Ok ([ct], None)
|}.

#[export] Instance toy_age_laws : AgeLaws.
Proof. split. intros f max pass rng b ct [= <-] _. exists [b]. cbn. by rewrite app_nil_r. Qed.

Definition key : bytes := fill 32 Byte.x00.
Definition sealed : tree := {[ join_path "d" "skattr.sqlite.age" := [Byte.x15; Byte.x2a] ]}.
Definition append_byte (d : bytes) : result (bytes * unit) CoreError := Ok (d ++ [Byte.x2b], tt).
Definition opened : session := mkSession (pool_open (crypto := toy_crypto) [] "d" key (mkDisk sealed [])).1 true.
Definition written : session := (pool_transaction (paths_in "d" (hex_encode key)) append_byte (with_plan [] opened)).1.
End PoolSamples.
Import PoolSamples.

Lemma sealed_holds : holds (paths_in "d" (hex_encode key)) ([Byte.x15; Byte.x2a] : bytes) sealed.
Proof. right. left. exists [Byte.x15; Byte.x2a], [[Byte.x15; Byte.x2a]]. split_and!; vm_compute; reflexivity. Qed.

Lemma sealed_run :
  proc_run (crypto := toy_crypto) "d" key key (Down sealed)
    [L_open true; L_tx append_byte (Ok tt); L_die] (Down (files (se_disk written))).
Proof.
  eapply run_cons; [by eapply (st_open "d" key key [] [] sealed (se_disk opened)); vm_compute|].
  eapply run_cons; [by eapply (st_tx "d" key key append_byte [] opened written (Ok tt)); vm_compute|].
  eapply run_cons; [apply st_die|constructor].
Qed.


Lemma stopped_decrypt_loses_witness :
  ∃ m1, pool_open (crypto := toy_crypto) [] "d" key (mkDisk sealed dies_decrypting) = (mkDisk m1 [], Err Crashed) ∧
    ∃ d', age_holds (paths_in "d" (hex_encode key)) d'
        (files (pool_open (crypto := toy_crypto) [] "d" key (mkDisk m1 [])).1) ∧ upgrade [] = Some (Ok d').
Proof.
  destruct (stopped_decrypt_loses (crypto := toy_crypto) "d" key key eq_refl [] [Byte.x15; Byte.x2a] [Byte.x15; Byte.x2a] []
    [Byte.x15; Byte.x2a] sealed []) as (m1 & H1 & H2); [split_and!; vm_compute; reflexivity|vm_compute; reflexivity|vm_compute; reflexivity|].
  exists m1. split; [exact H1|].
  assert (m1 = <[join_path "d" "skattr.sqlite" := []]> sealed) as -> by (vm_compute in H1; injection H1 as <-; vm_compute; reflexivity).
  destruct (H2 [] [] (pool_open (crypto := toy_crypto) [] "d" key (mkDisk (<[join_path "d" "skattr.sqlite" := []]> sealed) [])).1
    (paths_in "d" (hex_encode key))) as (d' & Hu & _ & Ha); [vm_compute; reflexivity|].
  exists d'. split; [exact Ha|exact Hu].
Defined.

Lemma close_seals_witness :
  let s' := (pool_close [] (paths_in "d" (hex_encode key)) (with_plan [] opened)).1 in
  age_holds (paths_in "d" (hex_encode key)) ([Byte.x15; Byte.x2a] : bytes) (files (se_disk s')) ∧
  files (se_disk s') !! join_path "d" "skattr.sqlite" = None.
Proof.
  intros s'.
  destruct (close_seals "d" key [] [Byte.x15; Byte.x2a] (with_plan [] opened) s') as (H1 & _ & H3);
    [split; [exists [Byte.x15; Byte.x2a]|]; vm_compute; reflexivity|reflexivity|vm_compute; reflexivity|].
  split; [exact H1|]. apply H3; [reflexivity|]. apply list_elem_of_here.
Defined.
