(* ===== verification/Vault.v ===== *)
(** * Vault: the identity on disk

    [crates/core/src/identity/vault.rs], [seed.rs] and the derivations of
    [derive.rs], [transport/hs_key.rs] and [storage/backup.rs]: the passphrase
    encrypted identity, the hidden-service key and the backup archive, on [Disk].
    Argon2id, XChaCha20-Poly1305 and the archive formats are classes; salts, nonces
    and other random bytes are arguments. *)

From S2P Require Import Prelude Text Framing SimpleCodec CoreErrors Identity Attachments Disk Pool.

(** ** Libraries *)

Class VaultCrypto : Type := {
  argon2_params : Z → Z → Z → result unit string;                          (** memory, passes, lanes *)
  argon2_hash : Z → Z → Z → string → bytes → result bytes string;         (** .., passphrase, salt *)
  xchacha_encrypt : bytes → bytes → bytes → bytes → option bytes;         (** key, nonce, data, message *)
  xchacha_decrypt : bytes → bytes → bytes → bytes → bytes → option bytes  (** .., body, tag *)
}.

Class VaultCryptoLaws {vc : VaultCrypto} : Prop := {
  seal_open k n a m ct : xchacha_encrypt k n a m = Some ct →
    len ct = len m + 16 ∧ xchacha_decrypt k n a (take (length m) ct) (drop (length m) ct) = Some m;
  open_len k n a body tag m : xchacha_decrypt k n a body tag = Some m → length m = length body
}.

(** Gzipped tar files: members by name and content, and what reading yields. *)
Class Archive : Type := {
  tar_gz : list (string * bytes) → result bytes string;
  tar_entries : bytes → result (list (result (string * bytes) string)) string
}.
Class ArchiveLaws {ar : Archive} : Prop :=
  law_tar members b : tar_gz members = Ok b → tar_entries b = Ok (Ok <$> members).

(** ** [derive.rs] and [key.rs] *)

Definition INFO_IDENTITY_V1 : bytes := bytes_of_string "skattr-identity-v1".
Definition INFO_HS_STORAGE_V1 : bytes := bytes_of_string "skattr-hs-storage-v1".
Definition INFO_STORAGE_SEED_V1 : bytes := bytes_of_string "skattr-storage-seed-v1".
Definition INFO_BACKUP_V1 : bytes := bytes_of_string "skattr-backup-v1".

Section derive.
Context {crypto : AttachmentCrypto}.
Definition from_seed (seed : bytes) : result IdentityKey CoreError :=
  let? okm := hkdf_expand 32 seed INFO_IDENTITY_V1 in Ok (mkIdentityKey okm).
Definition derive_storage_seed (identity : IdentityKey) : result bytes CoreError :=
  hkdf_expand 32 (secret identity) INFO_STORAGE_SEED_V1.
End derive.

(** ** [vault.rs] *)

Definition VAULT_VERSION : Z := 1.
Definition VAULT_AAD : bytes := bytes_of_string "skattr-vault-v1".

Record KdfParams : Type := mkKdfParams { m_kib : Z; kdf_t : Z; kdf_p : Z }.
Definition canonical : KdfParams := mkKdfParams (64 * 1024) 3 4.

Record VaultFile : Type := mkVaultFile {
  vf_v : Z; vf_kdf : KdfParams; vf_salt : bytes; vf_nonce : bytes; vf_ciphertext : bytes
}.

Definition identity_error (msg : string) : CoreError := Core_Identity msg.

Section vault.
Context {vc : VaultCrypto} {ser : Serialize VaultFile} {de : Deserialize VaultFile}.

Definition derive_aead_key (passphrase : string) (salt : bytes) (kdf : KdfParams) : result bytes CoreError :=
  let? _ := map_err (λ e, identity_error ("argon2 params: " +:+ e)) (argon2_params (m_kib kdf) (kdf_t kdf) (kdf_p kdf)) in
  map_err (λ e, identity_error ("argon2 hash: " +:+ e))
    (argon2_hash (m_kib kdf) (kdf_t kdf) (kdf_p kdf) passphrase salt).

Definition encrypt_identity (salt nonce : bytes) (identity : IdentityKey) (passphrase : string)
    : result VaultFile CoreError :=
  let? key := derive_aead_key passphrase salt canonical in
  let? ct := ok_or (xchacha_encrypt key nonce VAULT_AAD (secret identity)) (identity_error "aead encrypt failed") in
  Ok (mkVaultFile VAULT_VERSION canonical salt nonce ct).

(** The file handle is closed before the rename; the directory is opened and
    synced after it. *)
Definition atomic_write_vault_inner (p tmp : path) (vf : VaultFile) : prog unit :=
  let! buf := lib_err Core_CborEncode (into_writer vf) in
  let! _ := io_err (fs_create tmp) in
  let! _ := io_err (fs_append tmp buf) in
  let! _ := io_err fs_other in
  let! _ := io_err (fs_rename tmp p) in
  let! _ := io_err fs_other in
  io_err fs_other.

Definition atomic_write_vault (p : path) (vf : VaultFile) : prog unit :=
  let tmp := with_extension "vault.tmp" p in
  or_else (atomic_write_vault_inner p tmp vf) (attempt (fs_remove tmp)).

Definition vault_create (salt nonce : bytes) (p : path) (identity : IdentityKey) (passphrase : string) : prog unit :=
  let! there := exists_ p in
  let! _ := ensure (negb there) (Failed (identity_error ("vault already exists at " +:+ path_display p))) in
  let! vf := lift (map_err Failed (encrypt_identity salt nonce identity passphrase)) in
  atomic_write_vault p vf.

Definition POLY1305_TAG_LEN : Z := 16.
Definition PLAINTEXT_LEN : Z := 32.

(** [Vault::open] after the file is read. *)
Definition unseal (b : bytes) (passphrase : string) : result IdentityKey CoreError :=
  let? vf := map_err Core_CborDecode (from_reader b) in
  let? _ := if decide (vf_v vf = VAULT_VERSION) then Ok tt
    else Err (identity_error ("unsupported vault version " +:+ pretty (vf_v vf) +:+ " (expected 1)")) in
  let? key := derive_aead_key passphrase (vf_salt vf) (vf_kdf vf) in
  let? _ := if decide (len (vf_ciphertext vf) = PLAINTEXT_LEN + POLY1305_TAG_LEN) then Ok tt
    else Err (identity_error "ciphertext has unexpected length") in
  let? secret := ok_or (xchacha_decrypt key (vf_nonce vf) VAULT_AAD (take 32 (vf_ciphertext vf)) (drop 32 (vf_ciphertext vf)))
    (identity_error "verification failed") in
  Ok (mkIdentityKey secret).

Definition vault_open (p : path) (passphrase : string) : prog IdentityKey :=
  let! b := io_err (fs_read p) in lift (map_err Failed (unseal b passphrase)).

Definition vault_change_passphrase (salt nonce : bytes) (p : path) (old new : string) : prog unit :=
  let! identity := vault_open p old in
  let! vf := lift (map_err Failed (encrypt_identity salt nonce identity new)) in
  atomic_write_vault p vf.
End vault.

(** ** [seed.rs] *)

Class Bip39 : Type := {
  bip39_phrase : bytes → result string string;
  bip39_entropy : string → result bytes string
}.

Section seed.
Context {bip : Bip39}.
Definition to_mnemonic (seed : bytes) : result (list string) CoreError :=
  let? phrase := map_err (λ e, identity_error ("bip39 encode: " +:+ e)) (bip39_phrase seed) in
  Ok (split_whitespace phrase).
Definition from_mnemonic (words : list string) : result bytes CoreError :=
  let? e := map_err (λ e, identity_error ("bip39 decode: " +:+ e)) (bip39_entropy (Text.join " " words)) in
  if decide (len e = 32) then Ok e else Err (identity_error "seed must be 32 bytes (24-word BIP39)").
End seed.

Definition mnemonic_from_words (words : list string) : list string := (λ w, to_ascii_lowercase (str_trim w)) <$> words.
Definition mnemonic_parse (input : string) : list string := to_ascii_lowercase <$> split_whitespace input.

(** ** [hs_key.rs] *)

Section hs_key.
Context {age : Age} {crypto : AttachmentCrypto}.

Definition transport_other (msg : string) : CoreError := Core_Transport (Transport_Other msg).

Definition hs_passphrase (seed : bytes) : result string CoreError :=
  let? key := hkdf_expand 32 seed INFO_HS_STORAGE_V1 in Ok (hex_encode key).

Definition hs_save (rng : bytes) (p : path) (seed key : bytes) : prog unit :=
  let! pass := lift (map_err Failed (hs_passphrase seed)) in
  let! ciphertext := lift (map_err (λ e, Failed (transport_other (age_write_message e)))
    (age_encrypt AGE_WORK_FACTOR pass rng key)) in
  let! _ := io_err fs_other in
  io_err (fs_write p ciphertext).

Definition hs_read_message (e : age_read_error) : string :=
  match e with
  | Age_Decryptor e => "age decryptor: " +:+ e
  | Age_NotScrypt => "unexpected age recipient type"
  | Age_Decrypt e => "age decrypt: " +:+ e
  end.

(** [read_exact] of 32 bytes, then a read for one more. *)
Definition read_key (pieces : list bytes) (broken : option string) : result bytes CoreError :=
  let b := concat pieces in
  if decide (len b < 32) then Err (transport_other ("age read: " +:+ default "failed to fill whole buffer" broken))
  else if decide (32 < len b) then Err (transport_other "hs key has unexpected length")
  else Ok b.

Definition hs_load (p : path) (seed : bytes) : prog bytes :=
  let! ciphertext := io_err (fs_read p) in
  let! pass := lift (map_err Failed (hs_passphrase seed)) in
  let! r := lift (map_err (λ e, Failed (transport_other (hs_read_message e)))
    (age_decrypt AGE_MAX_WORK_FACTOR pass ciphertext)) in
  lift (map_err Failed (read_key r.1 r.2)).

(** [fresh] is the key that is generated when there is none. *)
Definition load_or_create (rng fresh : bytes) (p : path) (seed : bytes) : prog bytes :=
  let! there := exists_ p in
  if there : bool then hs_load p seed
  else
    let! _ := hs_save rng p seed fresh in
    lift (Ok fresh).
End hs_key.

(** ** [backup.rs] *)

Definition BACKUP_FILES : list string := ["identity.vault"; "hs.key.age"; "skattr.sqlite.age"].

Section backup.
Context {age : Age} {ar : Archive} {crypto : AttachmentCrypto}.

Definition backup_write_message (e : age_write_error) : string :=
  match e with
  | Age_Recipients e => "age recipients backup: " +:+ e
  | Age_Wrap e => "age wrap backup: " +:+ e
  | Age_Write e => "age write backup: " +:+ e
  | Age_Finish e => "age finish backup: " +:+ e
  end.
Definition backup_read_message (e : age_read_error) : string :=
  match e with
  | Age_Decryptor e => "age decryptor backup: " +:+ e
  | Age_NotScrypt => "unexpected age recipient type on backup"
  | Age_Decrypt e => "age decrypt backup: " +:+ e
  end.
Definition backup_error (msg : string) : CoreError := Core_Storage (Storage_Other msg).

(** [append_path_with_name] of each member. *)
Fixpoint read_members (members : list (path * string)) : prog (list (string * bytes)) :=
  match members with
  | [] => lift (Ok [])
  | (src, name) :: members =>
      let! b := storage_err ("tar append " +:+ name) (fs_read src) in
      let! rest := read_members members in
      lift (Ok ((name, b) :: rest))
  end.

Definition write_encrypted_archive (rng : bytes) (members : list (path * string)) (out : path) (pass : string) : prog unit :=
  let! contents := read_members members in
  let! tarball := lib_err (storage_other "tar/gz finish") (tar_gz contents) in
  let! ciphertext := lift (map_err (λ e, Failed (backup_error (backup_write_message e)))
    (age_encrypt AGE_WORK_FACTOR pass rng tarball)) in
  let tmp := with_extension "tmp" out in
  let! _ := io_err (fs_write tmp ciphertext) in
  io_err (fs_rename tmp out).

Fixpoint all_present (data_dir : string) (names : list string) : prog unit :=
  match names with
  | [] => lift (Ok tt)
  | name :: names =>
      let! there := exists_ (join_path data_dir name) in
      let! _ := ensure there (Failed (backup_error ("missing backup input: " +:+ path_display (join_path data_dir name)))) in
      all_present data_dir names
  end.

Definition backup_passphrase (seed : bytes) : result string CoreError :=
  let? key := hkdf_expand 32 seed INFO_BACKUP_V1 in Ok (hex_encode key).

Definition export_backup (rng : bytes) (data_dir : string) (out : path) (seed : bytes) : prog unit :=
  let! _ := all_present data_dir BACKUP_FILES in
  let! pass := lift (map_err Failed (backup_passphrase seed)) in
  write_encrypted_archive rng ((λ n, (join_path data_dir n, n)) <$> BACKUP_FILES) out pass.

Definition export_backup_from_parts (rng : bytes) (data_dir : string) (db_age out : path) (backup_key : bytes) : prog unit :=
  write_encrypted_archive rng
    [(join_path data_dir "identity.vault", "identity.vault"); (join_path data_dir "hs.key.age", "hs.key.age");
     (db_age, "skattr.sqlite.age")] out (hex_encode backup_key).

Fixpoint none_present (data_dir : string) (names : list string) : prog unit :=
  match names with
  | [] => lift (Ok tt)
  | name :: names =>
      let! there := exists_ (join_path data_dir name) in
      let! _ := ensure (negb there) (Failed (backup_error
        ("refusing to overwrite existing " +:+ name +:+ "; restore into a clean data_dir"))) in
      none_present data_dir names
  end.

Fixpoint unpack (data_dir : string) (entries : list (result (string * bytes) string)) : prog unit :=
  match entries with
  | [] => lift (Ok tt)
  | entry :: entries =>
      let! e := lib_err (storage_other "tar entry") entry in
      let! _ := ensure (bool_decide (e.1 ∈ BACKUP_FILES)) (Failed (backup_error ("unexpected backup entry: " +:+ e.1))) in
      let! _ := storage_err ("extract " +:+ e.1) (fs_write (join_path data_dir e.1) e.2) in
      unpack data_dir entries
  end.

Definition import_backup (archive : path) (data_dir : string) (seed : bytes) : prog unit :=
  let! _ := none_present data_dir BACKUP_FILES in
  let! ciphertext := io_err (fs_read archive) in
  let! pass := lift (map_err Failed (backup_passphrase seed)) in
  let! r := lift (map_err (λ e, Failed (backup_error (backup_read_message e)))
    (age_decrypt AGE_MAX_WORK_FACTOR pass ciphertext)) in
  let! _ := lift (match r.2 with
    | Some e => Err (Failed (storage_other "read backup plaintext" e))
    | None => Ok tt
    end) in
  let! _ := io_err fs_other in
  let! entries := lib_err (storage_other "tar entries") (tar_entries (concat r.1)) in
  unpack data_dir entries.
End backup.
