(* ===== verification/VaultProps.v ===== *)
(** * VaultProps: no crash loses the identity

    A vault opens with its passphrase; a change of passphrase that fails or is cut
    short leaves the old vault or the new one; a backup restores what it was made
    of; and the hidden-service key, whose file is not replaced atomically. *)

From S2P Require Import Prelude Text Framing SimpleCodec CoreErrors Identity Attachments Disk Pool PoolProps PoolLife Vault.

(** ** The vault *)

Section vault.
Context {vc : VaultCrypto} {vlaws : VaultCryptoLaws}.
Context {ser : Serialize VaultFile} {de : Deserialize VaultFile} {rt : CborRoundtrip VaultFile}.
Context (p : path).

Abbreviation tmp := (with_extension "vault.tmp" p).

(** The file at [p] opens to [id] with [pass]. *)
Definition opens (pass : string) (id : IdentityKey) (m : tree) : Prop :=
  ∃ b, m !! p = Some b ∧ unseal b pass = Ok id.

Lemma unseal_len b pass id : unseal b pass = Ok id → length (secret id) = 32%nat.
Proof using vlaws.
  unfold unseal. intros (vf & _ & H)%bind_Ok_inv. apply bind_Ok_inv in H as (? & _ & H).
  apply bind_Ok_inv in H as (k & _ & H). apply bind_Ok_inv in H as (? & Hl & H).
  apply bind_Ok_inv in H as (s & Hs & [= <-]). cbn. case_decide as Hlen; [|done].
  destruct (xchacha_decrypt _ _ _ _ _) as [s'|] eqn:E; [|done]. injection Hs as <-.
  apply open_len in E. rewrite E, length_take. unfold len, PLAINTEXT_LEN, POLY1305_TAG_LEN in Hlen. lia.
Qed.

Lemma unseal_encrypted salt nonce id pass vf b :
  length (secret id) = 32%nat → encrypt_identity salt nonce id pass = Ok vf → into_writer vf = Ok b → unseal b pass = Ok id.
Proof using vlaws rt.
  intros Hid He Hb. unfold unseal. rewrite (from_into _ _ Hb). cbn [map_err bind_result].
  unfold encrypt_identity in He. apply bind_Ok_inv in He as (k & Hk & He). apply bind_Ok_inv in He as (ct & Hct & [= <-]).
  cbn [vf_v vf_kdf vf_salt vf_nonce vf_ciphertext]. rewrite decide_True by done. cbn [bind_result]. rewrite Hk. cbn [bind_result].
  destruct (xchacha_encrypt _ _ _ _) as [ct'|] eqn:E; [|done]. injection Hct as <-.
  apply seal_open in E as [Hl Hd]. rewrite decide_True by (unfold len, PLAINTEXT_LEN, POLY1305_TAG_LEN in *; lia).
  cbn [bind_result]. rewrite Hid in Hd. rewrite Hd. cbn. by destruct id.
Qed.

(** Everything but the vault and its temporary file is as in [m0]. *)
Definition elsewhere (m0 m : tree) : Prop := ∀ q, q ≠ p → q ≠ tmp → m !! q = m0 !! q.

Context (apart : p ≠ tmp).

Lemma leads_atomic_write (m0 : tree) vf b :
  into_writer vf = Ok b →
  leads (λ m, elsewhere m0 m ∧ m !! p = m0 !! p) (atomic_write_vault p vf)
    (λ _ m, elsewhere m0 m ∧ m !! p = Some b)
    (λ m, elsewhere m0 m ∧ (m !! p = m0 !! p ∨ m !! p = Some b)).
Proof using apart.
  intros Hb. unfold atomic_write_vault.
  set (P := λ m, elsewhere m0 m ∧ m !! p = m0 !! p). set (F := λ m, elsewhere m0 m ∧ (m !! p = m0 !! p ∨ m !! p = Some b)).
  assert (∀ m x, P m → P (<[tmp := x]> m)) as Hset.
  { intros m x [He Hp]. split; [intros q ? ?; rewrite lookup_insert_ne by done; by apply He|]. by rewrite lookup_insert_ne. }
  assert (∀ m, P m → F m) as HPF by (intros m [? ?]; split; auto).
  apply leads_or_else.
  - unfold atomic_write_vault_inner. rewrite Hb. unfold lib_err. cbn [map_err].
    eapply (leads_bind _ _ (λ t m, t = b ∧ P m)); [by intros d ?|]. intros b' .
    eapply (leads_bind _ _ (λ _ m, b' = b ∧ P m ∧ m !! tmp = Some [])).
    { apply leads_map_stop, leads_create; [intros m [_ ?]; by apply HPF|]. intros m [-> ?]. rewrite lookup_insert_eq. auto. }
    intros []. eapply (leads_bind _ _ (λ _ m, P m ∧ m !! tmp = Some b)).
    { apply leads_map_stop, leads_append; unfold appended.
      - intros m n (_ & ? & _). by apply HPF, Hset.
      - intros m (-> & ? & Ht). rewrite lookup_insert_eq, Ht. auto. }
    intros []. eapply leads_bind; [apply leads_map_stop, leads_other; intros m [? _]; by apply HPF|].
    intros []. eapply (leads_bind _ _ (λ _ m, elsewhere m0 m ∧ m !! p = Some b)).
    { apply leads_map_stop, leads_rename; [intros m [? _]; by apply HPF|]. intros m x [[He _] Ht] Hx. rewrite Ht in Hx.
      injection Hx as <-. rewrite lookup_insert_eq. split; [|done]. intros q ? ?.
      rewrite lookup_insert_ne, lookup_delete_ne by done. by apply He. }
    assert (∀ m, elsewhere m0 m ∧ m !! p = Some b → F m) as HF by (intros m [? ?]; split; auto).
    intros []. eapply leads_bind; [by apply leads_map_stop, leads_other|]. intros []. by apply leads_map_stop, leads_other.
  - apply leads_attempt; [|done]. apply leads_remove; [done|]. intros m [He Hp]. split; [|by rewrite lookup_delete_ne].
    intros q ? ?. rewrite lookup_delete_ne by done. by apply He.
Qed.

(** C15: changing the passphrase never loses the identity.  However the file
    operations fail and wherever the process dies, the file afterwards opens to the
    same identity with the old passphrase or with the new one, and with the new one
    when the change reports success; a wrong old passphrase touches nothing; and no
    other file changes but the temporary one. *)
Theorem passphrase_change_safe salt nonce old new m pl dk r b :
  m !! p = Some b → vault_change_passphrase salt nonce p old new (mkDisk m pl) = (dk, r) →
  elsewhere m (files dk) ∧
  match unseal b old with
  | Ok id => (opens old id (files dk) ∨ opens new id (files dk)) ∧ (r = Ok tt → opens new id (files dk))
  | Err _ => files dk = m ∧ r ≠ Ok tt
  end.
Proof using vlaws rt apart.
  intros Hb E.
  set (Q := λ m', m' = m).
  assert (leads Q (vault_open p old) (λ id m', m' = m ∧ unseal b old = Ok id) Q) as Hopen.
  { unfold vault_open. eapply leads_bind; [apply leads_map_stop, leads_read; done|]. intros b' d [Hq Hb']. unfold Q in Hq.
    rewrite Hq, Hb in Hb'. injection Hb' as <-. unfold lift. cbn [fst snd]. by destruct (unseal b old). }
  specialize (Hopen (mkDisk m pl) eq_refl). unfold vault_change_passphrase, bind_action at 1 in E.
  destruct (vault_open p old (mkDisk m pl)) as [dk1 [id|e]]; cbn in Hopen.
  2: { injection E as <- <-. unfold Q in Hopen. rewrite Hopen. split; [by intros q ? ?|]. destruct (unseal b old) as [id|] eqn:Hu; [|done].
       split; [left; by exists b|done]. }
  destruct Hopen as [Hm Hid]. rewrite Hid. unfold bind_action at 1, lift at 1 in E.
  assert (opens old id m) as Hold by (by exists b).
  destruct (encrypt_identity salt nonce id new) as [vf|e] eqn:Ev; cbn [map_err] in E.
  2: { injection E as <- <-. rewrite Hm. split; [by intros q ? ?|]. split; [by left|done]. }
  destruct (into_writer vf) as [nb|e] eqn:Ew.
  - pose proof (leads_atomic_write m vf nb Ew dk1) as Hw. rewrite Hm in Hw. specialize (Hw (conj (λ _ _ _, eq_refl) eq_refl)).
    rewrite E in Hw. assert (unseal nb new = Ok id) as Hn by (eapply unseal_encrypted; [by eapply unseal_len|done|done]).
    destruct r as [[]|e]; cbn in Hw; destruct Hw as [He Hp]; (split; [done|]).
    + split; [right|]; by exists nb.
    + split; [|done]. destruct Hp as [Hp|Hp]; [left; exists b; by rewrite Hp|right; by exists nb].
  - assert (elsewhere m (files dk) ∧ files dk !! p = m !! p ∧ r ≠ Ok tt) as (He & Hp & Hr).
    { unfold atomic_write_vault, or_else, atomic_write_vault_inner, bind_action at 1, lib_err, lift in E.
      rewrite Ew in E. cbn [map_err] in E. destruct (attempt (fs_remove tmp) dk1) as [dk2 r2] eqn:Ea.
      apply attempt_remove in Ea. rewrite Hm in Ea.
      assert (elsewhere m (files dk2) ∧ files dk2 !! p = m !! p) as [? ?].
      { destruct Ea as [->| ->]; [done|]. split; [intros q ? ?; by rewrite lookup_delete_ne|by rewrite lookup_delete_ne]. }
      destruct r2 as [[]|[|]]; by injection E as <- <-. }
    split; [done|]. split; [|done]. left. exists b. by rewrite Hp.
Qed.
End vault.

(** ** Runs without faults *)

(** What [c] does when it succeeds it also does when nothing can fail. *)
Definition steady {T E : Type} (c : action disk T (stop E)) : Prop :=
  ∀ m pl d t, c (mkDisk m pl) = (d, Ok t) → c (mkDisk m []) = (mkDisk (files d) [], Ok t).

Section steady.
Context {E : Type}.

Lemma steady_bind {T U : Type} (c : action disk T (stop E)) (k : T → action disk U (stop E)) :
  steady c → (∀ t, steady (k t)) → steady (bind_action c k).
Proof.
  intros Hc Hk m pl d u. unfold bind_action. destruct (c (mkDisk m pl)) as [[m1 pl1] [t|e]] eqn:Ec; [|done].
  intros H. rewrite (Hc _ _ _ _ Ec). by apply (Hk _ _ _ _ _ H).
Qed.
Lemma steady_lift {T} (r : result T (stop E)) : steady (lift r).
Proof. intros m pl d t H. unfold lift in *. by injection H as <- ->. Qed.
Lemma steady_ensure (b : bool) (e : stop E) : steady (ensure b e).
Proof. intros m pl d t H. unfold ensure in *. destruct b; [|done]. by injection H as <- <-. Qed.
Lemma steady_map_stop {T F : Type} (f : F → E) (c : action disk T (stop F)) : steady c → steady (map_stop f c).
Proof.
  intros Hc m pl d t. unfold map_stop. destruct (c (mkDisk m pl)) as [d' [t'|[e|]]] eqn:Ec; [|done..].
  intros [= -> ->]. by rewrite (Hc _ _ _ _ Ec).
Qed.
Lemma steady_exists p : steady (exists_ (E := E) p).
Proof. intros m [|[|e n|n] pl] d t; unfold exists_; cbn [plan files tail]; [by intros [= <- <-]..|done]. Qed.
End steady.

Lemma steady_syscall {T} (done : tree → result (tree * T) io_error) torn : steady (syscall done torn).
Proof.
  intros m pl d t. unfold syscall. cbn [plan files].
  destruct pl as [|[|e n|n] pl]; [|destruct (done m) as [[m' t']|e]..|done|done]; [|by intros [= <- <-]|done].
  destruct (done m) as [[m' t']|e]; [|done]. by intros [= <- <-].
Qed.

#[export] Hint Resolve steady_bind steady_lift steady_ensure steady_map_stop steady_exists steady_syscall : steady.

Ltac solve_steady :=
  unfold io_err, storage_err, lib_err, fs_write, fs_read, fs_create, fs_append, fs_rename, fs_other in *;
  repeat first [apply steady_bind; [|intros ?]|apply steady_map_stop|apply steady_syscall|apply steady_lift
               |apply steady_ensure|apply steady_exists|progress auto with steady].

Lemma written_back {T} (f : io_error → CoreError) p b (k : prog T) m :
  bind_action (map_stop f (fs_write p b)) (λ _, k) (mkDisk m []) = k (mkDisk (<[p := b]> m) []).
Proof.
  unfold bind_action, map_stop, fs_write, bind_action, fs_create, fs_append, syscall, appended. cbn.
  by rewrite lookup_insert_eq, insert_insert_eq.
Qed.

(** ** Backups *)

Section backup_props.
Context {age : Age} {age_laws : AgeLaws} {ar : Archive} {ar_laws : ArchiveLaws} {crypto : AttachmentCrypto}.

Lemma steady_read_members ms : steady (read_members ms).
Proof using Type. induction ms as [|[src name] ms IH]; cbn [read_members]; solve_steady. Qed.
Lemma steady_all_present dir ns : steady (all_present dir ns).
Proof using Type. induction ns as [|n ns IH]; cbn [all_present]; solve_steady. Qed.
Lemma steady_none_present dir ns : steady (none_present dir ns).
Proof using Type. induction ns as [|n ns IH]; cbn [none_present]; solve_steady. Qed.
Lemma steady_unpack dir es : steady (unpack dir es).
Proof using Type. induction es as [|e es IH]; cbn [unpack]; solve_steady. Qed.
Lemma steady_export rng dir out seed : steady (export_backup rng dir out seed).
Proof using Type.
  unfold export_backup, write_encrypted_archive. apply steady_bind; [apply steady_all_present|intros ?].
  apply steady_bind; [apply steady_lift|intros ?]. apply steady_bind; [apply steady_read_members|intros ?]. solve_steady.
Qed.
Lemma steady_import archive dir seed : steady (import_backup archive dir seed).
Proof using Type.
  unfold import_backup. apply steady_bind; [apply steady_none_present|intros ?].
  repeat (apply steady_bind; [solve_steady|intros ?]). apply steady_unpack.
Qed.

(** The members of an archive made of the files at [ms]. *)
Definition members_of (ms : list (path * string)) (m : tree) (l : list (string * bytes)) : Prop :=
  Forall2 (λ s nb, nb.1 = s.2 ∧ m !! s.1 = Some nb.2) ms l.

Lemma read_members_run ms m d l :
  read_members ms (mkDisk m []) = (d, Ok l) → d = mkDisk m [] ∧ members_of ms m l.
Proof using Type.
  revert d l. induction ms as [|[src name] ms IH]; intros d l; cbn [read_members].
  - intros [= <- <-]. split; [done|constructor].
  - unfold bind_action at 1, storage_err at 1, map_stop, fs_read, syscall. cbn [plan files tail].
    destruct (m !! src) as [b|] eqn:Eb; [|done]. unfold bind_action.
    destruct (read_members ms (mkDisk m [])) as [d' [l'|e]]; [|done]. destruct (IH _ _ eq_refl) as [-> Hl].
    intros [= <- <-]. split; [done|]. by constructor.
Qed.

(** The files of an archive in [dir]. *)
Definition restored (dir : string) (l : list (string * bytes)) (m : tree) : tree :=
  foldl (λ m nb, <[join_path dir nb.1 := nb.2]> m) m l.

Lemma unpack_run dir l m :
  Forall (λ nb, nb.1 ∈ BACKUP_FILES) l → unpack dir (Ok <$> l) (mkDisk m []) = (mkDisk (restored dir l m) [], Ok tt).
Proof using Type.
  intros H. revert m. induction H as [|[n b] l Hn _ IH]; intros m; [done|]. cbn [fmap list_fmap unpack restored foldl fst snd].
  unfold bind_action at 1, lib_err, lift. cbn [map_err]. unfold bind_action at 1, ensure. cbn [fst] in *.
  rewrite bool_decide_true by done. unfold storage_err. rewrite written_back. apply IH.
Qed.

Lemma restored_other dir l m q :
  (∀ nb, nb ∈ l → q ≠ join_path dir nb.1) → restored dir l m !! q = m !! q.
Proof using Type.
  revert m. induction l as [|[n b] l IH]; intros m H; [done|]. cbn [restored foldl fst snd].
  fold (restored dir l (<[join_path dir n := b]> m)). rewrite IH by (intros; apply H; by right).
  apply lookup_insert_ne. intros <-. by eapply (H (n, b)); [left|].
Qed.
Lemma restored_member dir l m n b :
  NoDup l.*1 → (n, b) ∈ l → restored dir l m !! join_path dir n = Some b.
Proof using Type.
  revert m. induction l as [|[n' b'] l IH]; intros m; [by intros _ ?%not_elem_of_nil|].
  cbn [restored foldl fst snd fmap list_fmap]. intros [Hn Hd]%NoDup_cons [[= <- <-]|H]%elem_of_cons.
  - fold (restored dir l (<[join_path dir n := b]> m)). rewrite restored_other; [apply lookup_insert_eq|].
    intros [n' b'] Hin [= <-]. apply Hn. by apply (list_elem_of_fmap_2 fst) in Hin.
  - by apply IH.
Qed.

Lemma none_present_run dir m ns :
  (∀ n, n ∈ ns → m !! join_path dir n = None) → none_present dir ns (mkDisk m []) = (mkDisk m [], Ok tt).
Proof using Type.
  induction ns as [|n ns IH]; intros H; [done|]. cbn [none_present]. unfold bind_action at 1, exists_. cbn [plan files tail].
  rewrite (H n) by left. unfold bind_action at 1, ensure. cbn. apply IH. intros; apply H; by right.
Qed.
Lemma all_present_run dir ns m d r : all_present dir ns (mkDisk m []) = (d, r) → d = mkDisk m [].
Proof using Type.
  induction ns as [|n ns IH]; cbn [all_present]; [by intros [= <- _]|]. unfold bind_action at 1, exists_. cbn [plan files tail].
  unfold bind_action at 1, ensure. case_bool_decide; [done|by intros [= <- _]].
Qed.

(** An archive that was written: what it holds. *)
Lemma archive_written rng ms out pass m d :
  write_encrypted_archive rng ms out pass (mkDisk m []) = (d, Ok tt) →
  ∃ l tarball ct, members_of ms m l ∧ tar_gz l = Ok tarball ∧ age_encrypt AGE_WORK_FACTOR pass rng tarball = Ok ct ∧
    files d !! out = Some ct.
Proof using Type.
  unfold write_encrypted_archive, bind_action at 1. destruct (read_members ms (mkDisk m [])) as [d1 [l|e]] eqn:E1; [|done].
  apply read_members_run in E1 as [-> Hl]. unfold bind_action at 1, lib_err, lift.
  destruct (tar_gz l) as [tb|e] eqn:E2; [|done]. cbn [map_err]. unfold bind_action at 1.
  destruct (age_encrypt _ _ _ _) as [ct|e] eqn:E3; [|done]. cbn [map_err]. unfold io_err. rewrite written_back.
  unfold map_stop, fs_rename, syscall. cbn [plan files tail]. rewrite lookup_insert_eq. intros [= <-].
  exists l, tb, ct. split_and!; [done..|]. apply lookup_insert_eq.
Qed.

Lemma import_run archive dir seed pass rng m l tarball ct :
  (∀ n, n ∈ BACKUP_FILES → m !! join_path dir n = None) → m !! archive = Some ct → backup_passphrase seed = Ok pass →
  tar_gz l = Ok tarball → age_encrypt AGE_WORK_FACTOR pass rng tarball = Ok ct → Forall (λ nb, nb.1 ∈ BACKUP_FILES) l →
  import_backup archive dir seed (mkDisk m []) = (mkDisk (restored dir l m) [], Ok tt).
Proof using age_laws ar_laws.
  intros Hno Hct Hpass Htar Henc Hl. unfold import_backup, bind_action at 1. rewrite none_present_run by done.
  unfold bind_action at 1, io_err at 1, map_stop, fs_read, syscall. cbn [plan files tail]. rewrite Hct.
  unfold bind_action at 1, lift at 1. rewrite Hpass. cbn [map_err]. unfold bind_action at 1, lift at 1.
  destruct (law_age _ AGE_MAX_WORK_FACTOR _ _ _ _ Henc) as (pieces & -> & <-); [done|]. cbn [map_err fst snd].
  unfold bind_action at 1, lift at 1. unfold bind_action at 1, io_err, map_stop, fs_other, syscall. cbn [plan files tail].
  unfold bind_action at 1, lib_err, lift at 1. rewrite (law_tar _ _ Htar). cbn [map_err]. by apply unpack_run.
Qed.

Lemma members_names ms m l : members_of ms m l → l.*1 = ms.*2.
Proof using Type. induction 1 as [|[s n] [n' b] ms l [H _] _ IH]; [done|]. cbn in *. by rewrite H, IH. Qed.
Lemma members_content dir ns m l n :
  members_of ((λ n, (join_path dir n, n)) <$> ns) m l → n ∈ ns → ∃ b, (n, b) ∈ l ∧ m !! join_path dir n = Some b.
Proof using Type.
  intros H Hn. apply (list_elem_of_fmap_2 (λ n, (join_path dir n, n))) in Hn.
  apply list_elem_of_lookup_1 in Hn as [i Hi]. destruct (Forall2_lookup_l _ _ _ _ _ H Hi) as ([n' b] & Hl & Hn' & Hb).
  cbn in *. subst n'. exists b. split; [by eapply list_elem_of_lookup_2|done].
Qed.

(** C28: restoring a backup gives back what was backed up.  When an export reports
    success, importing the archive it wrote into a directory without any of the
    three files succeeds: vault, hidden-service key and database are those at the
    time of the export and no other file changes.  An import that reports success
    in spite of failing operations has the same result. *)
Theorem backup_roundtrip rng dir out seed m pl d1 archive dir' m' :
  export_backup rng dir out seed (mkDisk m pl) = (d1, Ok tt) →
  m' !! archive = files d1 !! out → (∀ n, n ∈ BACKUP_FILES → m' !! join_path dir' n = None) →
  ∃ m'', import_backup archive dir' seed (mkDisk m' []) = (mkDisk m'' [], Ok tt) ∧
    (∀ n, n ∈ BACKUP_FILES → m'' !! join_path dir' n = m !! join_path dir n) ∧
    (∀ q, q ∉ join_path dir' <$> BACKUP_FILES → m'' !! q = m' !! q) ∧
    ∀ pl' d2, import_backup archive dir' seed (mkDisk m' pl') = (d2, Ok tt) → files d2 = m''.
Proof using age_laws ar_laws.
  intros E Ha Hno. apply steady_export in E. unfold export_backup, bind_action at 1 in E.
  destruct (all_present dir BACKUP_FILES (mkDisk m [])) as [d0 [[]|e]] eqn:E0; [|done]. apply all_present_run in E0 as ->.
  unfold bind_action at 1, lift at 1 in E. destruct (backup_passphrase seed) as [pass|e] eqn:Ep; [|done]. cbn [map_err] in E.
  apply archive_written in E as (l & tb & ct & Hl & Ht & He & Hct). cbn [files] in Hct. rewrite <- Ha in Hct.
  assert (l.*1 = BACKUP_FILES) as Hn by (apply members_names in Hl; by rewrite Hl, <- list_fmap_compose, list_fmap_id).
  assert (Forall (λ nb, nb.1 ∈ BACKUP_FILES) l) as Hall.
  { apply Forall_forall. intros nb H. rewrite <- Hn. by apply list_elem_of_fmap_2. }
  exists (restored dir' l m'). pose proof (import_run archive dir' seed pass rng m' l tb ct Hno Hct Ep Ht He Hall) as HI.
  split_and!; [done| | |].
  - intros n H. destruct (members_content _ _ _ _ _ Hl H) as (b & Hb & ->). apply restored_member; [|done]. rewrite Hn.
    by apply (bool_decide_unpack _); vm_compute.
  - intros q Hq. apply restored_other. intros [n b] H ->. apply Hq, list_elem_of_fmap_2. rewrite <- Hn.
    by apply (list_elem_of_fmap_2 fst) in H.
  - intros pl' d2 E2. apply steady_import in E2. rewrite HI in E2. by injection E2 as ->.
Qed.
End backup_props.

(** ** The hidden-service key *)

(** Age rejects a file without a header. *)
Class AgeHeader {age : Age} : Prop :=
  law_age_empty max pass : ∃ e, age_decrypt max pass [] = Err (Age_Decryptor e).

Section hs_props.
Context {age : Age} {age_laws : AgeLaws} {crypto : AttachmentCrypto}.

Lemma read_key_exact b pieces : length b = 32%nat → concat pieces = b → read_key pieces None = Ok b.
Proof using Type. intros Hl <-. unfold read_key, len. rewrite Hl. by rewrite decide_False, decide_False by lia. Qed.

Lemma hs_save_run rng p seed key m d :
  hs_save rng p seed key (mkDisk m []) = (d, Ok tt) →
  ∃ pass ct, hs_passphrase seed = Ok pass ∧ age_encrypt AGE_WORK_FACTOR pass rng key = Ok ct ∧ d = mkDisk (<[p := ct]> m) [].
Proof using Type.
  unfold hs_save, bind_action at 1, lift at 1. destruct (hs_passphrase seed) as [pass|e]; [|done]. cbn [map_err].
  unfold bind_action at 1, lift at 1. destruct (age_encrypt _ _ _ _) as [ct|e] eqn:E; [|done]. cbn [map_err].
  unfold bind_action at 1, io_err at 1, map_stop at 1, fs_other, syscall at 1. cbn [plan files tail].
  intros H. exists pass, ct. split_and!; [done..|]. revert H.
  unfold io_err, map_stop, fs_write, bind_action, fs_create, fs_append, syscall, appended. cbn.
  rewrite lookup_insert_eq, insert_insert_eq. cbn. by intros [= <-].
Qed.

Lemma steady_load p seed : steady (hs_load p seed).
Proof using Type. unfold hs_load. solve_steady. Qed.
Lemma steady_save rng p seed key : steady (hs_save rng p seed key).
Proof using Type. unfold hs_save. solve_steady. Qed.
Lemma steady_load_or_create rng fresh p seed : steady (load_or_create rng fresh p seed).
Proof using Type.
  unfold load_or_create. apply steady_bind; [apply steady_exists|]. intros []; [apply steady_load|].
  apply steady_bind; [apply steady_save|intros ?; apply steady_lift].
Qed.

Lemma load_reads p seed m d k :
  hs_load p seed (mkDisk m []) = (d, Ok k) → d = mkDisk m [] ∧ is_Some (m !! p).
Proof using Type.
  unfold hs_load, bind_action at 1, io_err, map_stop, fs_read, syscall. cbn [plan files tail].
  destruct (m !! p) as [ct|]; [|done]. unfold bind_action at 1, lift. destruct (hs_passphrase seed); [|done]. cbn [map_err].
  unfold bind_action. destruct (age_decrypt _ _ _); [|done]. cbn [map_err]. intros [= <- _]. eauto.
Qed.

Lemma load_found rng fresh p seed m :
  is_Some (m !! p) → load_or_create rng fresh p seed (mkDisk m []) = hs_load p seed (mkDisk m []).
Proof using Type.
  intros H. unfold load_or_create, bind_action at 1, exists_. cbn [plan files tail]. by rewrite bool_decide_true.
Qed.

(** The hidden-service key, and so the onion address, is stable.  Once a start
    has obtained a key, each later start with the same seed obtains the same key,
    whatever it would have generated, and leaves the file alone. *)
Theorem hs_key_stable rng fresh p seed m pl d k :
  length fresh = 32%nat → load_or_create rng fresh p seed (mkDisk m pl) = (d, Ok k) →
  ∀ rng' fresh', load_or_create rng' fresh' p seed (mkDisk (files d) []) = (mkDisk (files d) [], Ok k).
Proof using age_laws.
  intros Hf E rng' fresh'. apply steady_load_or_create in E. destruct (m !! p) as [ct|] eqn:Hp.
  - rewrite load_found in E by eauto. destruct (load_reads _ _ _ _ _ E) as [[= Hd] Hs]. rewrite Hd in *. by rewrite load_found.
  - unfold load_or_create, bind_action at 1, exists_ in E. cbn [plan files tail] in E. rewrite Hp in E.
    rewrite bool_decide_false in E by (by intros [? ?]). unfold bind_action in E.
    destruct (hs_save _ _ _ _ (mkDisk m [])) as [d1 [[]|e]] eqn:Es; [|done].
    apply hs_save_run in Es as (pass & ct & Hpass & He & ->). injection E as Hm <-. cbn [files] in *.
    destruct d as [m2 pl2]. cbn [files] in *. subst m2. rewrite load_found by (rewrite lookup_insert_eq; eauto).
    unfold hs_load, bind_action at 1, io_err, map_stop, fs_read, syscall. cbn [plan files tail]. rewrite lookup_insert_eq.
    unfold bind_action at 1, lift at 1. rewrite Hpass. cbn [map_err]. unfold bind_action at 1, lift at 1.
    destruct (law_age _ AGE_MAX_WORK_FACTOR _ _ _ _ He) as (pieces & -> & Hb); [done|]. cbn [map_err fst snd].
    unfold lift. by rewrite (read_key_exact fresh) by done.
Qed.

(** A first start that dies while it writes the key cannot be followed by
    another.  The file is written in place, so an empty one can remain, and every
    later start, whatever its seed, fails on it and leaves it as it is. *)
Theorem torn_hs_key_fails {hdr : AgeHeader} rng fresh p seed pass ct m :
  m !! p = None → hs_passphrase seed = Ok pass → age_encrypt AGE_WORK_FACTOR pass rng fresh = Ok ct →
  ∃ m1, load_or_create rng fresh p seed (mkDisk m [Fine; Fine; Fine; Dies 0]) = (mkDisk m1 [], Err Crashed) ∧
    ∀ rng' fresh' seed' pl, let r := load_or_create rng' fresh' p seed' (mkDisk m1 pl) in
      files r.1 = m1 ∧ is_ok r.2 = false.
Proof using Type.
  intros Hp Hpass He. exists (<[p := []]> m). split.
  - unfold load_or_create, bind_action at 1, exists_. cbn [plan files tail]. rewrite Hp, bool_decide_false by (by intros [? ?]).
    unfold bind_action at 1, hs_save, bind_action at 1, lift at 1. rewrite Hpass. cbn [map_err].
    unfold bind_action at 1, lift. rewrite He. cbn. unfold appended. by rewrite lookup_insert_eq, insert_insert_eq.
  - intros rng' fresh' seed' pl.
    assert (leads (λ m', m' = <[p := []]> m) (load_or_create rng' fresh' p seed') (λ _ _, False) (λ m', m' = <[p := []]> m)) as H.
    { unfold load_or_create. eapply leads_bind; [by apply leads_exists|]. intros b. cbn.
      destruct b; [|intros dk [H1 H2]; rewrite H1, lookup_insert_eq in H2; by vm_compute in H2].
      unfold hs_load. eapply (leads_bind _ _ (λ b m', m' = <[p := []]> m ∧ b = [])).
      { apply leads_map_stop. eapply leads_post; [|done|eapply leads_pre; [|by apply (leads_read (λ m', m' = <[p := []]> m))]; by intros m' [? _]].
        intros b m' [-> Hb]. rewrite lookup_insert_eq in Hb. by injection Hb as <-. }
      intros b. eapply leads_bind; [apply (leads_lift _ _ (λ _ m', m' = <[p := []]> m ∧ b = [])); [done|by intros m' [? _]]|].
      intros pass' dk [H1 ->]. unfold bind_action, lift. destruct (law_age_empty AGE_MAX_WORK_FACTOR pass') as [e ->]. done. }
    specialize (H (mkDisk (<[p := []]> m) pl) eq_refl). cbn zeta.
    destruct (load_or_create _ _ _ _ _) as [d' [k|e]]; [done|]. done.
Qed.
End hs_props.

(** ** Witnesses *)

Module VaultSamples.
(** A cipher whose tag is the key, and the passphrase as key. *)
Definition pad16 (k : bytes) : bytes := take 16 (k ++ fill 16 Byte.x00).
#[export] Instance tag_crypto : VaultCrypto := {|
  argon2_params _ _ _ := Ok tt;
  argon2_hash _ _ _ pass _ := Ok (bytes_of_string pass);
  xchacha_encrypt k _ _ m := Some (m ++ pad16 k);
  xchacha_decrypt k _ _ body tag := if decide (tag = pad16 k) then Some body else None
|}.
#[export] Instance tag_crypto_laws : VaultCryptoLaws.
Proof.
  split.
  - intros k n a m ct [= <-]. rewrite take_app_length, drop_app_length. cbn. rewrite decide_True by done.
    split; [|done]. unfold len, pad16. rewrite !length_app, length_take, length_app. unfold fill. rewrite length_replicate. lia.
  - intros k n a body tag m. cbn. case_decide; [|done]. by intros [= <-].
Qed.

#[export] Instance codec_kdf : Codec KdfParams.
Proof.
  refine (codec_via (λ k, (m_kib k, kdf_t k, kdf_p k)) (λ '(a, b, c), Some (mkKdfParams a b c)) _). by intros [].
Defined.
#[export] Instance codec_vault : Codec VaultFile.
Proof.
  refine (codec_via (λ v, (vf_v v, vf_kdf v, vf_salt v, vf_nonce v, vf_ciphertext v))
    (λ '(a, b, c, d, e), Some (mkVaultFile a b c d e)) _). by intros [].
Defined.
#[export] Existing Instance serialize_of.
#[export] Existing Instance deserialize_of.
#[export] Existing Instance roundtrip_of.

(** Encryption adds a header. *)
#[export] Instance header_age : Age := {|
  age_encrypt f pass rng b := Ok (Byte.x61 :: b);
  age_decrypt max pass ct := match ct with [] => Err (Age_Decryptor "no header") | _ :: b => Ok ([b], None) end
|}.
#[export] Instance header_age_laws : AgeLaws.
Proof. split. intros f max pass rng b ct [= <-] _. exists [b]. cbn. by rewrite app_nil_r. Qed.
#[export] Instance header_age_header : AgeHeader.
Proof. intros max pass. by eexists. Qed.

#[export] Instance plain_archive : Archive := {|
  tar_gz l := into_writer l;
  tar_entries b := let? l := from_reader (T := list (string * bytes)) b in Ok (Ok <$> l)
|}.
#[export] Instance plain_archive_laws : ArchiveLaws.
Proof. intros l b H. cbn in *. by rewrite (from_into _ _ H). Qed.

Definition id0 : IdentityKey := mkIdentityKey (fill 32 Byte.x07).
Definition home : tree := (vault_create [] [] ("d", "identity.vault") id0 "old" (mkDisk ∅ [])).1.(files).
(** The process dies in the rename. *)
Definition in_rename : list fault := [Fine; Fine; Fine; Fine; Dies 0].
Definition full : tree :=
  <[("d", "hs.key.age") := [Byte.x01]]> (<[("d", "skattr.sqlite.age") := [Byte.x02; Byte.x03]]> home).
Definition seed0 : bytes := fill 32 Byte.x09.
End VaultSamples.
Import VaultSamples.

Lemma passphrase_change_safe_witness :
  (vault_change_passphrase [] [] ("d", "identity.vault") "old" "new" (mkDisk home in_rename)).2 = Err Crashed ∧
  (opens ("d", "identity.vault") "old" id0 (files (vault_change_passphrase [] [] ("d", "identity.vault") "old" "new" (mkDisk home in_rename)).1) ∨
   opens ("d", "identity.vault") "new" id0 (files (vault_change_passphrase [] [] ("d", "identity.vault") "old" "new" (mkDisk home in_rename)).1)).
Proof.
  split; [vm_compute; reflexivity|].
  destruct (home !! ("d", "identity.vault")) as [b|] eqn:Hb; [|vm_compute in Hb; discriminate].
  pose proof (passphrase_change_safe ("d", "identity.vault") ltac:(discriminate) [] [] "old" "new" home in_rename _ _ b Hb
    (surjective_pairing _)) as [_ H].
  assert (unseal b "old" = Ok id0) as Hu by (vm_compute in Hb; injection Hb as <-; vm_compute; reflexivity).
  rewrite Hu in H. exact (proj1 H).
Defined.

Lemma backup_roundtrip_witness :
  let d1 := (export_backup (crypto := toy_crypto) [] "d" ("x", "b.skattr") seed0 (mkDisk full [])).1 in
  ∃ m'', import_backup (crypto := toy_crypto) ("x", "b.skattr") "e" seed0 (mkDisk (files d1) []) = (mkDisk m'' [], Ok tt) ∧
    m'' !! ("e", "skattr.sqlite.age") = Some [Byte.x02; Byte.x03].
Proof.
  intros d1.
  destruct (backup_roundtrip (crypto := toy_crypto) [] "d" ("x", "b.skattr") seed0 full [] d1 ("x", "b.skattr") "e" (files d1))
    as (m'' & H1 & H2 & _); [vm_compute; reflexivity|reflexivity| |].
  - intros n Hn. unfold BACKUP_FILES in Hn. rewrite !elem_of_cons in Hn.
    destruct Hn as [->|[->|[->|[]%not_elem_of_nil]]]; vm_compute; reflexivity.
  - exists m''. split; [exact H1|].
    refine (eq_trans (H2 "skattr.sqlite.age" ltac:(right; right; left)) _). vm_compute. reflexivity.
Defined.

Lemma hs_key_stable_witness :
  let d := (load_or_create (crypto := toy_crypto) [] (fill 32 Byte.x05) ("d", "hs.key.age") seed0 (mkDisk ∅ [])).1 in
  load_or_create (crypto := toy_crypto) [] (fill 32 Byte.x06) ("d", "hs.key.age") seed0 (mkDisk (files d) []) =
    (mkDisk (files d) [], Ok (fill 32 Byte.x05)).
Proof.
  intros d.
  assert ((load_or_create (crypto := toy_crypto) [] (fill 32 Byte.x05) ("d", "hs.key.age") seed0 (mkDisk ∅ [])).2
    = Ok (fill 32 Byte.x05)) as Hk by (vm_compute; reflexivity).
  exact (hs_key_stable (crypto := toy_crypto) [] (fill 32 Byte.x05) ("d", "hs.key.age") seed0 ∅ [] d (fill 32 Byte.x05)
    eq_refl (eq_trans (surjective_pairing _) (f_equal (pair d) Hk)) [] (fill 32 Byte.x06)).
Defined.

Lemma torn_hs_key_fails_witness :
  ∃ m1, load_or_create (crypto := toy_crypto) [] (fill 32 Byte.x05) ("d", "hs.key.age") seed0
      (mkDisk ∅ [Fine; Fine; Fine; Dies 0]) = (mkDisk m1 [], Err Crashed) ∧
    ∀ fresh', is_ok (load_or_create (crypto := toy_crypto) [] fresh' ("d", "hs.key.age") seed0 (mkDisk m1 [])).2 = false.
Proof.
  destruct (torn_hs_key_fails (crypto := toy_crypto) [] (fill 32 Byte.x05) ("d", "hs.key.age") seed0
    (hex_encode (fill 32 Byte.x00)) (Byte.x61 :: fill 32 Byte.x05) ∅ (lookup_empty _) ltac:(vm_compute; reflexivity) eq_refl) as (m1 & H1 & H2).
  exists m1. split; [exact H1|]. intros fresh'. exact (proj2 (H2 [] fresh' seed0 [])).
Defined.
