(* ===== verification/Config.v ===== *)
(** * Config: the daemon's configuration

    [crates/core/src/daemon/config.rs]: the configuration and its defaults, the
    precedence of flags, environment, file and defaults, patches from the user
    interface, and the replacement of the file on disk.  TOML is the class [Toml];
    the environment's directories are arguments. *)

From S2P Require Import Prelude Text CoreErrors Messages Api Disk.

(** ** Text files *)

(** [str::from_utf8]: [want] are the ranges of the bytes that must follow. *)
Fixpoint utf8_valid_from (want : list (Z * Z)) (b : bytes) : bool :=
  match b with
  | [] => bool_decide (want = [])
  | x :: b' =>
      let n := Z_of_byte x in
      let tail := (128, 191) in
      match want with
      | (lo, hi) :: want' => (lo <=? n) && (n <=? hi) && utf8_valid_from want' b'
      | [] =>
          if n <=? 127 then utf8_valid_from [] b'
          else if n <=? 193 then false
          else if n <=? 223 then utf8_valid_from [tail] b'
          else if n =? 224 then utf8_valid_from [(160, 191); tail] b'
          else if n =? 237 then utf8_valid_from [(128, 159); tail] b'
          else if n <=? 239 then utf8_valid_from [tail; tail] b'
          else if n =? 240 then utf8_valid_from [(144, 191); tail; tail] b'
          else if n <=? 243 then utf8_valid_from [tail; tail; tail] b'
          else if n =? 244 then utf8_valid_from [(128, 143); tail; tail] b'
          else false
      end
  end.
Definition utf8_valid (b : bytes) : bool := utf8_valid_from [] b.

(** [fs::read_to_string]. *)
Definition read_to_string (p : path) : io bytes :=
  let! b := fs_read p in
  let! _ := ensure (utf8_valid b) (Failed (mkIoError false "stream did not contain valid UTF-8")) in
  lift (Ok b).

(** ** The configuration *)

Record HistoryConfig : Type := mkHistoryConfig { retention_days : Z }.
Record DeliveryConfig : Type := mkDeliveryConfig { direct_timeout_secs : Z }.
Record NotificationsConfig : Type := mkNotificationsConfig { mode : NotificationMode }.
Record UiConfig : Type := mkUiConfig { close_to_tray : bool; start_minimised : bool; persist_logs_to_disk : bool }.

Record Config : Type := mkConfig {
  data_dir : string;
  ipc_socket : option string;
  log_filter : string;
  history : HistoryConfig;
  delivery : DeliveryConfig;
  notifications : NotificationsConfig;
  ui : UiConfig;
  download_dir : option string
}.

Definition default_direct_timeout_secs : Z := 30.
Definition default_log_filter : string := "skattr_core=info,arti=warn".
(** [NotificationMode::default]. *)
Definition default_notification_mode : NotificationMode := Full.

Definition config_at (dir : string) : Config :=
  mkConfig dir None default_log_filter (mkHistoryConfig 0) (mkDeliveryConfig default_direct_timeout_secs)
    (mkNotificationsConfig default_notification_mode) (mkUiConfig true false true) None.

(** [Config::defaults], with [paths::data_dir]: [local] is the platform's directory
    for local data, if there is a home directory. *)
Definition defaults (local : option string) : result Config CoreError :=
  let? base := ok_or local (Core_Config "cannot determine home directory") in
  Ok (config_at (base +:+ "/skattr")).
Definition fallback : Config := config_at "./skattr-data".

Definition with_data_dir (d : string) (c : Config) : Config :=
  mkConfig d (ipc_socket c) (log_filter c) (history c) (delivery c) (notifications c) (ui c) (download_dir c).
Definition with_ipc_socket (s : option string) (c : Config) : Config :=
  mkConfig (data_dir c) s (log_filter c) (history c) (delivery c) (notifications c) (ui c) (download_dir c).
Definition with_history (h : HistoryConfig) (c : Config) : Config :=
  mkConfig (data_dir c) (ipc_socket c) (log_filter c) h (delivery c) (notifications c) (ui c) (download_dir c).
Definition with_delivery (d : DeliveryConfig) (c : Config) : Config :=
  mkConfig (data_dir c) (ipc_socket c) (log_filter c) (history c) d (notifications c) (ui c) (download_dir c).
Definition with_notifications (n : NotificationsConfig) (c : Config) : Config :=
  mkConfig (data_dir c) (ipc_socket c) (log_filter c) (history c) (delivery c) n (ui c) (download_dir c).
Definition with_ui (u : UiConfig) (c : Config) : Config :=
  mkConfig (data_dir c) (ipc_socket c) (log_filter c) (history c) (delivery c) (notifications c) u (download_dir c).
Definition with_download_dir (d : option string) (c : Config) : Config :=
  mkConfig (data_dir c) (ipc_socket c) (log_filter c) (history c) (delivery c) (notifications c) (ui c) d.

(** [resolved_download_dir]: [downloads] is the user's download folder if it is a
    directory. *)
Definition resolved_download_dir (downloads : option string) (c : Config) : string :=
  match download_dir c with
  | Some d => d
  | None => default (data_dir c +:+ "/downloads") downloads
  end.

(** [ipc_socket_or_default], with [paths::default_ipc_endpoint]: the values of
    [XDG_RUNTIME_DIR] and [TMPDIR] and the user id. *)
Definition ENDPOINT_FILENAME : string := "ipc.sock".
Definition nonempty (v : option string) : option string :=
  s ← v; if decide (s = EmptyString) then None else Some s.
Definition default_ipc_endpoint (xdg tmpdir : option string) (uid : Z) : string :=
  match nonempty xdg with
  | Some base => base +:+ "/skattr/" +:+ ENDPOINT_FILENAME
  | None =>
      match nonempty tmpdir with
      | Some base => base +:+ "/skattr/" +:+ ENDPOINT_FILENAME
      | None => "/tmp/skattr-" +:+ pretty uid +:+ "/" +:+ ENDPOINT_FILENAME
      end
  end.
Definition ipc_socket_or_default (xdg tmpdir : option string) (uid : Z) (c : Config) : string :=
  default (default_ipc_endpoint xdg tmpdir uid) (ipc_socket c).

(** ** Patches *)

(** [if let Some(v) = field { .. }]. *)
Definition when {S A E} (v : option A) (c : A → action S unit E) : action S unit E :=
  match v with Some x => c x | None => lift (Ok tt) end.
Definition update {S E} (f : S → S) : action S unit E := λ s, (f s, Ok tt).

(** The fields are assigned in order; an error leaves the earlier ones assigned. *)
Definition apply_patch (patch : ConfigPatch) : action Config unit CoreError :=
  let! _ := when (cp_history_retention_days patch) (λ d, update (with_history (mkHistoryConfig d))) in
  let! _ := when (cp_direct_timeout_secs patch) (λ t,
    let! _ := ensure ((1 <=? t) && (t <=? 600))
      (Core_Config ("direct_timeout_secs out of range 1..=600 (got " +:+ pretty t +:+ ")")) in
    update (with_delivery (mkDeliveryConfig t))) in
  let! _ := when (cp_notification_mode patch) (λ m, update (with_notifications (mkNotificationsConfig m))) in
  let! _ := when (cp_close_to_tray patch) (λ b, update (λ c,
    with_ui (mkUiConfig b (start_minimised (ui c)) (persist_logs_to_disk (ui c))) c)) in
  let! _ := when (cp_start_minimised patch) (λ b, update (λ c,
    with_ui (mkUiConfig (close_to_tray (ui c)) b (persist_logs_to_disk (ui c))) c)) in
  let! _ := when (cp_persist_logs_to_disk patch) (λ b, update (λ c,
    with_ui (mkUiConfig (close_to_tray (ui c)) (start_minimised (ui c)) b) c)) in
  when (cp_download_dir patch) (λ d, update (with_download_dir (Some d))).

(** [Config::snapshot]. *)
Definition config_snapshot (c : Config) : ConfigSnapshot :=
  mkConfigSnapshot (retention_days (history c)) (direct_timeout_secs (delivery c)) (mode (notifications c))
    (close_to_tray (ui c)) (start_minimised (ui c)) (persist_logs_to_disk (ui c)).

(** ** The file *)

Class Toml : Type := {
  to_string_pretty : Config → result bytes string;
  from_str : bytes → result Config string
}.
Class TomlLaws {toml : Toml} : Prop :=
  law_toml c b : to_string_pretty c = Ok b → utf8_valid b = true ∧ from_str b = Ok c.

Section file.
Context {toml : Toml}.

Definition config_err {T} (what : string) (c : io T) : prog T :=
  map_stop (λ e, Core_Config (what +:+ ": " +:+ io_text e)) c.

Definition parse_error (p : path) (e : string) : CoreError := Core_Config ("parse " +:+ path_display p +:+ ": " +:+ e).

(** [Config::load]. *)
Definition config_load (p : path) : prog Config :=
  let! text := io_err (read_to_string p) in
  lib_err (parse_error p) (from_str text).

(** [Config::save_to_disk]: the directory is synced if it opens. *)
Definition save_to_disk (p : path) (c : Config) : prog unit :=
  let! serialised := lib_err (λ e, Core_Config ("serialise: " +:+ e)) (to_string_pretty c) in
  let tmp := with_extension "toml.tmp" p in
  let! _ := config_err ("create " +:+ path_display tmp) (fs_create tmp) in
  let! _ := config_err "stat" fs_other in
  let! _ := config_err "chmod" fs_other in
  let! _ := config_err "write" (fs_append tmp serialised) in
  let! _ := config_err "fsync" fs_other in
  let! _ := config_err ("rename " +:+ path_display tmp +:+ " → " +:+ path_display p) (fs_rename tmp p) in
  attempt (let! _ := fs_other in fs_other).

Definition read_config (p : path) : prog Config :=
  let! text := config_err ("read " +:+ path_display p) (read_to_string p) in
  lib_err (parse_error p) (from_str text).

(** The first candidate that exists. *)
Fixpoint first_config (candidates : list path) : prog (option Config) :=
  match candidates with
  | [] => lift (Ok None)
  | p :: candidates =>
      let! there := exists_ p in
      if there : bool then let! c := read_config p in lift (Ok (Some c))
      else first_config candidates
  end.

(** [xdg] and [home] are [XDG_CONFIG_HOME] and [HOME]. *)
Definition xdg_config_candidates (xdg home : option string) : list path :=
  (match xdg with Some d => [(d +:+ "/skattr", "config.toml")] | None => [] end) ++
  (match home with Some d => [(d +:+ "/.config/skattr", "config.toml")] | None => [] end).

Definition resolve_config_path (xdg home : option string) (file_flag : option path) : path :=
  match file_flag with
  | Some p => p
  | None => default (".", "config.toml") (head (xdg_config_candidates xdg home))
  end.

Definition load_with_precedence (local xdg home : option string) (file : option path)
    (flag_data_dir env_data_dir flag_socket : option string) : prog Config :=
  let! cfg := match file with
    | Some p => read_config p
    | None =>
        let! found := first_config (xdg_config_candidates xdg home) in
        match found with
        | Some c => lift (Ok c)
        | None => lift (map_err Failed (defaults local))
        end
    end in
  let cfg := match env_data_dir with Some d => with_data_dir d cfg | None => cfg end in
  let cfg := match flag_data_dir with Some d => with_data_dir d cfg | None => cfg end in
  let cfg := match flag_socket with Some s => with_ipc_socket (Some s) cfg | None => cfg end in
  lift (Ok cfg).
End file.
