(* ===== verification/Logs.v ===== *)
(** * Logs: the ring of log records

    [crates/core/src/daemon/logs.rs]: [LogSink] with its ring of at most 5000
    records, and the tail a client reads.  [push] takes its number before it takes
    the lock of the ring, so pushes of several threads interleave: the steps below
    are those two halves and the reads of a client.  Redaction is regular
    expressions, library code; the live stream is lossy and not modelled. *)

From S2P Require Import Prelude CoreErrors Messages Api.

Definition RING_CAP : Z := 5000.

Record LogSink : Type := mkLogSink { ring : list LogRecord; next_seq : Z }.
Definition log_sink_new : LogSink := mkLogSink [] 1.

(** [LogSink::snapshot]. *)
Definition log_snapshot (since_seq : option Z) (max : Z) (s : LogSink) : list LogRecord * Z :=
  let start := default 0 since_seq in
  let records := limit (Z.min max 1000) (filter (λ r, start ≤ log_seq r) (ring s)) in
  (records, match last records with Some r => log_seq r + 1 | None => start end).

(** The halves of [LogSink::push]. *)
Definition take_seq (s : LogSink) : LogSink * Z := (mkLogSink (ring s) (next_seq s + 1), next_seq s).
Definition store_record (r : LogRecord) (s : LogSink) : LogSink :=
  let kept := if decide (len (ring s) = RING_CAP) then tail (ring s) else ring s in
  mkLogSink (kept ++ [r]) (next_seq s).

Definition push (now_ms : Z) (level : LogLevel) (target message : string) (s : LogSink) : LogSink :=
  let '(s, seq) := take_seq s in store_record (mkLogRecord seq now_ms level target message) s.

(** ** Threads and a client *)

(** The sink, the records whose number is taken, what the client has read and
    where it will read on. *)
Record tailing : Type := mkTailing { tl_sink : LogSink; tl_taken : list LogRecord; tl_read : list LogRecord; tl_cursor : Z }.
Definition tailing_start : tailing := mkTailing log_sink_new [] [] 0.

Inductive tail_step : tailing → tailing → Prop :=
| ts_take now level target message s taken seen cur :
    tail_step (mkTailing s taken seen cur)
      (mkTailing (take_seq s).1 (taken ++ [mkLogRecord (next_seq s) now level target message]) seen cur)
| ts_store r s before after seen cur :
    tail_step (mkTailing s (before ++ r :: after) seen cur) (mkTailing (store_record r s) (before ++ after) seen cur)
| ts_read max s taken seen cur :
    tail_step (mkTailing s taken seen cur)
      (mkTailing s taken (seen ++ (log_snapshot (Some cur) max s).1) (log_snapshot (Some cur) max s).2).

(** As long as each number is stored before the next is taken, the client reads
    every record once and in order: what it has not read is still in the ring or
    was evicted. *)
Inductive calm_step : tailing → tailing → Prop :=
| cs_push now level target message s seen cur :
    calm_step (mkTailing s [] seen cur) (mkTailing (push now level target message s) [] seen cur)
| cs_read max s seen cur :
    calm_step (mkTailing s [] seen cur)
      (mkTailing s [] (seen ++ (log_snapshot (Some cur) max s).1) (log_snapshot (Some cur) max s).2).

Record calm (t : tailing) : Prop := {
  calm_ring : ∃ first, log_seq <$> ring (tl_sink t) = seqZ first (len (ring (tl_sink t))) ∧
    next_seq (tl_sink t) = first + len (ring (tl_sink t)) ∧ 1 ≤ first ∧ len (ring (tl_sink t)) ≤ RING_CAP;
  calm_read : StronglySorted (λ r r', log_seq r < log_seq r') (tl_read t);
  calm_cursor : (∀ r, r ∈ tl_read t → log_seq r < tl_cursor t) ∧ tl_cursor t ≤ next_seq (tl_sink t);
  calm_rest : ∀ r, r ∈ ring (tl_sink t) → r ∈ tl_read t ∨ tl_cursor t ≤ log_seq r
}.

Lemma ring_sorted first l : log_seq <$> l = seqZ first (len l) → StronglySorted (λ r r', log_seq r < log_seq r') l.
Proof.
  revert first. induction l as [|r l IH]; intros first H; [constructor|].
  rewrite len_cons in H. rewrite seqZ_cons in H by lens. injection H as Hr Hl.
  change (log_seq <$> l = seqZ (Z.succ first) (Z.pred (1 + len l))) in Hl. replace (Z.pred (1 + len l)) with (len l) in Hl by lia. constructor; [by eapply IH|].
  apply Forall_forall. intros r' Hr'. apply (list_elem_of_fmap_2 log_seq) in Hr'. rewrite Hl in Hr'.
  apply elem_of_seqZ in Hr'. lia.
Qed.

Lemma sorted_app_lt (l1 l2 : list LogRecord) x y :
  StronglySorted (λ r r', log_seq r < log_seq r') (l1 ++ l2) → x ∈ l1 → y ∈ l2 → log_seq x < log_seq y.
Proof.
  induction l1 as [|z l1 IH]; [by intros _ ?%not_elem_of_nil|]. cbn. intros [Hs Hf]%StronglySorted_inv [->|Hx]%elem_of_cons Hy.
  - rewrite Forall_forall in Hf. apply Hf, elem_of_app. by right.
  - by apply IH.
Qed.

Lemma sorted_app (l1 l2 : list LogRecord) :
  StronglySorted (λ r r', log_seq r < log_seq r') l1 → StronglySorted (λ r r', log_seq r < log_seq r') l2 →
  (∀ x y, x ∈ l1 → y ∈ l2 → log_seq x < log_seq y) → StronglySorted (λ r r', log_seq r < log_seq r') (l1 ++ l2).
Proof.
  induction l1 as [|z l1 IH]; [done|]. intros [Hs Hf]%StronglySorted_inv H2 H. cbn. constructor.
  - apply IH; [done..|]. intros; apply H; [by right|done].
  - apply Forall_app. split; [done|]. apply Forall_forall. intros y Hy. apply H; [left|done].
Qed.

Lemma sorted_filter (P : LogRecord → Prop) `{!∀ r, Decision (P r)} l :
  StronglySorted (λ r r', log_seq r < log_seq r') l → StronglySorted (λ r r', log_seq r < log_seq r') (filter P l).
Proof.
  induction l as [|z l IH]; [done|]. intros [Hs Hf]%StronglySorted_inv. rewrite filter_cons. case_decide; [|by apply IH].
  constructor; [by apply IH|]. rewrite Forall_forall in *. intros y [_ Hy]%list_elem_of_filter. by apply Hf.
Qed.

Lemma sorted_take n (l : list LogRecord) :
  StronglySorted (λ r r', log_seq r < log_seq r') l → StronglySorted (λ r r', log_seq r < log_seq r') (take n l).
Proof.
  revert n. induction l as [|z l IH]; intros [|n] Hl; cbn; try constructor; apply StronglySorted_inv in Hl as [Hs Hf].
  - by apply IH.
  - by apply Forall_take.
Qed.

Lemma sorted_last (l : list LogRecord) r x :
  StronglySorted (λ r r', log_seq r < log_seq r') l → last l = Some r → x ∈ l → log_seq x ≤ log_seq r.
Proof.
  intros Hs (l' & ->)%last_Some [Hx| ->%list_elem_of_singleton]%elem_of_app; [|done].
  apply Z.lt_le_incl. eapply sorted_app_lt; [done|done|]. by apply list_elem_of_singleton.
Qed.

Lemma calm_preserved t t' : calm t → calm_step t t' → calm t'.
Proof.
  intros [(first & Hr & Hn & H1 & Hcap) Hread [Hcur Hle] Hrest] Hstep.
  destruct Hstep as [now level target message s seen cur|max s seen cur];
    cbn [tl_sink tl_taken tl_read tl_cursor] in *.
  - unfold push, take_seq, store_record. cbn [ring next_seq]. set (r := mkLogRecord (next_seq s) now level target message).
    destruct (decide (len (ring s) = RING_CAP)) as [E|E].
    + destruct (ring s) as [|z l] eqn:El; [done|]. rewrite len_cons in *. rewrite seqZ_cons in Hr by (unfold RING_CAP in E; lia).
      injection Hr as Hz Hl. change (log_seq <$> l = seqZ (Z.succ first) (Z.pred (1 + len l))) in Hl.
      replace (Z.pred (1 + len l)) with (len l) in Hl by lia.
      split; cbn; [|done|split; [done|lia]|].
      * exists (first + 1). rewrite fmap_app, Hl. cbn. rewrite len_app.
        split_and!; [|lens|lia|lens]. replace (len l + len [r]) with (len l + 1) by lens.
        rewrite seqZ_app by lens.
        replace (Z.succ first) with (first + 1) by lia. f_equal. change [next_seq s] with (seqZ (next_seq s) 1). f_equal. lia.
      * intros x [Hx| ->%list_elem_of_singleton]%elem_of_app; [apply Hrest; by right|]. right. cbn. lia.
    + split; cbn; [|done|split; [done|lia]|].
      * exists first. rewrite fmap_app, Hr. cbn. rewrite len_app. split_and!; [|lens|lia|lens].
        replace (len (ring s) + len [r]) with (len (ring s) + 1) by lens. rewrite seqZ_app by lens.
        cbn. by rewrite Hn.
      * intros x [Hx| ->%list_elem_of_singleton]%elem_of_app; [by apply Hrest|]. right. cbn. lia.
  - set (f := filter (λ r, cur ≤ log_seq r) (ring s)). set (n := Z.to_nat (Z.min max 1000)).
    assert (StronglySorted (λ r r', log_seq r < log_seq r') f) as Hf by (eapply sorted_filter, ring_sorted, Hr).
    assert (∀ x, x ∈ f → x ∈ ring s ∧ cur ≤ log_seq x) as Hin by (intros x [? ?]%list_elem_of_filter; auto).
    assert (StronglySorted (λ r r', log_seq r < log_seq r') (take n f)) as Ht by (by apply sorted_take).
    assert (∀ x, x ∈ take n f → x ∈ f) as Hsub by (intros x Hx; rewrite <- (take_drop n f); apply elem_of_app; by left).
    unfold log_snapshot. change (default 0 (Some cur)) with cur. cbv zeta. cbn [fst snd]. split; cbn [tl_sink tl_taken tl_read tl_cursor]; [by exists first| | |].
    + apply sorted_app; [done|done|]. intros x y Hx Hy%Hsub%Hin. apply Hcur in Hx. lia.
    + unfold limit. fold n f. destruct (last (take n f)) as [r|] eqn:El.
      * split.
        -- intros x [Hx|Hx]%elem_of_app; [|pose proof (sorted_last _ _ _ Ht El Hx); lia]. apply Hcur in Hx.
           apply last_Some_elem_of, Hsub, Hin in El. lia.
        -- apply last_Some_elem_of, Hsub, Hin in El as [El _]. apply (list_elem_of_fmap_2 log_seq) in El.
           rewrite Hr in El. apply elem_of_seqZ in El. lia.
      * apply last_None in El. rewrite El, app_nil_r. by split.
    + intros x Hx. destruct (Hrest x Hx) as [?|Hc]; [left; apply elem_of_app; by left|].
      assert (x ∈ f) as Hxf by (by apply list_elem_of_filter). rewrite <- (take_drop n f) in Hxf.
      apply elem_of_app in Hxf as [Hxt|Hxd]; [left; apply elem_of_app; by right|]. right.
      unfold limit. fold n f. destruct (last (take n f)) as [r|] eqn:El; [|done].
      assert (log_seq r < log_seq x); [|lia]. eapply sorted_app_lt; [by rewrite (take_drop n f)|by apply last_Some_elem_of|done].
Qed.

(** When log records are pushed one after another, a client that follows the log
    reads no record twice and none out of order, and a record that is in the ring
    has been read or will be: its number is not behind the client's cursor. *)
Theorem log_tail_complete t : rtc calm_step tailing_start t → calm t.
Proof.
  intros H. remember tailing_start as t0 eqn:E. assert (calm t0) as Hc.
  { subst. split; cbn; [exists 1; split_and!; try done; lia|constructor| |].
    - split; [by intros r ?%not_elem_of_nil|lia].
    - by intros r ?%not_elem_of_nil. }
  clear E. induction H as [t|t t1 t2 Hs _ IH]; [done|]. apply IH. by eapply calm_preserved.
Qed.

(** Two threads that log at the same time can make a client miss a record.  A
    record with an earlier number is stored after a later one was read: it is in
    the ring, was not read and is behind the cursor. *)
Theorem log_tail_misses :
  ∃ t r, rtc tail_step tailing_start t ∧ r ∈ ring (tl_sink t) ∧ r ∉ tl_read t ∧ log_seq r < tl_cursor t.
Proof.
  set (r1 := mkLogRecord 1 0 Info EmptyString "first"). set (r2 := mkLogRecord 2 0 Info EmptyString "second").
  exists (mkTailing (mkLogSink [r2; r1] 3) [] [r2] 3), r1. split_and!.
  - eapply rtc_l; [apply (ts_take 0 Info EmptyString "first")|].
    eapply rtc_l; [apply (ts_take 0 Info EmptyString "second")|].
    eapply rtc_l; [apply (ts_store r2 _ [r1] [])|].
    eapply rtc_l; [apply (ts_read 10)|].
    eapply rtc_l; [apply (ts_store r1 _ [] [])|]. apply rtc_refl.
  - right. left.
  - by intros ?%list_elem_of_singleton.
  - cbn. lia.
Qed.
