(* ===== verification/Migrate.v ===== *)
(** * Migrate: carrying an identity over from an old data directory

    [crates/core/src/daemon/migrate.rs] on [Disk]: the first directory of a list
    that holds a vault is moved, entry by entry, into the data directory.  What
    [read_dir] lists is an argument, a tree of names; an entry is renamed, or else
    copied and removed. *)

From S2P Require Import Prelude Text CoreErrors Disk.

Definition VAULT : string := "identity.vault".

Inductive MigrateError : Type :=
| Migrate_ReadDir (dir : string) (source : io_error)
| Migrate_Move (from name : string) (source : io_error).

(** An entry as [read_dir] lists it: a file, or a directory with its entries. *)
Inductive dir_entry : Type := EFile (name : string) | EDir (name : string) (children : list dir_entry).
Definition entry_name (e : dir_entry) : string := match e with EFile n => n | EDir n _ => n end.

Definition subdir (dir name : string) : string := dir +:+ "/" +:+ name.

(** The files of an entry of [from], and where they belong in [to]. *)
Fixpoint moves (from to : string) (e : dir_entry) : list (path * path) :=
  match e with
  | EFile n => [((from, n), (to, n))]
  | EDir n es => concat (moves (subdir from n) (subdir to n) <$> es)
  end.

(** Is there a file in [dir] or below it? *)
Definition occupied (dir : string) (m : tree) : bool :=
  existsb (λ p, bool_decide (p.1 = dir) || starts_with p.1 (dir +:+ "/")) (map_to_list m).*1.

Definition relocate (m : tree) (sd : path * path) : tree :=
  match m !! sd.1 with Some b => <[sd.2 := b]> (base.delete sd.1 m) | None => m end.

Definition not_empty : io_error := mkIoError false "Directory not empty (os error 39)".
Definition is_a_directory : io_error := mkIoError false "Is a directory (os error 21)".
Definition not_a_directory : io_error := mkIoError false "Not a directory (os error 20)".
Definition file_exists : io_error := mkIoError false "File exists (os error 17)".

Definition rename_file (p q : path) : io unit :=
  syscall (λ m,
    match m !! p with
    | None => Err not_found
    | Some b => if occupied (subdir q.1 q.2) m then Err is_a_directory else Ok (<[q := b]> (base.delete p m), tt)
    end) untouched.
(** [fs::rename] of an entry: a file does not replace a directory, a directory
    neither a file nor a directory that is not empty. *)
Definition rename_entry (from to : string) (e : dir_entry) : io unit :=
  match e with
  | EFile n => rename_file (from, n) (to, n)
  | EDir n es =>
      syscall (λ m,
        if decide (is_Some (m !! (to, n))) then Err not_a_directory
        else if occupied (subdir to n) m then Err not_empty
        else Ok (foldl relocate m (moves from to e), tt)) untouched
  end.

(** [fs::copy] of a file; a directory in its place is an error. *)
Definition fs_copy (src dst : path) : io unit :=
  let! b := fs_read src in
  let! _ := syscall (λ m, if occupied (subdir dst.1 dst.2) m then Err is_a_directory else Ok (<[dst := []]> m, tt)) untouched in
  fs_append dst b.

(** [create_dir_all] of an entry of [to]; a file in its place is an error. *)
Definition make_dir (to name : string) : io unit :=
  syscall (λ m, if decide (is_Some (m !! (to, name))) then Err file_exists else Ok (m, tt)) untouched.

(** [copy_recursive]: directories are created first. *)
Fixpoint copy_recursive (from to : string) (e : dir_entry) : io unit :=
  match e with
  | EFile n =>
      let! _ := fs_other in
      fs_copy (from, n) (to, n)
  | EDir n es =>
      let! _ := make_dir to n in
      let! _ := fs_other in
      (fix copy_all (es : list dir_entry) : io unit :=
        match es with
        | [] => lift (Ok tt)
        | c :: es' =>
            let! _ := fs_other in
            let! _ := copy_recursive (subdir from n) (subdir to n) c in
            copy_all es'
        end) es
  end.

Fixpoint remove_all (files : list path) : io unit :=
  match files with
  | [] => lift (Ok tt)
  | p :: files => let! _ := fs_remove p in remove_all files
  end.
(** [remove_path]: [remove_file], or [remove_dir_all], which empties the directory
    first. *)
Definition remove_path (from to : string) (e : dir_entry) : io unit :=
  match e with
  | EFile n => fs_remove (from, n)
  | EDir _ _ => let! _ := remove_all (moves from to e).*1 in fs_other
  end.

Abbreviation mig T := (action disk T (stop MigrateError)).

(** The body of the loop of [move_dir_contents]. *)
Definition move_entry (from to : string) (e : dir_entry) : mig unit := λ d,
  match rename_entry from to e d with
  | (d', Err (Failed _)) =>
      map_stop (Migrate_Move from (entry_name e))
        (let! _ := copy_recursive from to e in remove_path from to e) d'
  | (d', Err Crashed) => (d', Err Crashed)
  | (d', Ok t) => (d', Ok t)
  end.

Fixpoint move_entries (from to : string) (es : list dir_entry) : mig unit :=
  match es with
  | [] => lift (Ok tt)
  | e :: es =>
      let! _ := map_stop (Migrate_ReadDir from) fs_other in
      let! _ := move_entry from to e in
      move_entries from to es
  end.

Definition move_dir_contents (from to : string) (es : list dir_entry) : mig unit :=
  let! _ := map_stop (Migrate_ReadDir from) fs_other in
  move_entries from to es.

(** [migrate_from_candidates]: [listing] is what [read_dir] finds in a directory. *)
Fixpoint scan (listing : string → list dir_entry) (canonical : string) (candidates : list string) : mig unit :=
  match candidates with
  | [] => lift (Ok tt)
  | cand :: candidates =>
      if decide (cand = canonical) then scan listing canonical candidates
      else
        let! there := exists_ (join_path cand VAULT) in
        if there : bool then
          let! _ := map_stop (Migrate_ReadDir canonical) fs_other in
          let! _ := move_dir_contents cand canonical (listing cand) in
          attempt fs_other
        else scan listing canonical candidates
  end.

Definition migrate_from_candidates (listing : string → list dir_entry) (canonical : string) (candidates : list string)
    : mig unit :=
  let! there := exists_ (join_path canonical VAULT) in
  if there : bool then lift (Ok tt) else scan listing canonical candidates.

(** [legacy_candidates] on Unix: the values of [XDG_DATA_HOME] and [HOME]. *)
Definition legacy_candidates (xdg home : option string) : list string :=
  let data_home := match xdg with
    | Some d => if decide (d = EmptyString) then (λ h, h +:+ "/.local/share") <$> home else Some d
    | None => (λ h, h +:+ "/.local/share") <$> home
    end in
  match data_home with
  | Some dh => [subdir dh "net.myggiz.skattr"; subdir (subdir dh "net.myggiz.skattr") "skattr"]
  | None => []
  end.

Definition migrate_legacy_into (listing : string → list dir_entry) (xdg home : option string) (canonical : string) : mig unit :=
  migrate_from_candidates listing canonical (legacy_candidates xdg home).

(** ** No file is lost *)

(** Induction over entries and their children. *)
Lemma entry_ind (P : dir_entry → Prop) :
  (∀ n, P (EFile n)) → (∀ n es, Forall P es → P (EDir n es)) → ∀ e, P e.
Proof.
  intros Hf Hd. fix IH 1. intros [n|n es]; [apply Hf|]. apply Hd. induction es as [|e es IHes]; constructor; [apply IH|done].
Qed.

Section moving.
(** The files to move with their destinations, and the disk before. *)
Context (all : list (path * path)) (m0 : tree).
Context (nodup : NoDup all) (srcs : ∀ x y, x ∈ all → y ∈ all → x.1 = y.1 → x = y)
  (dsts : ∀ x y, x ∈ all → y ∈ all → x.2 = y.2 → x = y) (apart : ∀ x y, x ∈ all → y ∈ all → x.1 ≠ y.2)
  (present : ∀ x, x ∈ all → is_Some (m0 !! x.1)).

Definition elsewhere_same (m : tree) : Prop := ∀ q, q ∉ all.*1 → q ∉ all.*2 → m !! q = m0 !! q.

(** [fin] is moved, [todo] is not. *)
Record stage (fin todo : list (path * path)) (m : tree) : Prop := {
  st_fin : ∀ x, x ∈ fin → m !! x.2 = m0 !! x.1 ∧ m !! x.1 = None;
  st_todo : ∀ x, x ∈ todo → m !! x.1 = m0 !! x.1;
  st_other : elsewhere_same m
}.
(** Each file is in the one place or the other. *)
Definition kept (m : tree) : Prop :=
  (∀ x, x ∈ all → m !! x.1 = m0 !! x.1 ∨ m !! x.2 = m0 !! x.1) ∧ elsewhere_same m.

Definition copied (l : list (path * path)) (m : tree) : Prop := ∀ x, x ∈ l → m !! x.2 = m0 !! x.1.

Lemma stage_kept fin todo m : all = fin ++ todo → stage fin todo m → kept m.
Proof using Type.
  intros Hall [Hf Ht Ho]. split; [|done]. intros x Hx. rewrite Hall in Hx. apply elem_of_app in Hx as [Hx|Hx]; [right; by apply Hf|left; by apply Ht].
Qed.

(** A write to the destination of [x]. *)
Lemma stage_write fin todo m x b :
  fin ⊆ all → todo ⊆ all → x ∈ todo → stage fin todo m → stage fin todo (<[x.2 := b]> m).
Proof using dsts apart present.
  intros Hfa Hta Hx [Hf Ht Ho]. split.
  - intros y Hy. destruct (Hf y Hy) as [H1 H2]. rewrite !lookup_insert_ne; [done| |].
    + intros E. symmetry in E. eapply apart; [..|exact E]; auto.
    + intros E. apply dsts in E; [|auto..]. subst y. rewrite (Ht x Hx) in H2. destruct (present x); [auto|congruence].
  - intros y Hy. rewrite lookup_insert_ne; [auto|]. intros E. symmetry in E. eapply apart; [..|exact E]; auto.
  - intros q Hq1 Hq2. rewrite lookup_insert_ne; [auto|]. intros <-. apply Hq2, list_elem_of_fmap_2. auto.
Qed.

Lemma copied_write l m x b : l ⊆ all → x ∈ all → copied l m → m0 !! x.1 = Some b → copied (l ++ [x]) (<[x.2 := b]> m).
Proof using dsts.
  intros Hl Hx Hc Hb y [Hy|Hy]%elem_of_app.
  - destruct (decide (y.2 = x.2)) as [E|E]; [|by rewrite lookup_insert_ne; auto].
    rewrite E, lookup_insert_eq. apply dsts in E; [|auto..]. by subst.
  - apply list_elem_of_singleton in Hy as ->. by rewrite lookup_insert_eq.
Qed.

(** The source of [x] goes away once its destination is right. *)
Lemma stage_remove fin todo x m :
  all = fin ++ x :: todo → stage fin (x :: todo) m → m !! x.2 = m0 !! x.1 → stage (fin ++ [x]) todo (base.delete x.1 m).
Proof using All.
  intros Hall [Hf Ht Ho] Hx. assert (x ∈ all) as Hxa by (rewrite Hall; set_solver).
  assert (fin ⊆ all ∧ todo ⊆ all) as [Hfa Hta] by (rewrite Hall; set_solver).
  split.
  - intros y [Hy|Hy]%elem_of_app.
    + destruct (Hf y Hy) as [H1 H2]. rewrite lookup_delete_ne by (apply apart; auto). split; [done|].
      destruct (decide (x.1 = y.1)) as [E|E]; [by rewrite E, lookup_delete_eq|by rewrite lookup_delete_ne].
    + apply list_elem_of_singleton in Hy as ->. rewrite lookup_delete_ne by (by apply apart). by rewrite lookup_delete_eq.
  - intros y Hy. rewrite lookup_delete_ne; [apply Ht; by right|]. intros E. apply srcs in E; [|auto..]. subst y.
    rewrite Hall in nodup. apply NoDup_app in nodup as (_ & _ & [Hn _]%NoDup_cons). done.
  - intros q Hq1 Hq2. rewrite lookup_delete_ne; [auto|]. intros <-. by apply Hq1, list_elem_of_fmap_2.
Qed.

Lemma stage_relocate fin l todo m :
  all = fin ++ l ++ todo → stage fin (l ++ todo) m → stage (fin ++ l) todo (foldl relocate m l).
Proof using All.
  revert fin m. induction l as [|x l IH]; intros fin m Hall Hs; cbn; [by rewrite app_nil_r|].
  replace (fin ++ x :: l) with ((fin ++ [x]) ++ l) by (by rewrite <- app_assoc).
  apply IH; [by rewrite <- app_assoc|]. unfold relocate.
  assert (x ∈ all ∧ fin ⊆ all ∧ x :: l ++ todo ⊆ all) as (Hxa & Hfa & Hta) by (rewrite Hall; set_solver).
  destruct (present x Hxa) as [b Hb]. pose proof (st_todo _ _ _ Hs x (list_elem_of_here _ _)) as Hx. rewrite Hx, Hb.
  rewrite <- delete_insert_ne by (by apply apart). apply stage_remove; [done| |by rewrite lookup_insert_eq].
  apply stage_write; [done|done|left|done].
Qed.

(** *** The operations *)

Lemma leads_rename_entry from to e fin todo :
  all = fin ++ moves from to e ++ todo →
  leads (stage fin (moves from to e ++ todo)) (rename_entry from to e) (λ _, stage (fin ++ moves from to e) todo)
    (stage fin (moves from to e ++ todo)).
Proof using All.
  intros Hall. destruct e as [n|n es]; cbn [rename_entry].
  - apply leads_syscall; [|done]. intros m Hs. destruct (m !! _) as [b|] eqn:Hb; [|done]. destruct (occupied _ m); [done|].
    apply (stage_relocate _ _ _ _ Hall) in Hs. revert Hs. cbn [moves foldl]. unfold relocate. cbn [fst snd]. by rewrite Hb.
  - apply leads_syscall; [|done]. intros m Hs. case_decide; [done|]. destruct (occupied _ m); [done|]. by apply (stage_relocate _ _ _ _ Hall).
Qed.

Lemma leads_copy fin todo from to e l :
  fin ⊆ all → todo ⊆ all → l ⊆ all → moves from to e ⊆ todo →
  leads (λ m, stage fin todo m ∧ copied l m) (copy_recursive from to e)
    (λ _ m, stage fin todo m ∧ copied (l ++ moves from to e) m) (stage fin todo).
Proof using All.
  intros Hfa Hta. revert from to l. induction e as [n|n es IH] using entry_ind; intros from to l Hl Hm; cbn [copy_recursive moves] in *.
  - set (x := ((from, n), (to, n)) : path * path) in *. assert (x ∈ todo) as Hx by (apply Hm; left).
    eapply leads_bind; [apply leads_other; by intros m [? _]|]. intros []. unfold fs_copy.
    eapply leads_bind; [apply leads_read; by intros m [? _]|]. intros b. change (to, n) with (x.2).
    eapply (leads_bind _ _ (λ _ m, stage fin todo m ∧ m0 !! x.1 = Some b ∧ m !! x.2 = Some [] ∧
      ∃ m', m = <[x.2 := []]> m' ∧ copied l m')).
    { apply leads_syscall; [|by intros m n' [[? _] _]]. intros m [[Hs Hc] Hb]. destruct (occupied _ m); [done|]. change (from, n) with (x.1) in Hb.
      rewrite (st_todo _ _ _ Hs x Hx) in Hb. rewrite lookup_insert_eq. split_and!; [by apply stage_write|done|done|eauto]. }
    intros []. apply leads_append.
    + intros m k (Hs & _). unfold appended. by apply stage_write.
    + intros m (Hs & Hb & He & m' & -> & Hc). unfold appended. rewrite He. cbn [default app]. split; [by apply stage_write|].
      rewrite insert_insert_eq. apply copied_write; auto.
  - eapply (leads_bind _ _ (λ _ m, stage fin todo m ∧ copied l m)).
    { apply leads_syscall; [|by intros m n' [? _]]. intros m H. case_decide; [by destruct H|done]. }
    intros []. eapply leads_bind; [apply leads_other; by intros m [? _]|]. intros [].
    revert l Hl Hm. induction IH as [|c es Hc _ IHes]; intros l Hl Hm; cbn [fmap list_fmap concat].
    + apply leads_lift; [|by intros m [? _]]. intros ? m _. by rewrite app_nil_r.
    + cbn [fmap list_fmap concat] in Hm. eapply leads_bind; [apply leads_other; by intros m [? _]|]. intros [].
      eapply leads_bind; [apply Hc; [done|set_solver]|]. intros [].
      rewrite app_assoc. apply IHes; set_solver.
Qed.

Lemma leads_remove_all fin l todo :
  all = fin ++ l ++ todo →
  leads (λ m, stage fin (l ++ todo) m ∧ copied l m) (remove_all l.*1) (λ _, stage (fin ++ l) todo) kept.
Proof using All.
  revert fin. induction l as [|x l IH]; intros fin Hall; cbn [fmap list_fmap remove_all].
  - apply leads_lift; [|intros m [? _]; by eapply stage_kept]. intros ? m _ [? _]. by rewrite app_nil_r.
  - eapply (leads_bind _ _ (λ _ m, stage (fin ++ [x]) (l ++ todo) m ∧ copied l m)).
    + apply leads_remove; [intros m [? _]; by eapply stage_kept|]. intros m [Hs Hc]. split; [apply stage_remove; auto; apply Hc; left|].
      intros y Hy. rewrite lookup_delete_ne by (apply apart; rewrite Hall; set_solver). apply Hc. by right.
    + intros []. replace (fin ++ x :: l) with ((fin ++ [x]) ++ l) by (by rewrite <- app_assoc). apply IH. by rewrite <- app_assoc.
Qed.

Lemma leads_remove_path from to e fin todo :
  all = fin ++ moves from to e ++ todo →
  leads (λ m, stage fin (moves from to e ++ todo) m ∧ copied (moves from to e) m) (remove_path from to e)
    (λ _, stage (fin ++ moves from to e) todo) kept.
Proof using All.
  intros Hall. destruct e as [n|n es]; cbn [remove_path].
  - apply leads_remove; [intros m [? _]; by eapply stage_kept|]. intros m [Hs Hc].
    apply (stage_remove _ _ ((from, n), (to, n)) _ Hall Hs). apply Hc. left.
  - eapply leads_bind; [by apply leads_remove_all|]. intros []. apply leads_other. intros m Hs.
    eapply stage_kept; [|exact Hs]. by rewrite <- app_assoc.
Qed.

Lemma leads_move_entry from to e fin todo :
  all = fin ++ moves from to e ++ todo →
  leads (stage fin (moves from to e ++ todo)) (move_entry from to e) (λ _, stage (fin ++ moves from to e) todo) kept.
Proof using All.
  intros Hall d Hd. unfold move_entry. pose proof (leads_rename_entry from to e fin todo Hall d Hd) as Hr.
  destruct (rename_entry from to e d) as [d' [[]|[err|]]]; cbn in Hr; [done| |by eapply stage_kept].
  refine (leads_map_stop _ _ _ (λ _, _) _ _ d' Hr). eapply (leads_bind _ _ (λ _ m, stage fin (moves from to e ++ todo) m ∧ copied (moves from to e) m)).
  - eapply leads_post; [|intros m; by eapply stage_kept|eapply leads_pre; [|apply (leads_copy fin (moves from to e ++ todo) from to e [])]].
    + done.
    + intros m Hs. split; [exact Hs|by intros ? ?%not_elem_of_nil].
    + rewrite Hall. set_solver.
    + rewrite Hall. set_solver.
    + set_solver.
    + set_solver.
  - intros []. by apply leads_remove_path.
Qed.

Lemma leads_move_entries from to es fin :
  all = fin ++ concat (moves from to <$> es) →
  leads (stage fin (concat (moves from to <$> es))) (move_entries from to es) (λ _, stage all []) kept.
Proof using All.
  revert fin. induction es as [|e es IH]; intros fin Hall; cbn [fmap list_fmap concat move_entries] in *.
  - rewrite app_nil_r in Hall. apply leads_lift; [intros ? m _; by rewrite Hall|].
    intros m. apply stage_kept. by rewrite app_nil_r.
  - eapply leads_bind; [apply leads_map_stop, leads_other; intros m; by apply stage_kept|]. intros [].
    eapply leads_bind; [by apply leads_move_entry|]. intros []. apply IH. by rewrite <- app_assoc.
Qed.
End moving.

(** The files of a candidate with their destinations. *)
Definition moved_files (listing : string → list dir_entry) (cand canonical : string) : list (path * path) :=
  concat (moves cand canonical <$> listing cand).

(** [cand] is the candidate that is moved. *)
Definition chosen (canonical cand : string) (candidates : list string) (m : tree) : Prop :=
  cand ≠ canonical ∧ m !! join_path canonical VAULT = None ∧ is_Some (m !! join_path cand VAULT) ∧
  ∃ before after, candidates = before ++ cand :: after ∧
    Forall (λ c, c = canonical ∨ m !! join_path c VAULT = None) before.

Section distinct.
Context {A : Type} (all : list (A * A)) (H : NoDup (all.*1 ++ all.*2)).

Lemma distinct_nodup : NoDup all.
Proof using H. apply NoDup_app in H as (H1 & _ & _). by apply NoDup_fmap_1 in H1. Qed.
Lemma fmap_inj_nodup {B} (f : A * A → B) x y : NoDup (f <$> all) → x ∈ all → y ∈ all → f x = f y → x = y.
Proof using Type.
  intros Hn [i Hi]%list_elem_of_lookup_1 [j Hj]%list_elem_of_lookup_1 E.
  assert (i = j) as <-; [|congruence]. eapply (NoDup_lookup _ _ _ (f x) Hn); rewrite list_lookup_fmap;
    [by rewrite Hi|by rewrite Hj, E].
Qed.
Lemma distinct_src x y : x ∈ all → y ∈ all → x.1 = y.1 → x = y.
Proof using H. apply fmap_inj_nodup. by apply NoDup_app in H as (? & _ & _). Qed.
Lemma distinct_dst x y : x ∈ all → y ∈ all → x.2 = y.2 → x = y.
Proof using H. apply fmap_inj_nodup. by apply NoDup_app in H as (_ & _ & ?). Qed.
Lemma distinct_apart x y : x ∈ all → y ∈ all → x.1 ≠ y.2.
Proof using H.
  intros Hx Hy E. apply NoDup_app in H as (_ & H2 & _). apply (H2 (x.1)); [by apply list_elem_of_fmap_2|].
  rewrite E. by apply list_elem_of_fmap_2.
Qed.
End distinct.

(** The candidate that is moved, if any. *)
Definition choice (canonical : string) (candidates : list string) (m : tree) : option string :=
  if decide (is_Some (m !! join_path canonical VAULT)) then None
  else head (filter (λ c, c ≠ canonical ∧ is_Some (m !! join_path c VAULT)) candidates).
Definition to_move (listing : string → list dir_entry) (canonical : string) (candidates : list string) (m : tree) : list (path * path) :=
  match choice canonical candidates m with Some cand => moved_files listing cand canonical | None => [] end.

Lemma choice_chosen canonical candidates m cand : choice canonical candidates m = Some cand → chosen canonical cand candidates m.
Proof.
  unfold choice. case_decide as Hc; [done|]. intros H. pose proof H as [[Hne Hv] _]%head_filter_elem. split_and!; [done|by apply eq_None_not_Some|done|].
  clear Hne Hv. induction candidates as [|c cs IH]; [done|]. rewrite filter_cons in H. destruct (decide (c ≠ canonical ∧ _)) as [Hd|Hd].
  - injection H as ->. by exists [], cs.
  - destruct (IH H) as (before & after & -> & Hb). exists (c :: before), after. split; [done|]. constructor; [|done].
    destruct (decide (c = canonical)); [by left|]. right. apply eq_None_not_Some. tauto.
Qed.

Lemma chosen_keeps_files listing canonical cand candidates m pl d r :
  let all := moved_files listing cand canonical in
  chosen canonical cand candidates m → NoDup (all.*1 ++ all.*2) → (∀ x, x ∈ all → is_Some (m !! x.1)) →
  migrate_from_candidates listing canonical candidates (mkDisk m pl) = (d, r) →
  (∀ x, x ∈ all → files d !! x.1 = m !! x.1 ∨ files d !! x.2 = m !! x.1) ∧
  (∀ q, q ∉ all.*1 → q ∉ all.*2 → files d !! q = m !! q) ∧
  (r = Ok tt → ∀ x, x ∈ all → files d !! x.2 = m !! x.1 ∧ files d !! x.1 = None).
Proof.
  intros all (Hne & Hcan & Hv & before & after & -> & Hbefore) Hd Hp E.
  assert (leads (λ m', m' = m) (migrate_from_candidates listing canonical (before ++ cand :: after))
    (λ _, stage all m all []) (kept all m)) as HL.
  { clear E. assert (∀ m', m' = m → kept all m m') as HK by (intros ? ->; split; [by left|done]).
    unfold migrate_from_candidates. eapply leads_bind; [by apply leads_exists|]. intros b. cbn beta.
    destruct b; [intros dk [H1 H2]; rewrite H1, Hcan in H2; done|].
    eapply leads_pre; [by intros m' [H1 _]; exact H1|]. induction Hbefore as [|c before Hc _ IH]; cbn [app scan].
    - rewrite decide_False by done. eapply leads_bind; [by apply leads_exists|]. intros b. cbn beta.
      destruct b; [|intros dk [H1 H2]; rewrite H1, bool_decide_true in H2; done].
      eapply leads_pre; [by intros m' [H1 _]; exact H1|].
      eapply leads_bind; [by apply leads_map_stop, leads_other|]. intros [].
      eapply (leads_bind _ _ (λ _, stage all m all [])).
      + unfold move_dir_contents. eapply leads_bind; [by apply leads_map_stop, leads_other|]. intros [].
        eapply leads_pre; [|apply (leads_move_entries all m (distinct_nodup _ Hd) (distinct_src _ Hd) (distinct_dst _ Hd)
          (distinct_apart _ Hd) Hp cand canonical (listing cand) [])]; [|done].
        intros m' ->. split; [by intros ? ?%not_elem_of_nil|done|done].
      + intros []. eapply leads_post; [by intros t m'; exact id| |by apply leads_attempt; [by apply leads_other|]].
        intros m'. apply stage_kept. by rewrite app_nil_r.
    - destruct Hc as [->|Hc]; [rewrite decide_True by done; exact IH|]. destruct (decide (c = canonical)); [done|].
      eapply leads_bind; [by apply leads_exists|]. intros b. cbn beta.
      destruct b; [intros dk [H1 H2]; rewrite H1, Hc in H2; done|].
      eapply leads_pre; [by intros m' [H1 _]; exact H1|]. exact IH. }
  specialize (HL (mkDisk m pl) eq_refl). rewrite E in HL. destruct r as [[]|e]; cbn in HL.
  - pose proof (stage_kept all m all [] (files d) ltac:(by rewrite app_nil_r) HL) as [H1 H2]. split_and!; [done|done|].
    intros _ x Hx. by apply (st_fin _ _ _ _ _ HL).
  - destruct HL as [H1 H2]. by split_and!.
Qed.

Lemma idle_migration listing canonical candidates m pl d r :
  choice canonical candidates m = None → migrate_from_candidates listing canonical candidates (mkDisk m pl) = (d, r) → files d = m.
Proof.
  intros Hch E. assert (leads (λ m', m' = m) (migrate_from_candidates listing canonical candidates) (λ _ m', m' = m) (λ m', m' = m)) as HL.
  { clear E. unfold migrate_from_candidates. eapply leads_bind; [by apply leads_exists|]. intros []; cbn beta.
    { apply leads_lift; by intros; destruct_and?. }
    unfold choice in Hch. case_decide as Hv.
    { intros dk [H1 H2]. by rewrite H1, bool_decide_true in H2. }
    eapply leads_pre; [by intros m' [H1 _]; exact H1|]. induction candidates as [|c cs IH]; cbn [scan]; [by apply leads_lift|].
    rewrite filter_cons in Hch. destruct (decide (c ≠ canonical ∧ _)) as [|Hd]; [done|].
    case_decide as Hc; [by apply IH|]. eapply leads_bind; [by apply leads_exists|]. intros []; cbn beta.
    - intros dk [H1 H2]. rewrite H1, bool_decide_false in H2 by tauto. done.
    - eapply leads_pre; [by intros m' [H1 _]; exact H1|]. by apply IH. }
  specialize (HL (mkDisk m pl) eq_refl). rewrite E in HL. by destruct r.
Qed.


(** A migration that stops after the vault was moved is never resumed.  The next
    start finds a vault in the data directory, takes the migration for done and
    succeeds, with the database and all other files left in the old directory. *)
Theorem stopped_migration_sticks listing canonical cand candidates m vault rest e :
  cand ≠ canonical → m !! join_path canonical VAULT = None → occupied (subdir canonical VAULT) m = false → listing cand = EFile VAULT :: rest → rest ≠ [] →
  m !! join_path cand VAULT = Some vault →
  let m1 := <[join_path canonical VAULT := vault]> (base.delete (join_path cand VAULT) m) in
  migrate_from_candidates listing canonical (cand :: candidates) (mkDisk m (replicate 6 Fine ++ [Faulty e 0])) =
    (mkDisk m1 [], Err (Failed (Migrate_ReadDir cand e))) ∧
  ∀ listing' candidates' pl d r, migrate_from_candidates listing' canonical candidates' (mkDisk m1 pl) = (d, r) →
    files d = m1 ∧ (r = Ok tt ∨ r = Err Crashed).
Proof.
  intros Hne Hcan Hocc Hl Hrest Hvault m1. split.
  - unfold migrate_from_candidates, bind_action at 1, exists_ at 1. cbn [replicate app plan files tail]. rewrite Hcan.
    rewrite bool_decide_false by (by intros [? ?]). cbn [scan]. rewrite decide_False by done.
    unfold bind_action at 1, exists_ at 1. cbn [plan files tail]. rewrite bool_decide_true by eauto. rewrite Hl.
    destruct rest as [|e2 rest]; [done|]. unfold move_dir_contents, fs_other.
    cbn. change (cand, VAULT) with (join_path cand VAULT). unfold bind_action, map_stop, syscall. cbn.
    change (cand, VAULT) with (join_path cand VAULT). unfold move_entry, rename_entry, rename_file, syscall. cbn -[occupied].
    change (cand, VAULT) with (join_path cand VAULT). rewrite Hvault, Hocc. reflexivity.
  - intros listing' candidates' pl d r. unfold migrate_from_candidates, bind_action, exists_. cbn [plan files].
    destruct pl as [|[|er n|n] pl]; cbn [files tail]; unfold m1; rewrite ?lookup_insert_eq; rewrite ?bool_decide_true by eauto;
      intros [= <- <-]; cbn; auto.
Qed.

(** ** Witnesses *)

Module MigrateSamples.
Definition listing (dir : string) : list dir_entry :=
  if decide (dir = "old") then [EFile VAULT; EFile "skattr.sqlite.age"; EDir "arti" [EFile "state"]] else [].
Definition before : tree :=
  <[("old", VAULT) := [Byte.x01]]> (<[("old", "skattr.sqlite.age") := [Byte.x02]]> {[ ("old/arti", "state") := [Byte.x03] ]}).
Definition eio : io_error := mkIoError false "Input/output error (os error 5)".
(** Renaming the database fails, and so does copying it after one byte. *)
Definition failing : list fault := replicate 7 Fine ++ [Faulty eio 0; Fine; Fine; Fine; Faulty eio 0].
End MigrateSamples.
Import MigrateSamples.


Lemma stopped_migration_sticks_witness :
  let m1 := <[join_path "new" VAULT := [Byte.x01]]> (base.delete (join_path "old" VAULT) before) in
  m1 !! ("new", "skattr.sqlite.age") = None ∧
  files (migrate_from_candidates listing "new" ["old"] (mkDisk m1 [])).1 = m1 ∧
  (migrate_from_candidates listing "new" ["old"] (mkDisk m1 [])).2 = Ok tt.
Proof.
  intros m1. split; [vm_compute; reflexivity|].
  destruct (stopped_migration_sticks listing "new" "old" [] before [Byte.x01] [EFile "skattr.sqlite.age"; EDir "arti" [EFile "state"]] eio
    ltac:(done) ltac:(vm_compute; reflexivity) ltac:(vm_compute; reflexivity) eq_refl ltac:(done) ltac:(vm_compute; reflexivity)) as [_ H].
  destruct (H listing ["old"] [] _ _ (surjective_pairing _)) as [H1 H2]. split; [exact H1|].
  destruct H2 as [H2|H2]; [exact H2|]. vm_compute in H2. discriminate.
Defined.
