(* ===== verification/IpcServer.v ===== *)
(** * IpcServer: the connection loop of the IPC server

    [crates/core/src/daemon/ipc/codec.rs] and [handle_connection] of
    [ipc/server/mod.rs].  A connection is a state machine: bytes arrive, the
    pending [read_frame] takes the bytes it needs, events are published and taken
    from the subscription.  The two futures of the loop's [select!] are separate
    steps; when the event wins, the [read_frame] is dropped together with the bytes
    it has taken.  What executes commands is the record [CommandExecutor], as in
    the source. *)

From S2P Require Import Prelude CoreErrors Framing Identity Messages Mailboxes Api.

(** ** [codec.rs] *)

Inductive CodecError : Type :=
| Codec_Io (unexpected_eof : bool)
| Codec_FrameTooLarge (got max : Z)
| Codec_EmptyFrame
| Codec_Cbor (msg : string).

(** The bytes [write_frame] writes. *)
Definition ipc_encode {T} `{!Serialize T} (v : T) : result bytes CodecError :=
  let? body := map_err Codec_Cbor (into_writer v) in
  let? _ := if decide (len body ≤ u32_max) then Ok tt else Err (Codec_FrameTooLarge u32_max MAX_IPC_BODY) in
  let? _ := if decide (len body > MAX_IPC_BODY) then Err (Codec_FrameTooLarge (len body) MAX_IPC_BODY) else Ok tt in
  Ok (u32_to_be_bytes (len body) ++ body).

(** [read_frame] after it has read [b]: its result, or none when it waits for more. *)
Definition ipc_decode {T} `{!Deserialize T} (b : bytes) : option (result T CodecError) :=
  match b with
  | b0 :: b1 :: b2 :: b3 :: body =>
      let n := u32_from_be_bytes b0 b1 b2 b3 in
      if decide (n = 0) then Some (Err Codec_EmptyFrame)
      else if decide (n > MAX_IPC_BODY) then Some (Err (Codec_FrameTooLarge n MAX_IPC_BODY))
      else if decide (len body < n) then None
      else Some (map_err Codec_Cbor (from_reader body))
  | _ => None
  end.

(** The bytes a waiting [read_frame] takes from those that have arrived: what it
    holds, what is left, and its result. *)
Fixpoint poll_read {T} `{!Deserialize T} (held wire : bytes) : bytes * bytes * option (result T CodecError) :=
  match ipc_decode held with
  | Some r => (held, wire, Some r)
  | None => match wire with [] => (held, [], None) | b :: wire' => poll_read (held ++ [b]) wire' end
  end.

(** ** [server/mod.rs] *)

(** The trait [CommandExecutor]. *)
Record CommandExecutor (X : Type) : Type := mkExecutor {
  execute : Command → X → X * result CommandResult IpcError;
  latest_tor_status : X → option TorStatus;
  take_wipe_target : X → X * option string;
  wipe_close : X → X
}.
Arguments execute {X} _ _ _.
Arguments latest_tor_status {X} _ _.
Arguments take_wipe_target {X} _ _.
Arguments wipe_close {X} _ _.

Definition event_matches (e : Event) (filter : option EventFilter) : bool :=
  match filter with
  | None => false
  | Some f =>
      match f, e with
      | Filter_All, _ => true
      | Filter_TorStatus, Ev_TorStatusChanged _ => true
      | Filter_Contact peer, Ev_MessageReceived contact _ => bool_decide (contact = peer)
      | Filter_Contact _, Ev_DeliveryStatusChanged _ _ => true
      | Filter_Contact _, Ev_ContactUpdated _ => true
      | Filter_Contact peer, Ev_ContactRemoved contact => bool_decide (contact = peer)
      | Filter_Contact peer, Ev_ContactCardReceived contact _ => bool_decide (contact = peer)
      | Filter_Messages None, Ev_MessageReceived _ _ => true
      | Filter_Messages (Some c), Ev_MessageReceived contact _ => bool_decide (c = contact)
      | Filter_Mailboxes, Ev_MailboxStatusChanged _ _ => true
      | Filter_Delivery, Ev_DeliveryStatusChanged _ _ => true
      | Filter_Logs, Ev_LogRecord _ => true
      | _, _ => false
      end
  end.

Arguments event_matches : simpl never.

(** A connection: what the executor works on, the bytes that have arrived and that
    [read_frame] holds, whether the client still reads and still writes, the
    subscription with its queue, the responses written, the wipe to come and the
    directories wiped. *)
Record conn (X : Type) : Type := mkConn {
  cn_exec : X;
  cn_wire : bytes;
  cn_held : bytes;
  cn_reads : bool;
  cn_eof : bool;
  cn_subscribed : option EventFilter;
  cn_queue : list Event;
  cn_sent : list IpcResponse;
  cn_wiped : list string;
  cn_open : bool
}.
Arguments mkConn {X}.
Arguments cn_exec {X}.
Arguments cn_wire {X}.
Arguments cn_held {X}.
Arguments cn_reads {X}.
Arguments cn_eof {X}.
Arguments cn_subscribed {X}.
Arguments cn_queue {X}.
Arguments cn_sent {X}.
Arguments cn_wiped {X}.
Arguments cn_open {X}.

Section server.
Context {X : Type} (exec : CommandExecutor X).
Context {ser : Serialize IpcResponse} {de : Deserialize IpcRequest}.
Implicit Types (c : conn X).

Definition accepted (x : X) : conn X := mkConn x [] [] true false None [] [] [] true.

Definition set_exec (x : X) c : conn X :=
  mkConn x (cn_wire c) (cn_held c) (cn_reads c) (cn_eof c) (cn_subscribed c) (cn_queue c) (cn_sent c) (cn_wiped c) (cn_open c).
Definition set_input (held wire : bytes) c : conn X :=
  mkConn (cn_exec c) wire held (cn_reads c) (cn_eof c) (cn_subscribed c) (cn_queue c) (cn_sent c) (cn_wiped c) (cn_open c).
Definition set_client (reads eof : bool) c : conn X :=
  mkConn (cn_exec c) (cn_wire c) (cn_held c) reads eof (cn_subscribed c) (cn_queue c) (cn_sent c) (cn_wiped c) (cn_open c).
Definition set_subscription (f : option EventFilter) (queue : list Event) c : conn X :=
  mkConn (cn_exec c) (cn_wire c) (cn_held c) (cn_reads c) (cn_eof c) f queue (cn_sent c) (cn_wiped c) (cn_open c).
Definition wipe_dir (dir : string) c : conn X :=
  mkConn (cn_exec c) (cn_wire c) (cn_held c) (cn_reads c) (cn_eof c) (cn_subscribed c) (cn_queue c) (cn_sent c)
    (cn_wiped c ++ [dir]) (cn_open c).
Definition closed c : conn X :=
  mkConn (cn_exec c) (cn_wire c) (cn_held c) (cn_reads c) (cn_eof c) (cn_subscribed c) (cn_queue c) (cn_sent c) (cn_wiped c) false.

(** [write_frame]: whether it succeeded. *)
Definition write_response (r : IpcResponse) c : conn X * bool :=
  match ipc_encode r with
  | Ok _ =>
      if cn_reads c
      then (mkConn (cn_exec c) (cn_wire c) (cn_held c) (cn_reads c) (cn_eof c) (cn_subscribed c) (cn_queue c)
              (cn_sent c ++ [r]) (cn_wiped c) (cn_open c), true)
      else (c, false)
  | Err _ => (c, false)
  end.

(** After the loop: [Bye], and the wipe if one is pending. *)
Definition finish (pending_wipe : option string) c : conn X :=
  let c := (write_response Resp_Bye c).1 in
  let c := match pending_wipe with
    | Some dir => wipe_dir dir (set_exec (wipe_close exec (cn_exec c)) c)
    | None => c
    end in
  closed c.

Definition is_error (r : IpcResponse) : bool := match r with Resp_Err _ => true | _ => false end.

Definition handle_request (req : IpcRequest) c : conn X :=
  match req with
  | Req_Execute cmd =>
      let '(x, res) := execute exec cmd (cn_exec c) in
      let resp := match res with Ok r => Resp_Ok r | Err e => Resp_Err e end in
      let '(x, target) := take_wipe_target exec x in
      let terminal := bool_decide (cn_subscribed c = None) || is_error resp || bool_decide (target ≠ None) in
      match write_response resp (set_exec x c) with
      | (c, false) => finish None c
      | (c, true) => if terminal then finish target c else c
      end
  | Req_Subscribe f =>
      match write_response (Resp_Ok Res_Subscribed) (set_subscription (Some f) [] c) with
      | (c, false) => finish None c
      | (c, true) =>
          match latest_tor_status exec (cn_exec c) with
          | Some s =>
              if event_matches (Ev_TorStatusChanged s) (cn_subscribed c)
              then match write_response (Resp_Event (Ev_TorStatusChanged s)) c with
                   | (c, false) => finish None c
                   | (c, true) => c
                   end
              else c
          | None => c
          end
      end
  | Req_Shutdown => finish None (write_response (Resp_Ok Res_Ok) c).1
  end.

(** The [read_frame] branch: its future is polled. *)
Definition poll_request c : conn X :=
  match poll_read (cn_held c) (cn_wire c) with
  | (held, wire, None) => if cn_eof c then finish None (set_input [] [] c) else set_input held wire c
  | (_, wire, Some r) =>
      let c := set_input [] wire c in
      match r with
      | Ok req => handle_request req c
      | Err (Codec_Cbor s) => (write_response (Resp_Err (Ipc_Codec s)) c).1
      | Err (Codec_FrameTooLarge got max) => finish None (write_response (Resp_Err (Ipc_FrameTooLarge got max)) c).1
      | Err Codec_EmptyFrame => finish None (write_response (Resp_Err (Ipc_Codec "empty frame")) c).1
      | Err (Codec_Io _) => finish None c
      end
  end.

(** The event branch wins: the read is dropped with what it holds. *)
Definition take_event c : conn X :=
  match cn_queue c with
  | [] => c
  | e :: queue =>
      let c := set_subscription (cn_subscribed c) queue (set_input [] (cn_wire c) c) in
      if event_matches e (cn_subscribed c)
      then match write_response (Resp_Event e) c with
           | (c, false) => finish None c
           | (c, true) => c
           end
      else c
  end.

(** The subscription lagged: a new one is made, without the events missed. *)
Definition lagged c : conn X :=
  match cn_subscribed c with
  | Some f => set_subscription (Some f) [] (set_input [] (cn_wire c) c)
  | None => c
  end.

Inductive ipc_label : Type :=
| Arrive (b : bytes)
| ClientCloses
| ClientStopsReading
| Publish (e : Event)
| PollRequest
| TakeEvent
| Lag.

Definition ipc_step (l : ipc_label) c : conn X :=
  if cn_open c then
    match l with
    | Arrive b => if cn_eof c then c else set_input (cn_held c) (cn_wire c ++ b) c
    | ClientCloses => set_client false true c
    | ClientStopsReading => set_client false (cn_eof c) c
    | Publish e => match cn_subscribed c with Some f => set_subscription (Some f) (cn_queue c ++ [e]) c | None => c end
    | PollRequest => poll_request c
    | TakeEvent => take_event c
    | Lag => lagged c
    end
  else c.

Definition ipc_run (ls : list ipc_label) c : conn X := foldl (λ c l, ipc_step l c) c ls.
End server.

(** ** Requests are served in order *)

(** No value has an empty CBOR encoding. *)
Class CborNonempty (T : Type) `{!Serialize T} : Prop := into_nonempty : ∀ (v : T) b, into_writer v = Ok b → b ≠ [].

Definition is_event (r : IpcResponse) : bool := match r with Resp_Event _ => true | _ => false end.

Section props.
Context {X : Type} (exec : CommandExecutor X).
Context {ser : Serialize IpcResponse} {ser_req : Serialize IpcRequest} {de : Deserialize IpcRequest}.
Context {rt : CborRoundtrip IpcRequest} {ne : CborNonempty IpcRequest}.
Implicit Types (c : conn X).

(** What a client and the daemon see of a connection: the state of the executor,
    the subscription, the answers, the directories wiped, and whether it is open. *)
Definition seen c : X * option EventFilter * list IpcResponse * list string * bool :=
  (cn_exec c, cn_subscribed c, filter (λ r, is_event r = false) (cn_sent c), cn_wiped c, cn_open c).

(** The specification: requests as a list. *)
Definition serve (reqs : list IpcRequest) c : conn X :=
  foldl (λ c r, if cn_open c then handle_request exec r c else c) c reqs.

Definition arrivals (ls : list ipc_label) : bytes := concat ((λ l, match l with Arrive b => b | _ => [] end) <$> ls).

(** The client reads and keeps its end open; no event is taken, and the
    subscription does not lag, while [read_frame] holds a part of a request; and
    the event that is taken fits a frame. *)
Definition next_event_fits c : Prop := match cn_queue c with e :: _ => is_ok (ipc_encode (Resp_Event e)) = true | [] => True end.
Definition calm_step (l : ipc_label) c : Prop :=
  match l with
  | TakeEvent => cn_held c = [] ∧ next_event_fits c
  | Lag => cn_held c = []
  | ClientCloses | ClientStopsReading => False
  | Arrive _ | Publish _ | PollRequest => True
  end.
Fixpoint undisturbed (ls : list ipc_label) c : Prop :=
  match ls with
  | [] => True
  | l :: ls => calm_step l c ∧ undisturbed ls (ipc_step exec l c)
  end.

Lemma encoded_split r f :
  ipc_encode (r : IpcRequest) = Ok f →
  ∃ b0 b1 b2 b3 body, f = b0 :: b1 :: b2 :: b3 :: body ∧ u32_from_be_bytes b0 b1 b2 b3 = len body ∧
    0 < len body ≤ MAX_IPC_BODY ∧ from_reader body = Ok r.
Proof using rt ne.
  unfold ipc_encode. intros (body & Hb & H)%bind_Ok_inv. apply bind_Ok_inv in H as (? & H1 & H).
  apply bind_Ok_inv in H as (? & H2 & [= <-]). destruct (into_writer r) as [body'|] eqn:E; [|done]. injection Hb as ->.
  destruct (decide (len body ≤ u32_max)); [|done]. destruct (decide (len body > MAX_IPC_BODY)); [done|]. pose proof (into_nonempty _ _ E) as Hne. pose proof (len_nonneg body).
  assert (0 < len body) by (destruct body; [done|lens]). do 5 eexists. split; [reflexivity|]. split; [|split; [lia|by apply from_into]].
  apply u32_be_roundtrip. unfold_widths. lia.
Qed.

Lemma decode_encoded r f : ipc_encode (r : IpcRequest) = Ok f → ipc_decode f = Some (Ok r).
Proof using rt ne.
  intros (b0 & b1 & b2 & b3 & body & -> & Hn & Hl & Hr)%encoded_split. cbn. rewrite Hn.
  rewrite !decide_False by lia. by rewrite Hr.
Qed.
Lemma decode_prefix r p s : ipc_encode (r : IpcRequest) = Ok (p ++ s) → s ≠ [] → ipc_decode (T := IpcRequest) p = None.
Proof using rt ne.
  intros (b0 & b1 & b2 & b3 & body & E & Hn & Hl & _)%encoded_split Hs.
  destruct p as [|a0 [|a1 [|a2 [|a3 p]]]]; try done. injection E as -> -> -> -> <-. cbn. rewrite Hn. rewrite len_app in *.
  assert (0 < len s) by (destruct s; [done|lens]). rewrite !decide_False by lia. by rewrite decide_True by lia.
Qed.

(** Polling a read that holds the start of a frame: the rest of the input begins
    with the rest of the frame. *)
Lemma poll_read_frame r f held wire s rest more :
  ipc_encode (r : IpcRequest) = Ok f → f = held ++ s → wire ++ rest = s ++ more →
  (∃ wire', wire' ++ rest = more ∧ poll_read (T := IpcRequest) held wire = (f, wire', Some (Ok r))) ∨
  (∃ s', s' ≠ [] ∧ f = (held ++ wire) ++ s' ∧ rest = s' ++ more ∧ poll_read (T := IpcRequest) held wire = (held ++ wire, [], None)).
Proof using rt ne.
  intros Hf. revert held s. induction wire as [|b wire IH]; intros held s E H; destruct s as [|b' s].
  - left. exists []. split; [done|]. rewrite app_nil_r in E. subst held. cbn. by rewrite (decode_encoded _ _ Hf).
  - right. exists (b' :: s). rewrite app_nil_r. split_and!; [done..|]. cbn. rewrite E in Hf. by rewrite (decode_prefix _ _ _ Hf).
  - left. exists (b :: wire). split; [done|]. rewrite app_nil_r in E. subst held. cbn. by rewrite (decode_encoded _ _ Hf).
  - injection H as -> H. cbn [poll_read]. pose proof Hf as Hf'. rewrite E in Hf'. rewrite (decode_prefix _ _ _ Hf') by done.
    destruct (IH (held ++ [b']) s) as [(w & Hw & Hp)|(s' & Hs' & E' & Hr & Hp)]; [by rewrite <- app_assoc|done|left|right].
    + by exists w.
    + exists s'. rewrite <- !app_assoc in *. cbn in *. by rewrite Hp.
Qed.

(** The bookkeeping of a run: [n] requests are served, the rest of the input is the
    rest of the frames. *)
Definition tracks (reqs : list IpcRequest) (frames : list bytes) (x : X) (future : bytes) (n : nat) c : Prop :=
  seen c = seen (serve (take n reqs) (accepted x)) ∧ cn_reads c = true ∧ cn_eof c = false ∧
  (cn_open c = true → ∃ s, cn_held c ++ s = concat (drop n frames) ∧ cn_wire c ++ future = s ∧
     (cn_held c = [] ∨ ∃ f s', frames !! n = Some f ∧ f = cn_held c ++ s' ∧ s' ≠ [])).

(** *** What is seen depends on what was seen *)

(** Two connections that look alike, with clients that read. *)
Definition alike c c' : Prop := seen c = seen c' ∧ cn_reads c = cn_reads c'.

Lemma alike_write r c c' :
  alike c c' → alike (write_response r c).1 (write_response r c').1 ∧ (write_response r c).2 = (write_response r c').2.
Proof using Type.
  intros [Hs Hr]. unfold write_response. destruct (ipc_encode r); [|done]. rewrite <- Hr. destruct (cn_reads c) eqn:E; [|split; [split; [done|cbn; congruence]|done]].
  split; [|done]. split; [|cbn; congruence]. unfold seen in *. cbn. rewrite !filter_app. congruence.
Qed.
Lemma alike_exec x c c' : alike c c' → alike (set_exec x c) (set_exec x c').
Proof using Type. intros [Hs Hr]. split; [|done]. unfold seen in *. cbn. congruence. Qed.
Lemma alike_subscribe f q q' c c' : alike c c' → alike (set_subscription f q c) (set_subscription f q' c').
Proof using Type. intros [Hs Hr]. split; [|done]. unfold seen in *. cbn. congruence. Qed.
Lemma alike_finish w c c' : alike c c' → alike (finish exec w c) (finish exec w c').
Proof using Type.
  intros H. destruct (alike_write Resp_Bye c c' H) as [[Hs Hr] _]. unfold finish.
  assert (cn_exec (write_response Resp_Bye c).1 = cn_exec (write_response Resp_Bye c').1) as He by (unfold seen in Hs; congruence).
  split; [|destruct w; done]. destruct w as [dir|]; unfold seen in *; cbn; rewrite ?He; congruence.
Qed.

Lemma alike_handle r c c' : alike c c' → alike (handle_request exec r c) (handle_request exec r c').
Proof using Type.
  intros H. pose proof H as [Hs _]. assert (cn_exec c = cn_exec c' ∧ cn_subscribed c = cn_subscribed c') as [He Hf].
  { unfold seen in Hs. split; congruence. }
  destruct r as [cmd|f|]; cbn [handle_request].
  - rewrite He, Hf. destruct (execute exec cmd (cn_exec c')) as [x res]. destruct (take_wipe_target exec x) as [x' target].
    set (resp := match res with Ok _ => _ | Err _ => _ end).
    destruct (alike_write resp _ _ (alike_exec x' _ _ H)) as [Ha Hb].
    destruct (write_response resp (set_exec x' c)) as [c1 b1], (write_response resp (set_exec x' c')) as [c2 b2]. cbn in *. subst b2.
    destruct b1; [|by apply alike_finish]. destruct (_ || _); [by apply alike_finish|done].
  - destruct (alike_write (Resp_Ok Res_Subscribed) _ _ (alike_subscribe (Some f) [] [] _ _ H)) as [Ha Hb].
    destruct (write_response (Resp_Ok Res_Subscribed) (set_subscription (Some f) [] c)) as [c1 b1],
      (write_response (Resp_Ok Res_Subscribed) (set_subscription (Some f) [] c')) as [c2 b2]. cbn in *. subst b2.
    destruct b1; [|by apply alike_finish]. pose proof Ha as [Hs' _].
    assert (cn_exec c1 = cn_exec c2 ∧ cn_subscribed c1 = cn_subscribed c2) as [He' Hf'] by (unfold seen in Hs'; split; congruence).
    rewrite He', Hf'. destruct (latest_tor_status exec (cn_exec c2)) as [s|]; [|done].
    destruct (event_matches _ _); [|done]. destruct (alike_write (Resp_Event (Ev_TorStatusChanged s)) _ _ Ha) as [Hc Hd].
    destruct (write_response _ c1) as [c3 b3], (write_response _ c2) as [c4 b4]. cbn in *. subst b4. destruct b3; [done|by apply alike_finish].
  - apply alike_finish. by apply alike_write.
Qed.

(** *** Events change nothing that is seen *)

Lemma take_event_seen c :
  next_event_fits c → cn_reads c = true → cn_open c = true → seen (take_event exec c) = seen c ∧ cn_reads (take_event exec c) = true
  ∧ cn_eof (take_event exec c) = cn_eof c ∧ cn_wire (take_event exec c) = cn_wire c ∧ (cn_held c = [] → cn_held (take_event exec c) = []).
Proof using Type.
  unfold next_event_fits. intros Hfit Hr Ho. unfold take_event. destruct (cn_queue c) as [|e q]; [done|]. cbn [cn_subscribed set_subscription set_input].
  destruct (event_matches e (cn_subscribed c)); [|done]. unfold write_response.
  destruct (ipc_encode (Resp_Event e)); [|done]. cbn [cn_reads set_subscription set_input]. rewrite Hr. cbn.
  split; [|done]. unfold seen. cbn. rewrite filter_app. cbn. by rewrite app_nil_r.
Qed.
(** *** Input is taken frame by frame *)

Lemma write_input r c : let c' := (write_response r c).1 in
  cn_held c' = cn_held c ∧ cn_wire c' = cn_wire c ∧ cn_reads c' = cn_reads c ∧ cn_eof c' = cn_eof c.
Proof using Type. unfold write_response. destruct (ipc_encode r); [|done]. by destruct (cn_reads c) eqn:E. Qed.
Lemma finish_input w c : let c' := finish exec w c in
  cn_held c' = cn_held c ∧ cn_wire c' = cn_wire c ∧ cn_reads c' = cn_reads c ∧ cn_eof c' = cn_eof c.
Proof using Type. pose proof (write_input Resp_Bye c) as (? & ? & ? & ?). unfold finish. by destruct w. Qed.
Lemma handle_input r c : let c' := handle_request exec r c in
  cn_held c' = cn_held c ∧ cn_wire c' = cn_wire c ∧ cn_reads c' = cn_reads c ∧ cn_eof c' = cn_eof c.
Proof using Type.
  destruct r as [cmd|f|]; cbn [handle_request].
  - destruct (execute exec cmd (cn_exec c)) as [x res]. destruct (take_wipe_target exec x) as [x' target].
    set (resp := match res with Ok _ => _ | Err _ => _ end). pose proof (write_input resp (set_exec x' c)) as H1.
    destruct (write_response resp (set_exec x' c)) as [c1 []]; cbn in *.
    + destruct (_ || _); [|done]. pose proof (finish_input target c1). naive_solver congruence.
    + pose proof (finish_input None c1). naive_solver congruence.
  - pose proof (write_input (Resp_Ok Res_Subscribed) (set_subscription (Some f) [] c)) as H1.
    destruct (write_response _ (set_subscription (Some f) [] c)) as [c1 []]; cbn in *.
    2: { pose proof (finish_input None c1). naive_solver congruence. }
    destruct (latest_tor_status exec (cn_exec c1)) as [s|]; [|done]. destruct (event_matches _ _); [|done].
    pose proof (write_input (Resp_Event (Ev_TorStatusChanged s)) c1) as H2.
    destruct (write_response _ c1) as [c2 []]; cbn in *; [naive_solver congruence|].
    pose proof (finish_input None c2). naive_solver congruence.
  - pose proof (write_input (Resp_Ok Res_Ok) c) as H1. pose proof (finish_input None (write_response (Resp_Ok Res_Ok) c).1).
    naive_solver congruence.
Qed.

Lemma serve_reads l c : cn_reads (serve l c) = cn_reads c.
Proof using Type.
  revert c. induction l as [|r l IH]; intros c; [done|]. cbn. unfold serve in IH. rewrite IH.
  destruct (cn_open c); [|done]. apply handle_input.
Qed.

Context (reqs : list IpcRequest) (frames : list bytes) (x : X).
Context (encoded : Forall2 (λ r f, ipc_encode r = Ok f) reqs frames).

Lemma tracks_poll future n c :
  cn_open c = true → tracks reqs frames x future n c → ∃ n', tracks reqs frames x future n' (poll_request exec c).
Proof using All.
  intros Ho (Hs & Hr & He & Hin). destruct (Hin Ho) as (s & Hc & Hw & Hheld). unfold poll_request.
  destruct (frames !! n) as [f|] eqn:Ef.
  - destruct (Forall2_lookup_r _ _ _ _ _ encoded Ef) as (r & Er & Hf).
    assert (∃ s0, f = cn_held c ++ s0) as [s0 E0] by (destruct Hheld as [->|(f' & s' & [= <-] & -> & _)]; eauto).
    rewrite (drop_S _ _ _ Ef) in Hc. cbn in Hc. rewrite E0, <- app_assoc in Hc. apply app_inv_head in Hc. rewrite Hc in Hw.
    destruct (poll_read_frame r f _ _ _ _ _ Hf E0 Hw) as [(w' & Hw' & ->)|(s' & Hs' & E' & Hrest & ->)].
    + exists (S n). set (c1 := set_input [] w' c). assert (alike c1 (serve (take n reqs) (accepted x))) as Ha.
      { split; [exact Hs|]. rewrite serve_reads. exact Hr. }
      apply (alike_handle r) in Ha as [Hs' Hr']. destruct (handle_input r c1) as (H1 & H2 & H3 & H4).
      split_and!; [|by rewrite H3|by rewrite H4|].
      * rewrite (take_S_r _ _ _ Er). unfold serve. rewrite foldl_app. cbn. fold (serve (take n reqs) (accepted x)).
        assert (cn_open (serve (take n reqs) (accepted x)) = true) as -> by (unfold seen in Hs; congruence). exact Hs'.
      * intros _. exists (concat (drop (S n) frames)). rewrite H1, H2. cbn. auto.
    + rewrite He. exists n. split_and!; [done..|]. intros _. exists future. cbn. split_and!; [|done|].
      * rewrite (drop_S _ _ _ Ef). cbn. rewrite Hrest, E'. by rewrite <- !app_assoc.
      * right. by exists f, s'.
  - apply lookup_ge_None in Ef. rewrite drop_ge in Hc by done. cbn in Hc. apply app_eq_nil in Hc as [Hh ->].
    apply app_eq_nil in Hw as [Hw ->]. rewrite Hh, Hw. cbn. rewrite He. exists n. split_and!; [done..|]. intros _.
    exists []. rewrite drop_ge by done. cbn. auto.
Qed.

Lemma tracks_step l future n c :
  tracks reqs frames x ((match l with Arrive b => b | _ => [] end) ++ future) n c →
  calm_step l c →
  ∃ n', tracks reqs frames x future n' (ipc_step exec l c).
Proof using All.
  intros Ht Hl. unfold ipc_step. destruct (cn_open c) eqn:Ho.
  2: { exists n. destruct Ht as (H1 & H2 & H3 & _). split_and!; [done..|]. by rewrite Ho. }
  pose proof Ht as (Hs & Hr & He & Hin). destruct (Hin Ho) as (s & Hc & Hw & Hheld).
  destruct l as [b| | |e| | |]; try done; cbn [app calm_step] in *.
  - rewrite He. exists n. split_and!; [done..|]. intros _. exists s. cbn. rewrite <- app_assoc. auto.
  - exists n. destruct (cn_subscribed c) as [f|] eqn:Ef; [|done]. split_and!; [|done|done|by intros _; exists s].
    rewrite <- Hs. unfold seen. cbn. by rewrite Ef.
  - by apply (tracks_poll future n).
  - exists n. destruct Hl as [Hl Hfit]. destruct (take_event_seen c Hfit Hr Ho) as (H1 & H2 & H3 & H4 & H5).
    split_and!; [by rewrite H1|done|by rewrite H3|]. intros _. exists s. rewrite H4, (H5 Hl). rewrite Hl in Hc. auto.
  - exists n. unfold lagged. destruct (cn_subscribed c) as [f|] eqn:Ef; [|done]. split_and!; [|done|done|].
    + rewrite <- Hs. unfold seen. cbn. by rewrite Ef.
    + intros _. exists s. cbn. rewrite Hl in Hc. auto.
Qed.
End props.

(** C14: the IPC server answers requests in order, however their bytes are split.
    The runs are those in which the client reads and keeps its end open, no event
    is taken and the subscription does not lag in the middle of a request (see
    [event_drops_request] for what happens then), and each event that is taken fits
    a frame. In them what the daemon executes,
    the answers a client gets (events apart), the subscription and whether the
    connection is open are those of serving the first [n] requests as a list, and
    the bytes not yet used are exactly the frames of the others. *)
Theorem ipc_serves_in_order {X} (exec : CommandExecutor X) {ser : Serialize IpcResponse} {ser_req : Serialize IpcRequest}
    {de : Deserialize IpcRequest} {rt : CborRoundtrip IpcRequest} {ne : CborNonempty IpcRequest}
    (x : X) (reqs : list IpcRequest) (frames : list bytes) (ls : list ipc_label) (future : bytes) :
  Forall2 (λ r f, ipc_encode r = Ok f) reqs frames → arrivals ls ++ future = concat frames →
  undisturbed exec ls (accepted x) →
  ∃ n, let c := ipc_run exec ls (accepted x) in
    seen c = seen (serve exec (take n reqs) (accepted x)) ∧
    (cn_open c = true → cn_held c ++ cn_wire c ++ future = concat (drop n frames)).
Proof.
  intros Henc Harr Hun.
  assert (∀ n c, tracks exec reqs frames x (arrivals ls ++ future) n c → undisturbed exec ls c →
    ∃ n', tracks exec reqs frames x future n' (ipc_run exec ls c)) as HT.
  { clear Harr Hun. induction ls as [|l ls IH]; intros n c Ht Hun; [by exists n|]. destruct Hun as [Hl Hun].
    unfold arrivals in Ht. cbn in Ht. rewrite <- app_assoc in Ht.
    destruct (tracks_step exec reqs frames x Henc l _ n c Ht Hl) as [n' Ht']. by apply (IH n'). }
  destruct (HT O (accepted x)) as (n & Hs & _ & _ & Hin); [|done|].
  - split_and!; [done..|]. intros _. exists (concat frames). cbn. auto.
  - exists n. split; [exact Hs|]. intros Ho. destruct (Hin Ho) as (s & Hc & Hw & _). cbn in *. by rewrite Hw.
Qed.

Section flaws.
Context {X : Type} (exec : CommandExecutor X).
Context {ser : Serialize IpcResponse} {ser_req : Serialize IpcRequest} {de : Deserialize IpcRequest}.
Context {rt : CborRoundtrip IpcRequest} {ne : CborNonempty IpcRequest}.
Implicit Types (c : conn X).

(** An event that is taken while a request is being read destroys the request.
    The part that was read leaves no trace: the connection is as if it had never
    arrived, nothing was executed, and the rest of the request will be read as the
    start of a new one. *)
Theorem event_drops_request r a b e c :
  ipc_encode (r : IpcRequest) = Ok (a ++ b) → b ≠ [] → is_ok (ipc_encode (Resp_Event e)) = true →
  cn_open c = true → cn_reads c = true → cn_eof c = false → is_Some (cn_subscribed c) →
  cn_queue c = [] → cn_held c = [] → cn_wire c = [] →
  let c' := ipc_run exec [Arrive a; PollRequest; Publish e; TakeEvent] c in
  c' = ipc_run exec [Publish e; TakeEvent] c ∧ cn_exec c' = cn_exec c ∧ cn_held c' = [] ∧ cn_wire c' = [].
Proof using rt ne.
  intros Hr Hb Hfit Ho Hreads He [f Hf] Hq Hh Hw.
  destruct c as [x wire held reads eof sub queue sent wiped open]. cbn in *. subst.
  assert (poll_read (T := IpcRequest) [] a = (a, [], None)) as Hp.
  { destruct (poll_read_frame r (a ++ b) [] a (a ++ b) b [] Hr) as [(w & Hw & _)|(s & _ & E & _ & Hp)]; [done|by rewrite app_nil_r| |done].
    destruct w; [|done]. cbn in Hw. by subst. }
  unfold ipc_run. cbn [foldl ipc_step cn_open cn_eof cn_held cn_wire set_input app]. unfold poll_request.
  cbn [cn_held cn_wire set_input]. rewrite Hp. cbn [cn_eof set_input ipc_step cn_open cn_subscribed set_subscription cn_queue app].
  unfold take_event. cbn [cn_queue set_subscription set_input cn_subscribed cn_wire]. cbn.
  destruct (event_matches e (Some f)); [|done]. unfold write_response. destruct (ipc_encode (Resp_Event e)); [|done]. done.
Qed.

(** A wipe that cannot be acknowledged does not happen.  [WipeAllData] consumes
    the request to wipe; if the client no longer reads, the connection ends without
    wiping, and nothing is left that would make another one wipe. *)
Theorem wipe_needs_reader c x1 x2 dir :
  execute exec Cmd_WipeAllData (cn_exec c) = (x1, Ok Res_Ok) → take_wipe_target exec x1 = (x2, Some dir) →
  is_ok (ipc_encode (Resp_Ok Res_Ok)) = true →
  let c' := handle_request exec (Req_Execute Cmd_WipeAllData) c in
  cn_open c' = false ∧ cn_wiped c' = cn_wiped c ++ (if cn_reads c then [dir] else []) ∧
  cn_exec c' = (if cn_reads c then wipe_close exec x2 else x2).
Proof using Type.
  destruct c as [x wire held reads eof sub queue sent wiped open]. cbn [cn_exec cn_reads cn_wiped].
  intros Hx Ht Hfit. cbn [handle_request cn_exec]. rewrite Hx, Ht. cbv zeta.
  rewrite (bool_decide_true (Some dir ≠ None)) by done. rewrite orb_true_r. unfold finish, write_response.
  destruct (ipc_encode (Resp_Ok Res_Ok)); [|done]. destruct reads, (ipc_encode Resp_Bye); cbn; rewrite ?app_nil_r; done.
Qed.

(** An answer that does not fit into a frame is not sent and not replaced by an
    error: the command has been executed, and all the client gets is [Bye]. *)
Theorem oversized_answer_lost c cmd x1 x2 res e :
  execute exec cmd (cn_exec c) = (x1, Ok res) → take_wipe_target exec x1 = (x2, None) →
  ipc_encode (Resp_Ok res) = Err e → is_ok (ipc_encode Resp_Bye) = true → cn_reads c = true →
  let c' := handle_request exec (Req_Execute cmd) c in
  cn_exec c' = x2 ∧ cn_sent c' = cn_sent c ++ [Resp_Bye] ∧ cn_open c' = false.
Proof using Type.
  intros Hx Ht Hbig Hbye Hr. cbn [handle_request]. rewrite Hx, Ht. cbv zeta. unfold finish, write_response. rewrite Hbig.
  destruct (ipc_encode Resp_Bye); [|done]. cbn. rewrite Hr. done.
Qed.
End flaws.

(** ** Witnesses *)

Module IpcSamples.
(** Three requests, one byte each; every response fits. *)
#[export] Instance toy_request : Serialize IpcRequest := λ r,
  match r with
  | Req_Execute Cmd_ListContacts => Ok [Byte.x01]
  | Req_Subscribe Filter_All => Ok [Byte.x02]
  | Req_Execute Cmd_WipeAllData => Ok [Byte.x03]
  | _ => Err "not in the sample"
  end.
#[export] Instance toy_request_de : Deserialize IpcRequest := λ b,
  match b with
  | [Byte.x01] => Ok (Req_Execute Cmd_ListContacts)
  | [Byte.x02] => Ok (Req_Subscribe Filter_All)
  | [Byte.x03] => Ok (Req_Execute Cmd_WipeAllData)
  | _ => Err "unknown"
  end.
#[export] Instance toy_request_rt : CborRoundtrip IpcRequest.
Proof. intros r b. destruct r as [[]|[]|]; try done; by intros [= <-]. Qed.
#[export] Instance toy_request_ne : CborNonempty IpcRequest.
Proof. intros r b. destruct r as [[]|[]|]; try done; by intros [= <-]. Qed.
(** Only a few answers can be encoded. *)
#[export] Instance toy_response : Serialize IpcResponse := λ r,
  match r with
  | Resp_Ok Res_Ok => Ok [Byte.x00]
  | Resp_Ok Res_Subscribed => Ok [Byte.x01]
  | Resp_Event (Ev_TorStatusChanged Tor_Ready) => Ok [Byte.x02]
  | Resp_Bye => Ok [Byte.x03]
  | _ => Err "too large"
  end.

(** Counts commands; wiping is signalled. *)
Definition counter : CommandExecutor (Z * option string) := {|
  execute cmd x := match cmd with
    | Cmd_WipeAllData => ((x.1 + 1, Some "data"), Ok Res_Ok)
    | _ => ((x.1 + 1, x.2), Ok Res_Ok)
    end;
  latest_tor_status _ := None;
  take_wipe_target x := ((x.1, None), x.2);
  wipe_close x := x
|}.
Definition frame (n : byte) : bytes := u32_to_be_bytes 1 ++ [n].
Definition subscribed : conn (Z * option string) := ipc_run counter [Arrive (frame Byte.x02); PollRequest] (accepted (0, None)).
Definition tor : Event := Ev_TorStatusChanged Tor_Ready.
End IpcSamples.
Import IpcSamples.

Lemma ipc_serves_in_order_witness :
  let ls := [Arrive (take 3 (frame Byte.x02)); PollRequest; Arrive (drop 3 (frame Byte.x02)); PollRequest; Publish tor; TakeEvent;
             Arrive (frame Byte.x01); PollRequest] in
  ∃ n, let c := ipc_run counter ls (accepted (0, None)) in
    seen c = seen (serve counter (take n [Req_Subscribe Filter_All; Req_Execute Cmd_ListContacts]) (accepted (0, None))) ∧
    (cn_open c = true → cn_held c ++ cn_wire c ++ [] = concat (drop n [frame Byte.x02; frame Byte.x01])).
Proof.
  intros ls. apply (ipc_serves_in_order counter (0, None) [Req_Subscribe Filter_All; Req_Execute Cmd_ListContacts]
    [frame Byte.x02; frame Byte.x01] ls []); [repeat constructor|vm_compute; reflexivity|].
  vm_compute. by split_and!.
Defined.

Lemma event_drops_request_witness :
  let c' := ipc_run counter [Arrive (take 2 (frame Byte.x01)); PollRequest; Publish tor; TakeEvent] subscribed in
  cn_exec c' = (0, None) ∧ cn_held c' = [] ∧ cn_wire c' = [] ∧
  (** the rest of the request, and the next one: neither is executed *)
  cn_exec (ipc_run counter [Arrive (drop 2 (frame Byte.x01)); Arrive (frame Byte.x01); PollRequest] c') = (0, None).
Proof.
  intros c'. destruct (event_drops_request counter (Req_Execute Cmd_ListContacts) (take 2 (frame Byte.x01)) (drop 2 (frame Byte.x01))
    tor subscribed) as (_ & H1 & H2 & H3); [vm_compute; reflexivity|done|reflexivity|vm_compute; reflexivity|vm_compute; reflexivity
    |vm_compute; reflexivity|eexists; vm_compute; reflexivity|vm_compute; reflexivity|vm_compute; reflexivity|vm_compute; reflexivity|].
  split_and!; [exact H1|exact H2|exact H3|vm_compute; reflexivity].
Defined.

Lemma wipe_needs_reader_witness :
  let gone := set_client false false (accepted (X := Z * option string) (0, None)) in
  cn_wiped (handle_request counter (Req_Execute Cmd_WipeAllData) gone) = [] ∧
  cn_exec (handle_request counter (Req_Execute Cmd_WipeAllData) gone) = (1, None).
Proof.
  intros gone. assert (is_ok (ipc_encode (Resp_Ok Res_Ok)) = true) as Hfit by (vm_compute; reflexivity).
  destruct (wipe_needs_reader counter gone (1, Some "data") (1, None) "data") as (_ & H1 & H2);
    [reflexivity|reflexivity|exact Hfit|]. split; [exact H1|exact H2].
Defined.

Lemma oversized_answer_lost_witness :
  let lister : CommandExecutor Z := {| execute _ x := (x + 1, Ok (Res_Contacts [])); latest_tor_status _ := None;
    take_wipe_target x := (x, None); wipe_close x := x |} in
  cn_sent (handle_request lister (Req_Execute Cmd_ListContacts) (accepted 0)) = [Resp_Bye].
Proof.
  intros lister. destruct (ipc_encode (Resp_Ok (Res_Contacts []))) as [?|e] eqn:E; [vm_compute in E; discriminate|].
  assert (is_ok (ipc_encode Resp_Bye) = true) as Hfit by (vm_compute; reflexivity).
  destruct (oversized_answer_lost lister (accepted 0) Cmd_ListContacts 1 1 (Res_Contacts []) e) as (_ & H & _);
    [reflexivity|reflexivity|exact E|exact Hfit|reflexivity|]. exact H.
Defined.
