(* ===== verification/HistoryCommands.v ===== *)
(** * HistoryCommands: the commands on the message history

    [crates/core/src/daemon/dispatch.rs]: [recent_messages], [search_messages],
    [mark_read], [prune_history], [export_history] and [dismiss_message], and what
    a client that pages through a conversation gets.  The clock is an argument. *)

From S2P Require Import Prelude Text Framing SimpleCodec CoreErrors Sql Identity Contacts Messages Receiver Attachments Mls.
From S2P Require Import Invites FirstContact Mailboxes Api Daemon ContactCommands.

Section history.
Context {ser_env : Serialize Envelope} {de_env : Deserialize Envelope} {fts : Fts5} {scheme : SignatureScheme}.
Context (me : IdentityKey).

(** A contact's group; a missing or empty one is [ContactNotFound]. *)
Definition scoped (contact : bytes) : action daemon bytes handler_failure :=
  let! o := read (of_db f_contacts) (linked_group contact) in
  lift (ok_or o (daemon_error Daemon_ContactNotFound)).
Definition scoped_opt (contact : option bytes) : action daemon (option bytes) handler_failure :=
  match contact with
  | Some pk => let! g := scoped pk in lift (Ok (Some g))
  | None => lift (Ok None)
  end.

(** The sender column as a key: of another length it is all zeros. *)
Definition sender_key (row : StoredMessage) : bytes :=
  if decide (len (sm_sender row) = 32) then sm_sender row else fill 32 Byte.x00.

(** The record of a row, or none when its body does not decode. *)
Definition record_of (contact : bytes) (row : StoredMessage) : option MessageRecord :=
  match decode_envelope (default [] (sm_body_blob row)) with
  | Err _ => None
  | Ok env =>
      Some (with_persisted_status (sm_dismissed_at row) (sm_failed_reason row)
        (project (sm_id row) env contact (u64_or_zero (sm_mls_generation row)) (sm_ts_daemon_recv row)
           (if decide (sender_key row = public me) then Outgoing else Incoming) (sm_delivered_at row)))
  end.

Definition recent_messages (contact : option bytes) (max : Z) (before_id : option Z) (paged : bool) : handler :=
  let! peer := lift (ok_or contact (daemon_error Daemon_ContactNotFound)) in
  let! group_id := scoped peer in
  let! rows := read (of_db f_messages) (λ t, match before_id with
    | Some b => recent_before group_id b max t
    | None => recent group_id max t
    end) in
  let records := omap (record_of peer) rows in
  if paged then
    let next := if decide (len records = max) then rec_row_id <$> last records else None in
    lift (Ok (Res_MessagesPage records next))
  else lift (Ok (Res_Messages records)).

(** The peer of a hit when the search is over all conversations. *)
Definition hit_peer (contact : option bytes) (db : contacts_db) (row : StoredMessage) : bytes :=
  match contact with
  | Some pk => pk
  | None =>
      if decide (len (sm_group_id row) = 32) then default (sender_key row) (contact_for_group (sm_group_id row) db)
      else sender_key row
  end.

Definition search_messages (query : string) (contact : option bytes) (max offset : Z) (newest_first : bool) : handler :=
  let! group_id := scoped_opt contact in
  let! hits := try_read (of_db f_messages) (search query group_id max offset newest_first) in
  let! contacts := read (of_db f_contacts) id in
  lift (Ok (Res_SearchResults (omap (λ h,
    (λ r, mkSearchHitRecord r (bm25 h) (snippet h)) <$> record_of (hit_peer contact contacts (message h)) (message h)) hits))).

Definition mark_read_cmd (now_secs : Z) (contact : bytes) (up_to : Z) : handler :=
  let! group_id := scoped contact in
  let! _ := modify (of_db f_messages) (mark_read group_id up_to now_secs) in
  lift (Ok (Res_MarkedRead up_to)).

Definition prune_history (contact : option bytes) (before_ts_recv keep_last : option Z) : handler :=
  let! _ := ensure (match before_ts_recv, keep_last with Some _, Some _ | None, None => false | _, _ => true end)
    (bad_argument "exactly one of before_ts_recv or keep_last must be Some") in
  let! group_id := scoped_opt contact in
  let! rows_deleted := match before_ts_recv, keep_last with
    | Some ts, None => modify_get (of_db f_messages) (prune_before group_id ts)
    | None, Some k =>
        let! gid := lift (ok_or group_id (bad_argument "keep_last requires a contact")) in
        modify_get (of_db f_messages) (prune_keep_last gid k)
    | _, _ => lift (Err Abort)
    end in
  lift (Ok (Res_Pruned rows_deleted)).

Definition EXPORT_PAGE_MAX : Z := 1000.

Definition export_history (contact : bytes) (after_id : option Z) (max : Z) : handler :=
  let lim := Z.min max EXPORT_PAGE_MAX in
  let! group_id := scoped contact in
  let! rows := read (of_db f_messages) (export_page group_id after_id lim) in
  let next := if decide (len rows = lim ∧ 0 < lim) then sm_id <$> last rows else None in
  lift (Ok (Res_ExportPage (omap (record_of contact) rows) next)).

Definition dismiss_message (now_secs : Z) (message_id : bytes) : handler :=
  let! _ := modify_get (of_db f_messages) (mark_dismissed message_id (public me) now_secs) in
  lift (Ok Res_Ok).

(** ** Paging *)

(** A client that follows [next_before_id], or [next_after_id]. *)
Fixpoint recent_all (fuel : nat) (contact : bytes) (max : Z) (cursor : option Z) (d : daemon) : option (list MessageRecord) :=
  match fuel with
  | O => None
  | S fuel =>
      match (recent_messages (Some contact) max cursor true d).2 with
      | Ok (Res_MessagesPage rs (Some c)) => rest ← recent_all fuel contact max (Some c) d; Some (rs ++ rest)
      | Ok (Res_MessagesPage rs None) => Some rs
      | _ => None
      end
  end.
Fixpoint export_all (fuel : nat) (contact : bytes) (max : Z) (cursor : option Z) (d : daemon) : option (list MessageRecord) :=
  match fuel with
  | O => None
  | S fuel =>
      match (export_history contact cursor max d).2 with
      | Ok (Res_ExportPage rs (Some c)) => rest ← export_all fuel contact max (Some c) d; Some (rs ++ rest)
      | Ok (Res_ExportPage rs None) => Some rs
      | _ => None
      end
  end.

Abbreviation messages_of d := (fget (of_db f_messages) d).

Section conversation.
Context (contact g : bytes) (d : daemon).
Context (linked : linked_group contact (d_contacts (dm_db d)) = Some g) (wf : messages_wf (messages_of d)).

Definition export_rest (cursor : option Z) : list message_row :=
  filter (λ r, m_id r > default 0 cursor) (order_by m_id (in_group g (messages_of d))).

Lemma group_ids x y : x ∈ in_group g (messages_of d) → y ∈ in_group g (messages_of d) → m_id x = m_id y → x = y.
Proof using wf. intros. eapply group_ids_inj; [exact wf|done|done|lia]. Qed.

Lemma export_sorted : StronglySorted (λ r r', m_id r < m_id r') (order_by m_id (in_group g (messages_of d))).
Proof using wf.
  pose proof (order_by_sorted m_id (in_group g (messages_of d))) as Hs.
  assert (NoDup (m_id <$> order_by m_id (in_group g (messages_of d)))) as Hn.
  { rewrite order_by_Permutation. apply NoDup_fmap_filter, wf. }
  revert Hs Hn. generalize (order_by m_id (in_group g (messages_of d))). induction 1 as [|r l _ IH Hall]; [constructor|].
  intros [Hr Hn]%NoDup_cons. constructor; [by apply IH|]. apply Forall_forall. intros r' Hr'.
  eapply Forall_forall in Hall; [|done]. unfold key_le in Hall.
  assert (m_id r ≠ m_id r') by (intros Heq; apply Hr; rewrite Heq; by apply list_elem_of_fmap_2). lia.
Qed.

Lemma export_rest_step cursor l r l' : export_rest cursor = l ++ r :: l' → export_rest (Some (m_id r)) = l'.
Proof using wf.
  clear dependent contact. intros E. pose proof (StronglySorted_filter _ (λ r, m_id r > default 0 cursor) _ export_sorted) as Hs. fold (export_rest cursor) in Hs.
  rewrite E in Hs. assert (export_rest (Some (m_id r)) = filter (λ x, m_id x > m_id r) (l ++ r :: l')) as ->.
  { rewrite <- E. unfold export_rest. symmetry. apply filter_filter_in. intros x _ Hx. cbn in Hx.
    assert (r ∈ export_rest cursor) as [? _]%list_elem_of_filter by (rewrite E; set_solver). lia. }
  apply StronglySorted_app in Hs as (Hlt & _ & [_ Hall]%StronglySorted_inv).
  rewrite filter_app, filter_cons_False, filter_none, filter_all; [done|..|lia].
  - intros x Hx. eapply Forall_forall in Hall; [|done]. cbn in *. lia.
  - intros x Hx. specialize (Hlt x r Hx ltac:(set_solver)). cbn in Hlt. lia.
Qed.

(** The page at a cursor. *)
Lemma export_page_rest cursor max : 0 < max →
  export_history contact cursor max d =
  (d, let page := take (Z.to_nat (Z.min max EXPORT_PAGE_MAX)) (export_rest cursor) in
      Ok (Res_ExportPage (omap (record_of contact) (stored <$> page))
        (if decide (len page = Z.min max EXPORT_PAGE_MAX) then m_id <$> last page else None))).
Proof using linked wf.
  intros Hmax. unfold export_history, scoped, bind_action, read, lift. cbn [fget of_db f_contacts].
  rewrite linked. cbn [ok_or]. f_equal. unfold export_page. cbn [fget of_db f_messages].
  rewrite (order_by_filter m_id _ _ group_ids). fold (export_rest cursor).
  replace (sql_limit (Z.min max EXPORT_PAGE_MAX)) with (Z.min max EXPORT_PAGE_MAX) by (unfold sql_limit, EXPORT_PAGE_MAX; widths).
  unfold limit. set (page := take _ (export_rest cursor)).
  replace (len (stored <$> page)) with (len page) by (unfold len; by rewrite length_fmap).
  assert (0 < Z.min max EXPORT_PAGE_MAX) by (unfold EXPORT_PAGE_MAX; lia).
  destruct (decide (len page = _)); [rewrite decide_True by done|by rewrite decide_False by tauto].
  rewrite fmap_last. destruct (last page); done.
Qed.
End conversation.

(** C33: exporting a conversation page by page yields all of it.  For any page size a
    client that follows the cursor gets, after at most one page per message and one
    more, the record of every message of the conversation whose body decodes, once
    and in the order of arrival. *)
Theorem export_complete contact g d max fuel :
  linked_group contact (d_contacts (dm_db d)) = Some g → messages_wf (messages_of d) → 0 < max →
  len (in_group g (messages_of d)) < Z.of_nat fuel →
  export_all fuel contact max None d =
    Some (omap (record_of contact) (stored <$> order_by m_id (in_group g (messages_of d)))).
Proof.
  intros Hl Hwf Hmax Hfuel.
  assert (∀ cursor, (length (export_rest g d cursor) < fuel)%nat →
    export_all fuel contact max cursor d = Some (omap (record_of contact) (stored <$> export_rest g d cursor))) as HE.
  { clear Hfuel. induction fuel as [|fuel IH]; intros cursor Hf; [lia|]. cbn [export_all].
    rewrite (export_page_rest contact g d Hl Hwf cursor max Hmax). cbn [snd].
    set (n := Z.to_nat (Z.min max EXPORT_PAGE_MAX)). destruct (last (take n (export_rest g d cursor))) as [r|] eqn:El.
    - destruct (decide _) as [Hfull|Hshort].
      + apply last_Some in El as [l El]. pose proof (take_drop n (export_rest g d cursor)) as E. rewrite El, <- app_assoc in E.
        cbn in E. symmetry in E. cbn. rewrite IH; rewrite (export_rest_step g d Hwf cursor l r _ E).
        * cbn [mbind option_bind]. rewrite El. f_equal. rewrite <- omap_app, <- fmap_app, <- app_assoc. cbn [app]. by rewrite <- E.
        * rewrite E, length_app in Hf. cbn in Hf. lia.
      + rewrite take_ge; [done|]. unfold len in Hshort. rewrite length_take in Hshort. unfold EXPORT_PAGE_MAX in *. lia.
    - apply last_None in El. assert (export_rest g d cursor = []) as ->.
      { destruct (export_rest g d cursor); [done|]. destruct n eqn:En; [unfold n, EXPORT_PAGE_MAX in En; lia|done]. }
      rewrite take_nil. by destruct (decide _). }
  assert (export_rest g d None = order_by m_id (in_group g (messages_of d))) as Hr.
  { apply filter_all. intros r [_ Hr]%elem_of_order_by%list_elem_of_filter. apply (wf_seq _ _ (Messages.mw_ids _ Hwf)) in Hr. cbn. lia. }
  rewrite HE, Hr; [done|]. rewrite Hr, order_by_Permutation. unfold len in Hfuel. lia.
Qed.

Lemma omap_all {A B} (f : A → option B) (l : list A) : (∀ x, x ∈ l → is_Some (f x)) → Forall2 (λ x y, f x = Some y) l (omap f l).
Proof using Type.
  induction l as [|x l IH]; intros H; [constructor|]. cbn. destruct (H x) as [y Hy]; [left|]. rewrite Hy.
  constructor; [done|]. apply IH. intros z Hz. apply H. by right.
Qed.
Lemma omap_stored {B} (f : StoredMessage → option B) (l : list message_row) : omap f (stored <$> l) = omap (λ r, f (stored r)) l.
Proof using Type. induction l as [|r l IH]; [done|]. cbn. rewrite <- IH. done. Qed.
Lemma record_row_id contact row r : record_of contact row = Some r → rec_row_id r = sm_id row.
Proof using Type. unfold record_of. destruct (decode_envelope _); [|done]. by intros [= <-]. Qed.

(** A client that pages back through a conversation with [RecentMessages] sees
    all of it.  For any page size, when every stored body decodes, following the
    cursor gives the record of each message exactly once, newest first, after at
    most one page per message and one more. *)
Theorem recent_pages_complete contact g d max fuel :
  linked_group contact (d_contacts (dm_db d)) = Some g → messages_wf (messages_of d) → epochs_grow g (messages_of d) →
  (∀ r, r ∈ in_group g (messages_of d) → is_Some (record_of contact (stored r))) →
  0 < max ≤ u32_max → len (in_group g (messages_of d)) < Z.of_nat fuel →
  ∃ records, recent_all fuel contact max None d = Some records ∧
    Forall2 (λ r rec, record_of contact (stored r) = Some rec) (conversation g (messages_of d)) records.
Proof.
  intros Hl Hwf Hgrow Hdec Hmax Hfuel. set (rest := rest_at g (messages_of d)). set (n := Z.to_nat max).
  assert (∀ cursor r, r ∈ rest cursor → is_Some (record_of contact (stored r))) as Hrest.
  { intros cursor r Hr. apply Hdec, conversation_elem. destruct cursor; cbn in Hr; [by apply list_elem_of_filter in Hr as [_ ?]|done]. }
  assert (∀ cursor, recent_messages (Some contact) max cursor true d =
    (d, let rs := omap (λ r, record_of contact (stored r)) (take n (rest cursor)) in
        Ok (Res_MessagesPage rs (if decide (len rs = max) then rec_row_id <$> last rs else None)))) as Hpage.
  { intros cursor. unfold recent_messages, scoped, bind_action, read, lift. cbn [ok_or]. change (fget (of_db f_contacts) d) with (d_contacts (dm_db d)).
    rewrite Hl. cbn [ok_or]. cbv beta.
    assert (match cursor with Some b => recent_before g b max (messages_of d) | None => recent g max (messages_of d) end
      = stored <$> take n (rest cursor)) as ->.
    { unfold rest, n. destruct cursor; unfold recent, recent_before, limit; [rewrite (sort_filter g _ Hwf)|];
        replace (sql_limit max) with max by (unfold sql_limit; widths); done. }
    by rewrite omap_stored. }
  assert (∀ cursor, (length (rest cursor) < fuel)%nat →
    recent_all fuel contact max cursor d = Some (omap (λ r, record_of contact (stored r)) (rest cursor))) as HE.
  { clear Hfuel. induction fuel as [|fuel IH]; intros cursor Hf; [lia|]. cbn [recent_all]. rewrite Hpage. cbn [snd].
    set (rs := omap _ (take n (rest cursor))).
    assert (Forall2 (λ r y, record_of contact (stored r) = Some y) (take n (rest cursor)) rs) as H2.
    { apply omap_all. intros r Hr. eapply Hrest. rewrite <- (take_drop n (rest cursor)). apply elem_of_app. by left. }
    destruct (decide (len rs = max)) as [Hfull|Hshort].
    - destruct (last rs) as [y|] eqn:Ey; [|apply last_None in Ey; rewrite Ey, len_nil in Hfull; lia].
      change (rec_row_id <$> Some y) with (Some (rec_row_id y)).
      apply last_Some in Ey as [rs' Ey]. rewrite Ey in H2. apply Forall2_app_inv_r in H2 as (l & k & _ & Hk & El).
      apply Forall2_cons_inv_r in Hk as (r & k' & Hr & Hk & ->). apply Forall2_nil_inv_r in Hk as ->.
      pose proof (take_drop n (rest cursor)) as E. rewrite El, <- app_assoc in E. cbn in E. symmetry in E.
      pose proof (rest_at_step g _ Hwf Hgrow cursor l r _ E) as Hs. fold (rest (Some (m_id r))) in Hs.
      rewrite (record_row_id _ _ _ Hr). change (sm_id (stored r)) with (m_id r). rewrite IH, Hs.
      + cbn [mbind option_bind]. f_equal. unfold rs. rewrite <- omap_app. by rewrite take_drop.
      + rewrite Hs. rewrite E, length_app in Hf. cbn in Hf. lia.
    - f_equal. unfold rs. rewrite take_ge; [done|]. apply Forall2_length in H2. rewrite length_take in H2. unfold len in Hshort. unfold n in *. lia. }
  eexists. split; [apply HE; unfold rest, rest_at, conversation; rewrite (merge_sort_Permutation newer); unfold len in Hfuel; lia|].
  apply omap_all. exact (Hrest None).
Qed.
End history.

(** ** Witnesses *)

Module HistorySamples.
#[export] Existing Instance codec_envelope.
#[export] Existing Instance serialize_of.
#[export] Existing Instance deserialize_of.
Definition peer : bytes := fill 32 Byte.x0a.
Definition self : IdentityKey := mkIdentityKey (fill 32 Byte.x09).
Definition linked_contacts : contacts_db :=
  (set_group_id peer sample_group (upsert (mkContact peer None 0 None false) empty_contacts).1).1.
Definition sample_daemon : daemon := start (fset f_messages sample_messages (fset f_contacts linked_contacts empty_db)).
End HistorySamples.
Import HistorySamples.

Lemma export_complete_witness :
  export_all (scheme := toy_scheme) self 4 peer 2 None sample_daemon =
    Some (omap (record_of (scheme := toy_scheme) self peer) (stored <$> order_by m_id (in_group sample_group sample_messages))).
Proof.
  exact (export_complete (scheme := toy_scheme) self peer sample_group sample_daemon 2 4 ltac:(vm_compute; reflexivity)
    sample_messages_wf ltac:(lia) ltac:(vm_compute; reflexivity)).
Defined.

Lemma sample_decodes r :
  r ∈ in_group sample_group sample_messages → is_Some (record_of (scheme := toy_scheme) self peer (stored r)).
Proof.
  assert (∃ r1 r2 r3, in_group sample_group sample_messages = [r1; r2; r3] ∧ is_Some (record_of (scheme := toy_scheme) self peer (stored r1)) ∧
    is_Some (record_of (scheme := toy_scheme) self peer (stored r2)) ∧ is_Some (record_of (scheme := toy_scheme) self peer (stored r3)))
    as (r1 & r2 & r3 & E & H).
  { do 3 eexists. split; [vm_compute; reflexivity|]. split_and!; eexists; vm_compute; reflexivity. }
  intros Hr. rewrite E, !elem_of_cons, elem_of_nil in Hr.
  destruct Hr as [->|[->|[->|[]]]]; apply H.
Qed.

Lemma recent_pages_complete_witness :
  ∃ records, recent_all (scheme := toy_scheme) self 4 peer 2 None sample_daemon = Some records ∧
    Forall2 (λ r rec, record_of (scheme := toy_scheme) self peer (stored r) = Some rec) (conversation sample_group sample_messages) records.
Proof.
  apply (recent_pages_complete (scheme := toy_scheme) self peer sample_group sample_daemon 2 4); [vm_compute; reflexivity
    |exact sample_messages_wf|exact sample_epochs|exact sample_decodes|vm_compute; split; [reflexivity|discriminate]|vm_compute; reflexivity].
Defined.
