(* ===== verification/AttachmentCommands.v ===== *)
(** * AttachmentCommands: opening, saving and retrying attachments

    [crates/core/src/daemon/dispatch.rs]: [decrypt_attachment_to],
    [open_attachment_cmd], [save_attachment_cmd], [attachment_available_cmd],
    [attachment_status_cmd] and [retry_attachment_cmd]; and the hourly janitor of
    [daemon/attachment_janitor.rs].  What the operating system refuses, the times
    of directories and their listing are arguments. *)

From S2P Require Import Prelude Text Hex Framing CoreErrors Sql MailboxProtocol Identity Contacts Messages Receiver Attachments AttachmentRepo.
From S2P Require Import ChunkTransfer Mls Invites FirstContact Mailboxes Api Daemon ContactCommands Inbound.

(** A code point in UTF-8. *)
Definition utf8_char (c : Z) : list Z :=
  if decide (c < 128) then [c]
  else if decide (c < 2048) then [192 + c / 64; 128 + c mod 64]
  else if decide (c < 65536) then [224 + c / 4096; 128 + (c / 64) mod 64; 128 + c mod 64]
  else [240 + c / 262144; 128 + (c / 4096) mod 64; 128 + (c / 64) mod 64; 128 + c mod 64].
Definition utf8_string (cs : list Z) : string :=
  String.string_of_list_byte (byte_of_Z <$> concat (utf8_char <$> cs)).

(** Files by path. *)
Abbreviation out_files := (gmap string bytes).

Section attachment_commands.
Context {sha : Sha256} {crypto : AttachmentCrypto}.
Context {ser_man : Serialize AttachmentManifest} {de_man : Deserialize AttachmentManifest}.

Definition not_found_att : handler_failure := bad_argument "attachment not found".

(** [decrypt_attachment_to]: reads the daemon, writes files.  [mkdir] is the error
    of creating the directory, if it fails. *)
Definition decrypt_attachment_to (mkdir : option string) (faults : io_faults) (pid seq : Z) (d : daemon) (aid : bytes)
    (out_path : string) : action out_files unit handler_failure :=
  let! row := lift (ok_or (att_get aid (d_atts (dm_db d))) not_found_att) in
  let! _ := ensure (bool_decide (row_direction row = "in" ∧ row_status row = "complete")) (bad_argument "attachment not available") in
  let! manifest := lift (map_err reply (from_cbor (row_manifest row))) in
  let! _ := lift (match mkdir with Some e => Err (Reply (Ipc_Internal ("create dir: " +:+ e))) | None => Ok tt end) in
  map_error reply (reassemble faults pid seq manifest (store_source (dm_store d) aid) out_path).

(** Where an attachment is opened. *)
Definition open_dir (data_dir : string) (aid : bytes) : string := data_dir +:+ "/cache/open/" +:+ hex_encode aid.
Definition open_path (data_dir : string) (aid : bytes) (m : AttachmentManifest) : string :=
  open_dir data_dir aid +:+ "/" +:+ utf8_string (sanitize_received (filename m)).

Definition open_attachment_cmd (data_dir : string) (mkdir : option string) (faults : io_faults) (pid seq : Z) (d : daemon)
    (aid : bytes) : action out_files CommandResult handler_failure :=
  let! row := lift (ok_or (att_get aid (d_atts (dm_db d))) not_found_att) in
  let! manifest := lift (map_err reply (from_cbor (row_manifest row))) in
  let out_path := open_path data_dir aid manifest in
  let! _ := decrypt_attachment_to mkdir faults pid seq d aid out_path in
  lift (Ok (Res_AttachmentDecrypted out_path)).

Definition save_attachment_cmd (mkdir : option string) (faults : io_faults) (pid seq : Z) (d : daemon) (aid : bytes)
    (dest_path : string) : action out_files CommandResult handler_failure :=
  let! _ := decrypt_attachment_to mkdir faults pid seq d aid dest_path in
  lift (Ok Res_Ok).

Definition attachment_available_cmd (aid : bytes) : handler :=
  let! o := read (of_db f_atts) (att_get aid) in
  lift (Ok (Res_AttachmentAvailability (match o with
    | Some row => bool_decide (row_direction row = "in" ∧ row_status row = "complete")
    | None => false
    end))).

Definition status_report (row : AttachmentRow) : result AttachmentStatusReport CoreError :=
  let? direction :=
    if decide (row_direction row = "in") then Ok AttIn
    else if decide (row_direction row = "out") then Ok AttOut
    else Err (Core_Storage (Storage_Other ("attachment row has unknown direction: " +:+ row_direction row))) in
  let? state :=
    if decide (row_status row = "pending") then Ok AttPending
    else if decide (row_status row = "complete") then Ok AttComplete
    else if decide (row_status row = "failed") then Ok AttFailed
    else Err (Core_Storage (Storage_Other ("attachment row has unknown status: " +:+ row_status row))) in
  Ok (mkStatusReport direction state).

Definition attachment_status_cmd (aid : bytes) : handler :=
  let! o := read (of_db f_atts) (att_get aid) in
  match o with
  | None => lift (Ok (Res_AttachmentStatus None))
  | Some row =>
      let! report := try_lift (status_report row) in
      lift (Ok (Res_AttachmentStatus (Some report)))
  end.

(** [wired] is whether the daemon has an inbound dispatcher. *)
Definition retry_attachment_cmd (wired : bool) (aid : bytes) : handler :=
  let! o := read (of_db f_atts) (att_get aid) in
  let! row := lift (ok_or o not_found_att) in
  let! _ := ensure (bool_decide (row_direction row = "in" ∧ row_status row = "failed"))
    (bad_argument "only a failed inbound attachment can be retried") in
  let! o := read (of_db f_atts) (peer_for aid) in
  let! peer := lift (ok_or o (bad_argument "attachment has no recorded sender")) in
  let! manifest := try_lift (from_cbor (row_manifest row)) in
  let! won := modify_get (of_db f_atts) (rearm_failed_in aid) in
  let! _ := ensure won (bad_argument "attachment is no longer in a retryable state") in
  let! _ := (if wired then (λ d, (requeue_attachment peer (mkBegin aid manifest) d, Ok tt)) else lift (Ok tt)) in
  let! _ := hand_over (EnsureActor peer) in
  lift (Ok Res_Ok).
End attachment_commands.

(** ** [attachment_janitor.rs] *)

Definition STALL_GRACE : Z := 14 * 24 * 60 * 60.
Definition ORPHAN_GRACE : Z := 60 * 60.

(** [now.duration_since(t)], in seconds. *)
Definition age_of (now : Z) (t : Z) : option Z := if decide (t ≤ now) then Some (now - t) else None.
Definition older_than (grace now : Z) (mtime : option Z) : bool :=
  match mtime with
  | Some t => match age_of now t with Some age => bool_decide (grace < age) | None => false end
  | None => false
  end.

Record JanitorStats : Type := mkStats { stalled : Z; orphans : Z }.

(** Mechanism A: [mtime] is the time of an attachment's directory, if there is one. *)
Definition fail_stalled (mtime : bytes → option Z) (now : Z) (st : daemon * JanitorStats) (pending : bytes * bytes)
    : daemon * JanitorStats :=
  let '(d, stats) := st in
  let aid := pending.1 in
  if older_than STALL_GRACE now (mtime aid) then
    let '(atts, won) := claim_terminal aid Failed (d_atts (dm_db d)) in
    let d := fset (of_db f_atts) atts d in
    if won : bool then
      ((emit (E := unit) (Ev_AttachmentFailed aid "transfer stalled") d).1, mkStats (stalled stats + 1) (orphans stats))
    else (d, stats)
  else (d, stats).

(** An entry of the attachments directory: its name, whether it is a directory, and
    its time; [none] when its metadata cannot be read. *)
Record entry : Type := mkEntry { en_name : string; en_meta : option (bool * option Z); en_removable : bool }.

(** Mechanism B. *)
Definition sweep_orphan (known : list bytes) (now : Z) (st : daemon * JanitorStats) (e : entry) : daemon * JanitorStats :=
  let '(d, stats) := st in
  match hex16_from_str (en_name e) with
  | Err _ => st
  | Ok aid =>
      if decide (aid ∈ known) then st
      else
        match en_meta e with
        | Some (true, mtime) =>
            if older_than ORPHAN_GRACE now mtime && en_removable e
            then (fset f_store (store_remove aid (dm_store d)) d, mkStats (stalled stats) (orphans stats + 1))
            else st
        | _ => st
        end
  end.

(** [entries] is the directory's listing, none when it cannot be read. *)
Definition run_once (mtime : bytes → option Z) (entries : option (list entry)) (now : Z) (d : daemon) : daemon * JanitorStats :=
  let st := foldl (fail_stalled mtime now) (d, mkStats 0 0) (list_pending_in (d_atts (dm_db d))) in
  foldl (sweep_orphan (all_ids (d_atts (dm_db st.1))) now) st (default [] entries).

(** ** The janitor *)

Abbreviation atts d := (d_atts (dm_db d)).

(** The rows the janitor fails. *)
Definition stale (mtime : bytes → option Z) (now : Z) (r : att_row) : Prop :=
  len (at_id r) = 16 ∧ at_direction r = "in" ∧ at_status r = "pending" ∧ older_than STALL_GRACE now (mtime (at_id r)) = true.
#[global] Instance stale_dec mtime now r : Decision (stale mtime now r).
Proof. unfold stale. apply _. Defined.

Lemma att_find_id aid db r : att_find aid db = Some r → at_id r = aid ∧ r ∈ a_rows db.
Proof. intros H%head_Some_elem_of. by apply list_elem_of_filter in H. Qed.
Lemma att_find_row db r : att_wf db → r ∈ a_rows db → att_find (at_id r) db = Some r.
Proof. intros Hwf Hr. unfold att_find. by rewrite (filter_key at_id _ r Hwf Hr). Qed.

Section janitor.
Context (mtime : bytes → option Z) (now : Z).

(** One pending row: it is failed and reported when its directory is old. *)
Lemma fail_stalled_spec d stats p :
  att_wf (atts d) → status_of p.1 (atts d) = Some "pending" →
  let d' := (fail_stalled mtime now (d, stats) p).1 in
  let old := older_than STALL_GRACE now (mtime p.1) in
  att_wf (atts d') ∧ dm_store d' = dm_store d ∧
  dm_events d' = dm_events d ++ (if old then [Ev_AttachmentFailed p.1 "transfer stalled"] else []) ∧
  (∀ a, a ≠ p.1 → att_find a (atts d') = att_find a (atts d)) ∧
  att_find p.1 (atts d') = (λ r, if old then set_at_status "failed" r else r) <$> att_find p.1 (atts d).
Proof using Type.
  intros Hwf Hp. cbn [fail_stalled]. destruct (older_than _ _ _); cbn zeta.
  2: { rewrite app_nil_r. split_and!; [done..|]. by destruct (att_find _ _). }
  unfold claim_terminal. pose proof (update_status_spec p.1 (λ r, at_status r = "pending") (terminal_as_str Failed) (atts d) Hwf) as Hs.
  destruct (update_status _ _ _) as [db' k]. destruct Hs as (Hwf' & -> & Hother & Hself).
  unfold status_of in Hp. destruct (att_find p.1 (atts d)) as [r|] eqn:E; [|done]. injection Hp as Hp.
  rewrite decide_True by done. rewrite bool_decide_true by done. cbn. split_and!; [done..|]. rewrite Hself. cbn. by rewrite decide_True.
Qed.

(** All of them: [l] are pending rows with different ids. *)
Lemma fail_all_spec l d stats :
  att_wf (atts d) → NoDup l.*1 → (∀ p, p ∈ l → status_of p.1 (atts d) = Some "pending") →
  let d' := (foldl (fail_stalled mtime now) (d, stats) l).1 in
  att_wf (atts d') ∧ dm_store d' = dm_store d ∧
  dm_events d' = dm_events d ++ ((λ p : bytes * bytes, Ev_AttachmentFailed p.1 "transfer stalled") <$>
    filter (λ p, older_than STALL_GRACE now (mtime p.1) = true) l) ∧
  ∀ a, att_find a (atts d') =
    (λ r, if decide (a ∈ l.*1 ∧ older_than STALL_GRACE now (mtime a) = true) then set_at_status "failed" r else r)
      <$> att_find a (atts d).
Proof using Type.
  revert d stats. induction l as [|p l IH]; intros d stats Hwf Hn Hp; cbn [foldl].
  { cbn. rewrite app_nil_r. split_and!; [done..|]. intros a. destruct (att_find a (atts d)); [|done]. done. }
  apply NoDup_cons in Hn as [Hpl Hn]. destruct (fail_stalled_spec d stats p Hwf (Hp p (list_elem_of_here _ _))) as (H1 & H2 & H3 & H4 & H5).
  destruct (fail_stalled mtime now (d, stats) p) as [d1 stats1]. cbn [fst] in *.
  destruct (IH d1 stats1 H1 Hn) as (G1 & G2 & G3 & G4).
  { intros q Hq. unfold status_of. rewrite H4; [apply Hp; by right|]. intros E. apply Hpl. rewrite <- E. by apply list_elem_of_fmap_2. }
  split_and!; [done|by rewrite G2| |].
  - rewrite G3, H3, <- app_assoc. f_equal. rewrite filter_cons. by destruct (older_than _ _ _).
  - intros a. rewrite G4. destruct (decide (a = p.1)) as [->|Hne].
    + rewrite H5. destruct (att_find p.1 (atts d)) as [r|]; [|done]. cbn. f_equal. rewrite decide_False by tauto.
      destruct (older_than _ _ _); [by rewrite decide_True by (split; [left|done])|by rewrite decide_False by (by intros [_ ?])].
    + rewrite H4 by done. destruct (att_find a (atts d)) as [r|]; [|done]. cbn. f_equal.
      destruct (decide (a ∈ l.*1 ∧ _)) as [[? ?]|Hno]; [by rewrite decide_True by (split; [by right|done])|].
      rewrite decide_False; [done|]. intros [[?|?]%elem_of_cons ?]; [done|tauto].
Qed.

(** Orphan removal touches no row, no event and no chunk of a known attachment. *)
Lemma sweep_orphans_spec known entries d stats :
  let d' := (foldl (sweep_orphan known now) (d, stats) entries).1 in
  dm_db d' = dm_db d ∧ dm_events d' = dm_events d ∧ ∀ aid i, aid ∈ known → dm_store d' !! (aid, i) = dm_store d !! (aid, i).
Proof using Type.
  revert d stats. induction entries as [|e entries IH]; intros d stats; [done|]. cbn [foldl].
  assert (let d1 := (sweep_orphan known now (d, stats) e).1 in dm_db d1 = dm_db d ∧ dm_events d1 = dm_events d ∧
    ∀ aid i, aid ∈ known → dm_store d1 !! (aid, i) = dm_store d !! (aid, i)) as (H1 & H2 & H3).
  { cbn [sweep_orphan]. destruct (hex16_from_str (en_name e)) as [aid|]; [|done]. case_decide as Hk; [done|].
    destruct (en_meta e) as [[[] t]|]; [|done..]. destruct (older_than _ _ _ && _); [|done]. cbn. split_and!; [done..|].
    intros a i Ha. unfold store_remove. destruct (dm_store d !! (a, i)) as [b|] eqn:E.
    - apply map_lookup_filter_Some_2; [done|]. cbn. by intros ->.
    - apply map_lookup_filter_None_2. by left. }
  destruct (sweep_orphan known now (d, stats) e) as [d1 stats1]. cbn [fst] in *. destruct (IH d1 stats1) as (G1 & G2 & G3).
  split_and!; [by rewrite G1|by rewrite G2|]. intros aid i Ha. rewrite G3 by done. by apply H3.
Qed.
End janitor.

Lemma run_once_spec mtime entries now d :
  att_wf (atts d) →
  let d' := (run_once mtime entries now d).1 in
  (∀ aid, att_find aid (atts d') = (λ r, if decide (stale mtime now r) then set_at_status "failed" r else r) <$> att_find aid (atts d)) ∧
  dm_events d' = dm_events d ++ ((λ r, Ev_AttachmentFailed (at_id r) "transfer stalled") <$> filter (stale mtime now) (a_rows (atts d))) ∧
  ∀ r i, r ∈ a_rows (atts d) → len (at_id r) = 16 → dm_store d' !! (at_id r, i) = dm_store d !! (at_id r, i).
Proof.
  intros Hwf. unfold run_once. set (l := list_pending_in (atts d)).
  assert (∀ a, a ∈ l.*1 ↔ ∃ r, att_find a (atts d) = Some r ∧ len (at_id r) = 16 ∧ at_direction r = "in" ∧ at_status r = "pending") as Hl.
  { intros a. unfold l, list_pending_in. rewrite <- list_fmap_compose, list_elem_of_fmap. split.
    - intros (r & -> & Hr). apply list_elem_of_filter in Hr as [H1 [[H2 H3] Hr]%list_elem_of_filter].
      exists r. split; [by apply att_find_row|done].
    - intros (r & [<- Hr]%att_find_id & H1 & H2 & H3). exists r. split; [done|]. rewrite !list_elem_of_filter. done. }
  assert (NoDup l.*1) as Hn.
  { unfold l, list_pending_in. rewrite <- list_fmap_compose. apply (NoDup_fmap_filter at_id), (NoDup_fmap_filter at_id), Hwf. }
  destruct (fail_all_spec mtime now l d (mkStats 0 0) Hwf Hn) as (H1 & H2 & H3 & H4).
  { intros p Hp. apply (list_elem_of_fmap_2 fst) in Hp. apply Hl in Hp as (r & Hr & _ & _ & Hs). unfold status_of. rewrite Hr. cbn. by rewrite Hs. }
  destruct (foldl (fail_stalled mtime now) (d, mkStats 0 0) l) as [d1 stats1]. cbn [fst] in *.
  destruct (sweep_orphans_spec now (all_ids (atts d1)) (default [] entries) d1 stats1) as (G1 & G2 & G3). split_and!.
  - intros aid. rewrite G1, H4. destruct (att_find aid (atts d)) as [r|] eqn:Er; [|done]. cbn. f_equal.
    pose proof (att_find_id _ _ _ Er) as [Hid _]. destruct (decide (stale mtime now r)) as [(S1 & S2 & S3 & S4)|Hno].
    + rewrite decide_True; [done|]. rewrite Hl. split; [by exists r|by rewrite <- Hid].
    + rewrite decide_False; [done|]. rewrite Hl. intros [(r' & Hr' & S1 & S2 & S3) S4]. rewrite Er in Hr'. injection Hr' as <-.
      apply Hno. split_and!; [done..|]. by rewrite Hid.
  - rewrite G2, H3. f_equal. unfold l, list_pending_in. clear. induction (a_rows (atts d)) as [|r rows IH]; [done|].
    rewrite !filter_cons. destruct (decide (stale mtime now r)) as [(S1 & S2 & S3 & S4)|Hno].
    + rewrite decide_True by done. rewrite filter_cons, decide_True by done. cbn. rewrite decide_True by done. cbn. by f_equal.
    + case_decide as HA; [|exact IH]. rewrite filter_cons. case_decide as HB; [|exact IH]. cbn. rewrite decide_False; [exact IH|].
      intros S4. apply Hno. unfold stale. tauto.
  - intros r i Hr Hlen. rewrite G3; [by rewrite H2|]. unfold all_ids. apply list_elem_of_filter. split; [done|].
    pose proof (H4 (at_id r)) as Hf. rewrite (att_find_row _ _ Hwf Hr) in Hf. apply att_find_id in Hf as [Hid Hin].
    apply list_elem_of_fmap. eexists. split; [symmetry; exact Hid|exact Hin].
Qed.

(** The janitor only fails what stands still.  A pass changes a row exactly when
    it is an inbound transfer that is pending and whose directory is older than 14
    days: it becomes failed, with one event for each.  Completed and outgoing
    attachments are not touched, and no chunk of an attachment with a row is
    removed. *)
Theorem janitor_exact mtime entries now d :
  att_wf (atts d) →
  let d' := (run_once mtime entries now d).1 in
  (∀ aid, att_find aid (atts d') = (λ r, if decide (stale mtime now r) then set_at_status "failed" r else r) <$> att_find aid (atts d)) ∧
  dm_events d' = dm_events d ++ ((λ r, Ev_AttachmentFailed (at_id r) "transfer stalled") <$> filter (stale mtime now) (a_rows (atts d))) ∧
  ∀ r i, r ∈ a_rows (atts d) → len (at_id r) = 16 → dm_store d' !! (at_id r, i) = dm_store d !! (at_id r, i).
Proof. apply run_once_spec. Qed.

(** The janitor undoes a retry.  A failed inbound transfer whose directory has
    not been written for 14 days, as one that the janitor failed itself, can be
    retried: the command succeeds and the transfer is pending again.  The time of
    the directory is still the old one, so unless a chunk arrives before it the
    next hourly pass fails the transfer again. *)
Theorem retry_undone_by_janitor {sha : Sha256} {crypto : AttachmentCrypto} {ser_man : Serialize AttachmentManifest}
    {de_man : Deserialize AttachmentManifest} wired mtime entries now d aid r m peer :
  att_wf (atts d) → att_find aid (atts d) = Some r → len aid = 16 → at_direction r = "in" → at_status r = "failed" →
  at_peer r = Some peer → len peer = 32 → from_cbor (at_manifest r) = Ok m → older_than STALL_GRACE now (mtime aid) = true →
  ∃ d1, retry_attachment_cmd wired aid d = (d1, Ok Res_Ok) ∧ status_of aid (atts d1) = Some "pending" ∧
    let d2 := (run_once mtime entries now d1).1 in
    status_of aid (atts d2) = Some "failed" ∧ Ev_AttachmentFailed aid "transfer stalled" ∈ dm_events d2.
Proof.
  intros Hwf Hr Hlen Hdir Hst Hpeer Hplen Hm Hold.
  pose proof (update_status_spec aid (λ r, at_direction r = "in" ∧ at_status r = "failed") "pending" (atts d) Hwf) as Hs.
  destruct (update_status (λ r, at_id r = aid ∧ at_direction r = "in" ∧ at_status r = "failed") "pending" (atts d)) as [db1 k] eqn:Eu.
  destruct Hs as (Hwf1 & Hk & _ & Hself). rewrite Hr in Hk, Hself. cbn in Hself. rewrite decide_True in Hk by done. rewrite decide_True in Hself by done.
  set (d1 := (hand_over (E := unit) (EnsureActor peer) (if wired then requeue_attachment peer (mkBegin aid m) (fset (of_db f_atts) db1 d)
    else fset (of_db f_atts) db1 d)).1).
  assert (atts d1 = db1) as Ea by (by destruct wired). exists d1. split_and!.
  - unfold retry_attachment_cmd, bind_action, read, ensure, modify_get, try_lift, lift, att_get, peer_for.
    change (fget (of_db f_atts) d) with (atts d). rewrite Hr. cbn [fmap option_fmap option_map ok_or row_direction row_status row_manifest].
    rewrite Hdir, Hst, Hpeer, Hm. rewrite bool_decide_true by done. rewrite decide_True by done. cbn [ok_or map_err].
    unfold rearm_failed_in. rewrite Eu, Hk. by destruct wired.
  - rewrite Ea. unfold status_of. by rewrite Hself.
  - destruct (run_once_spec mtime entries now d1) as (H1 & H2 & _); [by rewrite Ea|].
    assert (stale mtime now (set_at_status "pending" r)) as Hstale.
    { pose proof (att_find_id _ _ _ Hr) as [Hid _]. unfold stale. cbn. by rewrite Hid. }
    split.
    + unfold status_of. rewrite H1, Ea, Hself. cbn. by rewrite decide_True.
    + rewrite H2. apply elem_of_app. right. apply list_elem_of_fmap. exists (set_at_status "pending" r).
      pose proof (att_find_id _ _ _ Hr) as [Hid _]. split; [cbn; by rewrite Hid|]. apply list_elem_of_filter. split; [done|].
      rewrite Ea. destruct (att_find_id _ _ _ Hself) as [_ ?]. done.
Qed.

(** ** Where an attachment is opened *)

Definition is_char (c : Z) : Prop := 0 ≤ c < 1114112.
Definition slash_char : Ascii.ascii := Ascii.ascii_of_nat 47.

Lemma utf8_char_no_slash c : is_char c → keep_char c = true → Forall (λ n, 0 ≤ n < 256 ∧ n ≠ 47) (utf8_char c).
Proof.
  intros Hc Hk. assert (c ≠ 47) as Hne by (intros ->; by vm_compute in Hk). unfold is_char in Hc. unfold utf8_char.
  repeat case_decide; repeat constructor; Z.div_mod_to_equations; lia.
Qed.

Lemma bytes_no_slash l : Forall (λ n, 0 ≤ n < 256 ∧ n ≠ 47) l → without slash_char (String.string_of_list_byte (byte_of_Z <$> l)) = true.
Proof.
  induction 1 as [|n l [Hn Hne] _ IH]; [done|].
  change (negb (bool_decide (Ascii.ascii_of_byte (byte_of_Z n) = slash_char)) &&
    without slash_char (String.string_of_list_byte (byte_of_Z <$> l)) = true). rewrite IH, andb_true_r. apply negb_true_iff, bool_decide_eq_false. intros E.
  apply (f_equal Ascii.byte_of_ascii) in E. rewrite Ascii.byte_of_ascii_of_byte in E. cbn in E.
  apply (f_equal Z_of_byte) in E. rewrite Z_of_byte_of_Z, Z.mod_small in E by lia. vm_compute in E. lia.
Qed.

Lemma sanitized_chars name : Forall is_char name → Forall is_char (sanitize_received name).
Proof.
  intros Hall. unfold sanitize_received. apply Forall_take. case_decide.
  - replace (chars_of "file") with [102; 105; 108; 101] by (vm_compute; reflexivity). repeat constructor; unfold is_char; lia.
  - apply Forall_forall. intros c Hc%trim_by_sub%trim_by_sub. apply list_elem_of_filter in Hc as [_ Hc].
    rewrite Forall_forall in Hall. apply Hall. unfold last_segment in Hc. rewrite elem_of_reverse in Hc.
    rewrite <- elem_of_reverse. revert Hc. generalize (reverse name). intros l. induction l as [|x l IH]; [done|]. cbn.
    destruct (negb (is_separator x)); [|by intros ?%not_elem_of_nil]. rewrite !elem_of_cons. intros [->|Hc]; auto.
Qed.

(** A name that stays in its directory: not empty, no separator, not hidden and
    so neither [.] nor [..]. *)
Definition plain_name (s : string) : Prop :=
  without slash_char s = true ∧ ∃ c rest, s = String.String c rest ∧ c ≠ Ascii.ascii_of_nat 46.

Lemma opened_name_plain m : Forall is_char (filename m) → plain_name (utf8_string (sanitize_received (filename m))).
Proof.
  intros Hc. destruct (received_filename (filename m)) as (Hl & Hk & Hd). pose proof (sanitized_chars _ Hc) as Hs.
  assert (Forall (λ n, 0 ≤ n < 256 ∧ n ≠ 47) (concat (utf8_char <$> sanitize_received (filename m)))) as Hb.
  { apply Forall_concat, Forall_fmap. rewrite Forall_forall in *. intros c Hin. apply utf8_char_no_slash; auto. }
  split; [by apply bytes_no_slash|]. destruct (sanitize_received (filename m)) as [|c l]; [unfold len in Hl; cbn in Hl; lia|].
  assert (∃ n r, utf8_char c = n :: r ∧ n ≠ 46) as (n & r & E & Hn).
  { inversion_clear Hs as [|?? [Hc0 _]]. unfold utf8_char. repeat case_decide; eexists _, _; (split; [reflexivity|]);
      [by intros ->|Z.div_mod_to_equations; lia..]. }
  unfold utf8_string in *. rewrite fmap_cons in *. cbn [concat] in *. rewrite E in *. eexists _, _. split; [reflexivity|].
  intros Ed. inversion_clear Hb as [|?? [Hr _]]. apply (f_equal Ascii.byte_of_ascii) in Ed.
  rewrite Ascii.byte_of_ascii_of_byte in Ed. apply (f_equal Z_of_byte) in Ed.
  rewrite Z_of_byte_of_Z, Z.mod_small in Ed by lia. vm_compute in Ed. lia.
Qed.

(** C32: opening an attachment writes nothing outside its own directory.  Whatever
    name the sender gave the file and whichever operation fails, the only files that
    change are one file of [cache/open/<id>] whose name is not empty, has no
    separator and does not start with a dot, and its temporary file; a reply names
    that file. *)
Theorem open_attachment_confined {sha : Sha256} {crypto : AttachmentCrypto} {de_man : Deserialize AttachmentManifest}
    data_dir mkdir faults pid seq d aid fs fs' r :
  (∀ row m, att_get aid (atts d) = Some row → from_cbor (row_manifest row) = Ok m → Forall is_char (filename m)) →
  open_attachment_cmd data_dir mkdir faults pid seq d aid fs = (fs', r) →
  ∃ name, let out := open_dir data_dir aid +:+ "/" +:+ name in
    plain_name name ∧ (∀ p, p ≠ out → p ≠ temp_path out pid seq → fs' !! p = fs !! p) ∧
    (∀ res, r = Ok res → res = Res_AttachmentDecrypted out).
Proof.
  intros Hchars E. unfold open_attachment_cmd, bind_action at 1, lift at 1 in E.
  destruct (att_get aid (atts d)) as [row|] eqn:Er; [|injection E as <- <-; exists "file"; split; [by split; [|by eexists _, _]|done]].
  cbn [ok_or] in E. unfold bind_action at 1, lift at 1 in E.
  destruct (from_cbor (row_manifest row)) as [m|e] eqn:Em; [|injection E as <- <-; exists "file"; split; [by split; [|by eexists _, _]|done]].
  cbn [map_err] in E. exists (utf8_string (sanitize_received (filename m))). cbv zeta.
  split; [by eapply opened_name_plain, Hchars|]. change (open_dir data_dir aid +:+ "/" +:+ utf8_string (sanitize_received (filename m)))
    with (open_path data_dir aid m). set (out := open_path data_dir aid m) in *. unfold bind_action at 1 in E.
  assert (∀ p, p ≠ out → p ≠ temp_path out pid seq →
    (decrypt_attachment_to mkdir faults pid seq d aid out fs).1 !! p = fs !! p) as Hd.
  { intros p Hp Ht. unfold decrypt_attachment_to, bind_action, lift, ensure. rewrite Er. cbn [ok_or].
    destruct (bool_decide _); [|done]. rewrite Em. cbn [map_err]. destruct mkdir; [done|]. unfold map_error.
    destruct (reassemble faults pid seq m (store_source (dm_store d) aid) out fs) as [fs1 r1] eqn:Ea.
    apply reassemble_files in Ea as (_ & _ & Ha). by apply Ha. }
  destruct (decrypt_attachment_to _ _ _ _ _ _ _ fs) as [fs1 [[]|e]]; cbn in Hd; injection E as <- <-; (split; [done|]).
  - by intros res [= <-].
  - done.
Qed.

(** ** Witnesses *)

Module JanitorSamples.
#[export] Instance hashless : Sha256 := λ b, b.
#[export] Existing Instance toy_crypto.
Definition aid0 : bytes := fill 16 Byte.x01.
Definition manifest0 : AttachmentManifest := mkManifest MANIFEST_VERSION aid0 (chars_of "a.txt") (chars_of "text/plain") 0 CHUNK_SIZE (fill 32 Byte.x00) [].
#[export] Instance manifest_ser : Serialize AttachmentManifest := λ _, Ok [Byte.x00].
#[export] Instance manifest_de : Deserialize AttachmentManifest := λ _, Ok manifest0.
Definition failed_row : att_row := mkAttRow aid0 "in" [Byte.x00] 0 "failed" 0 (Some (fill 32 Byte.x02)).
Definition done_row : att_row := mkAttRow (fill 16 Byte.x03) "in" [Byte.x00] 0 "complete" 0 (Some (fill 32 Byte.x02)).
Definition stale_row : att_row := mkAttRow (fill 16 Byte.x04) "in" [Byte.x00] 0 "pending" 0 (Some (fill 32 Byte.x02)).
Definition desk : daemon := start (fset f_atts (mkAttDb [failed_row; done_row; stale_row] [] []) empty_db).
Definition old_dirs (_ : bytes) : option Z := Some 0.
End JanitorSamples.
Import JanitorSamples.

Lemma janitor_exact_witness :
  let d' := (run_once old_dirs None (15 * 86400) desk).1 in
  at_status <$> att_find (fill 16 Byte.x03) (atts d') = Some "complete" ∧
  at_status <$> att_find (fill 16 Byte.x04) (atts d') = Some "failed".
Proof.
  intros d'. destruct (janitor_exact old_dirs None (15 * 86400) desk) as (H & _);
    [apply (bool_decide_unpack _); vm_compute; reflexivity|].
  split; (etransitivity; [apply f_equal, H|vm_compute; reflexivity]).
Defined.

Lemma retry_undone_by_janitor_witness :
  ∃ d1, retry_attachment_cmd true aid0 desk = (d1, Ok Res_Ok) ∧ status_of aid0 (atts d1) = Some "pending" ∧
    let d2 := (run_once old_dirs None (15 * 86400) d1).1 in
    status_of aid0 (atts d2) = Some "failed" ∧ Ev_AttachmentFailed aid0 "transfer stalled" ∈ dm_events d2.
Proof.
  apply (retry_undone_by_janitor true old_dirs None (15 * 86400) desk aid0 failed_row manifest0 (fill 32 Byte.x02));
    [apply (bool_decide_unpack _); vm_compute; reflexivity|vm_compute; reflexivity..].
Defined.

Lemma open_attachment_confined_witness :
  ∃ name, let out := open_dir "/d" (fill 16 Byte.x03) +:+ "/" +:+ name in
    plain_name name ∧
    (∀ p, p ≠ out → p ≠ temp_path out 1 2 →
      (open_attachment_cmd "/d" None (λ _, None) 1 2 desk (fill 16 Byte.x03) ∅).1 !! p = (∅ : out_files) !! p) ∧
    (open_attachment_cmd "/d" None (λ _, None) 1 2 desk (fill 16 Byte.x03) ∅).2 = Ok (Res_AttachmentDecrypted out).
Proof.
  edestruct (λ H, open_attachment_confined "/d" None (λ _, None) 1 2 desk (fill 16 Byte.x03) ∅ _ _ H (surjective_pairing _))
    as (name & Hp & Hf & Hr).
  - intros row m _ [= <-]. change (filename manifest0) with (chars_of "a.txt").
    replace (chars_of "a.txt") with [97; 46; 116; 120; 116] by (vm_compute; reflexivity). repeat constructor; unfold is_char; lia.
  - exists name. split_and!; [done..|].
    assert (∃ res, (open_attachment_cmd "/d" None (λ _, None) 1 2 desk (fill 16 Byte.x03) ∅).2 = Ok res) as [res E]
      by (eexists; vm_compute; reflexivity).
    pose proof E as E'. apply Hr in E' as ->. exact E.
Defined.
