(* ===== verification/Host.v ===== *)
(** * Host: the commands on the process and its files

    [crates/core/src/daemon/dispatch.rs]: [get_config], [set_config],
    [get_passphrase_audit_latest], [tail_logs], [change_passphrase],
    [export_backup_cmd] and [wipe_all_data]; [daemon/handle.rs]: [signal_wipe] and
    [take_wipe_target]; [storage/passphrase_audit.rs]; and the hourly tick of
    [daemon/retention.rs].  A host is the daemon's state with its configuration,
    its log and the files of its data directory.  The database is the state of
    [Daemon]; its file is only seen by the snapshot of a backup. *)

From S2P Require Import Prelude Text Hex Framing CoreErrors Sql MailboxProtocol Identity Contacts Messages Receiver Attachments AttachmentRepo.
From S2P Require Import ChunkTransfer Mls Invites FirstContact Mailboxes Api Daemon ContactCommands Inbound.
From S2P Require Import Disk Pool PoolProps Vault Config Logs AttachmentCommands.

(** ** [passphrase_audit.rs] *)

Inductive AuditOutcome : Type := Changed | RolledBack | Recovered.
Definition audit_as_str (o : AuditOutcome) : string :=
  match o with Changed => "changed" | RolledBack => "rolled_back" | Recovered => "recovered" end.

(** The rows, oldest first: the time and the outcome. *)
Definition audit_append (ts_unix : Z) (outcome : AuditOutcome) (l : list (Z * string)) : list (Z * string) :=
  l ++ [(ts_unix, audit_as_str outcome)].
Definition latest_ts (l : list (Z * string)) : option Z := fst <$> last l.

(** ** The host *)

Record host : Type := mkHost {
  h_daemon : daemon;
  h_session : session;
  h_config : Config;
  h_audit : list (Z * string);
  h_logs : LogSink;
  h_export_seq : Z;
  h_wipe : option string;
  h_opened : gmap string bytes
}.

Definition f_daemon : field host daemon := mkField h_daemon (λ x h,
  mkHost x (h_session h) (h_config h) (h_audit h) (h_logs h) (h_export_seq h) (h_wipe h) (h_opened h)).
Definition f_session : field host session := mkField h_session (λ x h,
  mkHost (h_daemon h) x (h_config h) (h_audit h) (h_logs h) (h_export_seq h) (h_wipe h) (h_opened h)).
Definition f_config : field host Config := mkField h_config (λ x h,
  mkHost (h_daemon h) (h_session h) x (h_audit h) (h_logs h) (h_export_seq h) (h_wipe h) (h_opened h)).
Definition f_audit : field host (list (Z * string)) := mkField h_audit (λ x h,
  mkHost (h_daemon h) (h_session h) (h_config h) x (h_logs h) (h_export_seq h) (h_wipe h) (h_opened h)).
Definition f_export_seq : field host Z := mkField h_export_seq (λ x h,
  mkHost (h_daemon h) (h_session h) (h_config h) (h_audit h) (h_logs h) x (h_wipe h) (h_opened h)).
Definition f_wipe : field host (option string) := mkField h_wipe (λ x h,
  mkHost (h_daemon h) (h_session h) (h_config h) (h_audit h) (h_logs h) (h_export_seq h) x (h_opened h)).
Definition f_opened : field host (gmap string bytes) := mkField h_opened (λ x h,
  mkHost (h_daemon h) (h_session h) (h_config h) (h_audit h) (h_logs h) (h_export_seq h) (h_wipe h) x).

(** The files, from the host. *)
Definition f_files : field host disk :=
  mkField (λ h, se_disk (h_session h)) (λ x h, fset f_session (fset f_disk x (h_session h)) h).

Abbreviation host_action T := (action host T (stop handler_failure)).
Abbreviation host_handler := (host_action CommandResult).

(** A handler of the daemon's state. *)
Definition in_daemon {T} (c : action daemon T handler_failure) : host_action T := map_error Failed (on f_daemon c).
Definition refuse {T} (e : handler_failure) : host_action T := lift (Err (Failed e)).
Definition answer (r : CommandResult) : host_handler := lift (Ok r).

Class Zxcvbn : Type := zxcvbn_score : string → Z.

(** ** Wiping *)

Definition signal_wipe (dir : string) (h : host) : host :=
  match h_wipe h with None => fset f_wipe (Some dir) h | Some _ => h end.
Definition take_wipe_target (h : host) : host * option string := (fset f_wipe None h, h_wipe h).

Definition wipe_all_data : host_handler :=
  let! dir := gets (λ h, data_dir (h_config h)) in
  let! _ := update (signal_wipe dir) in
  answer Res_Ok.

(** ** Configuration, log and audit *)

Definition get_config : host_handler :=
  let! c := read f_config id in answer (Res_Config (config_snapshot c)).

(** [u64] from an [i64] with [as]. *)
Definition as_u64 (z : Z) : Z := z mod 2 ^ 64.

Definition get_passphrase_audit_latest : host_handler :=
  let! ts := read f_audit latest_ts in
  answer (Res_PassphraseAudit (as_u64 <$> ts)).

Definition tail_logs (since_seq : option Z) (max : Z) : host_handler := λ h,
  let '(records, next) := log_snapshot since_seq max (h_logs h) in (h, Ok (Res_Logs records next)).

Section config_command.
Context {toml : Toml}.

(** The configuration is patched in memory, then written to [config_path]. *)
Definition set_config (config_path : path) (patch : ConfigPatch) : host_handler :=
  let! _ := map_error (λ e, Failed (bad_argument (display e))) (on f_config (apply_patch patch)) in
  let! cfg := read f_config id in
  let! _ := map_stop (λ e, bad_argument ("save_to_disk: " +:+ display e)) (on f_files (save_to_disk config_path cfg)) in
  answer Res_Ok.
End config_command.

(** ** The passphrase *)

Section passphrase.
Context {vc : VaultCrypto} {ser : Serialize VaultFile} {de : Deserialize VaultFile} {zx : Zxcvbn}.

(** [salt] and [nonce] are the random bytes of the new vault file. *)
Definition change_passphrase (salt nonce : bytes) (now : Z) (old new : string) : host_handler :=
  let! _ := ensure (8 <=? Z.of_nat (String.length new)) (Failed (bad_argument "new passphrase must be at least 8 characters")) in
  let! _ := ensure (3 <=? zxcvbn_score new) (Failed (bad_argument "new passphrase too weak (zxcvbn score < 3)")) in
  let! _ := ensure (bool_decide (old ≠ new)) (Failed (bad_argument "new passphrase must differ from current")) in
  let! dir := gets (λ h, data_dir (h_config h)) in
  let vault_path := join_path dir "identity.vault" in
  let! _ := map_stop (λ _, daemon_error Daemon_Unauthorized) (on f_files (vault_open vault_path old)) in
  let! _ := map_stop reply (on f_files (vault_change_passphrase salt nonce vault_path old new)) in
  let! _ := modify f_audit (audit_append now Changed) in
  answer Res_PassphraseChanged.
End passphrase.

(** ** Backups *)

Section backup.
Context {D : Type} {sq : Sqlite D} {age : Age} {ar : Archive} {crypto : AttachmentCrypto}.

Definition temp_snapshot (dir : string) (seq : Z) : path := join_path dir ("skattr.sqlite.backup." +:+ pretty seq +:+ ".age").

(** [PathBuf::from]: the directory and the file name, relative to the working
    directory if there is no separator. *)
Definition path_of (s : string) : path :=
  match List.rev (split_on (Ascii.ascii_of_nat 47) s) with
  | name :: (_ :: _) as all => (String.concat "/" (List.rev (tail all)), name)
  | _ => (".", s)
  end.

(** The result of the export, before the snapshot is removed. *)
Definition run_export (rng1 rng2 : bytes) (p : Pool) (dir : string) (db_age dest : path) (backup_key : bytes) : host_action unit :=
  let! _ := map_stop reply (on f_session (snapshot_encrypted rng1 p db_age)) in
  map_stop reply (on f_files (export_backup_from_parts rng2 dir db_age dest backup_key)).

(** What the cleanup of a written backup answers. *)
Definition cleanup_reply (dest_path : string) (cleanup : result unit (stop io_error)) : result CommandResult (stop handler_failure) :=
  match cleanup with
  | Err Crashed => Err Crashed
  | Err (Failed e) =>
      if io_not_found e then Ok Res_Ok
      else Err (Failed (Reply (Ipc_Internal ("backup written to " +:+ dest_path +:+ " but temp snapshot cleanup failed: " +:+ io_text e))))
  | Ok _ => Ok Res_Ok
  end.

Definition export_backup_cmd (rng1 rng2 : bytes) (p : Pool) (backup_key : option bytes) (dest_path : string) : host_handler :=
  let! key := lift (ok_or backup_key (Failed (bad_argument "backup key not initialized"))) in
  let! dir := gets (λ h, data_dir (h_config h)) in
  let! seq := read f_export_seq id in
  let! _ := modify f_export_seq (λ n, (n + 1) mod 2 ^ 64) in
  let db_age := temp_snapshot dir seq in
  λ h, match run_export rng1 rng2 p dir db_age (path_of dest_path) key h with
    | (h', Err Crashed) => (h', Err Crashed)
    | (h', outcome) =>
        let '(h'', cleanup) := on f_files (fs_remove db_age) h' in
        match outcome, cleanup with
        | _, Err Crashed => (h'', Err Crashed)
        | Err e, _ => (h'', Err e)
        | Ok _, _ => (h'', cleanup_reply dest_path cleanup)
        end
    end.
End backup.

(** ** The retention sweep *)

Definition i64_min : Z := - 2 ^ 63.
Definition saturate (z : Z) : Z := Z.max i64_min (Z.min i64_max z).
Definition saturating_sub (a b : Z) : Z := saturate (a - b).
Definition saturating_mul (a b : Z) : Z := saturate (a * b).

Definition cutoff (now days : Z) : Z := saturating_sub now (saturating_mul days 86400).

(** One tick of [spawn_sweep]: [mtime] and [entries] are what the janitor sees. *)
Definition retention_tick (mtime : bytes → option Z) (entries : option (list entry)) (now : Z) (h : host) : host :=
  let days := retention_days (history (h_config h)) in
  let d := h_daemon h in
  let d := if decide (days ≠ 0) then (modify_get (E := unit) (of_db f_messages) (prune_before None (cutoff now days)) d).1 else d in
  let d := (modify_get (E := unit) (of_db f_invites) (oi_purge_expired now) d).1 in
  fset f_daemon (run_once mtime entries now d).1 h.
