(* ===== verification/HostProps.v ===== *)
(** * HostProps: configuration changes and their effects

    That the configuration file is replaced or kept under any failure, that what a
    successful [SetConfig] wrote loads as the configuration in use, and that a
    [SetConfig] that was refused can still delete messages. *)

From S2P Require Import Prelude Text Framing CoreErrors Sql Identity Contacts Messages Receiver Attachments AttachmentRepo.
From S2P Require Import Mls Invites Mailboxes Api Daemon ContactCommands Disk Pool Config Logs AttachmentCommands Host.

(** ** Saving the configuration *)

Section save.
Context {toml : Toml} {laws : TomlLaws}.
Context (p : path).
Let tmp : path := with_extension "toml.tmp" p.
Context (apart : p ≠ tmp).

(** What [save_to_disk] may touch. *)
Definition elsewhere_same (m0 m : tree) : Prop := ∀ q, q ≠ p → q ≠ tmp → m !! q = m0 !! q.

(** The file after an attempt to replace its contents by [b]. *)
Definition old_or_new (m0 : tree) (b : option bytes) (m : tree) : Prop :=
  elsewhere_same m0 m ∧ (m !! p = m0 !! p ∨ is_Some b ∧ m !! p = b).

Lemma same_insert_tmp m0 m x :
  elsewhere_same m0 m ∧ m !! p = m0 !! p → elsewhere_same m0 (<[tmp := x]> m) ∧ <[tmp := x]> m !! p = m0 !! p.
Proof using apart.
  intros [He Hp]. split; [intros q ? ?; rewrite lookup_insert_ne by done; by apply He|]. by rewrite lookup_insert_ne.
Qed.

Lemma leads_save (m0 : tree) c :
  let b := match to_string_pretty c with Ok b => Some b | Err _ => None end in
  leads (λ m, elsewhere_same m0 m ∧ m !! p = m0 !! p) (save_to_disk p c)
    (λ _ m, elsewhere_same m0 m ∧ is_Some b ∧ m !! p = b) (old_or_new m0 b).
Proof using apart.
  intros b. set (P := λ m, elsewhere_same m0 m ∧ m !! p = m0 !! p).
  assert (∀ m, P m → old_or_new m0 b m) as HPF by (intros m [? ?]; split; auto).
  unfold save_to_disk. fold tmp. eapply (leads_bind _ _ (λ t m, b = Some t ∧ P m)).
  { apply leads_lift; [|done]. intros t m E Hm. split; [|done]. unfold b. destruct (to_string_pretty c); [|done]. by injection E as ->. }
  intros t. eapply (leads_bind _ _ (λ _ m, b = Some t ∧ P m ∧ m !! tmp = Some [])).
  { apply leads_map_stop, leads_create; [intros m [_ ?]; by apply HPF|]. intros m [? ?].
    rewrite lookup_insert_eq. split_and!; [done|by apply same_insert_tmp|done]. }
  intros []. eapply leads_bind; [apply leads_map_stop, leads_other; intros m (_ & ? & _); by apply HPF|].
  intros []. eapply leads_bind; [apply leads_map_stop, leads_other; intros m (_ & ? & _); by apply HPF|].
  intros []. eapply (leads_bind _ _ (λ _ m, b = Some t ∧ P m ∧ m !! tmp = Some t)).
  { apply leads_map_stop, leads_append; unfold appended.
    - intros m n (_ & ? & _). by apply HPF, same_insert_tmp.
    - intros m (? & ? & Ht). rewrite lookup_insert_eq, Ht. split_and!; [done|by apply same_insert_tmp|done]. }
  intros []. eapply leads_bind; [apply leads_map_stop, leads_other; intros m (_ & ? & _); by apply HPF|].
  assert (∀ m, elsewhere_same m0 m ∧ is_Some b ∧ m !! p = b → old_or_new m0 b m) as HF by (intros m (? & ? & ?); split; auto).
  intros []. eapply (leads_bind _ _ (λ _ m, elsewhere_same m0 m ∧ is_Some b ∧ m !! p = b)).
  { apply leads_map_stop, leads_rename; [intros m (_ & ? & _); by apply HPF|]. intros m x (Hb & [He _] & Ht) Hx.
    rewrite Ht in Hx. injection Hx as <-. rewrite lookup_insert_eq. split_and!; [|by rewrite Hb|done]. intros q ? ?.
    rewrite lookup_insert_ne, lookup_delete_ne by done. by apply He. }
  intros []. eapply (leads_post _ _ (λ _ m, elsewhere_same m0 m ∧ is_Some b ∧ m !! p = b)); [done|exact HF|].
  apply leads_attempt; [|done]. eapply leads_bind; [by apply leads_other|]. intros []. by apply leads_other.
Qed.

(** What was saved loads again. *)
Lemma saved_loads c b m : to_string_pretty c = Ok b → m !! p = Some b → (config_load p (mkDisk m [])).2 = Ok c.
Proof using laws.
  intros Hb Hm. destruct (law_toml c b Hb) as [Hv Hs].
  unfold config_load, read_to_string, io_err, map_stop, bind_action, fs_read, syscall, ensure, lift, lib_err. cbn [plan files].
  by rewrite Hm, Hv, Hs.
Qed.

(** Changing the configuration is safe under any failure.  Wherever
    [SetConfig] fails and wherever the process dies in it, the configuration file
    holds its old contents or the whole new ones, and no other file but the
    temporary one has changed.  If it answers [Ok], the file loads as the
    configuration that is in use. *)
Theorem set_config_atomic patch h h' r :
  set_config p patch h = (h', r) →
  let m := files (se_disk (h_session h)) in let m' := files (se_disk (h_session h')) in
  elsewhere_same m m' ∧ h_daemon h' = h_daemon h ∧
  (m' !! p = m !! p ∨ ∃ b, to_string_pretty (h_config h') = Ok b ∧ m' !! p = Some b) ∧
  (r = Ok Res_Ok → (config_load p (mkDisk m' [])).2 = Ok (h_config h')) ∧ (∀ res, r = Ok res → res = Res_Ok).
Proof using apart laws.
  destruct h as [d [disk conn] cfg au lg seq w op]. unfold set_config, bind_action, map_error, on, read.
  cbn [fget fset f_config h_config h_session se_disk]. destruct (apply_patch patch cfg) as [cfg' [[]|e]] eqn:Ep; cycle 1.
  { intros [= <- <-]. cbn. split_and!; [by intros ?|done|by left|done..]. }
  unfold map_stop. cbn [f_files fget fset f_session f_disk h_session se_disk se_conn h_config id].
  pose proof (leads_save (files disk) cfg' disk) as H. cbv zeta in H.
  destruct (save_to_disk p cfg' disk) as [disk' res] eqn:Es. cbn [fst snd] in H.
  destruct (to_string_pretty cfg') as [b|e'] eqn:Eb.
  - destruct res as [[]|[e|]]; intros [= <- <-]; cbn; destruct H as (H1 & H2); try (by split).
    + destruct H2 as (_ & H2). split_and!; [done..|right; eauto| |by intros res [= <-]]. intros _. by eapply saved_loads.
    + split_and!; [done..| |done|done]. destruct H2 as [?|[_ ?]]; [by left|right; eauto].
    + split_and!; [done..| |done|done]. destruct H2 as [?|[_ ?]]; [by left|right; eauto].
  - destruct res as [[]|[e|]]; intros [= <- <-]; cbn; destruct H as (H1 & H2); try (by split).
    + by destruct H2 as [[]%is_Some_None _].
    + split_and!; [done..| |done|done]. destruct H2 as [?|[[]%is_Some_None _]]. by left.
    + split_and!; [done..| |done|done]. destruct H2 as [?|[[]%is_Some_None _]]. by left.
Qed.
End save.

(** ** The retention sweep *)

(** The messages of a host's history. *)
Definition history_rows (h : host) : list message_row := t_rows (messages (rd_messages (d_recv (dm_db (h_daemon h))))).

(** The janitor changes no table but that of the attachments. *)
Lemma run_once_db mtime entries now d : ∃ a, dm_db (run_once mtime entries now d).1 = fset f_atts a (dm_db d).
Proof.
  unfold run_once. set (l := list_pending_in _). clearbody l.
  assert (∀ stats, ∃ a, dm_db (foldl (fail_stalled mtime now) (d, stats) l).1 = fset f_atts a (dm_db d)) as H.
  { revert d. induction l as [|q l IH]; intros d stats; [by exists (d_atts (dm_db d)); destruct d as [[]]|]. cbn [foldl].
    unfold fail_stalled at 2. destruct (older_than _ _ _); [|by apply IH]. destruct (claim_terminal _ _ _) as [a []].
    - destruct (IH (emit (E := unit) (Ev_AttachmentFailed q.1 "transfer stalled") (fset (of_db f_atts) a d)).1
        (mkStats (stalled stats + 1) (orphans stats))) as [a' ->]. by exists a'.
    - destruct (IH (fset (of_db f_atts) a d) stats) as [a' ->]. by exists a'. }
  destruct (H (mkStats 0 0)) as [a Ha]. exists a. rewrite <- Ha. generalize (foldl (fail_stalled mtime now) (d, mkStats 0 0) l).
  intros st. generalize (all_ids (d_atts (dm_db st.1))). intros known. revert st.
  induction (default [] entries) as [|e es IH]; intros st; [done|]. cbn [foldl]. rewrite IH. destruct st as [d1 stats].
  unfold sweep_orphan. repeat case_match; done.
Qed.

(** A tick keeps the messages the configured days allow. *)
Lemma retention_tick_rows mtime entries now h r :
  r ∈ history_rows (retention_tick mtime entries now h) ↔
  r ∈ history_rows h ∧ (retention_days (history (h_config h)) ≠ 0 → cutoff now (retention_days (history (h_config h))) ≤ m_ts_daemon_recv r).
Proof.
  unfold retention_tick, history_rows, modify_get. cbn [f_daemon fset h_daemon fst].
  match goal with |- context [run_once mtime entries now ?x] => destruct (run_once_db mtime entries now x) as [a ->] end.
  destruct (oi_purge_expired _ _) as [inv n]. case_decide as Hd.
  - cbn. rewrite list_elem_of_filter. split; [intros [? ?]; split; [done|intros _; lia]|]. intros [? Hc]. split; [|done].
    specialize (Hc Hd). lia.
  - cbn. split; [done|]. by intros [? _].
Qed.

(** C38: a refused change of the configuration still deletes messages.  A
    [SetConfig] with a number of days to keep and a timeout that is out of range is
    answered with an error and nothing is written to the file, but the days are
    already changed in memory: the next hourly sweep deletes the messages that are
    older. *)
Theorem rejected_config_prunes {toml : Toml} p patch days t mtime entries now h :
  cp_history_retention_days patch = Some days → days ≠ 0 → cp_direct_timeout_secs patch = Some t → ¬ 1 ≤ t ≤ 600 →
  ∃ h' msg, set_config p patch h = (h', Err (Failed (bad_argument msg))) ∧
    h_session h' = h_session h ∧ h_daemon h' = h_daemon h ∧
    ∀ r, r ∈ history_rows (retention_tick mtime entries now h') ↔ r ∈ history_rows h ∧ cutoff now days ≤ m_ts_daemon_recv r.
Proof.
  intros Hd Hn Ht Hr. unfold set_config, apply_patch, bind_action at 1, map_error, on. rewrite Hd, Ht. cbn [when].
  unfold bind_action, update, ensure.
  assert ((1 <=? t) && (t <=? 600) = false) as -> by (apply andb_false_iff; rewrite !Z.leb_gt; lia).
  eexists _, _. split_and!; [reflexivity|done..|]. intros r. rewrite retention_tick_rows. cbn. naive_solver.
Qed.

(** ** Witnesses *)

Module HostSamples.
#[export] Instance mode_dec : EqDecision NotificationMode.
Proof. solve_decision. Defined.
#[export] Instance history_dec : EqDecision HistoryConfig.
Proof. solve_decision. Defined.
#[export] Instance delivery_dec : EqDecision DeliveryConfig.
Proof. solve_decision. Defined.
#[export] Instance notifications_dec : EqDecision NotificationsConfig.
Proof. solve_decision. Defined.
#[export] Instance ui_dec : EqDecision UiConfig.
Proof. solve_decision. Defined.
#[export] Instance config_dec : EqDecision Config.
Proof. solve_decision. Defined.

Definition config_file : path := ("/etc/skattr", "config.toml").
Definition in_use : Config := config_at "/home/skattr".
Definition patched : Config := with_history (mkHistoryConfig 7) in_use.
Definition keep_days (days : Z) (timeout : option Z) : ConfigPatch := mkConfigPatch (Some days) timeout None None None None None.

(** TOML of one configuration. *)
#[export] Instance toy_toml : Toml := {
  to_string_pretty c := if decide (c = patched) then Ok [Byte.x37] else Err "unsupported";
  from_str b := if decide (b = [Byte.x37]) then Ok patched else Err "expected 7"
}.
#[export] Instance toy_toml_laws : TomlLaws.
Proof. intros c b. cbn. case_decide; [|done]. intros [= <-]. by subst. Qed.

(** A host with three messages of second 1000 and a disk whose operations follow
    [plan]. *)
Definition sample_host (plan : list fault) : host :=
  mkHost (start (fset f_messages sample_messages empty_db)) (mkSession (mkDisk {[config_file := [Byte.x30]]} plan) true)
    in_use [] log_sink_new 0 None ∅.
End HostSamples.
Import HostSamples.

Lemma set_config_atomic_witness :
  let after := (set_config config_file (keep_days 7 None) (sample_host [])).1 in
  let torn := (set_config config_file (keep_days 7 None) (sample_host [Fine; Fine; Fine; Dies 0])).1 in
  (config_load config_file (mkDisk (files (se_disk (h_session after))) [])).2 = Ok patched ∧
  files (se_disk (h_session torn)) !! config_file = Some [Byte.x30].
Proof.
  intros after torn.
  destruct (set_config_atomic config_file ltac:(by vm_compute) (keep_days 7 None) (sample_host []) _ _ (surjective_pairing _))
    as (_ & _ & _ & H & _).
  split; [|vm_compute; reflexivity]. etransitivity; [apply H|]; vm_compute; reflexivity.
Defined.

Lemma rejected_config_prunes_witness :
  ∃ h' msg, set_config config_file (keep_days 1 (Some 0)) (sample_host []) = (h', Err (Failed (bad_argument msg))) ∧
    h_session h' = h_session (sample_host []) ∧ history_rows (sample_host []) ≠ [] ∧
    history_rows (retention_tick (λ _, None) None 200000 h') = [].
Proof.
  destruct (rejected_config_prunes config_file (keep_days 1 (Some 0)) 1 0 (λ _, None) None 200000 (sample_host []))
    as (h' & msg & E & Hs & _ & Hr); [done|done|done|lia|].
  exists h', msg. split_and!; [done..|by vm_compute|]. apply elem_of_nil_inv.
  intros r Hin. apply Hr in Hin as [Hin Hc]. revert r Hin Hc.
  apply (Forall_forall (λ r, cutoff 200000 1 ≤ m_ts_daemon_recv r → False)). vm_compute. repeat constructor; intros H; by apply H.
Defined.
