(* ===== verification/Execute.v ===== *)
(** * Execute: one command against the daemon, and the kind of its reply

    [execute_command] of [crates/core/src/daemon/dispatch.rs] over the handlers of
    [ContactCommands], [SendCommands], [HistoryCommands], [MailboxCommands],
    [AttachmentCommands] and [Host].  What a command takes from outside is a record
    of inputs: clock, random bytes, dialling, file reads.  A command that succeeds is
    answered with the variant of [CommandResult] the protocol has for it, whatever
    the daemon's state and its inputs. *)

From S2P Require Import Prelude Text Framing SimpleCodec CoreErrors Sql MailboxProtocol MailboxCodec Identity Contacts Messages.
From S2P Require Import Receiver Attachments AttachmentRepo ChunkTransfer Mls Invites FirstContact Mailboxes Api Daemon MailboxClient.
From S2P Require Import Poll ContactCommands SendCommands MailboxCommands HistoryCommands Inbound AttachmentCommands.
From S2P Require Import Disk Pool Vault Config Logs Host.

(** What one command takes from outside. *)
Record inputs : Type := mkInputs {
  in_now : Z;
  in_now_ms : Z;
  in_rng : bytes;
  in_group_id : bytes;
  in_psk : bytes;
  in_message_id : bytes;
  in_card_rng : bytes → bytes;
  in_card_ids : bytes → bytes;
  in_dials : nat → result bytes CoreError;
  in_acked : bool;
  in_file : string → result bytes string;
  in_attachment_id : bytes;
  in_file_key : bytes;
  in_mkdir : option string;
  in_faults : io_faults;
  in_pid : Z;
  in_temp_seq : Z;
  in_salt : bytes;
  in_nonce : bytes;
  in_seal_rng : bytes * bytes
}.

(** What a poll does with a deposit, in [mailbox/poll.rs]: a chunk of a pending
    attachment, or a message of some group. *)
Definition accept_deposit {om : OpenMls} {scheme : SignatureScheme} {sha : Sha256}
    {ser_p : Serialize provider} {de_p : Deserialize provider} {ser_env : Serialize Envelope} {de_env : Deserialize Envelope}
    {ser_card : Serialize ContactCard} {ser_body : Serialize ContactCardBody}
    {ser_man : Serialize AttachmentManifest} {de_man : Deserialize AttachmentManifest}
    (store_wired : bool) (fresh_id : bytes) (now : Z) (dep : PendingDeposit) (d : daemon) : daemon * bool :=
  let '(d1, chunk) := dispatch_attachment_chunk store_wired (pd_ciphertext dep) d in
  if chunk : bool then (d1, true)
  else let '(d2, o) := dispatch_mailbox (pd_ciphertext dep) fresh_id now d1 in (d2, is_some o).

Section execute.
Context {om : OpenMls} {scheme : SignatureScheme} {sha : Sha256} {b64 : Base64Url} {crypto : AttachmentCrypto} {img : ImageLibrary} {fts : Fts5}.
Context {ser_p : Serialize provider} {de_p : Deserialize provider}.
Context {ser_env : Serialize Envelope} {de_env : Deserialize Envelope}.
Context {ser_card : Serialize ContactCard} {de_card : Deserialize ContactCard} {ser_body : Serialize ContactCardBody} {ser_link : Serialize InviteLinkBody}.
Context {ser_man : Serialize AttachmentManifest} {de_man : Deserialize AttachmentManifest}.
Context {ser3 : Serialize (Z * bytes * bytes)} {ser4 : Serialize (Z * bytes * bytes * list bytes)}.
Context {toml : Toml} {vc : VaultCrypto} {ser_v : Serialize VaultFile} {de_v : Deserialize VaultFile} {zx : Zxcvbn}.
Context {D : Type} {sq : Sqlite D} {age : Age} {ar : Archive}.

(** The rest of the handle: identity, onion, the mailboxes' connections, the
    inbound dispatcher, the pool and the backup key. *)
Context (me : IdentityKey) (onion : option string).
Context {W : Type} (talk : MailboxFrame → W → W * talk_outcome).
Context (factory : option (string → result W CoreError)) (poller : bool).
Context (accept : option (PendingDeposit → daemon → daemon * bool)).
Context (config_path : path) (pool : Pool) (backup_key : option bytes).
Context (version : string) (schema : Z).

(** An attachment command: it reads the daemon and writes files. *)
Definition with_opened (c : string → daemon → action (gmap string bytes) CommandResult handler_failure) : host_handler := λ h,
  map_error Failed (on f_opened (c (data_dir (h_config h)) (h_daemon h))) h.

Definition execute_command (i : inputs) (cmd : Command) : host_handler :=
  match cmd with
  | Cmd_Shutdown => answer Res_Ok
  | Cmd_RotateOnion => in_daemon (handle_rotate_onion me onion (in_card_rng i) (in_card_ids i) (in_now i) (in_now_ms i))
  | Cmd_ListContacts => in_daemon (list_contacts_cmd false)
  | Cmd_CreateInvite nickname ttl_secs => in_daemon (create_invite me onion (in_rng i) (in_psk i) (in_now i) nickname ttl_secs)
  | Cmd_AddContact invite_url =>
      in_daemon (add_contact me (in_dials i) (in_rng i) (in_group_id i) (in_now i) (in_now_ms i) invite_url)
  | Cmd_SendMessage contact kind =>
      in_daemon (send_message me (in_rng i) (in_message_id i) (in_acked i) (in_now_ms i) contact kind)
  | Cmd_SendFile contact path =>
      in_daemon (send_file me (in_file i path) (in_attachment_id i) (in_file_key i) (in_rng i) (in_message_id i) (in_acked i)
        (in_now i) (in_now_ms i) contact path)
  | Cmd_RecentMessages contact limit before_id paged => in_daemon (recent_messages me contact limit before_id paged)
  | Cmd_CreateGroup _ _ => refuse (Reply Ipc_UnknownCommand)
  | Cmd_RenameContact contact nickname => in_daemon (rename_contact contact nickname)
  | Cmd_RemoveContact contact => in_daemon (remove_contact contact)
  | Cmd_ListContactsWithFilter include_hidden => in_daemon (list_contacts_cmd include_hidden)
  | Cmd_SearchMessages query contact limit offset newest_first =>
      in_daemon (search_messages me query contact limit offset newest_first)
  | Cmd_MarkRead contact up_to => in_daemon (mark_read_cmd (in_now i) contact up_to)
  | Cmd_PruneHistory contact before_ts_recv keep_last => in_daemon (prune_history contact before_ts_recv keep_last)
  | Cmd_ExportHistory contact after_id limit => in_daemon (export_history me contact after_id limit)
  | Cmd_AddMailbox mailbox =>
      in_daemon (handle_add_mailbox me onion talk factory poller (in_card_rng i) (in_card_ids i) (in_now i) (in_now_ms i) mailbox)
  | Cmd_RemoveMailbox id =>
      in_daemon (handle_remove_mailbox me onion talk factory poller accept (in_card_rng i) (in_card_ids i) (in_now i) (in_now_ms i) id)
  | Cmd_ListMailboxes => in_daemon handle_list_mailboxes
  | Cmd_DaemonInfo => in_daemon (handle_daemon_info me onion version schema)
  | Cmd_GetConfig => get_config
  | Cmd_SetConfig patch => set_config config_path patch
  | Cmd_ChangePassphrase old new => change_passphrase (in_salt i) (in_nonce i) (in_now i) old new
  | Cmd_SetContactMuted contact muted => in_daemon (set_contact_muted contact muted)
  | Cmd_TailLogs since_seq limit => tail_logs since_seq limit
  | Cmd_GetPassphraseAuditLatest => get_passphrase_audit_latest
  | Cmd_WipeAllData => wipe_all_data
  | Cmd_ExportBackup dest_path => export_backup_cmd (in_seal_rng i).1 (in_seal_rng i).2 pool backup_key dest_path
  | Cmd_OpenAttachment aid =>
      with_opened (λ dir d, open_attachment_cmd dir (in_mkdir i) (in_faults i) (in_pid i) (in_temp_seq i) d aid)
  | Cmd_SaveAttachment aid dest_path =>
      with_opened (λ _ d, save_attachment_cmd (in_mkdir i) (in_faults i) (in_pid i) (in_temp_seq i) d aid dest_path)
  | Cmd_AttachmentAvailable aid => in_daemon (attachment_available_cmd aid)
  | Cmd_AttachmentStatus aid => in_daemon (attachment_status_cmd aid)
  | Cmd_RetryAttachment aid => in_daemon (retry_attachment_cmd (is_some accept) aid)
  | Cmd_DismissMessage message_id => in_daemon (dismiss_message me (in_now i) message_id)
  end.
End execute.

(** ** What an action returns *)

Definition yields {S T E} (P : T → Prop) (c : action S T E) : Prop := ∀ s t, (c s).2 = Ok t → P t.

Section yields.
Context {S T E : Type} (P : T → Prop).
Lemma yields_bind {U} (c : action S U E) (k : U → action S T E) : (∀ u, yields P (k u)) → yields P (bind_action c k).
Proof. intros Hk s t. unfold bind_action. destruct (c s) as [s' [u|e]]; [apply Hk|done]. Qed.
Lemma yields_then {U} Q (c : action S U E) (k : U → action S T E) : yields Q c → (∀ u, Q u → yields P (k u)) → yields P (bind_action c k).
Proof. intros Hc Hk s t. specialize (Hc s). unfold bind_action. destruct (c s) as [s' [u|e]]; [by apply Hk, Hc|done]. Qed.
Lemma yields_Ok t : P t → yields (S := S) (E := E) P (lift (Ok t)).
Proof. by intros H s ? [= <-]. Qed.
Lemma yields_Err (e : E) : yields (S := S) P (lift (Err e)).
Proof. by intros s t. Qed.
Lemma yields_map_error {F} (g : F → E) (c : action S T F) : yields P c → yields P (map_error g c).
Proof. intros H s t. unfold map_error. specialize (H s). destruct (c s) as [s' [u|e]]; [|done]. intros [= <-]. by apply H. Qed.
Lemma yields_on {A} (f : field S A) (c : action A T E) : yields P c → yields P (on f c).
Proof. intros H s t. unfold on. specialize (H (fget f s)). destruct (c (fget f s)). by apply H. Qed.
End yields.

Ltac solve_yields :=
  repeat first [apply yields_bind; intros ? | apply yields_Ok | apply yields_Err | apply yields_map_error | apply yields_on
    | progress unfold answer | case_match]; try done.

(** ** Replies *)

(** The variants that answer a command. *)
Definition answers (cmd : Command) (res : CommandResult) : bool :=
  match cmd, res with
  | Cmd_CreateInvite _ _, Res_InviteCreated _ _ _
  | Cmd_AddContact _, Res_ContactAdded _
  | Cmd_ListContacts, Res_Contacts _
  | Cmd_ListContactsWithFilter _, Res_Contacts _
  | Cmd_SendMessage _ _, Res_MessageSent _ _ _
  | Cmd_SendFile _ _, Res_FileQueued _ _ _
  | Cmd_RecentMessages _ _ _ false, Res_Messages _
  | Cmd_RecentMessages _ _ _ true, Res_MessagesPage _ _
  | Cmd_SearchMessages _ _ _ _ _, Res_SearchResults _
  | Cmd_MarkRead _ _, Res_MarkedRead _
  | Cmd_PruneHistory _ _ _, Res_Pruned _
  | Cmd_ExportHistory _ _ _, Res_ExportPage _ _
  | Cmd_RemoveContact _, Res_ContactRemoved _
  | Cmd_ListMailboxes, Res_Mailboxes _
  | Cmd_DaemonInfo, Res_DaemonInfo _ _ _ _
  | Cmd_GetConfig, Res_Config _
  | Cmd_ChangePassphrase _ _, Res_PassphraseChanged
  | Cmd_TailLogs _ _, Res_Logs _ _
  | Cmd_GetPassphraseAuditLatest, Res_PassphraseAudit _
  | Cmd_OpenAttachment _, Res_AttachmentDecrypted _
  | Cmd_AttachmentAvailable _, Res_AttachmentAvailability _
  | Cmd_AttachmentStatus _, Res_AttachmentStatus _ => true
  | (Cmd_Shutdown | Cmd_RotateOnion | Cmd_RenameContact _ _ | Cmd_AddMailbox _ | Cmd_RemoveMailbox _ | Cmd_SetConfig _
    | Cmd_SetContactMuted _ _ | Cmd_WipeAllData | Cmd_ExportBackup _ | Cmd_SaveAttachment _ _ | Cmd_RetryAttachment _
    | Cmd_DismissMessage _), Res_Ok => true
  | _, _ => false
  end.

Section replies.
Context {om : OpenMls} {scheme : SignatureScheme} {sha : Sha256} {b64 : Base64Url} {crypto : AttachmentCrypto} {img : ImageLibrary} {fts : Fts5}.
Context {ser_p : Serialize provider} {de_p : Deserialize provider}.
Context {ser_env : Serialize Envelope} {de_env : Deserialize Envelope}.
Context {ser_card : Serialize ContactCard} {de_card : Deserialize ContactCard} {ser_body : Serialize ContactCardBody} {ser_link : Serialize InviteLinkBody}.
Context {ser_man : Serialize AttachmentManifest} {de_man : Deserialize AttachmentManifest}.
Context {ser3 : Serialize (Z * bytes * bytes)} {ser4 : Serialize (Z * bytes * bytes * list bytes)}.
Context {toml : Toml} {vc : VaultCrypto} {ser_v : Serialize VaultFile} {de_v : Deserialize VaultFile} {zx : Zxcvbn}.
Context {D : Type} {sq : Sqlite D} {age : Age} {ar : Archive}.
Context (me : IdentityKey) (onion : option string).
Context {W : Type} (talk : MailboxFrame → W → W * talk_outcome).
Context (factory : option (string → result W CoreError)) (poller : bool).
Context (accept : option (PendingDeposit → daemon → daemon * bool)).
Context (config_path : path) (pool : Pool) (backup_key : option bytes) (version : string) (schema : Z).

Lemma send_message_yields P rng mid acked now_ms c k :
  (∀ m s r, P (Res_MessageSent m s r)) → yields P (send_message me rng mid acked now_ms c k).
Proof using Type.
  intros HP. unfold send_message. repeat (apply yields_bind; intros ?). intros d t.
  destruct (on f_db _ d) as [d' [row|e]]; [unfold sent; by intros [= <-]|].
  repeat case_match; cbn; by intros [= <-].
Qed.
Lemma send_file_yields P file aid fk rng mid acked now now_ms c p :
  (∀ m a n, P (Res_FileQueued m a n)) → yields P (send_file me file aid fk rng mid acked now now_ms c p).
Proof using Type.
  intros HP. unfold send_file. do 3 (apply yields_bind; intros ?). case_match. do 3 (apply yields_bind; intros ?).
  eapply (yields_then _ (λ r, ∃ m s x, r = Res_MessageSent m s x)); [apply send_message_yields; eauto|].
  intros ? (m & s & x & ->). apply yields_bind. intros ?. by apply yields_Ok.
Qed.

(** C35: replies have the type of their command.  Whatever the state, the arguments
    and the inputs, a command that is executed without an error is answered with
    the one variant of [CommandResult] a client of that command decodes;
    [CreateGroup] is never answered. *)
Theorem reply_matches_command i cmd h h' res :
  execute_command me onion talk factory poller accept config_path pool backup_key version schema i cmd h = (h', Ok res) →
  answers cmd res = true.
Proof using Type.
  assert (yields (λ res, answers cmd res = true)
    (execute_command me onion talk factory poller accept config_path pool backup_key version schema i cmd)) as H; cycle 1.
  { intros E. apply (H h). by rewrite E. }
  destruct cmd; cbn [execute_command]; unfold in_daemon, refuse; try (apply yields_map_error, yields_on);
    try (apply send_message_yields || apply send_file_yields; done).
  all: unfold list_contacts_cmd, create_invite, add_contact, rename_contact, remove_contact, set_contact_muted, handle_rotate_onion,
    handle_add_mailbox, handle_remove_mailbox, handle_list_mailboxes, handle_daemon_info, recent_messages, search_messages, mark_read_cmd,
    prune_history, export_history, dismiss_message, attachment_available_cmd, attachment_status_cmd, retry_attachment_cmd,
    get_config, set_config, change_passphrase, get_passphrase_audit_latest, wipe_all_data.
  all: solve_yields.
  - intros h1 t. unfold tail_logs. destruct (log_snapshot _ _ _). by intros [= <-].
  - intros h1 t. destruct (run_export _ _ _ _ _ _ _ h1) as [h2 [[]|[e|]]]; [| |done];
      destruct (on f_files _ h2) as [h3 [[]|[e'|]]]; cbn; try done; [by intros [= <-]|]. case_match; [by intros [= <-]|done].
  - intros h1. apply (yields_on (λ res, answers _ res = true)). unfold open_attachment_cmd. solve_yields.
  - intros h1. apply (yields_on (λ res, answers _ res = true)). unfold save_attachment_cmd. solve_yields.
Qed.
End replies.
