(* ===== verification/Database.v ===== *)
(** * Database: the tables stay well formed

    The invariant of the whole database and that everything the daemon does keeps
    it: commands, messages, Welcomes and chunks that arrive, polls and the hourly
    sweep. *)

From S2P Require Import Prelude Text Framing SimpleCodec CoreErrors Sql MailboxProtocol MailboxCodec Identity Contacts Messages.
From S2P Require Import Receiver Outbox Attachments AttachmentRepo ChunkTransfer Mls Invites FirstContact Mailboxes Api Daemon MailboxClient.
From S2P Require Import Poll ContactCommands SendCommands MailboxCommands HistoryCommands Inbound AttachmentCommands.
From S2P Require Import Float64 Disk Pool Vault Config Logs Host HostProps Execute Delivery.

(** ** Actions that keep an invariant *)

Definition keeps {S T E} (I : S → Prop) (c : action S T E) : Prop := ∀ s, I s → I (c s).1.

(** [J] is what [I] says of the field [f]. *)
Class Part {S A} (I : S → Prop) (f : field S A) (J : A → Prop) : Prop := {
  part_get s : I s → J (fget f s);
  part_set s x : I s → J x → I (fset f x s)
}.

Section keeps.
Context {S E : Type} (I : S → Prop).

Lemma keeps_let {T U} (c : action S T E) (k : T → action S U E) : keeps I c → (∀ t, keeps I (k t)) → keeps I (bind_action c k).
Proof. intros Hc Hk s Hs. specialize (Hc s Hs). unfold bind_action. destruct (c s) as [s' [t|e]]; [by apply Hk|done]. Qed.
Lemma keeps_lift {T} (r : result T E) : keeps I (lift r).
Proof. by intros s Hs. Qed.
Lemma keeps_ensure b (e : E) : keeps I (ensure b e).
Proof. by intros s Hs. Qed.
Lemma keeps_gets {T} (g : S → T) : keeps (E := E) I (gets g).
Proof. by intros s Hs. Qed.
Lemma keeps_read {A T} (f : field S A) (g : A → T) : keeps (E := E) I (read f g).
Proof. by intros s Hs. Qed.
Lemma keeps_read_try {A T} (f : field S A) (g : A → result T E) : keeps I (read_try f g).
Proof. by intros s Hs. Qed.
Lemma keeps_map_error {T F} (g : F → E) (c : action S T F) : keeps I c → keeps I (map_error g c).
Proof. intros H s Hs. specialize (H s Hs). unfold map_error. by destruct (c s). Qed.
Lemma keeps_atomically {T} (c : action S T E) : keeps I c → keeps I (atomically c).
Proof. intros H s Hs. specialize (H s Hs). unfold atomically. by destruct (c s) as [s' [t|e]]. Qed.

Lemma keeps_map_stop {T F} (g : F → E) (c : action S T (stop F)) : keeps I c → keeps I (map_stop g c).
Proof. intros H s Hs. specialize (H s Hs). unfold map_stop. by destruct (c s) as [s' [t|[e|]]]. Qed.

Context {A : Type} (f : field S A) {J : A → Prop} {part : Part I f J}.

Lemma keeps_on {T} (c : action A T E) : keeps J c → keeps I (on f c).
Proof using part.
  intros H s Hs. specialize (H _ (part_get s Hs)). unfold on. destruct (c (fget f s)). by apply part_set.
Qed.
Lemma keeps_on_tx {T} (c : A → result (A * T) E) : (∀ a a' t, J a → c a = Ok (a', t) → J a') → keeps I (on_tx f c).
Proof using part.
  intros H s Hs. unfold on_tx. destruct (c (fget f s)) as [[a t]|e] eqn:Ec; [|done].
  apply part_set; [done|]. by eapply H; [apply part_get|].
Qed.
Lemma keeps_modify (c : A → A) : (∀ a, J a → J (c a)) → keeps (E := E) I (modify f c).
Proof using part. intros H s Hs. by apply part_set, H, part_get. Qed.
Lemma keeps_modify_get {T} (c : A → A * T) : (∀ a, J a → J (c a).1) → keeps (E := E) I (modify_get f c).
Proof using part.
  intros H s Hs. unfold modify_get. specialize (H _ (part_get s Hs)). destruct (c (fget f s)). by apply part_set.
Qed.
End keeps.

(** ** The database *)

(** The keys of the tables without an invariant of their own. *)
Record kps_wf (t : key_packages) : Prop := {
  kw_ids : t_wf kr_id t;
  kw_seq : 0 ≤ t_seq t;
  kw_hashes : NoDup (kr_hash <$> t_rows t);
  kw_direction : ∀ r, r ∈ t_rows t → kr_direction r = "ours" ∨ kr_direction r = "theirs"
}.
Definition invites_wf (l : outstanding_invites) : Prop := NoDup (oi_kp_hash <$> l).
Definition pending_wf (l : pending_welcomes) : Prop := NoDup (pw_peer <$> l).
Definition acks_wf (l : first_contact_acks) : Prop := NoDup (ak_kp_ref <$> l).
Record atts_wf (db : att_db) : Prop := {
  tw_ids : att_wf db;
  tw_chunks : NoDup ((λ r, (ck_id r, ck_index r)) <$> a_chunks db);
  tw_deposits : NoDup ((λ r, (dp_id r, dp_index r)) <$> a_deposits db)
}.

Record db_wf `{!Serialize ContactCard} (db : daemon_db) : Prop := {
  dw_contacts : contacts_wf (d_contacts db);
  dw_groups : groups_wf (d_groups db);
  dw_messages : messages_wf (rd_messages (d_recv db));
  dw_outbox : outbox_wf (d_outbox db);
  dw_kps : kps_wf (d_kps db);
  dw_invites : invites_wf (d_invites db);
  dw_pending : pending_wf (d_pending db);
  dw_acks : acks_wf (d_acks db);
  dw_atts : atts_wf (d_atts db);
  dw_mailboxes : mailboxes_wf (d_mailboxes db)
}.
Definition any {A} (a : A) : Prop := True.

Section parts.
Context {ser_card : Serialize ContactCard}.
Definition daemon_wf (d : daemon) : Prop := db_wf (dm_db d).
Definition host_wf (h : host) : Prop := daemon_wf (h_daemon h).

#[export] Instance part_contacts : Part db_wf f_contacts contacts_wf.
Proof. split; [by intros ? []|]. by intros ? ? []. Qed.
#[export] Instance part_groups : Part db_wf f_groups groups_wf.
Proof. split; [by intros ? []|]. by intros ? ? []. Qed.
#[export] Instance part_messages : Part db_wf f_messages messages_wf.
Proof. split; [by intros ? []|]. by intros ? ? []. Qed.
#[export] Instance part_recv : Part db_wf f_recv (λ r, messages_wf (rd_messages r)).
Proof. split; [by intros ? []|]. by intros ? ? []. Qed.
#[export] Instance part_outbox : Part db_wf f_outbox outbox_wf.
Proof. split; [by intros ? []|]. by intros ? ? []. Qed.
#[export] Instance part_atts : Part db_wf f_atts atts_wf.
Proof. split; [by intros ? []|]. by intros ? ? []. Qed.
#[export] Instance part_mailboxes : Part db_wf f_mailboxes mailboxes_wf.
Proof. split; [by intros ? []|]. by intros ? ? []. Qed.
#[export] Instance part_kps : Part db_wf f_kps kps_wf.
Proof. split; [by intros ? []|]. by intros ? ? []. Qed.
#[export] Instance part_invites : Part db_wf f_invites invites_wf.
Proof. split; [by intros ? []|]. by intros ? ? []. Qed.
#[export] Instance part_pending : Part db_wf f_pending pending_wf.
Proof. split; [by intros ? []|]. by intros ? ? []. Qed.
#[export] Instance part_acks : Part db_wf f_acks acks_wf.
Proof. split; [by intros ? []|]. by intros ? ? []. Qed.
#[export] Instance part_card_version : Part db_wf f_card_version any.
Proof. split; [done|]. by intros ? ? []. Qed.

#[export] Instance part_db : Part daemon_wf f_db db_wf.
Proof. by split. Qed.
#[export] Instance part_of_db {A} (f : field daemon_db A) J : Part db_wf f J → Part daemon_wf (of_db f) J.
Proof. intros [Hg Hs]. split; [intros d; apply Hg|]. intros d x. apply Hs. Qed.
#[export] Instance part_begins : Part daemon_wf f_begins any.
Proof. by split. Qed.
#[export] Instance part_store : Part daemon_wf f_store any.
Proof. by split. Qed.
#[export] Instance part_daemon : Part host_wf f_daemon daemon_wf.
Proof. by split. Qed.
#[export] Instance part_session : Part host_wf f_session any.
Proof. by split. Qed.
#[export] Instance part_files : Part host_wf f_files any.
Proof. by split. Qed.
#[export] Instance part_config : Part host_wf f_config any.
Proof. by split. Qed.
#[export] Instance part_audit : Part host_wf f_audit any.
Proof. by split. Qed.
#[export] Instance part_export_seq : Part host_wf f_export_seq any.
Proof. by split. Qed.
#[export] Instance part_opened : Part host_wf f_opened any.
Proof. by split. Qed.
End parts.

(** ** The statements of the tables *)

Lemma transaction_part {A T E} (J : A → Prop) (c : A → result (A * T) E) a a' t :
  J (transaction a c).1 → c a = Ok (a', t) → J a'.
Proof. intros H E1. unfold transaction in H. by rewrite E1 in H. Qed.

Section statements.
Context {ser_card : Serialize ContactCard} {ser_env : Serialize Envelope} {de_env : Deserialize Envelope} {ser_p : Serialize provider} {om : OpenMls}.

Lemma put_card_body_part v card a a' t : contacts_wf a → put_card_body v card a = Ok (a', t) → contacts_wf a'.
Proof. intros Ha. apply transaction_part. by apply (put_card_wf v card). Qed.
Lemma join_upsert_wf id n now a : contacts_wf a → contacts_wf (join_upsert id n now a).
Proof.
  intros Ha. unfold join_upsert. destruct (rows_of id a) as [|k l] eqn:E; cycle 1.
  { by apply update_contact_wf. }
  assert (contacts_wf (upsert (mkContact id n now None false) a).1) as H by (by apply upsert_wf).
  unfold upsert in H. cbn [identity] in H. rewrite E in H. exact H.
Qed.

Lemma update_existing_wf id f a :
  (∀ r, c_id (f r) = c_id r ∧ c_identity_pubkey (f r) = c_identity_pubkey r) → contacts_wf a → contacts_wf (update_existing id f a).1.
Proof. apply update_contact_wf. Qed.

Lemma group_save_part g a a' t : groups_wf a → group_save_in_tx g a = Ok (a', t) → groups_wf a'.
Proof.
  intros Ha (blob & _ & H)%bind_Ok_inv. destruct t. by apply groups_put_spec in H as [? _].
Qed.
Lemma group_save_wf g a : groups_wf a → groups_wf (group_save g a).1.
Proof.
  intros Ha. unfold group_save, transaction. destruct (group_save_in_tx g a) as [[a' t]|e] eqn:E; [|done].
  by eapply group_save_part.
Qed.
Lemma groups_delete_wf gid a : groups_wf a → groups_wf (groups_delete_in_tx gid a).
Proof. intros [Hi Hs Hn]. split; cbn; [by apply t_wf_filter|done|by apply NoDup_fmap_filter]. Qed.

Lemma message_insert_part p a a' t : messages_wf a → Messages.insert_in_tx p a = Ok (a', t) → messages_wf a'.
Proof. intros Ha. apply transaction_part. by apply (insert_wf p). Qed.
Lemma receive_part s g env now gen recv en a a' t :
  messages_wf (rd_messages a) → receive_in_tx s g env now gen recv en a = Ok (a', t) → messages_wf (rd_messages a').
Proof.
  intros Ha. apply (transaction_part (λ r, messages_wf (rd_messages r))).
  eapply (receiver_step_wf 0); [exact Ha|]. apply rs_receive.
Qed.

Lemma mark_status_wf id s a : mailboxes_wf a → mailboxes_wf (mark_status id s a).
Proof. apply mb_update_wf. intros r. cbn. rewrite status_sql_roundtrip. eauto. Qed.
Lemma touch_poll_wf id now a : mailboxes_wf a → mailboxes_wf (touch_poll id now a).
Proof. apply mb_update_wf. done. Qed.
Lemma record_error_wf id k now a : mailboxes_wf a → mailboxes_wf (record_error id k now a).
Proof. apply mb_update_wf. done. Qed.
Lemma add_mine_wf o now a : mailboxes_wf a → mailboxes_wf (add_mine o now a).1.
Proof. intros Ha. by apply mb_insert_ignore_wf. Qed.

(** Statements on the attachments table alone. *)
Lemma with_rows_wf l a : att_wf (with_rows l a) → atts_wf a → atts_wf (with_rows l a).
Proof. by intros Hl [_ Hc Hd]. Qed.
Lemma update_status_wf P `{!∀ r, Decision (P r)} s a : atts_wf a → atts_wf (update_status P s a).1.
Proof.
  intros Ha. apply with_rows_wf; [|done]. unfold att_wf. cbn [with_rows a_rows]. rewrite <- list_fmap_compose.
  erewrite list_fmap_ext; [apply (tw_ids a Ha)|]. intros i r _. cbn. by case_decide.
Qed.
Lemma att_insert_wf aid d m n t a : atts_wf a → atts_wf (att_insert aid d m n t a).1.
Proof.
  intros Ha. pose proof (proj1 (att_find_insert aid a d m n t []) (tw_ids a Ha)) as H. revert H. unfold att_insert.
  case_decide; [|done]. case_decide; [done|]. intros Hr. by apply with_rows_wf.
Qed.
Lemma set_peer_wf aid p a : atts_wf a → atts_wf (set_peer aid p a).
Proof.
  intros Ha. apply with_rows_wf; [|done]. unfold att_wf. cbn [with_rows a_rows]. rewrite <- list_fmap_compose.
  erewrite list_fmap_ext; [apply (tw_ids a Ha)|]. intros i r _. cbn. by case_decide.
Qed.
Lemma claim_terminal_wf aid s a : atts_wf a → atts_wf (claim_terminal aid s a).1.
Proof. apply update_status_wf. Qed.
Lemma rearm_wf aid a : atts_wf a → atts_wf (rearm_failed_in aid a).1.
Proof. apply update_status_wf. Qed.
Lemma set_status_wf aid s a : atts_wf a → atts_wf (set_status aid s a).1.
Proof.
  intros Ha. unfold set_status. pose proof (update_status_wf (λ r, at_id r = aid) s a Ha) as H.
  destruct (update_status _ _ _) as [a' n]. by case_decide.
Qed.
Lemma mark_received_wf aid i a : atts_wf a → atts_wf (mark_received aid i a).
Proof.
  intros [Hi Hc Hd]. split; [done| |done]. cbn [mark_received a_chunks]. rewrite fmap_app. apply NoDup_app.
  split_and!; [by apply NoDup_fmap_filter| |apply NoDup_singleton].
  intros k (r & -> & Hr)%list_elem_of_fmap Heq%list_elem_of_singleton. apply list_elem_of_filter in Hr as [Hr _].
  apply Hr. by injection Heq.
Qed.
Lemma enqueue_all_wf aid peer n due a : atts_wf a → atts_wf (enqueue_all aid peer n due a).
Proof.
  intros [Hi Hc Hd]. split; [done..|]. cbn [enqueue_all with_deposits a_deposits]. revert Hd.
  generalize (a_deposits a). induction (seqZ 0 n) as [|i l IH]; intros ds Hd; [done|]. cbn [foldl]. apply IH.
  unfold enqueue_one. case_decide as Hin; [done|]. rewrite fmap_app. apply NoDup_app.
  split_and!; [done| |apply NoDup_singleton]. by intros k Hk ->%list_elem_of_singleton.
Qed.
Lemma update_deposit_wf aid i f a :
  (∀ r, dp_id (f r) = dp_id r ∧ dp_index (f r) = dp_index r) → atts_wf a → atts_wf (update_deposit aid i f a).
Proof.
  intros Hf [Hi Hc Hd]. split; [done..|]. cbn [update_deposit with_deposits a_deposits]. rewrite <- list_fmap_compose.
  erewrite list_fmap_ext; [exact Hd|]. intros j r _. cbn. case_decide; [|done]. by destruct (Hf r) as [-> ->].
Qed.
Lemma delete_for_attachment_wf aid a : atts_wf a → atts_wf (delete_for_attachment aid a).
Proof. intros [Hi Hc Hd]. split; [done..|]. by apply NoDup_fmap_filter. Qed.

Lemma kp_insert_wf now h b dir t : kps_wf t → kps_wf (kp_insert now h b dir t).1.
Proof.
  intros Ht. unfold kp_insert. destruct (bool_decide (dir = "ours") || bool_decide (dir = "theirs")) eqn:E; cbn [negb]; [|done].
  destruct (decide (h ∈ _)) as [|Hin]; [done|]. destruct Ht as [Hi Hs Hh Hd]. split; cbn [fst].
  - by apply t_wf_insert.
  - cbn. lia.
  - cbn [t_insert fst t_rows]. rewrite fmap_app. apply NoDup_app. split_and!; [done| |apply NoDup_singleton].
    by intros k Hk ->%list_elem_of_singleton.
  - intros r [Hr| ->%list_elem_of_singleton]%elem_of_app; [by apply Hd|]. cbn.
    by apply orb_true_iff in E as [?%bool_decide_eq_true|?%bool_decide_eq_true]; auto.
Qed.
Lemma kp_mark_consumed_wf h t : kps_wf t → kps_wf (kp_mark_consumed h t).
Proof.
  intros [Hi Hs Hh Hd]. split; [|done| |].
  - apply (t_wf_map kr_id); [done|]. intros r. by case_decide.
  - cbn. rewrite <- list_fmap_compose. erewrite list_fmap_ext; [exact Hh|]. intros i r _. cbn. by case_decide.
  - intros r (r' & -> & Hr)%list_elem_of_fmap. case_decide; by apply Hd in Hr.
Qed.
Lemma mark_consumed_part {sha : Sha256} l t t' u : kps_wf t → mark_consumed_in_tx l t = Ok (t', u) → kps_wf t'.
Proof. intros Ht. unfold mark_consumed_in_tx. destruct (kp_get _ _); [|done]. intros [= <- _]. by apply kp_mark_consumed_wf. Qed.
Lemma record_received_wf {sha : Sha256} now l t : kps_wf t → kps_wf (record_received now l t).1.
Proof. intros Ht. unfold record_received. destruct (kp_get _ _); [done|]. by apply kp_insert_wf. Qed.

Lemma oi_put_wf h psk kp snap ex now nick l : invites_wf l → invites_wf (oi_put_with_provider h psk kp snap ex now nick l).
Proof.
  intros Hl. unfold oi_put_with_provider, oi_replace, invites_wf. rewrite fmap_app. apply NoDup_app.
  split_and!; [by apply NoDup_fmap_filter| |apply NoDup_singleton].
  intros k (r & -> & [Hne _]%list_elem_of_filter)%list_elem_of_fmap Heq%list_elem_of_singleton. by apply Hne.
Qed.
Lemma oi_zeroize_keys P `{!∀ r, Decision (P r)} l : oi_kp_hash <$> oi_zeroize P l = oi_kp_hash <$> l.
Proof. unfold oi_zeroize. rewrite <- list_fmap_compose. apply list_fmap_ext. intros i r _. cbn. by case_decide. Qed.
Lemma oi_mark_consumed_wf kp l : invites_wf l → invites_wf (oi_mark_consumed kp l).
Proof. intros Hl. unfold oi_mark_consumed, invites_wf. apply NoDup_fmap_filter. by rewrite oi_zeroize_keys. Qed.
Lemma oi_purge_wf now l : invites_wf l → invites_wf (oi_purge_expired now l).1.
Proof. intros Hl. unfold oi_purge_expired, invites_wf. cbn [fst]. apply NoDup_fmap_filter. by rewrite oi_zeroize_keys. Qed.

Lemma pw_insert_wf peer g w next now l : pending_wf l → pending_wf (pw_insert_in_tx peer g w next now l).
Proof.
  intros Hl. unfold pw_insert_in_tx. case_decide; [done|]. unfold pending_wf. rewrite fmap_app. apply NoDup_app.
  split_and!; [done| |apply NoDup_singleton]. by intros k Hk ->%list_elem_of_singleton.
Qed.
Lemma pw_delete_wf peer l : pending_wf l → pending_wf (pw_delete peer l).
Proof. apply NoDup_fmap_filter. Qed.
Lemma pw_update_wf peer f l : (∀ r, pw_peer (f r) = pw_peer r) → pending_wf l → pending_wf (pw_update peer f l).
Proof. intros Hf Hl. unfold pending_wf. by rewrite pw_update_peers. Qed.
Lemma ack_insert_wf kp x id now l : acks_wf l → acks_wf (ack_insert_in_tx kp x id now l).
Proof.
  intros Hl. unfold ack_insert_in_tx. case_decide; [done|]. unfold acks_wf. rewrite fmap_app. apply NoDup_app.
  split_and!; [done| |apply NoDup_singleton]. by intros k Hk ->%list_elem_of_singleton.
Qed.
Lemma ack_delete_wf id l : acks_wf l → acks_wf (ack_delete_by_peer_in_tx id l).
Proof. apply NoDup_fmap_filter. Qed.
Lemma emit_keeps {E} e : keeps (E := E) daemon_wf (emit e).
Proof. by intros d. Qed.
Lemma hand_over_keeps {E} o : keeps (E := E) daemon_wf (hand_over o).
Proof. by intros d. Qed.
End statements.

Create HintDb keeps.
#[export] Hint Resolve put_card_body_part join_upsert_wf group_save_part group_save_wf groups_delete_wf message_insert_part receive_part
  mark_status_wf touch_poll_wf record_error_wf add_mine_wf att_insert_wf set_peer_wf claim_terminal_wf rearm_wf
  enqueue_all_wf mark_received_wf kp_mark_consumed_wf mark_consumed_part record_received_wf oi_put_wf oi_mark_consumed_wf oi_purge_wf
  pw_insert_wf pw_delete_wf ack_insert_wf ack_delete_wf emit_keeps hand_over_keeps
  update_contact_wf update_existing_wf upsert_wf remove_wf put_card_wf : keeps.

#[export] Hint Extern 2 (messages_wf _) => solve [eapply messages_step_wf; [eassumption|constructor]] : keeps.
#[export] Hint Extern 2 (outbox_wf _) => solve [eapply outbox_step_wf; [eassumption|constructor]] : keeps.

(** Goes through the operations of an action. *)
Ltac keeps_step :=
  first
    [ solve [auto 1 with keeps nocore] | apply keeps_let; [|intros ?] | apply keeps_lift | apply keeps_ensure | apply keeps_gets | apply keeps_read
    | apply keeps_read_try | apply keeps_map_error | apply keeps_map_stop | apply keeps_atomically
    | eapply keeps_on; [typeclasses eauto|] | eapply keeps_on_tx; [typeclasses eauto|intros ???]
    | eapply keeps_modify; [typeclasses eauto|intros ?] | eapply keeps_modify_get; [typeclasses eauto|intros ?]
    | progress unfold try, try_lift, try_read, in_daemon | case_match ].
Ltac solve_keeps := repeat keeps_step; try done; try (intros ? ?); eauto 3 with keeps.

(** ** What arrives *)

Section inbound_keeps.
Context {om : OpenMls} {scheme : SignatureScheme} {sha : Sha256} {b2 : Blake2s} {b64 : Base64Url}.
Context {ser_p : Serialize provider} {de_p : Deserialize provider}.
Context {ser_env : Serialize Envelope} {de_env : Deserialize Envelope}.
Context {ser_card : Serialize ContactCard} {de_card : Deserialize ContactCard} {ser_body : Serialize ContactCardBody}.
Context {ser_man : Serialize AttachmentManifest} {de_man : Deserialize AttachmentManifest}.
Context (wired : option IdentityKey) (store_wired : bool).

Lemma stage_attachment_keeps from m now : keeps daemon_wf (stage_attachment from m now).
Proof.
  intros d Hd. unfold stage_attachment. destruct (from_cbor m) as [man|]; [|done]. case_decide; [|done].
  pose proof (keeps_on (E := CoreError) daemon_wf (of_db f_atts)
    (att_insert (attachment_id man) "in" m (len (chunks man)) now) (λ a, att_insert_wf _ _ _ _ _ a) d Hd) as Hin.
  destruct (on (of_db f_atts) _ d) as [d' [[]|e]]; [|done]. revert d' Hin. change (keeps daemon_wf (E := failure) (T := unit)
    (let! _ := modify (of_db f_atts) (set_peer (attachment_id man) from) in modify f_begins (push_begin from (mkBegin (attachment_id man) man)))).
  solve_keeps.
Qed.

#[local] Hint Resolve stage_attachment_keeps : keeps.

Lemma dispatch_for_group_keeps from gid ct enforce fresh now : keeps daemon_wf (dispatch_for_group from gid ct enforce fresh now).
Proof.
  unfold dispatch_for_group, receive_card, receive_envelope, stage_file, persist_received. solve_keeps.
Qed.
#[local] Hint Resolve dispatch_for_group_keeps : keeps.

Lemma ok_keeps {T E} (c : action daemon T E) d : keeps daemon_wf c → daemon_wf d → daemon_wf (ok c d).1.
Proof. intros H Hd. specialize (H d Hd). unfold ok. by destruct (c d). Qed.

Lemma dispatch_keeps from ct fresh now d : daemon_wf d → daemon_wf (dispatch from ct fresh now d).1.
Proof. apply ok_keeps. unfold dispatch_inner. solve_keeps. Qed.
Lemma dispatch_mailbox_keeps ct fresh now d : daemon_wf d → daemon_wf (dispatch_mailbox ct fresh now d).1.
Proof.
  intros Hd. unfold dispatch_mailbox. induction (groups_list _) as [|[gid n] l IH]; [done|]. cbn [dispatch_trials].
  destruct (trial _ _ _) as [peer|]; [|done]. apply ok_keeps; [apply dispatch_for_group_keeps|done].
Qed.

Lemma welcome_keeps welcome bind h now : keeps daemon_wf (welcome_join_persist wired welcome bind h now).
Proof.
  unfold welcome_join_persist, persist_join. solve_keeps.
Qed.
Lemma dispatch_welcome_keeps peer welcome now d : daemon_wf d → daemon_wf (dispatch_welcome wired peer welcome now d).1.
Proof.
  intros Hd. unfold dispatch_welcome. destruct (recorded_join _ _) as [[? ?]|]; [done|].
  pose proof (welcome_keeps welcome None None now d Hd) as H. by destruct (welcome_join_persist _ _ _ _ _ d).
Qed.
Lemma handle_inbound_stream_keeps x h first now d : daemon_wf d → daemon_wf (handle_inbound_stream wired x h first now d).1.
Proof.
  intros Hd. unfold handle_inbound_stream. destruct (find_by_noise_x25519 _ _) as [[?|]|]; [done| |done].
  destruct first as [[]| | |]; try done. unfold dispatch_welcome_bootstrap. destruct (recorded_join _ _) as [[? ?]|].
  - by case_decide.
  - match goal with |- context [ok ?c d] => pose proof (ok_keeps c d (welcome_keeps _ _ _ _) Hd) as H; by destruct (ok c d) as [? []] end.
Qed.

Lemma finalize_offline_keeps aid m d : daemon_wf d → daemon_wf (finalize_offline aid m d).
Proof.
  intros Hd. unfold finalize_offline. pose proof (claim_terminal_wf aid Complete _ (part_get (J := atts_wf) (f := of_db f_atts) d Hd)) as H.
  change (fget (of_db f_atts) d) with (d_atts (dm_db d)) in H. destruct (claim_terminal _ _ _) as [a won].
  pose proof (part_set (f := of_db f_atts) d a Hd H). by destruct won.
Qed.
Lemma store_offline_chunk_keeps aid ct m c d : daemon_wf d → daemon_wf (store_offline_chunk aid ct m c d).
Proof.
  intros Hd. unfold store_offline_chunk. case_decide; [done|]. cbv zeta.
  match goal with |- context [fset (of_db f_atts) ?a ?d1] => assert (daemon_wf (fset (of_db f_atts) a d1)) as H1
    by (apply (part_set (J := atts_wf) (f := of_db f_atts)); [exact Hd|apply mark_received_wf, (dw_atts _ Hd)]) end.
  case_decide; [by apply finalize_offline_keeps|]. by case_decide.
Qed.
Lemma dispatch_chunk_keeps ct d : daemon_wf d → daemon_wf (dispatch_attachment_chunk store_wired ct d).1.
Proof.
  intros Hd. unfold dispatch_attachment_chunk. destruct (negb store_wired); [done|].
  induction (list_pending_in _) as [|[aid b] l IH]; [done|]. cbn [match_pending]. destruct (from_cbor b) as [m|]; [|done].
  destruct (head _) as [c|]; [|done]. by apply store_offline_chunk_keeps.
Qed.
Lemma accept_deposit_keeps fresh now dep d : daemon_wf d → daemon_wf (accept_deposit store_wired fresh now dep d).1.
Proof.
  intros Hd. unfold accept_deposit. pose proof (dispatch_chunk_keeps (pd_ciphertext dep) d Hd) as H1.
  destruct (dispatch_attachment_chunk _ _ d) as [d1 []]; [done|]. pose proof (dispatch_mailbox_keeps (pd_ciphertext dep) fresh now d1 H1) as H2.
  by destruct (dispatch_mailbox _ _ _ d1).
Qed.
Lemma message_delivered_keeps mid now d : daemon_wf d → daemon_wf (message_delivered wired mid now d).
Proof.
  intros Hd. unfold message_delivered. destruct wired as [k|]; [|done].
  pose proof (messages_step_wf _ _ (part_get (J := messages_wf) (f := of_db f_messages) d Hd) (ms_delivered _ mid (public k) now)) as H.
  change (fget (of_db f_messages) d) with (rd_messages (d_recv (dm_db d))) in H. destruct (mark_delivered_by_envelope_id _ _ _ _) as [m b].
  pose proof (part_set (f := of_db f_messages) d m Hd H). by destruct b.
Qed.
End inbound_keeps.

(** ** Commands *)

Section commands_keep.
Context {om : OpenMls} {scheme : SignatureScheme} {sha : Sha256} {b64 : Base64Url} {crypto : AttachmentCrypto} {img : ImageLibrary} {fts : Fts5}.
Context {ser_p : Serialize provider} {de_p : Deserialize provider}.
Context {ser_env : Serialize Envelope} {de_env : Deserialize Envelope}.
Context {ser_card : Serialize ContactCard} {de_card : Deserialize ContactCard} {ser_body : Serialize ContactCardBody} {ser_link : Serialize InviteLinkBody}.
Context {ser_man : Serialize AttachmentManifest} {de_man : Deserialize AttachmentManifest}.
Context {ser3 : Serialize (Z * bytes * bytes)} {ser4 : Serialize (Z * bytes * bytes * list bytes)}.
Context (me : IdentityKey) (onion : option string).
Context {W : Type} (talk : MailboxFrame → W → W * talk_outcome).
Context (factory : option (string → result W CoreError)) (poller : bool).
Context (accept : option (PendingDeposit → daemon → daemon * bool)).
Context (accept_wf : ∀ acc dep d, accept = Some acc → daemon_wf d → daemon_wf (acc dep d).1).

Lemma kp_generate_new_wf rng now t : kps_wf t → kps_wf (kp_generate_new me rng now t).1.
Proof using Type.
  intros Ht. unfold kp_generate_new, kp_generate. cbn [fst snd]. destruct (bind_action _ _ provider_new) as [p r].
  destruct (bind_result r _) as [[kp b]|e]; [|done].
  pose proof (kp_insert_wf now (sha256 b) b "ours" t Ht) as H. by destruct (kp_insert _ _ _ _ t).
Qed.
#[local] Hint Resolve kp_generate_new_wf : keeps.
Lemma create_invite_keeps rng psk now nick ttl : keeps daemon_wf (create_invite me onion rng psk now nick ttl).
Proof using Type. unfold create_invite. solve_keeps. Qed.
Lemma add_contact_keeps dials rng gid now now_ms url : keeps daemon_wf (add_contact me dials rng gid now now_ms url).
Proof using Type. unfold add_contact, persist_contact. solve_keeps. Qed.
Lemma rename_contact_keeps c n : keeps daemon_wf (rename_contact c n).
Proof using Type. unfold rename_contact, set_display_name. solve_keeps. Qed.
Lemma remove_contact_keeps c : keeps daemon_wf (remove_contact c).
Proof using ser_env de_env.
  unfold remove_contact, known_contact, purge_contact, set_hidden. solve_keeps.
Qed.
Lemma set_contact_muted_keeps c b : keeps daemon_wf (set_contact_muted c b).
Proof using Type. unfold set_contact_muted, known_contact. solve_keeps. by apply update_contact_wf. Qed.
Lemma list_contacts_keeps b : keeps daemon_wf (list_contacts_cmd b).
Proof using Type. unfold list_contacts_cmd. solve_keeps. Qed.

Lemma persist_sent_keeps c gid g env ct recv : keeps db_wf (persist_sent me c gid g env ct recv).
Proof using Type. unfold persist_sent. solve_keeps. Qed.
Lemma send_message_keeps rng mid acked now_ms c k : keeps daemon_wf (send_message me rng mid acked now_ms c k).
Proof using Type.
  unfold send_message. repeat keeps_step. intros d Hd.
  match goal with |- context [on f_db (persist_sent me c ?gid ?g ?env ?ct ?recv) d] =>
    pose proof (keeps_on daemon_wf f_db _ (persist_sent_keeps c gid g env ct recv) d Hd) as H;
    destruct (on f_db (persist_sent me c gid g env ct recv) d) as [d' [row|e]] end; [done|]. by repeat case_match.
Qed.
#[local] Hint Resolve send_message_keeps : keeps.
Lemma send_file_keeps file aid fk rng mid acked now now_ms c p : keeps daemon_wf (send_file me file aid fk rng mid acked now now_ms c p).
Proof using Type.
  unfold send_file, queue_deposits. solve_keeps.
Qed.

Lemma history_keeps :
  (∀ c n b p, keeps daemon_wf (recent_messages me c n b p)) ∧ (∀ q c n o f, keeps daemon_wf (search_messages me q c n o f)) ∧
  (∀ now c n, keeps daemon_wf (mark_read_cmd now c n)) ∧ (∀ c b k, keeps daemon_wf (prune_history c b k)) ∧
  (∀ c a n, keeps daemon_wf (export_history me c a n)) ∧ (∀ now m, keeps daemon_wf (dismiss_message me now m)).
Proof using ser_env.
  split_and!; intros.
  - unfold recent_messages, scoped_opt, scoped. solve_keeps.
  - unfold search_messages, scoped_opt, scoped. solve_keeps.
  - unfold mark_read_cmd, scoped. solve_keeps.
  - unfold prune_history, scoped_opt, scoped. solve_keeps.
  - unfold export_history, scoped. solve_keeps.
  - unfold dismiss_message. solve_keeps.
Qed.

Lemma send_card_keeps rng mid now_ms card peer d : daemon_wf d → daemon_wf (send_card_to_contact rng mid now_ms card peer d).
Proof using Type.
  intros Hd. unfold send_card_to_contact. destruct (pw_is_pending _ _); [done|]. destruct (linked_group _ _) as [gid|]; [|done].
  case_decide; [done|]. destruct (group_load _ _) as [[g|]|]; [|done..]. destruct (group_encrypt _ _ _) as [g' [ct|]]; [|done].
  pose proof (keeps_on daemon_wf (of_db f_groups) _ (group_save_wf g') d Hd) as Hg. by destruct (on (of_db f_groups) _ d) as [d' []].
Qed.
Lemma publish_keeps rng ids now now_ms : keeps daemon_wf (publish_self_card_update me onion rng ids now now_ms).
Proof using Type.
  unfold publish_self_card_update, build_self_card. repeat keeps_step; try done. intros d Hd. cbn [fst].
  match goal with |- daemon_wf (foldl _ d ?l) => revert d Hd; induction l as [|x l IH]; intros d Hd; [done|] end.
  cbn [foldl]. apply IH. by apply send_card_keeps.
Qed.
#[local] Hint Resolve publish_keeps : keeps.
Lemma rotate_keeps rng ids now now_ms : keeps daemon_wf (handle_rotate_onion me onion rng ids now now_ms).
Proof using Type. unfold handle_rotate_onion. solve_keeps. Qed.
Lemma add_mailbox_keeps rng ids now now_ms m : keeps daemon_wf (handle_add_mailbox me onion talk factory poller rng ids now now_ms m).
Proof using Type. unfold handle_add_mailbox, notify_poller. solve_keeps. Qed.

Lemma dispatch_all_keeps acc deps d : accept = Some acc → daemon_wf d → daemon_wf (dispatch_all acc deps d).1.
Proof using accept_wf.
  intros Ha. revert d. induction deps as [|dep deps IH]; intros d Hd; [done|]. cbn [dispatch_all].
  pose proof (accept_wf acc dep d Ha Hd) as H. destruct (acc dep d) as [d1 b]. specialize (IH d1 H). by destruct (dispatch_all acc deps d1).
Qed.
Lemma poll_once_keeps acc w d : accept = Some acc → daemon_wf d → daemon_wf (poll_dispatch_once talk acc me (w, d)).1.2.
Proof using accept_wf.
  intros Ha Hd. assert (∀ T (c : action W T CoreError), keeps (λ s : W * daemon, daemon_wf s.2) (on at_mailbox c)) as Hm.
  { intros T c [w' d'] Hd'. unfold on. by destruct (c _). }
  assert (Part (λ s : W * daemon, daemon_wf s.2) at_daemon daemon_wf) as Hp by done.
  revert w d Hd. cut (keeps (λ s : W * daemon, daemon_wf s.2) (poll_dispatch_once talk acc me)); [intros H w d; apply (H (w, d))|].
  unfold poll_dispatch_once. repeat keeps_step; auto. by apply dispatch_all_keeps.
Qed.
Lemma final_drain_keeps m d : daemon_wf d → daemon_wf (final_drain me talk factory accept m d).
Proof using accept_wf.
  intros Hd. pose proof poll_once_keeps as Hpoll. unfold final_drain. destruct factory as [connect|]; [|done].
  destruct accept as [acc|]; [|done]. destruct (connect m) as [client|]; [|done]. by apply Hpoll.
Qed.
Lemma remove_mailbox_keeps rng ids now now_ms id :
  keeps daemon_wf (handle_remove_mailbox me onion talk factory poller accept rng ids now now_ms id).
Proof using accept_wf.
  unfold handle_remove_mailbox, notify_poller, mark_pending_removal, finalize_removal. solve_keeps. by apply final_drain_keeps.
Qed.

Lemma retry_keeps b aid : keeps daemon_wf (retry_attachment_cmd b aid).
Proof using Type. unfold retry_attachment_cmd. solve_keeps. Qed.
Lemma attachment_reads_keep aid : keeps daemon_wf (attachment_available_cmd aid) ∧ keeps daemon_wf (attachment_status_cmd aid).
Proof using Type. unfold attachment_available_cmd, attachment_status_cmd. split; solve_keeps. Qed.
End commands_keep.

Section execute_keeps.
Context {om : OpenMls} {scheme : SignatureScheme} {sha : Sha256} {b64 : Base64Url} {crypto : AttachmentCrypto} {img : ImageLibrary} {fts : Fts5}.
Context {b2 : Blake2s}.
Context {ser_p : Serialize provider} {de_p : Deserialize provider}.
Context {ser_env : Serialize Envelope} {de_env : Deserialize Envelope}.
Context {ser_card : Serialize ContactCard} {de_card : Deserialize ContactCard} {ser_body : Serialize ContactCardBody} {ser_link : Serialize InviteLinkBody}.
Context {ser_man : Serialize AttachmentManifest} {de_man : Deserialize AttachmentManifest}.
Context {ser3 : Serialize (Z * bytes * bytes)} {ser4 : Serialize (Z * bytes * bytes * list bytes)}.
Context {toml : Toml} {vc : VaultCrypto} {ser_v : Serialize VaultFile} {de_v : Deserialize VaultFile} {zx : Zxcvbn}.
Context {D : Type} {sq : Sqlite D} {age : Age} {ar : Archive}.
Context (me : IdentityKey) (onion : option string).
Context {W : Type} (talk : MailboxFrame → W → W * talk_outcome).
Context (factory : option (string → result W CoreError)) (poller : bool) (store_wired : bool).
Context (config_path : path) (pool : Pool) (backup_key : option bytes) (version : string) (schema : Z).

(** [execute_command] of a daemon whose dispatcher is the modelled one. *)
Definition run_command (i : inputs) (cmd : Command) : host_handler :=
  execute_command me onion talk factory poller (Some (accept_deposit store_wired (in_message_id i) (in_now i)))
    config_path pool backup_key version schema i cmd.

Lemma host_commands_keep :
  keeps host_wf get_config ∧ (∀ patch, keeps host_wf (set_config config_path patch)) ∧ (∀ s n, keeps host_wf (tail_logs s n)) ∧
  keeps host_wf get_passphrase_audit_latest ∧ keeps host_wf wipe_all_data ∧
  (∀ salt nonce now old new, keeps host_wf (change_passphrase salt nonce now old new)) ∧
  (∀ c, keeps host_wf (with_opened c)).
Proof using Type.
  split_and!; intros; unfold get_config, set_config, get_passphrase_audit_latest, wipe_all_data, change_passphrase, answer.
  - solve_keeps.
  - solve_keeps.
  - intros h Hh. unfold tail_logs. by destruct (log_snapshot _ _ _).
  - solve_keeps.
  - solve_keeps. unfold Config.update, signal_wipe. cbn. by case_match.
  - solve_keeps.
  - intros h Hh. unfold with_opened. apply (keeps_map_error host_wf); [|done]. by eapply keeps_on; [typeclasses eauto|].
Qed.

Lemma export_backup_keeps rng1 rng2 dest : keeps host_wf (export_backup_cmd rng1 rng2 pool backup_key dest).
Proof using Type.
  unfold export_backup_cmd. repeat keeps_step; try done. intros h Hh.
  match goal with |- context [run_export ?a ?b ?c ?d ?e ?f ?g h] =>
    assert (keeps host_wf (run_export a b c d e f g)) as Hrun by (unfold run_export; solve_keeps);
    specialize (Hrun h Hh); destruct (run_export a b c d e f g h) as [h1 r] end. cbn [fst] in Hrun.
  match goal with |- context [on f_files ?c h1] => pose proof (keeps_on host_wf f_files c (λ _ _, Logic.I) h1 Hrun) as Hclean;
    destruct (on f_files c h1) as [h2 cl] end.
  by destruct r as [[]|[e|]], cl as [[]|[e'|]].
Qed.

Lemma run_command_keeps i cmd : keeps host_wf (run_command i cmd).
Proof using Type.
  pose proof (history_keeps (fts := fts) me) as (K1 & K2 & K3 & K4 & K5 & K6).
  pose proof host_commands_keep as (H1 & H2 & H3 & H4 & H5 & H6 & H7).
  unfold run_command. destruct cmd; cbn [execute_command]; unfold in_daemon;
    try (apply keeps_map_error; eapply keeps_on; [typeclasses eauto|]);
    try solve [auto | apply keeps_lift | apply export_backup_keeps].
  - apply create_invite_keeps.
  - apply add_contact_keeps.
  - apply list_contacts_keeps.
  - apply send_message_keeps.
  - apply send_file_keeps.
  - apply rotate_keeps.
  - apply add_mailbox_keeps.
  - apply remove_mailbox_keeps. intros acc dep d [= <-]. apply accept_deposit_keeps.
  - unfold handle_list_mailboxes. solve_keeps.
  - apply rename_contact_keeps.
  - apply remove_contact_keeps.
  - apply list_contacts_keeps.
  - apply set_contact_muted_keeps.
  - apply attachment_reads_keep.
  - apply attachment_reads_keep.
  - apply retry_keeps.
Qed.
End execute_keeps.

(** ** The background tasks *)

Lemma foldl_wf {S X} (I : S → Prop) (g : S → X → S) l s : (∀ s x, I s → I (g s x)) → I s → I (foldl g s l).
Proof. intros Hg. revert s. induction l as [|x l IH]; intros s Hs; [done|]. cbn. auto. Qed.

Section background_keeps.
Context {om : OpenMls} {scheme : SignatureScheme} {sha : Sha256} {b2 : Blake2s}.
Context {ser_p : Serialize provider} {de_p : Deserialize provider}.
Context {ser_env : Serialize Envelope} {de_env : Deserialize Envelope}.
Context {ser_card : Serialize ContactCard} {de_card : Deserialize ContactCard} {ser_body : Serialize ContactCardBody}.
Context (me : IdentityKey) (onion : option string).
Implicit Types d : daemon.

Lemma update_wf_db {A} (f : field daemon_db A) (g : A → A) J {part : Part db_wf f J} d :
  (∀ a, J a → J (g a)) → daemon_wf d → daemon_wf (Delivery.update f g d).
Proof using Type. intros Hg Hd. apply (part_set (f := of_db f)); [done|]. apply Hg. by apply (part_get (f := of_db f)). Qed.

Lemma deposited_wf row o peer mid ct d : daemon_wf d → daemon_wf (deposited_at_mailbox row o peer mid ct d).
Proof using Type.
  intros Hd. unfold deposited_at_mailbox, announce. cbn [emit fst]. apply (update_wf_db f_outbox _ outbox_wf); [|exact Hd].
  intros a Ha. eapply outbox_step_wf; [exact Ha|]. constructor.
Qed.
Lemma ensure_theirs_wf o now a : mailboxes_wf a → mailboxes_wf (ensure_theirs o now a).1.
Proof using Type. intros Ha. by apply mb_insert_ignore_wf. Qed.
Lemma fallback_walk_wf row now peer mid ct tries d : daemon_wf d → daemon_wf (fallback_walk row now peer mid ct tries d).
Proof using Type.
  revert d. induction tries as [|[o acc] tries IH]; intros d Hd; [done|]. cbn [fallback_walk].
  pose proof (keeps_on daemon_wf (of_db f_mailboxes) _ (ensure_theirs_wf o now) d Hd) as H1.
  destruct (on (of_db f_mailboxes) _ d) as [d1 [mb|e]]; [|by apply IH].
  assert (keeps daemon_wf (on (of_db f_outbox) (set_mailbox_target row mb))) as H2.
  { eapply keeps_on; [typeclasses eauto|]. intros a Ha. eapply outbox_step_wf; [exact Ha|]. constructor. }
  specialize (H2 d1 H1). destruct (on (of_db f_outbox) _ d1) as [d2 [n|e]]; [|by apply IH]. destruct acc; [by apply deposited_wf|by apply IH].
Qed.
Lemma mailbox_fallback_wf acc now peer mid ct d : daemon_wf d → daemon_wf (run_mailbox_fallback acc now peer mid ct d).
Proof using Type.
  intros Hd. unfold run_mailbox_fallback. destruct (list_for_contact _ _) as [[|o os]|]; [done| |done].
  destruct (find_direct_id _ _ _); [|done]. by apply fallback_walk_wf.
Qed.
Lemma redeposit_wf acc fac now row d : daemon_wf d → daemon_wf (redeposit_mailbox_row acc fac now row d).1.
Proof using Type.
  intros Hd. unfold redeposit_mailbox_row.
  assert (daemon_wf (Delivery.update f_outbox (reschedule_with_backoff (or_id row) (or_attempts row) now fac) d)) as Hl.
  { apply (update_wf_db f_outbox _ outbox_wf); [|exact Hd]. intros a Ha. eapply outbox_step_wf; [exact Ha|]. apply ob_reschedule. }
  case_decide; [done|]. destruct (list_for_contact _ _) as [os|]; [|done]. destruct (head _) as [[? ?]|]; [|done]. by apply deposited_wf.
Qed.
Lemma mailbox_sweep_wf acc fac now batch d : daemon_wf d → daemon_wf (run_mailbox_sweep acc fac now batch d).
Proof using Type. intros Hd. apply (foldl_wf daemon_wf); [|done]. intros. by apply redeposit_wf. Qed.

Lemma expire_row_wf row d : daemon_wf d → daemon_wf (expire_row me row d).
Proof using ser_env de_env.
  intros Hd. unfold expire_row.
  pose proof (messages_step_wf _ _ (part_get (J := messages_wf) (f := of_db f_messages) d Hd)
    (ms_failed _ (or_message_id row) (public me) NO_MAILBOX_REASON)) as H.
  change (fget (of_db f_messages) d) with (rd_messages (d_recv (dm_db d))) in H. destruct (mark_failed _ _ _ _) as [m b].
  assert (daemon_wf (Delivery.update f_outbox (λ t, (delete_by_id (or_id row) t).1) (fset (of_db f_messages) m d))) as H2.
  { apply (update_wf_db f_outbox _ outbox_wf).
    - intros a Ha. eapply outbox_step_wf; [exact Ha|]. constructor.
    - by apply (part_set (J := messages_wf) (f := of_db f_messages)). }
  by destruct b.
Qed.
Lemma outbox_sweep_wf acc now now_s batch d : daemon_wf d → daemon_wf (run_outbox_sweep me acc now now_s batch d).
Proof using ser_env de_env.
  intros Hd. apply (foldl_wf daemon_wf); [|done]. clear d Hd. intros d row Hd. unfold sweep_outbox_row.
  destruct (or_target_kind row); [|done]. destruct (envelope_ts _ _); [|done]. do 2 (case_decide; [done|]).
  destruct (list_for_contact _ _) as [[|o os]|]; [by apply expire_row_wf|by apply mailbox_fallback_wf|done].
Qed.

Lemma welcome_acked_wf rng mid now now_ms peer d : daemon_wf d → daemon_wf (on_welcome_acked me onion rng mid now now_ms peer d).
Proof using Type.
  intros Hd. unfold on_welcome_acked, announce. cbn [emit fst].
  assert (daemon_wf (Delivery.update f_pending (finalize_welcome_ack peer) d)) as H1 by (apply (update_wf_db f_pending _ pending_wf); [apply pw_delete_wf|done]).
  assert (keeps daemon_wf (build_self_card me onion now)) as H2 by (unfold build_self_card; solve_keeps).
  specialize (H2 _ H1). destruct (build_self_card _ _ _ _) as [d1 [card|e]]; [|exact H2].
  exact (send_card_keeps rng mid now_ms card peer d1 H2).
Qed.
Lemma welcome_sweep_wf acked rng ids now now_ms batch d : daemon_wf d → daemon_wf (run_welcome_sweep me onion acked rng ids now now_ms batch d).
Proof using Type.
  intros Hd. apply (foldl_wf daemon_wf); [|done]. clear d Hd. intros d row Hd. unfold sweep_welcome_row.
  destruct (acked _); [by apply welcome_acked_wf|]. case_decide; apply (update_wf_db f_pending _ pending_wf); try done; intros l; by apply pw_update_wf.
Qed.

(** [run_chunk_sweep], on the daemon. *)
Definition chunk_sweep (mailboxes : bytes → list string) (accepts : bytes → Z → string → bool) (now batch : Z) (d : daemon) : daemon :=
  let st := run_chunk_sweep mailboxes accepts now batch (mkSweep (d_atts (dm_db d)) (dm_store d) []) in
  fset f_store (sw_store st) (fset (of_db f_atts) (sw_db st) d).

Lemma chunk_sweep_wf mbs acc now batch d : daemon_wf d → daemon_wf (chunk_sweep mbs acc now batch d).
Proof using Type.
  intros Hd. unfold chunk_sweep. apply (part_set (J := any) (f := f_store)); [|done].
  apply (part_set (J := atts_wf) (f := of_db f_atts)); [done|].
  apply (foldl_wf (λ st, atts_wf (sw_db st))); [|by destruct Hd]. intros st row Hst.
  unfold sweep_row, finalize_out, sweep_reschedule, mark_deposited, dep_reschedule.
  repeat case_match; cbn [sw_db] in *; try done; auto using delete_for_attachment_wf, set_status_wf, update_deposit_wf.
Qed.
End background_keeps.
