(* ===== verification/DatabaseProps.v ===== *)
(** * DatabaseProps: everything the daemon does

    The steps of a running daemon: commands, what arrives from peers and mailboxes,
    the background tasks.  Along any of them the database stays well formed, and
    every command that succeeds is answered with the result of its kind. *)

From S2P Require Import Prelude Text Framing SimpleCodec CoreErrors Sql MailboxProtocol MailboxCodec Identity Contacts Messages.
From S2P Require Import Receiver Outbox Attachments AttachmentRepo ChunkTransfer Mls Invites FirstContact Mailboxes Api Daemon MailboxClient.
From S2P Require Import Poll ContactCommands SendCommands MailboxCommands HistoryCommands PeerFrame Inbound AttachmentCommands.
From S2P Require Import Float64 Disk Pool Vault Config Logs Host HostProps Execute Delivery Database.

Section daemon_runs.
Context {om : OpenMls} {scheme : SignatureScheme} {sha : Sha256} {b64 : Base64Url} {crypto : AttachmentCrypto} {img : ImageLibrary} {fts : Fts5}.
Context {b2 : Blake2s}.
Context {ser_p : Serialize provider} {de_p : Deserialize provider}.
Context {ser_env : Serialize Envelope} {de_env : Deserialize Envelope}.
Context {ser_card : Serialize ContactCard} {de_card : Deserialize ContactCard} {ser_body : Serialize ContactCardBody} {ser_link : Serialize InviteLinkBody}.
Context {ser_man : Serialize AttachmentManifest} {de_man : Deserialize AttachmentManifest}.
Context {ser3 : Serialize (Z * bytes * bytes)} {ser4 : Serialize (Z * bytes * bytes * list bytes)}.
Context {toml : Toml} {vc : VaultCrypto} {ser_v : Serialize VaultFile} {de_v : Deserialize VaultFile} {zx : Zxcvbn}.
Context {D : Type} {sq : Sqlite D} {age : Age} {ar : Archive}.
Context (me : IdentityKey) (onion : option string).
Context {W : Type} (talk : MailboxFrame → W → W * talk_outcome).
Context (factory : option (string → result W CoreError)) (poller : bool) (store_wired : bool).
Context (config_path : path) (pool : Pool) (backup_key : option bytes) (version : string) (schema : Z).

(** What changes the daemon's state apart from commands. *)
Inductive daemon_step (d : daemon) : daemon → Prop :=
| ds_message from ct fresh now : daemon_step d (dispatch from ct fresh now d).1
| ds_deposit dep fresh now : daemon_step d (accept_deposit store_wired fresh now dep d).1
| ds_welcome peer w now : daemon_step d (dispatch_welcome (Some me) peer w now d).1
| ds_connection x h first now : daemon_step d (handle_inbound_stream (Some me) x h first now d).1
| ds_delivered mid now : daemon_step d (message_delivered (Some me) mid now d)
| ds_acked peer mid : daemon_step d (Delivery.update f_outbox (λ t, (ack_by_message_id peer mid t).1) d)
| ds_fallback acc now peer mid ct : daemon_step d (run_mailbox_fallback acc now peer mid ct d)
| ds_chunk aid i : daemon_step d (Delivery.update f_atts (mark_received aid i) d)
| ds_claim aid s : daemon_step d (Delivery.update f_atts (λ a, (claim_terminal aid s a).1) d)
| ds_complete aid : daemon_step d (Delivery.update f_atts (λ a, delete_for_attachment aid (set_status aid "complete" a).1) d)
| ds_poll id c conn now instant a fresh :
    daemon_step d (poll_tick talk (accept_deposit store_wired fresh now) id c me conn now instant a d).2
| ds_outbox_sweep acc now now_s batch : daemon_step d (run_outbox_sweep me acc now now_s batch d)
| ds_mailbox_sweep acc fac now batch : daemon_step d (run_mailbox_sweep acc fac now batch d)
| ds_welcome_sweep acked rng ids now now_ms batch : daemon_step d (run_welcome_sweep me onion acked rng ids now now_ms batch d)
| ds_chunk_sweep acc now batch :
    daemon_step d (chunk_sweep (λ c, match list_for_contact c (d_contacts (dm_db d)) with Ok l => l | Err _ => [] end) acc now batch d).

Inductive host_step (h : host) : host → Prop :=
| hs_command i cmd : host_step h (run_command me onion talk factory poller store_wired config_path pool backup_key version schema i cmd h).1
| hs_daemon d : daemon_step (h_daemon h) d → host_step h (fset f_daemon d h)
| hs_retention mtime entries now : host_step h (retention_tick mtime entries now h).

Lemma poll_failed_wf id e now a d : daemon_wf d → daemon_wf (poll_failed id e now a d).2.
Proof using Type.
  intros Hd. unfold poll_failed, report. assert (daemon_wf (update_mailboxes (record_error id (error_kind_str e) now) d)) as H1.
  { apply (update_wf_db f_mailboxes _ mailboxes_wf); [apply record_error_wf|done]. }
  case_decide; [|done]. case_decide; [done|]. apply (update_wf_db f_mailboxes _ mailboxes_wf); [apply mark_status_wf|done].
Qed.
Lemma report_wf id s a d : daemon_wf d → daemon_wf (report id s a d).2.
Proof using Type.
  intros Hd. unfold report. case_decide; [done|]. apply (update_wf_db f_mailboxes _ mailboxes_wf); [apply mark_status_wf|done].
Qed.
Lemma poll_tick_wf id c conn now instant a fresh d :
  daemon_wf d → daemon_wf (poll_tick talk (accept_deposit store_wired fresh now) id c me conn now instant a d).2.
Proof using Type.
  intros Hd. unfold poll_tick. destruct conn as [w|e]; [|by apply poll_failed_wf].
  assert (daemon_wf (update_mailboxes (touch_poll id now) d)) as H1.
  { apply (update_wf_db f_mailboxes _ mailboxes_wf); [apply touch_poll_wf|done]. }
  pose proof (poll_once_keeps me talk (Some (accept_deposit store_wired fresh now))
    (λ acc dep d' (E : Some _ = Some acc), ltac:(injection E as <-; apply accept_deposit_keeps)) _ w _ eq_refl H1) as H2.
  destruct (poll_dispatch_once _ _ _ _) as [[w' d'] r]. cbn [fst snd] in H2. unfold poll_done.
  destruct r as [n|e]; [by apply report_wf|]. assert (∀ e, daemon_wf (update_mailboxes (record_error id (error_kind_str e) now) d')) as H3.
  { intros e'. apply (update_wf_db f_mailboxes _ mailboxes_wf); [apply record_error_wf|done]. }
  repeat case_match; solve [by apply poll_failed_wf|by apply report_wf].
Qed.
Lemma run_once_wf mtime entries now d : daemon_wf d → daemon_wf (run_once mtime entries now d).1.
Proof using Type.
  intros Hd. unfold run_once. apply (foldl_wf (λ st, daemon_wf st.1)).
  - intros [d1 stats] e Hd1. unfold sweep_orphan. repeat case_match; done.
  - apply (foldl_wf (λ st, daemon_wf st.1)); [|done]. intros [d1 stats] q Hd1. unfold fail_stalled.
    destruct (older_than _ _ _); [|done].
    pose proof (claim_terminal_wf q.1 AttachmentRepo.Failed _ (part_get (J := atts_wf) (f := of_db f_atts) d1 Hd1)) as H.
    change (fget (of_db f_atts) d1) with (d_atts (dm_db d1)) in H. destruct (claim_terminal _ _ _) as [a won].
    pose proof (part_set (J := atts_wf) (f := of_db f_atts) d1 a Hd1 H). by destruct won.
Qed.

Lemma daemon_step_wf d d' : daemon_wf d → daemon_step d d' → daemon_wf d'.
Proof using Type.
  intros Hd. destruct 1.
  - by apply dispatch_keeps.
  - by apply accept_deposit_keeps.
  - by apply dispatch_welcome_keeps.
  - by apply handle_inbound_stream_keeps.
  - by apply message_delivered_keeps.
  - apply (update_wf_db f_outbox _ outbox_wf); [|done]. intros a Ha. eapply outbox_step_wf; [exact Ha|]. constructor.
  - by apply mailbox_fallback_wf.
  - apply (update_wf_db f_atts _ atts_wf); [apply mark_received_wf|done].
  - apply (update_wf_db f_atts _ atts_wf); [apply claim_terminal_wf|done].
  - apply (update_wf_db f_atts _ atts_wf); [|done]. intros a Ha. by apply delete_for_attachment_wf, set_status_wf.
  - by apply poll_tick_wf.
  - by apply outbox_sweep_wf.
  - by apply mailbox_sweep_wf.
  - by apply welcome_sweep_wf.
  - by apply chunk_sweep_wf.
Qed.

Lemma host_step_wf h h' : host_wf h → host_step h h' → host_wf h'.
Proof using Type.
  intros Hh. destruct 1 as [i cmd|d Hd|mtime entries now].
  - by apply run_command_keeps.
  - by eapply daemon_step_wf.
  - unfold retention_tick, host_wf. cbn [f_daemon fset h_daemon]. apply run_once_wf.
    assert (∀ d, daemon_wf d → daemon_wf (modify_get (E := unit) (of_db f_invites) (oi_purge_expired now) d).1) as Hp.
    { intros d Hd. apply (keeps_modify_get daemon_wf (of_db f_invites)); [apply oi_purge_wf|done]. }
    apply Hp. case_decide; [|done]. apply (keeps_modify_get daemon_wf (of_db f_messages)); [|done].
    intros a Ha. eapply messages_step_wf; [exact Ha|]. constructor.
Qed.

Lemma empty_db_wf : db_wf empty_db.
Proof using Type.
  split; cbn; [apply empty_contacts_wf|apply groups_wf_empty|apply empty_messages_wf|..];
    repeat first [apply NoDup_nil_2 | apply t_wf_empty | done | intros ? []%not_elem_of_nil | split].
Qed.

(** C4: the database stays well formed.  Start from an empty database and let any
    commands, with any arguments, inputs and failures, interleave with messages,
    Welcomes, deposits, chunks and acknowledgements that arrive, polls, sweeps and
    the retention tick.  The row ids of contacts, groups, messages, outbox, key
    packages and mailboxes are unique and below the sequence; the primary and unique
    keys of these and of outstanding invites, pending Welcomes, recorded joins,
    attachments, their chunks and their deposits hold; cards and addresses belong to
    contacts, cards with growing versions; and the search index matches the
    messages. *)
Theorem database_invariant h0 h : h_daemon h0 = start empty_db → rtc host_step h0 h → db_wf (dm_db (h_daemon h)).
Proof using Type.
  intros E. assert (host_wf h0) as H0 by (unfold host_wf, daemon_wf; rewrite E; apply empty_db_wf).
  clear E. intros Hr. change (host_wf h). revert H0. induction Hr as [h|h1 h2 h3 Hs _ IH]; [done|]. intros H1. by apply IH, (host_step_wf h1).
Qed.
End daemon_runs.
