(* ===== verification/Runs.v ===== *)
(** * Runs: a concrete daemon

    Instances of everything outside the sources, and a run of Alice's daemon: an
    invite is created by a command and accepted over a connection.  The theorems of
    [DatabaseProps] and [Execute] at that run. *)

From S2P Require Import Prelude Text Framing SimpleCodec CoreErrors Sql MailboxProtocol MailboxCodec Identity Contacts Messages.
From S2P Require Import Receiver Outbox Attachments AttachmentRepo ChunkTransfer Mls Invites FirstContact Mailboxes Api Daemon MailboxClient.
From S2P Require Import Poll ContactCommands SendCommands MailboxCommands HistoryCommands PeerFrame Inbound AttachmentCommands Delivery.
From S2P Require Import Samples Scenario Disk Pool PoolLife Vault VaultProps Config Logs Host HostProps Execute Database DatabaseProps.
Import SampleInstances HostSamples.

Module RunSamples.
#[export] Existing Instance toy_crypto.
#[export] Existing Instance PoolSamples.toy_sqlite.
#[export] Existing Instance VaultSamples.header_age.
#[export] Existing Instance VaultSamples.plain_archive.
#[export] Existing Instance VaultSamples.tag_crypto.
#[export] Existing Instance VaultSamples.codec_kdf.
#[export] Existing Instance VaultSamples.codec_vault.
#[export] Instance plain_images : ImageLibrary := {| strip_jpeg_parts b := Ok b; strip_png_parts b := Ok b |}.
#[export] Instance no_hits : Fts5 := λ _ _, Ok [].
#[export] Instance strong : Zxcvbn := λ _, 4.

Definition no_mailbox (f : MailboxFrame) (w : unit) : unit * talk_outcome := (w, Eof).
Definition the_pool : Pool := paths_in "/home/skattr" "secret".
Definition fresh_host : host := mkHost (start empty_db) (mkSession (mkDisk ∅ []) true) in_use [] log_sink_new 0 None ∅.
Definition some_inputs : inputs :=
  mkInputs 1000 1000000 (fill 32 Byte.x01) (fill 32 Byte.x04) (fill 32 Byte.x02) (fill 16 Byte.x08) (λ _, fill 32 Byte.x05)
    (λ _, fill 16 Byte.x06) (λ _, Ok transcript) false (λ _, Err "no such file") (fill 16 Byte.x09) (fill 32 Byte.x0c) None
    no_faults 1 1 (fill 16 Byte.x0d) (fill 24 Byte.x0e) ([], []).
Definition alice_runs (cmd : Command) : host_handler :=
  run_command alice (Some "alice.onion") no_mailbox None false true config_file the_pool None "1.0.0" 21 some_inputs cmd.
Definition invite_bob : Command := Cmd_CreateInvite (Some "Bob") None.
End RunSamples.
Import RunSamples.

(** Alice's database after the invite was created and accepted. *)
Lemma database_invariant_witness : db_wf (dm_db alice_joined) ∧ len (t_rows (contacts (d_contacts (dm_db alice_joined)))) = 1.
Proof.
  split; [|vm_compute; reflexivity].
  set (h1 := (alice_runs invite_bob fresh_host).1). set (h2 := fset f_daemon alice_joined h1).
  apply (database_invariant alice (Some "alice.onion") no_mailbox None false true config_file the_pool None "1.0.0" 21
    fresh_host h2); [done|].
  apply (rtc_l _ _ h1); [apply (hs_command _ _ _ _ _ _ _ _ _ _ _ _ some_inputs invite_bob)|]. apply rtc_once.
  apply hs_daemon. replace (h_daemon h1) with alice_invited by (vm_compute; reflexivity).
  apply (ds_connection _ _ _ _ _ (public bob) transcript (ReadFrame (MlsWelcome the_welcome)) 1200).
Defined.

Lemma reply_matches_command_witness :
  ∃ res, (alice_runs invite_bob fresh_host).2 = Ok res ∧ answers invite_bob res = true.
Proof.
  assert (∃ res, (alice_runs invite_bob fresh_host).2 = Ok res) as [res E] by (eexists; vm_compute; reflexivity).
  exists res. split; [exact E|].
  apply (reply_matches_command alice (Some "alice.onion") no_mailbox None false
    (Some (accept_deposit true (fill 16 Byte.x08) 1000)) config_file the_pool None "1.0.0" 21 some_inputs invite_bob fresh_host
    (alice_runs invite_bob fresh_host).1 res).
  rewrite <- E. apply surjective_pairing.
Defined.
