(* ===== verification/Noise.v ===== *)
(** * Noise: the handshake and the encrypted connection

    [crates/core/src/transport/noise.rs]: the Noise XK handshake of two peers over
    a byte stream; [transport/connection.rs]: frames sent and received over the
    result; [delivery/dial.rs]: connecting to a peer; and the whole of
    [handle_inbound_stream] of [daemon/accept.rs], from the stream on.

    The library [snow] is the class [Snow].  A stream is a [socket]: the bytes that
    will arrive and what follows them, and the bytes written. *)

From S2P Require Import Prelude Text Framing SimpleCodec CoreErrors PeerFrame Sql MailboxProtocol Identity Contacts.
From S2P Require Import Messages Attachments Mls Daemon Inbound.

(** ** [snow] *)

(** A handshake or transport state is replaced by each call that succeeds.  The
    payload of a handshake message is empty; [snow_build] takes the pattern, the
    private key, the peer's static key, the pre-shared key, the role and the
    ephemeral secret. *)
Class Snow : Type := {
  handshake_state : Type;
  transport_state : Type;
  x25519_public : bytes → bytes;
  snow_build : string → bytes → option bytes → option bytes → bool → bytes → result handshake_state string;
  hs_write : handshake_state → result (handshake_state * bytes) string;
  hs_read : bytes → handshake_state → result handshake_state string;
  hs_hash : handshake_state → bytes;
  hs_remote_static : handshake_state → option bytes;
  into_transport_mode : handshake_state → result transport_state string;
  ts_write : bytes → transport_state → result (transport_state * bytes) string;
  ts_read : bytes → transport_state → result (transport_state * bytes) string
}.

(** ** Streams *)

(** What follows the bytes of a stream: its end, an error, or nothing. *)
Inductive tail : Type := Eof | Broken (e : string) | Silent.

(** [tx_left]: the writes that still succeed, and the error of the next. *)
Record socket : Type := mkSocket { rx : bytes; rx_tail : tail; tx : bytes; tx_left : option (nat * string) }.

(** An operation fails, or waits for bytes that do not come. *)
Inductive halt : Type := Fails (e : CoreError) | Blocks.

Definition other (m : string) : CoreError := Core_Transport (Transport_Other m).

Definition write_all (b : bytes) : action socket unit string := λ s,
  match tx_left s with
  | None => (mkSocket (rx s) (rx_tail s) (tx s ++ b) None, Ok tt)
  | Some (O, e) => (s, Err e)
  | Some (S n, e) => (mkSocket (rx s) (rx_tail s) (tx s ++ b) (Some (n, e)), Ok tt)
  end.

Definition after_rx (rest : bytes) (s : socket) : socket := mkSocket rest (rx_tail s) (tx s) (tx_left s).

(** ** [transport/noise.rs] *)

Definition NOISE_PATTERN : string := "Noise_XK_25519_ChaChaPoly_BLAKE2s".
Definition NOISE_PATTERN_PSK3 : string := "Noise_XKpsk3_25519_ChaChaPoly_BLAKE2s".
Definition PROTOCOL_VERSION : byte := Byte.x01.
Definition INFO_TRANSPORT_BINDING_V1 : bytes := bytes_of_string "skattr-binding-v1".

Record HandshakeOutcome : Type := mkOutcome { peer_x25519 : bytes; h_transport : bytes }.

Definition map_snow (kind e : string) : halt := Fails (other ("handshake: " +:+ kind +:+ ": " +:+ e)).

Definition pattern_for (psk : option bytes) : string := if psk then NOISE_PATTERN_PSK3 else NOISE_PATTERN.

(** [transport/connection.rs]. *)
Record AuthenticatedConnection {snow : Snow} : Type := mkConnection {
  conn_peer_x25519 : bytes;
  conn_h_transport : bytes;
  framed : socket;
  transport : transport_state
}.

(** What becomes of an accepted stream: the connection goes to the peer's actor, or
    is closed; or the handshake failed. *)
Inductive accepted {snow : Snow} : Type :=
| Ingest (peer : bytes) (c : AuthenticatedConnection)
| Turned (c : AuthenticatedConnection)
| Refused.

(** [{:#04x}] of one byte. *)
Definition hex_digit_lower (n : Z) : Ascii.ascii :=
  Ascii.ascii_of_N (Z.to_N (if decide (n < 10) then 48 + n else 87 + n)).
Definition format_04x (b : byte) : string :=
  "0x" +:+ String (hex_digit_lower (Z_of_byte b / 16)) (String (hex_digit_lower (Z_of_byte b mod 16)) "").

Section noise.
Context {snow : Snow} {crypto : AttachmentCrypto} {scheme : SignatureScheme}.
Context `{!Serialize ErrorPayload, !Deserialize ErrorPayload}.
Context `{!Serialize ChunkRequestPayload, !Deserialize ChunkRequestPayload}.
Context `{!Serialize ChunkPayload, !Deserialize ChunkPayload}.
Context `{!Serialize ChunkNackPayload, !Deserialize ChunkNackPayload}.
Context `{!Serialize AttachmentCompletePayload, !Deserialize AttachmentCompletePayload}.
Context (sha512 : bytes → bytes).

(** [Framed::next] and [Framed::send]. *)
Definition framed_next : action socket (option Frame) halt := λ s,
  match decode (rx s) with
  | (rest, Ok (Some f)) => (after_rx rest s, Ok (Some f))
  | (rest, Err e) => (after_rx rest s, Err (Fails e))
  | (rest, Ok None) =>
      (s, match rx_tail s with
          | Eof => if decide (rest = []) then Ok None else Err (Fails (Core_Io "bytes remaining on stream"))
          | Broken e => Err (Fails (Core_Io e))
          | Silent => Err Blocks
          end)
  end.

Definition framed_send (f : Frame) : action socket unit CoreError :=
  let! b := lift (encode f []) in
  map_error Core_Io (write_all b).

Definition build_handshake (identity : IdentityKey) (remote_static invite_psk : option bytes) (initiator : bool)
    (ephemeral : bytes) : result handshake_state halt :=
  map_err (map_snow "builder")
    (snow_build (pattern_for invite_psk) (noise_static_secret sha512 identity) remote_static invite_psk initiator ephemeral).

(** The messages of the handshake: a state written to a frame, and a frame of the
    expected type read into a state. *)
Definition say (mk : bytes → Frame) (h : handshake_state) : action socket handshake_state halt :=
  let! (h', m) := lift (map_err (map_snow "authentication failed") (hs_write h)) in
  let! _ := map_error (λ e, map_snow "malformed" (display e)) (framed_send (mk m)) in
  lift (Ok h').

Definition malformed (x : halt) : halt :=
  match x with Fails e => map_snow "malformed" (display e) | Blocks => Blocks end.

Definition hear (expect : Frame → option bytes) (h : handshake_state) : action socket handshake_state halt :=
  let! o := map_error malformed framed_next in
  let! frame := lift (ok_or o (Fails (other "handshake: stream closed"))) in
  match expect frame with
  | Some p => lift (map_err (map_snow "authentication failed") (hs_read p h))
  | None => lift (Err (Fails (other ("handshake: malformed: unexpected frame type 0x" +:+
                                     format_02X (FrameType_byte (frame_type frame))))))
  end.

Definition as_init (f : Frame) : option bytes := match f with NoiseInit p => Some p | _ => None end.
Definition as_resp (f : Frame) : option bytes := match f with NoiseResp p => Some p | _ => None end.

(** The stream moves into the connection. *)
Definition finish_handshake (h : handshake_state) : action socket (AuthenticatedConnection * HandshakeOutcome) halt :=
  let! ht := lift (map_err Fails (hkdf_expand 32 (hs_hash h) INFO_TRANSPORT_BINDING_V1)) in
  let! peer := lift (ok_or (hs_remote_static h) (Fails (other "handshake: builder: missing remote static"))) in
  let! ts := lift (map_err (map_snow "builder") (into_transport_mode h)) in
  gets (λ s, (mkConnection _ peer ht s ts, mkOutcome peer ht)).

Definition do_initiator (identity : IdentityKey) (peer_static : bytes) (invite_psk : option bytes) (ephemeral : bytes)
    : action socket (AuthenticatedConnection * HandshakeOutcome) halt :=
  let! _ := map_error (map_snow "stream") (write_all [PROTOCOL_VERSION]) in
  let! h := lift (build_handshake identity (Some peer_static) invite_psk true ephemeral) in
  let! h := say NoiseInit h in
  let! h := hear as_resp h in
  let! h := say NoiseInit h in
  finish_handshake h.

(** [read_exact] of one byte. *)
Definition read_version : action socket byte halt := λ s,
  match rx s with
  | b :: rest => (after_rx rest s, Ok b)
  | [] => (s, Err match rx_tail s with
                  | Eof => Fails (other "handshake: stream closed")
                  | Broken e => map_snow "stream" e
                  | Silent => Blocks
                  end)
  end.

Definition do_responder (identity : IdentityKey) (invite_psk : option bytes) (ephemeral : bytes)
    : action socket (AuthenticatedConnection * HandshakeOutcome) halt :=
  let! ver := read_version in
  let! _ := ensure (bool_decide (ver = PROTOCOL_VERSION))
    (Fails (other ("handshake: unsupported version: " +:+ format_04x ver))) in
  let! h := lift (build_handshake identity None invite_psk false ephemeral) in
  let! h := hear as_init h in
  let! h := say NoiseResp h in
  let! h := hear as_init h in
  finish_handshake h.

(** [tokio::time::timeout]: [rx] holds what arrives before the deadline. *)
Definition timed (x : halt) : CoreError :=
  match x with Fails e => e | Blocks => other "handshake: timeout" end.

Definition handshake_initiator (identity : IdentityKey) (peer_static : bytes) (invite_psk : option bytes)
    (ephemeral : bytes) : action socket (AuthenticatedConnection * HandshakeOutcome) CoreError :=
  map_error timed (do_initiator identity peer_static invite_psk ephemeral).

Definition handshake_responder (identity : IdentityKey) (invite_psk : option bytes) (ephemeral : bytes)
    : action socket (AuthenticatedConnection * HandshakeOutcome) CoreError :=
  map_error timed (do_responder identity invite_psk ephemeral).

(** ** [transport/connection.rs] *)

Definition f_framed : field AuthenticatedConnection socket :=
  mkField framed (λ s c, mkConnection _ (conn_peer_x25519 c) (conn_h_transport c) s (transport c)).
Definition f_transport : field AuthenticatedConnection transport_state :=
  mkField transport (λ t c, mkConnection _ (conn_peer_x25519 c) (conn_h_transport c) (framed c) t).

Definition NOISE_MAX_OUTER : Z := 65519.

Definition send (frame : Frame) : action AuthenticatedConnection unit CoreError :=
  let! inner := lift (encode frame []) in
  let! _ := ensure (bool_decide (len inner ≤ NOISE_MAX_OUTER))
    (other ("send: inner frame too large for single Noise message: " +:+ pretty (len inner) +:+ " bytes")) in
  let! cipher := on_tx f_transport (λ t, map_err (λ e, other ("send: " +:+ e)) (ts_write inner t)) in
  on f_framed (map_error (λ e, other ("send: " +:+ display e)) (framed_send (MlsApp cipher))).

(** The inner frame of a decrypted message. *)
Definition inner_frame (clear : bytes) : result Frame CoreError :=
  match decode clear with
  | (_, Err e) => Err e
  | (buf, Ok (Some inner)) =>
      if decide (buf = []) then Ok inner else Err (other "recv: inner frame left trailing bytes")
  | (_, Ok None) => Err (other "recv: inner frame was incomplete")
  end.

Definition recv : action AuthenticatedConnection (option Frame) halt :=
  let! next := on f_framed framed_next in
  match next with
  | None => lift (Ok None)
  | Some (MlsApp cipher) =>
      let! clear := on_tx f_transport (λ t,
        map_err (λ e, Fails (other ("recv: authentication failed: " +:+ e))) (ts_read cipher t)) in
      let! inner := lift (map_err Fails (inner_frame clear)) in
      lift (Ok (Some inner))
  | Some f => lift (Err (Fails (other ("recv: expected MlsApp, got type 0x" +:+
                                       format_02X (FrameType_byte (frame_type f))))))
  end.

(** [close]: a [Bye] if it can be sent; the stream is dropped. *)
Definition close (c : AuthenticatedConnection) : AuthenticatedConnection := (send Bye c).1.

(** ** [delivery/dial.rs] *)

Definition ONION_PORT : Z := 9735.

(** What [Transport::dial] answers within the deadline, if it does. *)
Definition dial_onion (answer : string → Z → option (result socket CoreError)) (identity : IdentityKey) (ephemeral : bytes)
    (peer : bytes) (onion : string) : result (AuthenticatedConnection * bytes) CoreError :=
  let? stream := match answer onion ONION_PORT with
                 | Some r => r
                 | None => Err (Core_Delivery Delivery_Timeout)
                 end in
  let? _ := if key_on_curve peer then Ok tt
            else Err (Core_Delivery (Delivery_Other "no route to peer: malformed peer identity key")) in
  let? (conn, outcome) := (handshake_initiator identity (ed25519_pub_to_x25519 peer) None ephemeral stream).2 in
  Ok (conn, h_transport outcome).

Definition dial `{!Deserialize ContactCard} (answer : string → Z → option (result socket CoreError))
    (identity : IdentityKey) (ephemeral peer : bytes) (db : contacts_db)
    : result (AuthenticatedConnection * bytes) CoreError :=
  let? o := latest_card peer db in
  let? card := ok_or o (Core_Delivery (Delivery_Other "no route to peer: no contact card")) in
  dial_onion answer identity ephemeral peer (card_onion (card_body card)).

(** ** [daemon/accept.rs] *)

Context {om : OpenMls} {sha : Sha256} {b2 : Blake2s} {ser_p : Serialize provider} {de_p : Deserialize provider}.
Context {de_card : Deserialize ContactCard} (wired : option IdentityKey).

(** [tokio::time::timeout(WELCOME_READ_TIMEOUT, conn.recv())]. *)
Definition read_first (c : AuthenticatedConnection) : AuthenticatedConnection * first_read :=
  let '(c', r) := recv c in
  (c', match r with
       | Ok (Some f) => ReadFrame f
       | Ok None => ReadClosed
       | Err (Fails _) => ReadError
       | Err Blocks => ReadTimeout
       end).

(** [handle_inbound_stream]: only an unknown peer's first frame is read here. *)
Definition accept_stream (identity : IdentityKey) (ephemeral : bytes) (now : Z) (s : socket) (d : daemon)
    : daemon * accepted :=
  match (handshake_responder identity None ephemeral s).2 with
  | Err _ => (d, Refused)
  | Ok (conn, outcome) =>
      let '(conn', first) := match find_by_noise_x25519 (peer_x25519 outcome) (d_contacts (dm_db d)) with
                             | Ok None => read_first conn
                             | _ => (conn, ReadTimeout)
                             end in
      match handle_inbound_stream wired (peer_x25519 outcome) (h_transport outcome) first now d with
      | (d', Ingested peer None) => (d', Ingest peer conn')
      | (d', Ingested peer (Some id)) => (d', Ingest peer (send (Ack id) conn').1)
      | (d', Closed) => (d', Turned (close conn'))
      end
  end.
End noise.
