(* ===== verification/NoiseProps.v ===== *)
(** * NoiseProps: the handshake and the connection are correct

    What [Noise] promises its callers, given what [snow] documents: two peers that
    run the handshake against each other agree, frames sent over the connection are
    received in order, and a dialled connection is one to the peer dialled.  Last, the
    composition with the accept path of [Inbound]: a peer dials, sends its Welcome over
    the fresh connection and reads the acknowledgement. *)

From S2P Require Import Prelude Text Framing SimpleCodec CoreErrors PeerFrame Sql MailboxProtocol Identity Contacts.
From S2P Require Import Messages Attachments Mls Daemon Inbound Noise.

(** ** The laws of [snow] *)

(** The three messages of XK between [i] and [r], and what both sides know then. *)
Definition xk_exchange {snow : Snow} (linked : transport_state → transport_state → Prop) (i r : handshake_state)
    (static_i static_r : bytes) : Prop :=
  ∃ i1 i2 i3 r1 r2 r3 m1 m2 m3 ti tr,
    hs_write i = Ok (i1, m1) ∧ hs_read m1 r = Ok r1 ∧
    hs_write r1 = Ok (r2, m2) ∧ hs_read m2 i1 = Ok i2 ∧
    hs_write i2 = Ok (i3, m3) ∧ hs_read m3 r2 = Ok r3 ∧
    len m1 ≤ 65535 ∧ len m2 ≤ 65535 ∧ len m3 ≤ 65535 ∧
    hs_hash i3 = hs_hash r3 ∧ hs_remote_static i3 = Some static_r ∧ hs_remote_static r3 = Some static_i ∧
    into_transport_mode i3 = Ok ti ∧ into_transport_mode r3 = Ok tr ∧ linked ti tr ∧ linked tr ti.

(** [linked a b]: [b] has read what [a] has written.  The two directions of a
    transport state are independent of each other. *)
Class SnowLaws {snow : Snow} : Type := {
  linked : transport_state → transport_state → Prop;
  xk_completes psk ski skr ei er :
    len ski = 32 → len skr = 32 → (∀ k, psk = Some k → len k = 32) → len ei = 32 → len er = 32 →
    ∃ i r, snow_build (pattern_for psk) ski (Some (x25519_public skr)) psk true ei = Ok i ∧
      snow_build (pattern_for psk) skr None psk false er = Ok r ∧
      xk_exchange linked i r (x25519_public ski) (x25519_public skr);
  initiator_static pattern sk rs psk e h h1 h2 h3 m1 m2 m3 :
    snow_build pattern sk (Some rs) psk true e = Ok h →
    hs_write h = Ok (h1, m1) → hs_read m2 h1 = Ok h2 → hs_write h2 = Ok (h3, m3) → hs_remote_static h3 = Some rs;
  linked_write a b m : linked a b → len m ≤ NOISE_MAX_OUTER →
    ∃ a' b' c, ts_write m a = Ok (a', c) ∧ len c = len m + 16 ∧ ts_read c b = Ok (b', m) ∧ linked a' b';
  linked_peer_writes a b b' m c : linked a b → ts_write m b = Ok (b', c) → linked a b';
  linked_reads a a' b m c : linked a b → ts_read c a = Ok (a', m) → linked a' b;
  duplex_commutes b b1 b2 m c p q : ts_read c b = Ok (b1, m) → ts_write p b = Ok (b2, q) →
    ∃ b3, ts_read c b2 = Ok (b3, m) ∧ ts_write p b1 = Ok (b3, q)
}.

(** ** Single steps *)

(** The results of receives that yielded these frames. *)
Abbreviation got_frames l := ((λ f : Frame, Ok (E := CoreError) (Some f)) <$> l).

(** A stream with these bytes to read and nothing after them, and these written. *)
Abbreviation silent r t := (mkSocket r Silent t None).

Section noise_facts.
Context {snow : Snow} {crypto : AttachmentCrypto} {scheme : SignatureScheme}.
Context `{!Serialize ErrorPayload, !Deserialize ErrorPayload}.
Context `{!Serialize ChunkRequestPayload, !Deserialize ChunkRequestPayload}.
Context `{!Serialize ChunkPayload, !Deserialize ChunkPayload}.
Context `{!Serialize ChunkNackPayload, !Deserialize ChunkNackPayload}.
Context `{!Serialize AttachmentCompletePayload, !Deserialize AttachmentCompletePayload}.
Context `{!CborRoundtrip ErrorPayload, !CborRoundtrip ChunkRequestPayload}.
Context `{!CborRoundtrip ChunkPayload, !CborRoundtrip ChunkNackPayload}.
Context `{!CborRoundtrip AttachmentCompletePayload}.
Context (sha512 : bytes → bytes).

(** The three frames whose payload is not encoded. *)
Definition raw (mk : bytes → Frame) : Prop := mk = NoiseInit ∨ mk = NoiseResp ∨ mk = MlsApp.

Lemma encode_raw mk p : raw mk → len p ≤ 65535 → ∃ b, encode (mk p) [] = Ok b.
Proof using Type.
  intros Hm Hp. assert (∃ t, encode_payload (mk p) = Ok (t, p)) as [t Ht]
    by (destruct Hm as [->|[->| ->]]; eexists; done).
  unfold encode. rewrite Ht. cbn [bind_result]. unfold write_frame, MAX_FRAME_SIZE. rewrite decide_False by lia. eauto.
Qed.

Lemma wf_raw mk p : raw mk → wf_frame (mk p).
Proof using Type. by intros [->|[->| ->]]. Qed.

Lemma framed_next_frame f b rest e t l :
  wf_frame f → encode f [] = Ok b → framed_next (mkSocket (b ++ rest) e t l) = (mkSocket rest e t l, Ok (Some f)).
Proof using -(sha512). intros Hwf Hb. unfold framed_next. cbn [rx]. by rewrite (decode_encode f b rest Hwf Hb). Qed.

Lemma framed_send_all f b r e t :
  encode f [] = Ok b → framed_send f (mkSocket r e t None) = (mkSocket r e (t ++ b) None, Ok tt).
Proof using Type. intros Hb. unfold framed_send, bind_action, lift. by rewrite Hb. Qed.

Lemma say_all mk h h' m b r e t :
  hs_write h = Ok (h', m) → encode (mk m) [] = Ok b →
  say mk h (mkSocket r e t None) = (mkSocket r e (t ++ b) None, Ok h').
Proof using Type.
  intros Hw Hb. unfold say, bind_action, lift at 1. rewrite Hw. cbn [map_err].
  unfold map_error. by rewrite (framed_send_all _ b).
Qed.

Lemma hear_frame mk expect h h' m b rest e t l :
  raw mk → expect (mk m) = Some m → hs_read m h = Ok h' → encode (mk m) [] = Ok b →
  hear expect h (mkSocket (b ++ rest) e t l) = (mkSocket rest e t l, Ok h').
Proof using -(sha512).
  intros Hm He Hr Hb. unfold hear, bind_action, map_error.
  rewrite (framed_next_frame (mk m)) by (done || by apply wf_raw). cbn. by rewrite He, Hr.
Qed.

Lemma hear_silent expect h t l : hear expect h (mkSocket [] Silent t l) = (mkSocket [] Silent t l, Err Blocks).
Proof using Type. done. Qed.

Lemma finish_ok h ht peer ts s :
  hkdf_sha256 (hs_hash h) INFO_TRANSPORT_BINDING_V1 32 = Ok ht → hs_remote_static h = Some peer →
  into_transport_mode h = Ok ts →
  finish_handshake h s = (s, Ok (mkConnection _ peer ht s ts, mkOutcome peer ht)).
Proof using Type.
  intros Hh Hp Ht. unfold finish_handshake, bind_action, lift, hkdf_expand. rewrite Hh. cbn. rewrite Hp. cbn. by rewrite Ht.
Qed.

Lemma len_static k : len (sha512 (secret k)) = 64 → len (noise_static_secret sha512 k) = 32.
Proof using Type.
  intros H. unfold noise_static_secret, clamp, len in *. rewrite !length_insert, length_take. lia.
Qed.

(** ** Agreement *)

Context {laws : SnowLaws}.

(** The two keys of an identity belong together. *)
Definition bridged (k : IdentityKey) : Prop := x25519_public (noise_static_secret sha512 k) = noise_static_public k.

Lemma bind_run {S T U E} (c : action S T E) (k : T → action S U E) s s' t : c s = (s', Ok t) → bind_action c k s = k t s'.
Proof using Type. unfold bind_action. by intros ->. Qed.

(** What each side does, message by message. *)
Lemma initiator_starts k rs psk e h h1 m1 b1 :
  build_handshake sha512 k (Some rs) psk true e = Ok h → hs_write h = Ok (h1, m1) → encode (NoiseInit m1) [] = Ok b1 →
  do_initiator sha512 k rs psk e (silent [] []) = (silent [] (PROTOCOL_VERSION :: b1), Err Blocks).
Proof using Type.
  intros Hb W1 B1. unfold do_initiator. do 2 (erewrite bind_run; [|cbn; unfold lift; by rewrite ?Hb]).
  erewrite bind_run by (by apply (say_all _ _ _ _ _ _ _ _ W1 B1)). done.
Qed.

Lemma initiator_finishes k rs psk e h h1 h2 h3 m1 m2 m3 b1 b2 b3 ht ts more en :
  build_handshake sha512 k (Some rs) psk true e = Ok h →
  hs_write h = Ok (h1, m1) → hs_read m2 h1 = Ok h2 → hs_write h2 = Ok (h3, m3) →
  encode (NoiseInit m1) [] = Ok b1 → encode (NoiseResp m2) [] = Ok b2 → encode (NoiseInit m3) [] = Ok b3 →
  hkdf_sha256 (hs_hash h3) INFO_TRANSPORT_BINDING_V1 32 = Ok ht → hs_remote_static h3 = Some rs →
  into_transport_mode h3 = Ok ts → let s := mkSocket more en ((PROTOCOL_VERSION :: b1) ++ b3) None in
  do_initiator sha512 k rs psk e (mkSocket (b2 ++ more) en [] None) = (s, Ok (mkConnection _ rs ht s ts, mkOutcome rs ht)).
Proof using All.
  intros Hb W1 R2 W3 B1 B2 B3 Hh Hs Ht s. unfold do_initiator.
  do 2 (erewrite bind_run; [|cbn; unfold lift; by rewrite ?Hb]).
  erewrite bind_run by (by apply (say_all _ _ _ _ _ _ _ _ W1 B1)).
  erewrite bind_run by (by apply (hear_frame NoiseResp _ _ _ _ _ _ _ _ _ (or_intror (or_introl eq_refl)) eq_refl R2 B2)).
  erewrite bind_run by (by apply (say_all _ _ _ _ _ _ _ _ W3 B3)).
  by apply finish_ok.
Qed.

Lemma responder_answers k psk e h h1 h2 m1 m2 b1 b2 :
  build_handshake sha512 k None psk false e = Ok h → hs_read m1 h = Ok h1 → hs_write h1 = Ok (h2, m2) →
  encode (NoiseInit m1) [] = Ok b1 → encode (NoiseResp m2) [] = Ok b2 →
  do_responder sha512 k psk e (silent (PROTOCOL_VERSION :: b1) []) = (silent [] b2, Err Blocks).
Proof using All.
  intros Hb R1 W2 B1 B2. unfold do_responder. do 3 (erewrite bind_run; [|cbn; unfold lift; by rewrite ?Hb]).
  cbn [after_rx rx rx_tail tx tx_left]. rewrite <- (app_nil_r b1).
  erewrite bind_run by (by apply (hear_frame NoiseInit _ _ _ _ _ _ _ _ _ (or_introl eq_refl) eq_refl R1 B1)).
  by erewrite bind_run by (by apply (say_all _ _ _ _ _ _ _ _ W2 B2)).
Qed.

Lemma responder_finishes k psk e h h1 h2 h3 m1 m2 m3 b1 b2 b3 ht rs ts more en :
  build_handshake sha512 k None psk false e = Ok h →
  hs_read m1 h = Ok h1 → hs_write h1 = Ok (h2, m2) → hs_read m3 h2 = Ok h3 →
  encode (NoiseInit m1) [] = Ok b1 → encode (NoiseResp m2) [] = Ok b2 → encode (NoiseInit m3) [] = Ok b3 →
  hkdf_sha256 (hs_hash h3) INFO_TRANSPORT_BINDING_V1 32 = Ok ht → hs_remote_static h3 = Some rs →
  into_transport_mode h3 = Ok ts → let s := mkSocket more en b2 None in
  do_responder sha512 k psk e (mkSocket ((PROTOCOL_VERSION :: b1) ++ b3 ++ more) en [] None) =
    (s, Ok (mkConnection _ rs ht s ts, mkOutcome rs ht)).
Proof using All.
  intros Hb R1 W2 R3 B1 B2 B3 Hh Hs Ht s. unfold do_responder.
  do 3 (erewrite bind_run; [|cbn; unfold lift; by rewrite ?Hb]). cbn [after_rx rx rx_tail tx tx_left].
  erewrite bind_run by (by apply (hear_frame NoiseInit _ _ _ _ _ _ _ _ _ (or_introl eq_refl) eq_refl R1 B1)).
  erewrite bind_run by (by apply (say_all _ _ _ _ _ _ _ _ W2 B2)).
  erewrite bind_run by (by apply (hear_frame NoiseInit _ _ _ _ _ _ _ _ _ (or_introl eq_refl) eq_refl R3 B3)).
  by apply finish_ok.
Qed.

(** The environment of two honest peers. *)
Record honest (a b : IdentityKey) (psk : option bytes) (ea eb : bytes) : Prop := mkHonest {
  hon_bridged_a : bridged a;
  hon_bridged_b : bridged b;
  hon_sha512 : ∀ k, len (sha512 k) = 64;
  hon_psk : ∀ k, psk = Some k → len k = 32;
  hon_ea : len ea = 32;
  hon_eb : len eb = 32;
  hon_hkdf : ∀ hh, ∃ okm, hkdf_sha256 hh INFO_TRANSPORT_BINDING_V1 32 = Ok okm
}.

Definition agreement (a b : IdentityKey) (psk : option bytes) (ea eb : bytes) : Prop :=
  ∃ w1 w2 w3 ht ta tb,
    handshake_initiator sha512 a (noise_static_public b) psk ea (silent [] []) =
      (silent [] w1, Err (other "handshake: timeout")) ∧
    handshake_responder sha512 b psk eb (silent w1 []) = (silent [] w2, Err (other "handshake: timeout")) ∧
    (∀ more e, let s := mkSocket more e (w1 ++ w3) None in
       handshake_initiator sha512 a (noise_static_public b) psk ea (mkSocket (w2 ++ more) e [] None) =
       (s, Ok (mkConnection _ (noise_static_public b) ht s ta, mkOutcome (noise_static_public b) ht))) ∧
    (∀ more e, let s := mkSocket more e w2 None in
       handshake_responder sha512 b psk eb (mkSocket (w1 ++ w3 ++ more) e [] None) =
       (s, Ok (mkConnection _ (noise_static_public a) ht s tb, mkOutcome (noise_static_public a) ht))) ∧
    linked ta tb ∧ linked tb ta.

Lemma peers_agree a b psk ea eb : honest a b psk ea eb → agreement a b psk ea eb.
Proof using All.
  intros [Ha Hb H512 Hpsk Hea Heb Hkdf].
  destruct (xk_completes psk (noise_static_secret sha512 a) (noise_static_secret sha512 b) ea eb) as
    (i & r & Hi & Hr & i1 & i2 & i3 & r1 & r2 & r3 & m1 & m2 & m3 & ti & tr & W1 & R1 & W2 & R2 & W3 & R3 & L1 & L2 & L3 & Hh &
     Si & Sr & Ti & Tr & Lir & Lri); try (done || by apply len_static).
  rewrite Ha, Hb in *.
  destruct (encode_raw NoiseInit m1) as [b1 B1]; [by left|lia|].
  destruct (encode_raw NoiseResp m2) as [b2 B2]; [by right; left|lia|].
  destruct (encode_raw NoiseInit m3) as [b3 B3]; [by left|lia|].
  destruct (Hkdf (hs_hash i3)) as [ht Hht].
  assert (build_handshake sha512 a (Some (noise_static_public b)) psk true ea = Ok i) as Bi
    by (unfold build_handshake; by rewrite Hi).
  assert (build_handshake sha512 b None psk false eb = Ok r) as Br by (unfold build_handshake; by rewrite Hr).
  exists (PROTOCOL_VERSION :: b1), b2, b3, ht, ti, tr. unfold handshake_initiator, handshake_responder, map_error.
  repeat split; [..|done|done].
  - by rewrite (initiator_starts _ _ _ _ i i1 m1 b1).
  - by rewrite (responder_answers _ _ _ r r1 r2 m1 m2 b1 b2).
  - intros more e. by rewrite (initiator_finishes _ _ _ _ i i1 i2 i3 m1 m2 m3 b1 b2 b3 ht ti).
  - intros more e. rewrite Hh in Hht. by rewrite (responder_finishes _ _ _ r r1 r2 r3 m1 m2 m3 b1 b2 b3 ht (noise_static_public a) tr).
Qed.

(** ** Frames over a connection *)

(** [pending a b fs w]: the bytes [w] are the frames [fs], written by [a] and not
    yet read by [b]. *)
Inductive pending : transport_state → transport_state → list Frame → bytes → Prop :=
| pending_nil a b : linked a b → pending a b [] []
| pending_cons a b b' f inner c w0 fs w :
    wf_frame f → encode f [] = Ok inner → ts_read c b = Ok (b', inner) → encode (MlsApp c) [] = Ok w0 →
    pending a b' fs w → pending a b (f :: fs) (w0 ++ w).

Lemma pending_write a b fs w f inner :
  pending a b fs w → wf_frame f → encode f [] = Ok inner → len inner ≤ NOISE_MAX_OUTER →
  ∃ a' c w0, ts_write inner a = Ok (a', c) ∧ encode (MlsApp c) [] = Ok w0 ∧ pending a' b (fs ++ [f]) (w ++ w0).
Proof using Type.
  intros H Hf Hi Hmax. induction H as [a b Hl|a b b' f0 inner0 c0 w0 fs w Hf0 Hi0 Hr Hw0 H IH].
  - destruct (linked_write a b inner Hl Hmax) as (a' & b' & c & Hw & Hc & Hr & Hl').
    destruct (encode_raw MlsApp c) as [w0 Hw0]; [by right; right|unfold NOISE_MAX_OUTER in *; lia|].
    exists a', c, w0. do 2 (split; [done|]). rewrite <- (app_nil_r w0). simpl. by econstructor; [..|constructor].
  - destruct (IH) as (a' & c & w1 & ? & ? & ?). exists a', c, w1. do 2 (split; [done|]).
    rewrite <- app_assoc. simpl. by econstructor.
Qed.

Lemma pending_peer_writes a b fs w m b1 c : pending a b fs w → ts_write m b = Ok (b1, c) → pending a b1 fs w.
Proof using Type.
  intros H. revert b1. induction H as [a b Hl|a b b' f0 inner0 c0 w0 fs w Hf0 Hi0 Hr Hw0 H IH]; intros b1 Hw.
  - constructor. by eapply linked_peer_writes.
  - destruct (duplex_commutes _ _ _ _ _ _ _ Hr Hw) as (b3 & Hr3 & Hw3). econstructor; eauto.
Qed.

Lemma pending_reads a a' b fs w m c : pending a b fs w → ts_read c a = Ok (a', m) → pending a' b fs w.
Proof using Type.
  intros H Hr. induction H as [a b Hl|]; [constructor; by eapply linked_reads|]. econstructor; eauto.
Qed.

(** An operating stream, with these bytes to read and these written. *)
Definition calm (c : AuthenticatedConnection) : Prop := rx_tail (framed c) = Silent ∧ tx_left (framed c) = None.

(** [c'] is [c] with another transport state, after reading down to [r] and writing
    [t]. *)
Definition moved (c c' : AuthenticatedConnection) (ts : transport_state) (r t : bytes) : Prop :=
  c' = mkConnection _ (conn_peer_x25519 c) (conn_h_transport c) (silent r (tx (framed c) ++ t)) ts.

Lemma send_refused f c :
  (∀ inner, encode f [] = Ok inner → NOISE_MAX_OUTER < len inner) → ∃ e, send f c = (c, Err e).
Proof using Type.
  intros H. unfold send, bind_action, lift. destruct (encode f []) as [inner|e]; [|eauto].
  unfold ensure. rewrite bool_decide_eq_false_2 by (specialize (H inner eq_refl); lia). eauto.
Qed.

Lemma send_run f c inner ts ct w0 :
  calm c → encode f [] = Ok inner → len inner ≤ NOISE_MAX_OUTER → ts_write inner (transport c) = Ok (ts, ct) →
  encode (MlsApp ct) [] = Ok w0 → ∃ c', send f c = (c', Ok tt) ∧ moved c c' ts (rx (framed c)) w0.
Proof using Type.
  intros [Hs Ht] Hi Hl Hw Hw0. destruct c as [x h [r e t l] ts0]. cbn in Hs, Ht, Hw. subst e l.
  eexists. split; [|reflexivity]. unfold send. erewrite bind_run by (unfold lift; by rewrite Hi).
  erewrite bind_run by (unfold ensure; by rewrite bool_decide_eq_true_2).
  erewrite bind_run by (unfold on_tx; cbn; by rewrite Hw). unfold on, map_error.
  cbn [fget fset f_framed f_transport framed]. by rewrite (framed_send_all _ w0).
Qed.

(** A send on one side. *)
Lemma send_pending f c b fs w :
  calm c → wf_frame f → pending (transport c) b fs w →
  (∃ e, send f c = (c, Err e)) ∨
  ∃ c' inner ts ct w0, send f c = (c', Ok tt) ∧ ts_write inner (transport c) = Ok (ts, ct) ∧
    moved c c' ts (rx (framed c)) w0 ∧ pending ts b (fs ++ [f]) (w ++ w0).
Proof using Type.
  intros Hc Hf Hp. destruct (encode f []) as [inner|e] eqn:Hi.
  2:{ left. apply send_refused. by rewrite Hi. }
  destruct (decide (len inner ≤ NOISE_MAX_OUTER)) as [Hl|Hl].
  2:{ left. apply send_refused. rewrite Hi. intros ? [= <-]. lia. }
  right. destruct (pending_write _ _ _ _ _ _ Hp Hf Hi Hl) as (ts & ct & w0 & Hw & Hw0 & Hp').
  destruct (send_run _ _ _ _ _ _ Hc Hi Hl Hw Hw0) as (c' & Hs & Hm). by exists c', inner, ts, ct, w0.
Qed.

(** The bytes of a frame that has not arrived whole are not read. *)
Lemma framed_next_partial f b r t t0 suf :
  encode f [] = Ok b → r ++ t = b ++ suf → (length r < length b)%nat →
  framed_next (silent r t0) = (silent r t0, Err Blocks).
Proof using Type.
  intros (ty & p & w & _ & Hw & ->)%encode_Ok_inv Heq Hlt. simpl in *.
  assert (∃ x, w = r ++ x ∧ x ≠ []) as (x & Hx & Hne).
  { exists (drop (length r) w). split.
    - rewrite <- (take_drop (length r) w) at 1. f_equal.
      apply (f_equal (take (length r))) in Heq. rewrite take_app_length in Heq.
      rewrite Heq at 2. by rewrite take_app_le by lia.
    - intros E. apply (f_equal length) in E. rewrite length_drop in E. simpl in E. lia. }
  unfold framed_next. cbn [rx]. unfold decode. by rewrite (read_header_prefix _ _ _ _ _ Hw Hx Hne).
Qed.

Lemma inner_frame_encoded f inner : wf_frame f → encode f [] = Ok inner → inner_frame inner = Ok f.
Proof using -(sha512).
  intros Hf Hi. unfold inner_frame. pose proof (decode_encode f inner [] Hf Hi) as H. rewrite app_nil_r in H. by rewrite H.
Qed.

(** A receive on the other side: the next frame, or nothing yet. *)
Lemma recv_pending c a fs t :
  calm c → pending a (transport c) fs (rx (framed c) ++ t) →
  (recv c = (c, Err Blocks) ∧ (t = [] → fs = [])) ∨
  ∃ f fs' c' ct inner ts r, fs = f :: fs' ∧ recv c = (c', Ok (Some f)) ∧ ts_read ct (transport c) = Ok (ts, inner) ∧
    moved c c' ts r [] ∧ pending a ts fs' (r ++ t).
Proof using -(sha512).
  destruct c as [x h [r e o l] ts0]. intros [He Hl] Hp. cbn in He, Hl, Hp. subst e l. remember (r ++ t) as w1 eqn:H1. revert H1.
  inversion Hp as [a0 b0 Hlk|a0 b0 b' f inner c w0 fs' w Hf Hi Hr Hw0 Hp']; subst; intros H1; symmetry in H1.
  - left. apply app_nil in H1 as [-> ->]. done.
  - destruct (decide (length w0 ≤ length r)%nat) as [Hle|Hlt].
    + right. assert (∃ r', r = w0 ++ r' ∧ r' ++ t = w) as (r' & -> & <-).
      { apply app_eq_inv in H1 as [(k & -> & ->)|(k & -> & ->)].
        - exists k. done.
        - rewrite length_app in Hle. destruct k; [|simpl in Hle; lia]. exists []. by rewrite !app_nil_r. }
      exists f, fs'. eexists _, c, inner, b', r'. split; [done|]. split; [|done].
      unfold recv. erewrite bind_run.
      2:{ unfold on. cbn [fget f_framed framed]. rewrite (framed_next_frame (MlsApp c)) by done. reflexivity. }
      cbv beta iota. erewrite bind_run by (unfold on_tx; cbn; by rewrite Hr).
      erewrite bind_run by (unfold lift; by rewrite (inner_frame_encoded f)).
      unfold lift. cbn. by rewrite app_nil_r.
    + left. split.
      * unfold recv, bind_action, on. cbn [fget f_framed framed]. by rewrite (framed_next_partial _ _ _ _ _ _ Hw0 H1) by lia.
      * intros ->. rewrite app_nil_r in H1. apply (f_equal length) in H1. rewrite length_app in H1. lia.
Qed.

(** A frame that fits is sent, and the only frame on the way is received. *)
Lemma send_fits f c b inner :
  calm c → wf_frame f → encode f [] = Ok inner → len inner ≤ NOISE_MAX_OUTER → pending (transport c) b [] [] →
  ∃ c' ts ct w0, send f c = (c', Ok tt) ∧ ts_write inner (transport c) = Ok (ts, ct) ∧ moved c c' ts (rx (framed c)) w0 ∧
    pending ts b [f] w0.
Proof using Type.
  intros Hc Hf Hi Hl Hp. destruct (pending_write _ _ _ _ _ _ Hp Hf Hi Hl) as (ts & ct & w0 & Hw & Hw0 & Hp').
  destruct (send_run _ _ _ _ _ _ Hc Hi Hl Hw Hw0) as (c' & Hs & Hm). by exists c', ts, ct, w0.
Qed.

Lemma recv_only f c a :
  calm c → pending a (transport c) [f] (rx (framed c)) →
  ∃ c' ct inner ts, recv c = (c', Ok (Some f)) ∧ ts_read ct (transport c) = Ok (ts, inner) ∧ moved c c' ts [] [] ∧
    pending a ts [] [].
Proof using -(sha512).
  intros Hc Hp. rewrite <- (app_nil_r (rx _)) in Hp.
  destruct (recv_pending _ _ _ _ Hc Hp) as [[_ Hn]|(f' & fs' & c' & ct & inner & ts & r & [= <- <-] & Hr & Hd & Hm & Hp1)].
  { by specialize (Hn eq_refl). }
  rewrite app_nil_r in Hp1. assert (r = []) as -> by by inversion Hp1. by exists c', ct, inner, ts.
Qed.

(** ** Two ends and the bytes between them *)

Record duplex : Type := mkDuplex {
  near : AuthenticatedConnection;
  far : AuthenticatedConnection;
  near_sent : list Frame;
  far_sent : list Frame;
  near_got : list (result (option Frame) CoreError);
  far_got : list (result (option Frame) CoreError)
}.

Definition flip (d : duplex) : duplex :=
  mkDuplex (far d) (near d) (far_sent d) (near_sent d) (far_got d) (near_got d).

(** What happens at one end: a send, a receive, or that the network carries some
    of the bytes written there to the other end. *)
Inductive net_event : Type := Sends (f : Frame) | Carries (n : nat) | Receives.

Definition with_rx (r : bytes) (c : AuthenticatedConnection) : AuthenticatedConnection :=
  fset f_framed (mkSocket r (rx_tail (framed c)) (tx (framed c)) (tx_left (framed c))) c.
Definition with_tx (t : bytes) (c : AuthenticatedConnection) : AuthenticatedConnection :=
  fset f_framed (mkSocket (rx (framed c)) (rx_tail (framed c)) t (tx_left (framed c))) c.

Definition act (e : net_event) (d : duplex) : duplex :=
  match e with
  | Sends f =>
      let '(c, r) := send f (near d) in
      mkDuplex c (far d) (near_sent d ++ if is_ok r then [f] else []) (far_sent d) (near_got d) (far_got d)
  | Carries n =>
      mkDuplex (with_tx (drop n (tx (framed (near d)))) (near d))
        (with_rx (rx (framed (far d)) ++ take n (tx (framed (near d)))) (far d))
        (near_sent d) (far_sent d) (near_got d) (far_got d)
  | Receives =>
      let '(c, r) := recv (near d) in
      mkDuplex c (far d) (near_sent d) (far_sent d)
        (near_got d ++ match r with Ok x => [Ok x] | Err (Fails e) => [Err e] | Err Blocks => [] end) (far_got d)
  end.

(** The end an event happens at: the near one, or the far one. *)
Inductive end_of : Type := Near | Far.
Definition happens (d : duplex) (e : end_of * net_event) : duplex :=
  match e.1 with Near => act e.2 d | Far => flip (act e.2 (flip d)) end.
Definition happening (es : list (end_of * net_event)) (d : duplex) : duplex := foldl happens d es.

Definition wf_event (e : end_of * net_event) : Prop := match e.2 with Sends f => wf_frame f | _ => True end.

(** The frames sent at [c] are those received at [c'] and those on the way. *)
Definition half (c c' : AuthenticatedConnection) (sent : list Frame) (got : list (result (option Frame) CoreError)) : Prop :=
  ∃ l fs, got = got_frames l ∧ sent = l ++ fs ∧
    pending (transport c) (transport c') fs (rx (framed c') ++ tx (framed c)).

Definition duplex_inv (d : duplex) : Prop :=
  calm (near d) ∧ calm (far d) ∧ half (near d) (far d) (near_sent d) (far_got d) ∧
  half (far d) (near d) (far_sent d) (near_got d).

Lemma flip_inv d : duplex_inv d → duplex_inv (flip d).
Proof using Type. intros (? & ? & ? & ?). unfold duplex_inv. cbn. auto. Qed.

Lemma inv_sends f d : wf_frame f → duplex_inv d → duplex_inv (act (Sends f) d).
Proof using Type.
  intros Hf (Hn & Hr & (l & fs & Hg & Hs & Hp) & (l' & fs' & Hg' & Hs' & Hp')). cbn [act].
  destruct (send_pending f _ _ _ _ Hn Hf Hp) as [[e ->]|(c & inner & ts & ct & w0 & -> & Hw & -> & Hp1)].
  - rewrite app_nil_r. do 2 (split; [done|]). split; [by exists l, fs|by exists l', fs'].
  - split; [done|]. split; [done|]. split; cbn.
    + exists l, (fs ++ [f]). rewrite Hs, <- app_assoc, app_assoc. by rewrite <- app_assoc in Hp1 |- *.
    + exists l', fs'. split_and!; [done..|]. by eapply pending_peer_writes.
Qed.

Lemma inv_carries n d : duplex_inv d → duplex_inv (act (Carries n) d).
Proof using Type.
  intros (Hn & Hr & (l & fs & Hg & Hs & Hp) & (l' & fs' & Hg' & Hs' & Hp')). cbn [act].
  split; [done|]. split; [done|]. split; [exists l, fs|exists l', fs']; cbn; [|done].
  by rewrite <- app_assoc, take_drop.
Qed.

Lemma inv_receives d : duplex_inv d → duplex_inv (act Receives d).
Proof using -(sha512).
  intros (Hn & Hr & (l & fs & Hg & Hs & Hp) & (l' & fs' & Hg' & Hs' & Hp')). cbn [act].
  destruct (recv_pending _ _ _ _ Hn Hp') as [[-> _]|(f & fs1 & c & ct & inner & ts & r & -> & -> & Hd & -> & Hp1)].
  - rewrite app_nil_r. do 2 (split; [done|]). split; [by exists l, fs|by exists l', fs'].
  - split; [done|]. split; [done|]. split; cbn.
    + exists l, fs. split_and!; [done..|]. rewrite app_nil_r. by eapply pending_reads.
    + exists (l' ++ [f]), fs1. by rewrite Hg', Hs', fmap_app, <- app_assoc.
Qed.

Lemma happening_inv es d : Forall wf_event es → duplex_inv d → duplex_inv (happening es d).
Proof using -(sha512).
  intros Hes. revert d. induction Hes as [|[side e] es He _ IH]; intros d Hd; [done|]. apply IH.
  assert (∀ d, duplex_inv d → duplex_inv (act e d)) as Hact.
  { destruct e as [f|n|]; [intros ?; by apply inv_sends|apply inv_carries|apply inv_receives]. }
  destruct side; [by apply Hact|]. by apply flip_inv, Hact, flip_inv.
Qed.

(** When everything written has been carried, receiving yields the rest. *)
Lemma receives_rest d l fs :
  calm (near d) → tx (framed (far d)) = [] → near_got d = got_frames l →
  pending (transport (far d)) (transport (near d)) fs (rx (framed (near d))) →
  near_got (happening (replicate (length fs) (Near, Receives)) d) = got_frames (l ++ fs).
Proof using -(sha512).
  revert d l. induction fs as [|f fs IH]; intros d l Hc Ht Hg Hp; [by rewrite app_nil_r|].
  rewrite <- (app_nil_r (rx _)) in Hp.
  destruct (recv_pending _ _ _ _ Hc Hp) as [[_ Hnil]|(f' & fs' & c & ct & inner & ts & r & [= <- <-] & Hrecv & Hd & -> & Hp1)].
  { by specialize (Hnil eq_refl). }
  change (near_got (happening (replicate (length fs) (Near, Receives)) (act Receives d)) = got_frames (l ++ f :: fs)).
  cbn [act]. rewrite Hrecv.
  rewrite app_nil_r in Hp1. rewrite (cons_middle f l fs), app_assoc. apply IH; cbn; [done..| |done].
  by rewrite Hg, fmap_app.
Qed.

Lemma flip_flip d : flip (flip d) = d.
Proof using Type. by destruct d. Qed.

Lemma far_receives k d : happening (replicate k (Far, Receives)) d = flip (happening (replicate k (Near, Receives)) (flip d)).
Proof using Type.
  revert d. induction k as [|k IH]; intros d; [symmetry; apply flip_flip|]. 
  change (happening (replicate k (Far, Receives)) (flip (act Receives (flip d))) =
    flip (happening (replicate k (Near, Receives)) (act Receives (flip d)))). by rewrite IH, flip_flip.
Qed.

(** After the near end's bytes have been carried, the far end receives the rest. *)
Lemma delivers_all d :
  duplex_inv d →
  ∃ n k, far_got (happening ((Near, Carries n) :: replicate k (Far, Receives)) d) = got_frames (near_sent d).
Proof using -(sha512).
  intros (Hn & Hr & (l & fs & Hg & Hs & Hp) & _).
  exists (length (tx (framed (near d)))), (length fs). 
  change (happening (?e :: ?es) d) with (happening es (happens d e)). rewrite far_receives, Hs. apply receives_rest; cbn; [done| |done|].
  - by rewrite drop_all.
  - by rewrite take_ge.
Qed.

(** C12: frames arrive in order, whole, once, and unaltered.  Two ends of a connection
    send and receive frames in any interleaving while the network carries their bytes
    in pieces of any size.  What an end has received is at any time a prefix of what
    the other end has sent, no receive fails, and once the bytes have been carried the
    rest is received too. *)
Theorem connection_fifo c1 c2 es :
  linked (transport c1) (transport c2) → linked (transport c2) (transport c1) →
  framed c1 = silent [] [] → framed c2 = silent [] [] → Forall wf_event es →
  let d := happening es (mkDuplex c1 c2 [] [] [] []) in
  far_got d `prefix_of` got_frames (near_sent d) ∧ near_got d `prefix_of` got_frames (far_sent d) ∧
  (∃ n k, far_got (happening ((Near, Carries n) :: replicate k (Far, Receives)) d) = got_frames (near_sent d)) ∧
  (∃ n k, far_got (happening ((Near, Carries n) :: replicate k (Far, Receives)) (flip d)) = got_frames (far_sent d)).
Proof using -(sha512).
  intros L1 L2 F1 F2 Hes d. assert (duplex_inv d) as Hd.
  { apply happening_inv; [done|]. unfold duplex_inv, calm. cbn. rewrite F1, F2.
    split; [done|]. split; [done|]. split; exists [], []; cbn; (split; [done|]); (split; [done|]); rewrite ?F1, ?F2; by constructor. }
  split_and!; [| |by apply delivers_all|by apply (delivers_all (flip d)), flip_inv].
  - destruct Hd as (_ & _ & (l & fs & -> & -> & _) & _). rewrite fmap_app. by apply prefix_app_r.
  - destruct Hd as (_ & _ & _ & (l & fs & -> & -> & _)). rewrite fmap_app. by apply prefix_app_r.
Qed.

(** C18: the handshake of two peers.  The initiator speaks first and the responder
    answers; given the answer the initiator finishes, and given the rest the responder
    does, whatever follows on the stream.  Each then knows the other's static key, both
    hold the same value to bind the group to, and the transport states belong together
    in both directions.  A peer that hears nothing more stops with a timeout. *)
Theorem handshake_agreement a b psk ea eb : honest a b psk ea eb → agreement a b psk ea eb.
Proof using All. apply peers_agree. Qed.

(** ** Dialling *)

Lemma finish_inv h s s' c o :
  finish_handshake h s = (s', Ok (c, o)) →
  hs_remote_static h = Some (conn_peer_x25519 c) ∧ peer_x25519 o = conn_peer_x25519 c ∧ h_transport o = conn_h_transport c ∧
  framed c = s'.
Proof using Type.
  unfold finish_handshake. intros (s1 & ht & E1 & (s2 & pk & E2 & (s3 & ts & E3 & E4)%bind_action_Ok)%bind_action_Ok)%bind_action_Ok.
  unfold lift, gets in *. injection E4 as <- <- <-. injection E2 as <- E2. injection E3 as <- _.
  destruct (hs_remote_static h); [|done]. injection E2 as <-. done.
Qed.

Lemma say_inv mk h s s' h' : say mk h s = (s', Ok h') → ∃ m, hs_write h = Ok (h', m).
Proof using Type.
  unfold say. intros (s1 & [h1 m] & E1 & (s2 & u & _ & E3)%bind_action_Ok)%bind_action_Ok.
  unfold lift in *. injection E3 as _ <-. injection E1 as _ E1. destruct (hs_write h) as [[??]|]; [|done].
  injection E1 as -> ->. eauto.
Qed.

Lemma hear_inv expect h s s' h' : hear expect h s = (s', Ok h') → ∃ m, hs_read m h = Ok h'.
Proof using Type.
  unfold hear. intros (s1 & o & _ & (s2 & f & _ & E)%bind_action_Ok)%bind_action_Ok.
  destruct (expect f) as [p|]; [|done]. unfold lift in E. injection E as _ E. exists p. by destruct (hs_read p h); [injection E as ->|].
Qed.

(** Whatever the stream holds, the initiator ends with the key it started from. *)
Lemma initiator_authentic k rs psk e s s' c o :
  do_initiator sha512 k rs psk e s = (s', Ok (c, o)) →
  conn_peer_x25519 c = rs ∧ peer_x25519 o = rs ∧ h_transport o = conn_h_transport c ∧ framed c = s'.
Proof using laws.
  unfold do_initiator. intros (s1 & u & _ & (s2 & h & E2 & (s3 & h1 & E3 & (s4 & h2 & E4 & (s5 & h3 & E5 & E6)
    %bind_action_Ok)%bind_action_Ok)%bind_action_Ok)%bind_action_Ok)%bind_action_Ok.
  apply say_inv in E3 as [m1 W1]. apply hear_inv in E4 as [m2 R2]. apply say_inv in E5 as [m3 W3].
  apply finish_inv in E6 as (Hs & -> & -> & ->). unfold lift, build_handshake in E2. injection E2 as _ E2.
  destruct (snow_build _ _ _ _ _ _) as [h0|] eqn:Hb; [|done]. injection E2 as ->.
  rewrite (initiator_static _ _ _ _ _ _ _ _ _ _ _ _ Hb W1 R2 W3) in Hs. by injection Hs as <-.
Qed.

(** A connection that dialling a contact returns is one to that contact, whatever
    answers at the address: it is authenticated for the static key that belongs to the
    contact's identity, the address is the one on the contact's latest card, and the
    binding value returned is the connection's.  No contact whose identity is not a
    point of the curve is dialled successfully. *)
Theorem dial_authentic `{!Deserialize ContactCard} answer me e peer db c ht :
  dial sha512 answer me e peer db = Ok (c, ht) →
  conn_peer_x25519 c = ed25519_pub_to_x25519 peer ∧ conn_h_transport c = ht ∧ key_on_curve peer = true ∧
  ∃ card s, latest_card peer db = Ok (Some card) ∧ answer (card_onion (card_body card)) ONION_PORT = Some (Ok s).
Proof using laws.
  unfold dial, dial_onion. intros (o & Hc & (card & Ho & (s & Ha & (u & Hk & ([c' out] & Hh & [= -> <-])
    %bind_Ok_inv)%bind_Ok_inv)%bind_Ok_inv)%bind_Ok_inv)%bind_Ok_inv.
  destruct o as [card'|]; [injection Ho as ->|done]. destruct (key_on_curve peer) eqn:Hkey; [|done].
  unfold handshake_initiator, map_error in Hh. destruct (do_initiator _ _ _ _ _ s) as [s' [[c1 o1]|]] eqn:Hd; [|done].
  cbn in Hh. injection Hh as -> ->. apply initiator_authentic in Hd as (-> & _ & -> & _).
  split_and!; [done..|]. exists card, s. split; [done|]. destruct (answer _ _) as [r|]; [by rewrite Ha|done].
Qed.
End noise_facts.

(** ** First contact over a connection *)

Section first_contact.
Context {snow : Snow} {crypto : AttachmentCrypto} {scheme : SignatureScheme}.
Context `{!Serialize ErrorPayload, !Deserialize ErrorPayload}.
Context `{!Serialize ChunkRequestPayload, !Deserialize ChunkRequestPayload}.
Context `{!Serialize ChunkPayload, !Deserialize ChunkPayload}.
Context `{!Serialize ChunkNackPayload, !Deserialize ChunkNackPayload}.
Context `{!Serialize AttachmentCompletePayload, !Deserialize AttachmentCompletePayload}.
Context `{!CborRoundtrip ErrorPayload, !CborRoundtrip ChunkRequestPayload}.
Context `{!CborRoundtrip ChunkPayload, !CborRoundtrip ChunkNackPayload}.
Context `{!CborRoundtrip AttachmentCompletePayload}.
Context (sha512 : bytes → bytes) {laws : SnowLaws}.
Context {om : OpenMls} {sha : Sha256} {b2 : Blake2s} {ser_p : Serialize provider} {de_p : Deserialize provider}.
Context {de_card : Deserialize ContactCard} (wired : option IdentityKey).

Lemma encode_plain f p :
  encode_payload f = Ok (FrameType_byte (frame_type f), p) → len p ≤ 65514 →
  ∃ b, encode f [] = Ok b ∧ len b ≤ NOISE_MAX_OUTER.
Proof using Type.
  intros Hp Hl. unfold encode. rewrite Hp. cbn [bind_result]. destruct (write_frame _ _) as [b|] eqn:E.
  - exists b. split; [done|]. apply write_frame_len in E as [-> _]. unfold NOISE_MAX_OUTER. lia.
  - unfold write_frame, MAX_FRAME_SIZE in E. case_decide; [lia|done].
Qed.

(** The answer to a first contact: an acknowledgement, or goodbye. *)
Definition reply_frame (w : bytes) (joined : option bytes) : Frame :=
  if joined then Ack (welcome_msg_id w) else Bye.

Lemma reply_encodes w joined : len (blake2s256 w) = 32 →
  wf_frame (reply_frame w joined) ∧ ∃ b, encode (reply_frame w joined) [] = Ok b ∧ len b ≤ NOISE_MAX_OUTER.
Proof using Type.
  intros Hb. assert (length (welcome_msg_id w) = 16%nat) as Hid.
  { unfold welcome_msg_id, len in *. rewrite length_take. lia. }
  destruct joined as [p|]; (split; [done|]).
  - apply (encode_plain (Ack _) (welcome_msg_id w)); [done|unfold len; lia].
  - by apply (encode_plain Bye []).
Qed.

(** What the accepting side does with a connection whose only frame is a Welcome. *)
Lemma accept_welcome k e now s s' d x ht cb cb1 w :
  handshake_responder sha512 k None e s = (s', Ok (cb, mkOutcome x ht)) →
  find_by_noise_x25519 x (d_contacts (dm_db d)) = Ok None → recv cb = (cb1, Ok (Some (MlsWelcome w))) →
  let joined := dispatch_welcome_bootstrap wired w x (Some ht) now d in
  let cb2 := (send (reply_frame w joined.2) cb1).1 in
  accept_stream sha512 wired k e now s d =
    (joined.1, match joined.2 with Some peer => Ingest peer cb2 | None => Turned cb2 end).
Proof using Type.
  intros Hh Hf Hr joined cb2. unfold accept_stream. rewrite Hh. cbn [snd peer_x25519 h_transport]. rewrite Hf.
  unfold read_first. rewrite Hr. unfold handle_inbound_stream. rewrite Hf. fold joined. subst cb2.
  by destruct joined as [d' [peer|]].
Qed.

(** C17: a first contact over the wire.  Let a peer dial another that has no contact
    with its static key, run the handshake and send a Welcome of at most 65514 bytes
    (what fits one Noise message).  The accept loop answers it as if the Welcome had been
    handed to the join directly: with the dialler's own static key and with the very
    binding value the dialler's connection has.  The dialler reads an acknowledgement of
    that Welcome off its connection exactly when the join succeeded, and a goodbye
    otherwise. *)
Theorem first_contact_wire a b ea eb w now d :
  honest sha512 a b None ea eb → len (blake2s256 w) = 32 → len w ≤ 65514 →
  find_by_noise_x25519 (noise_static_public a) (d_contacts (dm_db d)) = Ok None →
  ∃ answer s ca ca' cb ht reply,
    handshake_initiator sha512 a (noise_static_public b) None ea (silent answer []) =
      (s, Ok (ca, mkOutcome (noise_static_public b) ht)) ∧
    send (MlsWelcome w) ca = (ca', Ok tt) ∧
    let joined := dispatch_welcome_bootstrap wired w (noise_static_public a) (Some ht) now d in
    accept_stream sha512 wired b eb now (silent (tx (framed ca')) []) d =
      (joined.1, match joined.2 with Some peer => Ingest peer cb | None => Turned cb end) ∧
    conn_peer_x25519 cb = noise_static_public a ∧ tx (framed cb) = answer ++ reply ∧
    (recv (with_rx reply ca')).2 = Ok (Some (if joined.2 then Ack (welcome_msg_id w) else Bye)).
Proof using All.
  intros Hon Hb2 Hw Hf. destruct (peers_agree sha512 _ _ _ _ _ Hon) as (w1 & w2 & w3 & ht & ta & tb & _ & _ & Hi & Hr & Lab & Lba).
  specialize (Hi [] Silent). rewrite app_nil_r in Hi. cbv zeta in Hi.
  destruct (encode_plain (MlsWelcome w) w eq_refl Hw) as (inner & Hin & Hlen).
  match type of Hi with _ = (_, Ok (?c, _)) => set (ca := c) in Hi end.
  destruct (send_fits (MlsWelcome w) ca tb inner) as (ca' & ts & ct & w0 & Hs & Hwr & Hm & Hp); try done; [by constructor|].
  specialize (Hr w0 Silent). cbv zeta in Hr. match type of Hr with _ = (_, Ok (?c, _)) => set (cb0 := c) in Hr end.
  destruct (recv_only (MlsWelcome w) cb0 ts) as (cb1 & ct1 & in1 & tb1 & Hrc & Hrd & Hm1 & _); [done..|].
  set (joined := dispatch_welcome_bootstrap wired w (noise_static_public a) (Some ht) now d).
  destruct (reply_encodes w joined.2 Hb2) as (Hwf & br & Hbr & Hlr).
  assert (pending tb1 ts [] []) as Hback.
  { eapply pending_reads; [|exact Hrd]. eapply pending_peer_writes; [|exact Hwr]. by constructor. }
  destruct (send_fits (reply_frame w joined.2) cb1 ts br) as (cb2 & tb2 & ct2 & w4 & Hs2 & _ & Hm2 & Hp2);
    [by rewrite Hm1|done..|by rewrite Hm1|].
  destruct (recv_only (reply_frame w joined.2) (with_rx w4 ca') tb2) as (ca2 & ? & ? & ? & Hrc2 & _);
    [by rewrite Hm|by rewrite Hm|].
  exists w2, (silent [] (w1 ++ w3)), ca, ca', cb2, ht, w4. split; [done|]. split; [done|]. fold joined. cbv zeta.
  split; [|split; [|split]].
  - rewrite Hm. cbn [framed tx ca]. rewrite <- app_assoc,  (accept_welcome _ _ _ _ _ _ _ _ _ _ _ Hr Hf Hrc).
    fold joined. by rewrite Hs2.
  - by rewrite Hm2, Hm1.
  - rewrite Hm2, Hm1. cbn. by rewrite app_nil_r.
  - rewrite Hrc2. done.
Qed.
End first_contact.
