(* ===== verification/NoiseActor.v ===== *)
(** * NoiseActor: the actor of a peer over encrypted connections

    [PeerActor] leaves open what a connection does with a frame.  Here the
    connections are those of [Noise]: dialling appends one to a table, and sending
    goes through [send].  A message too large for a single Noise message is then
    never sent, and holds up the messages behind it. *)

From S2P Require Import Prelude Text Framing SimpleCodec CoreErrors PeerFrame Sql MailboxProtocol Identity Contacts.
From S2P Require Import Float64 Backoff Outbox Messages Attachments ChunkTransfer AttachmentRepo Mls Daemon Inbound Delivery.
From S2P Require Import Mailboxes Database Noise NoiseProps PeerActor.

(** [wire_sent]: the frames sent so far, and on which connection. *)
Record wire {snow : Snow} (W : Type) : Type := mkWire {
  wire_rest : W;
  wire_conns : list AuthenticatedConnection;
  wire_sent : list (nat * Frame)
}.
Arguments mkWire {snow W}.
Arguments wire_rest {snow W} w.
Arguments wire_conns {snow W} w.
Arguments wire_sent {snow W} w.

(** The messages among the frames sent. *)
Definition is_message (x : nat * Frame) : Prop := match x.2 with MlsApp _ => True | _ => False end.
#[global] Instance is_message_dec x : Decision (is_message x).
Proof. unfold is_message. destruct x.2; apply _. Defined.
Definition messages (l : list (nat * Frame)) : list (nat * Frame) := filter is_message l.

(** A dispatcher that leaves the outbox and the contacts alone when an attachment
    arrives or fails. *)
Definition same_mail (d d' : daemon) : Prop :=
  d_outbox (dm_db d') = d_outbox (dm_db d) ∧ d_contacts (dm_db d') = d_contacts (dm_db d).
Class MailKept (i : InboundDispatch) : Prop := {
  kept_take_begin peer d : same_mail d (in_take_begin_attachment i peer d).1;
  kept_received contact aid name ty size d : same_mail d (in_attachment_received i contact aid name ty size d);
  kept_failed aid reason d : same_mail d (in_attachment_failed i aid reason d)
}.

Section wire.
Context {snow : Snow} {W : Type} {base : PeerIo W AuthenticatedConnection}.
Context `{!Serialize ErrorPayload, !Deserialize ErrorPayload}.
Context `{!Serialize ChunkRequestPayload, !Deserialize ChunkRequestPayload}.
Context `{!Serialize ChunkPayload, !Deserialize ChunkPayload}.
Context `{!Serialize ChunkNackPayload, !Deserialize ChunkNackPayload}.
Context `{!Serialize AttachmentCompletePayload, !Deserialize AttachmentCompletePayload}.

(** What the environment answers without a connection. *)
Definition beside {T} (g : W → W * T) (w : wire W) : wire W * T :=
  let '(b, t) := g (wire_rest w) in (mkWire b (wire_conns w) (wire_sent w), t).

Definition wire_send (i : nat) (f : Frame) (w : wire W) : wire W * bool :=
  match wire_conns w !! i with
  | Some c =>
      let '(c', r) := send f c in
      (mkWire (wire_rest w) (<[i := c']> (wire_conns w)) (wire_sent w ++ if is_ok r then [(i, f)] else []), is_ok r)
  | None => (w, false)
  end.

Definition wire_close (i : nat) (w : wire W) : wire W :=
  mkWire (wire_rest w) (alter close i (wire_conns w)) (wire_sent w).

Definition wire_dial (peer : bytes) (w : wire W) : wire W * option nat :=
  let '(w', o) := beside (io_dial peer) w in
  match o with
  | Some c => (mkWire (wire_rest w') (wire_conns w' ++ [c]) (wire_sent w'), Some (length (wire_conns w')))
  | None => (w', None)
  end.

#[export] Instance wire_io : PeerIo (wire W) nat := {|
  io_send := wire_send;
  io_close := wire_close;
  io_dial := wire_dial;
  io_instant := beside io_instant;
  io_now_ms := beside io_now_ms;
  io_now_s := beside io_now_s;
  io_factor := beside io_factor;
  io_accepts id := beside (io_accepts id);
  io_random := beside io_random;
  io_stored id i := beside (io_stored id i);
  io_order l := beside (io_order l)
|}.

(** ** Messages that do not fit *)

Lemma oversized_refused p i w :
  65514 < len p → (wire_send i (MlsApp p) w).2 = false ∧ wire_sent (wire_send i (MlsApp p) w).1 = wire_sent w.
Proof using Type.
  intros Hp. unfold wire_send. destruct (wire_conns w !! i) as [c|]; [|done].
  destruct (send_refused (MlsApp p) c) as [e ->]; [|cbn; by rewrite app_nil_r].
  intros inner (t & q & b & [= <- <-] & Hb & ->)%encode_Ok_inv. apply write_frame_len in Hb as [Hb _].
  cbn. rewrite Hb. unfold NOISE_MAX_OUTER. lia.
Qed.

Lemma other_frame_sent i f w :
  match f with MlsApp _ => False | _ => True end → messages (wire_sent (wire_send i f w).1) = messages (wire_sent w).
Proof using Type.
  intros Hf. unfold wire_send. destruct (wire_conns w !! i) as [c|]; [|done]. destruct (send f c) as [c' r]. cbn.
  unfold messages. rewrite filter_app. destruct (is_ok r); [|by rewrite app_nil_r]. 
  assert (filter is_message [(i, f)] = []) as ->; [|by rewrite app_nil_r]. destruct f; try done.
Qed.

Context {sha : Sha256} {b2 : Blake2s} {de_card : Deserialize ContactCard}.
Context (self : bytes) (inbound : option InboundDispatch) (dialer : bool) (direct_timeout : Z).
Context (fallback has_store download_dir : bool).
Context (e : OutboxEntry) (d : daemon) (log : list (nat * Frame)).
Context (inbound_kept : ∀ i, inbound = Some i → MailKept i).
Context (no_mailbox : fallback = true → list_for_contact self (d_contacts (dm_db d)) = Ok []).

(** No message was sent since, the outbox and the contacts are what they were, and
    the message is not in flight. *)
Definition stuck (p : peer (wire W) nat) : Prop :=
  same_mail d (p_daemon p) ∧ ac_pending (p_actor p) !! oe_message_id e = None ∧ messages (wire_sent (p_world p)) = log.

Lemma stuck_ask {T} (g : wire W → wire W * T) :
  (∀ w, messages (wire_sent (g w).1) = messages (wire_sent w)) → keeps stuck (ask g).
Proof using Type.
  intros Hg p (? & ? & Hs). unfold ask, modify_get. cbn. specialize (Hg (p_world p)). destruct (g (p_world p)). by split_and!; cbn in *; [..|rewrite Hg].
Qed.

(** A question whose answer is known. *)
Lemma stuck_answer {T U} (g : wire W → wire W * T) (t : T) (k : T → action (peer (wire W) nat) U flow) :
  (∀ w, wire_sent (g w).1 = wire_sent w) → (∀ w, (g w).2 = t) → keeps stuck (k t) → keeps stuck (let! x := ask g in k x).
Proof using Type.
  intros Hg Ht Hk p Hp. pose proof (stuck_ask g ltac:(intros w; by rewrite Hg) p Hp) as Ha. specialize (Ht (p_world p)).
  unfold bind_action. unfold ask, modify_get in Ha |- *. cbn in *. destruct (g (p_world p)) as [w x]. cbn in *. subst x. by apply Hk.
Qed.

Lemma beside_sent {T} (g : W → W * T) w : wire_sent (beside g w).1 = wire_sent w.
Proof using Type. unfold beside. by destruct (g (wire_rest w)). Qed.

Lemma wire_dial_sent peer w : messages (wire_sent (wire_dial peer w).1) = messages (wire_sent w).
Proof using Type.
  unfold wire_dial. pose proof (beside_sent (io_dial peer) w) as H. destruct (beside (io_dial peer) w) as [w' [c|]]; cbn in *; by rewrite H.
Qed.

Lemma stuck_beside {T} (g : W → W * T) : keeps stuck (ask (beside g)).
Proof using Type. apply stuck_ask. intros w. by rewrite beside_sent. Qed.

Lemma stuck_look {A} (f : field (peer (wire W) nat) A) : keeps stuck (look f).
Proof using Type. apply keeps_read. Qed.

(** Assignments to the actor's state other than the messages in flight. *)
Lemma stuck_assign {A} (get : actor nat → A) set x :
  (∀ y a, ac_pending (set y a) = ac_pending a) → keeps stuck (assign (of_actor get set) x).
Proof using Type. intros Hset p (? & ? & ?). split_and!; cbn; [done|by rewrite Hset|done]. Qed.

Lemma stuck_inflight m : m !! oe_message_id e = None → keeps stuck (assign f_inflight m).
Proof using Type. intros Hm p (? & _ & ?). done. Qed.

Lemma stuck_answers g : keeps (E := flow) stuck (modify f_answers g).
Proof using Type. by intros p (? & ? & ?). Qed.
Lemma stuck_queue g : keeps (E := flow) stuck (modify f_rx_queue g).
Proof using Type. by intros p (? & ? & ?). Qed.

Lemma same_mail_trans d1 d2 d3 : same_mail d1 d2 → same_mail d2 d3 → same_mail d1 d3.
Proof using Type. intros [? ?] [? ?]. split; congruence. Qed.
Lemma stuck_daemon_do g : (∀ d', same_mail d' (g d')) → keeps stuck (daemon_do g).
Proof using Type. intros Hg p (Hd & ? & ?). split_and!; [|done..]. by eapply same_mail_trans; [exact Hd|apply Hg]. Qed.
Lemma stuck_daemon_ask {T} (g : daemon → daemon * T) : (∀ d', same_mail d' (g d').1) → keeps stuck (daemon_ask g).
Proof using Type.
  intros Hg p (Hd & ? & ?). unfold daemon_ask, modify_get. cbn. specialize (Hg (p_daemon p)). destruct (g (p_daemon p)).
  split_and!; [|done..]. by eapply same_mail_trans; [exact Hd|apply Hg].
Qed.
Lemma stuck_tell g : (∀ i d', MailKept i → same_mail d' (g i d')) → keeps stuck (tell inbound g).
Proof using inbound_kept.
  intros Hg. unfold tell. destruct inbound as [i|]; [|apply keeps_lift]. apply stuck_daemon_do. intros d'. by apply Hg, inbound_kept.
Qed.
Lemma stuck_claim aid status :
  keeps stuck (daemon_ask (λ d, let '(t, won) := claim_terminal aid status (d_atts (dm_db d)) in (fset (of_db f_atts) t d, won))).
Proof using Type. apply stuck_daemon_ask. intros d'. by destruct (claim_terminal _ _ _). Qed.

Ltac stuck_step :=
  first [ apply stuck_beside | apply stuck_look | apply stuck_answers | apply stuck_queue | apply stuck_inflight, lookup_empty
        | apply stuck_assign; done | apply stuck_ask, wire_dial_sent | apply stuck_claim
        | apply stuck_ask; intros w; by apply other_frame_sent | apply stuck_tell; intros; by apply kept_received || by apply kept_failed
        | apply keeps_lift | apply keeps_read | assumption | apply keeps_let; [|intros ?] | case_match ].

Lemma stuck_touch : keeps stuck touch.
Proof using Type. unfold touch. repeat stuck_step. Qed.

Lemma stuck_drop : keeps stuck (let! _ := drop_conn in arm_failure).
Proof using Type. unfold drop_conn, drain_pending, resolve_all, arm_failure. repeat stuck_step. Qed.

Lemma stuck_evict : keeps stuck evict_overdue.
Proof using Type.
  unfold evict_overdue, resolve_all. apply keeps_let; [apply stuck_beside|intros now].
  intros p (Hd & Hm & Hl). unfold bind_action, look, read, modify, assign, modify. cbn. split_and!; [done| |done].
  by apply map_lookup_filter_None_2; left.
Qed.

Lemma stuck_paced_dial get set (fail : action (peer (wire W) nat) unit flow) :
  (∀ y a, ac_pending (set y a) = ac_pending a) → keeps stuck fail → keeps stuck (paced_dial self dialer (of_actor get set) fail).
Proof using Type.
  intros Hset Hfail. unfold paced_dial, ladder_ready, ensure_conn, fresh_conn, touch, climb. repeat stuck_step.
Qed.
Lemma stuck_arm : keeps stuck arm_failure.
Proof using Type. unfold arm_failure. repeat stuck_step. Qed.

(** *** Attachments *)

Lemma stuck_send_each c aid l : keeps stuck (send_each c aid l).
Proof using Type. induction l as [|i l IH]; cbn [send_each]; repeat stuck_step. Qed.
Lemma stuck_request rx l : keeps stuck (request rx l).
Proof using Type.
  unfold request, send_chunk_requests. apply keeps_let; [|intros; apply keeps_lift]. apply keeps_let; [apply stuck_look|intros [c|]];
    [apply stuck_send_each|apply keeps_lift].
Qed.
Lemma stuck_finalize rx : keeps stuck (finalize_rx self inbound rx).
Proof using inbound_kept. unfold finalize_rx, send_ignored. repeat stuck_step. Qed.
Lemma stuck_fail rx reason : keeps stuck (fail_rx inbound rx reason).
Proof using inbound_kept. unfold fail_rx. repeat stuck_step. Qed.
Lemma stuck_start_next q : keeps stuck (start_next self inbound q).
Proof using inbound_kept.
  induction q as [|b q IH]; cbn [start_next]; repeat first [apply stuck_finalize | apply stuck_request | stuck_step].
Qed.
Lemma stuck_advance : keeps stuck (advance self inbound).
Proof using inbound_kept. unfold advance, maybe_start_next_rx. repeat first [apply stuck_start_next | stuck_step]. Qed.
Lemma stuck_take_begins n i : MailKept i → keeps stuck (take_begins self n i).
Proof using Type.
  intros Hi. induction n as [|n IH]; cbn [take_begins]; [apply keeps_lift|].
  apply keeps_let; [apply stuck_daemon_ask; intros d'; apply kept_take_begin|]. intros [b|]; repeat stuck_step.
Qed.
Lemma stuck_drain_begins i : inbound = Some i → keeps stuck (drain_begins self inbound i).
Proof using inbound_kept.
  intros Hi. unfold drain_begins. repeat first [apply stuck_advance | by apply stuck_take_begins, inbound_kept | stuck_step].
Qed.
Lemma stuck_refill : keeps stuck refill.
Proof using Type. unfold refill. repeat first [apply stuck_request | stuck_step]. Qed.
Lemma stuck_check_timeouts : keeps stuck (check_timeouts self inbound).
Proof using inbound_kept.
  unfold check_timeouts. repeat first [apply stuck_request | apply stuck_fail | apply stuck_advance | stuck_step].
Qed.
Lemma stuck_chunk_tick : keeps stuck (chunk_tick self inbound dialer has_store download_dir).
Proof using inbound_kept.
  unfold chunk_tick. destruct (negb _); [apply keeps_lift|]. apply keeps_let; [unfold work_pending; repeat stuck_step|intros work].
  apply keeps_let; [destruct work; [apply stuck_paced_dial; [done|]|]; apply keeps_lift|intros _].
  apply keeps_let; [apply stuck_refill|intros _]. apply keeps_let; [apply stuck_check_timeouts|intros _].
  apply keeps_let; [apply stuck_look|intros c]. pose proof (stuck_drain_begins) as Hdrain.
  destruct c, inbound as [i|]; try apply keeps_lift. by apply Hdrain.
Qed.

(** *** Messages *)

(** The first row is refused, and the loop ends with it. *)
Lemma stuck_resend now rest : 65514 < len (oe_payload e) → keeps stuck (resend now (e :: rest)).
Proof using Type.
  intros Hp p Hst. pose proof Hst as (Hd & Hm & Hl). cbn [resend]. unfold bind_action at 1, look at 1, read at 1. cbn [fget f_inflight of_actor id].
  unfold id. rewrite decide_False by (rewrite Hm; by intros [? ?]).
  unfold bind_action at 1, look at 1, read at 1. cbn [fget f_conn of_actor]. unfold id.
  destruct (ac_conn (p_actor p)) as [i|]; [|done].
  clear Hd Hm Hl. revert p Hst. apply (stuck_answer _ false); [..|apply stuck_drop]; intros w; by apply oversized_refused.
Qed.

(** Falling back to the mailboxes of a peer that has none does nothing. *)
Lemma stuck_fall_back due : fallback = true → keeps stuck (fall_back self due).
Proof using no_mailbox.
  intros Hf. induction due as [|x due IH]; cbn [fall_back]; [apply keeps_lift|].
  apply keeps_let; [apply stuck_beside|intros accepts]. apply keeps_let; [apply stuck_beside|intros now].
  apply keeps_let; [|intros _; exact IH]. intros p (Hd & ? & ?). unfold daemon_do, modify. cbn. split_and!; [|done..].
  unfold run_mailbox_fallback. destruct Hd as [Ho Hc]. by rewrite Hc, no_mailbox.
Qed.
Lemma stuck_maybe_fall_back : keeps stuck (maybe_fall_back self direct_timeout fallback).
Proof using no_mailbox.
  unfold maybe_fall_back. destruct (fallback && _) eqn:Hf; [|apply keeps_lift]. apply andb_prop in Hf as [Hf _]. cbn [negb].
  repeat first [apply stuck_fall_back; exact Hf | stuck_step].
Qed.

Definition first_always : Prop :=
  ∀ now e', head (entries_due_direct_for self now 32 (d_outbox (dm_db d))) = Some e' → e' = e.

Lemma stuck_tick : 65514 < len (oe_payload e) → first_always →
  keeps stuck (on_retry_tick self inbound dialer direct_timeout fallback has_store download_dir).
Proof using inbound_kept no_mailbox.
  intros Hp Hfirst. unfold on_retry_tick. apply keeps_let; [apply stuck_evict|intros _].
  apply keeps_let; [apply stuck_beside|intros now]. intros p Hst. unfold bind_action at 1, due_rows, read. cbn [fget f_daemon].
  pose proof Hst as [[Ho _] _]. rewrite Ho. clear Ho. revert p Hst. specialize (Hfirst now).
  destruct (entries_due_direct_for self now 32 (d_outbox (dm_db d))) as [|e' rest]; [|rewrite (Hfirst e' eq_refl)].
  all: apply keeps_let; [apply stuck_look|intros m]; apply keeps_let;
    [case_decide; [apply stuck_paced_dial; [done|apply stuck_arm]|apply keeps_lift]|intros _].
  all: apply keeps_let; [|intros _; apply keeps_let; [apply stuck_maybe_fall_back|intros _; apply stuck_chunk_tick]].
  - apply keeps_lift.
  - by apply stuck_resend.
Qed.
End wire.

#[global] Instance daemon_mail_kept {om : OpenMls} {scheme : SignatureScheme} {sha : Sha256} {b2 : Blake2s}
    {ser_p : Serialize provider} {de_p : Deserialize provider} {ser_env : Serialize Envelope} {de_env : Deserialize Envelope}
    {ser_card : Serialize ContactCard} {de_card : Deserialize ContactCard} {ser_body : Serialize ContactCardBody}
    {ser_man : Serialize AttachmentManifest} {de_man : Deserialize AttachmentManifest} wired store :
  MailKept (daemon_inbound wired store).
Proof. split; intros; cbn; unfold take_begin_attachment, attachment_received, attachment_failed; by repeat case_match. Qed.

Section blocked.
Context {snow : Snow} {W : Type} {base : PeerIo W AuthenticatedConnection}.
Context `{!Serialize ErrorPayload, !Deserialize ErrorPayload}.
Context `{!Serialize ChunkRequestPayload, !Deserialize ChunkRequestPayload}.
Context `{!Serialize ChunkPayload, !Deserialize ChunkPayload}.
Context `{!Serialize ChunkNackPayload, !Deserialize ChunkNackPayload}.
Context `{!Serialize AttachmentCompletePayload, !Deserialize AttachmentCompletePayload}.
Context {sha : Sha256} {b2 : Blake2s} {de_card : Deserialize ContactCard}.

(** C39: a message that does not fit in one Noise message blocks the messages behind
    it.  Let a row with a payload of more than 65514 bytes be the first of the peer's
    rows in the order of the outbox, whenever one is due, and not be in flight; and
    let the peer's card name no mailbox, if there is a fallback. Then however many
    retry ticks pass, with or without attachments to fetch and whatever the network
    and the clock do, no message is sent to the peer and the outbox stays as it is:
    the row is neither sent nor postponed, and the rows after it are not tried. *)
Theorem oversized_row_blocks self inbound dialer direct_timeout fallback has_store download_dir e n (p : peer (wire W) nat) :
  65514 < len (oe_payload e) →
  (∀ now e', head (entries_due_direct_for self now 32 (d_outbox (dm_db (p_daemon p)))) = Some e' → e' = e) →
  ac_pending (p_actor p) !! oe_message_id e = None →
  (∀ i, inbound = Some i → MailKept i) →
  (fallback = true → list_for_contact self (d_contacts (dm_db (p_daemon p))) = Ok []) →
  let tick p := (on_retry_tick self inbound dialer direct_timeout fallback has_store download_dir p).1 in
  let p' := Nat.iter n tick p in
  d_outbox (dm_db (p_daemon p')) = d_outbox (dm_db (p_daemon p)) ∧
  messages (wire_sent (p_world p')) = messages (wire_sent (p_world p)).
Proof using Type.
  intros Hp Hfirst Hm Hi Hn tick p'.
  assert (stuck e (p_daemon p) (messages (wire_sent (p_world p))) p') as ([? _] & _ & ?); [|done].
  subst p'. induction n as [|n IH]; [done|]. by apply stuck_tick.
Qed.
End blocked.
