(* ===== verification/NoiseRuns.v ===== *)
(** * NoiseRuns: a concrete network

    An instance of [snow] without secrecy that satisfies its laws, and runs of the
    theorems of [NoiseProps] and [NoiseActor] at it. *)

From S2P Require Import Prelude Text Framing SimpleCodec CoreErrors PeerFrame Sql MailboxProtocol Identity Contacts.
From S2P Require Import Float64 Backoff Outbox Messages Attachments ChunkTransfer AttachmentRepo Mls Daemon Inbound Delivery.
From S2P Require Import Samples Scenario Database Noise NoiseProps PeerActor PeerActorProps NoiseActor.
Import SampleInstances.

Module NoiseSamples.
#[export] Existing Instance codec_ErrorPayload.
#[export] Existing Instance codec_ChunkRequestPayload.
#[export] Existing Instance codec_ChunkPayload.
#[export] Existing Instance codec_ChunkNackPayload.
#[export] Existing Instance codec_AttachmentCompletePayload.
#[export] Existing Instance roundtrip_of.

(** Messages in the open; [toy_step] counts them.  A transport state counts what it
    wrote and read, and numbers its messages. *)
Record toy_handshake : Type := mkToy {
  toy_initiator : bool; toy_key : bytes; toy_remote : option bytes; toy_ephemeral : bytes; toy_log : bytes; toy_step : nat
}.

(** Undoes the clamping of keys whose bytes are all the same. *)
Definition toy_public (b : bytes) : bytes :=
  let x := nth 1 b Byte.x00 in <[31%nat := x]> (<[0%nat := x]> b).

Definition my_turn (h : toy_handshake) : bool :=
  (toy_step h <? 3)%nat && (if toy_initiator h then Nat.even (toy_step h) else Nat.odd (toy_step h)).
Definition their_turn (h : toy_handshake) : bool :=
  (toy_step h <? 3)%nat && (if toy_initiator h then Nat.odd (toy_step h) else Nat.even (toy_step h)).
Definition toy_next (m : bytes) (remote : option bytes) (h : toy_handshake) : toy_handshake :=
  mkToy (toy_initiator h) (toy_key h) remote (toy_ephemeral h) (toy_log h ++ m) (S (toy_step h)).

Definition toy_write (h : toy_handshake) : result (toy_handshake * bytes) string :=
  if my_turn h then
    let m := if (toy_step h =? 2)%nat then toy_public (toy_key h) else toy_ephemeral h in
    Ok (toy_next m (toy_remote h) h, m)
  else Err "state".
Definition toy_read (m : bytes) (h : toy_handshake) : result toy_handshake string :=
  if their_turn h then Ok (toy_next m (if (toy_step h =? 2)%nat then Some m else toy_remote h) h) else Err "state".

Definition tag (n : Z) : bytes := fill 16 (byte_of_Z n).

#[export] Instance toy_snow : Snow := {|
  handshake_state := toy_handshake;
  transport_state := Z * Z;
  x25519_public := toy_public;
  snow_build _ sk rs _ i e := Ok (mkToy i sk rs e [] 0);
  hs_write := toy_write;
  hs_read := toy_read;
  hs_hash := toy_log;
  hs_remote_static := toy_remote;
  into_transport_mode h := if (toy_step h =? 3)%nat then Ok (0, 0) else Err "state";
  ts_write m t := Ok ((t.1 + 1, t.2), tag t.1 ++ m);
  ts_read c t := if decide (take 16 c = tag t.2) then Ok ((t.1, t.2 + 1), drop 16 c) else Err "decrypt"
|}.

Definition numbered (a b : Z * Z) : Prop := a.1 = b.2.

Lemma toy_public_len b : len (toy_public b) = len b.
Proof. unfold toy_public, len. by rewrite !length_insert. Qed.

Lemma toy_untag n m : take 16 (tag n ++ m) = tag n ∧ drop 16 (tag n ++ m) = m.
Proof. split; [by rewrite (take_app_length' (tag n))|by rewrite (drop_app_length' (tag n))]. Qed.

#[export] Program Instance toy_laws : SnowLaws := {| linked := numbered |}.
Next Obligation.
  intros psk ski skr ei er H1 H2 _ H3 H4. do 2 eexists. do 2 (split; [reflexivity|]).
  unfold xk_exchange. cbn. do 11 eexists.
  repeat (split; [reflexivity|]). cbn. repeat (split; [rewrite ?toy_public_len; lia|]).
  by repeat (split; [reflexivity|]).
Qed.
Next Obligation.
  intros pattern sk rs psk e h h1 h2 h3 m1 m2 m3 [= <-] [= <- _] [= <-] [= <- _]. done.
Qed.
Next Obligation.
  intros [s r] [s' r'] m Hl _. cbn in *. unfold numbered in Hl. cbn in Hl. subst r'.
  exists (s + 1, r), (s', s + 1), (tag s ++ m). destruct (toy_untag s m) as [Ht Hd].
  rewrite Ht, Hd, decide_True by done. split; [done|]. split; [by rewrite len_app, Z.add_comm|done].
Qed.
Next Obligation. by intros [] [] b' m c H [= <- _]. Qed.
Next Obligation. intros [] a' [] m c H. cbn. case_decide; [|done]. by intros [= <- _]. Qed.
Next Obligation.
  intros [] b1 b3 m c p q. cbn. case_decide; [|done]. intros [= <- <-] [= <- <-]. eexists. by rewrite decide_True.
Qed.

(** Every binding value is the transcript value of the scenario. *)
#[export] Instance wire_crypto : AttachmentCrypto := {|
  aead_encrypt _ _ p := Some p; aead_decrypt _ _ c := Some c; hkdf_sha256 _ _ n := Ok (fill (Z.to_nat n) Byte.x42)
|}.
Definition toy_sha512 : bytes → bytes := pad 64.
Definition eph_a : bytes := fill 32 Byte.x51.
Definition eph_b : bytes := fill 32 Byte.x52.

Lemma friends : honest toy_sha512 bob alice None eph_a eph_b.
Proof.
  split; [vm_compute; reflexivity..|intros k; apply (len_pad 64)|done|done|done|]. intros hh. eexists. reflexivity.
Qed.
End NoiseSamples.
Import NoiseSamples.

Lemma handshake_agreement_witness :
  agreement toy_sha512 bob alice None eph_a eph_b ∧
  (handshake_initiator toy_sha512 bob (noise_static_public alice) None eph_a (silent [] [])).2 = Err (other "handshake: timeout").
Proof. split; [apply handshake_agreement, friends|vm_compute; reflexivity]. Defined.

(** Two frames one way, cut in the middle, and one the other way. *)
Definition end_at : AuthenticatedConnection := mkConnection toy_snow [] [] (silent [] []) (0, 0).
Definition traffic : list (end_of * net_event) :=
  [(Near, Sends Ping); (Near, Carries 7); (Far, Receives); (Far, Sends (Ack (fill 16 Byte.x01))); (Near, Sends (MlsApp [Byte.x05]));
   (Near, Carries 30); (Far, Receives); (Far, Carries 100); (Near, Receives)].

Lemma connection_fifo_witness :
  let d := happening traffic (mkDuplex end_at end_at [] [] [] []) in
  far_got d = [Ok (Some Ping)] ∧ near_sent d = [Ping; MlsApp [Byte.x05]] ∧ near_got d = [Ok (Some (Ack (fill 16 Byte.x01)))] ∧
  ∃ n k, far_got (happening ((Near, Carries n) :: replicate k (Far, Receives)) d) = got_frames (near_sent d).
Proof.
  intros d. do 3 (split; [vm_compute; reflexivity|]).
  destruct (connection_fifo (laws := toy_laws) end_at end_at traffic eq_refl eq_refl eq_refl eq_refl) as (_ & _ & H & _); [repeat constructor|exact H].
Defined.

(** Bob dials Alice, whose card is in the invite. *)
Definition greeting : bytes := tx (handshake_initiator toy_sha512 bob (noise_static_public alice) None eph_a (silent [] [])).1.
Definition answered : bytes := tx (handshake_responder toy_sha512 alice None eph_b (silent greeting [])).1.
Definition tor_network (onion : string) (port : Z) : option (result socket CoreError) :=
  if decide (onion = "alice.onion" ∧ port = 9735) then Some (Ok (silent answered [])) else None.

Definition bound (r : result (AuthenticatedConnection * bytes) CoreError) : option bytes :=
  match r with Ok (_, ht) => Some ht | Err _ => None end.

Lemma dial_authentic_witness :
  ∃ c ht, dial toy_sha512 tor_network bob eph_a (public alice) (d_contacts (dm_db bob_added)) = Ok (c, ht) ∧ ht = transcript ∧
    conn_peer_x25519 c = ed25519_pub_to_x25519 (public alice).
Proof.
  assert (bound (dial toy_sha512 tor_network bob eph_a (public alice) (d_contacts (dm_db bob_added))) = Some transcript) as Hb
    by (vm_compute; reflexivity).
  destruct (dial toy_sha512 tor_network bob eph_a (public alice) (d_contacts (dm_db bob_added))) as [[c ht]|] eqn:E; [|discriminate Hb].
  exists c, ht. split; [reflexivity|]. split; [by injection Hb|].
  apply (dial_authentic toy_sha512 tor_network bob eph_a (public alice) (d_contacts (dm_db bob_added)) c ht E).
Defined.

(** Bob's Welcome reaches Alice, who has invited and does not know Bob yet. *)
Lemma first_contact_wire_witness :
  (dispatch_welcome_bootstrap (Some alice) the_welcome (noise_static_public bob) (Some transcript) 1200 alice_invited).2 =
    Some (public bob) ∧
  ∃ answer s ca ca' ht,
    handshake_initiator toy_sha512 bob (noise_static_public alice) None eph_a (silent answer []) =
      (s, Ok (ca, mkOutcome (noise_static_public alice) ht)) ∧
    send (MlsWelcome the_welcome) ca = (ca', Ok tt) ∧
    (accept_stream toy_sha512 (Some alice) alice eph_b 1200 (silent (tx (framed ca')) []) alice_invited).1 =
      (dispatch_welcome_bootstrap (Some alice) the_welcome (noise_static_public bob) (Some ht) 1200 alice_invited).1.
Proof.
  split; [vm_compute; reflexivity|].
  destruct (first_contact_wire toy_sha512 (Some alice) bob alice eph_a eph_b the_welcome 1200 alice_invited)
    as (answer & s & ca & ca' & cb & ht & reply & Hh & Hs & Ha & _); [exact friends|vm_compute; done..|].
  exists answer, s, ca, ca', ht. split; [exact Hh|]. split; [exact Hs|]. by rewrite Ha.
Defined.

(** A message of 65515 bytes, and a short one behind it. *)
Definition big : bytes := fill (Z.to_nat 65515) Byte.x00.
Definition queue (payload : bytes) : daemon :=
  start (fset f_outbox (mkTable [mkOutboxRow 1 (public alice) payload (fill 16 Byte.x01) 0 0 "direct" 0;
                                 mkOutboxRow 2 (public alice) [Byte.x02] (fill 16 Byte.x02) 0 5 "direct" 0] 2) empty_db).
(** The scripted environment, where dialling yields a fresh connection. *)
#[local] Instance scripted_dials : PeerIo ActorSamples.script AuthenticatedConnection := {|
  io_send c f w := (w, true); io_close c w := w; io_dial peer w := (w, Some end_at);
  io_instant := io_instant (PeerIo := ActorSamples.scripted); io_now_ms w := (w, 1000); io_now_s w := (w, 1);
  io_factor w := (w, f64_of_Z 1); io_accepts mid w := (w, λ _, true); io_random w := (w, fill 16 Byte.x09);
  io_stored aid i w := (w, true); io_order l w := (w, l)
|}.
Definition queue_head (payload : bytes) : OutboxEntry :=
  mkOutboxEntry 1 (public alice) payload (fill 16 Byte.x01) 0 Direct 0.

Lemma queue_first payload now e :
  head (entries_due_direct_for (public alice) now 32 (d_outbox (dm_db (queue payload)))) = Some e → e = queue_head payload.
Proof.
  unfold entries_due_direct_for, due_direct_for. change (t_rows (d_outbox (dm_db (queue payload)))) with
    [mkOutboxRow 1 (public alice) payload (fill 16 Byte.x01) 0 0 "direct" 0;
     mkOutboxRow 2 (public alice) [Byte.x02] (fill 16 Byte.x02) 0 5 "direct" 0].
  rewrite !filter_cons, filter_nil. cbn [ob_next_retry_at ob_target ob_target_kind].
  do 2 case_decide; [..|done]; [| |naive_solver lia]; vm_compute; by intros [= <-].
Qed.

Lemma oversized_row_blocks_witness :
  len (entries_due_direct_for (public alice) 1000 32 (d_outbox (dm_db (queue [])))) = 2 ∧
  let p := mkPeer (mkWire (ActorSamples.mkScript 0 [] [] []) [end_at] []) (queue big) (actor_new (Some 0%nat) 0) in
  let tick p := (on_retry_tick (io := wire_io) (public alice) (Some (daemon_inbound (Some bob) true)) true 60000 true true true p).1 in
  d_outbox (dm_db (p_daemon (Nat.iter 3 tick p))) = d_outbox (dm_db (queue big)) ∧
  messages (wire_sent (p_world (Nat.iter 3 tick p))) = [].
Proof.
  split; [vm_compute; reflexivity|]. intros p tick.
  apply (oversized_row_blocks (public alice) (Some (daemon_inbound (Some bob) true)) true 60000 true true true (queue_head big) 3 p).
  - unfold big, len, fill. cbn [oe_payload queue_head]. rewrite length_replicate. lia.
  - intros now e. apply queue_first.
  - reflexivity.
  - intros i [= <-]. apply _.
  - intros _. vm_compute. reflexivity.
Defined.
