(* ===== verification/Hub.v ===== *)
(** * Hub: the table of peer actors

    [crates/core/src/delivery/hub.rs]: [DeliveryHub] keeps one actor per peer and the
    sending halves of its three channels.  The state here is the hub's table together
    with the actors of [PeerActor] that run behind it, one world and one daemon they
    share.  A step is one operation of the hub or one iteration of one actor, so runs
    are the interleavings of everybody who hands over messages with all the actors.

    A channel is the list of what was sent and not yet received.  A send that waits for
    room is a step that is not possible yet. *)

From S2P Require Import Prelude Text CoreErrors Framing Float64 Backoff Outbox MailboxProtocol PeerFrame Attachments.
From S2P Require Import ChunkTransfer AttachmentRepo Identity Contacts Messages Mls Daemon Inbound Delivery PeerActor PeerActorProps.

Definition JOB_CHAN_CAP : Z := 64.
Definition CTRL_CHAN_CAP : Z := 4.

(** The channels of an actor and the actor.  [sl_seen] are the events it has taken,
    [sl_lost] the callers whose job was dropped because the actor had ended. *)
Record slot (C : Type) : Type := mkSlot {
  sl_jobs : list DeliveryJob;
  sl_welcomes : list WelcomeJob;
  sl_ctrl : list (PeerCtrl C);
  sl_actor : actor C;
  sl_alive : bool;
  sl_seen : list (actor_event (C := C));
  sl_lost : list nat
}.
Arguments mkSlot {C}.
Arguments sl_jobs {C} s.
Arguments sl_welcomes {C} s.
Arguments sl_ctrl {C} s.
Arguments sl_actor {C} s.
Arguments sl_alive {C} s.
Arguments sl_seen {C} s.
Arguments sl_lost {C} s.

(** [hb_next]: the number of the next oneshot. *)
Record hub (W C : Type) : Type := mkHub {
  hb_world : W;
  hb_daemon : daemon;
  hb_peers : gmap bytes (slot C);
  hb_next : nat
}.
Arguments mkHub {W C}.
Arguments hb_world {W C} h.
Arguments hb_daemon {W C} h.
Arguments hb_peers {W C} h.
Arguments hb_next {W C} h.

Section hub.
Context {W C : Type} {io : PeerIo W C} {sha : Sha256} {b2 : Blake2s} {de_card : Deserialize ContactCard}.
Context (inbound : option InboundDispatch).
Context (dialer : bool) (direct_timeout : Z) (fallback has_store download_dir : bool).
Implicit Types (h : hub W C) (sl : slot C).

(** ** Operations of the hub *)

Definition spawn_peer_actor (peer : bytes) (h : hub W C) : hub W C :=
  let '(w, now) := io_instant (hb_world h) in
  mkHub w (hb_daemon h) (<[peer := mkSlot [] [] [] (actor_new None now) true [] []]> (hb_peers h)) (hb_next h).

Definition has_peer (peer : bytes) (h : hub W C) : bool := bool_decide (is_Some (hb_peers h !! peer)).

(** [ensure_actor] and [ensure_welcome_actor], up to the channel they return. *)
Definition ensure_actor (peer : bytes) (h : hub W C) : hub W C :=
  if has_peer peer h then h else spawn_peer_actor peer h.

Definition put_slot (peer : bytes) (sl : slot C) (next : nat) (h : hub W C) : hub W C :=
  mkHub (hb_world h) (hb_daemon h) (<[peer := sl]> (hb_peers h)) next.

(** A job whose receiver is gone is dropped with its oneshot. *)
Definition lose (n : nat) (sl : slot C) : slot C :=
  mkSlot (sl_jobs sl) (sl_welcomes sl) (sl_ctrl sl) (sl_actor sl) (sl_alive sl) (sl_seen sl) (sl_lost sl ++ [n]).
Definition push_job (j : DeliveryJob) (sl : slot C) : slot C :=
  mkSlot (sl_jobs sl ++ [j]) (sl_welcomes sl) (sl_ctrl sl) (sl_actor sl) (sl_alive sl) (sl_seen sl) (sl_lost sl).
Definition push_welcome (j : WelcomeJob) (sl : slot C) : slot C :=
  mkSlot (sl_jobs sl) (sl_welcomes sl ++ [j]) (sl_ctrl sl) (sl_actor sl) (sl_alive sl) (sl_seen sl) (sl_lost sl).
Definition push_ctrl (c : PeerCtrl C) (sl : slot C) : slot C :=
  mkSlot (sl_jobs sl) (sl_welcomes sl) (sl_ctrl sl ++ [c]) (sl_actor sl) (sl_alive sl) (sl_seen sl) (sl_lost sl).

(** [tx.send(x).await]: [None] while the channel is full. *)
Definition channel_send (dead : slot C → slot C) (used cap : Z) (push : slot C → slot C) (sl : slot C) : option (slot C) :=
  if negb (sl_alive sl) then Some (dead sl)
  else if decide (used < cap) then Some (push sl) else None.

(** [send]: the hub, and the number of the oneshot it returns. *)
Definition hub_send (peer message_id ciphertext : bytes) (h : hub W C) : option (hub W C * nat) :=
  let h1 := ensure_actor peer h in
  let n := hb_next h1 in
  sl ← hb_peers h1 !! peer;
  sl' ← channel_send (lose n) (len (sl_jobs sl)) JOB_CHAN_CAP (push_job (mkJob message_id ciphertext (Some n))) sl;
  Some (put_slot peer sl' (S n) h1, n).

Definition hub_send_welcome (peer welcome : bytes) (h : hub W C) : option (hub W C * nat) :=
  let h1 := ensure_actor peer h in
  let n := hb_next h1 in
  sl ← hb_peers h1 !! peer;
  sl' ← channel_send (lose n) (len (sl_welcomes sl)) JOB_CHAN_CAP (push_welcome (mkWelcomeJob welcome (Some n))) sl;
  Some (put_slot peer sl' (S n) h1, n).

Definition ingest (peer : bytes) (c : C) (h : hub W C) : option (hub W C) :=
  let h1 := ensure_actor peer h in
  sl ← hb_peers h1 !! peer;
  sl' ← channel_send id (len (sl_ctrl sl)) CTRL_CHAN_CAP (push_ctrl (ReplaceConn c)) sl;
  Some (put_slot peer sl' (hb_next h1) h1).

(** [connect_and_ingest_at]: the answer of the dialer is an argument. *)
Definition connect_and_ingest_at (dialed : result (C * bytes) CoreError) (peer : bytes) (h : hub W C)
    : option (hub W C * result bytes CoreError) :=
  if negb dialer then Some (h, Err (Core_Delivery (Delivery_Other "no dialer wired")))
  else
    match dialed with
    | Err e => Some (h, Err e)
    | Ok (c, h_transport) => h' ← ingest peer c h; Some (h', Ok h_transport)
    end.

(** ** The actors behind the table *)

(** What an actor's [select!] can take: from a channel, a timer, or the connection. *)
Inductive take : Type := TakeJob | TakeWelcome | TakeCtrl | TakeRetry | TakeKeepalive | TakeFrame (f : option Frame).

(** The event, and the channels without it. *)
Definition taken (t : take) (sl : slot C) : option (actor_event (C := C) * slot C) :=
  let rest jobs welcomes ctrl := mkSlot jobs welcomes ctrl (sl_actor sl) (sl_alive sl) (sl_seen sl) (sl_lost sl) in
  match t with
  | TakeJob => match sl_jobs sl with j :: js => Some (Ev_Job (Some j), rest js (sl_welcomes sl) (sl_ctrl sl)) | [] => None end
  | TakeWelcome => match sl_welcomes sl with j :: js => Some (Ev_Welcome (Some j), rest (sl_jobs sl) js (sl_ctrl sl)) | [] => None end
  | TakeCtrl => match sl_ctrl sl with c :: cs => Some (Ev_Ctrl (Some c), rest (sl_jobs sl) (sl_welcomes sl) cs) | [] => None end
  | TakeRetry => Some (Ev_RetryTick, sl)
  | TakeKeepalive => Some (Ev_KeepaliveTick, sl)
  | TakeFrame f => Some (Ev_Frame f, sl)
  end.

Definition job_tickets (l : list DeliveryJob) : list nat := omap job_ack l.
Definition welcome_tickets (l : list WelcomeJob) : list nat := omap wj_ack l.

(** After an iteration.  An actor that ends drops its channels. *)
Definition after_turn (ev : actor_event (C := C)) (a : actor C) (goes_on : bool) (sl : slot C) : slot C :=
  if goes_on
  then mkSlot (sl_jobs sl) (sl_welcomes sl) (sl_ctrl sl) a true (sl_seen sl ++ [ev]) (sl_lost sl)
  else mkSlot [] [] [] a false (sl_seen sl ++ [ev]) (sl_lost sl ++ job_tickets (sl_jobs sl) ++ welcome_tickets (sl_welcomes sl)).

Definition actor_turn (peer : bytes) (t : take) (h : hub W C) : option (hub W C) :=
  sl ← hb_peers h !! peer;
  if negb (sl_alive sl) then None
  else
    '(ev, sl') ← taken t sl;
    let p := mkPeer (hb_world h) (hb_daemon h) (sl_actor sl) in
    if ready ev p then
      let '(p', goes_on) := iteration peer inbound dialer direct_timeout fallback has_store download_dir ev p in
      Some (mkHub (p_world p') (p_daemon p') (<[peer := after_turn ev (p_actor p') goes_on sl']> (hb_peers h)) (hb_next h))
    else None.

(** ** Runs *)

(** A step, and the peer and the oneshot of the caller it takes in, if it does. *)
Inductive hub_step : hub W C → option (bytes * nat) → hub W C → Prop :=
| step_send peer mid ct h h' n : hub_send peer mid ct h = Some (h', n) → hub_step h (Some (peer, n)) h'
| step_welcome peer w h h' n : hub_send_welcome peer w h = Some (h', n) → hub_step h (Some (peer, n)) h'
| step_ensure peer h : hub_step h None (ensure_actor peer h)
| step_ingest peer c h h' : ingest peer c h = Some h' → hub_step h None h'
| step_connect dialed peer h h' r : connect_and_ingest_at dialed peer h = Some (h', r) → hub_step h None h'
| step_turn peer t h h' : actor_turn peer t h = Some h' → hub_step h None h'
| step_other (w : W) (d : daemon) h : hub_step h None (mkHub w d (hb_peers h) (hb_next h)).

(** A run, and the callers it took in, in order. *)
Inductive hub_run (h0 : hub W C) : list (bytes * nat) → hub W C → Prop :=
| hub_start : hub_run h0 [] h0
| hub_next log h o h' : hub_run h0 log h → hub_step h o h' → hub_run h0 (log ++ option_list o) h'.

Definition hub_new (w : W) (d : daemon) : hub W C := mkHub w d ∅ 0.

(** Where the callers of a peer are. *)
Definition answered (sl : slot C) : list nat := (ac_answers (sl_actor sl)).*1 ++ sl_lost sl.
Definition waiting (sl : slot C) : list nat :=
  tickets (ac_pending (sl_actor sl)) ++ job_tickets (sl_jobs sl) ++ welcome_tickets (sl_welcomes sl).
(** The callers that asked for a peer. *)
Definition asked (peer : bytes) (log : list (bytes * nat)) : list nat := (filter (λ c, c.1 = peer) log).*2.
End hub.
