(* ===== verification/HubProps.v ===== *)
(** * HubProps: every caller of the hub is answered once

    The theorem of [PeerActorProps] on one actor, for the whole table of actors of
    [Hub] and everything that uses it at the same time. *)

From S2P Require Import Prelude Text CoreErrors Framing Float64 Backoff Outbox MailboxProtocol PeerFrame Attachments.
From S2P Require Import ChunkTransfer AttachmentRepo Identity Contacts Messages Mls Daemon Inbound Delivery Scenario PeerActor PeerActorProps Hub.

Section hub_props.
Context {W C : Type} {io : PeerIo W C} {sha : Sha256} {b2 : Blake2s} {de_card : Deserialize ContactCard}.
Context (inbound : option InboundDispatch).
Context (dialer : bool) (direct_timeout : Z) (fallback has_store download_dir : bool).
Implicit Types (h : hub W C) (sl : slot C) (log : list (bytes * nat)).

Abbreviation hub_step := (hub_step inbound dialer direct_timeout fallback has_store download_dir).
Abbreviation hub_run := (hub_run inbound dialer direct_timeout fallback has_store download_dir).

(** ** The invariant *)

(** The callers handed to a peer so far. *)
Definition issued (sl : slot C) : list nat :=
  callers (sl_seen sl) ++ job_tickets (sl_jobs sl) ++ welcome_tickets (sl_welcomes sl) ++ sl_lost sl.

Definition slot_core (sl : slot C) : core C :=
  let a := sl_actor sl in mkCore (ac_conn a) (ac_pending a) (ac_first_failure a) (ac_answers a).

Record slot_ok (sl : slot C) : Prop := {
  so_sound : sound (waits_in (sl_seen sl)) (acked_in (sl_seen sl)) (callers (sl_seen sl)) (slot_core sl);
  so_dead : sl_alive sl = false → waiting sl = [];
  so_jobs : len (sl_jobs sl) ≤ JOB_CHAN_CAP;
  so_welcomes : len (sl_welcomes sl) ≤ JOB_CHAN_CAP;
  so_ctrl : len (sl_ctrl sl) ≤ CTRL_CHAN_CAP
}.

(** Every slot has the callers that asked for its peer, and no others. *)
Record hub_ok log h : Prop := {
  ho_slots : ∀ peer sl, hb_peers h !! peer = Some sl → slot_ok sl ∧ issued sl ≡ₚ asked peer log;
  ho_absent : ∀ peer, hb_peers h !! peer = None → asked peer log = [];
  ho_numbers : log.*2 = seq 0 (hb_next h)
}.

Lemma asked_snoc peer log c : asked peer (log ++ [c]) = asked peer log ++ (if decide (c.1 = peer) then [c.2] else []).
Proof. unfold asked. rewrite filter_app, fmap_app, filter_cons. by case_decide. Qed.

Lemma new_slot_ok now : slot_ok (mkSlot [] [] [] (actor_new None now) true [] []).
Proof.
  split; [|done|cbn; unfold JOB_CHAN_CAP, CTRL_CHAN_CAP, len; cbn; lia..].
  split; [split_and!|done|done]; cbn; [done|intros n|done]. by intros ?%not_elem_of_nil.
Qed.

Lemma ensure_ok log peer h : hub_ok log h → hub_ok log (ensure_actor peer h) ∧ is_Some (hb_peers (ensure_actor peer h) !! peer).
Proof.
  intros Hh. unfold ensure_actor, has_peer. case_bool_decide as E; [done|]. destruct Hh as [Hs Ha Hn]. unfold spawn_peer_actor.
  destruct (io_instant (hb_world h)) as [w now]. apply eq_None_not_Some in E. split; [split|]; cbn.
  - intros k sl [[<- <-]|[_ ?]]%lookup_insert_Some; [|by eapply Hs]. split; [apply new_slot_ok|]. by rewrite Ha.
  - intros k [? ?]%lookup_insert_None. by apply Ha.
  - done.
  - rewrite lookup_insert_eq. eauto.
Qed.

(** Replacing one peer's slot, by one with the same callers or with the next one. *)
Lemma put_ok log peer sl sl' h :
  hub_ok log h → hb_peers h !! peer = Some sl → slot_ok sl' → issued sl' ≡ₚ issued sl →
  hub_ok log (put_slot peer sl' (hb_next h) h).
Proof.
  intros [Hs Ha Hn] Hl Hok Hi. split; cbn; [|intros k [? ?]%lookup_insert_None; by apply Ha|done].
  intros k x [[<- <-]|[_ ?]]%lookup_insert_Some; [|by eapply Hs]. split; [done|]. rewrite Hi. by apply (Hs peer sl).
Qed.
Lemma put_next_ok log peer sl sl' h :
  hub_ok log h → hb_peers h !! peer = Some sl → slot_ok sl' → issued sl' ≡ₚ issued sl ++ [hb_next h] →
  hub_ok (log ++ [(peer, hb_next h)]) (put_slot peer sl' (S (hb_next h)) h).
Proof.
  intros [Hs Ha Hn] Hl Hok Hi. split; cbn [put_slot hb_peers hb_next].
  - intros k x [[<- <-]|[Hne Hk]]%lookup_insert_Some; rewrite asked_snoc; cbn [fst snd].
    + rewrite decide_True by done. split; [done|]. rewrite Hi. f_equiv. by apply (Hs peer sl).
    + rewrite decide_False by done. rewrite app_nil_r. by apply Hs.
  - intros k [Hk Hne]%lookup_insert_None. rewrite asked_snoc, decide_False by (by cbn). rewrite app_nil_r. by apply Ha.
  - rewrite fmap_app, Hn, seq_S. done.
Qed.

(** ** Every step keeps it *)

(** A slot with another caller in one of its queues, or dropped. *)
Lemma lose_ok n sl : slot_ok sl → slot_ok (lose n sl) ∧ issued (lose n sl) ≡ₚ issued sl ++ [n].
Proof. intros [? ? ? ? ?]. split; [by split|]. unfold issued, lose. cbn. by rewrite !(assoc_L (++)). Qed.

Lemma push_job_ok j n sl :
  job_ack j = Some n → sl_alive sl = true → len (sl_jobs sl) < JOB_CHAN_CAP → slot_ok sl →
  slot_ok (push_job j sl) ∧ issued (push_job j sl) ≡ₚ issued sl ++ [n].
Proof.
  intros Hj Ha Hl [? ? ? ? ?]. split.
  - split; cbn; [done|by rewrite Ha|rewrite len_app; unfold len in *; cbn; lia|done|done].
  - unfold issued, job_tickets. cbn. rewrite omap_app. cbn. rewrite Hj. cbn. rewrite <- !(assoc_L (++)). do 2 apply Permutation_app_head.
    rewrite (assoc_L (++) (welcome_tickets (sl_welcomes sl))).
    apply (Permutation_cons_append (welcome_tickets (sl_welcomes sl) ++ sl_lost sl) n).
Qed.

Lemma push_welcome_ok j n sl :
  wj_ack j = Some n → sl_alive sl = true → len (sl_welcomes sl) < JOB_CHAN_CAP → slot_ok sl →
  slot_ok (push_welcome j sl) ∧ issued (push_welcome j sl) ≡ₚ issued sl ++ [n].
Proof.
  intros Hj Ha Hl [? ? ? ? ?]. split.
  - split; cbn; [done|by rewrite Ha|done|rewrite len_app; unfold len in *; cbn; lia|done].
  - unfold issued, welcome_tickets. cbn. rewrite omap_app. cbn. rewrite Hj. cbn. rewrite <- !(assoc_L (++)). do 3 apply Permutation_app_head.
    apply Permutation_cons_append.
Qed.

(** A send over a channel that adds the next caller. *)
Lemma channel_ok log peer dead used cap push sl sl' h :
  hub_ok log h → hb_peers h !! peer = Some sl → channel_send dead used cap push sl = Some sl' →
  (slot_ok (dead sl) ∧ issued (dead sl) ≡ₚ issued sl ++ [hb_next h]) →
  (sl_alive sl = true → used < cap → slot_ok (push sl) ∧ issued (push sl) ≡ₚ issued sl ++ [hb_next h]) →
  hub_ok (log ++ [(peer, hb_next h)]) (put_slot peer sl' (S (hb_next h)) h).
Proof.
  intros Hh Hl Hc Hdead Hpush. apply (put_next_ok _ _ sl); [done..| |];
    unfold channel_send in Hc; destruct (sl_alive sl); cbn in Hc; try case_decide; simplify_eq; naive_solver.
Qed.

Lemma send_ok log peer mid ct h h' n : hub_ok log h → hub_send peer mid ct h = Some (h', n) → hub_ok (log ++ [(peer, n)]) h'.
Proof.
  intros Hh Hsend. destruct (ensure_ok log peer h Hh) as [H1 [sl Hl]]. unfold hub_send in Hsend. rewrite Hl in Hsend. cbn in Hsend.
  destruct (channel_send _ _ _ _ sl) as [sl'|] eqn:Hc; [|done]. injection Hsend as <- <-.
  destruct (ho_slots _ _ H1 _ _ Hl) as [Hok _]. eapply channel_ok; [done|done|done|by apply lose_ok|].
  intros Ha Hr. by apply push_job_ok.
Qed.

Lemma send_welcome_ok log peer wb h h' n :
  hub_ok log h → hub_send_welcome peer wb h = Some (h', n) → hub_ok (log ++ [(peer, n)]) h'.
Proof.
  intros Hh Hsend. destruct (ensure_ok log peer h Hh) as [H1 [sl Hl]]. unfold hub_send_welcome in Hsend. rewrite Hl in Hsend. cbn in Hsend.
  destruct (channel_send _ _ _ _ sl) as [sl'|] eqn:Hc; [|done]. injection Hsend as <- <-.
  destruct (ho_slots _ _ H1 _ _ Hl) as [Hok _]. eapply channel_ok; [done|done|done|by apply lose_ok|].
  intros Ha Hr. by apply push_welcome_ok.
Qed.

Lemma ingest_ok log peer c h h' : hub_ok log h → ingest peer c h = Some h' → hub_ok log h'.
Proof.
  intros Hh Hi. destruct (ensure_ok log peer h Hh) as [H1 [sl Hl]]. unfold ingest in Hi. rewrite Hl in Hi. cbn in Hi.
  destruct (channel_send _ _ _ _ sl) as [sl'|] eqn:Hc; [|done]. injection Hi as <-.
  destruct (ho_slots _ _ H1 _ _ Hl) as [Hok _]. eapply put_ok; [done|done|..].
  - unfold channel_send in Hc. destruct (sl_alive sl) eqn:Ha; cbn in Hc; [case_decide as Hr; [|done]|]; injection Hc as <-; [|done].
    destruct Hok. split; cbn; [done|by rewrite Ha|done|done|rewrite len_app; unfold len in *; cbn; lia].
  - unfold channel_send in Hc. destruct (sl_alive sl); cbn in Hc; [case_decide; [|done]|]; by injection Hc as <-.
Qed.

(** An iteration takes a caller out of a queue, or none. *)
Lemma taken_issued t sl ev sl' :
  taken t sl = Some (ev, sl') →
  sl_seen sl' = sl_seen sl ∧ sl_actor sl' = sl_actor sl ∧ sl_lost sl' = sl_lost sl ∧
  len (sl_jobs sl') ≤ len (sl_jobs sl) ∧ len (sl_welcomes sl') ≤ len (sl_welcomes sl) ∧ len (sl_ctrl sl') ≤ len (sl_ctrl sl) ∧
  (option_list (caller ev)).*1 ++ job_tickets (sl_jobs sl') ++ welcome_tickets (sl_welcomes sl') ≡ₚ
    job_tickets (sl_jobs sl) ++ welcome_tickets (sl_welcomes sl).
Proof.
  destruct t; cbn.
  - destruct (sl_jobs sl) as [|j js]; [done|]. intros [= <- <-]. cbn. rewrite len_cons. split_and!; try done; [lia|].
    by destruct (job_ack j).
  - destruct (sl_welcomes sl) as [|j js]; [done|]. intros [= <- <-]. cbn. rewrite len_cons. split_and!; try done; [lia|].
    destruct (wj_ack j); [|done]. cbn. by rewrite Permutation_middle.
  - destruct (sl_ctrl sl) as [|c cs]; [done|]. intros [= <- <-]. cbn. rewrite len_cons. split_and!; try done; lia.
  - by intros [= <- <-].
  - by intros [= <- <-].
  - by intros [= <- <-].
Qed.

Lemma iteration_ok peer seen ev w d (a : actor C) p' b :
  sound (waits_in seen) (acked_in seen) (callers seen) (core_of (mkPeer w d a)) →
  iteration peer inbound dialer direct_timeout fallback has_store download_dir ev (mkPeer w d a) = (p', b) →
  sound (waits_in (seen ++ [ev])) (acked_in (seen ++ [ev])) (callers (seen ++ [ev])) (core_of p') ∧
  (b = false → ac_pending (p_actor p') = ∅).
Proof.
  intros Hs Hit. pose proof (branch_sound peer inbound dialer direct_timeout fallback has_store download_dir _ ev _ Hs) as Hb.
  unfold iteration in Hit. destruct (branch _ _ _ _ _ _ _ ev _) as [s1 [[]|[|]]]; cbn [fst] in Hb; try (by injection Hit as <- <-).
  injection Hit as <- <-. destruct (leave_sound _ s1 Hb). by split.
Qed.

Lemma turn_slot peer ev sl sl' w d p' b t :
  slot_ok sl → taken t sl = Some (ev, sl') →
  iteration peer inbound dialer direct_timeout fallback has_store download_dir ev (mkPeer w d (sl_actor sl)) = (p', b) →
  slot_ok (after_turn ev (p_actor p') b sl') ∧ issued (after_turn ev (p_actor p') b sl') ≡ₚ issued sl.
Proof.
  intros [Hs Hd Hj Hw Hc] Ht Hit. destruct (taken_issued _ _ _ _ Ht) as (E1 & _ & E3 & Lj & Lw & Lc & Hp).
  destruct (iteration_ok _ _ _ _ _ _ _ _ Hs Hit) as [Hs' Hdead]. unfold after_turn. destruct b.
  - split.
    + split; cbn; rewrite ?E1; [done|done|lia..].
    + unfold issued. cbn [sl_seen sl_jobs sl_welcomes sl_lost]. rewrite callers_snoc, E1, E3, (assoc_L (++) (job_tickets (sl_jobs sl))), <- Hp.
      by rewrite <- !(assoc_L (++)).
  - split.
    + split; cbn; rewrite ?E1; [done| |unfold JOB_CHAN_CAP, CTRL_CHAN_CAP, len; cbn; lia..].
      intros _. unfold waiting. cbn. by rewrite Hdead.
    + unfold issued. cbn [sl_seen sl_jobs sl_welcomes sl_lost]. rewrite callers_snoc, E1, E3, <- (assoc_L (++)).
      apply Permutation_app_head.
      rewrite (assoc_L (++) (job_tickets (sl_jobs sl))), <- Hp, <- !(assoc_L (++)). apply Permutation_app_head.
      rewrite (comm (++) (sl_lost sl)). by rewrite <- !(assoc_L (++)).
Qed.

Lemma turn_ok log peer t h h' :
  hub_ok log h → actor_turn inbound dialer direct_timeout fallback has_store download_dir peer t h = Some h' → hub_ok log h'.
Proof.
  intros Hh Hturn. unfold actor_turn in Hturn. destruct (hb_peers h !! peer) as [sl|] eqn:Hl; [|done]. cbn in Hturn.
  destruct (sl_alive sl); [|done]. cbn in Hturn. destruct (taken t sl) as [[ev sl']|] eqn:Ht; [|done]. cbn in Hturn.
  destruct (ready _ _); [|done]. destruct (iteration _ _ _ _ _ _ _ ev _) as [p' b] eqn:Hit. injection Hturn as <-.
  destruct (turn_slot _ _ _ _ _ _ _ _ _ (proj1 (ho_slots _ _ Hh _ _ Hl)) Ht Hit) as [Hok Hi].
  by destruct (put_ok log peer sl _ h Hh Hl Hok Hi).
Qed.

Lemma step_ok log h o h' : hub_ok log h → hub_step h o h' → hub_ok (log ++ option_list o) h'.
Proof.
  intros Hh Hstep.
  destruct Hstep as [peer mid ct h h' n E|peer wb h h' n E|peer h|peer c h h' E|dialed peer h h' r E|peer t h h' E|w d h]; cbn [option_list];
    rewrite ?app_nil_r.
  - by eapply send_ok.
  - by eapply send_welcome_ok.
  - by apply ensure_ok.
  - by eapply ingest_ok.
  - unfold connect_and_ingest_at in E. destruct dialer; cbn in E; [|by injection E as <- _].
    destruct dialed as [[c ht]|e]; [|by injection E as <- _].
    destruct (ingest peer c h) as [h1|] eqn:Ei; [|done]. injection E as <- _. by eapply ingest_ok.
  - by eapply turn_ok.
  - by destruct Hh.
Qed.

(** Every caller given out by a peer's slot has one place. *)
Lemma slot_places sl : slot_ok sl → answered sl ++ waiting sl ≡ₚ issued sl.
Proof.
  intros [[(Hp & _ & _) _ _] _ _ _ _]. cbn in Hp. unfold answered, waiting, issued. rewrite <- Hp, <- !(assoc_L (++)).
  apply Permutation_app_head. rewrite (comm (++) (sl_lost sl)). by rewrite <- !(assoc_L (++)).
Qed.

(** C11: every caller of the hub is answered once.  While any number of senders hand
    messages and Welcomes for any peers to the hub, connections are accepted and dialled,
    and the actors of all peers take their turns in any order, every caller has a oneshot
    of its own, and for each peer the callers that asked for it are, each exactly once,
    at that peer's actor: waiting, in a channel or in flight, or answered.  A caller is
    told of an acknowledgement only if that peer acknowledged its message after it was
    taken up; no caller waits for an actor that has ended; and no channel exceeds its
    capacity. *)
Theorem hub_answers_once w d log h :
  hub_run (hub_new w d) log h →
  log.*2 = seq 0 (hb_next h) ∧
  (∀ peer n, (peer, n) ∈ log → is_Some (hb_peers h !! peer)) ∧
  ∀ peer sl, hb_peers h !! peer = Some sl →
    answered sl ++ waiting sl ≡ₚ asked peer log ∧
    (∀ n, (n, Acked) ∈ ac_answers (sl_actor sl) → acked_in (sl_seen sl) n) ∧
    (sl_alive sl = false → waiting sl = []) ∧
    len (sl_jobs sl) ≤ 64 ∧ len (sl_welcomes sl) ≤ 64 ∧ len (sl_ctrl sl) ≤ 4.
Proof.
  intros Hrun. assert (hub_ok log h) as [Hs Ha Hn].
  { induction Hrun as [|log h o h' _ IH Hstep]; [|by eapply step_ok].
    split; [intros ? ?; cbn; by rewrite lookup_empty|done|done]. }
  split_and!; [done| |].
  - intros peer n Hin. destruct (hb_peers h !! peer) eqn:E; [eauto|]. apply Ha in E.
    assert (n ∈ asked peer log) as Hno; [|rewrite E in Hno; by apply not_elem_of_nil in Hno].
    apply list_elem_of_fmap. exists (peer, n). split; [done|]. by apply list_elem_of_filter.
  - intros peer sl Hl. destruct (Hs _ _ Hl) as [Hok Hi]. rewrite <- Hi. pose proof (slot_places sl Hok) as Hp.
    destruct Hok as [[(_ & Hacked & _) _ _] ? ? ? ?]. by split_and!.
Qed.
End hub_props.

(** ** Witness: two peers *)

Import SampleInstances ActorSamples.

Definition other_key : bytes := fill 32 Byte.x06.
Definition empty_hub : hub script nat := hub_new (mkScript 0 [] [] []) (start empty_db).
#[local] Abbreviation turn := (actor_turn None true 60000 true true true).
#[local] Abbreviation run := (hub_run None true 60000 true true true).

(** A message to each of two peers, the first is acknowledged; then a Welcome. *)
Definition busy_hub : option (hub script nat * list (bytes * nat)) :=
  '(h1, n1) ← hub_send peer_key (fill 16 Byte.x01) [Byte.x01] empty_hub;
  '(h2, n2) ← hub_send other_key (fill 16 Byte.x02) [Byte.x02] h1;
  h3 ← turn peer_key TakeJob h2;
  h4 ← turn peer_key (TakeFrame (Some (Ack (fill 16 Byte.x01)))) h3;
  '(h5, n5) ← hub_send_welcome peer_key [Byte.x03] h4;
  Some (h5, [(peer_key, n1); (other_key, n2); (peer_key, n5)]).

Lemma busy_hub_reached h log : busy_hub = Some (h, log) → run empty_hub log h.
Proof.
  unfold busy_hub. intros ([h1 n1] & E1 & ([h2 n2] & E2 & (h3 & E3 & (h4 & E4 & ([h5 n5] & E5 & [= <- <-])%bind_Some)
    %bind_Some)%bind_Some)%bind_Some)%bind_Some.
  pose proof (hub_start None true 60000 true true true empty_hub) as R.
  apply (λ R, hub_next _ _ _ _ _ _ _ _ _ _ _ R (step_send _ _ _ _ _ _ _ _ _ _ _ _ E1)) in R.
  apply (λ R, hub_next _ _ _ _ _ _ _ _ _ _ _ R (step_send _ _ _ _ _ _ _ _ _ _ _ _ E2)) in R.
  apply (λ R, hub_next _ _ _ _ _ _ _ _ _ _ _ R (step_turn _ _ _ _ _ _ _ _ _ _ E3)) in R.
  apply (λ R, hub_next _ _ _ _ _ _ _ _ _ _ _ R (step_turn _ _ _ _ _ _ _ _ _ _ E4)) in R.
  exact (hub_next _ _ _ _ _ _ _ _ _ _ _ R (step_welcome _ _ _ _ _ _ _ _ _ _ _ E5)).
Qed.

(** The first caller is answered and the third waits, both at the first peer. *)
Lemma hub_answers_once_witness :
  ∃ h sl, busy_hub = Some (h, [(peer_key, 0); (other_key, 1); (peer_key, 2)]%nat) ∧ hb_peers h !! peer_key = Some sl ∧
    answered sl = [0%nat] ∧ answered sl ++ waiting sl ≡ₚ [0; 2]%nat.
Proof.
  destruct busy_hub as [[h log]|] eqn:E; [|vm_compute in E; discriminate].
  assert (snd <$> busy_hub = Some [(peer_key, 0); (other_key, 1); (peer_key, 2)]%nat) as Hn by (vm_compute; reflexivity).
  assert ((λ r : hub script nat * list (bytes * nat), answered <$> hb_peers r.1 !! peer_key) <$> busy_hub = Some (Some [0%nat])) as Ha
    by (vm_compute; reflexivity).
  rewrite E in Hn, Ha. injection Hn as ->. cbn [fmap option_fmap option_map fst] in Ha.
  destruct (hub_answers_once None true 60000 true true true (mkScript 0 [] [] []) (start empty_db)
    [(peer_key, 0); (other_key, 1); (peer_key, 2)]%nat h) as (_ & _ & H); [exact (busy_hub_reached h _ E)|].
  destruct (hb_peers h !! peer_key) as [sl|] eqn:El; [|discriminate]. injection Ha as Ha.
  exists h, sl. split; [reflexivity|]. split; [exact El|]. split; [exact Ha|]. exact (proj1 (H peer_key sl El)).
Defined.
