(* ===== verification/Ui.v ===== *)
(** * Ui: the conversation on the screen

    [crates/ui/src-svelte/src/lib/stores]: [conversation.ts], [delivery.ts] and
    [attachments.ts], the state behind the message view of the desktop application,
    and [pubkey.ts].  The stores and the module variables are one record.  A function
    that awaits the daemon runs up to its request, which is recorded together with what
    is left to do, a [task]; [resume] runs that on the reply.  Replies arrive in any
    order, and any function may be called in between.

    The commands and results are those of the daemon's [Api].  A public key is an array,
    which [===] compares by identity: it carries a number standing for that. *)

From S2P Require Import Prelude Text Framing CoreErrors Identity Messages Api.

(** ** [pubkey.ts] *)

Record PublicKey : Type := mkKey { pk_identity : nat; pk_bytes : bytes }.
#[export] Instance public_key_eq_dec : EqDecision PublicKey.
Proof. solve_decision. Defined.

Definition pubkeyEq (a b : option bytes) : bool := bool_decide (a = b).

(** ** [delivery.ts] *)

Inductive record_state : Type := St_Delivered | St_Dismissed | St_Failed | St_Pending.

Definition deliveryStateFromRecord (r : MessageRecord) : record_state :=
  match rec_delivered_at r, rec_dismissed_at r, rec_failed_reason r with
  | Some _, _, _ => St_Delivered
  | None, Some _, _ => St_Dismissed
  | None, None, Some _ => St_Failed
  | None, None, None => St_Pending
  end.

Definition hex16ToString (h : bytes) : string := hex_encode h.

Definition recordDeliveryStatus (message_hex : string) (status : DeliveryStatus) (m : gmap string DeliveryStatus)
    : gmap string DeliveryStatus := <[message_hex := status]> m.

Inductive icon : Type := Icon_Pending | Icon_Sent | Icon_Delivered | Icon_Failed.
Definition deliveryToIconStatus (s : option DeliveryStatus) : icon :=
  match s with
  | None | Some Status_Queued => Icon_Pending
  | Some Status_Delivered => Icon_Delivered
  | Some Status_Deposited => Icon_Sent
  | Some (Status_Failed _) => Icon_Failed
  end.

(** ** [attachments.ts] *)

Inductive AttachmentStatus : Type := At_Queued | At_Sending | At_Receiving | At_Complete | At_Failed.
Record AttachmentState : Type := mkAttachment {
  at_status : AttachmentStatus; at_received : Z; at_total : Z; at_filename : option string; at_mime : option string;
  at_size : option Z; at_available : bool; at_reason : option string; at_retrying : bool
}.
Definition attachments_map : Type := gmap string AttachmentState.

Definition patch (aid : string) (fn : AttachmentState → AttachmentState) (m : attachments_map) : attachments_map :=
  <[aid := fn (default (mkAttachment At_Queued 0 0 None None None false None false) (m !! aid))]> m.

(** [a || b] on numbers. *)
Definition or_else_num (a b : Z) : Z := if decide (a = 0) then b else a.

Definition markQueued (aid filename : string) (size total : Z) : attachments_map → attachments_map := patch aid (λ p,
  mkAttachment At_Queued (at_received p) total (Some filename) (at_mime p) (Some size) (at_available p) (at_reason p) (at_retrying p)).
Definition applyManifest (aid filename mime : string) (size total : Z) : attachments_map → attachments_map := patch aid (λ p,
  mkAttachment (at_status p) (at_received p) (or_else_num (at_total p) total) (Some filename) (Some mime) (Some size)
    (at_available p) (at_reason p) (at_retrying p)).
Definition applyProgress (aid : string) (received total : Z) : attachments_map → attachments_map := patch aid (λ p,
  mkAttachment (match at_status p with At_Complete => At_Complete | _ => At_Receiving end) received total (at_filename p) (at_mime p)
    (at_size p) (at_available p) (at_reason p) false).
Definition markAvailable (aid filename mime : string) (size : Z) : attachments_map → attachments_map := patch aid (λ p,
  mkAttachment At_Complete (or_else_num (at_total p) (at_received p)) (at_total p) (Some filename) (Some mime) (Some size) true
    (at_reason p) false).
Definition applyFailed (aid reason : string) : attachments_map → attachments_map := patch aid (λ p,
  mkAttachment At_Failed (at_received p) (at_total p) (at_filename p) (at_mime p) (at_size p) (at_available p) (Some reason) false).
Definition markRetrying (aid : string) : attachments_map → attachments_map := patch aid (λ p,
  mkAttachment At_Queued (at_received p) (at_total p) (at_filename p) (at_mime p) (at_size p) (at_available p) None true).
Definition markDelivered (aid : string) : attachments_map → attachments_map := patch aid (λ p,
  mkAttachment At_Complete (at_received p) (at_total p) (at_filename p) (at_mime p) (at_size p) (at_available p) (at_reason p)
    (at_retrying p)).

(** ** The state of [conversation.ts] *)

(** A [MessageRecord] or an [OptimisticMessage], with the fields the latter adds. *)
Record shown : Type := mkShown {
  sh_record : MessageRecord;
  sh_temp : option string;
  sh_optimistic : bool;
  sh_failed : option string;
  sh_attach : option (string * Z);
  sh_attach_id : option string
}.
Definition canonical (r : MessageRecord) : shown := mkShown r None false None None None.

Record ConversationState : Type := mkConversation {
  cv_contact : option PublicKey;
  cv_messages : list shown;
  cv_nextBeforeId : option Z;
  cv_loadingOlder : bool;
  cv_unreadAnchorRowId : option Z;
  cv_readCursor : Z
}.
Definition no_conversation : ConversationState := mkConversation None [] None false None 0.

(** What is left to do when a reply arrives. *)
Inductive task : Type :=
| T_Open (token : nat) (contact : PublicKey) (last_read_row_id : option Z)
| T_Older (contact : PublicKey)
| T_Send (contact : PublicKey) (tempId : string)
| T_SendFile (contact : PublicKey) (tempId filename : string) (size : Z)
| T_MarkRead (target : Z)
| T_Nothing
| T_Dismiss (message_id : bytes).

(** How a request ends: a result, another response with its text, or a rejection. *)
Inductive reply : Type := R_Ok (r : CommandResult) | R_Other (json : string) | R_Rejected (message : string).

Record ui : Type := mkUi {
  u_conv : ConversationState;
  u_loadToken : nat;
  u_delivery : gmap string DeliveryStatus;
  u_attachments : attachments_map;
  u_timer : bool;
  u_pendingHighestRowId : Z;
  u_pendingContact : option PublicKey;
  u_toasts : list string;
  u_tasks : gmap nat task;
  u_requests : list Command
}.
Definition ui_start : ui := mkUi no_conversation 0 ∅ ∅ false 0 None [] ∅ [].

Definition with_conv (f : ConversationState → ConversationState) (u : ui) : ui :=
  mkUi (f (u_conv u)) (u_loadToken u) (u_delivery u) (u_attachments u) (u_timer u) (u_pendingHighestRowId u) (u_pendingContact u)
    (u_toasts u) (u_tasks u) (u_requests u).
Definition with_token (n : nat) (u : ui) : ui :=
  mkUi (u_conv u) n (u_delivery u) (u_attachments u) (u_timer u) (u_pendingHighestRowId u) (u_pendingContact u) (u_toasts u) (u_tasks u)
    (u_requests u).
Definition with_delivery (f : gmap string DeliveryStatus → gmap string DeliveryStatus) (u : ui) : ui :=
  mkUi (u_conv u) (u_loadToken u) (f (u_delivery u)) (u_attachments u) (u_timer u) (u_pendingHighestRowId u) (u_pendingContact u)
    (u_toasts u) (u_tasks u) (u_requests u).
Definition with_attachments (f : attachments_map → attachments_map) (u : ui) : ui :=
  mkUi (u_conv u) (u_loadToken u) (u_delivery u) (f (u_attachments u)) (u_timer u) (u_pendingHighestRowId u) (u_pendingContact u)
    (u_toasts u) (u_tasks u) (u_requests u).
Definition with_timer (armed : bool) (highest : Z) (contact : option PublicKey) (u : ui) : ui :=
  mkUi (u_conv u) (u_loadToken u) (u_delivery u) (u_attachments u) armed highest contact (u_toasts u) (u_tasks u) (u_requests u).
Definition with_toast (m : string) (u : ui) : ui :=
  mkUi (u_conv u) (u_loadToken u) (u_delivery u) (u_attachments u) (u_timer u) (u_pendingHighestRowId u) (u_pendingContact u)
    (u_toasts u ++ [m]) (u_tasks u) (u_requests u).

(** [ipcClient.request(cmd)]: tasks are numbered by the requests. *)
Definition request (cmd : Command) (t : task) (u : ui) : ui :=
  mkUi (u_conv u) (u_loadToken u) (u_delivery u) (u_attachments u) (u_timer u) (u_pendingHighestRowId u) (u_pendingContact u)
    (u_toasts u) (<[length (u_requests u) := t]> (u_tasks u)) (u_requests u ++ [cmd]).
Definition without_task (i : nat) (u : ui) : ui :=
  mkUi (u_conv u) (u_loadToken u) (u_delivery u) (u_attachments u) (u_timer u) (u_pendingHighestRowId u) (u_pendingContact u)
    (u_toasts u) (base.delete i (u_tasks u)) (u_requests u).

(** [unwrapOk], after the [await] that may throw. *)
Definition unwrapOk (r : reply) : result CommandResult string :=
  match r with
  | R_Ok res => Ok res
  | R_Other json => Err ("IPC error: " +:+ json)
  | R_Rejected m => Err m
  end.

(** ** Functions on the conversation *)

Definition active (u : ui) : option bytes := pk_bytes <$> cv_contact (u_conv u).
Definition is_active (contact : PublicKey) (s : ConversationState) : bool :=
  pubkeyEq (pk_bytes <$> cv_contact s) (Some (pk_bytes contact)).

Definition set_messages (l : list shown) (s : ConversationState) : ConversationState :=
  mkConversation (cv_contact s) l (cv_nextBeforeId s) (cv_loadingOlder s) (cv_unreadAnchorRowId s) (cv_readCursor s).
Definition set_loading (b : bool) (s : ConversationState) : ConversationState :=
  mkConversation (cv_contact s) (cv_messages s) (cv_nextBeforeId s) b (cv_unreadAnchorRowId s) (cv_readCursor s).
Definition set_cursor (c : Z) (s : ConversationState) : ConversationState :=
  mkConversation (cv_contact s) (cv_messages s) (cv_nextBeforeId s) (cv_loadingOlder s) (cv_unreadAnchorRowId s) c.

Definition closeConversation (u : ui) : ui := with_conv (λ _, no_conversation) (with_token (S (u_loadToken u)) u).

(** The placeholder of a message being sent. *)
Definition placeholder (contact : PublicKey) (kind : Kind) (tempId : string) (attach : option (string * Z)) (now_ms : Z) : shown :=
  mkShown (mkMessageRecord (-1) (fill 16 Byte.x00) (pk_bytes contact) Outgoing kind 0 (now_ms / 1000) now_ms None None None)
    (Some tempId) true None attach None.
Definition append_placeholder (contact : PublicKey) (m : shown) (s : ConversationState) : ConversationState :=
  if is_active contact s then set_messages (cv_messages s ++ [m]) s else s.
Definition appendOptimistic (contact : PublicKey) (body tempId : string) (now_ms : Z) : ui → ui :=
  with_conv (append_placeholder contact (placeholder contact (Text body) tempId None now_ms)).

(** The message with a temporary id, replaced. *)
Definition replace_temp (tempId : string) (f : shown → shown) (s : ConversationState) : ConversationState :=
  match list_find (λ m, sh_temp m = Some tempId) (cv_messages s) with
  | None => s
  | Some (i, m) => set_messages (<[i := f m]> (cv_messages s)) s
  end.
Definition reconcile (tempId : string) (r : MessageRecord) : ui → ui := with_conv (replace_temp tempId (λ _, canonical r)).
Definition markFailed (tempId reason : string) : ui → ui := with_conv (replace_temp tempId (λ m,
  mkShown (sh_record m) (sh_temp m) (sh_optimistic m) (Some reason) (sh_attach m) (sh_attach_id m))).
(** The two promotions of a placeholder to a sent message. *)
Definition promote (tempId : string) (attach_id : option string) : ui → ui := with_conv (replace_temp tempId (λ m,
  mkShown (sh_record m) (sh_temp m) false (sh_failed m) (sh_attach m) (match attach_id with Some a => Some a | None => sh_attach_id m end))).

Definition hydrate_one (m : gmap string DeliveryStatus) (r : MessageRecord) : gmap string DeliveryStatus :=
  match rec_direction r with
  | Incoming => m
  | Outgoing =>
      match deliveryStateFromRecord r, rec_failed_reason r with
      | St_Delivered, _ => recordDeliveryStatus (hex16ToString (rec_message_id r)) Status_Delivered m
      | St_Failed, Some reason => recordDeliveryStatus (hex16ToString (rec_message_id r)) (Status_Failed reason) m
      | _, _ => m
      end
  end.
Definition hydrateDeliveryFromRecords (records : list MessageRecord) : ui → ui := with_delivery (λ m, foldl hydrate_one m records).

Definition max_row_id (records : list MessageRecord) : Z := foldl (λ acc r, Z.max acc (rec_row_id r)) 0 records.

Definition openConversationFromSummary (contact : PublicKey) (last_read_row_id : option Z) (u : ui) : ui :=
  let u1 := with_token (S (u_loadToken u)) u in
  request (Cmd_RecentMessages (Some (pk_bytes contact)) 50 None true) (T_Open (u_loadToken u1) contact last_read_row_id) u1.

Definition opened (contact : PublicKey) (last_read_row_id : option Z) (result : CommandResult) (u : ui) : ui :=
  let '(records, next) := match result with
                          | Res_MessagesPage rs next => (reverse rs, next)
                          | _ => ([], None)
                          end in
  let u1 := with_conv (λ _, mkConversation (Some contact) (canonical <$> records) next false last_read_row_id
                              (default 0 last_read_row_id)) (hydrateDeliveryFromRecords records u) in
  if decide (0 < max_row_id records)
  then request (Cmd_MarkRead (pk_bytes contact) (max_row_id records)) T_Nothing u1 else u1.

Definition loadOlder (u : ui) : ui :=
  let s := u_conv u in
  match cv_loadingOlder s, cv_nextBeforeId s, cv_contact s with
  | false, Some before, Some contact =>
      request (Cmd_RecentMessages (Some (pk_bytes contact)) 50 (Some before) true) (T_Older contact) (with_conv (set_loading true) u)
  | _, _, _ => u
  end.

Definition if_active (contact : PublicKey) (f : ConversationState → ConversationState) : ui → ui :=
  with_conv (λ s, if is_active contact s then f s else s).

Definition older_loaded (contact : PublicKey) (r : reply) (u : ui) : ui :=
  match unwrapOk r with
  | Ok (Res_MessagesPage rs next) =>
      let older := reverse rs in
      if_active contact (λ s,
        mkConversation (cv_contact s) ((canonical <$> older) ++ cv_messages s) next false (cv_unreadAnchorRowId s) (cv_readCursor s))
        (hydrateDeliveryFromRecords older u)
  | _ => if_active contact (set_loading false) u
  end.

Definition appendMessage (record : MessageRecord) : ui → ui := with_conv (λ s,
  if pubkeyEq (pk_bytes <$> cv_contact s) (Some (rec_contact record)) then set_messages (cv_messages s ++ [canonical record]) s else s).

Definition send (contact : PublicKey) (body tempId : string) (now_ms : Z) (u : ui) : ui :=
  request (Cmd_SendMessage (pk_bytes contact) (Text body)) (T_Send contact tempId) (appendOptimistic contact body tempId now_ms u).

Definition sent (contact : PublicKey) (tempId : string) (r : reply) (u : ui) : ui :=
  if negb (is_active contact (u_conv u)) then u
  else
    match unwrapOk r with
    | Ok (Res_MessageSent id status (Some record)) =>
        with_delivery (recordDeliveryStatus (hex16ToString id) (match status with Delivered => Status_Delivered | Queued => Status_Queued end))
          (reconcile tempId record u)
    | Ok (Res_MessageSent _ _ None) => promote tempId None u
    | Ok _ => markFailed tempId "unexpected reply variant" u
    | Err m => markFailed tempId m u
    end.

Definition sendFile (contact : PublicKey) (path filename : string) (size : Z) (tempId : string) (now_ms : Z) (u : ui) : ui :=
  request (Cmd_SendFile (pk_bytes contact) path) (T_SendFile contact tempId filename size)
    (with_conv (append_placeholder contact (placeholder contact (File []) tempId (Some (filename, size)) now_ms)) u).

Definition file_sent (contact : PublicKey) (tempId filename : string) (size : Z) (r : reply) (u : ui) : ui :=
  if negb (is_active contact (u_conv u)) then u
  else
    match unwrapOk r with
    | Ok (Res_FileQueued id aid total) =>
        promote tempId (Some (hex16ToString aid))
          (with_delivery (recordDeliveryStatus (hex16ToString id) Status_Queued)
            (with_attachments (markQueued (hex16ToString aid) filename size total) u))
    | Ok _ => markFailed tempId "unexpected reply variant" u
    | Err m => markFailed tempId m u
    end.

Definition markReadIfAtBottom (row_id : Z) (u : ui) : ui :=
  let s := u_conv u in
  match cv_contact s with
  | None => u
  | Some contact =>
      if decide (row_id ≤ cv_readCursor s) then u
      else with_timer true (Z.max (u_pendingHighestRowId u) row_id) (Some contact) u
  end.

(** The timer of [markReadIfAtBottom]; the contacts are compared by [!==]. *)
Definition mark_read_timer (u : ui) : ui :=
  if negb (u_timer u) then u
  else
    let target := u_pendingHighestRowId u in
    let u1 := with_timer false 0 None u in
    match cv_contact (u_conv u1), u_pendingContact u with
    | Some c, Some c' =>
        if decide (pk_identity c ≠ pk_identity c' ∨ target ≤ cv_readCursor (u_conv u1)) then u1
        else request (Cmd_MarkRead (pk_bytes c) target) (T_MarkRead target) u1
    | _, _ => u1
    end.

Definition dismiss (message_id : bytes) (u : ui) : ui := request (Cmd_DismissMessage message_id) (T_Dismiss message_id) u.

Definition dismissed (message_id : bytes) (r : reply) (now_ms : Z) (u : ui) : ui :=
  match r with
  | R_Ok _ =>
      with_conv (λ s, set_messages ((λ m,
        if decide (rec_message_id (sh_record m) = message_id)
        then let r := sh_record m in
             mkShown (mkMessageRecord (rec_row_id r) (rec_message_id r) (rec_contact r) (rec_direction r) (rec_kind r)
                        (rec_mls_generation r) (rec_ts_daemon_recv r) (rec_ts_envelope r) (rec_delivered_at r) (Some (now_ms / 1000))
                        (rec_failed_reason r))
               (sh_temp m) (sh_optimistic m) (sh_failed m) (sh_attach m) (sh_attach_id m)
        else m) <$> cv_messages s) s) u
  | _ => with_toast "Couldn't dismiss this message." u
  end.

(** The reply to request [i] arrives. *)
Definition resume (i : nat) (r : reply) (now_ms : Z) (u : ui) : ui :=
  match u_tasks u !! i with
  | None => u
  | Some t =>
      let u := without_task i u in
      match t with
      | T_Open token contact last_read =>
          if decide (token ≠ u_loadToken u) then u
          else match unwrapOk r with Ok result => opened contact last_read result u | Err _ => u end
      | T_Older contact => older_loaded contact r u
      | T_Send contact tempId => sent contact tempId r u
      | T_SendFile contact tempId filename size => file_sent contact tempId filename size r u
      | T_MarkRead target => match r with R_Rejected _ => u | _ => with_conv (set_cursor target) u end
      | T_Nothing => u
      | T_Dismiss id => dismissed id r now_ms u
      end
  end.

(** [contact_removed], as handled in [routes/+page.svelte]. *)
Definition contact_removed (contact : bytes) : ui → ui := with_conv (λ s,
  if pubkeyEq (pk_bytes <$> cv_contact s) (Some contact)
  then mkConversation None [] (cv_nextBeforeId s) (cv_loadingOlder s) (cv_unreadAnchorRowId s) (cv_readCursor s) else s).
