(* ===== verification/UiProps.v ===== *)
(** * UiProps: what the conversation view shows

    Over every interleaving of what the user does, what the daemon reports and the
    replies to pending requests: only messages of the open conversation are shown, and a
    closed one stays closed.  Paging back with the daemon's own handler shows the whole
    conversation.  Two races that do go wrong. *)

From S2P Require Import Prelude Text Framing SimpleCodec CoreErrors Sql MailboxProtocol Identity Contacts Messages Api Daemon HistoryCommands Ui.

(** ** Everything that happens *)

Inductive input : Type :=
| I_Open (contact : PublicKey) (last_read : option Z)
| I_Close
| I_Older
| I_Send (contact : PublicKey) (body tempId : string)
| I_SendFile (contact : PublicKey) (path filename : string) (size : Z) (tempId : string)
| I_Bottom (row_id : Z)
| I_Timer
| I_Dismiss (message_id : bytes)
| I_Received (record : MessageRecord)
| I_Status (message_id : bytes) (status : DeliveryStatus)
| I_Removed (contact : bytes)
| I_Reply (i : nat) (r : reply).

Definition react (i : input) (now_ms : Z) : ui → ui :=
  match i with
  | I_Open c last_read => openConversationFromSummary c last_read
  | I_Close => closeConversation
  | I_Older => loadOlder
  | I_Send c body tempId => send c body tempId now_ms
  | I_SendFile c path filename size tempId => sendFile c path filename size tempId now_ms
  | I_Bottom row => markReadIfAtBottom row
  | I_Timer => mark_read_timer
  | I_Dismiss id => dismiss id
  | I_Received r => appendMessage r
  | I_Status id s => with_delivery (recordDeliveryStatus (hex16ToString id) s)
  | I_Removed c => contact_removed c
  | I_Reply n r => resume n r now_ms
  end.

(** The daemon answers with records of the contact asked for. *)
Definition reply_fits (t : task) (r : reply) : Prop :=
  match t, r with
  | (T_Open _ c _ | T_Older c), R_Ok (Res_MessagesPage rs _) => Forall (λ r, rec_contact r = pk_bytes c) rs
  | T_Send c _, R_Ok (Res_MessageSent _ _ (Some r)) => rec_contact r = pk_bytes c
  | _, _ => True
  end.
Definition input_fits (i : input) (u : ui) : Prop :=
  match i with I_Reply n r => ∀ t, u_tasks u !! n = Some t → reply_fits t r | _ => True end.

Definition ui_step (u u' : ui) : Prop := ∃ i now, input_fits i u ∧ u' = react i now u.
(** A step in which no conversation is opened. *)
Definition idle_step (u u' : ui) : Prop :=
  ∃ i now, input_fits i u ∧ (∀ c last_read, i ≠ I_Open c last_read) ∧ u' = react i now u.

(** ** Only the open conversation is shown *)

Definition belongs (s : ConversationState) : Prop :=
  Forall (λ m, Some (rec_contact (sh_record m)) = pk_bytes <$> cv_contact s) (cv_messages s).
(** No pending load is newer than the last selection. *)
Definition tokens_upto (n : nat) (u : ui) : Prop := ∀ i tok c l, u_tasks u !! i = Some (T_Open tok c l) → (tok ≤ n)%nat.

Lemma belongs_none s : cv_contact s = None → belongs s → cv_messages s = [].
Proof. intros Hc H. unfold belongs in H. rewrite Hc in H. by destruct H. Qed.

Lemma is_active_spec c s : is_active c s = true ↔ pk_bytes <$> cv_contact s = Some (pk_bytes c).
Proof. unfold is_active, pubkeyEq. apply bool_decide_eq_true. Qed.

Lemma belongs_append c m s : rec_contact (sh_record m) = pk_bytes c → belongs s → belongs (append_placeholder c m s).
Proof.
  intros Hm H. unfold append_placeholder. destruct (is_active c s) eqn:E; [|done]. apply is_active_spec in E.
  apply Forall_app. split; [done|]. constructor; [by rewrite Hm|done].
Qed.

Lemma belongs_replace tempId f s :
  (∀ m, Some (rec_contact (sh_record m)) = pk_bytes <$> cv_contact s → Some (rec_contact (sh_record (f m))) = pk_bytes <$> cv_contact s) →
  belongs s → belongs (replace_temp tempId f s).
Proof.
  intros Hf H. unfold replace_temp. destruct (list_find _ _) as [[i m]|] eqn:E; [|done].
  apply list_find_Some in E as (Hm & _). apply Forall_insert; [done|]. apply Hf. by eapply (Forall_lookup_1 _ _ i m H).
Qed.

Lemma belongs_records c rs n l a z :
  Forall (λ r, rec_contact r = pk_bytes c) rs → belongs (mkConversation (Some c) (canonical <$> reverse rs) n l a z).
Proof.
  intros H. unfold belongs. cbn. rewrite Forall_fmap, Forall_reverse. eapply Forall_impl; [exact H|]. cbn. by intros r ->.
Qed.

(** What the parts of [ui] other than the conversation do. *)
Lemma opened_conv c l res u : u_conv (opened c l res u) =
  match res with
  | Res_MessagesPage rs next => mkConversation (Some c) (canonical <$> reverse rs) next false l (default 0 l)
  | _ => mkConversation (Some c) [] None false l (default 0 l)
  end.
Proof. unfold opened. destruct res; cbn; by case_decide. Qed.

Lemma older_conv c r u : u_conv (older_loaded c r u) =
  match unwrapOk r with
  | Ok (Res_MessagesPage rs next) =>
      if is_active c (u_conv u)
      then mkConversation (cv_contact (u_conv u)) ((canonical <$> reverse rs) ++ cv_messages (u_conv u)) next false
             (cv_unreadAnchorRowId (u_conv u)) (cv_readCursor (u_conv u))
      else u_conv u
  | _ => if is_active c (u_conv u) then set_loading false (u_conv u) else u_conv u
  end.
Proof. unfold older_loaded. by destruct (unwrapOk r) as [[]|]. Qed.

Lemma belongs_reply t r i now u :
  u_tasks u !! i = Some t → reply_fits t r → belongs (u_conv u) → belongs (u_conv (resume i r now u)).
Proof.
  intros Ht Hr H. unfold resume. rewrite Ht. destruct t as [tok c l|c|c tid|c tid fn sz|target| |id].
  - case_decide; [done|]. destruct (unwrapOk r) as [res|] eqn:E; [|done]. destruct r as [res'| |]; try done. injection E as ->.
    rewrite opened_conv. destruct res; try (by constructor). by apply belongs_records.
  - rewrite older_conv. cbn [u_conv without_task]. destruct (unwrapOk r) as [res|] eqn:E.
    2:{ by destruct (is_active c _). }
    destruct r as [res'| |]; try done. injection E as ->. destruct res; try (by destruct (is_active c _)).
    destruct (is_active c (u_conv u)) eqn:Ea; [|done]. apply is_active_spec in Ea. apply Forall_app. split; [|done].
    cbn [cv_contact]. rewrite Ea, Forall_fmap, Forall_reverse. eapply Forall_impl; [exact Hr|]. cbn. by intros ? ->.
  - unfold sent. destruct (is_active c (u_conv (without_task i u))) eqn:Ea; [|done]. apply is_active_spec in Ea. cbn [negb].
    destruct (unwrapOk r) as [res|] eqn:E; [destruct res as []|]; try (by apply belongs_replace).
    destruct r as [res'| |]; try done. injection E as ->. destruct record as [rec|]; [|by apply belongs_replace].
    apply belongs_replace; [|done]. intros m _. cbn in Hr |- *. by rewrite Hr.
  - unfold file_sent. destruct (is_active c (u_conv (without_task i u))) eqn:Ea; [|done]. cbn [negb].
    destruct (unwrapOk r) as [res|]; [destruct res|]; by apply belongs_replace.
  - by destruct r.
  - done.
  - destruct r; [|done|done]. unfold belongs, dismissed. cbn. rewrite Forall_fmap. eapply Forall_impl; [exact H|]. cbn.
    intros m Hm. by case_decide.
Qed.

Lemma belongs_step u u' : ui_step u u' → belongs (u_conv u) → belongs (u_conv u').
Proof.
  intros (i & now & Hfit & ->) H. destruct i as [c l| | |c b t|c p f z t|row| |id|r|id s|c|n r]; cbn [react].
  - done.
  - by constructor.
  - unfold loadOlder. by repeat case_match.
  - by apply belongs_append.
  - by apply belongs_append.
  - unfold markReadIfAtBottom. by repeat case_match.
  - unfold mark_read_timer. by repeat case_match.
  - done.
  - unfold appendMessage, pubkeyEq. cbn. case_bool_decide as E; [|done]. apply Forall_app. split; [done|]. by constructor.
  - done.
  - unfold contact_removed. cbn. destruct (pubkeyEq _ _); [by constructor|done].
  - destruct (u_tasks u !! n) as [t|] eqn:Ht; [|unfold resume; by rewrite Ht]. by eapply belongs_reply; [|apply Hfit|].
Qed.

(** ** A closed conversation stays closed *)

(** Only opening a conversation adds a load, with the newest token. *)
Definition loads_from (i : input) (u u' : ui) : Prop :=
  (u_loadToken u ≤ u_loadToken u')%nat ∧
  ∀ j tok c l, u_tasks u' !! j = Some (T_Open tok c l) →
    u_tasks u !! j = Some (T_Open tok c l) ∨ (tok = u_loadToken u' ∧ i = I_Open c l).

Lemma loads_same i u u' : u_loadToken u' = u_loadToken u → u_tasks u' = u_tasks u → loads_from i u u'.
Proof. intros Ht Hk. split; [lia|]. rewrite Hk. auto. Qed.

Lemma loads_request i cmd t u u' :
  (∀ tok c l, t = T_Open tok c l → tok = u_loadToken u' ∧ i = I_Open c l) → loads_from i u u' → loads_from i u (request cmd t u').
Proof.
  intros Ht [Hn Hl]. split; [done|]. intros j tok c l. cbn. intros [[<- E]|[_ E]]%lookup_insert_Some; [right; by apply Ht|by apply Hl].
Qed.

Lemma loads_without i j u u' : loads_from i u u' → loads_from i u (without_task j u').
Proof. intros [Hn Hl]. split; [done|]. intros k tok c l. cbn. intros [_ E]%lookup_delete_Some. by apply Hl. Qed.

Lemma opened_loads i c l res u u' : loads_from i u u' → loads_from i u (opened c l res u').
Proof.
  intros H. unfold opened. destruct (match res with Res_MessagesPage rs next => (reverse rs, next) | _ => ([], None) end) as [rs next].
  case_decide; [apply loads_request; [done|]|]; done.
Qed.

Lemma resume_loads n r now u : loads_from (I_Reply n r) u (resume n r now u).
Proof.
  unfold resume. destruct (u_tasks u !! n) as [t|]; [|by apply loads_same].
  assert (loads_from (I_Reply n r) u (without_task n u)) as H by (by apply loads_without, loads_same).
  destruct t as [tok c l|c|c tid|c tid fn sz|target| |id].
  - case_decide; [done|]. destruct (unwrapOk r); [by apply opened_loads|done].
  - unfold older_loaded. by repeat case_match.
  - unfold sent. by repeat case_match.
  - unfold file_sent. by repeat case_match.
  - by destruct r.
  - done.
  - by destruct r.
Qed.

Lemma react_loads i now u : loads_from i u (react i now u).
Proof.
  destruct i as [c l| | |c b t|c p f z t|row| |id|r|id s|c|n r]; cbn [react]; try (by apply loads_same); [..|by apply resume_loads].
  - unfold openConversationFromSummary. apply loads_request; [by intros ??? [= <- <- <-]|]. split; [cbn; lia|]. cbn. auto.
  - split; [cbn; lia|]. cbn. auto.
  - unfold loadOlder. repeat case_match; try (by apply loads_same). apply loads_request; [done|by apply loads_same].
  - unfold send. apply loads_request; [done|by apply loads_same].
  - unfold sendFile. apply loads_request; [done|by apply loads_same].
  - unfold markReadIfAtBottom. repeat case_match; by apply loads_same.
  - unfold mark_read_timer. repeat case_match; try (by apply loads_same). apply loads_request; [done|by apply loads_same].
  - apply loads_request; [done|by apply loads_same].
Qed.

Lemma tokens_step u u' : ui_step u u' → tokens_upto (u_loadToken u) u → tokens_upto (u_loadToken u') u'.
Proof.
  intros (i & now & _ & ->) H j tok c l Hj. destruct (react_loads i now u) as [Hn Hl].
  destruct (Hl _ _ _ _ Hj) as [Hold|[-> _]]; [|done]. specialize (H _ _ _ _ Hold). lia.
Qed.

(** Nothing is shown, and every pending load has been superseded. *)
Definition closed (u : ui) : Prop :=
  cv_contact (u_conv u) = None ∧ cv_messages (u_conv u) = [] ∧
  ∀ j tok c l, u_tasks u !! j = Some (T_Open tok c l) → (tok < u_loadToken u)%nat.

Lemma closed_inactive c u : cv_contact (u_conv u) = None → is_active c (u_conv u) = false.
Proof. intros H. apply not_true_is_false. rewrite is_active_spec, H. done. Qed.

Lemma closed_reply i r now u : closed u →
  cv_contact (u_conv (resume i r now u)) = None ∧ cv_messages (u_conv (resume i r now u)) = [].
Proof.
  intros (Hc & Hm & Ht). unfold resume. destruct (u_tasks u !! i) as [t|] eqn:Ei; [|done].
  destruct t as [tok c l|c|c tid|c tid fn sz|target| |id].
  - rewrite decide_True; [done|]. specialize (Ht _ _ _ _ Ei). cbn. lia.
  - rewrite older_conv. cbn [u_conv without_task]. rewrite closed_inactive by done. by repeat case_match.
  - unfold sent. by rewrite closed_inactive.
  - unfold file_sent. by rewrite closed_inactive.
  - by destruct r.
  - done.
  - destruct r; [|done|done]. unfold dismissed. cbn. by rewrite Hm.
Qed.

Lemma closed_conv i now u : closed u → (∀ c l, i ≠ I_Open c l) →
  cv_contact (u_conv (react i now u)) = None ∧ cv_messages (u_conv (react i now u)) = [].
Proof.
  intros Hcl Hi. pose proof Hcl as (Hc & Hm & _). destruct i as [c l| | |c b t|c p f z t|row| |id|r|id s|c|n r]; cbn [react].
  - by destruct (Hi c l).
  - done.
  - unfold loadOlder. by repeat case_match.
  - unfold send. cbn. unfold append_placeholder. by rewrite closed_inactive.
  - unfold sendFile. cbn. unfold append_placeholder. by rewrite closed_inactive.
  - unfold markReadIfAtBottom. by rewrite Hc.
  - unfold mark_read_timer. by repeat case_match.
  - done.
  - unfold appendMessage. cbn. by rewrite Hc.
  - done.
  - unfold contact_removed. cbn. by rewrite Hc.
  - by apply closed_reply.
Qed.

Lemma closed_step u u' : idle_step u u' → closed u → closed u'.
Proof.
  intros (i & now & _ & Hi & ->) Hcl. destruct (closed_conv i now u Hcl Hi) as [Hc Hm]. split; [done|]. split; [done|].
  intros j tok c l Hj. destruct (react_loads i now u) as [Hn Hl]. destruct (Hl _ _ _ _ Hj) as [Hold|[_ Hi']]; [|by destruct (Hi c l)].
  destruct Hcl as (_ & _ & Ht). specialize (Ht _ _ _ _ Hold). lia.
Qed.

(** C19: the view never shows another conversation's messages, and closing it is final.
    Whatever the user clicks, whichever events arrive and in whichever order the daemon's
    replies come, as long as each reply holds records of the contact it was asked for:
    every message on the screen is of the contact whose conversation is open, and with no
    conversation open there is none.  After the conversation is closed nothing is shown
    again until one is opened, even if replies to requests made before it was closed
    arrive late. *)
Theorem view_isolated u u' :
  rtc ui_step ui_start u →
  Forall (λ m, Some (rec_contact (sh_record m)) = active u) (cv_messages (u_conv u)) ∧
  (cv_contact (u_conv u) = None → cv_messages (u_conv u) = []) ∧
  (rtc idle_step (closeConversation u) u' → cv_contact (u_conv u') = None ∧ cv_messages (u_conv u') = []).
Proof.
  intros Hrun. assert (belongs (u_conv u) ∧ tokens_upto (u_loadToken u) u) as [Hb Ht].
  { remember ui_start as u0 eqn:E0.
    assert (belongs (u_conv u0) ∧ tokens_upto (u_loadToken u0) u0) as H0 by (subst u0; by split; [constructor|]).
    clear E0. induction Hrun as [|x y z Hxy _ IH]; [done|]. apply IH. destruct H0. split; [by eapply belongs_step|by eapply tokens_step]. }
  split; [exact Hb|]. split; [intros Hc; by apply belongs_none|]. intros Hidle.
  assert (closed (closeConversation u)) as Hcl.
  { split; [done|]. split; [done|]. intros j tok c l Hj. specialize (Ht _ _ _ _ Hj). cbn. lia. }
  assert (closed u') as (? & ? & _); [|done].
  remember (closeConversation u) as v eqn:Ev. clear Ev. induction Hidle as [|x y z Hxy _ IH]; [done|]. by eapply IH, closed_step.
Qed.

(** ** Paging back *)

(** The message table. *)
Abbreviation messages_of d := (fget (of_db f_messages) d).

Section scrollback.
Context {scheme : SignatureScheme} {ser_env : Serialize Envelope} {de_env : Deserialize Envelope}.
Context (me : IdentityKey) (d : daemon).

(** The daemon's answer to a request of the view. *)
Definition daemon_answers (cmd : Command) : reply :=
  match cmd with
  | Cmd_RecentMessages contact max before_id paged =>
      match (recent_messages me contact max before_id paged d).2 with Ok r => R_Ok r | Err _ => R_Other "" end
  | _ => R_Ok Res_Ok
  end.

(** A function of the view whose first request is answered before anything else. *)
Definition answered (f : ui → ui) (u : ui) : ui :=
  let n := length (u_requests u) in
  match u_requests (f u) !! n with
  | Some cmd => resume n (daemon_answers cmd) 0 (f u)
  | None => f u
  end.

(** Open a conversation and scroll up [n] times. *)
Definition scrolled (n : nat) (contact : PublicKey) (last_read : option Z) (u : ui) : ui :=
  Nat.iter n (answered loadOlder) (answered (openConversationFromSummary contact last_read) u).

Lemma request_answered cmd t u :
  u_requests (request cmd t u) !! length (u_requests u) = Some cmd ∧ u_tasks (request cmd t u) !! length (u_requests u) = Some t.
Proof using Type.
  cbn. split; [rewrite lookup_app_r by lia; by rewrite Nat.sub_diag|apply lookup_insert_eq].
Qed.

Lemma answered_request f cmd t u u1 :
  f u = request cmd t u1 → u_requests u1 = u_requests u →
  answered f u = resume (length (u_requests u)) (daemon_answers cmd) 0 (request cmd t u1) ∧
  u_tasks (request cmd t u1) !! length (u_requests u) = Some t.
Proof using Type.
  intros Hf Hr. unfold answered. rewrite Hf. rewrite <- Hr. destruct (request_answered cmd t u1) as [-> ?]. done.
Qed.

Lemma answered_open contact last_read u rs next :
  (recent_messages me (Some (pk_bytes contact)) 50 None true d).2 = Ok (Res_MessagesPage rs next) →
  u_conv (answered (openConversationFromSummary contact last_read) u) =
    mkConversation (Some contact) (canonical <$> reverse rs) next false last_read (default 0 last_read).
Proof using Type.
  intros Hd. destruct (answered_request (openConversationFromSummary contact last_read) _ _ u _ eq_refl eq_refl) as [-> Ht].
  unfold resume. rewrite Ht. unfold daemon_answers. rewrite Hd. cbn [unwrapOk]. rewrite decide_False by (cbn; lia). apply opened_conv.
Qed.

Lemma answered_older contact l before a z u rs next :
  u_conv u = mkConversation (Some contact) l (Some before) false a z →
  (recent_messages me (Some (pk_bytes contact)) 50 (Some before) true d).2 = Ok (Res_MessagesPage rs next) →
  u_conv (answered loadOlder u) = mkConversation (Some contact) ((canonical <$> reverse rs) ++ l) next false a z.
Proof using Type.
  intros Hu Hd. assert (loadOlder u = request (Cmd_RecentMessages (Some (pk_bytes contact)) 50 (Some before) true) (T_Older contact)
    (with_conv (set_loading true) u)) as Hf by (unfold loadOlder; by rewrite Hu).
  destruct (answered_request loadOlder _ _ u _ Hf eq_refl) as [-> Ht].
  unfold resume. rewrite Ht. unfold daemon_answers. rewrite Hd, older_conv. cbn. rewrite Hu. cbn.
  unfold is_active, pubkeyEq. cbn. by rewrite bool_decide_eq_true_2.
Qed.

(** Each further page goes before those already shown. *)
Lemma scroll_rest fuel contact l before a z u records :
  u_conv u = mkConversation (Some contact) l (Some before) false a z →
  recent_all me fuel (pk_bytes contact) 50 (Some before) d = Some records →
  ∃ n, u_conv (Nat.iter n (answered loadOlder) u) = mkConversation (Some contact) ((canonical <$> reverse records) ++ l) None false a z.
Proof using Type.
  revert l before u records. induction fuel as [|fuel IH]; intros l before u records Hu; [done|]. cbn [recent_all].
  destruct (recent_messages me (Some (pk_bytes contact)) 50 (Some before) true d).2 as [res|] eqn:Hd; [|done].
  destruct res; try done. pose proof (answered_older _ _ _ _ _ _ _ _ Hu Hd) as H1.
  destruct next_before_id as [b|].
  - destruct (recent_all me fuel (pk_bytes contact) 50 (Some b) d) as [rest|] eqn:Hrest; [|done]. intros [= <-].
    destruct (IH _ _ _ _ H1 Hrest) as [n Hn]. exists (S n). rewrite Nat.iter_succ_r, Hn. by rewrite reverse_app, fmap_app, (assoc_L (++)).
  - intros [= <-]. by exists 1%nat.
Qed.

(** C24: scrolling up shows the whole conversation.  Take a conversation whose rows all
    decode (a page with a row that does not is taken for the last one) and in which
    a later row has no lower epoch.  Opening it and scrolling up until there is nothing
    more, with the daemon's own handler answering, ends after finitely many pages, and
    then the messages on the screen are the records of exactly the messages stored in
    the conversation, each once, oldest first. *)
Theorem scrollback_complete contact last_read g u :
  linked_group (pk_bytes contact) (d_contacts (dm_db d)) = Some g → messages_wf (messages_of d) → epochs_grow g (messages_of d) →
  (∀ r, r ∈ in_group g (messages_of d) → is_Some (record_of me (pk_bytes contact) (stored r))) →
  ∃ n, let s := u_conv (scrolled n contact last_read u) in
    cv_contact s = Some contact ∧ cv_nextBeforeId s = None ∧
    Forall2 (λ r m, sh_temp m = None ∧ record_of me (pk_bytes contact) (stored r) = Some (sh_record m))
      (reverse (conversation g (messages_of d))) (cv_messages s).
Proof using ser_env.
  intros Hl Hwf Hgrow Hdec.
  destruct (recent_pages_complete me (pk_bytes contact) g d 50 (S (length (in_group g (messages_of d)))) Hl Hwf Hgrow Hdec)
    as (records & Hall & H2); [widths|unfold len; lia|].
  assert (∃ n, u_conv (scrolled n contact last_read u) =
    mkConversation (Some contact) (canonical <$> reverse records) None false last_read (default 0 last_read)) as [n Hn].
  { cbn [recent_all] in Hall. destruct (recent_messages me (Some (pk_bytes contact)) 50 None true d).2 as [res|] eqn:Hd; [|done].
    destruct res; try done. pose proof (answered_open contact last_read u _ _ Hd) as H1. destruct next_before_id as [b|].
    - destruct (recent_all me _ (pk_bytes contact) 50 (Some b) d) as [rest|] eqn:Hrest; [|done]. injection Hall as <-.
      destruct (scroll_rest _ _ _ _ _ _ _ _ H1 Hrest) as [n Hn]. exists n. unfold scrolled. rewrite Hn. by rewrite reverse_app, fmap_app.
    - injection Hall as <-. by exists O. }
  exists n. rewrite Hn. split; [done|]. split; [done|]. cbn [cv_messages]. rewrite Forall2_fmap_r. apply Forall2_reverse.
  eapply Forall2_impl; [exact H2|]. done.
Qed.
End scrollback.

(** ** Two races *)

(** A page that is requested twice is shown twice.  A user scrolls up, closes the
    conversation and opens it again before the page has arrived, and scrolls up again;
    then both replies, which hold the same page, are put before the messages.  The reply
    to the first request is not recognised as belonging to the earlier visit. *)
Theorem stale_page_twice u contact last_read before newest page next next' now :
  cv_contact (u_conv u) = Some contact → cv_loadingOlder (u_conv u) = false → cv_nextBeforeId (u_conv u) = Some before →
  0 < max_row_id (reverse newest) →
  let n := length (u_requests u) in
  let u1 := react I_Older now u in
  let u2 := react (I_Open contact last_read) now (react I_Close now u1) in
  let u3 := react (I_Reply (S n) (R_Ok (Res_MessagesPage newest (Some before)))) now u2 in
  let u4 := react I_Older now u3 in
  let u5 := react (I_Reply n (R_Ok (Res_MessagesPage page next))) now u4 in
  let u6 := react (I_Reply (3 + n)%nat (R_Ok (Res_MessagesPage page next'))) now u5 in
  cv_messages (u_conv u6) = (canonical <$> reverse page) ++ (canonical <$> reverse page) ++ (canonical <$> reverse newest).
Proof.
  intros Hc Hlo Hb Hmax n u1 u2 u3 u4 u5 u6.
  assert (u1 = request (Cmd_RecentMessages (Some (pk_bytes contact)) 50 (Some before) true) (T_Older contact)
    (with_conv (set_loading true) u)) as E1 by (unfold u1; cbn [react]; unfold loadOlder; by rewrite Hlo, Hb, Hc).
  assert (length (u_requests u2) = (2 + n)%nat ∧ u_tasks u2 !! n = Some (T_Older contact) ∧
    u_tasks u2 !! S n = Some (T_Open (u_loadToken u2) contact last_read)) as (L2 & N2 & O2).
  { unfold u2. rewrite E1. cbn. rewrite !length_app. cbn. fold n. split; [lia|].
    replace (n + 1)%nat with (S n) by lia. rewrite lookup_insert_ne by lia. by rewrite !lookup_insert_eq. }
  clearbody n u2.
  assert (u_conv u3 = mkConversation (Some contact) (canonical <$> reverse newest) (Some before) false last_read (default 0 last_read) ∧
    length (u_requests u3) = (3 + n)%nat ∧ u_tasks u3 !! n = Some (T_Older contact)) as (C3 & L3 & N3).
  { unfold u3. cbn [react]. unfold resume. rewrite O2. cbn [u_loadToken without_task]. rewrite decide_False by (intros H; by apply H).
    cbn [unwrapOk]. split; [apply opened_conv|]. unfold opened. rewrite decide_True by done. cbn. rewrite length_app, L2. cbn.
    split; [lia|]. rewrite lookup_insert_ne by lia. by rewrite lookup_delete_ne by lia. }
  clearbody u3.
  assert (u4 = request (Cmd_RecentMessages (Some (pk_bytes contact)) 50 (Some before) true) (T_Older contact)
    (with_conv (set_loading true) u3)) as E4 by (unfold u4; cbn [react]; unfold loadOlder; by rewrite C3).
  clearbody u4.
  assert (∀ s, cv_contact s = Some contact → is_active contact s = true) as Hact by (intros s Hs; apply is_active_spec; by rewrite Hs).
  assert (u_tasks u4 !! n = Some (T_Older contact) ∧ u_tasks u4 !! (3 + n)%nat = Some (T_Older contact)) as [N4 M4].
  { rewrite E4. cbn. rewrite L3. split; [rewrite lookup_insert_ne by lia; done|by rewrite lookup_insert_eq]. }
  assert (u_tasks u5 !! (3 + n)%nat = Some (T_Older contact)) as M5.
  { unfold u5. cbn [react]. unfold resume. rewrite N4. change (base.delete n (u_tasks u4) !! (3 + n)%nat = Some (T_Older contact)).
    by rewrite lookup_delete_ne by lia. }
  assert (cv_messages (u_conv u5) = (canonical <$> reverse page) ++ (canonical <$> reverse newest) ∧
    cv_contact (u_conv u5) = Some contact) as [C5 K5].
  { unfold u5. cbn [react]. unfold resume. rewrite N4, older_conv. cbn [unwrapOk]. cbn [u_conv without_task]. rewrite E4.
    cbn [u_conv request with_conv]. rewrite C3. by rewrite Hact. }
  clearbody u5.
  unfold u6. cbn [react]. unfold resume. rewrite M5, older_conv. cbn [unwrapOk]. cbn [u_conv without_task]. rewrite Hact by done.
  cbn [cv_messages]. by rewrite C5.
Qed.

(** A reply to [mark_read] moves the cursor of whatever conversation is open by then.  Row
    ids are shared by all conversations, so when the user has gone on to another one its
    messages up to the old conversation's row are taken for read and never reported. *)
Theorem read_cursor_leaks u i target r now row :
  u_tasks u !! i = Some (T_MarkRead target) → (∀ m, r ≠ R_Rejected m) → row ≤ target →
  let u' := react (I_Reply i r) now u in
  cv_contact (u_conv u') = cv_contact (u_conv u) ∧ cv_readCursor (u_conv u') = target ∧ react (I_Bottom row) now u' = u'.
Proof.
  intros Ht Hr Hrow u'. assert (u' = with_conv (set_cursor target) (without_task i u)) as E.
  { unfold u'. cbn [react]. unfold resume. rewrite Ht. destruct r as [| |m]; [done|done|]. by destruct (Hr m). }
  rewrite E. split; [done|]. split; [done|]. cbn [react]. unfold markReadIfAtBottom. cbn.
  destruct (cv_contact (u_conv u)); [|done]. by rewrite decide_True.
Qed.

(** ** Witnesses *)

Module UiSamples.
Definition ada : PublicKey := mkKey 1 (fill 32 Byte.x0a).
Definition text_row (row : Z) : MessageRecord :=
  mkMessageRecord row (fill 16 (byte_of_Z row)) (fill 32 Byte.x0a) Incoming (Text "hi") 0 0 0 None None None.
Definition page_of (rows : list Z) (next : option Z) : reply := R_Ok (Res_MessagesPage (text_row <$> rows) next).
(** A conversation is opened, and closed while an older page is loading. *)
Definition opening : list input := [I_Open ada None; I_Reply 0 (page_of [9; 8] (Some 8)); I_Older].
Definition after (l : list input) (u : ui) : ui := foldl (λ u i, react i 0 u) u l.
End UiSamples.
Import UiSamples.

Lemma view_isolated_witness :
  let u := after opening ui_start in
  let u' := after [I_Reply 2 (page_of [7] None); I_Received (text_row 10)] (closeConversation u) in
  length (cv_messages (u_conv u)) = 2%nat ∧ cv_messages (u_conv u') = [].
Proof.
  intros u u'. split; [reflexivity|]. apply (view_isolated u u').
  - apply (rtc_l _ _ (after [I_Open ada None] ui_start)); [exists (I_Open ada None), 0; done|].
    apply (rtc_l _ _ (after (take 2 opening) ui_start)).
    + exists (I_Reply 0 (page_of [9; 8] (Some 8))), 0. split; [|done]. intros t [= <-]. by repeat constructor.
    + apply rtc_once. exists I_Older, 0. done.
  - apply (rtc_l _ _ (after [I_Reply 2 (page_of [7] None)] (closeConversation u))).
    + exists (I_Reply 2 (page_of [7] None)), 0. split; [|done]. intros t [= <-]. by repeat constructor.
    + apply rtc_once. exists (I_Received (text_row 10)), 0. done.
Defined.

Import HistorySamples.

Lemma scrollback_complete_witness :
  ∃ n, length (cv_messages (u_conv (scrolled (scheme := toy_scheme) self sample_daemon n (mkKey 1 peer) None ui_start))) = 3%nat.
Proof.
  destruct (scrollback_complete (scheme := toy_scheme) self sample_daemon (mkKey 1 peer) None sample_group ui_start)
    as (n & _ & _ & H); [vm_compute; reflexivity|exact sample_messages_wf|exact sample_epochs|exact sample_decodes|].
  exists n. apply Forall2_length in H. rewrite <- H. vm_compute. reflexivity.
Defined.

(** The reply to the first request arrives in the second visit. *)
Lemma stale_page_example :
  rec_row_id ∘ sh_record <$> cv_messages (u_conv (after
    [I_Close; I_Open ada None; I_Reply 3 (page_of [9; 8] (Some 8)); I_Older; I_Reply 2 (page_of [7; 6] None);
     I_Reply 5 (page_of [7; 6] None)] (after opening ui_start))) = [6; 7; 6; 7; 8; 9].
Proof. vm_compute. reflexivity. Qed.
