(* ===== verification/UiConfig.v ===== *)
(** * UiConfig: the settings store

    [crates/ui/src-svelte/src/lib/stores/config.ts]: the cached configuration, and edits
    that are shown at once and sent to the daemon when no further edit follows within half
    a second.  As in [Ui], a function that awaits the daemon is cut at its request.  A
    promise is a number; the list of the settled ones says how each ended. *)

From S2P Require Import Prelude Text CoreErrors Messages Api Ui.

(** ** Patches *)

(** A patch as a JavaScript object: a key may be missing, or [null]. *)
Record js_patch : Type := mkJsPatch {
  js_history_retention_days : option (option Z);
  js_direct_timeout_secs : option (option Z);
  js_notification_mode : option (option NotificationMode);
  js_close_to_tray : option (option bool);
  js_start_minimised : option (option bool);
  js_persist_logs_to_disk : option (option bool);
  js_download_dir : option (option string)
}.

Definition empty_patch : ConfigPatch := mkConfigPatch None None None None None None None.

(** [{ ...pending, ...patch }]. *)
Definition spread (pending : ConfigPatch) (p : js_patch) : ConfigPatch :=
  mkConfigPatch
    (default (cp_history_retention_days pending) (js_history_retention_days p))
    (default (cp_direct_timeout_secs pending) (js_direct_timeout_secs p))
    (default (cp_notification_mode pending) (js_notification_mode p))
    (default (cp_close_to_tray pending) (js_close_to_tray p))
    (default (cp_start_minimised pending) (js_start_minimised p))
    (default (cp_persist_logs_to_disk pending) (js_persist_logs_to_disk p))
    (default (cp_download_dir pending) (js_download_dir p)).

(** The keys of the patch that are neither missing nor [null], on the snapshot. *)
Definition overlay {A} (v : option (option A)) (old : A) : A := match v with Some (Some x) => x | _ => old end.
Definition merged (p : js_patch) (s : ConfigSnapshot) : ConfigSnapshot :=
  mkConfigSnapshot
    (overlay (js_history_retention_days p) (cs_history_retention_days s))
    (overlay (js_direct_timeout_secs p) (cs_direct_timeout_secs s))
    (overlay (js_notification_mode p) (cs_notification_mode s))
    (overlay (js_close_to_tray p) (cs_close_to_tray s))
    (overlay (js_start_minimised p) (cs_start_minimised s))
    (overlay (js_persist_logs_to_disk p) (cs_persist_logs_to_disk s)).

(** ** State *)

(** What is left to do: a fetch, a save of a promise, and the fetch after a failed save. *)
Inductive config_task : Type := C_Fetch | C_Save (promise : nat) (toSend : ConfigPatch) | C_Rollback (promise : nat).

Record settings : Type := mkSettings {
  st_snapshot : option ConfigSnapshot;
  st_fetchedAt : Z;
  st_pendingPatch : ConfigPatch;
  st_saveTimer : option nat;
  st_next : nat;
  st_settled : list (nat * bool);
  st_tasks : gmap nat config_task;
  st_requests : list Command
}.
Definition settings_start : settings := mkSettings None 0 empty_patch None 0 [] ∅ [].

Definition CACHE_TTL_MS : Z := 5000.

Definition ask (cmd : Command) (t : config_task) (s : settings) : settings :=
  mkSettings (st_snapshot s) (st_fetchedAt s) (st_pendingPatch s) (st_saveTimer s) (st_next s) (st_settled s)
    (<[length (st_requests s) := t]> (st_tasks s)) (st_requests s ++ [cmd]).
Definition settle (n : nat) (ok : bool) (s : settings) : settings :=
  mkSettings (st_snapshot s) (st_fetchedAt s) (st_pendingPatch s) (st_saveTimer s) (st_next s) (st_settled s ++ [(n, ok)])
    (st_tasks s) (st_requests s).
Definition show_snapshot (c : option ConfigSnapshot) (at_ : Z) (s : settings) : settings :=
  mkSettings c at_ (st_pendingPatch s) (st_saveTimer s) (st_next s) (st_settled s) (st_tasks s) (st_requests s).
Definition done_task (i : nat) (s : settings) : settings :=
  mkSettings (st_snapshot s) (st_fetchedAt s) (st_pendingPatch s) (st_saveTimer s) (st_next s) (st_settled s)
    (base.delete i (st_tasks s)) (st_requests s).

(** ** Operations *)

(** [fetchConfig], up to its request; [t] is what follows. *)
Definition fetchConfig (t : config_task) (now : Z) (s : settings) : settings :=
  match st_snapshot s with
  | Some _ => if decide (now - st_fetchedAt s < CACHE_TTL_MS) then s else ask Cmd_GetConfig t s
  | None => ask Cmd_GetConfig t s
  end.
Definition fetched (r : reply) (now : Z) (s : settings) : settings :=
  match r with R_Ok (Res_Config c) => show_snapshot (Some c) now s | _ => s end.

(** [patchConfig]; the promise it returns is the previous [st_next]. *)
Definition patchConfig (p : js_patch) (now : Z) (s : settings) : settings :=
  let s1 := match st_snapshot s with
            | Some c => show_snapshot (Some (merged p c)) now s
            | None => s
            end in
  mkSettings (st_snapshot s1) (st_fetchedAt s1) (spread (st_pendingPatch s) p) (Some (st_next s)) (S (st_next s)) (st_settled s)
    (st_tasks s) (st_requests s).

(** The timer: what is pending is sent. *)
Definition save_timer (s : settings) : settings :=
  match st_saveTimer s with
  | None => s
  | Some n =>
      ask (Cmd_SetConfig (st_pendingPatch s)) (C_Save n (st_pendingPatch s))
        (mkSettings (st_snapshot s) (st_fetchedAt s) empty_patch None (st_next s) (st_settled s) (st_tasks s) (st_requests s))
  end.

(** Back to what the daemon has. *)
Definition roll_back (n : nat) (s : settings) : settings := ask Cmd_GetConfig (C_Rollback n) (show_snapshot None 0 s).

(** The reply to request [i]; [tray] is whether [set_close_to_tray] succeeds. *)
Definition config_resume (i : nat) (r : reply) (tray : bool) (now : Z) (s : settings) : settings :=
  match st_tasks s !! i with
  | None => s
  | Some t =>
      let s := done_task i s in
      match t, r with
      | C_Fetch, _ => fetched r now s
      | C_Save n toSend, R_Ok _ =>
          if decide (cp_close_to_tray toSend ≠ None ∧ tray = false) then roll_back n s else settle n true s
      | C_Save n _, _ => roll_back n s
      | C_Rollback n, _ => settle n false (fetched r now s)
      end
  end.

Inductive settings_step : settings → settings → Prop :=
| do_fetch now s : settings_step s (fetchConfig C_Fetch now s)
| do_patch p now s : settings_step s (patchConfig p now s)
| do_timer s : settings_step s (save_timer s)
| do_reply i r tray now s : settings_step s (config_resume i r tray now s).

(** ** Coalesced edits *)

(** A promise that nothing will settle. *)
Record forgotten (n : nat) (s : settings) : Prop := {
  fg_old : (n < st_next s)%nat;
  fg_timer : st_saveTimer s ≠ Some n;
  fg_tasks : ∀ i, (∀ p, st_tasks s !! i ≠ Some (C_Save n p)) ∧ st_tasks s !! i ≠ Some (C_Rollback n);
  fg_open : n ∉ (st_settled s).*1
}.

Lemma forgotten_ask n cmd t s : (∀ p, t ≠ C_Save n p) → t ≠ C_Rollback n → forgotten n s → forgotten n (ask cmd t s).
Proof.
  intros H1 H2 [? ? Ht ?]. split; [done|done| |done]. intros i. cbn. specialize (Ht i).
  destruct (decide (i = length (st_requests s))) as [->|Hi]; [rewrite lookup_insert_eq; naive_solver|by rewrite lookup_insert_ne].
Qed.

Lemma forgotten_settle n m ok s : m ≠ n → forgotten n s → forgotten n (settle m ok s).
Proof.
  intros Hm [? ? ? Ho]. split; [done..|]. cbn. rewrite fmap_app, not_elem_of_app. split; [done|]. cbn. set_solver.
Qed.

Lemma forgotten_fetched n r now s : forgotten n s → forgotten n (fetched r now s).
Proof. intros [? ? ? ?]. unfold fetched. by repeat case_match. Qed.

Lemma forgotten_done n i s : forgotten n s → forgotten n (done_task i s).
Proof.
  intros [? ? Ht ?]. split; [done|done| |done]. intros j. cbn. specialize (Ht j). destruct (decide (i = j)) as [->|Hj].
  - by rewrite lookup_delete_eq.
  - by rewrite lookup_delete_ne.
Qed.

Lemma forgotten_roll_back n m s : m ≠ n → forgotten n s → forgotten n (roll_back m s).
Proof. intros Hm []. apply forgotten_ask; [done|naive_solver|done]. Qed.

Lemma forgotten_resume n i r tray now s : forgotten n s → forgotten n (config_resume i r tray now s).
Proof.
  intros H. unfold config_resume. destruct (st_tasks s !! i) as [t|] eqn:E; [|done].
  pose proof (forgotten_done n i s H) as Hd. destruct H as [_ _ Ht _]. specialize (Ht i). rewrite E in Ht.
  destruct t as [|m toSend|m].
  - by apply forgotten_fetched.
  - assert (m ≠ n) by naive_solver. destruct r; [case_decide|..]; auto using forgotten_settle, forgotten_roll_back.
  - apply forgotten_settle; [naive_solver|by apply forgotten_fetched].
Qed.

Lemma forgotten_step n s s' : settings_step s s' → forgotten n s → forgotten n s'.
Proof.
  intros Hstep H. destruct Hstep as [now s|p now s|s|i r tray now s].
  - unfold fetchConfig. repeat case_match; try done; by apply forgotten_ask.
  - destruct H as [? ? ? ?]. split; cbn; [lia|intros [= E]; lia|done|done].
  - unfold save_timer. destruct (st_saveTimer s) as [m|] eqn:E; [|done]. apply forgotten_ask; [intros ? [= ->]; by destruct H|done|].
    by destruct H.
  - by apply forgotten_resume.
Qed.

(** ** The settings pages *)

(** The edits the pages make. *)
Inductive edit : Type :=
| Edit_Retention (days : Z)
| Edit_Notifications (mode : NotificationMode)
| Edit_CloseToTray (v : bool)
| Edit_StartMinimised (v : bool)
| Edit_PersistLogs (v : bool)
| Edit_DownloadDir (picked : string).

Definition setting (e : edit) : string :=
  match e with
  | Edit_Retention _ => "history_retention_days" | Edit_Notifications _ => "notification_mode" | Edit_CloseToTray _ => "close_to_tray"
  | Edit_StartMinimised _ => "start_minimised" | Edit_PersistLogs _ => "persist_logs_to_disk" | Edit_DownloadDir _ => "download_dir"
  end.

(** The patch a page passes: the other keys are [null]. [singlePatch] of the advanced
    page has no key [download_dir] unless that is the field. *)
Definition singlePatch (tray minimised logs : option bool) (dir : option (option string)) : js_patch :=
  mkJsPatch (Some None) (Some None) (Some None) (Some tray) (Some minimised) (Some logs) dir.
Definition patch_of (e : edit) : js_patch :=
  match e with
  | Edit_Retention days => mkJsPatch (Some (Some days)) (Some None) (Some None) (Some None) (Some None) (Some None) (Some None)
  | Edit_Notifications mode => mkJsPatch (Some None) (Some None) (Some (Some mode)) (Some None) (Some None) (Some None) (Some None)
  | Edit_CloseToTray v => singlePatch (Some v) None None None
  | Edit_StartMinimised v => singlePatch None (Some v) None None
  | Edit_PersistLogs v => singlePatch None None (Some v) None
  | Edit_DownloadDir picked => singlePatch None None None (Some (Some picked))
  end.

(** The patch changes the setting of [e] as [e] says; or leaves it. *)
Definition saves (e : edit) (p : ConfigPatch) : Prop :=
  match e with
  | Edit_Retention days => cp_history_retention_days p = Some days
  | Edit_Notifications mode => cp_notification_mode p = Some mode
  | Edit_CloseToTray v => cp_close_to_tray p = Some v
  | Edit_StartMinimised v => cp_start_minimised p = Some v
  | Edit_PersistLogs v => cp_persist_logs_to_disk p = Some v
  | Edit_DownloadDir picked => cp_download_dir p = Some picked
  end.
Definition leaves (e : edit) (p : ConfigPatch) : Prop :=
  match e with
  | Edit_Retention _ => cp_history_retention_days p = None
  | Edit_Notifications _ => cp_notification_mode p = None
  | Edit_CloseToTray _ => cp_close_to_tray p = None
  | Edit_StartMinimised _ => cp_start_minimised p = None
  | Edit_PersistLogs _ => cp_persist_logs_to_disk p = None
  | Edit_DownloadDir _ => cp_download_dir p = None
  end.
(** The snapshot shows it; it has no field for the download directory. *)
Definition shows (e : edit) (c : ConfigSnapshot) : Prop :=
  match e with
  | Edit_Retention days => cs_history_retention_days c = days
  | Edit_Notifications mode => cs_notification_mode c = mode
  | Edit_CloseToTray v => cs_close_to_tray c = v
  | Edit_StartMinimised v => cs_start_minimised c = v
  | Edit_PersistLogs v => cs_persist_logs_to_disk c = v
  | Edit_DownloadDir _ => True
  end.

(** The second edit's patch has [null] for the first one's setting: another setting,
    and not a download directory before a switch of the advanced page. *)
Definition clobbers (e2 e1 : edit) : Prop :=
  setting e1 ≠ setting e2 ∧
  match e1, e2 with Edit_DownloadDir _, (Edit_CloseToTray _ | Edit_StartMinimised _ | Edit_PersistLogs _) => False | _, _ => True end.

Lemma spread_clobbers e1 e2 p : clobbers e2 e1 → saves e2 (spread p (patch_of e2)) ∧ leaves e1 (spread p (patch_of e2)).
Proof. intros [Hs Hd]. by destruct e1, e2. Qed.
Lemma merged_shows e1 e2 c : setting e1 ≠ setting e2 → let c' := merged (patch_of e2) (merged (patch_of e1) c) in shows e1 c' ∧ shows e2 c'.
Proof. intros Hs. by destruct e1, e2. Qed.

(** The runs of the settings store with the pages. *)
Inductive page_step : settings → settings → Prop :=
| page_fetch now s : page_step s (fetchConfig C_Fetch now s)
| page_edit e now s : page_step s (patchConfig (patch_of e) now s)
| page_timer s : page_step s (save_timer s)
| page_reply i r tray now s : page_step s (config_resume i r tray now s).

Lemma page_settings s s' : page_step s s' → settings_step s s'.
Proof. destruct 1; constructor. Qed.

(** The invariant of the numbers. *)
Definition numbered (s : settings) : Prop :=
  (∀ n, st_saveTimer s = Some n → (n < st_next s)%nat) ∧
  (∀ i n p, st_tasks s !! i = Some (C_Save n p) ∨ st_tasks s !! i = Some (C_Rollback n) → (n < st_next s)%nat) ∧
  Forall (λ kv, kv.1 < st_next s)%nat (st_settled s).


Lemma numbered_ask cmd t s : (∀ n p, t = C_Save n p ∨ t = C_Rollback n → n < st_next s)%nat → numbered s → numbered (ask cmd t s).
Proof.
  intros Hn (Ht & Hk & Hs). split_and!; [done| |done]. intros i n p. cbn.
  destruct (decide (i = length (st_requests s))) as [->|Hi]; [rewrite lookup_insert_eq|rewrite lookup_insert_ne by done; apply Hk].
  intros [[= E]|[= E]]; apply (Hn n p); [by left|by right].
Qed.
Lemma numbered_done i s : numbered s → numbered (done_task i s).
Proof.
  intros (Ht & Hk & Hs). split_and!; [done| |done]. intros j n p. cbn. rewrite !lookup_delete_Some. intros [[_ ?]|[_ ?]]; apply (Hk j n p); auto.
Qed.
Lemma numbered_settle n ok s : (n < st_next s)%nat → numbered s → numbered (settle n ok s).
Proof. intros Hn (Ht & Hk & Hs). split_and!; [done..|]. cbn. apply Forall_app. by split; [|repeat constructor]. Qed.
Lemma numbered_fetched r now s : numbered s → numbered (fetched r now s).
Proof. unfold fetched. by repeat case_match. Qed.
Lemma numbered_roll_back n s : (n < st_next s)%nat → numbered s → numbered (roll_back n s).
Proof. intros Hn Hs. apply numbered_ask; [by intros m p [?|[= ->]]|done]. Qed.
Lemma fetched_next r now s : st_next (fetched r now s) = st_next s.
Proof. unfold fetched. by repeat case_match. Qed.

Lemma numbered_step s s' : settings_step s s' → numbered s → numbered s'.
Proof.
  destruct 1 as [now s|p now s|s|i r tray now s]; intros Hn.
  - unfold fetchConfig. repeat case_match; try done; by apply numbered_ask; [intros ?? [?|?]|].
  - destruct Hn as (Ht & Hk & Hs). split_and!; cbn; [intros n [= <-]; lia|intros i n q H; specialize (Hk i n q H); lia|].
    eapply Forall_impl; [exact Hs|]. cbn. lia.
  - unfold save_timer. destruct (st_saveTimer s) as [m|] eqn:E; [|done]. destruct Hn as (Ht & Hk & Hs).
    apply numbered_ask; [|by split_and!]. intros n p [[= -> _]|?]; [by apply Ht|done].
  - unfold config_resume. destruct (st_tasks s !! i) as [t|] eqn:E; [|done]. pose proof (numbered_done i s Hn) as Hd.
    destruct Hn as (_ & Hk & _). destruct t as [|n toSend|n]; [by apply numbered_fetched|..].
    + assert (n < st_next s)%nat by (apply (Hk i n toSend); by left).
      destruct r; [case_decide|..]; auto using numbered_settle, numbered_roll_back.
    + assert (n < st_next s)%nat by (apply (Hk i n empty_patch); by right).
      apply numbered_settle; [by rewrite fetched_next|by apply numbered_fetched].
Qed.

Lemma numbered_run s : rtc page_step settings_start s → numbered s.
Proof.
  intros H. revert s H. apply (rtc_ind_r (R := page_step) numbered).
  - by split_and!; [|intros ??? [?|?]|constructor].
  - intros x y _ Hxy. by apply numbered_step, page_settings.
Qed.

(** C40: of two edits in a row the first is lost.  The settings pages pass patches in
    which the fields that do not change are [null] (the switches of the advanced page
    leave out the download directory).  When an edit of one setting is followed by an
    edit of another before it was sent, and the second patch has [null] for the first
    setting, the spread replaces what the first had set: the one request that is sent
    saves the second edit and leaves the first one's setting, although both are shown;
    and the promise of the first edit is never settled, so its page waits for ever. *)
Theorem coalesced_edit_lost e1 e2 now1 now2 s s' c :
  rtc page_step settings_start s → st_snapshot s = Some c → clobbers e2 e1 →
  let s3 := save_timer (patchConfig (patch_of e2) now2 (patchConfig (patch_of e1) now1 s)) in
  (∃ q, st_requests s3 = st_requests s ++ [Cmd_SetConfig q] ∧ saves e2 q ∧ leaves e1 q) ∧
  (∃ c3, st_snapshot s3 = Some c3 ∧ shows e1 c3 ∧ shows e2 c3) ∧
  (rtc page_step s3 s' → st_next s ∉ (st_settled s').*1).
Proof.
  intros (Ht & Hk & Hs)%numbered_run Hc Hcl s3.
  assert (forgotten (st_next s) s3) as Hf.
  { unfold s3, save_timer, patchConfig. cbn. apply forgotten_ask; [intros ? [= E]; lia|done|]. split; cbn; [lia|done| |].
    - intros i. split; [intros p E; specialize (Hk i _ p (or_introl E))|intros E; specialize (Hk i _ empty_patch (or_intror E))]; lia.
    - intros ([n b] & E & Hin)%list_elem_of_fmap. cbn in E. rewrite Forall_forall in Hs. specialize (Hs _ Hin). cbn in Hs. lia. }
  split_and!.
  - eexists. split; [reflexivity|]. by apply spread_clobbers.
  - eexists. unfold s3, save_timer, patchConfig. cbn -[merged]. rewrite Hc. split; [reflexivity|]. apply merged_shows, Hcl.
  - intros Hrun. assert (forgotten (st_next s) s') as [_ _ _ Ho]; [|done].
    clear -Hf Hrun. induction Hrun as [|x y z Hxy _ IH]; [done|]. apply IH. by eapply forgotten_step; [apply page_settings|].
Qed.

(** Retention is set to a week and then, within half a second, the window is told to
    close to the tray. *)
Definition loaded : settings :=
  config_resume 0 (R_Ok (Res_Config (mkConfigSnapshot 0 30 Full false false false))) true 1000 (fetchConfig C_Fetch 1000 settings_start).

Lemma coalesced_edit_lost_witness :
  let s3 := save_timer (patchConfig (patch_of (Edit_CloseToTray true)) 1400 (patchConfig (patch_of (Edit_Retention 7)) 1200 loaded)) in
  (∃ q, st_requests s3 = [Cmd_GetConfig; Cmd_SetConfig q] ∧ cp_close_to_tray q = Some true ∧ cp_history_retention_days q = None) ∧
  0%nat ∉ (st_settled (config_resume 1 (R_Ok Res_Ok) true 1500 s3)).*1.
Proof.
  intros s3. destruct (coalesced_edit_lost (Edit_Retention 7) (Edit_CloseToTray true) 1200 1400 loaded
    (config_resume 1 (R_Ok Res_Ok) true 1500 s3) (mkConfigSnapshot 0 30 Full false false false)) as (H1 & _ & H2).
  - eapply rtc_l; [apply page_fetch|]. apply rtc_once, page_reply.
  - reflexivity.
  - by split.
  - split; [exact H1|]. apply H2. apply rtc_once. apply page_reply.
Defined.
